(* ===== verification/_CoqProject ===== *)
-Q . S2P
Prelude.v
Interval.v
PlanIR.v
PlanCommon.v
PlanNodes.v
ScanMap.v
Index.v
Executor.v
Reference.v
Forwarder.v
Accounting.v
Scheduler.v
Lane.v
Claims.v
Joins.v
Aggregates.v
Validate.v
Driver.v
DriverBooks.v
DriverReady.v
CpuOps.v
Samples.v
CpuEmit.v
CpuFacts.v
CpuSource.v
JoinFacts.v
CpuJoin.v
AggFacts.v
ValidFacts.v
Denote.v
PlanSound.v
Nullability.v
Physical.v
ExprTrans.v
ScanMeta.v
TransCommon.v
TransAgg.v
TransDistinct.v
Translate.v
TransSamples.v
TransFacts.v
TransTotal.v
Rebatch.v
Memory.v
MemFacts.v
Pipeline.v
WireExpr.v
Wire.v
Attach.v
WireFacts.v
Dphyp.v
DphypSets.v
DphypSteps.v
DphypFacts.v
Gpu.v
GpuAcc.v
GpuJoin.v
GpuFacts.v
GpuHandles.v
CpuBuild.v
CpuBuildFacts.v
Measure.v
MeasureFacts.v
Logical.v
NotIn.v
LogicalSql.v
LogicalSamples.v
NotInFacts.v
NotInTotal.v
