(* ===== verification/Prelude.v ===== *)
(** * PeacockDB: planning and running a query, verified

    PeacockDB runs an analytical query on a GPU or, the same plan, on the CPU.  DataFusion parses and
    plans it; [src/peacockdb-core] turns DataFusion's physical plan into a tree of its own nodes,
    checks it, prices it, writes it for the device, and drives it batch by batch under a memory
    budget.  [src/peacockdb-dphyp] orders joins.  This development models that code in Rocq, each
    definition after a function, type or arm of the source, and proves what makes it correct.  Paths
    below are under [src/peacockdb-core/src/] unless they start with [src/].

    ** The parts and where they are

    A query goes through the parts in this order.

    - The planner.  Physical.v is DataFusion's plan as the translator's downcasts read it; its
      methods are the class [DataFusion], a parameter.  ExprTrans.v ([planner/translator/expr.rs] and
      its inverse [executor/cpu_backend/expr_physical.rs]), ScanMeta.v and ScanMap.v
      ([translator/scan_mapping]), TransCommon.v, TransAgg.v, TransDistinct.v and Translate.v
      ([translator/common.rs], [aggregate.rs], [aggregate/distinct.rs], [nodes.rs], [mod.rs]) make
      the tree; Nullability.v ([planner/nullability.rs]) says which columns hold a NULL; Memory.v
      ([planner/memory_estimation.rs], [common.rs]) prices it; Pipeline.v ([planner/pipeline.rs])
      composes them, twice where a budget sizes the batches.  Ahead of all that DataFusion's optimizer
      runs one rule of this program on its logical plan: Logical.v (the plan and the logical half of
      [planner/nullability.rs], over the class [LogicalApi]) and NotIn.v ([planner/not_in.rs]).
    - The plan.  PlanIR.v ([plan/mod.rs]) is the data: expressions, schemas, layouts and the nineteen
      nodes.  PlanCommon.v, PlanNodes.v, Joins.v and Aggregates.v ([plan/common.rs], [exec_ops.rs],
      [partition_ops.rs], [accumulators.rs], [unload.rs], [union.rs], [source.rs], [join.rs],
      [aggregates.rs], [aggregate.rs]) are the constructors and each node's requirements, Validate.v
      ([plan/validate.rs]) the check of a tree, Interval.v ([plan/interval.rs],
      [executor/row_range.rs]) row intervals and the streaming limit.
    - The wire.  WireExpr.v ([wire/expr_writer.rs], [serialize.rs]), Wire.v ([wire/mod.rs],
      [node_writer.rs], [aggregate_writer.rs], [join.rs], [read.rs]) and Attach.v ([wire/writer.rs],
      [attach.rs]) write the buffer the device reads and the calls ("recipes") each node makes of it.
    - The driver.  Index.v ([executor/driver/index.rs]) numbers the tree, Scheduler.v
      ([scheduler.rs]) picks the node to run, Accounting.v ([accounting.rs]) keeps the bytes, Lane.v
      ([single_partition.rs]) runs one lane, Forwarder.v ([executor/forwarder.rs]) routes, Driver.v
      ([partitioned.rs]) is the loop.  Executor.v ([executor/mod.rs]) is the interface the driver is
      generic over, the class [Backend]; Reference.v is a small instance to run the driver on.
      Measure.v ([executor/driver/measurements.rs]) joins what a run journalled with what the device
      recorded of it.
    - The CPU backend.  CpuOps.v, CpuEmit.v, CpuSource.v and CpuJoin.v ([executor/cpu_backend]) run a
      node's operators, CpuBuild.v ([cpu_backend/mod.rs], [backend.rs], [single_node.rs],
      [merge_m2.rs]) makes them and picks each node's executor; over the classes [Arrow], [Parquet],
      [JoinStreams] and [Operators] that stand for the libraries they call.
    - The GPU backend.  Gpu.v, GpuAcc.v and GpuJoin.v ([executor/gpu_backend], [executor/gpu_batch.rs]),
      over the class [Device], the C calls of a query's session; they run the recipes Attach.v records.
    - Join order.  Dphyp.v ([src/peacockdb-dphyp/src/enumerate.rs], [lib.rs], [ffi.rs]) enumerates the
      join trees of a hypergraph.

    The other files hold proofs, concrete inputs for witnesses (Samples.v, TransSamples.v,
    LogicalSamples.v) or the semantics theorems are stated against: Claims.v (what a layout says
    of lanes of batches), Denote.v (what each node may answer), JoinFacts.v (the nine joins of
    SQL), AggFacts.v (the SQL aggregates), LogicalSql.v (a logical plan in three-valued logic,
    over the class [Sql]). This file holds what they share: result and state monads, list and
    arithmetic lemmas, the development's tactics and hint databases.

    ** How the model reads

    Fallible code answers a [result] or, where it can also panic, an [outcome] or an [option] whose
    [None] is the panic.  State is threaded by hand or in the state monad [M] of this file, whose
    state survives an error as [&mut self] does.  Machine integers that can wrap wrap ([u64] row
    counts in Interval.v, sums and products of bytes in Memory.v and PlanNodes.v, masks in Dphyp.v, the
    [i32]s of the C ABI); counts of things in memory at once are unbounded.  Aggregates are compared
    over exact rationals, a decimal cut to its scale and its precision left out.  [f64] is the Standard Library's [spec_float] at 53 bits
    and exponent 1024.  Error texts are kept where they are short and constant.

    Recursion is structural over the plan ([fold_node]) where it can be.  The translation takes
    several plan nodes at a step and runs on the plan's size as fuel (TransTotal.v: enough); the
    [NOT IN] walk runs on [rewrite_fuel], the plan's depth with two more for each [NOT IN] (NotInTotal.v: enough); the
    driver's loop runs on the steps the source allows itself plus two (DriverReady.v: it ends
    sooner); the scheduler's walks, the estimator's amplification walk and the enumerator run on the
    number of nodes or relations (Scheduler.v, MemFacts.v, DphypFacts.v: enough).

    ** What the theorems show

    - Planning: the [NOT IN] rule refuses a plan or answers one whose rows, under the two-valued joins
      its subqueries become, are SQL's ([not_in_rewrite_is_exact]); the translated tree is made of
      constructor calls on inputs they accept, its aggregates' states declaring their keys
      ([translated_tree_fits]), the translation ends ([translation_terminates]), the two passes
      describe one tree ([passes_describe_one_plan]), a planned tree satisfies what the checks
      require ([planned_tree_is_sound]); an expression means the same to both engines
      ([rebuilt_expression_answers_alike]); the row groups are all read once
      ([partition_reads_every_group], each batch filled as far as its target goes); pricing answers for every scan and ends.
    - The plan's claims: a validated tree's declared lanes, hashes, orders and batch counts hold of
      every answer its nodes may give ([declared_layouts_hold]), lane-wise joins of co-partitioned
      sides are the join ([copartitioned_join_is_the_join]), split aggregates are the aggregate
      ([decomposed_aggregate_is_the_aggregate], a decimal average truncated to its scale), a finalizing
      merge finds each group in one lane ([finalizing_merge_sees_whole_groups]), a column said to hold no NULL holds none
      ([cleared_columns_hold_no_null]), validation accepts exactly the well-formed trees.
    - The wire: a sequence number published for a call addresses the node it was published for
      ([published_seq_addresses_its_node]); an expression reads back to what was planned but for
      what the wire leaves out ([written_expression_reads_back]).
    - The driver: readiness flags, schedule and limits equal a full rescan of the queues
      ([pick_is_the_full_rescan], [next_refines_rescan]), the books balance on every answered run
      ([answered_run_settles_the_books], [accountant_totals_exact], [lane_call_accounts_its_batches]),
      every row is consumed or recorded as abandoned ([rows_consumed_or_abandoned]), the loop ends
      ([drive_loop_terminates]), a lane's calls keep the executors' protocol; a run's calls have keys
      of their own and join the device's regions exactly where both name the same
      ([measured_run_joins]).
    - The CPU backend: building a planned tree's executors answers or refuses and never panics
      ([cpu_executors_answer]); limits cut what they should, a join session answers the join cut to the
      columns it keeps ([session_answers_the_join]),
      compaction keeps the state's meaning in linear work, the scatter partitions its batch.
    - The GPU backend: every recipe a planned tree publishes is one its node's executor accepts, in
      every lane ([recipes_build_their_executors]); no handle of the device leaks or is used twice
      ([calls_conserve_handles]); its limit emits the interval's cut ([device_limit_emits_the_cut]).
    - Join order: [solve] answers on every input, with the cheapest tree over the edges, and calls a
      graph disconnected only where no tree joins it.

    ** Not modelled

    Rendering ([plan_text], [wire/recipes.rs], [wire/fb_text.rs], [bench_text]): text for people, which
    nothing reads back.  What DataFusion, Arrow, Parquet and the device compute: the classes above, the
    laws a theorem needs of one being its named hypotheses.  Session set-up and entry points ([lib.rs]
    but for the rule it inserts, [src/peacockdb], [src/peacockdb-ffi]) and the instrumentation switches
    ([executor/instrument.rs]): each is a call of one of those.  The tests and their support, the cost
    report, benchmarks, and the C++ kernels. *)
From stdpp Require Export base tactics list option sets list_numbers.
From Stdlib Require Export NArith ZArith Lia Bool.

(** ** The Rust [Result] and its [?] operator *)
Inductive result (E T : Type) : Type :=
| Ok (value : T)
| Err (error : E).
Arguments Ok {E T} value.
Arguments Err {E T} error.

#[export] Instance result_ret E : MRet (result E) := fun _ x => Ok x.
#[export] Instance result_bind E : MBind (result E) :=
  fun _ _ f r => match r with Ok x => f x | Err e => Err e end.
#[export] Instance result_fmap E : FMap (result E) :=
  fun _ _ f r => match r with Ok x => Ok (f x) | Err e => Err e end.

Definition is_ok {E T} (r : result E T) : bool :=
  match r with Ok _ => true | Err _ => false end.

(** [Result::map_err]. *)
Definition map_err {E F T} (f : E -> F) (r : result E T) : result F T :=
  match r with Ok x => Ok x | Err e => Err (f e) end.

(** [Option::ok_or]. *)
Definition ok_or {E T} (o : option T) (e : E) : result E T :=
  match o with Some x => Ok x | None => Err e end.

(** [if cond { return Err(e) }]. *)
Definition ensure {E} (b : bool) (e : E) : result E () :=
  if b then Ok () else Err e.

Lemma bind_ok {E A B} (r : result E A) (k : A -> result E B) v :
  r ≫= k = Ok v -> exists x, r = Ok x /\ k x = Ok v.
Proof. destruct r as [x|e]; cbn; [eauto | discriminate]. Qed.

Lemma ensure_ok {E} b (e : E) u : ensure b e = Ok u -> b = true.
Proof. by destruct b. Qed.

Lemma ensure_iff {E} b (e : E) : ensure b e = Ok () <-> b = true.
Proof. by destruct b. Qed.

Lemma and_iff {P P' Q Q' : Prop} : (P <-> P') -> (Q <-> Q') -> (P /\ Q) <-> (P' /\ Q').
Proof. tauto. Qed.

Lemma seq_ok {E} (r k : result E ()) : (r ≫= fun _ => k) = Ok () <-> r = Ok () /\ k = Ok ().
Proof. destruct r as [[]|e]; cbn; naive_solver. Qed.

Lemma ok_or_ok {E T} (o : option T) (e : E) v : ok_or o e = Ok v -> o = Some v.
Proof. destruct o; cbn; congruence. Qed.

(** Fail-fast traversal: [for x in xs { f(x)?; }] and [iter().map(f).collect::<Result<_>>()]. *)
Fixpoint traverse {E A B} (f : A -> result E B) (l : list A) : result E (list B) :=
  match l with
  | [] => Ok []
  | x :: l' => y ← f x; ys ← traverse f l'; Ok (y :: ys)
  end.

Definition for_each {E A} (f : A -> result E ()) (l : list A) : result E () :=
  foldr (fun x k => f x ≫= fun _ => k) (Ok ()) l.

Lemma traverse_ok {E A B} (f : A -> result E B) l out :
  traverse f l = Ok out <-> Forall2 (fun x y => f x = Ok y) l out.
Proof.
  revert out. induction l as [|x l IH]; intros out; cbn [traverse].
  - split; [intros [= <-]; constructor|by inversion 1].
  - split.
    + intros (y & Hy & (ys & Hys & [= <-])%bind_ok)%bind_ok. constructor; [done|]. by apply IH.
    + inversion 1 as [|? y ? ys Hy Hys]; subst. rewrite Hy. cbn [mbind result_bind].
      apply IH in Hys. by rewrite Hys.
Qed.

Lemma for_each_ok {E A} (f : A -> result E ()) l :
  for_each f l = Ok () <-> forall x, x ∈ l -> f x = Ok ().
Proof.
  induction l as [|x l IH]; cbn.
  - split; [set_solver|done].
  - destruct (f x) as [[]|e] eqn:Hx; cbn.
    + change (foldr _ _ l) with (for_each f l). rewrite IH. set_solver.
    + split; [done|]. intros Hl. rewrite <- Hx. apply Hl. set_solver.
Qed.

(** ** State and errors

    A method on [&mut self] that returns a [Result]: the state survives the error. *)
Definition M (S E A : Type) : Type := S -> result E A * S.
#[export] Instance M_ret S E : MRet (M S E) := fun _ x s => (Ok x, s).
#[export] Instance M_bind S E : MBind (M S E) := fun _ _ k m s =>
  match m s with (Ok x, s') => k x s' | (Err e, s') => (Err e, s') end.

Definition get_state {S E} : M S E S := fun s => (Ok s, s).
Definition gets {S E A} (f : S -> A) : M S E A := fun s => (Ok (f s), s).
Definition modify {S E} (f : S -> S) : M S E () := fun s => (Ok (), f s).
Definition throw {S E A} (e : E) : M S E A := fun s => (Err e, s).
Definition lift {S E A} (r : result E A) : M S E A := fun s => (r, s).

(** [for x in l { body(x)?; }]. *)
Fixpoint forM {S E A} (l : list A) (body : A -> M S E ()) : M S E () :=
  match l with [] => mret () | x :: l => body x ≫= fun _ => forM l body end.

Lemma M_bind_ok {S E A B} (m : M S E A) (k : A -> M S E B) s y s' :
  (m ≫= k) s = (Ok y, s') -> exists x s1, m s = (Ok x, s1) /\ k x s1 = (Ok y, s').
Proof. unfold mbind, M_bind. destruct (m s) as [[x|e] s1]; [eauto|discriminate]. Qed.

(** A predicate on the state that every outcome of a computation keeps. *)
Definition keeps {S E A} (P : S -> Prop) (m : M S E A) : Prop := forall s, P s -> P (m s).2.

Lemma keeps_ret {S E A} (P : S -> Prop) (x : A) : keeps P (mret (M:=M S E) x).
Proof. by intros s Hs. Qed.
Lemma keeps_throw {S E A} (P : S -> Prop) (e : E) : keeps P (throw (A:=A) e).
Proof. by intros s Hs. Qed.
Lemma keeps_gets {S E A} (P : S -> Prop) (f : S -> A) : keeps (E:=E) P (gets f).
Proof. by intros s Hs. Qed.
Lemma keeps_lift {S E A} (P : S -> Prop) (r : result E A) : keeps P (lift r).
Proof. by intros s Hs. Qed.
Lemma keeps_bind {S E A B} (P : S -> Prop) (m : M S E A) (k : A -> M S E B) :
  keeps P m -> (forall x, keeps P (k x)) -> keeps P (m ≫= k).
Proof.
  intros Hm Hk s Hs. specialize (Hm s Hs). unfold mbind, M_bind.
  destruct (m s) as [[x|e] s1]; [by apply Hk|done].
Qed.
Lemma keeps_forM {S E A} (P : S -> Prop) (l : list A) (body : A -> M S E ()) :
  (forall x, x ∈ l -> keeps P (body x)) -> keeps P (forM l body).
Proof.
  induction l as [|x l IH]; intros Hb; [apply keeps_ret|].
  apply keeps_bind; [apply Hb; set_solver|]. intros _. apply IH. set_solver.
Qed.

(** ** Unsigned 64-bit arithmetic

    [u64] and [usize] values are [N]; a release build wraps, so [+] on a value that can reach the
    width is [⊞].  [∸] is [saturating_sub], which [N.sub] already is, and [⊠] is
    [saturating_mul]. *)
Declare Scope rust_scope.
Delimit Scope rust_scope with rust.

Definition u64_modulus : N := 2 ^ 64.
Definition u64_max : N := u64_modulus - 1.
Definition wrapping_add (a b : N) : N := (a + b) mod u64_modulus.
Definition wrapping_mul (a b : N) : N := (a * b) mod u64_modulus.
(** [sum::<u64>()] *)
Definition sum64 (l : list N) : N := foldl wrapping_add 0%N l.
Definition saturating_sub (a b : N) : N := a - b.
Definition saturating_mul (a b : N) : N := N.min (a * b) u64_max.
Definition checked_sub (a b : N) : option N :=
  if (b <=? a)%N then Some (a - b)%N else None.

Notation "a ⊞ b" := (wrapping_add a b) (at level 50, left associativity) : rust_scope.
Notation "a ∸ b" := (saturating_sub a b) (at level 50, left associativity) : rust_scope.
Notation "a ⊠ b" := (saturating_mul a b) (at level 40, left associativity) : rust_scope.

Lemma wrapping_add_small a b :
  (a + b < u64_modulus)%N -> wrapping_add a b = (a + b)%N.
Proof. intros; unfold wrapping_add; by rewrite N.mod_small. Qed.

Lemma checked_sub_Some a b c : checked_sub a b = Some c <-> (b <= a /\ c = a - b)%N.
Proof. unfold checked_sub; destruct (N.leb_spec b a); split; intros H';
  [injection H' as <- | destruct H' as [? ->] | discriminate | destruct H']; try (f_equal); lia.
Qed.

(** ** Lists measured in [N] *)
Definition lenN {A} (l : list A) : N := N.of_nat (length l).
Definition sumN (l : list N) : N := foldr N.add 0%N l.
#[global] Arguments sumN : simpl never.
#[global] Arguments lenN : simpl never.

(** [batch.slice(offset, length)], [vec[a..a + n]]. *)
Definition slice {A} (offset count : N) (l : list A) : list A :=
  take (N.to_nat count) (drop (N.to_nat offset) l).

Lemma lenN_nil {A} : lenN (@nil A) = 0%N.
Proof. done. Qed.
Lemma lenN_cons {A} (x : A) l : lenN (x :: l) = (1 + lenN l)%N.
Proof. unfold lenN; cbn [length]; lia. Qed.
Lemma lenN_app {A} (l k : list A) : lenN (l ++ k) = (lenN l + lenN k)%N.
Proof. unfold lenN; rewrite length_app; lia. Qed.
Lemma lenN_to_nat {A} (l : list A) : N.to_nat (lenN l) = length l.
Proof. unfold lenN; lia. Qed.
Lemma sumN_nil : sumN [] = 0%N.
Proof. done. Qed.
Lemma sumN_cons x l : sumN (x :: l) = (x + sumN l)%N.
Proof. done. Qed.
Lemma sumN_app l k : sumN (l ++ k) = (sumN l + sumN k)%N.
Proof. induction l as [|x l IH]; [done|]. cbn [app]. rewrite !sumN_cons, IH. lia. Qed.

(** Two prefixes that agree up to the length are equal. *)
Lemma take_agree {A} n m (l : list A) :
  Nat.min n (length l) = Nat.min m (length l) -> take n l = take m l.
Proof.
  intros H. rewrite <- (take_ge l (length l)) by done.
  rewrite !take_take. f_equal. exact H.
Qed.

(** Writing one element of a list changes the sum by what it was and what it is. *)
Lemma sumN_insert (l : list N) i x y :
  l !! i = Some x -> (sumN (<[i := y]> l) + x = sumN l + y)%N.
Proof.
  revert i; induction l as [|z l IH]; intros [|i] H; cbn in H; simplify_eq.
  - cbn [insert list_insert]. rewrite !sumN_cons. lia.
  - specialize (IH i H). change (<[S i := y]> (z :: l)) with (z :: <[i := y]> l).
    rewrite !sumN_cons. lia.
Qed.

Lemma sum_list_insert (l : list nat) i x y :
  l !! i = Some x -> (sum_list (<[i := y]> l) + x = sum_list l + y)%nat.
Proof.
  revert i; induction l as [|z l IH]; intros [|i] H; simplify_eq/=; [lia|].
  specialize (IH i H). change (list_insert i y l) with (<[i := y]> l).
  change (foldr Nat.add 0%nat) with sum_list in *. lia.
Qed.

(** Altering an element that is there is storing what it becomes. *)
Lemma alter_is_insert {A} (f : A -> A) (l : list A) i x :
  l !! i = Some x -> alter f i l = <[i := f x]> l.
Proof.
  intros Hx. rewrite list_insert_alter. apply list_eq. intros j.
  destruct (decide (i = j)) as [<-|].
  - by rewrite !list_lookup_alter_eq, Hx.
  - by rewrite !list_lookup_alter_ne.
Qed.

Lemma list_find_bool_ext {A} (p q : A -> bool) (l : list A) :
  (forall x, x ∈ l -> p x = q x) ->
  list_find (fun x => p x = true) l = list_find (fun x => q x = true) l.
Proof.
  induction l as [|x l IH]; intros Hl; [done|]. cbn.
  rewrite IH by set_solver. by rewrite (Hl x) by set_solver.
Qed.

Lemma sumN_zero (l : list N) : (forall x, x ∈ l -> x = 0%N) -> sumN l = 0%N.
Proof.
  induction l as [|x l IH]; intros Hl; [done|]. rewrite sumN_cons, (Hl x), IH; [done| |set_solver].
  intros y Hy. apply Hl. set_solver.
Qed.

Lemma sum_list_zero (l : list nat) : (forall x, x ∈ l -> x = 0) -> sum_list l = 0.
Proof.
  induction l as [|x l IH]; intros Hl; [done|]. cbn. rewrite (Hl x), IH; [done| |set_solver].
  intros y Hy. apply Hl. set_solver.
Qed.

(** A list told by what each position holds. *)
Lemma map_by_index {A B} (f : A -> B) (g : nat -> B) (l : list A) :
  (forall i x, l !! i = Some x -> f x = g i) -> map f l = map g (seq 0 (length l)).
Proof.
  revert g. induction l as [|x l IH]; intros g Hl; [done|]. cbn [map length seq].
  rewrite (Hl 0 x) by done. f_equal. rewrite <- seq_shift, map_map. apply IH.
  intros i y Hi. by apply (Hl (S i)).
Qed.

Lemma filter_ext_in {A} (P Q : A -> Prop) `{!forall x, Decision (P x), !forall x, Decision (Q x)}
    (l : list A) : (forall x, x ∈ l -> P x <-> Q x) -> filter P l = filter Q l.
Proof.
  induction l as [|x l IH]; intros Hl; [done|]. rewrite !filter_cons, IH by set_solver.
  destruct (decide (P x)), (decide (Q x)); try done; by destruct (Hl x ltac:(set_solver)); exfalso; auto.
Qed.

(** Splitting a list by a class below [k] and joining the classes back permutes it. *)
Lemma concat_classes {A} (f : A -> nat) (k : nat) (l : list A) :
  (forall x, x ∈ l -> f x < k) -> concat (map (fun i => filter (fun x => f x = i) l) (seq 0 k)) ≡ₚ l.
Proof.
  induction l as [|x l IH]; intros Hl.
  - induction (seq 0 k); cbn; done.
  - transitivity (x :: concat (map (fun i => filter (fun x => f x = i) l) (seq 0 k)));
      [|by rewrite (IH ltac:(set_solver))].
    assert (Hx : f x ∈ seq 0 k) by (apply elem_of_seq; specialize (Hl x ltac:(set_solver)); lia).
    apply list_elem_of_split in Hx as (a & b & Hab). rewrite Hab.
    pose proof (NoDup_seq 0 k) as Hnd. rewrite Hab in Hnd.
    apply NoDup_app in Hnd as (_ & Ha & [Hb _]%NoDup_cons).
    rewrite !map_app, !concat_app. cbn [map concat].
    assert (Hout : forall c, f x ∉ c ->
      map (fun i => filter (fun y => f y = i) (x :: l)) c = map (fun i => filter (fun y => f y = i) l) c).
    { intros c Hc. apply map_ext_in. intros i Hi%list_elem_of_In. rewrite filter_cons_False; [done|].
      intros <-. done. }
    rewrite !Hout by (try done; set_solver). rewrite filter_cons_True by done.
    cbn. by rewrite <- Permutation_middle.
Qed.

(** [map] is stdpp's [fmap], whose lemmas do not see it. *)
Lemma map_lookup_Some {A B} (f : A -> B) l i y :
  map f l !! i = Some y <-> exists x, l !! i = Some x /\ y = f x.
Proof.
  change (map f l) with (f <$> l). rewrite list_lookup_fmap.
  destruct (l !! i) as [x|]; cbn; naive_solver.
Qed.
Lemma elem_of_map {A B} (f : A -> B) l y : y ∈ map f l <-> exists x, y = f x /\ x ∈ l.
Proof. apply list_elem_of_fmap. Qed.

Lemma Forall2_self_map {A B} (R : A -> B -> Prop) (f : A -> B) l :
  (forall x, x ∈ l -> R x (f x)) -> Forall2 R l (map f l).
Proof. induction l as [|x l IH]; intros Hl; cbn; constructor; [apply Hl|apply IH]; set_solver. Qed.

Lemma elem_of_concat {A} (ls : list (list A)) x : x ∈ concat ls <-> exists l, l ∈ ls /\ x ∈ l.
Proof.
  rewrite list_elem_of_In, in_concat. by setoid_rewrite <- list_elem_of_In.
Qed.

(** Boolean filters and maps, by what holds of the elements. *)
Lemma filterb_none {A} (f : A -> bool) l : (forall x, x ∈ l -> f x = false) -> List.filter f l = [].
Proof. induction l as [|x l IH]; intros Hl; [done|]. cbn. rewrite Hl by set_solver. apply IH. set_solver. Qed.

Lemma filterb_all {A} (f : A -> bool) l : (forall x, x ∈ l -> f x = true) -> List.filter f l = l.
Proof.
  induction l as [|x l IH]; intros Hl; [done|]. cbn. rewrite Hl by set_solver.
  rewrite IH by set_solver. done.
Qed.

Lemma filterb_ext {A} (f g : A -> bool) l :
  (forall x, x ∈ l -> f x = g x) -> List.filter f l = List.filter g l.
Proof.
  induction l as [|x l IH]; intros Hl; [done|]. cbn. rewrite Hl, IH by set_solver. done.
Qed.

Lemma elem_of_filterb {A} (f : A -> bool) l x : x ∈ List.filter f l <-> x ∈ l /\ f x = true.
Proof. by rewrite !list_elem_of_In, List.filter_In. Qed.

Lemma filterb_perm {A} (f : A -> bool) l l' : l ≡ₚ l' -> List.filter f l ≡ₚ List.filter f l'.
Proof.
  induction 1 as [|x l l' _ IH|x y l|l l' l'' _ IH _ IH']; cbn; [done| | |by rewrite IH].
  - destruct (f x); by rewrite ?IH.
  - destruct (f x), (f y); try done. apply Permutation_swap.
Qed.

Lemma map_ext_elem {A B} (f g : A -> B) l : (forall x, x ∈ l -> f x = g x) -> map f l = map g l.
Proof. intros Hl. apply map_ext_in. intros x Hx%list_elem_of_In. by apply Hl. Qed.

Lemma existsb_false {A} (f : A -> bool) l : (forall x, x ∈ l -> f x = false) -> existsb f l = false.
Proof. induction l as [|x l IH]; intros Hl; [done|]. cbn. rewrite Hl by set_solver. apply IH. set_solver. Qed.

Lemma existsb_elem {A} (f : A -> bool) l : existsb f l = true <-> exists x, x ∈ l /\ f x = true.
Proof.
  rewrite existsb_exists. split; intros (x & Hx & Hf); exists x; split; try done;
    by apply list_elem_of_In.
Qed.

(** ** Automation *)
Create HintDb peacock discriminated.
Create Rewrite HintDb peacock.
#[export] Hint Rewrite @lenN_nil @lenN_cons @lenN_app @lenN_to_nat sumN_app sumN_cons sumN_nil : peacock.
#[export] Hint Resolve wrapping_add_small : peacock.
#[export] Hint Resolve keeps_ret keeps_throw keeps_gets keeps_lift : peacock.

(** Takes apart the hypotheses that say a monadic computation returned. *)
Ltac inv_ok :=
  repeat match goal with
  | H : (_ ≫= _) = Ok _ |- _ =>
      let x := fresh "x" in let E := fresh "E" in
      apply bind_ok in H as (x & E & H)
  | H : ensure _ _ = Ok _ |- _ => apply ensure_ok in H
  | H : ok_or _ _ = Ok _ |- _ => apply ok_or_ok in H
  | H : (_ ≫= _) _ = (Ok _, _) |- _ =>
      let x := fresh "x" in let s := fresh "s" in let E := fresh "E" in
      apply M_bind_ok in H as (x & s & E & H)
  | H : ?t = (Ok _, _) |- _ =>
      let t' := eval cbv beta iota delta [mret M_ret] in t in
      match t' with (Ok _, _) => injection H; clear H; intros; subst end
  | H : Ok _ = Ok _ |- _ => injection H as H
  | H : Err _ = Ok _ |- _ => discriminate H
  | H : Ok _ = Err _ |- _ => discriminate H
  | x : unit |- _ => destruct x
  end.

(** Splits on every boolean comparison of [N] and [nat] in sight. *)
Ltac split_cmp :=
  repeat match goal with
  | |- context [(?a <=? ?b)%N] => destruct (N.leb_spec a b)
  | |- context [(?a <? ?b)%N] => destruct (N.ltb_spec a b)
  | |- context [(?a =? ?b)%N] => destruct (N.eqb_spec a b)
  | H : context [(?a <=? ?b)%N] |- _ => destruct (N.leb_spec a b)
  | H : context [(?a <? ?b)%N] |- _ => destruct (N.ltb_spec a b)
  | H : context [(?a =? ?b)%N] |- _ => destruct (N.eqb_spec a b)
  end.
