(* ===== verification/Interval.v ===== *)
(** * Row ranges, row intervals, the streaming limit and the unload

    [RowRange] and its clamp ([executor/row_range.rs], [executor/mod.rs]), [RowInterval]
    ([plan/mod.rs], [plan/interval.rs]), the mid-plan limit [LimitStream]
    ([cpu_backend/accumulate.rs]) and [CpuUnload] ([cpu_backend/mod.rs]).

    A batch is the list of its rows.  The specification of an interval is [cut]: the whole stream
    with [skip] rows dropped and at most [fetch] kept.  What the program computes is one range per
    batch from a running row count, with [u64] arithmetic that wraps. *)
From S2P Require Import Prelude.
Open Scope N_scope.
Open Scope rust_scope.

(** ** [RowRange] *)
Record RowRange := { offset : N; range_length : N }.

#[export] Instance RowRange_eq_dec : EqDecision RowRange.
Proof. solve_decision. Defined.

Definition WHOLE : RowRange := {| offset := 0; range_length := u64_max |}.

Definition covers (r : RowRange) (n_rows : N) : bool :=
  (offset r =? 0) && (n_rows <=? range_length r).

Definition clamp (r : RowRange) (n_rows : N) : N * N :=
  let off := N.min (offset r) n_rows in
  (off, N.min (range_length r) (n_rows - off)).

(** ** [RowInterval] *)
Record RowInterval := { skip : N; fetch : option N }.

#[export] Instance RowInterval_eq_dec : EqDecision RowInterval.
Proof. solve_decision. Defined.

Definition stop (iv : RowInterval) : option N :=
  match fetch iv with Some f => Some (skip iv ⊞ f) | None => None end.

Definition satisfied_by (iv : RowInterval) (seen : N) : bool :=
  match stop iv with Some s => s <=? seen | None => false end.

Definition satisfied_by_emitted (iv : RowInterval) (emitted : N) : bool :=
  match fetch iv with Some f => f <=? emitted | None => false end.

Definition range_of (iv : RowInterval) (seen n_rows : N) : option RowRange :=
  let start := skip iv ∸ seen in
  let stop_ := match stop iv with
               | Some s => N.min n_rows (s ∸ seen)
               | None => n_rows
               end in
  if start <? stop_ then Some {| offset := start; range_length := stop_ - start |} else None.

Definition over (outer inner : RowInterval) : RowInterval :=
  let left := match fetch inner with Some f => Some (f ∸ skip outer) | None => None end in
  {| skip := skip inner ⊞ skip outer;
     fetch := match fetch outer, left with
              | Some o, Some l => Some (N.min o l)
              | Some o, None => Some o
              | None, l => l
              end |}.

(** ** [LimitStream] and [CpuUnload] *)
Record LimitStream := { interval : RowInterval; seen : N }.

(** [batch.slice] where the range leaves some of the batch out, the batch itself where it does
    not. *)
Definition kept {A} (rows : RowRange) (batch : list A) : list A :=
  if covers rows (lenN batch) then batch else slice (offset rows) (range_length rows) batch.

Definition limit_accumulate_and_fetch {A} (st : LimitStream) (batch : list A) :
    LimitStream * list (list A) :=
  let n_rows := lenN batch in
  let rows := range_of (interval st) (seen st) n_rows in
  let st' := {| interval := interval st; seen := seen st ⊞ n_rows |} in
  match rows with
  | None => (st', [])
  | Some r => (st', [kept r batch])
  end.

Definition limit_mark_done_and_fetch {A} (st : LimitStream) : list (list A) := [].

(** The batches a lane hands the limit, one call each, and the call at done. *)
Fixpoint limit_run {A} (st : LimitStream) (batches : list (list A)) : list (list A) :=
  match batches with
  | [] => limit_mark_done_and_fetch st
  | b :: bs => let '(st', out) := limit_accumulate_and_fetch st b in out ++ limit_run st' bs
  end.

Definition unload {A} (batch : list A) (rows : RowRange) : list A :=
  let n_rows := lenN batch in
  if covers rows n_rows then batch
  else let '(off, len) := clamp rows n_rows in slice off len batch.

(** ** The specification *)

(** The rows an interval names of a whole stream. *)
Definition cut {A} (iv : RowInterval) (rows : list A) : list A :=
  let rest := drop (N.to_nat (skip iv)) rows in
  match fetch iv with Some f => take (N.to_nat f) rest | None => rest end.

(** The end of the interval does not pass the width. *)
Definition fits (iv : RowInterval) : Prop :=
  match fetch iv with Some f => skip iv + f < u64_modulus | None => skip iv < u64_modulus end.

#[export] Instance fits_dec iv : Decision (fits iv).
Proof. unfold fits; destruct (fetch iv); apply _. Defined.

Section facts.
Context {A : Type}.
Implicit Types (iv : RowInterval) (b rows : list A).

Lemma stop_fits iv : fits iv -> stop iv = (fun f => skip iv + f) <$> fetch iv.
Proof. unfold fits, stop; destruct (fetch iv); cbn; auto with f_equal peacock. Qed.

(** Row [i] of the stream is one the interval names. *)
Definition wanted iv (i : N) : Prop :=
  skip iv <= i /\ match fetch iv with Some f => i < skip iv + f | None => True end.

Lemma range_of_bounds iv s n r :
  range_of iv s n = Some r -> 0 < range_length r /\ offset r + range_length r <= n.
Proof.
  unfold range_of, saturating_sub; intros H. case_match eqn:Hlt; [|done].
  apply N.ltb_lt in Hlt. simplify_eq; cbn. destruct (stop iv); lia.
Qed.

(** The range of a batch is exactly the wanted rows that fall in it. *)
Lemma range_of_wanted iv s n i :
  fits iv -> i < n ->
  (exists r, range_of iv s n = Some r /\ offset r <= i < offset r + range_length r)
  <-> wanted iv (s + i).
Proof.
  intros Hf Hi. unfold range_of, wanted, saturating_sub. rewrite (stop_fits _ Hf).
  destruct (fetch iv) as [f|]; cbn; split_cmp; split.
  all: try (intros (r & [= <-] & ?); cbn in *; lia).
  all: try (intros [? ?]; eexists; split; [reflexivity|cbn; lia]).
  all: try (intros [? ?]; lia).
Qed.

Lemma kept_slice r b :
  offset r + range_length r <= lenN b -> kept r b = slice (offset r) (range_length r) b.
Proof.
  intros Hb. unfold kept, covers, slice. split_cmp; cbn; try done.
  rewrite e, drop_0, take_ge; [done|]. unfold lenN in *; lia.
Qed.

Lemma interval_eq iv iv' : skip iv = skip iv' -> fetch iv = fetch iv' -> iv = iv'.
Proof. destruct iv, iv'; cbn; congruence. Qed.

Lemma cut_nil iv : cut iv (@nil A) = [].
Proof. unfold cut. rewrite drop_nil. destruct (fetch iv); [by rewrite take_nil|done]. Qed.

(** What is left of an interval once [n] rows have gone past. *)
Definition rest_of iv (n : N) : RowInterval :=
  {| skip := skip iv ∸ n;
     fetch := (fun f => f ∸ (n ∸ skip iv)) <$> fetch iv |}.

Lemma cut_app iv b rows : cut iv (b ++ rows) = cut iv b ++ cut (rest_of iv (lenN b)) rows.
Proof.
  unfold cut, rest_of, saturating_sub; cbn. rewrite drop_app.
  destruct (fetch iv) as [f|]; cbn.
  - rewrite take_app, length_drop. unfold lenN. repeat f_equal; lia.
  - unfold lenN. repeat f_equal; lia.
Qed.

Lemma rest_of_add iv n m : rest_of (rest_of iv n) m = rest_of iv (n + m).
Proof.
  unfold rest_of, saturating_sub; cbn. apply interval_eq; cbn; [lia|].
  destruct (fetch iv); cbn; [f_equal; lia|done].
Qed.

Lemma rest_of_0 iv : rest_of iv 0 = iv.
Proof.
  unfold rest_of, saturating_sub; apply interval_eq; cbn; [lia|].
  destruct (fetch iv); cbn; [f_equal; lia|done].
Qed.

(** One call's output is the cut of what is left of the interval. *)
Lemma range_of_cut iv s b :
  fits iv ->
  match range_of iv s (lenN b) with None => [] | Some r => kept r b end = cut (rest_of iv s) b.
Proof.
  intros Hf. destruct (range_of iv s (lenN b)) as [r|] eqn:Hr.
  - rewrite kept_slice by (by apply range_of_bounds in Hr as [_ ?]).
    revert Hr. unfold range_of, cut, slice, rest_of, saturating_sub. rewrite (stop_fits _ Hf).
    case_match eqn:Hlt; [|done]. apply N.ltb_lt in Hlt. intros [= <-]; cbn.
    destruct (fetch iv) as [f|]; cbn in *.
    + apply take_agree. rewrite length_drop. unfold lenN in *. lia.
    + rewrite take_ge; [done|]. rewrite length_drop. unfold lenN. lia.
  - revert Hr. unfold range_of, cut, rest_of, saturating_sub. rewrite (stop_fits _ Hf).
    case_match eqn:Hlt; [done|]. apply N.ltb_ge in Hlt. intros _; cbn.
    destruct (fetch iv) as [f|]; cbn in *.
    + destruct (decide (lenN b <= skip iv - s)).
      * rewrite drop_ge, take_nil; [done|]. unfold lenN in *; lia.
      * replace (f - (s - skip iv)) with 0 by lia. done.
    + rewrite drop_ge; [done|]. unfold lenN in *; lia.
Qed.
End facts.

Section limit_facts.
Context {A : Type}.
Implicit Types (iv : RowInterval) (batches : list (list A)).

Lemma limit_step iv s (b : list A) :
  fits iv ->
  exists out, limit_accumulate_and_fetch {| interval := iv; seen := s |} b
    = ({| interval := iv; seen := s ⊞ lenN b |}, out)
  /\ concat out = cut (rest_of iv s) b /\ Forall (fun o => o <> []) out.
Proof.
  intros Hf. unfold limit_accumulate_and_fetch; cbn.
  pose proof (range_of_cut iv s b Hf) as Hc.
  destruct (range_of iv s (lenN b)) as [r|] eqn:Hr; eexists; split_and!; eauto.
  - cbn. by rewrite app_nil_r.
  - apply range_of_bounds in Hr as [H0 Hb]. constructor; [|done].
    rewrite kept_slice by done. intros Hk. apply (f_equal (@length A)) in Hk.
    unfold slice, lenN in *. rewrite length_take, length_drop in Hk. cbn in Hk. lia.
Qed.

Lemma limit_run_rest iv s batches :
  fits iv -> s + lenN (concat batches) < u64_modulus ->
  concat (limit_run {| interval := iv; seen := s |} batches)
    = cut (rest_of iv s) (concat batches)
  /\ Forall (fun o => o <> []) (limit_run {| interval := iv; seen := s |} batches).
Proof.
  intros Hf. revert s. induction batches as [|b bs IH]; intros s Hs.
  - cbn. by rewrite cut_nil.
  - cbn [limit_run concat] in *. rewrite lenN_app in Hs.
    destruct (limit_step iv s b Hf) as (out & -> & Ho & Hne).
    rewrite wrapping_add_small by lia.
    destruct (IH (s + lenN b)) as [IHc IHn]; [lia|].
    rewrite concat_app, Ho, IHc, cut_app, rest_of_add. split; [done|].
    by apply Forall_app.
Qed.

Lemma over_skip o i : skip (over o i) = skip i ⊞ skip o.
Proof. done. Qed.

Lemma length_cut iv (rows : list A) :
  lenN (cut iv rows) = match fetch iv with
                       | Some f => N.min f (lenN rows - skip iv)
                       | None => lenN rows - skip iv
                       end.
Proof.
  unfold cut, lenN. destruct (fetch iv); rewrite ?length_take, length_drop; lia.
Qed.
End limit_facts.

(** ** Theorems *)

(** C26: the streaming mid-plan limit is the interval's cut of the whole stream: however a lane
    splits its rows into batches, the concatenation of what the limit forwards is the stream with
    [skip] rows dropped and at most [fetch] kept, and it never forwards an empty batch, as long as
    the interval's end and the row count fit the counters' width. *)
Theorem limit_stream_is_cut {A} (iv : RowInterval) (batches : list (list A))
    (Hfits : fits iv) (Hrows : lenN (concat batches) < u64_modulus) :
  let out := limit_run {| interval := iv; seen := 0 |} batches in
  concat out = cut iv (concat batches) /\ Forall (fun b => b <> []) out.
Proof.
  cbn zeta. pose proof (limit_run_rest iv 0 batches Hfits) as H.
  rewrite rest_of_0 in H. apply H. lia.
Qed.

Lemma limit_stream_is_cut_witness :
  let batches := [[1; 2; 3]; []; [4; 5]; [6; 7; 8; 9]]%nat in
  let out := limit_run {| interval := {| skip := 2; fetch := Some 5 |}; seen := 0 |} batches in
  (out = [[3]; [4; 5]; [6; 7]]%nat) /\
  (concat out = cut {| skip := 2; fetch := Some 5 |} (concat batches)
   /\ Forall (fun b => b <> []) out).
Proof.
  split; [vm_compute; reflexivity|].
  apply (limit_stream_is_cut {| skip := 2; fetch := Some 5 |}); vm_compute; reflexivity.
Defined.

(** [RowInterval::over] is composition: cutting a stream by [over outer inner] is cutting it by
    [inner] and the result by [outer], as long as the two skips together fit the width. *)
Theorem over_is_composition {A} (outer inner : RowInterval) (rows : list A)
    (Hskip : skip inner + skip outer < u64_modulus) :
  cut (over outer inner) rows = cut outer (cut inner rows).
Proof.
  unfold cut. rewrite over_skip, wrapping_add_small by done. unfold over, saturating_sub; cbn.
  rewrite N2Nat.inj_add.
  destruct (fetch inner) as [fi|], (fetch outer) as [fo|]; cbn;
    rewrite ?skipn_firstn_comm, ?drop_drop, ?take_take; f_equal; lia.
Qed.

Lemma over_is_composition_witness :
  let o := {| skip := 1; fetch := Some 10 |} in let i := {| skip := 2; fetch := Some 4 |} in
  cut (over o i) [1; 2; 3; 4; 5; 6; 7; 8]%nat = cut o (cut i [1; 2; 3; 4; 5; 6; 7; 8]%nat)
  /\ cut (over o i) [1; 2; 3; 4; 5; 6; 7; 8]%nat = [4; 5; 6]%nat.
Proof.
  split; [apply over_is_composition; vm_compute; reflexivity | vm_compute; reflexivity].
Defined.

(** an interval that is not empty is satisfied exactly when no batch of any size that could
    still come has a wanted row: [satisfied_by] stops the stream neither early nor late. *)
Theorem satisfied_by_exact (iv : RowInterval) (s : N)
    (Hfits : fits iv) (Hne : fetch iv <> Some 0) :
  satisfied_by iv s = true <-> forall n, range_of iv s n = None.
Proof.
  unfold satisfied_by, range_of, saturating_sub. rewrite (stop_fits _ Hfits).
  destruct (fetch iv) as [f|] eqn:Hf; cbn.
  - assert (f <> 0) by congruence. split.
    + intros Hs n. apply N.leb_le in Hs. split_cmp; done || lia.
    + intros Hall. specialize (Hall (skip iv + f - s)). revert Hall. split_cmp; done || lia.
  - split; [done|]. intros Hall. exfalso.
    specialize (Hall (skip iv + 1)). revert Hall. split_cmp; done || lia.
Qed.

Lemma satisfied_by_exact_witness :
  let iv := {| skip := 3; fetch := Some 4 |} in
  satisfied_by iv 6 = false /\ satisfied_by iv 7 = true
  /\ (satisfied_by iv 7 = true <-> forall n, range_of iv 7 n = None).
Proof.
  split_and!; try (vm_compute; reflexivity).
  apply satisfied_by_exact; [vm_compute; reflexivity | discriminate].
Defined.

(** a limit's own completion test, on the rows it let through: once [satisfied_by_emitted]
    holds of what it emitted for a prefix of the stream, nothing after the prefix adds a row; and
    where it does not hold and the interval has an end, some continuation does. *)
Theorem satisfied_by_emitted_exact {A} (iv : RowInterval) (rows : list A) (x : A) :
  if satisfied_by_emitted iv (lenN (cut iv rows))
  then forall more, cut iv (rows ++ more) = cut iv rows
  else exists more, cut iv (rows ++ more) <> cut iv rows.
Proof.
  unfold satisfied_by_emitted. pose proof (length_cut iv rows) as Hlen.
  destruct (fetch iv) as [f|] eqn:Hf.
  - split_cmp.
    + intros more. rewrite cut_app. rewrite <- (app_nil_r (cut iv rows)) at 2. f_equal.
      unfold cut, rest_of, saturating_sub; cbn. rewrite Hf; cbn.
      replace (f - (lenN rows - skip iv)) with 0 by lia. done.
    + exists (replicate (N.to_nat (skip iv + 1)) x). intros Heq.
      apply (f_equal lenN) in Heq. rewrite !length_cut, Hf, lenN_app in Heq.
      assert (lenN (replicate (N.to_nat (skip iv + 1)) x) = skip iv + 1)
        by (unfold lenN; rewrite length_replicate; lia). lia.
  - exists (replicate (N.to_nat (skip iv + 1)) x). intros Heq.
    apply (f_equal lenN) in Heq. rewrite !length_cut, Hf, lenN_app in Heq.
    assert (lenN (replicate (N.to_nat (skip iv + 1)) x) = skip iv + 1)
      by (unfold lenN; rewrite length_replicate; lia). lia.
Qed.

(** the unload takes from a batch exactly the rows of its range, for any range, one that
    reaches past the batch included: row [i] of the batch is in the answer when the range holds
    it, in order, and the slice it asks arrow for is within the batch. *)
Theorem unload_rows {A} (batch : list A) (r : RowRange) :
  unload batch r = slice (offset r) (range_length r) batch
  /\ fst (clamp r (lenN batch)) + snd (clamp r (lenN batch)) <= lenN batch.
Proof.
  unfold unload, covers, clamp, slice; cbn. split; [|lia].
  destruct (N.eqb_spec (offset r) 0) as [Ho|Ho], (N.leb_spec (lenN batch) (range_length r)); cbn.
  1: rewrite Ho, drop_0, take_ge; [done|unfold lenN in *; lia].
  all: destruct (N.le_gt_cases (offset r) (lenN batch));
    [replace (N.min (offset r) (lenN batch)) with (offset r) by lia;
     apply take_agree; rewrite length_drop; unfold lenN in *; lia
    |rewrite !drop_ge, !take_nil by (unfold lenN in *; lia); done].
Qed.
