(* ===== verification/PlanIR.v ===== *)
(** * The plan IR: expressions, schemas, layouts and the nineteen nodes

    [plan/mod.rs]: the data a plan is made of and what every node offers the driver and the
    validator ([kind], [children], [row_interval], [name], [category_of]).

    A node is a constructor of [GpuNode] with its parameters first and its inputs last, where the
    source has a struct behind [dyn GpuNode].  Ordinals and lane counts are [nat]; row and byte
    counts are [N].  Arrow's [DataType] and DataFusion's [ScalarValue] and [JoinType] are the
    libraries' public enumerations. *)
From stdpp Require Import strings.
From Stdlib Require Import QArith.
From S2P Require Import Prelude Interval.
Open Scope nat_scope.

(** ** Errors: a message names the site and the rule; the figures interpolated into the source's
    text are left out. *)
Inductive PlanError :=
| Unsupported (message : string)
| Invalid (message : string).

#[export] Instance PlanError_eq_dec : EqDecision PlanError.
Proof. solve_decision. Defined.

(** ** Arrow and DataFusion vocabulary.  Of the nested types only the lists are listed. *)
Inductive TimeUnit := Second | Millisecond | Microsecond | Nanosecond.
#[export] Instance TimeUnit_eq_dec : EqDecision TimeUnit.
Proof. solve_decision. Defined.
Inductive IntervalUnit := YearMonth | DayTime | MonthDayNano.
#[export] Instance IntervalUnit_eq_dec : EqDecision IntervalUnit.
Proof. solve_decision. Defined.

Inductive DataType :=
| Null | Boolean
| Int8 | Int16 | Int32 | Int64 | UInt8 | UInt16 | UInt32 | UInt64
| Float16 | Float32 | Float64
| Timestamp (unit_ : TimeUnit) (zone : option string) | Date32 | Date64
| Time32 (unit_ : TimeUnit) | Time64 (unit_ : TimeUnit) | Duration (unit_ : TimeUnit)
| IntervalOf (unit_ : IntervalUnit)
| Binary | LargeBinary | BinaryView | Utf8 | LargeUtf8 | Utf8View
| FixedSizeBinary (width : nat)
| ListOf (item : DataType) | LargeList (item : DataType)
| ListView (item : DataType) | LargeListView (item : DataType)
| Dictionary (keys values : DataType)
| Decimal128 (precision : nat) (scale : Z)
| Decimal256 (precision : nat) (scale : Z).

#[export] Instance DataType_eq_dec : EqDecision DataType.
Proof. solve_decision. Defined.

(** A literal's value: a decimal's is its unscaled integer, an interval's the parts of its unit. *)
Inductive Datum :=
| DBool (b : bool) | DInt (z : Z) | DFloat (q : Q) | DStr (s : string)
| DMonths (months : Z) | DDayTime (days milliseconds : Z) | DMonthDayNano (months days nanoseconds : Z).

#[export] Instance Q_eq_dec : EqDecision Q.
Proof. solve_decision. Defined.
#[export] Instance Datum_eq_dec : EqDecision Datum.
Proof. solve_decision. Defined.

(** A typed literal; [None] is a typed NULL. *)
Record ScalarValue := { scalar_type : DataType; scalar_value : option Datum }.
#[export] Instance ScalarValue_eq_dec : EqDecision ScalarValue.
Proof. solve_decision. Defined.

Inductive JoinType :=
| Inner | Left | Right | Full
| LeftSemi | RightSemi | LeftAnti | RightAnti | LeftMark.
#[export] Instance JoinType_eq_dec : EqDecision JoinType.
Proof. solve_decision. Defined.

Record Field := { field_name : string; data_type : DataType; nullable : bool }.
#[export] Instance Field_eq_dec : EqDecision Field.
Proof. solve_decision. Defined.

(** ** Expressions *)
Record ColumnRef := { index : nat; ref_name : string }.
#[export] Instance ColumnRef_eq_dec : EqDecision ColumnRef.
Proof. solve_decision. Defined.

Inductive BinaryOp :=
| Eq_ | NotEq | Lt_ | LtEq | Gt_ | GtEq | Plus | Minus | Multiply | Divide | Modulo | And | Or
| BitwiseAnd | BitwiseOr | BitwiseXor | BitwiseShiftLeft | BitwiseShiftRight
| StringConcat | IsDistinctFrom | IsNotDistinctFrom.
#[export] Instance BinaryOp_eq_dec : EqDecision BinaryOp.
Proof. solve_decision. Defined.

Inductive UnaryOp := Not | IsNull | IsNotNull | Negative | Sqrt.
#[export] Instance UnaryOp_eq_dec : EqDecision UnaryOp.
Proof. solve_decision. Defined.

Inductive Expr :=
| Column (reference : ColumnRef)
| Literal (value : ScalarValue)
| BinaryE (left : Expr) (op : BinaryOp) (right : Expr) (out_type : DataType)
| UnaryE (op : UnaryOp) (arg : Expr)
| Cast (expr : Expr) (target : DataType)
| Like (expr pattern : Expr) (negated case_insensitive : bool)
| Case (comparand : option Expr) (when_then : list (Expr * Expr)) (else_expr : option Expr)
| ScalarFunction (fname : string) (args : list Expr) (return_type : DataType) (fnullable : bool).

Definition expr_column (i : nat) (name : string) : Expr := Column {| index := i; ref_name := name |}.

Record NamedExpr := { expr : Expr; expr_name : string }.

(** ** Aggregates' vocabulary *)
Inductive AggFunc := Sum | Min | Max | Count | Avg | Stddev | Var.
#[export] Instance AggFunc_eq_dec : EqDecision AggFunc.
Proof. solve_decision. Defined.

Inductive PlanAgg := PSum | PMin | PMax | PCount | PMean | PM2 | PMergeM2.
#[export] Instance PlanAgg_eq_dec : EqDecision PlanAgg.
Proof. solve_decision. Defined.

Inductive Merge := PerColumn (funcs : list PlanAgg) | Combined (func : PlanAgg).
Record Decomposition := { state : list (string * PlanAgg); merge : Merge }.
Record AggSpec := { spec_func : AggFunc; spec_ddof : nat }.
Record AggCall := { call_func : PlanAgg; call_args : list Expr; outputs : list Field }.

(** ** Schemas *)
Record AggStateColumns :=
  { output : string; agg_func : AggFunc; agg_ddof : nat; positions : list nat }.
#[export] Instance AggStateColumns_eq_dec : EqDecision AggStateColumns.
Proof. solve_decision. Defined.

Record Schema :=
  { fields : list Field; group_keys : list nat; agg_state : list AggStateColumns }.
#[export] Instance Schema_eq_dec : EqDecision Schema.
Proof. solve_decision. Defined.

Definition ROWMARKER : string := "__rowmarker__".

(** [Schema::new]. *)
Definition schema_new (fs : list Field) : Schema :=
  {| fields := fs; group_keys := []; agg_state := [] |}.
Definition rowmarker : Schema :=
  schema_new [{| field_name := ROWMARKER; data_type := Int8; nullable := false |}].

(** ** Partition layouts *)
Record ColumnOrder := { column : nat; ascending : bool; nulls_first : bool }.
#[export] Instance ColumnOrder_eq_dec : EqDecision ColumnOrder.
Proof. solve_decision. Defined.

Inductive KeyDistribution := KeysNotSpecified | ByHash (hash_keys : list nat).
#[export] Instance KeyDistribution_eq_dec : EqDecision KeyDistribution.
Proof. solve_decision. Defined.

Definition is_subset_of (kd : KeyDistribution) (group_columns : list nat) : bool :=
  match kd with
  | KeysNotSpecified => false
  | ByHash hash_keys => forallb (fun k => bool_decide (k ∈ group_columns)) hash_keys
  end.

Inductive SortOrder := OrderNotSpecified | BatchSorted (columns : list ColumnOrder).
#[export] Instance SortOrder_eq_dec : EqDecision SortOrder.
Proof. solve_decision. Defined.

Definition batch_sorted (columns : list ColumnOrder) : SortOrder :=
  match columns with [] => OrderNotSpecified | _ => BatchSorted columns end.

Definition is_batch_sorted (o : SortOrder) : bool :=
  match o with BatchSorted _ => true | OrderNotSpecified => false end.

Inductive BatchLayout := SingleBatch | MultipleBatches.
#[export] Instance BatchLayout_eq_dec : EqDecision BatchLayout.
Proof. solve_decision. Defined.

Record PartitionLayout :=
  { n : nat; key_distribution : KeyDistribution; sort_order : SortOrder;
    batch_layout : BatchLayout }.
#[export] Instance PartitionLayout_eq_dec : EqDecision PartitionLayout.
Proof. solve_decision. Defined.

Definition is_stream_sorted (l : PartitionLayout) : bool :=
  is_batch_sorted (sort_order l) && bool_decide (batch_layout l = SingleBatch).

(** ** What a node declares *)
Inductive NodeKind :=
| SourceKind (layout : PartitionLayout) (schema : Schema)
| Intermediate (layout : PartitionLayout) (schema : Schema)
| Sink.

Definition kind_layout (k : NodeKind) : option PartitionLayout :=
  match k with SourceKind l _ | Intermediate l _ => Some l | Sink => None end.
Definition kind_schema (k : NodeKind) : option Schema :=
  match k with SourceKind _ s | Intermediate _ s => Some s | Sink => None end.

(** ** Parameters of the nodes that carry several *)
Record AggregateBody :=
  { group_by : list Expr; grouping_sets : list (list bool); null_exprs : list Expr;
    aggs : list AggCall; finalize : option (list NamedExpr) }.

Inductive JoinSide := Build | Probe.
#[export] Instance JoinSide_eq_dec : EqDecision JoinSide.
Proof. solve_decision. Defined.

Record JoinFilterColumn := { side : JoinSide; filter_index : nat }.

Record RowGroupMeta := { rg_index : nat; rg_rows : N; rg_bytes : N }.
#[export] Instance RowGroupMeta_eq_dec : EqDecision RowGroupMeta.
Proof. solve_decision. Defined.

Inductive Batching := Off | PerRowGroup | Sized (target_batch_bytes : N).

Record ScanMetadata :=
  { scan_file : string; scan_groups : list RowGroupMeta; scan_can_be_null : list bool }.

(** ** The nodes *)
Inductive GpuNode :=
| GpuLoadParquet (kind : NodeKind) (table file : string) (projection : list nat)
    (partition_groups : list (list (list nat))) (survivors : list RowGroupMeta)
    (can_be_null : list bool)
| GpuEmpty (kind : NodeKind)
| GpuFilter (kind : NodeKind) (predicate : Expr) (projection : option (list nat))
    (input : GpuNode)
| GpuProject (kind : NodeKind) (exprs : list NamedExpr) (input : GpuNode)
| GpuSort (kind : NodeKind) (keys : list ColumnOrder) (fetch : option N) (input : GpuNode)
| GpuCoalesceAllBatches (kind : NodeKind) (input : GpuNode)
| GpuAccumulateBatchesAndSort (kind : NodeKind) (keys : list ColumnOrder) (fetch : option N)
    (input : GpuNode)
| GpuLimit (kind : NodeKind) (interval : RowInterval) (input : GpuNode)
| GpuAggregate (kind : NodeKind) (body : AggregateBody) (intermediate : Schema) (input : GpuNode)
| GpuAggregateBatches (kind : NodeKind) (body : AggregateBody) (intermediate : Schema)
    (input : GpuNode)
| GpuHashJoin (kind : NodeKind) (join_type : JoinType) (keys : list (nat * nat))
    (filter : option Expr) (filter_columns : list JoinFilterColumn) (null_equals_null : bool)
    (projection : option (list nat)) (build probe : GpuNode)
| GpuCrossJoin (kind : NodeKind) (projection : option (list nat)) (build probe : GpuNode)
| GpuNestedLoopJoin (kind : NodeKind) (join_type : JoinType) (filter : Expr)
    (filter_columns : list JoinFilterColumn) (projection : option (list nat))
    (build probe : GpuNode)
| GpuMergePartitions (kind : NodeKind) (input : GpuNode)
| GpuEmitPartitions (kind : NodeKind) (hash_keys : list nat) (input : GpuNode)
| GpuMergeSortedPartitions (kind : NodeKind) (keys : list ColumnOrder) (fetch : option N)
    (input : GpuNode)
| GpuUnion (kind : NodeKind) (branches : list GpuNode)
| GpuInterleave (kind : NodeKind) (branches : list GpuNode)
| GpuUnload (kind : NodeKind) (interval : option RowInterval) (input : GpuNode).

(** [GpuNode::kind]. *)
Definition kind (node : GpuNode) : NodeKind :=
  match node with
  | GpuLoadParquet k _ _ _ _ _ _ | GpuEmpty k | GpuFilter k _ _ _ | GpuProject k _ _
  | GpuSort k _ _ _ | GpuCoalesceAllBatches k _ | GpuAccumulateBatchesAndSort k _ _ _
  | GpuLimit k _ _ | GpuAggregate k _ _ _ | GpuAggregateBatches k _ _ _
  | GpuHashJoin k _ _ _ _ _ _ _ _ | GpuCrossJoin k _ _ _ | GpuNestedLoopJoin k _ _ _ _ _ _
  | GpuMergePartitions k _ | GpuEmitPartitions k _ _ | GpuMergeSortedPartitions k _ _ _
  | GpuUnion k _ | GpuInterleave k _ | GpuUnload k _ _ => k
  end.

(** [GpuNode::children]. *)
Definition children (node : GpuNode) : list GpuNode :=
  match node with
  | GpuLoadParquet _ _ _ _ _ _ _ | GpuEmpty _ => []
  | GpuFilter _ _ _ i | GpuProject _ _ i | GpuSort _ _ _ i | GpuCoalesceAllBatches _ i
  | GpuAccumulateBatchesAndSort _ _ _ i | GpuLimit _ _ i | GpuAggregate _ _ _ i
  | GpuAggregateBatches _ _ _ i | GpuMergePartitions _ i | GpuEmitPartitions _ _ i
  | GpuMergeSortedPartitions _ _ _ i | GpuUnload _ _ i => [i]
  | GpuHashJoin _ _ _ _ _ _ _ b p | GpuCrossJoin _ _ b p | GpuNestedLoopJoin _ _ _ _ _ b p =>
      [b; p]
  | GpuUnion _ bs | GpuInterleave _ bs => bs
  end.

(** [GpuNode::row_interval]. *)
Definition row_interval (node : GpuNode) : option RowInterval :=
  match node with
  | GpuLimit _ iv _ => Some iv
  | GpuUnload _ iv _ => iv
  | _ => None
  end.

Definition node_name (node : GpuNode) : string :=
  match node with
  | GpuLoadParquet _ _ _ _ _ _ _ => "GpuLoadParquet"
  | GpuEmpty _ => "GpuEmpty"
  | GpuFilter _ _ _ _ => "GpuFilter"
  | GpuProject _ _ _ => "GpuProject"
  | GpuSort _ _ _ _ => "GpuSort"
  | GpuCoalesceAllBatches _ _ => "GpuCoalesceAllBatches"
  | GpuAccumulateBatchesAndSort _ _ _ _ => "GpuAccumulateBatchesAndSort"
  | GpuLimit _ _ _ => "GpuLimit"
  | GpuAggregate _ _ _ _ => "GpuAggregate"
  | GpuAggregateBatches _ _ _ _ => "GpuAggregateBatches"
  | GpuHashJoin _ _ _ _ _ _ _ _ _ => "GpuHashJoin"
  | GpuCrossJoin _ _ _ _ => "GpuCrossJoin"
  | GpuNestedLoopJoin _ _ _ _ _ _ _ => "GpuNestedLoopJoin"
  | GpuMergePartitions _ _ => "GpuMergePartitions"
  | GpuEmitPartitions _ _ _ => "GpuEmitPartitions"
  | GpuMergeSortedPartitions _ _ _ _ => "GpuMergeSortedPartitions"
  | GpuUnion _ _ => "GpuUnion"
  | GpuInterleave _ _ => "GpuInterleave"
  | GpuUnload _ _ _ => "GpuUnload"
  end.

Inductive ExecutorCategory :=
| CSource | CExec | CBatchAccumulator | CPartitionAccumulator | CPartitionEmitter | CJoin
| CBatchForwarder | CUnload.
#[export] Instance ExecutorCategory_eq_dec : EqDecision ExecutorCategory.
Proof. solve_decision. Defined.

Definition is_lane_scoped (c : ExecutorCategory) : bool :=
  match c with CSource | CExec | CBatchAccumulator | CJoin | CUnload => true | _ => false end.

Definition category_of (node : GpuNode) : ExecutorCategory :=
  match node with
  | GpuLoadParquet _ _ _ _ _ _ _ | GpuEmpty _ => CSource
  | GpuFilter _ _ _ _ | GpuProject _ _ _ | GpuSort _ _ _ _ => CExec
  | GpuAggregate _ _ _ _ | GpuCoalesceAllBatches _ _ | GpuAccumulateBatchesAndSort _ _ _ _
  | GpuAggregateBatches _ _ _ _ | GpuLimit _ _ _ => CBatchAccumulator
  | GpuMergeSortedPartitions _ _ _ _ => CPartitionAccumulator
  | GpuEmitPartitions _ _ _ => CPartitionEmitter
  | GpuHashJoin _ _ _ _ _ _ _ _ _ | GpuCrossJoin _ _ _ _ | GpuNestedLoopJoin _ _ _ _ _ _ _ =>
      CJoin
  | GpuMergePartitions _ _ | GpuUnion _ _ | GpuInterleave _ _ => CBatchForwarder
  | GpuUnload _ _ _ => CUnload
  end.

(** ** Induction over the tree *)
Fixpoint node_size (node : GpuNode) : nat :=
  match node with
  | GpuLoadParquet _ _ _ _ _ _ _ | GpuEmpty _ => 1
  | GpuFilter _ _ _ i | GpuProject _ _ i | GpuSort _ _ _ i | GpuCoalesceAllBatches _ i
  | GpuAccumulateBatchesAndSort _ _ _ i | GpuLimit _ _ i | GpuAggregate _ _ _ i
  | GpuAggregateBatches _ _ _ i | GpuMergePartitions _ i | GpuEmitPartitions _ _ i
  | GpuMergeSortedPartitions _ _ _ i | GpuUnload _ _ i => S (node_size i)
  | GpuHashJoin _ _ _ _ _ _ _ b p | GpuCrossJoin _ _ b p | GpuNestedLoopJoin _ _ _ _ _ b p =>
      S (node_size b + node_size p)
  | GpuUnion _ bs | GpuInterleave _ bs => S (sum_list_with node_size bs)
  end.

Lemma node_size_children node : node_size node = S (sum_list_with node_size (children node)).
Proof. destruct node; cbn; lia. Qed.

Lemma node_size_child node c : c ∈ children node -> node_size c < node_size node.
Proof.
  intros Hc. rewrite (node_size_children node).
  pose proof (sum_list_with_in c node_size (children node) Hc). lia.
Qed.

Lemma node_ind_children (P : GpuNode -> Prop) :
  (forall node, (forall c, c ∈ children node -> P c) -> P node) -> forall node, P node.
Proof.
  intros Hstep node. remember (node_size node) as k eqn:Hk.
  revert node Hk. induction k as [k IH] using lt_wf_ind. intros node ->.
  apply Hstep. intros c Hc. by apply (IH (node_size c)); [apply node_size_child|].
Qed.

(** ** Recursion over the tree

    [fold_node f] runs [f] on every node after its children, in child order: the shape of every
    walk the program makes over a plan. *)
Fixpoint fold_node {A} (f : GpuNode -> list A -> A) (node : GpuNode) : A :=
  match node with
  | GpuLoadParquet _ _ _ _ _ _ _ | GpuEmpty _ => f node []
  | GpuFilter _ _ _ i | GpuProject _ _ i | GpuSort _ _ _ i | GpuCoalesceAllBatches _ i
  | GpuAccumulateBatchesAndSort _ _ _ i | GpuLimit _ _ i | GpuAggregate _ _ _ i
  | GpuAggregateBatches _ _ _ i | GpuMergePartitions _ i | GpuEmitPartitions _ _ i
  | GpuMergeSortedPartitions _ _ _ i | GpuUnload _ _ i => f node [fold_node f i]
  | GpuHashJoin _ _ _ _ _ _ _ b p | GpuCrossJoin _ _ b p | GpuNestedLoopJoin _ _ _ _ _ b p =>
      f node [fold_node f b; fold_node f p]
  | GpuUnion _ bs | GpuInterleave _ bs => f node (map (fold_node f) bs)
  end.

Lemma fold_node_eq {A} (f : GpuNode -> list A -> A) node :
  fold_node f node = f node (map (fold_node f) (children node)).
Proof. by destruct node. Qed.

#[export] Instance GpuNode_inhabited : Inhabited GpuNode := populate (GpuEmpty Sink).
