(* ===== verification/PlanCommon.v ===== *)
(** * What the plan's modules share

    [plan/common.rs]: the types a device can hold, the checks more than one node makes of an
    expression, the merge-key check, and carrying a layout through a projection. *)
From stdpp Require Import strings.
From S2P Require Import Prelude Interval PlanIR.
Open Scope nat_scope.

Definition PlanResult := result PlanError.

(** ** Types the device can hold *)
Definition is_view_type (t : DataType) : bool :=
  match t with Utf8View | BinaryView | ListView _ | LargeListView _ => true | _ => false end.

Definition is_narrow_or_wide_decimal (t : DataType) : bool :=
  match t with Decimal256 _ _ => true | _ => false end.

Definition unholdable (t : DataType) : option string :=
  if is_view_type t then Some "a view type the device cannot hold"
  else if is_narrow_or_wide_decimal t
  then Some "not Decimal128, the one decimal that crosses to the device"
  else None.

(** ** Expressions *)
Definition check_type (site what : string) (t : DataType) : PlanResult () :=
  match unholdable t with
  | Some why => Err (Invalid (site +:+ ": " +:+ what +:+ " is " +:+ why))
  | None => Ok ()
  end.

(** Every part of an expression in the order the checks visit it: [f] on the node, then the parts.
    [check_expr_types] and [column_refs_in_range] are this traversal at two node checks. *)
Fixpoint check_expr (f : Expr -> PlanResult ()) (e : Expr) : PlanResult () :=
  f e ≫= fun _ =>
  match e with
  | Column _ | Literal _ => Ok ()
  | BinaryE l _ r _ => check_expr f l ≫= fun _ => check_expr f r
  | UnaryE _ a => check_expr f a
  | Cast a _ => check_expr f a
  | Like a p _ _ => check_expr f a ≫= fun _ => check_expr f p
  | Case c wts el =>
      match c with Some a => check_expr f a | None => Ok () end ≫= fun _ =>
      match el with Some a => check_expr f a | None => Ok () end ≫= fun _ =>
      (fix go wts := match wts with
                     | [] => Ok ()
                     | (w, t) :: wts =>
                         check_expr f w ≫= fun _ => check_expr f t ≫= fun _ => go wts
                     end) wts
  | ScalarFunction _ args _ _ =>
      (fix go args := match args with
                      | [] => Ok ()
                      | a :: args => check_expr f a ≫= fun _ => go args
                      end) args
  end.

Definition check_expr_types (e : Expr) (site : string) : PlanResult () :=
  check_expr (fun e =>
    match e with
    | Literal v => check_type site "a literal" (scalar_type v)
    | BinaryE _ _ _ out => check_type site "a binary's type" out
    | Cast _ t => check_type site "a cast target" t
    | ScalarFunction _ _ t _ => check_type site "a scalar function's return type" t
    | _ => Ok ()
    end) e.

Definition column_refs_in_range (e : Expr) (against : Schema) (site : string) : PlanResult () :=
  check_expr (fun e =>
    match e with
    | Column r =>
        match fields against !! index r with
        | None => Err (Invalid (site +:+ ": column " +:+ ref_name r
                                +:+ " is past the columns its input has"))
        | Some field =>
            if bool_decide (field_name field <> ref_name r)
            then Err (Invalid (site +:+ ": column " +:+ ref_name r +:+ " reads "
                               +:+ field_name field +:+ " at that position"))
            else Ok ()
        end
    | _ => Ok ()
    end) e.

Definition check_column_refs (e : Expr) (against : Schema) (site : string) : PlanResult () :=
  check_expr_types e site ≫= fun _ => column_refs_in_range e against site.

(** ** Inputs.  A sink is the root, so it is never one: [structural] refuses a node with such a child.
    Where the source would panic on one, an [expect], the model answers a layout of no lanes and a
    schema of no fields. *)
Definition no_layout : PartitionLayout :=
  {| n := 0; key_distribution := KeysNotSpecified; sort_order := OrderNotSpecified;
     batch_layout := MultipleBatches |}.
Definition input_layout (input : GpuNode) : PartitionLayout :=
  default no_layout (kind_layout (kind input)).
Definition input_schema (input : GpuNode) : Schema :=
  default (schema_new []) (kind_schema (kind input)).

(** ** The keys of a k-way merge *)
Fixpoint check_key_prefix (node : string) (keys sorted : list ColumnOrder) : PlanResult () :=
  match keys, sorted with
  | [], _ => Ok ()
  | _ :: _, [] => Err (Invalid (node +:+ ": it merges on more keys than its input is sorted on"))
  | key :: keys, s :: sorted =>
      if bool_decide (s = key) then check_key_prefix node keys sorted
      else Err (Invalid (node +:+ ": it merges on a key its input's batches are not sorted on"))
  end.

Definition check_merge_keys (node : string) (keys : list ColumnOrder) (input : PartitionLayout) :
    PlanResult () :=
  match sort_order input with
  | OrderNotSpecified =>
      Err (Invalid (node +:+ ": a merge needs sorted batches — the planner puts a GpuSort below it"))
  | BatchSorted columns => check_key_prefix node keys columns
  end.

(** ** Carrying a layout through a projection *)

(** [iter().position(p)]. *)
Definition position {A} (p : A -> bool) (l : list A) : option nat :=
  fst <$> list_find (fun x => p x = true) l.

Definition is_column (old : nat) (e : Expr) : bool :=
  match e with Column r => index r =? old | _ => false end.

Definition new_index (projected : list Expr) (old : nat) : option nat :=
  position (is_column old) projected.

Definition rebase_through_projection (layout : PartitionLayout) (projected : list Expr) :
    PartitionLayout :=
  {| n := n layout;
     key_distribution :=
       match key_distribution layout with
       | KeysNotSpecified => KeysNotSpecified
       | ByHash hash_keys =>
           match mapM (new_index projected) hash_keys with
           | Some hash_keys => ByHash hash_keys
           | None => KeysNotSpecified
           end
       end;
     sort_order :=
       match sort_order layout with
       | OrderNotSpecified => OrderNotSpecified
       | BatchSorted columns =>
           match mapM (fun order =>
                   (fun c => {| column := c; ascending := ascending order;
                                nulls_first := nulls_first order |})
                   <$> new_index projected (column order)) columns with
           | Some mapped => batch_sorted mapped
           | None => OrderNotSpecified
           end
       end;
     batch_layout := batch_layout layout |}.
