(* ===== verification/PlanNodes.v ===== *)
(** * The nodes' constructors and what each requires of its children

    [plan/exec_ops.rs], [partition_ops.rs], [accumulators.rs], [unload.rs], [union.rs],
    [source.rs]: [new_*] derives the layout a node declares from its inputs', and
    [validate_*] is the body of that node's [validate_schemas_and_partitions].  The joins are in
    Joins.v and the aggregates in Aggregates.v. *)
From stdpp Require Import strings.
From S2P Require Import Prelude Interval PlanIR PlanCommon.
Open Scope nat_scope.

(** ** Sources *)
Definition rows_only (projection : list nat) : bool :=
  match projection with [] => true | _ => false end.

Definition new_load_parquet (table : string) (projection : list nat)
    (partition_groups : list (list (list nat))) (scan : ScanMetadata) (schema : Schema) : GpuNode :=
  let layout := {| n := length partition_groups; key_distribution := KeysNotSpecified;
                   sort_order := OrderNotSpecified; batch_layout := MultipleBatches |} in
  let can_be_null := if rows_only projection then [false] else scan_can_be_null scan in
  GpuLoadParquet (SourceKind layout schema) table (scan_file scan) projection partition_groups
    (scan_groups scan) can_be_null.

Definition new_empty (schema : Schema) : GpuNode :=
  GpuEmpty (SourceKind {| n := 1; key_distribution := KeysNotSpecified;
                          sort_order := OrderNotSpecified; batch_layout := SingleBatch |} schema).

Definition validate_load_parquet (knd : NodeKind) (table : string) (projection : list nat)
    (partition_groups : list (list (list nat))) (survivors : list RowGroupMeta) : PlanResult () :=
  ensure (negb (bool_decide (partition_groups = [])))
    (Invalid (table +:+ ": the partitioner returned no lanes")) ≫= fun _ =>
  for_each (fun batches =>
    for_each (fun groups =>
      ensure (negb (bool_decide (groups = [])))
        (Invalid (table +:+ ": a batch reads no row group")) ≫= fun _ =>
      for_each (fun group =>
        ensure (existsb (fun m => rg_index m =? group) survivors)
          (Invalid (table +:+ ": a lane reads a row group pruning left out"))) groups)
      batches) partition_groups ≫= fun _ =>
  ensure (negb (rows_only projection && negb (bool_decide (kind_schema knd = Some rowmarker))))
    (Invalid (table +:+ ": it reads no column, so it declares __rowmarker__ and nothing else")).

(** Bytes of the largest batch the mapping produces, a batch's summed as [u64]. [None] is the panic on a mapping that addresses
    no survivor. *)
Definition group_bytes (survivors : list RowGroupMeta) (g : nat) : option N :=
  rg_bytes <$> List.find (fun m => rg_index m =? g) survivors.

Definition largest_batch_bytes (partition_groups : list (list (list nat)))
    (survivors : list RowGroupMeta) : option N :=
  sizes ← mapM (fun batch => sum64 <$> mapM (group_bytes survivors) batch) (concat partition_groups);
  Some (foldr N.max 0%N sizes).

(** ** Filter, project, sort *)
Definition new_filter (input : GpuNode) (predicate : Expr) (projection : option (list nat))
    (schema : Schema) : GpuNode :=
  let layout := match projection with
                | Some columns =>
                    rebase_through_projection (input_layout input)
                      (map (fun c => expr_column c "") columns)
                | None => input_layout input
                end in
  GpuFilter (Intermediate layout schema) predicate projection input.

Definition validate_filter (predicate : Expr) (input : GpuNode) : PlanResult () :=
  check_column_refs predicate (input_schema input) "GpuFilter".

Definition new_project (input : GpuNode) (exprs : list NamedExpr) (schema : Schema) : GpuNode :=
  GpuProject (Intermediate (rebase_through_projection (input_layout input) (map expr exprs)) schema)
    exprs input.

Definition validate_project (exprs : list NamedExpr) (input : GpuNode) : PlanResult () :=
  for_each (fun e => check_column_refs (expr e) (input_schema input) "GpuProject") exprs.

Definition with_order (l : PartitionLayout) (o : SortOrder) : PartitionLayout :=
  {| n := n l; key_distribution := key_distribution l; sort_order := o;
     batch_layout := batch_layout l |}.
Definition with_batches (l : PartitionLayout) (b : BatchLayout) : PartitionLayout :=
  {| n := n l; key_distribution := key_distribution l; sort_order := sort_order l;
     batch_layout := b |}.

Definition new_sort (input : GpuNode) (keys : list ColumnOrder) (fetch : option N) : GpuNode :=
  GpuSort (Intermediate (with_order (input_layout input) (batch_sorted keys)) (input_schema input))
    keys fetch input.

Definition validate_sort (keys : list ColumnOrder) (input : GpuNode) : PlanResult () :=
  ensure (negb (bool_decide (keys = []))) (Invalid "GpuSort: no sort keys") ≫= fun _ =>
  for_each (fun key =>
    ensure (column key <? length (fields (input_schema input)))
      (Invalid "GpuSort: sort key is past the columns its input has")) keys.

(** ** The accumulators *)
Definition new_coalesce_all_batches (input : GpuNode) : GpuNode :=
  GpuCoalesceAllBatches
    (Intermediate (with_order (with_batches (input_layout input) SingleBatch) OrderNotSpecified)
       (input_schema input)) input.

Definition new_accumulate_batches_and_sort (input : GpuNode) (keys : list ColumnOrder)
    (fetch : option N) : GpuNode :=
  GpuAccumulateBatchesAndSort
    (Intermediate (with_batches (with_order (input_layout input) (batch_sorted keys)) SingleBatch)
       (input_schema input)) keys fetch input.

Definition new_limit (input : GpuNode) (interval : RowInterval) : GpuNode :=
  GpuLimit (Intermediate (input_layout input) (input_schema input)) interval input.

Definition check_ordered_prefix (node : string) (input : PartitionLayout) : PlanResult () :=
  ensure (negb (is_batch_sorted (sort_order input) && negb (is_stream_sorted input)))
    (Invalid (node +:+ ": its input's batches are each sorted and not sorted against each other")).

Definition validate_limit (input : GpuNode) : PlanResult () :=
  ensure (n (input_layout input) =? 1)
    (Invalid "GpuLimit: an interval over several lanes names no rows") ≫= fun _ =>
  check_ordered_prefix "GpuLimit" (input_layout input).

Definition new_unload (input : GpuNode) (interval : option RowInterval) : GpuNode :=
  GpuUnload Sink interval input.

Definition validate_unload (interval : option RowInterval) (input : GpuNode) : PlanResult () :=
  match interval with
  | None => Ok ()
  | Some _ => check_ordered_prefix "GpuUnload" (input_layout input)
  end.

(** ** The nodes that move batches between lanes *)
Definition new_merge_partitions (input : GpuNode) : GpuNode :=
  let layout := input_layout input in
  GpuMergePartitions
    (Intermediate {| n := 1; key_distribution := KeysNotSpecified; sort_order := OrderNotSpecified;
                     batch_layout := if 1 <? n layout then MultipleBatches else batch_layout layout |}
       (input_schema input)) input.

Definition new_emit_partitions (input : GpuNode) (hash_keys : list nat) (n_ : nat) : GpuNode :=
  GpuEmitPartitions
    (Intermediate {| n := n_; key_distribution := ByHash hash_keys; sort_order := OrderNotSpecified;
                     batch_layout := MultipleBatches |} (input_schema input)) hash_keys input.

Definition validate_emit (hash_keys : list nat) (input : GpuNode) : PlanResult () :=
  ensure (n (input_layout input) =? 1)
    (Invalid "GpuEmitPartitions: it scatters one lane") ≫= fun _ =>
  for_each (fun key =>
    ensure (key <? length (fields (input_schema input)))
      (Invalid "GpuEmitPartitions: hash key is past the columns its input has")) hash_keys.

Definition new_merge_sorted_partitions (input : GpuNode) (keys : list ColumnOrder)
    (fetch : option N) : GpuNode :=
  GpuMergeSortedPartitions
    (Intermediate {| n := 1; key_distribution := KeysNotSpecified; sort_order := batch_sorted keys;
                     batch_layout := SingleBatch |} (input_schema input)) keys fetch input.

(** ** Union and interleave *)
Definition agreed_sort_order (branches : list GpuNode) : SortOrder :=
  match branches with
  | [] => OrderNotSpecified
  | b :: _ =>
      let first := sort_order (input_layout b) in
      if forallb (fun b => bool_decide (sort_order (input_layout b) = first)) branches
      then first else OrderNotSpecified
  end.

Definition agreed_batch_layout (branches : list GpuNode) : BatchLayout :=
  if forallb (fun b => bool_decide (batch_layout (input_layout b) = SingleBatch)) branches
  then SingleBatch else MultipleBatches.

Definition same_field (a b : Field) : bool :=
  bool_decide (data_type a = data_type b) && bool_decide (field_name a = field_name b).

Definition check_branch_schemas (node : string) (declared : option Schema)
    (branches : list GpuNode) : PlanResult () :=
  let declared := default (schema_new []) declared in
  for_each (fun branch =>
    let schema := input_schema branch in
    ensure (length (fields schema) =? length (fields declared))
      (Invalid (node +:+ ": a branch's column count is not the output's")) ≫= fun _ =>
    ensure (forallb (fun '(a, b) => same_field a b) (zip (fields schema) (fields declared)))
      (Invalid (node +:+ ": a branch's columns are not the output's"))) branches.

Definition new_union (branches : list GpuNode) (schema : Schema) : GpuNode :=
  GpuUnion
    (Intermediate {| n := sum_list (map (fun b => n (input_layout b)) branches);
                     key_distribution := KeysNotSpecified;
                     sort_order := agreed_sort_order branches;
                     batch_layout := agreed_batch_layout branches |} schema) branches.

Definition new_interleave (branches : list GpuNode) (schema : Schema) : GpuNode :=
  let first := input_layout (branches !!! 0) in
  GpuInterleave
    (Intermediate {| n := n first; key_distribution := key_distribution first;
                     sort_order := agreed_sort_order branches;
                     batch_layout := if length branches =? 1 then agreed_batch_layout branches
                                     else MultipleBatches |} schema) branches.

Definition validate_interleave (knd : NodeKind) (branches : list GpuNode) : PlanResult () :=
  check_branch_schemas "GpuInterleave" (kind_schema knd) branches ≫= fun _ =>
  let first := input_layout (branches !!! 0) in
  for_each (fun branch =>
    let layout := input_layout branch in
    ensure ((n layout =? n first)
            && bool_decide (key_distribution layout = key_distribution first))
      (Invalid "GpuInterleave: all branches must carry the same hash distribution"))
    (drop 1 branches).
