(* ===== verification/ScanMap.v ===== *)
(** * The scan mapping: row groups into lanes, lanes into batches

    [planner/translator/scan_mapping/partition.rs].  Contiguous chunks of the surviving row groups,
    each as near its share of the rows as stopping between groups allows, and within a chunk the
    batches the mode asks for.  Row and byte counts are unbounded [N]: they are sizes of one file. *)
From stdpp Require Import strings.
From S2P Require Import Prelude Interval PlanIR PlanCommon PlanNodes.
Open Scope N_scope.

Definition abs_diff (a b : N) : N := if b <=? a then a - b else b - a.
Definition div_ceil (a b : N) : N := a / b + (if 0 <? a mod b then 1 else 0).

(** ** The chunks.  [index] is where the lane stands in the survivors, [start] where it began. *)
Fixpoint chunk_end (want : N) (start : nat) (rest : list RowGroupMeta) (index : nat) (got : N) :
    nat * N :=
  match rest with
  | [] => (index, got)
  | group :: rest =>
      let next := got + rg_rows group in
      if (start <? index)%nat && (abs_diff got want <=? abs_diff next want) then (index, got)
      else chunk_end want start rest (S index) next
  end.

Fixpoint chunks_from (survivors : list RowGroupMeta) (total : N) (lanes_left index : nat) (taken : N) :
    list (nat * nat) :=
  match lanes_left with
  | O => []
  | S more =>
      let want := div_ceil (total - taken) (N.of_nat lanes_left) in
      let '(end_, got) := chunk_end want index (drop index survivors) index 0 in
      (index, end_) :: chunks_from survivors total more end_ (taken + got)
  end.

Definition total_rows (groups : list RowGroupMeta) : N := sumN (map rg_rows groups).

Definition balanced_chunks (survivors : list RowGroupMeta) (n_partitions : nat) : list (nat * nat) :=
  chunks_from survivors (total_rows survivors) n_partitions 0 0.

(** ** The batches of a chunk *)
Fixpoint pack (target : N) (chunk : list RowGroupMeta) (current : list nat) (bytes : N) :
    list (list nat) :=
  match chunk with
  | [] => if bool_decide (current = []) then [] else [current]
  | group :: chunk =>
      if negb (bool_decide (current = [])) && (target <? bytes + rg_bytes group)
      then current :: pack target chunk [rg_index group] (rg_bytes group)
      else pack target chunk (current ++ [rg_index group]) (bytes + rg_bytes group)
  end.

Definition batches_of (chunk : list RowGroupMeta) (batching : Batching) : list (list nat) :=
  match chunk with
  | [] => []
  | _ =>
      match batching with
      | Off => [map rg_index chunk]
      | PerRowGroup => map (fun g => [rg_index g]) chunk
      | Sized target => pack target chunk [] 0
      end
  end.

Definition partition (survivors : list RowGroupMeta) (n_partitions : nat) (batching : Batching) :
    PlanResult (list (list (list nat))) :=
  ensure (negb (bool_decide (survivors = [])))
    (Invalid "no surviving row groups: what an empty scan means is the caller's decision") ≫= fun _ =>
  ensure (negb (n_partitions =? 0)%nat)
    (Invalid "a source needs at least one lane to emit into") ≫= fun _ =>
  Ok (map (fun '(start, end_) => batches_of (take (end_ - start) (drop start survivors)) batching)
       (balanced_chunks survivors n_partitions)).

(** ** Where a chunk ends *)
Lemma chunk_end_ok want start rest index got end_ taken :
  chunk_end want start rest index got = (end_, taken) ->
  (index <= end_ <= index + length rest)%nat /\ taken = got + total_rows (take (end_ - index) rest).
Proof.
  revert index got. induction rest as [|group rest IH]; intros index got; cbn [chunk_end].
  - intros [= <- <-]. rewrite Nat.sub_diag. unfold total_rows. cbn. rewrite sumN_nil. split; lia.
  - destruct (_ && _).
    + intros [= <- <-]. rewrite Nat.sub_diag. unfold total_rows. cbn. rewrite sumN_nil. split; lia.
    + intros [Hle ->]%IH. split; [cbn; lia|].
      replace (end_ - index)%nat with (S (end_ - S index)) by lia. cbn [take].
      unfold total_rows. cbn [map]. rewrite sumN_cons. lia.
Qed.

Lemma abs_diff_add a b : abs_diff a (a + b) = b.
Proof. unfold abs_diff. destruct (N.leb_spec (a + b) a); lia. Qed.

(** With no empty row group, a lane whose share is everything left takes it. *)
Lemma chunk_end_all want start rest index got :
  Forall (fun group => rg_rows group <> 0) rest -> want = got + total_rows rest ->
  chunk_end want start rest index got = ((index + length rest)%nat, want).
Proof.
  intros Hpos. revert index got. induction Hpos as [|group rest Hg Hpos IH]; intros index got ->.
  - unfold total_rows. cbn. rewrite sumN_nil. f_equal; lia.
  - unfold total_rows in *. cbn [map chunk_end length]. rewrite sumN_cons.
    assert (Hcmp : abs_diff got (got + (rg_rows group + sumN (map rg_rows rest)))
      <=? abs_diff (got + rg_rows group) (got + (rg_rows group + sumN (map rg_rows rest))) = false).
    { rewrite N.add_assoc, !abs_diff_add, <- N.add_assoc, abs_diff_add. apply N.leb_gt. lia. }
    rewrite Hcmp, andb_false_r, IH; cbn [map]; rewrite sumN_cons; [f_equal; lia|lia].
Qed.

Lemma div_ceil_1 a : div_ceil a 1 = a.
Proof. unfold div_ceil. rewrite N.div_1_r, N.mod_1_r. cbn. lia. Qed.

Definition slice (survivors : list RowGroupMeta) (range : nat * nat) : list RowGroupMeta :=
  take (range.2 - range.1) (drop range.1 survivors).

Lemma chunks_cover survivors total lanes_left index taken :
  Forall (fun group => rg_rows group <> 0) survivors ->
  total = taken + total_rows (drop index survivors) -> (index <= length survivors)%nat ->
  (0 < lanes_left)%nat ->
  concat (map (slice survivors) (chunks_from survivors total lanes_left index taken)) = drop index survivors.
Proof.
  intros Hpos. revert index taken. induction lanes_left as [|more IH]; intros index taken Ht Hi Hl; [lia|].
  cbn [chunks_from]. destruct (chunk_end _ index _ index 0) as [end_ got] eqn:Hend.
  cbn [map concat]. unfold slice at 1. cbn [fst snd].
  destruct more as [|more].
  - rewrite Ht in Hend.
    rewrite (N.add_comm taken), N.add_sub in Hend. change (N.of_nat 1) with 1 in Hend.
    rewrite div_ceil_1 in Hend.
    rewrite chunk_end_all in Hend; [|by apply Forall_drop|lia]. injection Hend as <- _.
    cbn. rewrite app_nil_r, length_drop. apply take_ge. rewrite length_drop. lia.
  - apply chunk_end_ok in Hend as [Hle ->]. rewrite length_drop in Hle.
    rewrite IH; [| |lia|lia].
    + rewrite <- (take_drop (end_ - index) (drop index survivors)) at 2. f_equal.
      rewrite drop_drop. f_equal. lia.
    + rewrite Ht, <- (take_drop (end_ - index) (drop index survivors)) at 1.
      unfold total_rows. rewrite map_app, sumN_app, drop_drop.
      replace (index + (end_ - index))%nat with end_ by lia. lia.
Qed.

Lemma chunks_length survivors total lanes_left index taken :
  length (chunks_from survivors total lanes_left index taken) = lanes_left.
Proof.
  revert index taken. induction lanes_left as [|more IH]; intros index taken; [done|].
  cbn [chunks_from]. destruct (chunk_end _ _ _ _ _). cbn. by rewrite IH.
Qed.

(** ** What a batch may be *)
Definition total_bytes (groups : list RowGroupMeta) : N := sumN (map rg_bytes groups).

Definition batch_fits (batching : Batching) (batch : list RowGroupMeta) : Prop :=
  match batching with
  | Off => True
  | PerRowGroup => length batch = 1%nat
  | Sized target => length batch = 1%nat \/ total_bytes batch <= target
  end.

(** As many groups as fit: the first group of the next batch would have taken the batch before it
    past the target. *)
Definition lane_filled (batching : Batching) (lane : list (list RowGroupMeta)) : Prop :=
  match batching with
  | Sized target => forall i batch group rest,
      lane !! i = Some batch -> lane !! S i = Some (group :: rest) ->
      target < total_bytes batch + rg_bytes group
  | _ => True
  end.

Lemma lane_filled_cons target batch lane :
  (forall group rest, lane !! 0%nat = Some (group :: rest) -> target < total_bytes batch + rg_bytes group) ->
  lane_filled (Sized target) lane -> lane_filled (Sized target) (batch :: lane).
Proof.
  intros Hhead Hlane [|i] b group rest Hb Hn.
  - injection Hb as <-. by eapply Hhead.
  - by eapply (Hlane i).
Qed.

Lemma pack_ok target chunk current :
  (current = [] \/ batch_fits (Sized target) current) ->
  exists batches, pack target chunk (map rg_index current) (total_bytes current) = map (map rg_index) batches
    /\ concat batches = current ++ chunk
    /\ Forall (fun b => b <> [] /\ batch_fits (Sized target) b) batches
    /\ lane_filled (Sized target) batches.
Proof.
  revert current. induction chunk as [|group chunk IH]; intros current Hcur; cbn [pack].
  - destruct current as [|g current]; cbn.
    + by exists [].
    + exists [g :: current]. cbn. rewrite app_nil_r. split_and!; [done..| |].
      * apply Forall_singleton. split; [done|]. by destruct Hcur.
      * by intros [|i].
  - destruct (negb (bool_decide (map rg_index current = [])) && _) eqn:Hfull.
    + apply andb_true_iff in Hfull as [Hne Hover%N.ltb_lt].
      destruct (IH [group]) as (batches & Hp & Hc & Hf & Hfill); [by right; left|].
      unfold total_bytes in Hp. cbn [map] in Hp. rewrite sumN_cons, sumN_nil, N.add_0_r in Hp.
      exists (current :: batches). rewrite Hp. cbn [map concat]. rewrite Hc. split_and!; [done|done| |].
      * constructor; [|done]. destruct current as [|g current]; [done|]. split; [done|]. by destruct Hcur.
      * apply lane_filled_cons; [|done]. intros g rest Hg.
        destruct batches as [|b batches]; [done|]. injection Hg as ->. by injection Hc as -> _.
    + assert (Hnext : batch_fits (Sized target) (current ++ [group])).
      { apply andb_false_iff in Hfull as [He|Hsmall].
        - left. destruct current; [done|]. by rewrite bool_decide_false in He.
        - right. apply N.ltb_ge in Hsmall. unfold total_bytes in *.
          rewrite map_app, sumN_app. cbn [map]. rewrite sumN_cons, sumN_nil. lia. }
      destruct (IH (current ++ [group])) as (batches & Hp & Hc & Hf & Hfill); [by right|].
      unfold total_bytes in Hp. rewrite !map_app, sumN_app in Hp. cbn [map] in Hp.
      rewrite sumN_cons, sumN_nil, N.add_0_r in Hp. exists batches.
      rewrite Hc, <- app_assoc. by split_and!.
Qed.

Lemma batches_of_ok chunk batching :
  exists batches, batches_of chunk batching = map (map rg_index) batches /\ concat batches = chunk
    /\ Forall (fun b => b <> [] /\ batch_fits batching b) batches
    /\ lane_filled batching batches
    /\ (batching = Off -> (length batches <= 1)%nat).
Proof.
  destruct chunk as [|g chunk]; [exists []; split_and!; [done|done|constructor|by destruct batching|intros _; cbn; lia]|].
  destruct batching as [| |target]; cbn [batches_of].
  - exists [g :: chunk]. cbn. rewrite app_nil_r. split_and!; [done..| |done|intros _; lia]. by apply Forall_singleton.
  - exists (map (fun g => [g]) (g :: chunk)). rewrite map_map. split_and!; [done| |by apply Forall_map, Forall_true|done|done].
    clear. induction (g :: chunk) as [|x l IH]; [done|]. cbn. by rewrite IH.
  - destruct (pack_ok target (g :: chunk) []) as (batches & Hp & Hc & Hf & Hfill); [by left|].
    by exists batches.
Qed.

Lemma chunks_split survivors batching chunks :
  exists split,
    map (fun '(start, end_) => batches_of (take (end_ - start) (drop start survivors)) batching) chunks
      = map (map (map rg_index)) split
    /\ concat (concat split) = concat (map (slice survivors) chunks) /\ length split = length chunks
    /\ Forall (Forall (fun batch => batch <> [] /\ batch_fits batching batch)) split
    /\ Forall (lane_filled batching) split
    /\ (batching = Off -> Forall (fun lane => (length lane <= 1)%nat) split).
Proof.
  induction chunks as [|[s e] chunks IH]; [by exists []|].
  destruct IH as (split_ & Hl & Hc & Hn & Hf & Hfill & Hoff).
  destruct (batches_of_ok (slice survivors (s, e)) batching) as (batches & Hb & Hbc & Hbf & Hbfill & Hboff).
  exists (batches :: split_). cbn [map concat length]. rewrite concat_app, Hc, Hbc, Hn.
  unfold slice in Hb. cbn in Hb. rewrite Hb, Hl. split_and!; try done; [by constructor|by constructor|].
  intros Ho. constructor; [by apply Hboff|by apply Hoff].
Qed.

(** No batch is empty and every row group a lane reads is a survivor. *)
Lemma partition_reads_survivors survivors n_partitions batching lanes lane batch :
  partition survivors n_partitions batching = Ok lanes -> lane ∈ lanes -> batch ∈ lane ->
  batch <> [] /\ forall g, g ∈ batch -> exists group, group ∈ survivors /\ rg_index group = g.
Proof.
  unfold partition. intros Hp Hlane Hbatch. inv_ok. subst lanes.
  destruct (chunks_split survivors batching (balanced_chunks survivors n_partitions)) as (split_ & Heq & Hc & _ & Hf & _).
  rewrite Heq in Hlane. apply elem_of_map in Hlane as (lane' & -> & Hlane). apply elem_of_map in Hbatch as (b & -> & Hb).
  rewrite Forall_forall in Hf. pose proof (Hf lane' Hlane) as Hl. rewrite Forall_forall in Hl. destruct (Hl b Hb) as [Hne _].
  split; [by destruct b|]. intros g (group & -> & Hg)%elem_of_map. exists group. split; [|done].
  assert (Hin : group ∈ concat (concat split_)).
  { apply elem_of_concat. exists b. split; [|done]. apply elem_of_concat. by exists lane'. }
  rewrite Hc in Hin. apply elem_of_concat in Hin as (chunk & ([s e] & -> & _)%elem_of_map & Hin).
  unfold slice in Hin. apply elem_of_take in Hin as (i & Hi & _). rewrite lookup_drop in Hi.
  by eapply list_elem_of_lookup_2.
Qed.

(** C36: the mapping reads every surviving row group exactly once, in file order.  Where no row
    group is empty, the lanes are as many as asked for, their batches one after the other are the
    survivors, no batch is empty, and each is what the mode asks: a lane's one batch, one row
    group, or as many as fit the target, a larger one on its own: a batch of more than one is within
    the target, and the group the next batch of its lane starts with would have taken it past. *)
Theorem partition_reads_every_group survivors n_partitions batching lanes :
  Forall (fun group => rg_rows group <> 0) survivors ->
  partition survivors n_partitions batching = Ok lanes ->
  exists split, lanes = map (map (map rg_index)) split
    /\ concat (concat split) = survivors /\ length split = n_partitions
    /\ Forall (Forall (fun batch => batch <> [] /\ batch_fits batching batch)) split
    /\ Forall (lane_filled batching) split
    /\ (batching = Off -> Forall (fun lane => (length lane <= 1)%nat) split).
Proof.
  intros Hpos Hp. unfold partition in Hp. inv_ok. subst lanes.
  apply negb_true_iff, Nat.eqb_neq in E0.
  destruct (chunks_split survivors batching (balanced_chunks survivors n_partitions))
    as (split_ & -> & Hc & Hn & Hrest).
  exists split_. rewrite Hc, Hn. split_and!; [done| |apply chunks_length|apply Hrest..].
  unfold balanced_chunks. rewrite chunks_cover; [done|done|by rewrite drop_0|lia|lia].
Qed.

Definition demo_group (i : nat) (r b : N) : RowGroupMeta := {| rg_index := i; rg_rows := r; rg_bytes := b |}.
Definition demo_survivors : list RowGroupMeta :=
  [demo_group 0 100 40; demo_group 2 100 30; demo_group 3 100 90; demo_group 4 30 10; demo_group 7 100 20].

Lemma partition_reads_every_group_witness :
  partition demo_survivors 2 (Sized 64) = Ok [[[0]; [2]]; [[3]; [4; 7]]]%nat
  /\ exists split, [[[0]; [2]]; [[3]; [4; 7]]]%nat = map (map (map rg_index)) split
    /\ concat (concat split) = demo_survivors /\ length split = 2%nat
    /\ Forall (Forall (fun batch => batch <> [] /\ batch_fits (Sized 64) batch)) split
    /\ Forall (lane_filled (Sized 64)) split
    /\ (Sized 64 = Off -> Forall (fun lane => (length lane <= 1)%nat) split).
Proof.
  split; [vm_compute; reflexivity|].
  apply (partition_reads_every_group demo_survivors 2 (Sized 64)).
  - repeat constructor; discriminate.
  - vm_compute. reflexivity.
Defined.

(** An empty row group after a lane's first ends the last lane early: the groups behind it are read
    by no lane. *)
Example empty_row_group_loses_the_rest :
  partition [demo_group 0 5 1; demo_group 1 0 1; demo_group 2 7 1] 1 Off = Ok [[[0]]]%nat.
Proof. vm_compute. reflexivity. Qed.
