(* ===== verification/Index.v ===== *)
(** * The plan index: the tree as plain numbers

    [executor/driver/index.rs] and its data in [executor/mod.rs].  [walk] numbers the tree in
    pre-order, depth by depth, and post-order beside it; [build] derives the readiness units, the
    contiguous subtree ranges every hold is expressed over, the joins and the accounting slots.

    [flatten] is the specification of the walk: the block of indexed nodes a subtree contributes,
    as a function of where it starts. *)

From stdpp Require Import strings.
From S2P Require Import Prelude Interval PlanIR.
Open Scope nat_scope.

(** ** Data *)
Record IndexedNode :=
  { in_node : GpuNode; category : ExecutorCategory; in_children : list nat;
    parent : option nat; lanes : nat; post_order : nat; input_lanes : nat;
    in_interval : option RowInterval; ready_lanes : nat; slot_base : nat }.

#[export] Instance IndexedNode_inhabited : Inhabited IndexedNode :=
  populate {| in_node := GpuEmpty Sink; category := CSource; in_children := []; parent := None;
              lanes := 0; post_order := 0; input_lanes := 0; in_interval := None;
              ready_lanes := 0; slot_base := 0 |}.



Record JoinShape := { join_node : nat; probe_range : nat * nat; join_lanes : nat }.
#[export] Instance JoinShape_inhabited : Inhabited JoinShape :=
  populate {| join_node := 0; probe_range := (0, 0); join_lanes := 0 |}.

Record PlanShape :=
  { heights : list nat; shape_lanes : list nat; subtree : list (nat * nat);
    joins : list JoinShape }.

Record PlanIndex := { nodes : list IndexedNode; shape : PlanShape; slots : nat }.

Definition node_count (s : PlanShape) : nat := length (heights s).
Definition index_len (ix : PlanIndex) : nat := length (nodes ix).
Definition PROBE_CHILD : nat := 1.
Definition ROOT : nat := 0.

(** ** [walk] *)
Record WalkState := { w_nodes : list IndexedNode; w_heights : list nat; w_post : nat }.

(** [node.children().into_iter().map(|child| walk(child, ..)).collect()]. *)
Fixpoint walk_children (kids : list (nat -> option nat -> WalkState -> nat * WalkState))
    (height : nat) (parent : option nat) (st : WalkState) : list nat * WalkState :=
  match kids with
  | [] => ([], st)
  | k :: ks =>
      let '(i, st) := k height parent st in
      let '(idxs, st) := walk_children ks height parent st in
      (i :: idxs, st)
  end.

(** The fields a node is given once its children are indexed. *)
Definition set_walked (children : list nat) (lanes_ input_lanes_ post : nat) (x : IndexedNode) :
    IndexedNode :=
  {| in_node := in_node x; category := category x; in_children := children; parent := parent x;
     lanes := lanes_; post_order := post; input_lanes := input_lanes_;
     in_interval := in_interval x; ready_lanes := ready_lanes x; slot_base := slot_base x |}.

Definition walk_step (node : GpuNode)
    (kids : list (nat -> option nat -> WalkState -> nat * WalkState))
    (height : nat) (parent_ : option nat) (st : WalkState) : nat * WalkState :=
  let idx := length (w_nodes st) in
  let category_ := category_of node in
  let st := {| w_nodes := w_nodes st ++
                 [{| in_node := node; category := category_; in_children := [];
                     parent := parent_; lanes := 0; post_order := 0; input_lanes := 0;
                     in_interval := row_interval node; ready_lanes := 0; slot_base := 0 |}];
               w_heights := w_heights st ++ [height];
               w_post := w_post st |} in
  let '(children, st) := walk_children kids (S height) (Some idx) st in
  let lanes_ := match kind_layout (kind node) with
                | Some layout => n layout
                | None => lanes (w_nodes st !!! (children !!! 0))
                end in
  let input_lanes_ := if bool_decide (category_ = CPartitionAccumulator)
                      then lanes (w_nodes st !!! (children !!! 0)) else 0 in
  (idx, {| w_nodes := alter (set_walked children lanes_ input_lanes_ (w_post st)) idx (w_nodes st);
           w_heights := w_heights st;
           w_post := S (w_post st) |}).

Definition walk : GpuNode -> nat -> option nat -> WalkState -> nat * WalkState :=
  fold_node walk_step.

(** ** [build] *)
Definition ready_lanes_of (x : IndexedNode) : nat :=
  match category x with
  | CPartitionAccumulator => input_lanes x
  | CPartitionEmitter => 1
  | _ => lanes x
  end.

Definition set_ready (x : IndexedNode) : IndexedNode :=
  {| in_node := in_node x; category := category x; in_children := in_children x;
     parent := parent x; lanes := lanes x; post_order := post_order x;
     input_lanes := input_lanes x; in_interval := in_interval x;
     ready_lanes := ready_lanes_of x; slot_base := slot_base x |}.

Definition set_slot_base (b : nat) (x : IndexedNode) : IndexedNode :=
  {| in_node := in_node x; category := category x; in_children := in_children x;
     parent := parent x; lanes := lanes x; post_order := post_order x;
     input_lanes := input_lanes x; in_interval := in_interval x;
     ready_lanes := ready_lanes x; slot_base := b |}.

(** [for index in (0..len).rev() { for child in children { end[index] = max(..) } }]: the [k]
    highest indices have been visited. *)
Fixpoint subtree_ends (nodes_ : list IndexedNode) (ends : list nat) (k : nat) : list nat :=
  match k with
  | O => ends
  | S k' =>
      let ends := foldl (fun e child => <[k' := Nat.max (e !!! k') (e !!! child)]> e) ends
                        (in_children (nodes_ !!! k')) in
      subtree_ends nodes_ ends k'
  end.

Definition subtree_ranges (nodes_ : list IndexedNode) : list (nat * nat) :=
  let ends := subtree_ends nodes_ (map S (seq 0 (length nodes_))) (length nodes_) in
  map (fun i => (i, ends !!! i)) (seq 0 (length nodes_)).

Definition joins_of (nodes_ : list IndexedNode) (subtree_ : list (nat * nat)) : list JoinShape :=
  omap (fun i =>
    let x := nodes_ !!! i in
    if bool_decide (category x = CJoin)
    then Some {| join_node := i;
                 probe_range := subtree_ !!! (in_children x !!! PROBE_CHILD);
                 join_lanes := lanes x |}
    else None) (seq 0 (length nodes_)).

Definition slots_of (x : IndexedNode) : nat := if is_lane_scoped (category x) then lanes x else 1.

Fixpoint assign_slots (base : nat) (nodes_ : list IndexedNode) : list IndexedNode * nat :=
  match nodes_ with
  | [] => ([], base)
  | x :: xs =>
      let '(xs', total) := assign_slots (base + slots_of x) xs in
      (set_slot_base base x :: xs', total)
  end.

Definition build (root : GpuNode) : PlanIndex :=
  let '(_, st) := walk root 0 None {| w_nodes := []; w_heights := []; w_post := 0 |} in
  let nodes_ := map set_ready (w_nodes st) in
  let subtree_ := subtree_ranges nodes_ in
  let joins_ := joins_of nodes_ subtree_ in
  let '(nodes_, slots_) := assign_slots 0 nodes_ in
  {| nodes := nodes_;
     shape := {| heights := w_heights st;
                 shape_lanes := map ready_lanes nodes_;
                 subtree := subtree_;
                 joins := joins_ |};
     slots := slots_ |}.

(** [index::slot]. *)
Definition slot (ix : PlanIndex) (node lane : nat) : nat :=
  let indexed := nodes ix !!! node in
  slot_base indexed + (if is_lane_scoped (category indexed) then lane else 0).

(** ** The specification of the walk *)

(** A sink runs the lanes its input hands it, so it has an input. *)
Definition sinks_have_input : GpuNode -> Prop :=
  fold_node (fun node kids =>
    (kind_layout (kind node) = None -> children node <> []) /\ Forall id kids).

Definition node_lanes : GpuNode -> nat :=
  fold_node (fun node kids =>
    match kind_layout (kind node) with Some layout => n layout | None => kids !!! 0 end).

(** Where each of [cs] starts, the first at [base]. *)
Fixpoint child_bases (cs : list GpuNode) (base : nat) : list nat :=
  match cs with
  | [] => []
  | c :: cs => base :: child_bases cs (base + node_size c)
  end.

Definition indexed_node (node : GpuNode) (base : nat) (parent_ : option nat) (post : nat) :
    IndexedNode :=
  {| in_node := node; category := category_of node;
     in_children := child_bases (children node) (S base); parent := parent_;
     lanes := node_lanes node;
     post_order := post + sum_list_with node_size (children node);
     input_lanes := if bool_decide (category_of node = CPartitionAccumulator)
                    then node_lanes (children node !!! 0) else 0;
     in_interval := row_interval node; ready_lanes := 0; slot_base := 0 |}.

Definition Block := nat -> nat -> option nat -> nat -> list (IndexedNode * nat).

Fixpoint flatten_children (cs : list GpuNode) (bs : list Block)
    (base height : nat) (parent : option nat) (post : nat) : list (IndexedNode * nat) :=
  match cs, bs with
  | c :: cs, b :: bs =>
      b base height parent post
      ++ flatten_children cs bs (base + node_size c) height parent (post + node_size c)
  | _, _ => []
  end.

(** The block of a subtree numbered from [base], its root at [height] under [parent], and [post]
    nodes already finished. *)
Definition flatten : GpuNode -> Block :=
  fold_node (fun node bs base height parent post =>
    (indexed_node node base parent post, height)
    :: flatten_children (children node) bs (S base) (S height) (Some base) post).

Lemma flatten_eq node base height parent post :
  flatten node base height parent post
  = (indexed_node node base parent post, height)
    :: flatten_children (children node) (map flatten (children node))
         (S base) (S height) (Some base) post.
Proof. unfold flatten at 1. by rewrite fold_node_eq. Qed.

Lemma node_lanes_eq node :
  node_lanes node = match kind_layout (kind node) with
                    | Some layout => n layout
                    | None => map node_lanes (children node) !!! 0
                    end.
Proof. unfold node_lanes at 1. by rewrite fold_node_eq. Qed.

Lemma sinks_have_input_eq node :
  sinks_have_input node <->
  (kind_layout (kind node) = None -> children node <> [])
  /\ Forall sinks_have_input (children node).
Proof.
  unfold sinks_have_input at 1. rewrite fold_node_eq. by rewrite Forall_map.
Qed.

Lemma walk_eq node : walk node = walk_step node (map walk (children node)).
Proof. unfold walk at 1. by rewrite fold_node_eq. Qed.

Lemma length_flatten node base height parent post :
  length (flatten node base height parent post) = node_size node.
Proof.
  revert base height parent post.
  induction node as [node IH] using node_ind_children; intros.
  rewrite flatten_eq, node_size_children; cbn. f_equal.
  revert IH. generalize (S base), (S height), (Some base), post.
  induction (children node) as [|c cs IHcs]; intros b h p q IH; [done|]; cbn.
  rewrite length_app, IH, IHcs by set_solver. done.
Qed.

(** The first node of the [i]-th child's block is that child. *)
Lemma flatten_children_head cs base height parent post i b c :
  child_bases cs base !! i = Some b -> cs !! i = Some c ->
  exists po, flatten_children cs (map flatten cs) base height parent post !! (b - base)
             = Some (indexed_node c b parent po, height) /\ base <= b.
Proof.
  revert base post i. induction cs as [|c' cs IH]; intros base post [|i] Hb Hc; simplify_eq/=.
  - rewrite Nat.sub_diag, flatten_eq. cbn. eauto.
  - destruct (IH _ (post + node_size c') _ Hb Hc) as (po & Hl & Hle).
    exists po. split; [|lia]. rewrite lookup_app_r; rewrite length_flatten; [|lia].
    rewrite <- Hl. f_equal. lia.
Qed.

Lemma walk_children_flatten cs height parent st :
  (forall c, c ∈ cs -> forall h p st, walk c h p st =
     (length (w_nodes st),
      {| w_nodes := w_nodes st ++ map fst (flatten c (length (w_nodes st)) h p (w_post st));
         w_heights := w_heights st ++ map snd (flatten c (length (w_nodes st)) h p (w_post st));
         w_post := w_post st + node_size c |})) ->
  let fl := flatten_children cs (map flatten cs) (length (w_nodes st)) height parent (w_post st) in
  walk_children (map walk cs) height parent st =
    (child_bases cs (length (w_nodes st)),
     {| w_nodes := w_nodes st ++ map fst fl; w_heights := w_heights st ++ map snd fl;
        w_post := w_post st + sum_list_with node_size cs |}).
Proof.
  revert st. induction cs as [|c cs IH]; intros st Hc; cbn.
  - rewrite !app_nil_r, Nat.add_0_r. by destruct st.
  - rewrite Hc by set_solver. rewrite IH by (intros; apply Hc; set_solver). cbn.
    rewrite length_app, length_map, length_flatten, !map_app, !app_assoc.
    do 2 f_equal. lia.
Qed.

(** The lanes of the first child, as the walk reads them off its own list. *)
Lemma first_child_lanes (ns : list IndexedNode) cs x base height parent post :
  cs <> [] -> base = S (length ns) ->
  lanes ((ns ++ x :: map fst (flatten_children cs (map flatten cs) base height parent post))
         !!! (child_bases cs base !!! 0))
  = node_lanes (cs !!! 0).
Proof.
  intros Hne ->. destruct cs as [|c cs]; [done|]. cbn.
  rewrite flatten_eq. cbn. rewrite lookup_total_app_r by lia.
  replace (S (length ns) - length ns) with 1 by lia. done.
Qed.

Theorem walk_is_flatten node :
  sinks_have_input node -> forall height parent st,
  walk node height parent st =
    (length (w_nodes st),
     {| w_nodes := w_nodes st ++ map fst (flatten node (length (w_nodes st)) height parent (w_post st));
        w_heights := w_heights st ++ map snd (flatten node (length (w_nodes st)) height parent (w_post st));
        w_post := w_post st + node_size node |}).
Proof.
  induction node as [node IH] using node_ind_children. intros [Hsink Hkids]%sinks_have_input_eq.
  rewrite Forall_forall in Hkids. intros height parent st. rewrite walk_eq. unfold walk_step.
  rewrite walk_children_flatten by (intros; apply IH; [done|by apply Hkids]).
  cbn [w_nodes w_heights w_post]. rewrite length_app, flatten_eq.
  replace (length (w_nodes st) + length [_]) with (S (length (w_nodes st))) by (cbn; lia).
  rewrite <- !app_assoc. cbn [app map fst snd]. rewrite alter_app_r_alt by done. rewrite Nat.sub_diag. cbn [alter list_alter].
  f_equal. f_equal; [|rewrite node_size_children; lia].
  f_equal. f_equal. unfold set_walked, indexed_node; cbn. f_equal.
  - rewrite node_lanes_eq. destruct (kind_layout (kind node)) eqn:Hk; [done|].
    specialize (Hsink eq_refl). rewrite first_child_lanes by done.
    destruct (children node); [done|]. done.
  - case_bool_decide as Hc; [|done]. apply first_child_lanes; [|done]. by destruct node.
Qed.

(** ** Self-similarity: what starts at any position of a block is the block of the node there *)
Lemma flatten_children_at cs base height parent post k x :
  flatten_children cs (map flatten cs) base height parent post !! k = Some x ->
  exists c pre post' rest k',
    c ∈ cs
    /\ flatten_children cs (map flatten cs) base height parent post
       = pre ++ flatten c (base + length pre) height parent post' ++ rest
    /\ k = length pre + k' /\ k' < node_size c
    /\ base + length pre ∈ child_bases cs base.
Proof.
  revert base post k. induction cs as [|c cs IH]; intros base post k Hk; [done|]. cbn in *.
  destruct (decide (k < node_size c)).
  - exists c, [], post, (flatten_children cs (map flatten cs) (base + node_size c) height parent
      (post + node_size c)), k.
    cbn. rewrite Nat.add_0_r. split_and!; [set_solver|done|done|done|constructor].
  - rewrite lookup_app_r in Hk by (rewrite length_flatten; lia). rewrite length_flatten in Hk.
    apply IH in Hk as (c' & pre & post' & rest & k' & Hc & Heq & Hk & Hlt & Hb).
    exists c', (flatten c base height parent post ++ pre), post', rest, k'.
    rewrite length_app, length_flatten, Heq, <- app_assoc, Nat.add_assoc.
    split_and!; [set_solver|done|lia|done|by constructor].
Qed.

Definition is_parent_of (L : list (IndexedNode * nat)) (base k : nat) (x : IndexedNode) (hx : nat)
    : Prop :=
  exists i y hy, i < k /\ L !! i = Some (y, hy) /\ parent x = Some (base + i) /\ hx = S hy
    /\ base + k ∈ in_children y.

Lemma flatten_at node base height parent_ post k x hx :
  flatten node base height parent_ post !! k = Some (x, hx) ->
  exists post' rest,
    drop k (flatten node base height parent_ post)
      = flatten (in_node x) (base + k) hx (parent x) post' ++ rest
    /\ ((k = 0 /\ parent x = parent_) \/ is_parent_of (flatten node base height parent_ post)
                                           base k x hx).
Proof.
  revert base height parent_ post k x hx.
  induction node as [node IH] using node_ind_children. intros base height parent_ post [|k] x hx Hk.
  - rewrite flatten_eq in Hk. cbn in Hk. simplify_eq. exists post, []. cbn.
    rewrite app_nil_r, drop_0, Nat.add_0_r. auto.
  - rewrite flatten_eq in Hk |- *. simpl in Hk |- *.
    destruct (flatten_children_at _ _ _ _ _ _ _ Hk) as (c & pre & po & rest & k' & Hc & Heq & -> & Hlt & Hb).
    rewrite Heq in Hk |- *.
    rewrite lookup_app_r, lookup_app_l in Hk by (rewrite ?length_flatten; lia).
    replace (length pre + k' - length pre) with k' in Hk by lia.
    destruct (IH c Hc _ _ _ _ _ _ _ Hk) as (po' & rest' & Hd & Hpar).
    exists po', (rest' ++ rest). split.
    + rewrite drop_app_add, drop_app_le by (rewrite length_flatten; lia).
      rewrite Hd, <- app_assoc. do 2 f_equal. lia.
    + right. destruct Hpar as [[-> Hp]|(i & y & hy & Hi & Hy & Hp & Hh & Hin)].
      * exists 0, (indexed_node node base parent_ post), height. cbn.
        split_and!; [lia|done|by rewrite Hp, Nat.add_0_r| |].
        -- destruct c; rewrite flatten_eq in Hk; cbn in Hk; congruence.
        -- by replace (base + S (length pre + 0)) with (S base + length pre) by lia.
      * exists (S (length pre + i)), y, hy. split_and!; [lia| |rewrite Hp; f_equal; lia|done|].
        -- simpl. rewrite lookup_app_r, lookup_app_l by (rewrite ?length_flatten; lia).
           rewrite <- Hy. f_equal. lia.
        -- by replace (base + S (length pre + k')) with (S base + length pre + k') by lia.
Qed.

(** ** Slots and subtree ranges *)
Lemma assign_slots_spec base xs :
  assign_slots base xs
  = (imap (fun i x => set_slot_base (base + sum_list_with slots_of (take i xs)) x) xs,
     base + sum_list_with slots_of xs).
Proof.
  revert base. induction xs as [|x xs IH]; intros base; cbn; [by rewrite Nat.add_0_r|].
  rewrite IH. f_equal; [|lia]. f_equal; [by rewrite Nat.add_0_r|].
  apply imap_ext. intros i y _. cbn. f_equal. lia.
Qed.

Lemma foldl_max_insert (k : nat) (e : list nat) (l : list nat) :
  k < length e -> (forall c, c ∈ l -> c <> k) ->
  foldl (fun e c => <[k := Nat.max (e !!! k) (e !!! c)]> e) e l
  = <[k := foldl Nat.max (e !!! k) (map (e !!!.) l)]> e.
Proof.
  revert e. induction l as [|c l IH]; intros e Hk Hne; cbn.
  - by rewrite list_insert_id by (by apply list_lookup_lookup_total_lt).
  - rewrite IH by (rewrite ?length_insert; set_solver).
    rewrite list_insert_insert_eq, list_lookup_total_insert_eq by done. f_equal. f_equal.
    apply map_ext_in. intros d Hd. rewrite list_lookup_total_insert_ne; [done|].
    intros ->. apply (Hne d); [|done]. right. by apply list_elem_of_In.
Qed.

Lemma foldl_max_ends (e : nat -> nat) cs base :
  (forall i b c, child_bases cs base !! i = Some b -> cs !! i = Some c -> e b = b + node_size c) ->
  foldl Nat.max base (map e (child_bases cs base)) = base + sum_list_with node_size cs.
Proof.
  revert base. induction cs as [|c cs IH]; intros base He; cbn; [lia|].
  rewrite (He 0 base c) by done. rewrite Nat.max_r by lia. rewrite IH; [lia|].
  intros i b c' Hb Hc. by apply (He (S i)).
Qed.

Lemma length_child_bases cs base : length (child_bases cs base) = length cs.
Proof. revert base. induction cs; intros; cbn; auto. Qed.

(** What a run of the driver relies on in an index. *)
Record wf_index (ix : PlanIndex) : Prop := {
  wf_heights : length (heights (shape ix)) = length (nodes ix);
  wf_lanes_len : shape_lanes (shape ix) = map ready_lanes (nodes ix);
  wf_root : exists x, nodes ix !! ROOT = Some x /\ parent x = None;
  wf_child i x j c : nodes ix !! i = Some x -> in_children x !! j = Some c ->
    exists y h, nodes ix !! c = Some y /\ parent y = Some i
      /\ children (in_node x) !! j = Some (in_node y) /\ i < c
      /\ c + node_size (in_node y) <= i + node_size (in_node x)
      /\ heights (shape ix) !! i = Some h /\ heights (shape ix) !! c = Some (S h);
  wf_parent c y : nodes ix !! c = Some y ->
    (c = ROOT /\ parent y = None)
    \/ exists i x, nodes ix !! i = Some x /\ parent y = Some i /\ c ∈ in_children x /\ i < c;
  wf_node i x : nodes ix !! i = Some x ->
    category x = category_of (in_node x) /\ lanes x = node_lanes (in_node x)
    /\ in_interval x = row_interval (in_node x) /\ ready_lanes x = ready_lanes_of x
    /\ length (in_children x) = length (children (in_node x)) /\ NoDup (in_children x)
    /\ input_lanes x = (if bool_decide (category x = CPartitionAccumulator)
                        then node_lanes (children (in_node x) !!! 0) else 0);
  wf_subtree i x : nodes ix !! i = Some x ->
    subtree (shape ix) !! i = Some (i, i + node_size (in_node x))
    /\ i + node_size (in_node x) <= length (nodes ix);
  wf_inside i x j y : nodes ix !! i = Some x -> nodes ix !! j = Some y ->
    i < j < i + node_size (in_node x) -> exists p, parent y = Some p /\ i <= p < j }.

(** The walk's list, as the index's nodes before their readiness and slots are set. *)
Definition flat (root : GpuNode) : list (IndexedNode * nat) := flatten root 0 0 None 0.

Lemma build_eq root :
  sinks_have_input root ->
  let ns := map set_ready (map fst (flat root)) in
  let sub := subtree_ranges ns in
  build root = {| nodes := imap (fun i x => set_slot_base (sum_list_with slots_of (take i ns)) x) ns;
                  shape := {| heights := map snd (flat root);
                              shape_lanes := map ready_lanes
                                (imap (fun i x => set_slot_base (sum_list_with slots_of (take i ns)) x) ns);
                              subtree := sub; joins := joins_of ns sub |};
                  slots := sum_list_with slots_of ns |}.
Proof.
  intros Hs. unfold build. rewrite walk_is_flatten by done. cbn [w_nodes w_heights w_post length app].
  rewrite assign_slots_spec. done.
Qed.

Lemma build_lookup root i x :
  sinks_have_input root ->
  nodes (build root) !! i = Some x <->
  exists y h, flat root !! i = Some (y, h)
    /\ x = set_slot_base (sum_list_with slots_of (take i (map set_ready (map fst (flat root)))))
             (set_ready y).
Proof.
  intros Hs. rewrite build_eq by done. cbn [nodes]. rewrite list_lookup_imap, !list_lookup_fmap.
  destruct (flat root !! i) as [[y h]|] eqn:Hi; cbn; split.
  - intros [= <-]. eauto.
  - by intros (? & ? & [= <- <-] & ->).
  - done.
  - by intros (? & ? & ? & ?).
Qed.

Lemma flat_at root i x h :
  flat root !! i = Some (x, h) ->
  exists post rest, drop i (flat root) = flatten (in_node x) i h (parent x) post ++ rest
    /\ x = indexed_node (in_node x) i (parent x) post.
Proof.
  intros Hi. destruct (flatten_at _ _ _ _ _ _ _ _ Hi) as (post & rest & Hd & _).
  exists post, rest. split; [done|]. unfold flat in *.
  rewrite <- (Nat.add_0_r i), <- lookup_drop, Hd, flatten_eq in Hi. cbn in Hi. congruence.
Qed.

Lemma child_bases_end cs base j b c :
  child_bases cs base !! j = Some b -> cs !! j = Some c ->
  b + node_size c <= base + sum_list_with node_size cs.
Proof.
  revert base j. induction cs as [|c' cs IH]; intros base [|j] Hb Hc; simplify_eq/=; [lia|].
  specialize (IH _ _ Hb Hc). lia.
Qed.

Lemma flat_child root i x h j c :
  flat root !! i = Some (x, h) -> in_children x !! j = Some c ->
  exists y, flat root !! c = Some (y, S h) /\ parent y = Some i
    /\ children (in_node x) !! j = Some (in_node y) /\ i < c
    /\ c + node_size (in_node y) <= i + node_size (in_node x).
Proof.
  intros Hi Hc. destruct (flat_at _ _ _ _ Hi) as (post & rest & Hd & Hx).
  rewrite Hx in Hc. cbn in Hc.
  assert (j < length (children (in_node x))) as [cn Hcn]%lookup_lt_is_Some.
  { rewrite <- (length_child_bases _ (S i)). by eapply lookup_lt_Some. }
  destruct (flatten_children_head _ _ (S h) (Some i) post _ _ _ Hc Hcn) as (po & Hl & Hle).
  rewrite flatten_eq in Hd. pose proof (lookup_lt_Some _ _ _ Hl) as Hlt.
  exists (indexed_node cn c (Some i) po). rewrite (node_size_children (in_node x)).
  pose proof (child_bases_end _ _ _ _ _ Hc Hcn).
  split_and!; [|done|by rewrite Hcn|lia|cbn; lia].
  replace (flat root !! c) with (flat root !! (i + S (c - S i))) by (f_equal; lia).
  rewrite <- lookup_drop, Hd. simpl. rewrite lookup_app_l by exact Hlt. exact Hl.
Qed.

Lemma flat_parent root c y h :
  flat root !! c = Some (y, h) ->
  (c = 0 /\ parent y = None)
  \/ exists i x hx, flat root !! i = Some (x, hx) /\ parent y = Some i /\ c ∈ in_children x /\ i < c.
Proof.
  intros Hc. destruct (flatten_at _ _ _ _ _ _ _ _ Hc) as (post & rest & _ & [[-> Hp]|Hp]); [auto|].
  destruct Hp as (i & x & hx & Hlt & Hx & Hp & _ & Hin). right. exists i, x, hx.
  by rewrite Nat.add_0_l in *.
Qed.

Lemma child_bases_ge cs base b : b ∈ child_bases cs base -> base <= b.
Proof.
  revert base. induction cs as [|c cs IH]; intros base; cbn; [by intros ?%not_elem_of_nil|].
  intros [->|Hb%IH]%elem_of_cons; lia.
Qed.

Lemma node_size_pos node : 0 < node_size node.
Proof. rewrite node_size_children. lia. Qed.

Lemma NoDup_child_bases cs base : NoDup (child_bases cs base).
Proof.
  revert base. induction cs as [|c cs IH]; intros base; cbn; constructor; [|done].
  intros Hb%child_bases_ge. pose proof (node_size_pos c). lia.
Qed.

Lemma flat_subtree_end root i x h :
  flat root !! i = Some (x, h) -> i + node_size (in_node x) <= length (flat root).
Proof.
  intros Hi. destruct (flat_at _ _ _ _ Hi) as (post & rest & Hd & _).
  apply (f_equal length) in Hd. rewrite length_drop, length_app, length_flatten in Hd.
  apply lookup_lt_Some in Hi. lia.
Qed.

Lemma flat_inside root i x h j y hy :
  flat root !! i = Some (x, h) -> flat root !! j = Some (y, hy) ->
  i < j < i + node_size (in_node x) -> exists p, parent y = Some p /\ i <= p < j.
Proof.
  intros Hi Hj Hlt. destruct (flat_at _ _ _ _ Hi) as (post & rest & Hd & _).
  replace j with (i + (j - i)) in Hj by lia. rewrite <- lookup_drop, Hd in Hj.
  rewrite lookup_app_l in Hj by (rewrite length_flatten; lia).
  destruct (flatten_at _ _ _ _ _ _ _ _ Hj) as (_ & _ & _ & [[? _]|(k & ? & ? & ? & _ & Hp & _)]);
    [lia|]. exists (i + k). split; [done|lia].
Qed.

(** The loop over the indices from the highest down: those visited hold their subtree's end. *)
Lemma subtree_ends_spec root ns k e :
  (forall i x h, flat root !! i = Some (x, h) -> in_children (ns !!! i) = in_children x) ->
  k <= length (flat root) -> length e = length (flat root) ->
  (forall i, i < k -> e !!! i = S i) ->
  (forall i x h, k <= i -> flat root !! i = Some (x, h) -> e !!! i = i + node_size (in_node x)) ->
  forall i x h, flat root !! i = Some (x, h) ->
    subtree_ends ns e k !!! i = i + node_size (in_node x).
Proof.
  intros Hns. revert e. induction k as [|k IH]; intros e Hk Hlen Hlo Hhi; cbn.
  { intros i x h. apply Hhi. lia. }
  destruct (lookup_lt_is_Some_2 (flat root) k) as [[x h] Hx]; [lia|].
  rewrite (Hns _ _ _ Hx).
  destruct (flat_at _ _ _ _ Hx) as (post & rest & _ & Heq).
  rewrite foldl_max_insert; [|lia|].
  2:{ intros c [j Hj]%list_elem_of_lookup ->. destruct (flat_child _ _ _ _ _ _ Hx Hj); naive_solver lia. }
  assert (foldl Nat.max (e !!! k) (map (e !!!.) (in_children x)) = k + node_size (in_node x)) as ->.
  { rewrite Hlo by lia. rewrite Heq at 1. cbn [in_children indexed_node].
    rewrite foldl_max_ends; [rewrite node_size_children; lia|].
    intros j b c Hb Hc. assert (in_children x !! j = Some b) as Hj by (by rewrite Heq).
    destruct (flat_child _ _ _ _ _ _ Hx Hj) as (y & Hy & _ & Hcy & ? & ?).
    rewrite (Hhi b y (S h)) by (done || lia). congruence. }
  apply IH; [lia|by rewrite length_insert| |].
  - intros i Hi. rewrite list_lookup_total_insert_ne by lia. apply Hlo. lia.
  - intros i y hy Hi Hy. destruct (decide (i = k)) as [->|].
    + rewrite list_lookup_total_insert_eq by lia. congruence.
    + rewrite list_lookup_total_insert_ne by lia. apply (Hhi i y hy); [lia|done].
Qed.

Lemma in_children_build root i x :
  sinks_have_input root -> nodes (build root) !! i = Some x ->
  exists y h, flat root !! i = Some (y, h) /\ in_node x = in_node y /\ in_children x = in_children y
    /\ parent x = parent y /\ lanes x = lanes y /\ category x = category y
    /\ input_lanes x = input_lanes y /\ in_interval x = in_interval y
    /\ ready_lanes x = ready_lanes_of x /\ post_order x = post_order y.
Proof. intros Hs (y & h & Hy & ->)%build_lookup; [|done]. exists y, h. split_and!; done. Qed.

Lemma subtree_build root i x h :
  sinks_have_input root -> flat root !! i = Some (x, h) ->
  subtree (shape (build root)) !! i = Some (i, i + node_size (in_node x)).
Proof.
  intros Hs Hi. rewrite build_eq by done. cbn [shape subtree]. unfold subtree_ranges.
  rewrite list_lookup_fmap, !length_map. pose proof (lookup_lt_Some _ _ _ Hi).
  rewrite lookup_seq_lt by done. cbn. do 2 f_equal.
  apply (subtree_ends_spec root _ _ _) with (h := h); [|done|by rewrite length_map, length_seq| | |done].
  - intros j y hy Hj. rewrite (list_lookup_total_correct _ _ (set_ready y)); [done|].
    by rewrite !list_lookup_fmap, Hj.
  - intros j Hj. apply list_lookup_total_correct.
    rewrite list_lookup_fmap, lookup_seq_lt by done. done.
  - intros j y hy Hge Hj%lookup_lt_Some. lia.
Qed.

Lemma length_build root : sinks_have_input root -> length (nodes (build root)) = length (flat root).
Proof. intros Hs. rewrite build_eq by done. cbn. by rewrite length_imap, !length_map. Qed.

Lemma build_wf root : sinks_have_input root -> wf_index (build root).
Proof.
  intros Hs. split.
  - rewrite length_build, build_eq by done. cbn. by rewrite length_map.
  - by rewrite build_eq.
  - destruct (proj2 (lookup_lt_is_Some (nodes (build root)) ROOT)) as [x Hx].
    { rewrite length_build by done. unfold flat. rewrite length_flatten. apply node_size_pos. }
    exists x. split; [done|].
    destruct (in_children_build _ _ _ Hs Hx) as (y & h & Hy & _ & _ & -> & _).
    destruct (flat_parent _ _ _ _ Hy) as [[_ ?]|(? & ? & ? & _ & _ & _ & ?)]; [done|].
    unfold ROOT in *. lia.
  - intros i x j c Hx Hc. destruct (in_children_build _ _ _ Hs Hx) as (y & h & Hy & Hn & Hch & _).
    rewrite Hch in Hc. destruct (flat_child _ _ _ _ _ _ Hy Hc) as (z & Hz & Hp & Hcn & Hlt & Hend).
    assert (exists w, nodes (build root) !! c = Some w) as [w Hw].
    { apply lookup_lt_is_Some. rewrite length_build by done. by eapply lookup_lt_Some. }
    destruct (in_children_build _ _ _ Hs Hw) as (z' & hz & Hz' & Hnz & _ & Hpz & _).
    assert (z' = z) as -> by congruence. exists w, h. rewrite Hnz, Hpz, Hn.
    split_and!; try done; try lia; rewrite build_eq by done; cbn; rewrite list_lookup_fmap.
    + by rewrite Hy.
    + by rewrite Hz.
  - intros c y Hy. destruct (in_children_build _ _ _ Hs Hy) as (z & h & Hz & _ & _ & Hp & _).
    destruct (flat_parent _ _ _ _ Hz) as [[-> ?]|(i & x & hx & Hx & Hpi & Hin & Hlt)].
    { left. by rewrite Hp. }
    right. assert (exists w, nodes (build root) !! i = Some w) as [w Hw].
    { apply lookup_lt_is_Some. rewrite length_build by done. by eapply lookup_lt_Some. }
    destruct (in_children_build _ _ _ Hs Hw) as (x' & hx' & Hx' & _ & Hch & _).
    assert (x' = x) as -> by congruence. exists i, w. rewrite Hp, Hch. done.
  - intros i x Hx. destruct (in_children_build _ _ _ Hs Hx)
      as (y & h & Hy & -> & -> & _ & -> & -> & -> & -> & -> & _).
    destruct (flat_at _ _ _ _ Hy) as (post & rest & _ & ->). cbn.
    split_and!; try done; [apply length_child_bases|apply NoDup_child_bases].
  - intros i x Hx. destruct (in_children_build _ _ _ Hs Hx) as (y & h & Hy & -> & _).
    split; [by eapply subtree_build|]. rewrite length_build by done. by eapply flat_subtree_end.
  - intros i x j y Hx Hy Hlt.
    destruct (in_children_build _ _ _ Hs Hx) as (x' & hx & Hx' & Hn & _).
    destruct (in_children_build _ _ _ Hs Hy) as (y' & hy & Hy' & _ & _ & -> & _).
    rewrite Hn in Hlt. by eapply flat_inside.
Qed.

(** ** Ancestry *)

(** [anc ix i j]: the path from [j] to the root passes [i]. *)
Inductive anc (ix : PlanIndex) (i : nat) : nat -> Prop :=
| anc_refl : anc ix i i
| anc_step j p y : nodes ix !! j = Some y -> parent y = Some p -> anc ix i p -> anc ix i j.


Section index_facts.
Context (ix : PlanIndex) (Hwf : wf_index ix).

Lemma parent_child j y p :
  nodes ix !! j = Some y -> parent y = Some p ->
  exists x k, nodes ix !! p = Some x /\ in_children x !! k = Some j.
Proof using Hwf.
  intros Hy Hp. destruct (wf_parent _ Hwf _ _ Hy) as [[_ ?]|(i & x & Hx & Hp' & Hin & _)];
    [congruence|]. apply list_elem_of_lookup in Hin as [k Hk]. assert (i = p) as -> by congruence.
  eauto.
Qed.

(** A child's subtree lies inside its parent's. *)
Lemma child_subtree j y p x :
  nodes ix !! j = Some y -> parent y = Some p -> nodes ix !! p = Some x ->
  p < j /\ j + node_size (in_node y) <= p + node_size (in_node x).
Proof using Hwf.
  intros Hy Hp Hx. destruct (parent_child _ _ _ Hy Hp) as (x' & k & Hx' & Hk).
  assert (x' = x) as -> by congruence.
  destruct (wf_child _ Hwf _ _ _ _ Hx Hk) as (y' & h & Hy' & _ & _ & ? & ? & _).
  assert (y' = y) as -> by congruence. done.
Qed.

Lemma anc_range i x j :
  nodes ix !! i = Some x -> anc ix i j ->
  forall y, nodes ix !! j = Some y -> i <= j /\ j + node_size (in_node y) <= i + node_size (in_node x).
Proof using Hwf.
  intros Hi Hanc. induction Hanc as [|j p y Hy Hp _ IH]; intros y' Hy'.
  - assert (y' = x) as -> by congruence. lia.
  - assert (y' = y) as -> by congruence. destruct (parent_child _ _ _ Hy Hp) as (z & k & Hz & _).
    destruct (child_subtree _ _ _ _ Hy Hp Hz). specialize (IH _ Hz). lia.
Qed.

(** The contiguous range is the subtree: the nodes with [i] on their path to the root. *)
Lemma range_anc i x j y :
  nodes ix !! i = Some x -> nodes ix !! j = Some y ->
  i <= j < i + node_size (in_node x) <-> anc ix i j.
Proof using Hwf.
  intros Hi Hj. split; [|intros Hanc; pose proof (anc_range _ _ _ Hi Hanc _ Hj);
    pose proof (node_size_pos (in_node y)); lia].
  revert y Hj. induction j as [j IH] using lt_wf_ind. intros y Hj Hlt.
  destruct (decide (j = i)) as [->|]; [constructor|].
  destruct (wf_inside _ Hwf _ _ _ _ Hi Hj) as (p & Hp & Hle); [lia|].
  destruct (parent_child _ _ _ Hj Hp) as (z & k & Hz & _).
  apply (anc_step _ _ _ p y); [done|done|]. apply (IH p ltac:(lia) z Hz). lia.
Qed.
End index_facts.

(** ** The children-first numbering *)
Definition postorder : GpuNode -> list GpuNode := fold_node (fun node kids => concat kids ++ [node]).

Lemma postorder_eq node : postorder node = concat (map postorder (children node)) ++ [node].
Proof. unfold postorder at 1. by rewrite fold_node_eq. Qed.

Lemma length_postorder_children cs :
  (forall c, c ∈ cs -> length (postorder c) = node_size c) ->
  length (concat (map postorder cs)) = sum_list_with node_size cs.
Proof.
  induction cs as [|c cs IH]; intros Hc; cbn; [done|].
  rewrite length_app, Hc, IH by set_solver. done.
Qed.

Lemma length_postorder node : length (postorder node) = node_size node.
Proof.
  induction node as [node IH] using node_ind_children.
  rewrite postorder_eq, length_app, length_postorder_children, node_size_children by done. cbn. lia.
Qed.

Definition post_ok (L : list (IndexedNode * nat)) (post : nat) (order : list GpuNode) : Prop :=
  map (fun e => post_order (fst e)) L ≡ₚ seq post (length order)
  /\ forall e, e ∈ L -> post <= post_order (fst e)
       /\ order !! (post_order (fst e) - post) = Some (in_node (fst e)).

Lemma post_ok_app L1 L2 post o1 o2 :
  post_ok L1 post o1 -> post_ok L2 (post + length o1) o2 -> post_ok (L1 ++ L2) post (o1 ++ o2).
Proof.
  intros [Hp1 H1] [Hp2 H2]. split.
  - by rewrite map_app, length_app, seq_app, Hp1, Hp2.
  - intros e [He|He]%elem_of_app.
    + destruct (H1 e He) as [? Hl]. split; [done|].
      rewrite lookup_app_l; [done|]. by eapply lookup_lt_Some.
    + destruct (H2 e He) as [? Hl]. split; [lia|]. rewrite lookup_app_r by lia.
      rewrite <- Hl. f_equal. lia.
Qed.

Lemma flatten_children_post cs base height parent post :
  (forall c, c ∈ cs -> forall base height parent post,
     post_ok (flatten c base height parent post) post (postorder c)) ->
  post_ok (flatten_children cs (map flatten cs) base height parent post) post
    (concat (map postorder cs)).
Proof.
  revert base post. induction cs as [|c cs IH]; intros base post Hc; cbn.
  - split; [done|]. by intros e ?%not_elem_of_nil.
  - apply post_ok_app; [apply Hc; set_solver|]. rewrite length_postorder. apply IH. set_solver.
Qed.

Lemma flatten_post node base height parent post :
  post_ok (flatten node base height parent post) post (postorder node).
Proof.
  revert base height parent post. induction node as [node IH] using node_ind_children. intros.
  rewrite flatten_eq, postorder_eq.
  pose proof (flatten_children_post (children node) (S base) (S height) (Some base) post IH) as [Hp He].
  rewrite length_postorder_children in Hp by (intros; apply length_postorder).
  split.
  - cbn. rewrite Hp, length_app, length_postorder_children by (intros; apply length_postorder).
    cbn. rewrite seq_app. cbn. by rewrite Permutation_app_comm.
  - intros e [->|Hin]%elem_of_cons; cbn.
    + split; [lia|]. rewrite lookup_app_r;
        rewrite length_postorder_children by (intros; apply length_postorder); [|lia].
      by rewrite Nat.add_sub_swap, !Nat.sub_diag by lia.
    + destruct (He e Hin) as [? Hl]. split; [done|]. rewrite lookup_app_l; [done|].
      by eapply lookup_lt_Some.
Qed.

(** A two-lane join plan, for the concrete instances. *)
Definition demo_schema : Schema :=
  schema_new [{| field_name := "k"; data_type := Int64; nullable := false |}].
Definition demo_layout (lanes_ : nat) (b : BatchLayout) : PartitionLayout :=
  {| n := lanes_; key_distribution := KeysNotSpecified; sort_order := OrderNotSpecified;
     batch_layout := b |}.
Definition demo_load (lanes_ : nat) : GpuNode :=
  GpuLoadParquet (SourceKind (demo_layout lanes_ MultipleBatches) demo_schema) "t" "t.parquet" [0]
    (repeat [[0]] lanes_) [{| rg_index := 0; rg_rows := 4; rg_bytes := 32 |}] [false].
Definition demo_coalesce (input : GpuNode) (lanes_ : nat) : GpuNode :=
  GpuCoalesceAllBatches (Intermediate (demo_layout lanes_ SingleBatch) demo_schema) input.
Definition demo_join_plan : GpuNode :=
  GpuUnload Sink None
    (GpuHashJoin (Intermediate (demo_layout 2 MultipleBatches) demo_schema) Inner [(0, 0)] None []
       false (Some [0]) (demo_coalesce (demo_load 2) 2) (demo_load 2)).

Lemma demo_sinks : sinks_have_input demo_join_plan.
Proof. repeat split; try discriminate; repeat constructor; discriminate. Defined.

(** ** Theorems *)

(** C40: the index the driver walks is well formed: pre-order numbers, every child after its parent
    and one level higher, each node reached from exactly the parent that lists it, every subtree a
    contiguous range inside its parent's, and each node's lanes, category and readiness units
    those its kind declares. *)
Theorem plan_index_well_formed (root : GpuNode) (Hsinks : sinks_have_input root) :
  wf_index (build root).
Proof. exact (build_wf root Hsinks). Qed.

Lemma plan_index_well_formed_witness :
  wf_index (build demo_join_plan)
  /\ heights (shape (build demo_join_plan)) = [0; 1; 2; 3; 2]
  /\ subtree (shape (build demo_join_plan)) = [(0, 5); (1, 5); (2, 4); (3, 4); (4, 5)].
Proof.
  split; [apply plan_index_well_formed; exact demo_sinks|]. split; vm_compute; reflexivity.
Defined.

(** the range the index gives a node is exactly its subtree: a node is in it when the range's
    owner is on its path to the root, which is what lets a hold be two loop bounds. *)
Theorem subtree_range_is_the_subtree (root : GpuNode) (Hsinks : sinks_have_input root) (i j : nat)
    (Hi : i < index_len (build root)) (Hj : j < index_len (build root)) :
  exists range, subtree (shape (build root)) !! i = Some range
    /\ (range.1 <= j < range.2 <-> anc (build root) i j).
Proof.
  destruct (lookup_lt_is_Some_2 _ _ Hi) as [x Hx]. destruct (lookup_lt_is_Some_2 _ _ Hj) as [y Hy].
  pose proof (build_wf root Hsinks) as Hwf.
  exists (i, i + node_size (in_node x)). split; [by apply (wf_subtree _ Hwf)|].
  by apply range_anc with (y := y).
Qed.

Lemma subtree_range_is_the_subtree_witness :
  exists range, subtree (shape (build demo_join_plan)) !! 2 = Some range
    /\ (range.1 <= 3 < range.2 <-> anc (build demo_join_plan) 2 3).
Proof. apply subtree_range_is_the_subtree; [exact demo_sinks|vm_compute; lia..]. Defined.

(** the children-first positions are a numbering of the whole tree, and the position a node is
    given is the one a post-order traversal gives it, which is the address recipes are kept by. *)
Theorem post_order_is_children_first (root : GpuNode) (Hsinks : sinks_have_input root) :
  map post_order (nodes (build root)) ≡ₚ seq 0 (index_len (build root))
  /\ forall i x, nodes (build root) !! i = Some x -> postorder root !! post_order x = Some (in_node x).
Proof.
  destruct (flatten_post root 0 0 None 0) as [Hp He]. split.
  - rewrite length_postorder in Hp. unfold index_len. rewrite length_build by done.
    unfold flat. rewrite length_flatten, <- Hp, build_eq by done. cbn [nodes].
    apply reflexive_eq, list_eq. intros i.
    rewrite !list_lookup_fmap, list_lookup_imap, !list_lookup_fmap. unfold flat.
    by destruct (_ !! i).
  - intros i x Hx. destruct (in_children_build _ _ _ Hsinks Hx)
      as (y & h & Hy & -> & _ & _ & _ & _ & _ & _ & _ & ->).
    destruct (He (y, h)) as [_ Hl]; [by eapply list_elem_of_lookup_2|]. by rewrite Nat.sub_0_r in Hl.
Qed.

Lemma post_order_is_children_first_witness :
  map post_order (nodes (build demo_join_plan)) = [4; 3; 1; 0; 2]
  /\ (map post_order (nodes (build demo_join_plan)) ≡ₚ seq 0 (index_len (build demo_join_plan))
      /\ forall i x, nodes (build demo_join_plan) !! i = Some x ->
           postorder demo_join_plan !! post_order x = Some (in_node x)).
Proof. split; [vm_compute; reflexivity|]. apply post_order_is_children_first. exact demo_sinks. Defined.
