(* ===== verification/Executor.v ===== *)
(** * The executor contracts

    [executor/mod.rs]: what a call answers with, the errors of a run, and the [Backend] interface
    the driver is generic over, one executor type per node category.

    A backend's calls may change state the driver never sees (the device session behind the
    context), so every call takes and returns a [World].  An executor a method borrows mutably is
    returned beside the answer, on failure too; one a method consumes is not returned.  What
    dropping a batch does on the device is modelled where a GPU executor drops one (Gpu.v), not where
    the driver does. *)
From stdpp Require Import strings.
From S2P Require Import Prelude Interval PlanIR.
Open Scope N_scope.

(** ** What a call answers with *)
Record BackendError := { message : string }.

Inductive ProjectRole := Finalize.
#[export] Instance ProjectRole_eq_dec : EqDecision ProjectRole.
Proof. solve_decision. Defined.

Inductive FbKind :=
| KScan | KFilter | KProject (role : ProjectRole) | KPlainProject | KAggregate (merge : bool) | KSort
| KSortPreservingMerge | KCoalescePartitions | KRepartition (lanes : nat) | KJoin.
#[export] Instance FbKind_eq_dec : EqDecision FbKind.
Proof. solve_decision. Defined.

Inductive AbiSymbol :=
| ExecuteNode | ExecuteScanRowGroups | SliceHandle | ResultFromHandle | JoinBuild | JoinProbe | JoinFinish.
#[export] Instance AbiSymbol_eq_dec : EqDecision AbiSymbol.
Proof. solve_decision. Defined.

Inductive AbiTarget := TNode (k : FbKind) | TBare (s : AbiSymbol).

Record AbiCall :=
  { call_seq : nat; target : AbiTarget; call_index : N; in_rows : N; in_bytes : N; out_rows : N;
    out_bytes : N }.

(** [None]: nobody was measuring. *)
Definition AbiCalls := option (list AbiCall).

Definition armed (measuring : bool) : AbiCalls := if measuring then Some [] else None.
Definition abi_record (calls : AbiCalls) (call : AbiCall) : AbiCalls :=
  match calls with Some made => Some (made ++ [call]) | None => None end.

Record CallStats := { scratch : option N; calls : AbiCalls }.
Definition default_stats : CallStats := {| scratch := None; calls := None |}.

Definition CallResult (T : Type) := result BackendError (T * CallStats).

(** ** Errors, records and the trace *)
Inductive When := PreCall | PostCall.
#[export] Instance When_eq_dec : EqDecision When.
Proof. solve_decision. Defined.

Inductive RunError :=
| BudgetExceeded (when : When) (what : string)
| Protocol (what : string)
| CallFailed (what : string)
| BackendErr (inner : PlanError).

Inductive CallKind :=
| KNextBatch | KSourceExhausted | KExec | KUnload | KUnloadRange | KReleaseUnwanted | KAccumulate
| KMarkDone | KSetBuild | KProbe | KFinish | KEndOfInput | KEmit | KEmitDone | KLaneEvent
| KLaneDone | KForward | KForwardDone.
#[export] Instance CallKind_eq_dec : EqDecision CallKind.
Proof. solve_decision. Defined.

Record TraceEvent :=
  { t_step : nat; t_node : nat; t_lane : nat; t_call : CallKind; t_outputs : nat }.

Record Underestimate := { u_node : nat; u_lane : nat; modelled : N; measured : N }.

Record EmittedBatch := { e_rows : N; e_bytes : N }.

(** ** Forwarders *)
Inductive Forwarder :=
| FMergePartitions (n : nat)
| FUnion (lanes : list (nat * nat))
| FInterleave (children n : nat).

(** ** The interface *)
Class Executor (E : Type) := {
  resident_bytes : E -> N;
  scratch_bytes : E -> N -> N -> N }.

Class BatchLike (B : Type) := { num_rows : B -> N; byte_size : B -> N }.

Inductive LaneEvent (B : Type) := LaneBatch (batch : B) | LaneDone.
Arguments LaneBatch {B} batch.
Arguments LaneDone {B}.

Inductive SourceStep (B S : Type) :=
| StepBatch (batch : B) (stats : CallStats) (source : S)
| Exhausted.
Arguments StepBatch {B S} batch stats source.
Arguments Exhausted {B S}.

Inductive NodeExecutors (Source Exec BatchAcc PartAcc Emitter Join Unload : Type) :=
| ESource (source : Source)
| EExec (exec : Exec)
| EBatchAccumulator (acc : BatchAcc)
| EPartitionAccumulator (acc : PartAcc)
| EPartitionEmitter (emitter : Emitter)
| EJoin (join : Join)
| EUnload (unload : Unload)
| EBatchForwarder (forwarder : Forwarder).
Arguments ESource {_ _ _ _ _ _ _}.
Arguments EExec {_ _ _ _ _ _ _}.
Arguments EBatchAccumulator {_ _ _ _ _ _ _}.
Arguments EPartitionAccumulator {_ _ _ _ _ _ _}.
Arguments EPartitionEmitter {_ _ _ _ _ _ _}.
Arguments EJoin {_ _ _ _ _ _ _}.
Arguments EUnload {_ _ _ _ _ _ _}.
Arguments EBatchForwarder {_ _ _ _ _ _ _}.

Definition executors_category {A B C D E F G} (e : NodeExecutors A B C D E F G) :
    ExecutorCategory :=
  match e with
  | ESource _ => CSource
  | EExec _ => CExec
  | EBatchAccumulator _ => CBatchAccumulator
  | EPartitionAccumulator _ => CPartitionAccumulator
  | EPartitionEmitter _ => CPartitionEmitter
  | EJoin _ => CJoin
  | EUnload _ => CUnload
  | EBatchForwarder _ => CBatchForwarder
  end.

Class Backend := {
  World : Type;
  Batch : Type; #[global] Batch_like :: BatchLike Batch;
  CpuBatch : Type; #[global] CpuBatch_like :: BatchLike CpuBatch;
  (** [RecordBatch::new_empty] of a declared list of columns *)
  new_empty_batch : list Field -> CpuBatch;
  Source : Type; #[global] Source_executor :: Executor Source;
  Exec : Type; #[global] Exec_executor :: Executor Exec;
  BatchAcc : Type; #[global] BatchAcc_executor :: Executor BatchAcc;
  PartAcc : Type; #[global] PartAcc_executor :: Executor PartAcc;
  Emitter : Type; #[global] Emitter_executor :: Executor Emitter;
  Join : Type; #[global] Join_executor :: Executor Join;
  Probing : Type; #[global] Probing_executor :: Executor Probing;
  Unload : Type; #[global] Unload_executor :: Executor Unload;
  next_batch : World -> Source -> World * result BackendError (SourceStep Batch Source);
  exec : World -> Exec -> Batch -> World * Exec * CallResult Batch;
  accumulate_and_fetch : World -> BatchAcc -> Batch -> World * BatchAcc * CallResult (list Batch);
  mark_done_and_fetch : World -> BatchAcc -> World * CallResult (list Batch);
  lane_event : World -> PartAcc -> nat -> LaneEvent Batch ->
    World * PartAcc * CallResult (list Batch);
  emit : World -> Emitter -> Batch -> World * Emitter * CallResult (list Batch);
  set_build : World -> Join -> option Batch -> World * CallResult Probing;
  probe_and_fetch : World -> Probing -> Batch -> World * Probing * CallResult (option Batch);
  finish_and_fetch : World -> Probing -> World * CallResult (option Batch);
  owes_nothing : Probing -> bool;
  unload_batch : World -> Unload -> Batch -> RowRange -> World * Unload * CallResult CpuBatch;
  executors_for : World -> GpuNode -> nat -> nat ->
    World * result PlanError (NodeExecutors Source Exec BatchAcc PartAcc Emitter Join Unload) }.

(** A batch and the figure it was accounted at. *)
Record Held (T : Type) := { batch : T; bytes : N }.
Arguments batch {T}.
Arguments bytes {T}.

Definition held_of {T} `{BatchLike T} (b : T) : Held T := {| batch := b; bytes := byte_size b |}.
Definition held_rows {T} `{BatchLike T} (h : Held T) : N := num_rows (batch h).
