(* ===== verification/Reference.v ===== *)
(** * A reference backend over one-column tables

    A concrete [Backend], for running the driver's definitions and for the witnesses of theorems
    that hold of every backend.  A row is a number, a batch a list of rows at eight bytes a row; it
    reads row groups as ranges of numbers, scatters by remainder, joins on equality and limits with
    [LimitStream].  It is an instance of the interface and no part of the program modelled. *)
From stdpp Require Import strings.
From S2P Require Import Prelude Interval PlanIR Executor.
Open Scope N_scope.

Definition RBatch := list N.
#[export] Instance RBatch_like : BatchLike RBatch :=
  { num_rows b := lenN b; byte_size b := 8 * lenN b }.

Inductive RAcc := RCoalesce (rows : option RBatch) | RLimit (st : LimitStream).
Record RPartAcc := { rp_held : RBatch; rp_live : nat; rp_any : bool }.
Record RJoin := { rj_type : JoinType }.
Record RProbing := { rq_type : JoinType; rq_build : RBatch }.

Definition no_scratch {E} (resident : E -> N) : Executor E :=
  {| resident_bytes := resident; scratch_bytes _ _ b := b |}.

Definition racc_bytes (a : RAcc) : N :=
  match a with RCoalesce (Some rows) => 8 * lenN rows | _ => 0 end.

Definition coalesced (rows : option RBatch) (b : RBatch) : option RBatch :=
  Some (default [] rows ++ b).

Definition racc_step (a : RAcc) (b : RBatch) : RAcc * list RBatch :=
  match a with
  | RCoalesce rows => (RCoalesce (coalesced rows b), [])
  | RLimit st => let '(st, out) := limit_accumulate_and_fetch st b in (RLimit st, out)
  end.

Definition racc_done (a : RAcc) : list RBatch :=
  match a with RCoalesce (Some rows) => [rows] | _ => [] end.

(** Row group [g] holds [rg_rows] rows, numbered from [100 * g]. *)
Definition group_rows (survivors : list RowGroupMeta) (g : nat) : RBatch :=
  match List.find (fun m => Nat.eqb (rg_index m) g) survivors with
  | Some m => map (fun k => 100 * N.of_nat g + N.of_nat k) (seq 0 (N.to_nat (rg_rows m)))
  | None => []
  end.

Definition rlanes (node : GpuNode) : nat :=
  match kind_layout (kind node) with Some l => n l | None => 1%nat end.

Definition scatter (lanes : nat) (b : RBatch) : list RBatch :=
  map (fun p => filter (fun r => r mod N.of_nat lanes = N.of_nat p) b) (seq 0 lanes).

Definition rprobe (p : RProbing) (b : RBatch) : RBatch := filter (fun r => r ∈ rq_build p) b.

Definition rexecutors (node : GpuNode) (lane : nat) :
    result PlanError (NodeExecutors (list RBatch) unit RAcc RPartAcc nat RJoin unit) :=
  match node with
  | GpuLoadParquet _ _ _ _ groups survivors _ =>
      Ok (ESource (map (fun gs => concat (map (group_rows survivors) gs))
                     (default [] (groups !! lane))))
  | GpuEmpty _ => Ok (ESource [])
  | GpuFilter _ _ _ _ | GpuProject _ _ _ | GpuSort _ _ _ _ => Ok (EExec tt)
  | GpuLimit _ iv _ => Ok (EBatchAccumulator (RLimit {| interval := iv; seen := 0 |}))
  | GpuCoalesceAllBatches _ _ | GpuAccumulateBatchesAndSort _ _ _ _ | GpuAggregate _ _ _ _
  | GpuAggregateBatches _ _ _ _ => Ok (EBatchAccumulator (RCoalesce None))
  | GpuHashJoin _ t _ _ _ _ _ _ _ | GpuNestedLoopJoin _ t _ _ _ _ _ => Ok (EJoin {| rj_type := t |})
  | GpuCrossJoin _ _ _ _ => Ok (EJoin {| rj_type := Inner |})
  | GpuMergePartitions _ i => Ok (EBatchForwarder (FMergePartitions (rlanes i)))
  | GpuUnion _ bs =>
      Ok (EBatchForwarder (FUnion (concat (imap (fun c b => map (pair c) (seq 0 (rlanes b))) bs))))
  | GpuInterleave k bs => Ok (EBatchForwarder (FInterleave (length bs) (rlanes node)))
  | GpuEmitPartitions _ _ _ => Ok (EPartitionEmitter (rlanes node))
  | GpuMergeSortedPartitions _ _ _ i =>
      Ok (EPartitionAccumulator {| rp_held := []; rp_live := rlanes i; rp_any := false |})
  | GpuUnload _ _ _ => Ok (EUnload tt)
  end.

Definition rlane_event (a : RPartAcc) (e : LaneEvent RBatch) : RPartAcc * list RBatch :=
  match e with
  | LaneBatch b => ({| rp_held := rp_held a ++ b; rp_live := rp_live a; rp_any := true |}, [])
  | LaneDone =>
      let live := pred (rp_live a) in
      ({| rp_held := rp_held a; rp_live := live; rp_any := rp_any a |},
       if (0 <? live)%nat then [] else if rp_any a then [rp_held a] else [])
  end.

#[export] Instance reference : Backend := {|
  World := unit;
  Batch := RBatch; Batch_like := RBatch_like; CpuBatch := RBatch; CpuBatch_like := RBatch_like;
  new_empty_batch _ := [];
  Source := list RBatch; Source_executor := no_scratch (fun _ => 0);
  Exec := unit; Exec_executor := no_scratch (fun _ => 0);
  BatchAcc := RAcc; BatchAcc_executor := no_scratch racc_bytes;
  PartAcc := RPartAcc; PartAcc_executor := no_scratch (fun a => 8 * lenN (rp_held a));
  Emitter := nat; Emitter_executor := no_scratch (fun _ => 0);
  Join := RJoin; Join_executor := no_scratch (fun _ => 0);
  Probing := RProbing; Probing_executor := no_scratch (fun p => 8 * lenN (rq_build p));
  Unload := unit; Unload_executor := no_scratch (fun _ => 0);
  next_batch _ s := (tt, Ok match s with [] => Exhausted | b :: s => StepBatch b default_stats s end);
  exec _ e b := (tt, e, Ok (b, default_stats));
  accumulate_and_fetch _ a b :=
    let '(a, out) := racc_step a b in (tt, a, Ok (out, default_stats));
  mark_done_and_fetch _ a := (tt, Ok (racc_done a, default_stats));
  lane_event _ a _ e := let '(a, out) := rlane_event a e in (tt, a, Ok (out, default_stats));
  emit _ lanes b := (tt, lanes, Ok (scatter lanes b, default_stats));
  set_build _ j b := (tt, Ok ({| rq_type := rj_type j; rq_build := default [] b |}, default_stats));
  probe_and_fetch _ p b := (tt, p, Ok (Some (rprobe p b), default_stats));
  finish_and_fetch _ p := (tt, Ok (None, default_stats));
  owes_nothing p := match rq_build p with [] => true | _ => false end;
  unload_batch _ u b r := (tt, u, Ok (Interval.unload b r, default_stats));
  executors_for _ node _ lane := (tt, rexecutors node lane) |}.
