(* ===== verification/Forwarder.v ===== *)
(** * Batch forwarding: the nodes that renumber lanes

    [executor/forwarder.rs].  [sources_of] lists the (child, lane) pairs feeding an output lane in
    service order; a panic (an output lane outside the routing) is [None]. *)
From S2P Require Import Prelude PlanIR Index Executor.
Open Scope nat_scope.

Definition sources_of (f : Forwarder) (out_lane : nat) : option (list (nat * nat)) :=
  match f with
  | FMergePartitions n =>
      if out_lane =? 0 then Some (map (fun lane => (0, lane)) (seq 0 n)) else None
  | FUnion lanes => match lanes !! out_lane with Some s => Some [s] | None => None end
  | FInterleave children n =>
      if out_lane <? n then Some (map (fun child => (child, out_lane)) (seq 0 children)) else None
  end.

Definition layout_lanes (node : GpuNode) : nat :=
  match kind_layout (kind node) with Some layout => n layout | None => 1 end.

(** [None] is [unreachable!]. *)
Definition forwarder_for (node : GpuNode) : option Forwarder :=
  match node with
  | GpuMergePartitions _ _ => Some (FMergePartitions (layout_lanes (children node !!! 0)))
  | GpuUnion _ _ =>
      Some (FUnion (concat (imap (fun child branch => map (pair child) (seq 0 (layout_lanes branch)))
                              (children node))))
  | GpuInterleave _ _ => Some (FInterleave (length (children node)) (layout_lanes node))
  | _ => None
  end.

(** ** The specification: every lane of every child feeds exactly one output lane *)

(** Every (child, lane) pair below a node. *)
Definition all_inputs (node : GpuNode) : list (nat * nat) :=
  concat (imap (fun child branch => map (pair child) (seq 0 (layout_lanes branch))) (children node)).

(** The lane count a routing node declares is the one its routing serves. *)
Definition routing_declared (node : GpuNode) : Prop :=
  match node with
  | GpuMergePartitions _ _ => layout_lanes node = 1
  | GpuUnion _ bs => layout_lanes node = sum_list (map layout_lanes bs)
  | GpuInterleave _ bs => Forall (fun b => layout_lanes b = layout_lanes node) bs
  | _ => False
  end.

Lemma length_concat_imap_seq (f : GpuNode -> nat) (bs : list GpuNode) (g : nat -> nat) :
  length (concat (imap (fun child b => map (pair (g child)) (seq 0 (f b))) bs)) = sum_list (map f bs).
Proof.
  revert g. induction bs as [|b bs IH]; intros g; cbn; [done|].
  rewrite length_app, length_map, length_seq. f_equal.
  rewrite <- (IH (fun c => g (S c))). done.
Qed.

Lemma mapM_union (l : list (nat * nat)) :
  mapM (fun p => sources_of (FUnion l) p) (seq 0 (length l)) = Some (map (fun s => [s]) l).
Proof.
  apply mapM_Some, Forall2_same_length_lookup. rewrite length_map, length_seq. split; [done|].
  intros i x y Hx Hy. apply lookup_seq in Hx as [-> Hi]. rewrite list_lookup_fmap in Hy.
  cbn. destruct (l !! i) as [s|]; cbn in Hy |- *; congruence.
Qed.

Lemma mapM_interleave c k :
  mapM (fun p => sources_of (FInterleave c k) p) (seq 0 k)
  = Some (map (fun p => map (fun child => (child, p)) (seq 0 c)) (seq 0 k)).
Proof.
  apply mapM_Some, Forall2_same_length_lookup. rewrite length_map. split; [done|].
  intros i x y Hx Hy. rewrite list_lookup_fmap, Hx in Hy. apply lookup_seq in Hx as [-> Hi].
  cbn in Hy. unfold sources_of. apply Nat.ltb_lt in Hi as Hb. rewrite Nat.add_0_l in *. rewrite Hb. congruence.
Qed.

(** The pairs of a grid by columns are the pairs by rows. *)
Lemma concat_map_cons {A C} (f : A -> C) (g : A -> list C) l :
  concat (map (fun p => f p :: g p) l) ≡ₚ map f l ++ concat (map g l).
Proof.
  induction l as [|x l IH]; cbn; [done|]. rewrite IH, !app_assoc.
  by rewrite (Permutation_app_comm (g x) (map f l)).
Qed.

Lemma grid_transpose (cs ps : list nat) :
  concat (map (fun p => map (fun c => (c, p)) cs) ps) ≡ₚ concat (map (fun c => map (pair c) ps) cs).
Proof.
  induction cs as [|c cs IH]; cbn.
  - induction ps; done.
  - by rewrite concat_map_cons, IH.
Qed.

Lemma imap_equal_lanes (bs : list GpuNode) k (g : nat -> nat) :
  Forall (fun b => layout_lanes b = k) bs ->
  imap (fun child b => map (pair (g child)) (seq 0 (layout_lanes b))) bs
  = map (fun c => map (pair (g c)) (seq 0 k)) (seq 0 (length bs)).
Proof.
  intros Hbs. revert g. induction Hbs as [|b bs Hb Hbs IH]; intros g; cbn; [done|].
  rewrite Hb. f_equal. rewrite <- seq_shift, map_map. exact (IH (fun c => g (S c))).
Qed.

Lemma concat_map_singleton {A} (l : list A) : concat (map (fun s => [s]) l) = l.
Proof. induction l as [|x l IH]; cbn; congruence. Qed.

(** ** Theorems *)

(** routing loses and repeats nothing: over a routing node's declared output lanes, the sources
    its forwarder names are together a rearrangement of every lane of every child, each once; a
    merge serves them in lane order, a union keeps each lane whole, and an interleave's lane [p] is
    lane [p] of each branch. *)
Theorem routing_is_a_bijection (node : GpuNode) (Hdecl : routing_declared node) :
  exists f sources, forwarder_for node = Some f
    /\ mapM (sources_of f) (seq 0 (layout_lanes node)) = Some sources
    /\ concat sources ≡ₚ all_inputs node
    /\ length sources = layout_lanes node.
Proof.
  destruct node as [| | | | | | | | | | | | |k i| | |k bs|k bs|]; try done; cbn [routing_declared] in Hdecl.
  - eexists _, _. split_and!; [reflexivity|rewrite Hdecl; reflexivity| |by rewrite Hdecl].
    unfold all_inputs. cbn. by rewrite !app_nil_r.
  - eexists _, _. split_and!; [reflexivity| | |].
    + rewrite Hdecl, <- (length_concat_imap_seq layout_lanes bs id). apply mapM_union.
    + by rewrite concat_map_singleton.
    + rewrite length_map, Hdecl. apply (length_concat_imap_seq layout_lanes bs id).
  - eexists _, _. split_and!; [reflexivity|apply mapM_interleave| |by rewrite length_map, length_seq].
    rewrite grid_transpose. unfold all_inputs. cbn [children].
    pose proof (imap_equal_lanes bs _ id Hdecl) as Himap. cbn [id] in Himap. by rewrite Himap.
Qed.

Definition demo_union : GpuNode :=
  GpuUnion (Intermediate (demo_layout 3 MultipleBatches) demo_schema) [demo_load 2; demo_load 1].

Lemma routing_is_a_bijection_witness :
  exists f sources, forwarder_for demo_union = Some f
    /\ mapM (sources_of f) (seq 0 (layout_lanes demo_union)) = Some sources
    /\ concat sources ≡ₚ all_inputs demo_union
    /\ length sources = layout_lanes demo_union.
Proof. apply routing_is_a_bijection. reflexivity. Defined.
