(* ===== verification/Accounting.v ===== *)
(** * The resident-memory accountant

    [executor/driver/accounting.rs].  [in_flight_bytes] is what the driver's queues hold and
    [executor_bytes] the sum of one cached figure per executor slot; the budget is checked before
    and after every call.

    Byte totals are unbounded [N]: a sum of sizes of memory that exists at once stays below the
    machine width.  [executor_bytes - cached] is [N] subtraction, and [acct_ok] is the invariant
    under which it never truncates. *)
From stdpp Require Import strings.
From S2P Require Import Prelude Interval PlanIR Executor.
Open Scope N_scope.

Record Slot := { slot_index : nat; slot_node : nat; slot_lane : nat }.
Record Trip := { trip_slot : Slot; trip_when : When; trip_bytes : N; trip_budget : N }.

Record ResidentAccountant :=
  { budget : option N; in_flight_bytes : N; executor_bytes : N; cached : list N; peak : N;
    acct_calls : nat; holds : nat; releases : nat; measured_calls : nat;
    underestimates : list Underestimate }.

Definition acct_new (slots : nat) (budget_ : option N) : ResidentAccountant :=
  {| budget := budget_; in_flight_bytes := 0; executor_bytes := 0; cached := replicate slots 0;
     peak := 0; acct_calls := 0; holds := 0; releases := 0; measured_calls := 0;
     underestimates := [] |}.

Definition resident (a : ResidentAccountant) : N := in_flight_bytes a + executor_bytes a.

Definition observe (a : ResidentAccountant) : ResidentAccountant :=
  {| budget := budget a; in_flight_bytes := in_flight_bytes a;
     executor_bytes := executor_bytes a; cached := cached a; peak := N.max (peak a) (resident a);
     acct_calls := acct_calls a; holds := holds a; releases := releases a;
     measured_calls := measured_calls a; underestimates := underestimates a |}.

Definition hold (a : ResidentAccountant) (bytes_ : N) : ResidentAccountant :=
  observe
    {| budget := budget a; in_flight_bytes := in_flight_bytes a + bytes_;
       executor_bytes := executor_bytes a; cached := cached a; peak := peak a;
       acct_calls := acct_calls a; holds := S (holds a); releases := releases a;
       measured_calls := measured_calls a; underestimates := underestimates a |}.

(** The count moves before the subtraction is checked. *)
Definition release (a : ResidentAccountant) (bytes_ : N) :
    result RunError () * ResidentAccountant :=
  let with_in_flight f :=
    {| budget := budget a; in_flight_bytes := f;
       executor_bytes := executor_bytes a; cached := cached a; peak := peak a;
       acct_calls := acct_calls a; holds := holds a; releases := S (releases a);
       measured_calls := measured_calls a; underestimates := underestimates a |} in
  match checked_sub (in_flight_bytes a) bytes_ with
  | Some rest => (Ok (), with_in_flight rest)
  | None => (Err (Protocol "a batch was released without having been held"),
             with_in_flight (in_flight_bytes a))
  end.

Definition check (a : ResidentAccountant) (value : N) (slot : Slot) (when : When) :
    result Trip () :=
  match budget a with
  | Some b => if b <? value
              then Err {| trip_slot := slot; trip_when := when; trip_bytes := value;
                          trip_budget := b |}
              else Ok ()
  | None => Ok ()
  end.

Definition begin_call {E} `{Executor E} (a : ResidentAccountant) (slot : Slot) (executor : E)
    (n_rows n_bytes : N) : result Trip N * ResidentAccountant :=
  let modelled := scratch_bytes executor n_rows n_bytes in
  match check a (resident a + modelled) slot PreCall with
  | Err t => (Err t, a)
  | Ok _ =>
      (Ok modelled,
       {| budget := budget a; in_flight_bytes := in_flight_bytes a;
          executor_bytes := executor_bytes a; cached := cached a; peak := peak a;
          acct_calls := S (acct_calls a); holds := holds a; releases := releases a;
          measured_calls := measured_calls a; underestimates := underestimates a |})
  end.

(** [refresh] to a figure; [forget] is the same store of zero. *)
Definition refresh (a : ResidentAccountant) (slot : Slot) (current : N) : ResidentAccountant :=
  {| budget := budget a; in_flight_bytes := in_flight_bytes a;
     executor_bytes := executor_bytes a + current - default 0 (cached a !! slot_index slot);
     cached := <[slot_index slot := current]> (cached a); peak := peak a;
     acct_calls := acct_calls a; holds := holds a; releases := releases a;
     measured_calls := measured_calls a; underestimates := underestimates a |}.

Definition forget (a : ResidentAccountant) (slot : Slot) : ResidentAccountant :=
  {| budget := budget a; in_flight_bytes := in_flight_bytes a;
     executor_bytes := executor_bytes a - default 0 (cached a !! slot_index slot);
     cached := <[slot_index slot := 0]> (cached a); peak := peak a;
     acct_calls := acct_calls a; holds := holds a; releases := releases a;
     measured_calls := measured_calls a; underestimates := underestimates a |}.

Definition note_measured (a : ResidentAccountant) (slot : Slot) (stats : CallStats)
    (modelled_ : N) : ResidentAccountant :=
  match scratch stats with
  | None => a
  | Some measured_ =>
      {| budget := budget a; in_flight_bytes := in_flight_bytes a;
         executor_bytes := executor_bytes a; cached := cached a; peak := peak a;
         acct_calls := acct_calls a; holds := holds a; releases := releases a;
         measured_calls := S (measured_calls a);
         underestimates :=
           if modelled_ <? measured_
           then underestimates a ++ [{| u_node := slot_node slot; u_lane := slot_lane slot;
                                        modelled := modelled_; measured := measured_ |}]
           else underestimates a |}
  end.

(** [ResidentAccountant::end]. *)
Definition end_ (a : ResidentAccountant) (slot : Slot) (residency : option N) (stats : CallStats)
    (modelled_ : N) : result Trip () * ResidentAccountant :=
  let a := match residency with Some current => refresh a slot current | None => forget a slot end in
  let a := observe (note_measured a slot stats modelled_) in
  (check a (resident a) slot PostCall, a).

Definition end_call {E} `{Executor E} (a : ResidentAccountant) (slot : Slot) (executor : E)
    (stats : CallStats) (modelled_ : N) : result Trip () * ResidentAccountant :=
  end_ a slot (Some (resident_bytes executor)) stats modelled_.

Definition end_consuming_call (a : ResidentAccountant) (slot : Slot) (stats : CallStats)
    (modelled_ : N) : result Trip () * ResidentAccountant :=
  end_ a slot None stats modelled_.

(** ** The invariant *)

(** The cached sum is the sum of the cache, and the peak has seen the present. *)
Record acct_ok (slots : nat) (a : ResidentAccountant) : Prop := {
  ok_slots : length (cached a) = slots;
  ok_executors : executor_bytes a = sumN (cached a);
  ok_peak : resident a <= peak a }.

Lemma sumN_lookup_le l i x : l !! i = Some x -> x <= sumN l.
Proof. intros Hl. pose proof (sumN_insert _ _ _ 0 Hl). lia. Qed.

Lemma acct_new_ok slots b : acct_ok slots (acct_new slots b).
Proof.
  split; cbn; [by rewrite length_replicate| |done].
  induction slots as [|k IH]; [done|]. cbn [replicate]. rewrite sumN_cons. lia.
Qed.

Lemma observe_peak a : resident (observe a) <= peak (observe a).
Proof. change (resident a <= N.max (peak a) (resident a)). lia. Qed.

Lemma hold_ok slots a b : acct_ok slots a -> acct_ok slots (hold a b).
Proof. intros [H1 H2 H3]. split; cbn; [done|done|]. apply observe_peak. Qed.

Lemma release_ok slots a b : acct_ok slots a -> acct_ok slots (release a b).2.
Proof.
  intros [H1 H2 H3]. unfold release. destruct (checked_sub _ _) as [rest|] eqn:Hs;
    split; try done. unfold resident in *; cbn in *. apply checked_sub_Some in Hs. lia.
Qed.

Lemma refresh_sum slots a s v :
  acct_ok slots a -> (slot_index s < slots)%nat -> executor_bytes (refresh a s v) = sumN (cached (refresh a s v)).
Proof.
  intros [H1 H2 H3] Hs. cbn. rewrite H2.
  destruct (lookup_lt_is_Some_2 (cached a) (slot_index s)) as [x Hl]; [lia|]. rewrite Hl. cbn.
  pose proof (sumN_insert _ _ _ v Hl). pose proof (sumN_lookup_le _ _ _ Hl). lia.
Qed.

Lemma forget_ok slots a s : acct_ok slots a -> (slot_index s < slots)%nat -> acct_ok slots (forget a s).
Proof.
  intros Hok Hs. pose proof (refresh_sum _ a s 0 Hok Hs) as Hsum. destruct Hok as [H1 H2 H3]. split.
  - cbn. by rewrite length_insert.
  - cbn in Hsum |- *. lia.
  - unfold resident in *. cbn. lia.
Qed.

Lemma end_ok slots a s r st m :
  acct_ok slots a -> (slot_index s < slots)%nat -> acct_ok slots (end_ a s r st m).2.
Proof.
  intros Hok Hs. unfold end_. cbn [snd].
  set (a1 := match r with Some c => refresh a s c | None => forget a s end).
  assert (length (cached a1) = slots /\ executor_bytes a1 = sumN (cached a1)) as [Hl He].
  { subst a1. destruct r as [c|].
    - split; [cbn; rewrite length_insert; apply Hok|]. by apply (refresh_sum slots).
    - destruct (forget_ok _ _ _ Hok Hs). done. }
  split; [| |apply observe_peak]; unfold note_measured; destruct (scratch st); done.
Qed.

Lemma begin_ok slots {E} `{Executor E} a s (e : E) r b :
  acct_ok slots a -> acct_ok slots (begin_call a s e r b).2.
Proof. intros Hok. unfold begin_call. case_match; [|done]. destruct Hok. by split. Qed.

(** What a budget check says. *)
Lemma check_ok_iff a v s w :
  is_ok (check a v s w) = true <-> match budget a with Some b => v <= b | None => True end.
Proof. unfold check. destruct (budget a); [|done]. split_cmp; cbn; split; done || lia. Qed.

(** ** Sequences of accountant operations *)
Inductive AcctOp :=
| OpHold (b : N) | OpRelease (b : N) | OpForget (s : Slot)
| OpBegin (s : Slot) (scratch : N) | OpEnd (s : Slot) (residency : option N) (st : CallStats) (m : N).

Definition op_slot_ok (slots : nat) (op : AcctOp) : Prop :=
  match op with
  | OpForget s | OpEnd s _ _ _ => (slot_index s < slots)%nat
  | _ => True
  end.

(** An executor whose model is one figure. *)
Record FixedExecutor := { fixed_resident : N; fixed_scratch : N }.
#[export] Instance FixedExecutor_executor : Executor FixedExecutor :=
  { resident_bytes := fixed_resident; scratch_bytes e _ _ := fixed_scratch e }.

Definition run_op (a : ResidentAccountant) (op : AcctOp) : ResidentAccountant :=
  match op with
  | OpHold b => hold a b
  | OpRelease b => (release a b).2
  | OpForget s => forget a s
  | OpBegin s m => (begin_call a s {| fixed_resident := 0; fixed_scratch := m |} 0 0).2
  | OpEnd s r st m => (end_ a s r st m).2
  end.

(** The residents an accountant passes through. *)
Fixpoint residents (a : ResidentAccountant) (ops : list AcctOp) : list N :=
  resident a :: match ops with [] => [] | op :: ops => residents (run_op a op) ops end.

Definition maxN (l : list N) : N := foldr N.max 0 l.

Lemma run_op_ok slots a op : acct_ok slots a -> op_slot_ok slots op -> acct_ok slots (run_op a op).
Proof.
  intros Hok Hs.
  destruct op; [apply hold_ok|apply release_ok|apply forget_ok|apply begin_ok|apply end_ok]; done.
Qed.

Lemma peak_note_measured a s st m : peak (note_measured a s st m) = peak a.
Proof. unfold note_measured. by destruct (scratch st). Qed.

(** No operation raises the peak past the resident total it leaves. *)
Lemma run_op_peak slots a op :
  acct_ok slots a -> op_slot_ok slots op -> peak (run_op a op) = N.max (peak a) (resident (run_op a op)).
Proof.
  intros Hok Hs. pose proof (run_op_ok _ _ _ Hok Hs) as Hok'. apply ok_peak in Hok'.
  destruct op; cbn [run_op] in *.
  - cbn. unfold resident; cbn. lia.
  - unfold release in *. destruct (checked_sub _ _); cbn in *; lia.
  - cbn in *. lia.
  - unfold begin_call in *. case_match; cbn in *; lia.
  - unfold end_ in *. cbn [snd] in *. cbn [peak observe] in *.
    rewrite peak_note_measured. by destruct residency.
Qed.

(** ** Theorems *)

(** the accountant's total is what it says it is: after any sequence of holds, releases, calls
    and ends, whatever they answered, the executor half equals the sum of the per-slot figures last
    reported, and the peak is exactly the largest resident total the run passed through. *)
Theorem accountant_totals_exact (slots : nat) (b : option N) (ops : list AcctOp)
    (Hops : Forall (op_slot_ok slots) ops) :
  let a := foldl run_op (acct_new slots b) ops in
  executor_bytes a = sumN (cached a) /\ length (cached a) = slots
  /\ peak a = maxN (residents (acct_new slots b) ops).
Proof.
  cbn zeta. assert (peak (acct_new slots b) = 0) as Hpeak by done.
  assert (forall l, N.max (peak (acct_new slots b)) (maxN l) = maxN l) as <-
    by (intros; rewrite Hpeak; lia).
  clear Hpeak. generalize (acct_new_ok slots b). generalize (acct_new slots b) as a.
  induction Hops as [|op ops Hop Hops IH]; intros a Hok; cbn [foldl residents maxN foldr].
  - destruct Hok. split_and!; [done|done|lia].
  - destruct (IH (run_op a op)) as (He & Hl & Hp); [by apply run_op_ok|].
    split_and!; [done|done|]. rewrite Hp, (run_op_peak slots) by done.
    pose proof (ok_peak _ _ Hok). unfold maxN in *.
    assert (resident (run_op a op) <= foldr N.max 0 (residents (run_op a op) ops))
      by (destruct ops; cbn; lia). lia.
Qed.

Lemma accountant_totals_exact_witness :
  let ops := [OpHold 10; OpEnd {| slot_index := 1; slot_node := 0; slot_lane := 1 |} (Some 7)
                default_stats 0; OpRelease 10;
              OpForget {| slot_index := 1; slot_node := 0; slot_lane := 1 |}] in
  let a := foldl run_op (acct_new 2 None) ops in
  (peak a = 17 /\ resident a = 0)
  /\ (executor_bytes a = sumN (cached a) /\ length (cached a) = 2%nat
      /\ peak a = maxN (residents (acct_new 2 None) ops)).
Proof.
  split; [split; vm_compute; reflexivity|]. apply accountant_totals_exact.
  repeat constructor.
Defined.

(** the budget is enforced at both ends of a call and nowhere else: a pre-check passes exactly
    when the resident total and the modelled scratch together fit, a refused call is not counted
    and changes nothing, and a post-check passes exactly when the total it leaves fits. *)
Theorem budget_checks_exact {E} `{Executor E} (a : ResidentAccountant) (s : Slot) (e : E)
    (r b m : N) (res : option N) (st : CallStats) :
  let fits v := match budget a with Some limit => v <= limit | None => True end in
  (is_ok (begin_call a s e r b).1 = true <-> fits (resident a + scratch_bytes e r b))
  /\ (is_ok (begin_call a s e r b).1 = false -> (begin_call a s e r b).2 = a)
  /\ resident (begin_call a s e r b).2 = resident a
  /\ (is_ok (end_ a s res st m).1 = true <-> fits (resident (end_ a s res st m).2)).
Proof.
  cbn zeta. unfold begin_call. split_and!.
  - rewrite <- (check_ok_iff a (resident a + scratch_bytes e r b) s PreCall).
    by destruct (check _ _ _ _).
  - by destruct (check _ _ _ _).
  - by destruct (check _ _ _ _).
  - unfold end_. cbn [fst snd]. rewrite check_ok_iff. unfold note_measured.
    by destruct (scratch st), res.
Qed.
