(* ===== verification/Scheduler.v ===== *)
(** * The schedule: smallest height among the runnable, ties leftmost

    [executor/driver/scheduler.rs].  The scheduler keeps its answer incrementally: per-node counts
    of ready lanes, two hold counters, and one bit per node at its rank in (height, index) order.

    The specification is the predicate the counters replace: a node is runnable when one of its
    lanes is ready, no join whose probe subtree holds it is still building, and no satisfied limit
    holds it; the pick is the first runnable node in (height, index) order.  [sched_ok] ties the
    two together.

    A panic of the source ([assert!], [expect]) is [None]. *)
From stdpp Require Import sorting.
From S2P Require Import Prelude PlanIR Index.
Open Scope nat_scope.

Record Scheduler :=
  { node_of_rank : list nat; rank_of_node : list nat; words : list N;
    s_ready_lanes : list nat; lane_ready : list bool; lane_base : list nat;
    lane_count : list nat; build_holds : list nat; limit_holds : list nat;
    building : list nat; s_joins : list JoinShape; satisfied : list bool;
    s_subtree : list (nat * nat) }.

(** ** Bits *)
Fixpoint trailing_zeros_pos (p : positive) : nat :=
  match p with xO p => S (trailing_zeros_pos p) | _ => 0 end.
Definition trailing_zeros (w : N) : nat :=
  match w with N0 => 64 | Npos p => trailing_zeros_pos p end.

Definition bit_of (rank : nat) : N := N.shiftl 1 (N.of_nat (rank mod 64)).

(** ** Operations *)
Definition is_held (s : Scheduler) (node : nat) : bool :=
  (0 <? build_holds s !!! node) || (0 <? limit_holds s !!! node).

Definition runnable (s : Scheduler) (node : nat) : bool :=
  (0 <? s_ready_lanes s !!! node) && negb (is_held s node).

Definition set_words (s : Scheduler) (w : list N) : Scheduler :=
  {| node_of_rank := node_of_rank s; rank_of_node := rank_of_node s; words := w;
     s_ready_lanes := s_ready_lanes s; lane_ready := lane_ready s; lane_base := lane_base s;
     lane_count := lane_count s; build_holds := build_holds s; limit_holds := limit_holds s;
     building := building s; s_joins := s_joins s; satisfied := satisfied s;
     s_subtree := s_subtree s |}.

Definition sched_refresh (s : Scheduler) (node : nat) : Scheduler :=
  let rank := rank_of_node s !!! node in
  set_words s
    (alter (fun word => if runnable s node then N.lor word (bit_of rank)
                        else N.ldiff word (bit_of rank)) (rank / 64) (words s)).

Definition set_ready_lanes (s : Scheduler) (flags : list bool) (counts : list nat) : Scheduler :=
  {| node_of_rank := node_of_rank s; rank_of_node := rank_of_node s; words := words s;
     s_ready_lanes := counts; lane_ready := flags; lane_base := lane_base s;
     lane_count := lane_count s; build_holds := build_holds s; limit_holds := limit_holds s;
     building := building s; s_joins := s_joins s; satisfied := satisfied s;
     s_subtree := s_subtree s |}.

Definition set_build_holds (s : Scheduler) (h : list nat) : Scheduler :=
  {| node_of_rank := node_of_rank s; rank_of_node := rank_of_node s; words := words s;
     s_ready_lanes := s_ready_lanes s; lane_ready := lane_ready s; lane_base := lane_base s;
     lane_count := lane_count s; build_holds := h; limit_holds := limit_holds s;
     building := building s; s_joins := s_joins s; satisfied := satisfied s;
     s_subtree := s_subtree s |}.

Definition set_limit_holds (s : Scheduler) (h : list nat) : Scheduler :=
  {| node_of_rank := node_of_rank s; rank_of_node := rank_of_node s; words := words s;
     s_ready_lanes := s_ready_lanes s; lane_ready := lane_ready s; lane_base := lane_base s;
     lane_count := lane_count s; build_holds := build_holds s; limit_holds := h;
     building := building s; s_joins := s_joins s; satisfied := satisfied s;
     s_subtree := s_subtree s |}.

Definition set_building (s : Scheduler) (b : list nat) : Scheduler :=
  {| node_of_rank := node_of_rank s; rank_of_node := rank_of_node s; words := words s;
     s_ready_lanes := s_ready_lanes s; lane_ready := lane_ready s; lane_base := lane_base s;
     lane_count := lane_count s; build_holds := build_holds s; limit_holds := limit_holds s;
     building := b; s_joins := s_joins s; satisfied := satisfied s; s_subtree := s_subtree s |}.

Definition set_satisfied (s : Scheduler) (b : list bool) : Scheduler :=
  {| node_of_rank := node_of_rank s; rank_of_node := rank_of_node s; words := words s;
     s_ready_lanes := s_ready_lanes s; lane_ready := lane_ready s; lane_base := lane_base s;
     lane_count := lane_count s; build_holds := build_holds s; limit_holds := limit_holds s;
     building := building s; s_joins := s_joins s; satisfied := b; s_subtree := s_subtree s |}.

(** [lane_base]: where each node's flags start, and how many flags there are. *)
Fixpoint lane_bases (lanes : list nat) (total : nat) : list nat * nat :=
  match lanes with
  | [] => ([], total)
  | k :: ks => let '(bs, t) := lane_bases ks (total + k) in (total :: bs, t)
  end.

(** The order of the picks: by height, then by index. *)
Definition rank_le (heights : list nat) (a b : nat) : Prop :=
  heights !!! a < heights !!! b \/ (heights !!! a = heights !!! b /\ a <= b).

#[export] Instance rank_le_dec heights a b : Decision (rank_le heights a b).
Proof. unfold rank_le. apply _. Defined.

(** [for node in range { holds[node] += 1 }]. *)
Definition bump_range (range : nat * nat) (holds : list nat) : list nat :=
  foldl (fun h node => alter S node h) holds (seq range.1 (range.2 - range.1)).

Definition sched_new (sh : PlanShape) : Scheduler :=
  let n := node_count sh in
  let order := merge_sort (rank_le (heights sh)) (seq 0 n) in
  let ranks := foldl (fun r '(rank, node) => <[node := rank]> r) (replicate n 0)
                 (imap pair order) in
  let '(bases, total) := lane_bases (shape_lanes sh) 0 in
  {| node_of_rank := order; rank_of_node := ranks; words := replicate ((n + 63) / 64) 0%N;
     s_ready_lanes := replicate n 0; lane_ready := replicate total false; lane_base := bases;
     lane_count := shape_lanes sh;
     build_holds := foldl (fun h j => bump_range (probe_range j) h) (replicate n 0) (joins sh);
     limit_holds := replicate n 0; building := map join_lanes (joins sh); s_joins := joins sh;
     satisfied := replicate n false; s_subtree := subtree sh |}.

(** [Scheduler::next]. *)
Definition next (s : Scheduler) : option nat :=
  match list_find (fun w => w <> 0%N) (words s) with
  | Some (index, word) => Some (node_of_rank s !!! (index * 64 + trailing_zeros word))
  | None => None
  end.

Definition set_lane_ready (s : Scheduler) (node lane : nat) (ready : bool) : Scheduler :=
  let slot := lane_base s !!! node + lane in
  if Bool.eqb (default false (lane_ready s !! slot)) ready then s
  else
    sched_refresh
      (set_ready_lanes s (<[slot := ready]> (lane_ready s))
         (alter (if ready then S else pred) node (s_ready_lanes s))) node.

(** Each node of a range: [holds[node] -= 1; refresh(node)], or [+= 1]. *)
Definition lift_build (s : Scheduler) (node : nat) : Scheduler :=
  sched_refresh (set_build_holds s (alter pred node (build_holds s))) node.
Definition add_limit (s : Scheduler) (node : nat) : Scheduler :=
  sched_refresh (set_limit_holds s (alter S node (limit_holds s))) node.

Definition lane_left_build (s : Scheduler) (join : nat) : option Scheduler :=
  match list_find (fun j => join_node j = join) (s_joins s) with
  | None => None
  | Some (index, j) =>
      match building s !!! index with
      | O => None
      | S rest =>
          let s := set_building s (<[index := rest]> (building s)) in
          if 0 <? rest then Some s
          else
            let probe := probe_range j in
            Some (foldl lift_build s (seq probe.1 (probe.2 - probe.1)))
      end
  end.

Definition satisfy (s : Scheduler) (node : nat) : Scheduler :=
  if default false (satisfied s !! node) then s
  else
    let s := set_satisfied s (<[node := true]> (satisfied s)) in
    let range := s_subtree s !!! node in
    foldl add_limit s (seq range.1 (range.2 - range.1)).

Definition is_satisfied (s : Scheduler) (node : nat) : bool :=
  default false (satisfied s !! node).
Definition any_satisfied (s : Scheduler) : bool := existsb id (satisfied s).

(** ** Words as a set of ranks *)
Definition bit_at (ws : list N) (r : nat) : bool :=
  N.testbit (default 0%N (ws !! (r / 64))) (N.of_nat (r mod 64)).

Lemma testbit_bit_of r k : N.testbit (bit_of r) (N.of_nat k) = bool_decide (r mod 64 = k).
Proof.
  unfold bit_of. rewrite N.shiftl_1_l, N.pow2_bits_eqb.
  case_bool_decide; [subst; apply N.eqb_refl|]. apply N.eqb_neq. lia.
Qed.

Lemma div_mod_inj a b : a / 64 = b / 64 -> a mod 64 = b mod 64 -> a = b.
Proof. intros. rewrite (Nat.div_mod_eq a 64), (Nat.div_mod_eq b 64). lia. Qed.

Lemma bit_at_alter (v : bool) ws r r' :
  r / 64 < length ws ->
  bit_at (alter (fun w => if v then N.lor w (bit_of r) else N.ldiff w (bit_of r)) (r / 64) ws) r'
  = if bool_decide (r' = r) then v else bit_at ws r'.
Proof.
  intros Hlt. unfold bit_at. destruct (decide (r' / 64 = r / 64)) as [Hd|Hd].
  - rewrite Hd, list_lookup_alter_eq. apply lookup_lt_is_Some in Hlt as [w Hw]. rewrite Hw.
    cbn [default from_option id fmap option_fmap option_map].
    assert (bool_decide (r' = r) = bool_decide (r mod 64 = r' mod 64)) as ->.
    { apply bool_decide_ext. split; [by intros ->|]. intros. by apply div_mod_inj. }
    destruct v; rewrite ?N.lor_spec, ?N.ldiff_spec, testbit_bit_of;
      destruct (bool_decide (r mod 64 = r' mod 64)); cbn [negb];
      rewrite ?orb_true_r, ?orb_false_r, ?andb_true_r, ?andb_false_r; done.
  - rewrite list_lookup_alter_ne by done. rewrite bool_decide_false; [done|]. by intros ->.
Qed.

Lemma trailing_zeros_pos_bits p :
  N.testbit (Npos p) (N.of_nat (trailing_zeros_pos p)) = true
  /\ forall k, k < trailing_zeros_pos p -> N.testbit (Npos p) (N.of_nat k) = false.
Proof.
  induction p as [p IH|p IH|]; cbn [trailing_zeros_pos].
  - split; [done|lia].
  - destruct IH as [IH1 IH2]. change (N.pos p~0) with (2 * N.pos p)%N.
    rewrite Nat2N.inj_succ, N.double_bits_succ. split; [done|].
    intros [|k] Hk; [by rewrite N.testbit_even_0|].
    rewrite Nat2N.inj_succ, N.double_bits_succ. apply IH2. lia.
  - split; [done|lia].
Qed.

Lemma trailing_zeros_bits w :
  w <> 0%N -> N.testbit w (N.of_nat (trailing_zeros w)) = true
  /\ forall k, k < trailing_zeros w -> N.testbit w (N.of_nat k) = false.
Proof. destruct w; [done|]. intros _. apply trailing_zeros_pos_bits. Qed.

(** Only the low 64 bits of each word are in use. *)
Definition words_ok (ws : list N) : Prop :=
  forall i w, ws !! i = Some w -> forall k, 64 <= k -> N.testbit w (N.of_nat k) = false.

Lemma words_ok_alter (v : bool) ws r :
  words_ok ws ->
  words_ok (alter (fun w => if v then N.lor w (bit_of r) else N.ldiff w (bit_of r)) (r / 64) ws).
Proof.
  intros Hok i w Hw k Hk. destruct (decide (i = r / 64)) as [->|].
  - rewrite list_lookup_alter_eq in Hw. destruct (ws !! (r / 64)) as [w0|] eqn:Hw0; simplify_eq/=.
    pose proof (Hok _ _ Hw0 k Hk) as Hf. pose proof (Nat.mod_upper_bound r 64).
    destruct v; rewrite ?N.lor_spec, ?N.ldiff_spec, testbit_bit_of, Hf; [|done].
    apply bool_decide_eq_false. lia.
  - rewrite list_lookup_alter_ne in Hw by done. by eapply Hok.
Qed.

(** The pick is the lowest set bit. *)
Lemma list_find_words ws :
  words_ok ws ->
  match list_find (fun w => w <> 0%N) ws with
  | Some (i, w) => let r := i * 64 + trailing_zeros w in
      bit_at ws r = true /\ forall r', r' < r -> bit_at ws r' = false
  | None => forall r, bit_at ws r = false
  end.
Proof.
  intros Hok. destruct (list_find _ ws) as [[i w]|] eqn:Hf.
  - apply list_find_Some in Hf as (Hi & Hne & Hlow).
    destruct (trailing_zeros_bits w Hne) as [Ht Hb].
    assert (trailing_zeros w < 64) as Hlt.
    { destruct (decide (trailing_zeros w < 64)); [done|]. exfalso.
      rewrite (Hok _ _ Hi) in Ht by lia. done. }
    cbn zeta. unfold bit_at. split.
    + replace ((i * 64 + trailing_zeros w) / 64) with i by (rewrite Nat.div_add_l, Nat.div_small; lia).
      replace ((i * 64 + trailing_zeros w) mod 64) with (trailing_zeros w)
        by (rewrite Nat.Div0.add_mod, Nat.Div0.mod_mul, Nat.add_0_l, Nat.Div0.mod_mod, Nat.mod_small; lia).
      by rewrite Hi.
    + intros r' Hr'. destruct (decide (r' / 64 = i)) as [Hd|Hd].
      * rewrite Hd, Hi. apply Hb. pose proof (Nat.div_mod_eq r' 64). lia.
      * destruct (ws !! (r' / 64)) as [w'|] eqn:Hw'; [|apply N.bits_0].
        assert (r' / 64 < i) as Hi'. { pose proof (Nat.div_mod_eq r' 64). lia. }
        specialize (Hlow _ _ Hw' Hi'). assert (w' = 0%N) as -> by (destruct (decide (w' = 0%N)); tauto).
        apply N.bits_0.
  - intros r. unfold bit_at. destruct (ws !! (r / 64)) as [w|] eqn:Hw; [|apply N.bits_0].
    apply list_find_None in Hf. rewrite Forall_lookup in Hf. specialize (Hf _ _ Hw). cbn in Hf.
    assert (w = 0%N) as -> by (destruct (decide (w = 0%N)); tauto). apply N.bits_0.
Qed.

(** ** The specification: the predicate the counters replace *)
Definition in_range (range : nat * nat) (node : nat) : bool :=
  (range.1 <=? node) && (node <? range.2).

(** Joins still building whose probe subtree contains the node. *)
Definition spec_build_holds (s : Scheduler) (node : nat) : nat :=
  sum_list (zip_with (fun j b => Nat.b2n ((0 <? b) && in_range (probe_range j) node))
              (s_joins s) (building s)).

(** Satisfied nodes whose subtree contains the node. *)
Definition spec_limit_holds (s : Scheduler) (node : nat) : nat :=
  sum_list (zip_with (fun (sat : bool) range => Nat.b2n (sat && in_range range node))
              (satisfied s) (s_subtree s)).

Definition node_flags (sh : PlanShape) (s : Scheduler) (node : nat) : list bool :=
  take (shape_lanes sh !!! node) (drop (lane_base s !!! node) (lane_ready s)).
Definition count_true (l : list bool) : nat := sum_list (map Nat.b2n l).

(** Some lane is ready, no building join and no satisfied limit holds the node. *)
Definition spec_runnable (sh : PlanShape) (s : Scheduler) (node : nat) : bool :=
  existsb id (node_flags sh s node)
  && (spec_build_holds s node =? 0) && (spec_limit_holds s node =? 0).

Definition order_of (sh : PlanShape) : list nat :=
  merge_sort (rank_le (heights sh)) (List.seq 0 (node_count sh)).

(** The first runnable node in (height, index) order. *)
Definition spec_next (sh : PlanShape) (s : Scheduler) : option nat :=
  snd <$> list_find (fun node => spec_runnable sh s node = true) (order_of sh).

Record shape_ok (sh : PlanShape) : Prop := {
  shape_lanes_len : length (shape_lanes sh) = node_count sh;
  shape_subtree_len : length (subtree sh) = node_count sh;
  shape_subtree_in node range : subtree sh !! node = Some range -> range.2 <= node_count sh;
  shape_joins j : j ∈ joins sh -> (probe_range j).2 <= node_count sh /\ 0 < join_lanes j;
  shape_joins_distinct : NoDup (map join_node (joins sh)) }.

Record sched_static (sh : PlanShape) (s : Scheduler) : Prop := {
  st_order : node_of_rank s = order_of sh;
  st_rank r node : node_of_rank s !! r = Some node -> rank_of_node s !!! node = r;
  st_words : length (words s) = (node_count sh + 63) / 64;
  st_base : lane_base s = (lane_bases (shape_lanes sh) 0).1;
  st_flags : length (lane_ready s) = sum_list (shape_lanes sh);
  st_ready : length (s_ready_lanes s) = node_count sh;
  st_bh : length (build_holds s) = node_count sh;
  st_lh : length (limit_holds s) = node_count sh;
  st_joins : s_joins s = joins sh;
  st_building : length (building s) = length (joins sh);
  st_satisfied : length (satisfied s) = node_count sh;
  st_subtree : s_subtree s = subtree sh }.

Definition counts_ok (sh : PlanShape) (s : Scheduler) : Prop :=
  forall node, node < node_count sh ->
    s_ready_lanes s !!! node = count_true (node_flags sh s node)
    /\ build_holds s !!! node = spec_build_holds s node
    /\ limit_holds s !!! node = spec_limit_holds s node.

Definition bits_ok (s : Scheduler) : Prop :=
  words_ok (words s) /\
  forall r, bit_at (words s) r
            = match node_of_rank s !! r with Some node => runnable s node | None => false end.

Record sched_ok (sh : PlanShape) (s : Scheduler) : Prop := {
  ok_static : sched_static sh s;
  ok_counts : counts_ok sh s;
  ok_bits : bits_ok s }.

(** ** The rank order *)
#[export] Instance rank_le_total hs : Total (rank_le hs).
Proof. intros a b. unfold rank_le. lia. Qed.
#[export] Instance rank_le_trans hs : Transitive (rank_le hs).
Proof. intros a b c. unfold rank_le. lia. Qed.

Lemma order_perm sh : order_of sh ≡ₚ List.seq 0 (node_count sh).
Proof. apply merge_sort_Permutation. Qed.

Lemma order_sorted sh : StronglySorted (rank_le (heights sh)) (order_of sh).
Proof. apply (StronglySorted_merge_sort _ _). Qed.

Lemma order_NoDup sh : NoDup (order_of sh).
Proof. rewrite order_perm. apply NoDup_seq. Qed.

Lemma order_elem sh node : node ∈ order_of sh <-> node < node_count sh.
Proof. rewrite order_perm, elem_of_seq. lia. Qed.

Lemma order_length sh : length (order_of sh) = node_count sh.
Proof. rewrite (Permutation_length (order_perm sh)). apply length_seq. Qed.

Lemma rank_lookup sh s node :
  sched_static sh s -> node < node_count sh ->
  node_of_rank s !! (rank_of_node s !!! node) = Some node
  /\ rank_of_node s !!! node / 64 < length (words s).
Proof.
  intros Hs [r Hr]%order_elem%list_elem_of_lookup.
  rewrite <- (st_order _ _ Hs) in Hr. rewrite (st_rank _ _ Hs _ _ Hr). split; [done|].
  apply lookup_lt_Some in Hr. rewrite (st_order _ _ Hs), order_length in Hr.
  rewrite (st_words _ _ Hs). apply Nat.div_lt_upper_bound; [lia|].
  pose proof (Nat.div_mod_eq (node_count sh + 63) 64).
  pose proof (Nat.mod_upper_bound (node_count sh + 63) 64). lia.
Qed.

Lemma rank_inj sh s a b :
  sched_static sh s -> a < node_count sh -> b < node_count sh ->
  rank_of_node s !!! a = rank_of_node s !!! b -> a = b.
Proof.
  intros Hs Ha Hb Heq. destruct (rank_lookup sh s a) as [H1 _]; [done..|].
  destruct (rank_lookup sh s b) as [H2 _]; [done..|]. congruence.
Qed.

(** [refresh] repairs the one bit its node owns. *)
Lemma refresh_bits sh s s' node :
  sched_static sh s -> sched_static sh s' -> node < node_count sh ->
  words s' = words s -> bits_ok s ->
  (forall m, m <> node -> runnable s' m = runnable s m) ->
  bits_ok (sched_refresh s' node).
Proof.
  intros Hs Hs' Hn Hw [Hok Hb] Hsame.
  destruct (rank_lookup sh s' node) as [Hr Hlt]; [done..|]. split.
  - cbn [sched_refresh set_words words]. apply words_ok_alter. by rewrite Hw.
  - intros r. cbn [sched_refresh set_words words node_of_rank].
    change (bit_at (alter (fun w => if runnable s' node then N.lor w (bit_of (rank_of_node s' !!! node))
      else N.ldiff w (bit_of (rank_of_node s' !!! node))) ((rank_of_node s' !!! node) / 64) (words s')) r
      = match node_of_rank s' !! r with Some m => runnable s' m | None => false end).
    rewrite bit_at_alter by done. case_bool_decide as Hd.
    + by rewrite Hd, Hr.
    + rewrite Hw, Hb, (st_order _ _ Hs), (st_order _ _ Hs').
      destruct (order_of sh !! r) as [m|] eqn:Hm; [|done]. symmetry. apply Hsame.
      intros ->. apply Hd. rewrite <- (st_order _ _ Hs') in Hm. by rewrite (st_rank _ _ Hs' _ _ Hm).
Qed.

Lemma refresh_static sh s node : sched_static sh s -> sched_static sh (sched_refresh s node).
Proof. intros [? ? ? ? ? ? ? ? ? ? ? ?]. split; try done. cbn. by rewrite length_alter. Qed.

(** ** The counters are the predicate *)
Lemma count_true_existsb l : (0 <? count_true l) = existsb id l.
Proof.
  unfold count_true. induction l as [|[] l IH]; cbn [map sum_list foldr existsb id Nat.b2n]; [done| |].
  - done.
  - exact IH.
Qed.

Lemma runnable_spec sh s node :
  counts_ok sh s -> node < node_count sh -> runnable s node = spec_runnable sh s node.
Proof.
  intros Hc Hn. destruct (Hc node Hn) as (H1 & H2 & H3).
  unfold runnable, spec_runnable, is_held. rewrite H1, H2, H3, count_true_existsb.
  destruct (existsb id _), (spec_build_holds s node), (spec_limit_holds s node); done.
Qed.

Lemma next_list_find sh s :
  sched_ok sh s -> next s = snd <$> list_find (fun node => runnable s node = true) (order_of sh).
Proof.
  intros [Hst Hc [Hok Hb]]. unfold next. pose proof (list_find_words _ Hok) as Hf.
  destruct (list_find _ (words s)) as [[i w]|].
  - destruct Hf as [Ht Hlow]. rewrite Hb in Ht.
    destruct (node_of_rank s !! (i * 64 + trailing_zeros w)) as [node|] eqn:Hr; [|done].
    rewrite (list_lookup_total_correct _ _ _ Hr). rewrite (st_order _ _ Hst) in Hr.
    assert (list_find (fun node => runnable s node = true) (order_of sh)
            = Some (i * 64 + trailing_zeros w, node)) as ->; [|done].
    apply list_find_Some. split_and!; [done..|]. intros j y Hy Hlt Hrun.
    specialize (Hlow j Hlt). rewrite Hb, (st_order _ _ Hst), Hy in Hlow. congruence.
  - destruct (list_find _ (order_of sh)) as [[r node]|] eqn:Hl; [|done].
    apply list_find_Some in Hl as (Hr & Hrun & _). specialize (Hf r).
    rewrite Hb, (st_order _ _ Hst), Hr in Hf. congruence.
Qed.

Lemma next_spec sh s : sched_ok sh s -> next s = spec_next sh s.
Proof.
  intros Hok. rewrite (next_list_find sh) by done. unfold spec_next. f_equal.
  destruct Hok as [_ Hc _].
  apply list_find_bool_ext. intros m Hm%order_elem. by apply (runnable_spec sh).
Qed.

(** ** Loops over a range *)

(** A loop that changes one node's counter and refreshes it, [upd s node], keeps the bits right and
    changes only the nodes of the range. *)
Section range_loop.
Context (sh : PlanShape) (upd : Scheduler -> nat -> Scheduler) (f : nat -> nat)
  (get : Scheduler -> list nat).
Context (upd_get : forall s node, get (sched_refresh (upd s node) node) = alter f node (get s)).
Context (upd_static : forall s node, sched_static sh s -> sched_static sh (upd s node)).
Context (upd_words : forall s node, words (upd s node) = words s).
Context (upd_runnable : forall s node m, m <> node -> runnable (upd s node) m = runnable s m).

Lemma range_loop_ok nodes_ s :
  sched_static sh s -> bits_ok s -> Forall (fun m => m < node_count sh) nodes_ ->
  let s' := foldl (fun s node => sched_refresh (upd s node) node) s nodes_ in
  sched_static sh s' /\ bits_ok s' /\ get s' = foldl (fun h node => alter f node h) (get s) nodes_.
Proof using upd_get upd_static upd_words upd_runnable.
  intros Hst Hb Hall. revert s Hst Hb.
  induction Hall as [|m l Hm Hl IH]; intros s Hst Hb; [done|]. cbn [foldl].
  destruct (IH (sched_refresh (upd s m) m)) as (H1 & H2 & H3).
  - by apply refresh_static, upd_static.
  - apply (refresh_bits sh s); auto.
  - split_and!; [done|done|]. by rewrite H3, upd_get.
Qed.
End range_loop.

(** A field no step of a fold changes. *)
Lemma foldl_same {A B S} (g : S -> B) (step : S -> A -> S) l s :
  (forall s x, g (step s x) = g s) -> g (foldl step s l) = g s.
Proof. intros Hg. revert s. induction l as [|x l IH]; intros s; cbn; [done|]. by rewrite IH. Qed.

Lemma foldl_alter_lookup (f : nat -> nat) l (h : list nat) m :
  NoDup l -> m < length h ->
  foldl (fun h node => alter f node h) h l !!! m = if bool_decide (m ∈ l) then f (h !!! m) else h !!! m.
Proof.
  intros Hnd. revert h. induction Hnd as [|x l Hx Hnd IH]; intros h Hm; [done|]. cbn [foldl].
  rewrite IH by (by rewrite length_alter).
  destruct (decide (m = x)) as [->|Hne].
  - rewrite (bool_decide_false (x ∈ l)) by done. rewrite bool_decide_true by set_solver.
    by rewrite list_lookup_total_alter_eq by done.
  - rewrite list_lookup_total_alter_ne by done.
    rewrite (bool_decide_ext (m ∈ x :: l) (m ∈ l)) by set_solver. done.
Qed.

Lemma range_elem range m :
  m ∈ List.seq range.1 (range.2 - range.1) <-> in_range range m = true.
Proof.
  rewrite elem_of_seq. unfold in_range. rewrite andb_true_iff, Nat.leb_le, Nat.ltb_lt. lia.
Qed.

Lemma range_Forall (sh : PlanShape) range :
  range.2 <= node_count sh -> Forall (fun m => m < node_count sh) (List.seq range.1 (range.2 - range.1)).
Proof. intros Hr. apply Forall_forall. intros m Hm%elem_of_seq. lia. Qed.

Lemma foldl_alter_range (f : nat -> nat) range (h : list nat) m :
  m < length h ->
  foldl (fun h node => alter f node h) h (List.seq range.1 (range.2 - range.1)) !!! m
  = if in_range range m then f (h !!! m) else h !!! m.
Proof.
  intros Hm. rewrite foldl_alter_lookup by (done || apply NoDup_seq).
  destruct (in_range range m) eqn:Hr.
  - rewrite bool_decide_true; [done|]. by apply range_elem.
  - rewrite bool_decide_false; [done|]. rewrite range_elem. congruence.
Qed.

(** ** The operations keep the invariant *)

Lemma lane_bases_spec ls total :
  lane_bases ls total = (imap (fun i _ => total + sum_list (take i ls)) ls, total + sum_list ls).
Proof.
  revert total. induction ls as [|k ks IH]; intros total; cbn; [by rewrite Nat.add_0_r|].
  rewrite IH. f_equal; [|lia]. f_equal; [lia|]. apply imap_ext. intros i x _. cbn. lia.
Qed.

Lemma lane_base_lookup sh s node :
  sched_static sh s -> shape_ok sh -> node < node_count sh ->
  lane_base s !!! node = sum_list (take node (shape_lanes sh)).
Proof.
  intros Hst Hsh Hn. rewrite (st_base _ _ Hst), lane_bases_spec. cbn.
  apply list_lookup_total_correct. rewrite list_lookup_imap.
  rewrite <- (shape_lanes_len _ Hsh) in Hn. apply lookup_lt_is_Some in Hn as [x ->]. done.
Qed.

Lemma sum_take_S (l : list nat) i : i < length l -> sum_list (take (S i) l) = sum_list (take i l) + l !!! i.
Proof.
  intros Hi. rewrite (take_S_r _ _ (l !!! i)) by (by apply list_lookup_lookup_total_lt).
  rewrite sum_list_with_app. cbn. lia.
Qed.

Lemma sum_take_mono (l : list nat) i j : i <= j -> sum_list (take i l) <= sum_list (take j l).
Proof.
  intros Hij. replace (take i l) with (take i (take j l)) by (rewrite take_take; f_equal; lia).
  rewrite <- (take_drop i (take j l)) at 2. rewrite sum_list_with_app. lia.
Qed.

Lemma slot_in_flags sh s node lane :
  sched_static sh s -> shape_ok sh -> node < node_count sh -> lane < shape_lanes sh !!! node ->
  lane_base s !!! node + lane < length (lane_ready s).
Proof.
  intros Hst Hsh Hn Hl. rewrite (lane_base_lookup sh) by done. rewrite (st_flags _ _ Hst).
  pose proof (sum_take_S (shape_lanes sh) node) as HS. rewrite (shape_lanes_len _ Hsh) in HS.
  specialize (HS Hn). pose proof (sum_take_mono (shape_lanes sh) (S node) (node_count sh)) as Hm.
  rewrite (take_ge (shape_lanes sh) (node_count sh)) in Hm by (rewrite (shape_lanes_len _ Hsh); done).
  lia.
Qed.

(** A flag of one node's segment changes that segment at its lane and no other. *)
Lemma node_flags_insert sh s counts node lane v m :
  sched_static sh s -> shape_ok sh -> node < node_count sh -> m < node_count sh ->
  lane < shape_lanes sh !!! node ->
  node_flags sh (set_ready_lanes s (<[lane_base s !!! node + lane := v]> (lane_ready s)) counts) m
  = if bool_decide (m = node) then <[lane := v]> (node_flags sh s m) else node_flags sh s m.
Proof.
  intros Hst Hsh Hn Hm Hl. unfold node_flags. cbn [set_ready_lanes lane_ready lane_base].
  rewrite !(lane_base_lookup sh s) by done.
  pose proof (sum_take_S (shape_lanes sh) node) as HSn. pose proof (sum_take_S (shape_lanes sh) m) as HSm.
  rewrite (shape_lanes_len _ Hsh) in HSn, HSm. specialize (HSn Hn). specialize (HSm Hm).
  case_bool_decide as Hd.
  - subst m. rewrite drop_insert_ge by lia.
    replace (_ + lane - _) with lane by lia. by rewrite take_insert_lt.
  - destruct (decide (node < m)).
    + pose proof (sum_take_mono (shape_lanes sh) (S node) m). rewrite drop_insert_lt by lia. done.
    + pose proof (sum_take_mono (shape_lanes sh) (S m) node).
      rewrite drop_insert_ge by lia. rewrite take_insert_ge by lia. done.
Qed.

Lemma flag_lookup sh s node lane :
  lane < shape_lanes sh !!! node ->
  node_flags sh s node !! lane = lane_ready s !! (lane_base s !!! node + lane).
Proof. intros Hl. unfold node_flags. by rewrite lookup_take_lt, lookup_drop by done. Qed.

Lemma count_true_insert l i (x y : bool) :
  l !! i = Some x -> count_true (<[i := y]> l) + Nat.b2n x = count_true l + Nat.b2n y.
Proof.
  intros Hl. unfold count_true. rewrite list_fmap_insert. apply sum_list_insert.
  by rewrite list_lookup_fmap, Hl.
Qed.

Lemma set_lane_ready_ok sh s node lane ready :
  shape_ok sh -> sched_ok sh s -> node < node_count sh -> lane < shape_lanes sh !!! node ->
  sched_ok sh (set_lane_ready s node lane ready)
  /\ forall m, m < node_count sh -> node_flags sh (set_lane_ready s node lane ready) m
       = if bool_decide (m = node) then <[lane := ready]> (node_flags sh s m) else node_flags sh s m.
Proof.
  intros Hsh [Hst Hc Hb] Hn Hl. pose proof (slot_in_flags _ _ _ _ Hst Hsh Hn Hl) as Hslot.
  apply lookup_lt_is_Some in Hslot as [old Hold]. unfold set_lane_ready. rewrite Hold. cbn [default from_option id].
  destruct (Bool.eqb old ready) eqn:Heq.
  { split; [done|]. intros m Hm. case_bool_decide as Hd; [|done]. subst m.
    apply eqb_prop in Heq as <-. rewrite list_insert_id; [done|]. by rewrite flag_lookup. }
  set (s1 := set_ready_lanes s _ _).
  assert (sched_static sh s1) as Hst1.
  { destruct Hst. split; try done; cbn; by rewrite ?length_insert, ?length_alter. }
  assert (forall m, m < node_count sh -> node_flags sh s1 m
       = if bool_decide (m = node) then <[lane := ready]> (node_flags sh s m) else node_flags sh s m) as Hfl.
  { intros m Hm. by apply node_flags_insert. }
  assert (forall m, m <> node -> runnable s1 m = runnable s m) as Hrun.
  { intros m Hm. unfold runnable, is_held; cbn. by rewrite list_lookup_total_alter_ne by done. }
  split; [|exact Hfl]. split.
  - by apply refresh_static.
  - intros m Hm. destruct (Hc m Hm) as (H1 & H2 & H3). split_and!; [|done|done].
    change (alter (if ready then S else pred) node (s_ready_lanes s) !!! m = count_true (node_flags sh s1 m)).
    rewrite Hfl by done. case_bool_decide as Hd; [|by rewrite list_lookup_total_alter_ne by done].
    subst m. rewrite list_lookup_total_alter_eq by (by rewrite (st_ready _ _ Hst)).
    rewrite <- (flag_lookup sh) in Hold by done. pose proof (count_true_insert _ _ _ ready Hold).
    rewrite H1. destruct old, ready; cbn in *; lia || done.
  - by apply (refresh_bits sh s).
Qed.

Definition hold_of_join (node : nat) (j : JoinShape) (b : nat) : nat :=
  Nat.b2n ((0 <? b) && in_range (probe_range j) node).
Definition hold_of_limit (node : nat) (sat : bool) (range : nat * nat) : nat :=
  Nat.b2n (sat && in_range range node).

Lemma sum_zip_insert_r {A B} (f : A -> B -> nat) l k i x y y' :
  l !! i = Some x -> k !! i = Some y ->
  sum_list (zip_with f l (<[i := y']> k)) + f x y = sum_list (zip_with f l k) + f x y'.
Proof.
  intros Hx Hy. rewrite <- (list_insert_id l i x Hx) at 1. rewrite <- insert_zip_with.
  apply sum_list_insert. by rewrite lookup_zip_with, Hx, Hy.
Qed.

Lemma sum_zip_insert_l {A B} (f : A -> B -> nat) l k i x x' y :
  l !! i = Some x -> k !! i = Some y ->
  sum_list (zip_with f (<[i := x']> l) k) + f x y = sum_list (zip_with f l k) + f x' y.
Proof.
  intros Hx Hy. rewrite <- (list_insert_id k i y Hy) at 1. rewrite <- insert_zip_with.
  apply sum_list_insert. by rewrite lookup_zip_with, Hx, Hy.
Qed.

(** Two scheduler states that agree on everything the hold loops read but the holds. *)
Record same_but_holds (s s' : Scheduler) : Prop := {
  sb_flags : lane_ready s' = lane_ready s; sb_base : lane_base s' = lane_base s;
  sb_ready : s_ready_lanes s' = s_ready_lanes s; sb_building : building s' = building s;
  sb_satisfied : satisfied s' = satisfied s; sb_joins : s_joins s' = s_joins s;
  sb_subtree : s_subtree s' = s_subtree s }.

Lemma lift_build_loop sh s range :
  sched_static sh s -> bits_ok s -> range.2 <= node_count sh ->
  let s' := foldl lift_build s (List.seq range.1 (range.2 - range.1)) in
  sched_static sh s' /\ bits_ok s' /\ same_but_holds s s' /\ limit_holds s' = limit_holds s
  /\ forall m, m < node_count sh ->
       build_holds s' !!! m = if in_range range m then pred (build_holds s !!! m) else build_holds s !!! m.
Proof.
  intros Hst Hb Hr. cbn zeta.
  destruct (range_loop_ok sh (fun s node => set_build_holds s (alter pred node (build_holds s))) pred
    build_holds) with (nodes_ := List.seq range.1 (range.2 - range.1)) (s := s) as (H1 & H2 & H3);
    [done| | | |done|done|by apply range_Forall|].
  - intros s0 node []. split; try done. cbn. by rewrite length_alter.
  - done.
  - intros s0 node m Hm. unfold runnable, is_held; cbn. by rewrite list_lookup_total_alter_ne.
  - change (foldl _ s _) with (foldl lift_build s (List.seq range.1 (range.2 - range.1))) in H1, H2, H3.
    split_and!; [done|done| |by apply foldl_same|].
    + split; by apply foldl_same.
    + intros m Hm. rewrite H3. apply foldl_alter_range. by rewrite (st_bh _ _ Hst).
Qed.

Lemma add_limit_loop sh s range :
  sched_static sh s -> bits_ok s -> range.2 <= node_count sh ->
  let s' := foldl add_limit s (List.seq range.1 (range.2 - range.1)) in
  sched_static sh s' /\ bits_ok s' /\ same_but_holds s s' /\ build_holds s' = build_holds s
  /\ forall m, m < node_count sh ->
       limit_holds s' !!! m = if in_range range m then S (limit_holds s !!! m) else limit_holds s !!! m.
Proof.
  intros Hst Hb Hr. cbn zeta.
  destruct (range_loop_ok sh (fun s node => set_limit_holds s (alter S node (limit_holds s))) S
    limit_holds) with (nodes_ := List.seq range.1 (range.2 - range.1)) (s := s) as (H1 & H2 & H3);
    [done| | | |done|done|by apply range_Forall|].
  - intros s0 node []. split; try done. cbn. by rewrite length_alter.
  - done.
  - intros s0 node m Hm. unfold runnable, is_held; cbn. by rewrite list_lookup_total_alter_ne.
  - change (foldl _ s _) with (foldl add_limit s (List.seq range.1 (range.2 - range.1))) in H1, H2, H3.
    split_and!; [done|done| |by apply foldl_same|].
    + split; by apply foldl_same.
    + intros m Hm. rewrite H3. apply foldl_alter_range. by rewrite (st_lh _ _ Hst).
Qed.

Lemma spec_holds_same s s' :
  same_but_holds s s' ->
  (forall m, spec_build_holds s' m = spec_build_holds s m)
  /\ (forall m, spec_limit_holds s' m = spec_limit_holds s m)
  /\ (forall sh m, node_flags sh s' m = node_flags sh s m).
Proof.
  intros []. unfold spec_build_holds, spec_limit_holds, node_flags.
  split_and!; intros; congruence.
Qed.

Lemma set_building_static sh s b :
  length b = length (building s) -> sched_static sh s -> sched_static sh (set_building s b).
Proof. intros Hl []. split; try done. cbn. congruence. Qed.

Lemma lane_left_build_ok sh s join s' :
  shape_ok sh -> sched_ok sh s -> lane_left_build s join = Some s' ->
  sched_ok sh s' /\ (forall m, node_flags sh s' m = node_flags sh s m)
  /\ satisfied s' = satisfied s
  /\ exists i j rest, joins sh !! i = Some j /\ join_node j = join /\ building s !! i = Some (S rest)
       /\ building s' = <[i := rest]> (building s).
Proof.
  intros Hsh [Hst Hc Hb] Hleft. unfold lane_left_build in Hleft.
  destruct (list_find _ (s_joins s)) as [[i j]|] eqn:Hf; [|done].
  apply list_find_Some in Hf as (Hj & Hjn & _).
  assert (exists b, building s !! i = Some b) as [b Hbi].
  { apply lookup_lt_is_Some. rewrite (st_building _ _ Hst), <- (st_joins _ _ Hst).
    by eapply lookup_lt_Some. }
  rewrite (list_lookup_total_correct _ _ _ Hbi) in Hleft. destruct b as [|rest]; [done|].
  set (s1 := set_building s (<[i := rest]> (building s))) in *.
  assert (sched_static sh s1) as Hst1 by (apply set_building_static; [apply length_insert|done]).
  assert (forall m, spec_build_holds s1 m + hold_of_join m j (S rest)
                    = spec_build_holds s m + hold_of_join m j rest) as Hspec.
  { intros m. apply (sum_zip_insert_r (hold_of_join m)); done. }
  rewrite (st_joins _ _ Hst) in Hj.
  assert ((probe_range j).2 <= node_count sh) as Hr
    by (apply (shape_joins _ Hsh); by eapply list_elem_of_lookup_2).
  destruct rest as [|rest]; cbn [Nat.ltb Nat.leb] in Hleft; injection Hleft as <-.
  - destruct (lift_build_loop sh s1 (probe_range j)) as (L1 & L2 & L3 & L4 & L5); [done..|].
    destruct (spec_holds_same _ _ L3) as (E1 & E2 & E3).
    split_and!; [|done|apply L3|exists i, j, 0; split_and!; [done..|apply L3]].
    split; [done| |done]. intros m Hm. destruct (Hc m Hm) as (H1 & H2 & H3).
    rewrite (sb_ready _ _ L3), E3, E1, E2, L4, L5 by done. split_and!; [done| |done].
    specialize (Hspec m). unfold hold_of_join in Hspec.
    change (build_holds s1) with (build_holds s). rewrite H2.
    destruct (in_range (probe_range j) m); cbn in *; lia.
  - split_and!; [|done|done|exists i, j, (S rest); done]. split; [done| |exact Hb].
    intros m Hm. destruct (Hc m Hm) as (H1 & H2 & H3). split_and!; [done| |done].
    specialize (Hspec m). unfold hold_of_join in Hspec. change (build_holds s1) with (build_holds s).
    rewrite H2. destruct (in_range (probe_range j) m); cbn in *; lia.
Qed.

Lemma satisfy_ok sh s node :
  shape_ok sh -> sched_ok sh s -> node < node_count sh ->
  sched_ok sh (satisfy s node) /\ (forall m, node_flags sh (satisfy s node) m = node_flags sh s m)
  /\ satisfied (satisfy s node) = <[node := true]> (satisfied s)
  /\ building (satisfy s node) = building s.
Proof.
  intros Hsh [Hst Hc Hb] Hn. unfold satisfy.
  assert (exists b, satisfied s !! node = Some b) as [b Hs]
    by (apply lookup_lt_is_Some; by rewrite (st_satisfied _ _ Hst)).
  assert (exists r, subtree sh !! node = Some r) as [r Hr]
    by (apply lookup_lt_is_Some; by rewrite (shape_subtree_len _ Hsh)).
  rewrite Hs. destruct b; cbn [default from_option id]; [by rewrite list_insert_id|].
  cbn zeta. set (s1 := set_satisfied s _).
  change (s_subtree s1) with (s_subtree s). rewrite (st_subtree _ _ Hst).
  rewrite (list_lookup_total_correct _ _ _ Hr).
  assert (sched_static sh s1) as Hst1.
  { destruct Hst. split; try done. cbn. by rewrite length_insert. }
  assert (forall m, spec_limit_holds s1 m + hold_of_limit m false r
                    = spec_limit_holds s m + hold_of_limit m true r) as Hspec.
  { intros m. apply (sum_zip_insert_l (hold_of_limit m)); [done|].
    change (s_subtree s !! node = Some r). by rewrite (st_subtree _ _ Hst). }
  destruct (add_limit_loop sh s1 r) as (L1 & L2 & L3 & L4 & L5);
    [done|exact Hb|by apply (shape_subtree_in _ Hsh node)|].
  destruct (spec_holds_same _ _ L3) as (E1 & E2 & E3).
  split_and!; [|done|apply L3|apply L3]. split; [done| |done].
  intros m Hm. destruct (Hc m Hm) as (H1 & H2 & H3).
  rewrite (sb_ready _ _ L3), E3, E1, E2, L4, L5 by done. split_and!; [done|done|].
  specialize (Hspec m). unfold hold_of_limit in Hspec.
  change (limit_holds s1) with (limit_holds s). rewrite H3.
  destruct (in_range r m); cbn in *; lia.
Qed.

(** ** The initial state *)
Lemma ranks_spec (order : list nat) k (r0 : list nat) :
  NoDup order -> (forall m, m ∈ order -> m < length r0) ->
  let ranks := foldl (fun r '(rank, node) => <[node := rank]> r) r0 (imap (fun i x => (k + i, x)) order) in
  (forall i node, order !! i = Some node -> ranks !!! node = k + i)
  /\ (forall m, m ∉ order -> ranks !!! m = r0 !!! m).
Proof.
  intros Hnd. revert k r0. induction Hnd as [|x l Hx Hnd IH]; intros k r0 Hlt; cbn.
  { split; [done|]. done. }
  rewrite (imap_ext _ (fun i x => (S k + i, x))) by (intros; cbn; f_equal; lia).
  destruct (IH (S k) (<[x := k + 0]> r0)) as [IH1 IH2].
  { intros m Hm. rewrite length_insert. set_solver. }
  split.
  - intros [|i] node Hi; simplify_eq/=.
    + rewrite IH2 by done. rewrite list_lookup_total_insert_eq by set_solver. lia.
    + rewrite (IH1 i node Hi). lia.
  - intros m Hm. apply not_elem_of_cons in Hm as [Hne Hm]. rewrite IH2 by done.
    by rewrite list_lookup_total_insert_ne.
Qed.

Lemma length_bump_range range h : length (bump_range range h) = length h.
Proof.
  unfold bump_range. generalize (List.seq range.1 (range.2 - range.1)) as l. intros l. revert h.
  induction l as [|x l IH]; intros h; cbn; [done|]. by rewrite IH, length_alter.
Qed.

Lemma bump_joins_spec js h m :
  m < length h ->
  foldl (fun h j => bump_range (probe_range j) h) h js !!! m
  = h !!! m + sum_list (map (fun j => Nat.b2n (in_range (probe_range j) m)) js).
Proof.
  revert h. induction js as [|j js IH]; intros h Hm; cbn; [lia|].
  rewrite IH by (by rewrite length_bump_range). unfold bump_range at 1.
  rewrite foldl_alter_range by done. destruct (in_range (probe_range j) m); cbn; lia.
Qed.

Lemma length_bump_joins js h :
  length (foldl (fun h j => bump_range (probe_range j) h) h js) = length h.
Proof. revert h. induction js as [|j js IH]; intros h; cbn; [done|]. by rewrite IH, length_bump_range. Qed.

Lemma sched_new_static sh : shape_ok sh -> sched_static sh (sched_new sh).
Proof.
  intros Hsh. unfold sched_new. rewrite lane_bases_spec. split; cbn [
    node_of_rank rank_of_node words s_ready_lanes lane_ready lane_base build_holds limit_holds
    building s_joins satisfied s_subtree]; try done.
  - intros r node Hr.
    destruct (ranks_spec (order_of sh) 0 (replicate (node_count sh) 0)) as [H1 _];
      [apply order_NoDup|intros m Hm%order_elem; by rewrite length_replicate|].
    exact (H1 r node Hr).
  - apply length_replicate.
  - by rewrite lane_bases_spec.
  - apply length_replicate.
  - apply length_replicate.
  - by rewrite length_bump_joins, length_replicate.
  - apply length_replicate.
  - by rewrite length_map.
  - apply length_replicate.
Qed.

Lemma replicate_total {A} `{Inhabited A} k (x : A) i : i < k -> replicate k x !!! i = x.
Proof. intros Hi. apply list_lookup_total_correct. by apply lookup_replicate_2. Qed.

Lemma count_true_replicate l : (forall b, b ∈ l -> b = false) -> count_true l = 0.
Proof.
  induction l as [|b l IH]; intros Hl; [done|]. unfold count_true in *. cbn.
  rewrite (Hl b) by set_solver. cbn. apply IH. set_solver.
Qed.

Lemma sched_new_flags sh m : node_flags sh (sched_new sh) m = replicate (length (node_flags sh (sched_new sh) m)) false.
Proof.
  symmetry. apply replicate_as_Forall. split; [done|]. unfold node_flags. apply Forall_take, Forall_drop.
  unfold sched_new. destruct (lane_bases _ _). cbn. by apply Forall_replicate.
Qed.

Lemma spec_build_holds_new sh m :
  shape_ok sh -> spec_build_holds (sched_new sh) m
  = sum_list (map (fun j => Nat.b2n (in_range (probe_range j) m)) (joins sh)).
Proof.
  intros Hsh. unfold spec_build_holds, sched_new. destruct (lane_bases _ _).
  cbn [s_joins building]. pose proof (shape_joins _ Hsh) as Hj.
  induction (joins sh) as [|j js IH]; [done|]. cbn [map zip_with sum_list foldr].
  change (foldr Nat.add 0) with sum_list. rewrite IH by set_solver.
  destruct (Hj j) as [_ Hlt]; [set_solver|]. by apply Nat.ltb_lt in Hlt as ->.
Qed.

Lemma spec_limit_holds_new sh m : spec_limit_holds (sched_new sh) m = 0.
Proof.
  unfold spec_limit_holds, sched_new. destruct (lane_bases _ _). cbn.
  generalize (node_count sh) as k. intros k. revert k.
  induction (subtree sh) as [|r rs IH]; intros [|k]; try done. cbn. apply IH.
Qed.

Lemma sched_new_ok sh : shape_ok sh -> sched_ok sh (sched_new sh).
Proof.
  intros Hsh. pose proof (sched_new_static sh Hsh) as Hst.
  assert (counts_ok sh (sched_new sh)) as Hc.
  { intros m Hm. rewrite sched_new_flags, count_true_replicate
      by (intros b [-> _]%elem_of_replicate; done).
    rewrite spec_build_holds_new, spec_limit_holds_new by done.
    unfold sched_new. destruct (lane_bases _ _). cbn [s_ready_lanes build_holds limit_holds].
    rewrite !replicate_total by done.
    rewrite bump_joins_spec by (by rewrite length_replicate). by rewrite replicate_total. }
  split; [done|done|]. split.
  - intros i w Hw k Hk. unfold sched_new in Hw. destruct (lane_bases _ _). cbn in Hw.
    apply lookup_replicate in Hw as [-> _]. apply N.bits_0.
  - intros r. destruct (node_of_rank (sched_new sh) !! r) as [m|] eqn:Hr.
    + assert (m < node_count sh) as Hm.
      { apply order_elem. rewrite <- (st_order _ _ Hst). by eapply list_elem_of_lookup_2. }
      rewrite (runnable_spec sh) by done. unfold spec_runnable. rewrite sched_new_flags.
      rewrite <- count_true_existsb, count_true_replicate by (intros b [-> _]%elem_of_replicate; done).
      unfold bit_at, sched_new. destruct (lane_bases _ _). cbn [words].
      destruct (replicate _ _ !! _) as [w|] eqn:Hw; [|apply N.bits_0].
      apply lookup_replicate in Hw as [-> _]. apply N.bits_0.
    + unfold bit_at, sched_new. destruct (lane_bases _ _). cbn [words].
      destruct (replicate _ _ !! _) as [w|] eqn:Hw; [|apply N.bits_0].
      apply lookup_replicate in Hw as [-> _]. apply N.bits_0.
Qed.

(** ** Events *)
Inductive SchedEvent :=
| EvReady (node lane : nat) (ready : bool)
| EvLeftBuild (join : nat)
| EvSatisfy (node : nat).

Definition event_ok (sh : PlanShape) (e : SchedEvent) : Prop :=
  match e with
  | EvReady node lane _ => node < node_count sh /\ lane < shape_lanes sh !!! node
  | EvLeftBuild _ => True
  | EvSatisfy node => node < node_count sh
  end.

Definition sched_event (s : Scheduler) (e : SchedEvent) : option Scheduler :=
  match e with
  | EvReady node lane ready => Some (set_lane_ready s node lane ready)
  | EvLeftBuild join => lane_left_build s join
  | EvSatisfy node => Some (satisfy s node)
  end.

Lemma sched_event_ok sh s e s' :
  shape_ok sh -> sched_ok sh s -> event_ok sh e -> sched_event s e = Some s' -> sched_ok sh s'.
Proof.
  intros Hsh Hok He Hs. destruct e as [node lane ready|join|node]; cbn in Hs.
  - injection Hs as <-. by apply set_lane_ready_ok; destruct He.
  - by destruct (lane_left_build_ok _ _ _ _ Hsh Hok Hs).
  - injection Hs as <-. by apply satisfy_ok.
Qed.

Fixpoint sched_run (s : Scheduler) (es : list SchedEvent) : option Scheduler :=
  match es with [] => Some s | e :: es => sched_event s e ≫= fun s => sched_run s es end.

Lemma sched_run_ok sh es s s' :
  shape_ok sh -> sched_ok sh s -> Forall (event_ok sh) es -> sched_run s es = Some s' ->
  sched_ok sh s'.
Proof.
  intros Hsh Hok Hes. revert s Hok. induction Hes as [|e es He Hes IH]; intros s Hok Hrun; cbn in Hrun.
  - by injection Hrun as <-.
  - destruct (sched_event s e) as [s1|] eqn:Hs1; [|done]. cbn in Hrun.
    by apply (IH s1); [eapply sched_event_ok|].
Qed.

Lemma StronglySorted_lookup_le {A} (R : A -> A -> Prop) l i j x y :
  StronglySorted R l -> i < j -> l !! i = Some x -> l !! j = Some y -> R x y.
Proof.
  intros Hs. revert i j. induction Hs as [|a l Hs IH Ha]; intros [|i] [|j] Hij Hi Hj; simplify_eq/=;
    try lia.
  - rewrite Forall_lookup in Ha. by eapply Ha.
  - apply (IH i j); [lia|done|done].
Qed.

(** ** Theorems *)

(** C22: the incremental schedule is the rescanning one: after any sequence of readiness changes,
    joins leaving their build phase and limits satisfied, the lowest set bit names exactly the node
    the plain predicate picks, every node and lane and both holds looked at afresh. *)
Theorem next_refines_rescan (sh : PlanShape) (es : list SchedEvent) (s : Scheduler)
    (Hsh : shape_ok sh) (Hes : Forall (event_ok sh) es) (Hrun : sched_run (sched_new sh) es = Some s) :
  next s = spec_next sh s.
Proof. apply next_spec. apply (sched_run_ok sh es (sched_new sh)); auto using sched_new_ok. Qed.

Definition demo_shape : PlanShape := shape (build demo_join_plan).
Lemma demo_shape_ok : shape_ok demo_shape.
Proof.
  split; [reflexivity|reflexivity| | |].
  - intros node range H. vm_compute in H. do 5 (destruct node as [|node]; [injection H as <-; vm_compute; lia|]).
    discriminate.
  - intros j Hj. vm_compute in Hj. apply list_elem_of_singleton in Hj as ->. vm_compute; lia.
  - vm_compute. repeat constructor. by intros ?%not_elem_of_nil.
Defined.

Definition demo_events : list SchedEvent :=
  [EvReady 3 0 true; EvReady 4 0 true; EvLeftBuild 1; EvLeftBuild 1; EvReady 3 0 false].

Definition demo_sched : Scheduler :=
  Eval vm_compute in default (sched_new demo_shape) (sched_run (sched_new demo_shape) demo_events).
Lemma demo_run : sched_run (sched_new demo_shape) demo_events = Some demo_sched.
Proof. vm_compute. reflexivity. Qed.
Lemma demo_events_ok : Forall (event_ok demo_shape) demo_events.
Proof.
  unfold demo_events. repeat (apply List.Forall_cons; [cbn [event_ok]; vm_compute; lia|]).
  apply List.Forall_nil.
Qed.

Lemma next_refines_rescan_witness :
  next demo_sched = Some 4 /\ next demo_sched = spec_next demo_shape demo_sched.
Proof.
  split; [vm_compute; reflexivity|].
  exact (next_refines_rescan demo_shape demo_events demo_sched demo_shape_ok demo_events_ok demo_run).
Defined.

(** the schedule's promise: the node picked has a ready lane and is held by no building join and
    no satisfied limit, and it is first among all such nodes by height and then by index; no node
    is picked only when there is none. *)
Theorem next_is_lowest_leftmost (sh : PlanShape) (es : list SchedEvent) (s : Scheduler)
    (Hsh : shape_ok sh) (Hes : Forall (event_ok sh) es) (Hrun : sched_run (sched_new sh) es = Some s) :
  match next s with
  | Some node => node < node_count sh /\ spec_runnable sh s node = true
      /\ forall m, m < node_count sh -> spec_runnable sh s m = true -> rank_le (heights sh) node m
  | None => forall m, m < node_count sh -> spec_runnable sh s m = false
  end.
Proof.
  rewrite (next_spec sh) by (apply (sched_run_ok sh es (sched_new sh)); auto using sched_new_ok).
  unfold spec_next. destruct (list_find _ (order_of sh)) as [[r node]|] eqn:Hf; cbn.
  - apply list_find_Some in Hf as (Hr & Hrun' & Hlow). split_and!; [|done|].
    + apply order_elem. by eapply list_elem_of_lookup_2.
    + intros m [r' Hr']%order_elem%list_elem_of_lookup Hm.
      destruct (decide (r' < r)) as [Hlt|]; [by destruct (Hlow _ _ Hr' Hlt)|].
      destruct (decide (r' = r)) as [->|]; [assert (m = node) as -> by congruence; unfold rank_le; lia|].
      apply (StronglySorted_lookup_le _ (order_of sh) r r'); [apply order_sorted|lia|done|done].
  - intros m Hm%order_elem. apply list_find_None in Hf. rewrite Forall_forall in Hf.
    specialize (Hf m Hm). by destruct (spec_runnable sh s m).
Qed.

Lemma next_is_lowest_leftmost_witness :
  match next demo_sched with
  | Some node => node < node_count demo_shape /\ spec_runnable demo_shape demo_sched node = true
      /\ forall m, m < node_count demo_shape -> spec_runnable demo_shape demo_sched m = true ->
           rank_le (heights demo_shape) node m
  | None => forall m, m < node_count demo_shape -> spec_runnable demo_shape demo_sched m = false
  end.
Proof.
  exact (next_is_lowest_leftmost demo_shape demo_events demo_sched demo_shape_ok demo_events_ok demo_run).
Defined.
