(* ===== verification/Lane.v ===== *)
(** * One lane of one lane-scoped node

    [executor/driver/single_partition.rs]: which call a lane's input state calls for ([can_step],
    [select]), and making exactly one ([run]).  The state a call works on is the backend's world,
    the accountant and the lane; it survives an error, as [&mut] borrows do. *)
From stdpp Require Import strings.
From S2P Require Import Prelude Interval PlanIR Index Executor Reference Accounting.
Open Scope N_scope.

Inductive StepError :=
| SRun (e : RunError)
| STrip (t : Trip)
| SPanic.

Definition BUILD_SLOT : nat := 0.
Definition PROBE_SLOT : nat := 1.

(** One lane's input edges, by slot. *)
Record Avail := { has : nat -> bool; done_ : nat -> bool }.

Inductive LaneCall :=
| LNextBatch | LExec | LUnload | LAccumulate | LMarkDone | LSetBuild | LDropProbe | LProbe
| LFinish | LEndOfInput.
#[export] Instance LaneCall_eq_dec : EqDecision LaneCall.
Proof. solve_decision. Defined.

Definition consumes (c : LaneCall) : option nat :=
  match c with
  | LExec | LUnload | LAccumulate => Some 0%nat
  | LSetBuild => Some BUILD_SLOT
  | LProbe | LDropProbe => Some PROBE_SLOT
  | LNextBatch | LMarkDone | LFinish | LEndOfInput => None
  end.

Definition needs_its_batch (c : LaneCall) : bool :=
  match c with LSetBuild => false | _ => true end.

Record LaneSite :=
  { site_node : GpuNode; site_category : ExecutorCategory; site_post_order : nat;
    site_lane : nat; site_slot : Slot }.

Section Lane.
Context {B : Backend}.

Inductive LaneOutputs :=
| Device (batches : list (Held Batch))
| Host (batches : list (Held CpuBatch)).

Record LaneOutcome :=
  { outputs : LaneOutputs; finished : bool; call : CallKind; made_calls : option AbiCalls }.

Inductive LaneState :=
| Unbuilt
| StSource (s : Source)
| StExec (e : Exec)
| StBatchAcc (a : BatchAcc)
| StBuild (j : Join)
| StProbe (p : Probing)
| Draining
| StUnload (u : Unload)
| Finished.

Definition is_finished (l : LaneState) : bool := match l with Finished => true | _ => false end.
Definition awaits_build (l : LaneState) : bool :=
  match l with Unbuilt | StBuild _ => true | _ => false end.

Definition can_step (l : LaneState) (category : ExecutorCategory) (avail : Avail) : bool :=
  if is_finished l then false
  else match category with
       | CSource => true
       | CJoin =>
           let slot := if awaits_build l then BUILD_SLOT else PROBE_SLOT in
           has avail slot || done_ avail slot
       | _ => has avail 0%nat || done_ avail 0%nat
       end.

Definition select (l : LaneState) (category : ExecutorCategory) (avail : Avail) :
    result RunError LaneCall :=
  match category with
  | CSource => Ok LNextBatch
  | CExec => Ok (if has avail 0%nat then LExec else LEndOfInput)
  | CUnload => Ok (if has avail 0%nat then LUnload else LEndOfInput)
  | CBatchAccumulator => Ok (if has avail 0%nat then LAccumulate else LMarkDone)
  | CJoin =>
      if awaits_build l then Ok LSetBuild
      else match l with
           | Draining => Ok (if has avail PROBE_SLOT then LDropProbe else LEndOfInput)
           | _ =>
               if has avail BUILD_SLOT
               then Err (Protocol "a join's build side produced a second batch")
               else Ok (if has avail PROBE_SLOT then LProbe else LFinish)
           end
  | _ => Err (Protocol "not lane-scoped and has no lane call")
  end.

(** ** The state a call works on *)
Record LaneSt := { l_world : World; l_acct : ResidentAccountant; l_state : LaneState }.

Definition LM := M LaneSt StepError.

Definition set_state (l : LaneState) : LM () :=
  modify (fun s => {| l_world := l_world s; l_acct := l_acct s; l_state := l |}).
Definition set_world (w : World) : LM () :=
  modify (fun s => {| l_world := w; l_acct := l_acct s; l_state := l_state s |}).

(** An accountant's method through the borrow, its error mapped. *)
Definition acct_do {E A} (into : E -> StepError)
    (f : ResidentAccountant -> result E A * ResidentAccountant) : LM A := fun s =>
  let '(r, a) := f (l_acct s) in
  (map_err into r, {| l_world := l_world s; l_acct := a; l_state := l_state s |}).

Definition lane_begin {E} `{Executor E} (slot : Slot) (e : E) (rows bytes_ : N) : LM N :=
  acct_do STrip (fun a => begin_call a slot e rows bytes_).
Definition lane_end {E} `{Executor E} (slot : Slot) (e : E) (st : CallStats) (m : N) : LM () :=
  acct_do STrip (fun a => end_call a slot e st m).
Definition lane_end_consuming (slot : Slot) (st : CallStats) (m : N) : LM () :=
  acct_do STrip (fun a => end_consuming_call a slot st m).
Definition lane_release (b : N) : LM () := acct_do SRun (fun a => release a b).
Definition lane_hold (b : N) : LM () := acct_do SRun (fun a => (Ok (), hold a b)).

Definition failed {A} (site : LaneSite) (consumed : option N) (e : BackendError) : LM A := fun s =>
  let a := match consumed with Some b => (release (l_acct s) b).2 | None => l_acct s end in
  (Err (SRun (CallFailed (node_name (site_node site) +:+ ": " +:+ message e))),
   {| l_world := l_world s; l_acct := a; l_state := l_state s |}).

Definition or_failed {A} (site : LaneSite) (consumed : option N) (r : result BackendError A) :
    LM A :=
  match r with Ok x => mret x | Err e => failed site consumed e end.

Fixpoint hold_each {T} `{BatchLike T} (outs : list T) : LM (list (Held T)) :=
  match outs with
  | [] => mret []
  | b :: bs =>
      let held := held_of b in
      lane_hold (bytes held) ≫= fun _ =>
      rest ← hold_each bs;
      mret (held :: rest)
  end.

Definition hold_all {T} `{BatchLike T} (outs : list T) (consumed : option N) : LM (list (Held T)) :=
  match consumed with
  | Some b => lane_release b ≫= fun _ => hold_each outs
  | None => hold_each outs
  end.

Definition expect_input (site : LaneSite) (input : option (Held Batch)) : LM (Held Batch) :=
  match input with
  | Some h => mret h
  | None => throw (SRun (Protocol (node_name (site_node site)
                    +:+ ": the call needs an input batch and was handed none")))
  end.

Definition wrong_state {A} (site : LaneSite) (what : string) : LM A :=
  throw (SRun (Protocol (node_name (site_node site) +:+ ": " +:+ what
                         +:+ " on a lane holding another kind of executor"))).

Definition outcome (o : LaneOutputs) (fin : bool) (k : CallKind) (made : option AbiCalls) :
    LaneOutcome :=
  {| outputs := o; finished := fin; call := k; made_calls := made |}.

(** [LaneDriver::build]. *)
Definition build_lane (site : LaneSite) : LM () :=
  s ← get_state;
  let '(w, built) := executors_for (l_world s) (site_node site) (site_post_order site)
                       (site_lane site) in
  set_world w ≫= fun _ =>
  match built with
  | Err e => throw (SRun (BackendErr e))
  | Ok executors =>
      if bool_decide (executors_category executors <> site_category site)
      then throw (SRun (BackendErr (Invalid (node_name (site_node site)
             +:+ ": the backend built another category's executor"))))
      else
        match executors with
        | ESource x => set_state (StSource x)
        | EExec x => set_state (StExec x)
        | EBatchAccumulator x => set_state (StBatchAcc x)
        | EJoin x => set_state (StBuild x)
        | EUnload x => set_state (StUnload x)
        | EPartitionAccumulator _ | EPartitionEmitter _ | EBatchForwarder _ =>
            throw (SRun (BackendErr (Invalid (node_name (site_node site)
              +:+ ": a cross-lane executor for a lane-scoped node"))))
        end
  end.

Definition source_step (site : LaneSite) : LM LaneOutcome :=
  s ← get_state;
  set_state Finished ≫= fun _ =>
  match l_state s with
  | StSource source =>
      modelled ← lane_begin (site_slot site) source 0 0;
      let '(w, r) := next_batch (l_world s) source in
      set_world w ≫= fun _ =>
      step ← or_failed site None r;
      match step with
      | StepBatch b stats source' =>
          let out := held_of b in
          lane_hold (bytes out) ≫= fun _ =>
          lane_end (site_slot site) source' stats modelled ≫= fun _ =>
          set_state (StSource source') ≫= fun _ =>
          mret (outcome (Device [out]) false KNextBatch (Some (calls stats)))
      | Exhausted =>
          lane_end_consuming (site_slot site) default_stats modelled ≫= fun _ =>
          mret (outcome (Device []) true KSourceExhausted None)
      end
  | _ => wrong_state site "next_batch"
  end.

(** ** One arm of [run] per call *)
Definition run_exec (site : LaneSite) (input : option (Held Batch)) (n_rows n_bytes : N) :
    LM LaneOutcome :=
  b ← expect_input site input;
  s ← get_state;
  match l_state s with
  | StExec executor =>
      modelled ← lane_begin (site_slot site) executor n_rows n_bytes;
      let '(w, executor, r) := exec (l_world s) executor (batch b) in
      set_world w ≫= fun _ => set_state (StExec executor) ≫= fun _ =>
      res ← or_failed site (Some n_bytes) r;
      let '(out, stats) := res in
      let out := held_of out in
      lane_release (bytes b) ≫= fun _ =>
      lane_hold (bytes out) ≫= fun _ =>
      lane_end (site_slot site) executor stats modelled ≫= fun _ =>
      mret (outcome (Device [out]) false KExec (Some (calls stats)))
  | _ => wrong_state site "exec"
  end.

Definition run_unload (site : LaneSite) (input : option (Held Batch)) (rows : RowRange)
    (n_rows n_bytes : N) : LM LaneOutcome :=
  b ← expect_input site input;
  s ← get_state;
  match l_state s with
  | StUnload executor =>
      modelled ← lane_begin (site_slot site) executor n_rows n_bytes;
      let '(w, executor, r) := unload_batch (l_world s) executor (batch b) rows in
      set_world w ≫= fun _ => set_state (StUnload executor) ≫= fun _ =>
      res ← or_failed site (Some n_bytes) r;
      let '(out, stats) := res in
      let out := held_of out in
      lane_release (bytes b) ≫= fun _ =>
      lane_hold (bytes out) ≫= fun _ =>
      lane_end (site_slot site) executor stats modelled ≫= fun _ =>
      mret (outcome (Host [out]) false
              (if bool_decide (rows = WHOLE) then KUnload else KUnloadRange) (Some (calls stats)))
  | _ => wrong_state site "unload"
  end.

Definition run_accumulate (site : LaneSite) (input : option (Held Batch)) (n_rows n_bytes : N) :
    LM LaneOutcome :=
  b ← expect_input site input;
  s ← get_state;
  match l_state s with
  | StBatchAcc executor =>
      modelled ← lane_begin (site_slot site) executor n_rows n_bytes;
      let '(w, executor, r) := accumulate_and_fetch (l_world s) executor (batch b) in
      set_world w ≫= fun _ => set_state (StBatchAcc executor) ≫= fun _ =>
      res ← or_failed site (Some n_bytes) r;
      let '(outs, stats) := res in
      outs ← hold_all outs (Some (bytes b));
      lane_end (site_slot site) executor stats modelled ≫= fun _ =>
      mret (outcome (Device outs) false KAccumulate (Some (calls stats)))
  | _ => wrong_state site "accumulate_and_fetch"
  end.

Definition run_mark_done (site : LaneSite) : LM LaneOutcome :=
  s ← get_state;
  set_state Finished ≫= fun _ =>
  match l_state s with
  | StBatchAcc executor =>
      modelled ← lane_begin (site_slot site) executor 0 0;
      let '(w, r) := mark_done_and_fetch (l_world s) executor in
      set_world w ≫= fun _ =>
      res ← or_failed site None r;
      let '(outs, stats) := res in
      outs ← hold_all outs None;
      lane_end_consuming (site_slot site) stats modelled ≫= fun _ =>
      mret (outcome (Device outs) true KMarkDone (Some (calls stats)))
  | _ => wrong_state site "mark_done_and_fetch"
  end.

Definition run_set_build (site : LaneSite) (input : option (Held Batch)) (n_rows n_bytes : N) :
    LM LaneOutcome :=
  s ← get_state;
  set_state Unbuilt ≫= fun _ =>
  match l_state s with
  | StBuild executor =>
      modelled ← lane_begin (site_slot site) executor n_rows n_bytes;
      let '(w, r) := set_build (l_world s) executor (batch <$> input) in
      set_world w ≫= fun _ =>
      res ← or_failed site (Some n_bytes) r;
      let '(probing, stats) := res in
      match input with Some b => lane_release (bytes b) | None => mret () end ≫= fun _ =>
      lane_end (site_slot site) probing stats modelled ≫= fun _ =>
      set_state (if owes_nothing probing then Draining else StProbe probing) ≫= fun _ =>
      mret (outcome (Device []) false KSetBuild (Some (calls stats)))
  | _ => wrong_state site "set_build"
  end.

Definition run_drop_probe (site : LaneSite) (input : option (Held Batch)) : LM LaneOutcome :=
  b ← expect_input site input;
  lane_release (bytes b) ≫= fun _ =>
  mret (outcome (Device []) false KReleaseUnwanted None).

Definition option_list {A} (o : option A) : list A := match o with Some x => [x] | None => [] end.

Definition run_probe (site : LaneSite) (input : option (Held Batch)) (n_rows n_bytes : N) :
    LM LaneOutcome :=
  b ← expect_input site input;
  s ← get_state;
  match l_state s with
  | StProbe executor =>
      modelled ← lane_begin (site_slot site) executor n_rows n_bytes;
      let '(w, executor, r) := probe_and_fetch (l_world s) executor (batch b) in
      set_world w ≫= fun _ => set_state (StProbe executor) ≫= fun _ =>
      res ← or_failed site (Some n_bytes) r;
      let '(outs, stats) := res in
      outs ← hold_all (option_list outs) (Some (bytes b));
      lane_end (site_slot site) executor stats modelled ≫= fun _ =>
      mret (outcome (Device outs) false KProbe (Some (calls stats)))
  | _ => wrong_state site "probe_and_fetch"
  end.

Definition run_finish (site : LaneSite) : LM LaneOutcome :=
  s ← get_state;
  set_state Finished ≫= fun _ =>
  match l_state s with
  | StProbe executor =>
      modelled ← lane_begin (site_slot site) executor 0 0;
      let '(w, r) := finish_and_fetch (l_world s) executor in
      set_world w ≫= fun _ =>
      res ← or_failed site None r;
      let '(outs, stats) := res in
      outs ← hold_all (option_list outs) None;
      lane_end_consuming (site_slot site) stats modelled ≫= fun _ =>
      mret (outcome (Device outs) true KFinish (Some (calls stats)))
  | _ => wrong_state site "finish_and_fetch"
  end.

Definition run_end_of_input (site : LaneSite) : LM LaneOutcome :=
  set_state Finished ≫= fun _ =>
  acct_do SRun (fun a => (Ok (), forget a (site_slot site))) ≫= fun _ =>
  mret (outcome (Device []) true KEndOfInput None).

(** [LaneDriver::run]. *)
Definition run_lane (site : LaneSite) (c : LaneCall) (input : option (Held Batch))
    (rows : RowRange) : LM LaneOutcome :=
  s ← get_state;
  if is_finished (l_state s)
  then throw (SRun (Protocol (node_name (site_node site) +:+ ": a lane stepped after it finished")))
  else
    match l_state s with Unbuilt => build_lane site | _ => mret () end ≫= fun _ =>
    let n_rows := match input with Some h => held_rows h | None => 0 end in
    let n_bytes := match input with Some h => bytes h | None => 0 end in
    match c with
    | LEndOfInput => run_end_of_input site
    | LNextBatch => source_step site
    | LExec => run_exec site input n_rows n_bytes
    | LUnload => run_unload site input rows n_rows n_bytes
    | LAccumulate => run_accumulate site input n_rows n_bytes
    | LMarkDone => run_mark_done site
    | LSetBuild => run_set_build site input n_rows n_bytes
    | LDropProbe => run_drop_probe site input
    | LProbe => run_probe site input n_rows n_bytes
    | LFinish => run_finish site
    end.

(** ** What a call does to the accountant *)

(** [held] bytes in [k] batches enter the in-flight set and [freed] bytes in [j] leave it. *)
Record flow (a a' : ResidentAccountant) (k : nat) (held : N) (j : nat) (freed : N) : Prop := {
  flow_bytes : in_flight_bytes a' + freed = in_flight_bytes a + held;
  flow_holds : holds a' = (holds a + k)%nat;
  flow_releases : releases a' = (releases a + j)%nat;
  flow_budget : budget a' = budget a }.

Lemma flow_refl a : flow a a 0 0 0 0.
Proof. split; lia || done. Qed.

Lemma flow_trans a b c k1 h1 j1 f1 k2 h2 j2 f2 k h j f :
  flow a b k1 h1 j1 f1 -> flow b c k2 h2 j2 f2 ->
  k = (k1 + k2)%nat -> h = h1 + h2 -> j = (j1 + j2)%nat -> f = f1 + f2 -> flow a c k h j f.
Proof. intros [] [] -> -> -> ->. split; try lia. congruence. Qed.

Lemma flow_hold a b : flow a (hold a b) 1 b 0 0.
Proof. split; cbn; lia || done. Qed.

Lemma flow_release a b a' : release a b = (Ok (), a') -> flow a a' 0 0 1 b.
Proof.
  unfold release. destruct (checked_sub _ _) as [rest|] eqn:Hs; intros [= <-].
  apply checked_sub_Some in Hs. split; cbn; lia || done.
Qed.

Lemma flow_begin {E} `{Executor E} a s (e : E) r b : flow a (begin_call a s e r b).2 0 0 0 0.
Proof. unfold begin_call. case_match; split; cbn; lia || done. Qed.

Lemma flow_end a s r st m : flow a (end_ a s r st m).2 0 0 0 0.
Proof. unfold end_, note_measured. destruct (scratch st), r; split; cbn; lia || done. Qed.

Lemma flow_forget a s : flow a (forget a s) 0 0 0 0.
Proof. split; cbn; lia || done. Qed.

(** A state equal to [s] but for the accountant. *)
Definition acct_only (s s' : LaneSt) : Prop := l_state s' = l_state s /\ l_world s' = l_world s.

Lemma acct_do_ok {E A} (into : E -> StepError) f s (x : A) s' :
  acct_do into f s = (Ok x, s') -> f (l_acct s) = (Ok x, l_acct s') /\ acct_only s s'.
Proof.
  unfold acct_do. destruct (f (l_acct s)) as [[y|e] a]; cbn; intros [= <- <-]. done.
Qed.

Lemma lane_begin_ok {E} `{Executor E} slot (e : E) r b s m s' :
  lane_begin slot e r b s = (Ok m, s') -> flow (l_acct s) (l_acct s') 0 0 0 0 /\ acct_only s s'.
Proof.
  unfold lane_begin. intros [Hf Ha]%acct_do_ok. split; [|done]. pose proof (flow_begin (l_acct s) slot e r b) as Hflow.
  by rewrite Hf in Hflow.
Qed.

Lemma lane_end_ok {E} `{Executor E} slot (e : E) st m s s' :
  lane_end slot e st m s = (Ok (), s') -> flow (l_acct s) (l_acct s') 0 0 0 0 /\ acct_only s s'.
Proof.
  unfold lane_end. intros [Hf Ha]%acct_do_ok. split; [|done].
  pose proof (flow_end (l_acct s) slot (Some (resident_bytes e)) st m) as Hflow.
  unfold end_call in Hf. by rewrite Hf in Hflow.
Qed.

Lemma lane_end_consuming_ok slot st m s s' :
  lane_end_consuming slot st m s = (Ok (), s') ->
  flow (l_acct s) (l_acct s') 0 0 0 0 /\ acct_only s s'.
Proof.
  unfold lane_end_consuming. intros [Hf Ha]%acct_do_ok. split; [|done]. pose proof (flow_end (l_acct s) slot None st m) as Hflow.
  unfold end_consuming_call in Hf. by rewrite Hf in Hflow.
Qed.

Lemma lane_release_ok b s s' :
  lane_release b s = (Ok (), s') -> flow (l_acct s) (l_acct s') 0 0 1 b /\ acct_only s s'.
Proof. unfold lane_release. intros [Hf Ha]%acct_do_ok. split; [by apply flow_release|done]. Qed.

Lemma lane_hold_ok b s s' :
  lane_hold b s = (Ok (), s') -> flow (l_acct s) (l_acct s') 1 b 0 0 /\ acct_only s s'.
Proof. unfold lane_hold. intros [[= Hf] Ha]%acct_do_ok. rewrite <- Hf. split; [apply flow_hold|done]. Qed.

Lemma acct_only_trans s1 s2 s3 : acct_only s1 s2 -> acct_only s2 s3 -> acct_only s1 s3.
Proof. intros [] []. split; congruence. Qed.

Lemma hold_each_ok {T} `{BatchLike T} (outs : list T) s hs s' :
  hold_each outs s = (Ok hs, s') ->
  hs = map held_of outs
  /\ flow (l_acct s) (l_acct s') (length hs) (sumN (map bytes hs)) 0 0 /\ acct_only s s'.
Proof.
  revert s hs s'. induction outs as [|b bs IH]; intros s hs s' Hr.
  - injection Hr as <- <-. split_and!; [done|apply flow_refl|done].
  - cbn [hold_each] in Hr. cbn zeta in Hr. inv_ok. apply lane_hold_ok in E as [Hf Ha].
    apply IH in E0 as (-> & Hf' & Ha').
    split_and!; [done| |by eapply acct_only_trans].
    eapply flow_trans; [exact Hf|exact Hf'|..]; cbn [map length]; rewrite ?sumN_cons; cbn; lia.
Qed.

Lemma or_failed_ok {A} site consumed (r : result BackendError A) s x s' :
  or_failed site consumed r s = (Ok x, s') -> r = Ok x /\ s' = s.
Proof. destruct r; cbn; intros [= <- <-]. done. Qed.

Lemma expect_input_ok site input s h s' :
  expect_input site input s = (Ok h, s') -> input = Some h /\ s' = s.
Proof. destruct input; cbn; intros [= <- <-]. done. Qed.

Definition out_bytes (o : LaneOutcome) : list N :=
  match outputs o with Device l => map bytes l | Host l => map bytes l end.

Definition in_bytes_of (input : option (Held Batch)) : N :=
  match input with Some h => bytes h | None => 0 end.
Definition in_count (input : option (Held Batch)) : nat :=
  match input with Some _ => 1 | None => 0 end.

(** What every completed call leaves: its outputs held, its input released, and the lane ended
    exactly when the outcome says so. *)
Record ran (input : option (Held Batch)) (s s' : LaneSt) (o : LaneOutcome) : Prop := {
  ran_flow : flow (l_acct s) (l_acct s') (length (out_bytes o)) (sumN (out_bytes o))
               (in_count input) (in_bytes_of input);
  ran_finished : is_finished (l_state s') = finished o }.
End Lane.

Ltac lane_inv :=
  repeat first [ progress inv_ok |
    match goal with
    | H : (_, _) = ?x |- _ => subst x
    | H : _ = (Ok _, _) |- _ => progress cbn beta iota zeta in H
    | H : lane_begin _ _ _ _ _ = (Ok _, _) |- _ => apply lane_begin_ok in H as [? [? ?]]
    | H : lane_end _ _ _ _ _ = (Ok _, _) |- _ => apply lane_end_ok in H as [? [? ?]]
    | H : lane_end_consuming _ _ _ _ = (Ok _, _) |- _ => apply lane_end_consuming_ok in H as [? [? ?]]
    | H : lane_release _ _ = (Ok _, _) |- _ => apply lane_release_ok in H as [? [? ?]]
    | H : lane_hold _ _ = (Ok _, _) |- _ => apply lane_hold_ok in H as [? [? ?]]
    | H : hold_each _ _ = (Ok _, _) |- _ => apply hold_each_ok in H as (? & ? & [? ?])
    | H : hold_all _ _ _ = (Ok _, _) |- _ => unfold hold_all in H
    | H : or_failed _ _ _ _ = (Ok _, _) |- _ => apply or_failed_ok in H as [? ->]
    | H : expect_input _ _ _ = (Ok _, _) |- _ => apply expect_input_ok in H as [? ->]; simplify_eq
    | H : set_state _ _ = (Ok _, _) |- _ => injection H as <-
    | H : set_world _ _ = (Ok _, _) |- _ => injection H as <-
    | H : get_state _ = (Ok _, _) |- _ => injection H as <- <-
    | H : wrong_state _ _ _ = (Ok _, _) |- _ => discriminate H
    | H : throw _ _ = (Ok _, _) |- _ => discriminate H
    end ].

(** Adds up the flows in sight. *)
Ltac flow_sum :=
  repeat match goal with H : flow _ _ _ _ _ _ |- _ => destruct H end;
  cbn [l_acct l_state out_bytes outputs outcome map in_bytes_of in_count length finished is_finished] in *;
  split; rewrite ?length_map, ?sumN_cons, ?sumN_nil; lia || congruence || idtac.

Section LaneArms.
Context {B : Backend}.

Lemma run_exec_ok site input rows_ bytes_ s o s' :
  run_exec site input rows_ bytes_ s = (Ok o, s') -> ran input s s' o.
Proof.
  unfold run_exec. intros Hr. lane_inv. destruct (l_state s) eqn:Hst; lane_inv.
  destruct (exec _ _ _) as [[w e'] [[out st]|err]]; lane_inv. split; [flow_sum|].
  by assert (l_state s' = StExec e') as -> by (cbn in *; congruence).
Qed.

Lemma run_unload_ok site input range rows_ bytes_ s o s' :
  run_unload site input range rows_ bytes_ s = (Ok o, s') -> ran input s s' o.
Proof.
  unfold run_unload. intros Hr. lane_inv. destruct (l_state s) eqn:Hst; lane_inv.
  destruct (unload_batch _ _ _) as [[w e'] [[out st]|err]]; lane_inv. split; [flow_sum|].
  by assert (l_state s' = StUnload e') as -> by (cbn in *; congruence).
Qed.

Lemma run_accumulate_ok site input rows_ bytes_ s o s' :
  run_accumulate site input rows_ bytes_ s = (Ok o, s') -> ran input s s' o.
Proof.
  unfold run_accumulate. intros Hr. lane_inv. destruct (l_state s) eqn:Hst; lane_inv.
  destruct (accumulate_and_fetch _ _ _) as [[w e'] [[out st]|err]]; lane_inv. split; [flow_sum|].
  by assert (l_state s' = StBatchAcc e') as -> by (cbn in *; congruence).
Qed.

Lemma run_mark_done_ok site s o s' :
  run_mark_done site s = (Ok o, s') -> ran None s s' o.
Proof.
  unfold run_mark_done. intros Hr. lane_inv. destruct (l_state s) eqn:Hst; lane_inv.
  destruct (mark_done_and_fetch _ _) as [w [[out st]|err]]; lane_inv. split; [flow_sum|].
  by assert (l_state s' = Finished) as -> by (cbn in *; congruence).
Qed.

Lemma run_set_build_ok site input rows_ bytes_ s o s' :
  run_set_build site input rows_ bytes_ s = (Ok o, s') -> ran input s s' o.
Proof.
  unfold run_set_build. intros Hr. lane_inv. destruct (l_state s) eqn:Hst; lane_inv.
  destruct (set_build _ _ _) as [w [[p st]|err]]; lane_inv.
  destruct input as [h|]; lane_inv; (split; [flow_sum|]); cbn; by destruct (owes_nothing p).
Qed.

Lemma run_drop_probe_ok site input s o s' :
  is_finished (l_state s) = false ->
  run_drop_probe site input s = (Ok o, s') -> ran input s s' o.
Proof.
  unfold run_drop_probe. intros Hfin Hr. lane_inv. split; [flow_sum|]. cbn in *. congruence.
Qed.

Lemma run_probe_ok site input rows_ bytes_ s o s' :
  run_probe site input rows_ bytes_ s = (Ok o, s') -> ran input s s' o.
Proof.
  unfold run_probe. intros Hr. lane_inv. destruct (l_state s) eqn:Hst; lane_inv.
  destruct (probe_and_fetch _ _ _) as [[w e'] [[out st]|err]]; lane_inv. split; [flow_sum|].
  by assert (l_state s' = StProbe e') as -> by (cbn in *; congruence).
Qed.

Lemma run_finish_ok site s o s' : run_finish site s = (Ok o, s') -> ran None s s' o.
Proof.
  unfold run_finish. intros Hr. lane_inv. destruct (l_state s) eqn:Hst; lane_inv.
  destruct (finish_and_fetch _ _) as [w [[out st]|err]]; lane_inv. split; [flow_sum|].
  by assert (l_state s' = Finished) as -> by (cbn in *; congruence).
Qed.

Lemma run_end_of_input_ok site s o s' : run_end_of_input site s = (Ok o, s') -> ran None s s' o.
Proof.
  unfold run_end_of_input. intros Hr. lane_inv. apply acct_do_ok in E0 as [[= Hf] [Hst _]].
  pose proof (flow_forget (l_acct s) (site_slot site)) as Hflow. cbn in Hf. rewrite Hf in Hflow.
  split; [flow_sum|]. by rewrite Hst.
Qed.

Lemma source_step_ok site s o s' : source_step site s = (Ok o, s') -> ran None s s' o.
Proof.
  unfold source_step. intros Hr. lane_inv. destruct (l_state s) eqn:Hst; lane_inv.
  destruct (next_batch _ _) as [w [[out st src|]|err]]; lane_inv; subst; lane_inv.
  - split; [flow_sum|done].
  - split; [flow_sum|]. by assert (l_state s' = Finished) as -> by (cbn in *; congruence).
Qed.

Lemma build_lane_ok site s s' :
  build_lane site s = (Ok (), s') -> l_acct s' = l_acct s /\ is_finished (l_state s') = false.
Proof.
  unfold build_lane. intros Hr. lane_inv. destruct (executors_for _ _ _ _) as [w [ex|err]]; lane_inv.
  case_bool_decide; lane_inv. destruct ex; lane_inv; done.
Qed.

Lemma run_lane_ran site c input range s o s' :
  (consumes c = None -> input = None) ->
  run_lane site c input range s = (Ok o, s') -> ran input s s' o.
Proof.
  intros Hin Hr. unfold run_lane in Hr. lane_inv.
  destruct (is_finished (l_state s)) eqn:Hfin; lane_inv.
  assert (exists s1, l_acct s1 = l_acct s /\ is_finished (l_state s1) = false
    /\ match c with
       | LEndOfInput => run_end_of_input site
       | LNextBatch => source_step site
       | LExec => run_exec site input (match input with Some h => held_rows h | None => 0 end) (in_bytes_of input)
       | LUnload => run_unload site input range (match input with Some h => held_rows h | None => 0 end) (in_bytes_of input)
       | LAccumulate => run_accumulate site input (match input with Some h => held_rows h | None => 0 end) (in_bytes_of input)
       | LMarkDone => run_mark_done site
       | LSetBuild => run_set_build site input (match input with Some h => held_rows h | None => 0 end) (in_bytes_of input)
       | LDropProbe => run_drop_probe site input
       | LProbe => run_probe site input (match input with Some h => held_rows h | None => 0 end) (in_bytes_of input)
       | LFinish => run_finish site
       end s1 = (Ok o, s')) as (s1 & Ha & Hf & Hr').
  { destruct (l_state s) eqn:Hst;
      try (exists s; rewrite Hst; split_and!; [done|done|by lane_inv]).
    lane_inv. apply build_lane_ok in E as [Ha Hf]. eauto. }
  assert (ran input s1 s' o) as [Hflow Hfinished].
  { destruct c; try (rewrite (Hin eq_refl)); eauto using run_exec_ok, run_unload_ok, run_accumulate_ok,
      run_mark_done_ok, run_set_build_ok, run_drop_probe_ok, run_probe_ok, run_finish_ok,
      run_end_of_input_ok, source_step_ok. }
  split; [by rewrite <- Ha|done].
Qed.

(** ** The typestate *)
Definition state_fits (c : ExecutorCategory) (l : LaneState) : bool :=
  match c, l with
  | _, (Unbuilt | Finished) => true
  | CSource, StSource _ | CExec, StExec _ | CBatchAccumulator, StBatchAcc _ | CUnload, StUnload _ => true
  | CJoin, (StBuild _ | StProbe _ | Draining) => true
  | _, _ => false
  end.

Definition not_protocol {A} (r : result StepError A) : Prop :=
  match r with Err (SRun (Protocol _)) => False | _ => True end.

Lemma np_bind {A C} (m : LM A) (k : A -> LM C) s :
  not_protocol (m s).1 -> (forall x s', m s = (Ok x, s') -> not_protocol (k x s').1) ->
  not_protocol ((m ≫= k) s).1.
Proof.
  intros Hm Hk. unfold mbind, M_bind. destruct (m s) as [[x|e] s'] eqn:E; cbn in *; [by apply Hk|done].
Qed.

Lemma np_acct {E A} (into : E -> StepError) (f : ResidentAccountant -> result E A * ResidentAccountant) s :
  (forall e, not_protocol (Err (T:=A) (into e))) -> not_protocol (acct_do into f s).1.
Proof. intros Hi. unfold acct_do. destruct (f _) as [[]]; cbn; [done|apply Hi]. Qed.

Lemma np_begin {E} `{Executor E} slot (e : E) r b s : not_protocol (lane_begin slot e r b s).1.
Proof. by apply np_acct. Qed.
Lemma np_end {E} `{Executor E} slot (e : E) st m s : not_protocol (lane_end slot e st m s).1.
Proof. by apply np_acct. Qed.
Lemma np_end_consuming slot st m s : not_protocol (lane_end_consuming slot st m s).1.
Proof. by apply np_acct. Qed.
Lemma np_failed {A} site c (r : result BackendError A) s : not_protocol (or_failed site c r s).1.
Proof. by destruct r. Qed.
Lemma np_release b s : b <= in_flight_bytes (l_acct s) -> not_protocol (lane_release b s).1.
Proof.
  intros Hb. unfold lane_release, acct_do, release.
  assert (checked_sub (in_flight_bytes (l_acct s)) b = Some (in_flight_bytes (l_acct s) - b)) as ->
    by (by apply checked_sub_Some). done.
Qed.
Lemma np_hold_each {T} `{BatchLike T} (outs : list T) s : not_protocol (hold_each outs s).1.
Proof.
  revert s. induction outs as [|b bs IH]; intros s; [done|]. cbn [hold_each].
  apply np_bind; [done|]. intros _ s1 _. apply np_bind; [apply IH|]. done.
Qed.
Lemma np_hold_all {T} `{BatchLike T} (outs : list T) c s :
  match c with Some b => b <= in_flight_bytes (l_acct s) | None => True end ->
  not_protocol (hold_all outs c s).1.
Proof.
  destruct c as [b|]; intros Hb; [|apply np_hold_each]. apply np_bind; [by apply np_release|].
  intros _ s1 _. apply np_hold_each.
Qed.
End LaneArms.

(** Walks a call, keeping what the accountant still holds. *)
Ltac np_step :=
  repeat first
    [ match goal with |- context [let '(_, _) := ?x in _] => destruct x end
    | match goal with |- context [match ?x with StepBatch _ _ _ => _ | Exhausted => _ end] => destruct x end
    | match goal with
      | |- not_protocol ((_ ≫= _) _).1 => apply np_bind; [|intros ? ? ?]
      | |- not_protocol (lane_begin _ _ _ _ _).1 => apply np_begin
      | |- not_protocol (lane_end _ _ _ _ _).1 => apply np_end
      | |- not_protocol (lane_end_consuming _ _ _ _).1 => apply np_end_consuming
      | |- not_protocol (or_failed _ _ _ _).1 => apply np_failed
      | |- not_protocol (lane_release _ _).1 => apply np_release
      | |- not_protocol (hold_all _ _ _).1 => apply np_hold_all
      end
    | done
    | progress lane_inv
    | progress cbn beta iota zeta ].

(** The accountant bound a release needs, from the flows before it. *)
Ltac np_bound :=
  repeat match goal with H : flow _ _ _ _ _ _ |- _ => destruct H end; cbn [l_acct l_state in_bytes_of] in *; lia.

Section LaneProtocol.
Context {B : Backend}.

Lemma run_exec_np site h r s e :
  l_state s = StExec e -> bytes h <= in_flight_bytes (l_acct s) ->
  not_protocol (run_exec site (Some h) r (bytes h) s).1.
Proof.
  intros Hst Hb. unfold run_exec. np_step. rewrite Hst. np_step; np_bound.
Qed.

Lemma run_unload_np site h range r s u :
  l_state s = StUnload u -> bytes h <= in_flight_bytes (l_acct s) ->
  not_protocol (run_unload site (Some h) range r (bytes h) s).1.
Proof. intros Hst Hb. unfold run_unload. np_step. rewrite Hst. np_step; np_bound. Qed.

Lemma run_accumulate_np site h r s a :
  l_state s = StBatchAcc a -> bytes h <= in_flight_bytes (l_acct s) ->
  not_protocol (run_accumulate site (Some h) r (bytes h) s).1.
Proof. intros Hst Hb. unfold run_accumulate. np_step. rewrite Hst. np_step; np_bound. Qed.

Lemma run_probe_np site h r s p :
  l_state s = StProbe p -> bytes h <= in_flight_bytes (l_acct s) ->
  not_protocol (run_probe site (Some h) r (bytes h) s).1.
Proof. intros Hst Hb. unfold run_probe. np_step. rewrite Hst. np_step; np_bound. Qed.

Lemma run_drop_probe_np site h s :
  bytes h <= in_flight_bytes (l_acct s) -> not_protocol (run_drop_probe site (Some h) s).1.
Proof. intros Hb. unfold run_drop_probe. np_step; np_bound. Qed.

Lemma run_mark_done_np site s a :
  l_state s = StBatchAcc a -> not_protocol (run_mark_done site s).1.
Proof. intros Hst. unfold run_mark_done. np_step. rewrite Hst. np_step. Qed.

Lemma run_finish_np site s p : l_state s = StProbe p -> not_protocol (run_finish site s).1.
Proof. intros Hst. unfold run_finish. np_step. rewrite Hst. np_step. Qed.

Lemma run_end_of_input_np site s : not_protocol (run_end_of_input site s).1.
Proof. done. Qed.

Lemma source_step_np site s src : l_state s = StSource src -> not_protocol (source_step site s).1.
Proof.
  intros Hst. unfold source_step. np_step. rewrite Hst. np_step.
Qed.

Lemma run_set_build_np site input r s j :
  l_state s = StBuild j -> in_bytes_of input <= in_flight_bytes (l_acct s) ->
  not_protocol (run_set_build site input r (in_bytes_of input) s).1.
Proof.
  intros Hst Hb. unfold run_set_build. np_step. rewrite Hst. np_step.
  destruct input; np_step; np_bound.
Qed.

Lemma build_lane_np site s : not_protocol (build_lane site s).1.
Proof.
  unfold build_lane. np_step. destruct r as [ex|]; [|done]. case_bool_decide; [done|]. by destruct ex.
Qed.

(** A built lane holds the executor its category names. *)
Lemma build_lane_fits site s s' :
  build_lane site s = (Ok (), s') ->
  l_acct s' = l_acct s /\
  match site_category site with
  | CSource => exists x, l_state s' = StSource x
  | CExec => exists x, l_state s' = StExec x
  | CBatchAccumulator => exists x, l_state s' = StBatchAcc x
  | CJoin => exists x, l_state s' = StBuild x
  | CUnload => exists x, l_state s' = StUnload x
  | _ => False
  end.
Proof.
  unfold build_lane. intros Hr. lane_inv. destruct (executors_for _ _ _ _) as [w [ex|err]]; lane_inv.
  case_bool_decide as Hc; lane_inv. rewrite <- Hc.
  destruct ex; lane_inv; cbn; eauto.
Qed.

(** The input a selected call is handed: the batch at the slot it consumes, when one is there. *)
Definition input_offered (avail : Avail) (c : LaneCall) (input : option (Held Batch)) : Prop :=
  match consumes c with
  | Some slot => if has avail slot then input <> None else input = None
  | None => input = None
  end.

Lemma can_step_select (l : LaneState) cat avail :
  is_lane_scoped cat = true -> can_step l cat avail = true ->
  match select l cat avail with
  | Ok c =>
      match consumes c with
      | Some slot => has avail slot = true \/ (needs_its_batch c = false /\ done_ avail slot = true)
      | None => True
      end
  | Err _ => cat = CJoin /\ awaits_build l = false /\ has avail BUILD_SLOT = true
  end.
Proof.
  intros Hscoped Hstep.
  unfold can_step in Hstep. destruct (is_finished l) eqn:Hf; [done|].
  destruct cat; cbn in Hscoped |- *; try done;
    try (destruct (has avail 0%nat) eqn:Hh; cbn; auto; done).
  destruct (awaits_build l) eqn:Ha; cbn.
  - apply orb_true_iff in Hstep as [?|?]; auto.
  - destruct l; try done; cbn; destruct (has avail PROBE_SLOT) eqn:Hp, (has avail BUILD_SLOT) eqn:Hb;
      cbn; auto.
Qed.

(** The executor a selected call finds. *)
Lemma selected_state (site : LaneSite) l avail c :
  is_lane_scoped (site_category site) = true -> state_fits (site_category site) l = true ->
  can_step l (site_category site) avail = true -> select l (site_category site) avail = Ok c ->
  c = LEndOfInput \/ (c = LDropProbe /\ l = Draining) \/ l = Unbuilt \/
  match c with
  | LNextBatch => exists x, l = StSource x
  | LExec => exists x, l = StExec x
  | LUnload => exists x, l = StUnload x
  | LAccumulate | LMarkDone => exists x, l = StBatchAcc x
  | LSetBuild => exists x, l = StBuild x
  | LProbe | LFinish => exists x, l = StProbe x
  | _ => False
  end.
Proof.
  intros Hsc Hfit Hstep Hsel. unfold can_step in Hstep.
  destruct (site_category site); try done; destruct l; try done; cbn in *;
    repeat case_match; simplify_eq; eauto 7.
Qed.

(** The call a built category is given first. *)
Lemma unbuilt_call c avail cat :
  is_lane_scoped cat = true -> select Unbuilt cat avail = Ok c ->
  c = LEndOfInput \/
  match cat with
  | CSource => c = LNextBatch
  | CExec => c = LExec
  | CUnload => c = LUnload
  | CBatchAccumulator => c = LAccumulate \/ c = LMarkDone
  | CJoin => c = LSetBuild
  | _ => False
  end.
Proof.
  intros Hsc Hsel. destruct cat; try done; cbn in Hsel; repeat case_match; simplify_eq; auto.
Qed.

(** The executor a selected call finds once the lane is built. *)
Definition call_state (c : LaneCall) (l : LaneState) : Prop :=
  match c with
  | LNextBatch => exists x, l = StSource x
  | LExec => exists x, l = StExec x
  | LUnload => exists x, l = StUnload x
  | LAccumulate | LMarkDone => exists x, l = StBatchAcc x
  | LSetBuild => exists x, l = StBuild x
  | LProbe | LFinish => exists x, l = StProbe x
  | LEndOfInput | LDropProbe => True
  end.

Lemma built_state site avail c s s1 :
  is_lane_scoped (site_category site) = true -> state_fits (site_category site) (l_state s) = true ->
  can_step (l_state s) (site_category site) avail = true ->
  select (l_state s) (site_category site) avail = Ok c ->
  match l_state s with Unbuilt => build_lane site | _ => mret () end s = (Ok (), s1) ->
  l_acct s1 = l_acct s /\ call_state c (l_state s1).
Proof.
  intros Hscoped Hfits Hstep Hsel Hb.
  destruct (selected_state site (l_state s) avail c) as [->|[[-> Hd]|[Hu|Hst]]]; try done.
  - destruct (l_state s); lane_inv; split; try done. by apply build_lane_fits in Hb as [].
  - rewrite Hd in Hb. lane_inv. done.
  - rewrite Hu in Hb, Hsel. apply build_lane_fits in Hb as [Ha Hst]. split; [done|].
    destruct (unbuilt_call _ _ _ Hscoped Hsel) as [->|Hc]; [done|].
    destruct (site_category site); try done; destruct_or? Hc; subst; done.
  - assert (s1 = s) as ->.
    { destruct (l_state s); lane_inv; try done. destruct c; destruct Hst; done. }
    split; [done|]. by destruct c.
Qed.

Lemma needed_input avail l cat c input slot :
  is_lane_scoped cat = true -> can_step l cat avail = true -> select l cat avail = Ok c ->
  input_offered avail c input -> consumes c = Some slot -> needs_its_batch c = true ->
  exists h, input = Some h.
Proof.
  intros Hscoped Hstep Hsel Hinput Hc Hn. pose proof (can_step_select _ _ _ Hscoped Hstep) as Hag.
  rewrite Hsel, Hc in Hag. unfold input_offered in Hinput. rewrite Hc in Hinput.
  destruct Hag as [Hag|[? _]]; [|congruence]. rewrite Hag in Hinput. destruct input; [eauto|done].
Qed.

(** ** Theorems *)

(** deciding and doing agree: a lane that can step is given a call by [select] (or is a join
    whose build side broke the one-batch rule), and the call given never asks for a batch that is
    not there: the slot it consumes holds one, or the call is [set_build], whose build side is then
    over. *)
Theorem can_step_agrees_with_select (l : LaneState) (cat : ExecutorCategory) (avail : Avail)
    (Hscoped : is_lane_scoped cat = true) (Hstep : can_step l cat avail = true) :
  match select l cat avail with
  | Ok c =>
      match consumes c with
      | Some slot => has avail slot = true \/ (needs_its_batch c = false /\ done_ avail slot = true)
      | None => True
      end
  | Err _ => cat = CJoin /\ awaits_build l = false /\ has avail BUILD_SLOT = true
  end.
Proof. by apply can_step_select. Qed.

(** C39: a call the lane driver selected never breaks the protocol: handed the input its slot
    holds, with that input counted in flight, a lane in any state its category allows makes the
    call without a wrong-state, missing-input or released-without-hold error, whatever the backend
    answers. *)
Theorem selected_call_keeps_protocol (site : LaneSite) (avail : Avail) (c : LaneCall)
    (input : option (Held Batch)) (range : RowRange) (s : LaneSt)
    (Hscoped : is_lane_scoped (site_category site) = true)
    (Hfits : state_fits (site_category site) (l_state s) = true)
    (Hstep : can_step (l_state s) (site_category site) avail = true)
    (Hsel : select (l_state s) (site_category site) avail = Ok c)
    (Hinput : input_offered avail c input)
    (Hheld : in_bytes_of input <= in_flight_bytes (l_acct s)) :
  not_protocol (run_lane site c input range s).1.
Proof.
  unfold run_lane. apply np_bind; [done|]. intros ? ? [= <- <-].
  pose proof Hstep as Hfin. unfold can_step in Hfin. destruct (is_finished (l_state s)); [done|].
  apply np_bind; [destruct (l_state s); try done; apply build_lane_np|]. intros [] s1 Hb.
  destruct (built_state site avail c s s1) as [Hacct Hst]; [done..|].
  pose proof (fun slot => needed_input avail _ _ _ _ slot Hscoped Hstep Hsel Hinput) as Hsome.
  rewrite <- Hacct in Hheld.
  destruct c; cbn in Hst; try (destruct Hst as [x Hst]);
    try (destruct (Hsome _ eq_refl eq_refl) as [h ->]).
  - by eapply source_step_np.
  - by eapply run_exec_np.
  - by eapply run_unload_np.
  - by eapply run_accumulate_np.
  - by eapply run_mark_done_np.
  - by eapply run_set_build_np.
  - by apply run_drop_probe_np.
  - by eapply run_probe_np.
  - by eapply run_finish_np.
  - apply run_end_of_input_np.
Qed.

(** C38: a completed call leaves the accountant exactly its outputs heavier and its input lighter,
    in bytes and in the counts of batches held and released, and the lane is over exactly when the
    call's outcome says it is. *)
Theorem lane_call_accounts_its_batches (site : LaneSite) (c : LaneCall)
    (input : option (Held Batch)) (range : RowRange) (s s' : LaneSt) (o : LaneOutcome)
    (Hinput : consumes c = None -> input = None)
    (Hrun : run_lane site c input range s = (Ok o, s')) :
  in_flight_bytes (l_acct s') + in_bytes_of input = in_flight_bytes (l_acct s) + sumN (out_bytes o)
  /\ holds (l_acct s') = (holds (l_acct s) + length (out_bytes o))%nat
  /\ releases (l_acct s') = (releases (l_acct s) + in_count input)%nat
  /\ is_finished (l_state s') = finished o.
Proof. destruct (run_lane_ran _ _ _ _ _ _ _ Hinput Hrun) as [[] ?]. done. Qed.
End LaneProtocol.

(** ** Concrete instances, on the reference backend *)
Definition demo_join_node : GpuNode :=
  match children demo_join_plan with [j] => j | _ => demo_join_plan end.
Definition demo_site : LaneSite :=
  {| site_node := demo_join_node; site_category := CJoin; site_post_order := 3; site_lane := 0;
     site_slot := {| slot_index := 0; slot_node := 1; slot_lane := 0 |} |}.
Definition demo_avail : Avail := {| has slot := Nat.eqb slot 0; done_ _ := false |}.
Definition demo_input : Held (Batch (Backend:=reference)) := {| batch := [1; 2]; bytes := 16 |}.
Definition demo_lane : LaneSt (B:=reference) :=
  {| l_world := tt; l_acct := hold (acct_new 4 None) 16; l_state := Unbuilt |}.

Lemma can_step_agrees_with_select_witness :
  can_step (B:=reference) Unbuilt CJoin demo_avail = true
  /\ match select (B:=reference) Unbuilt CJoin demo_avail with
     | Ok c =>
         match consumes c with
         | Some slot => has demo_avail slot = true
             \/ (needs_its_batch c = false /\ done_ demo_avail slot = true)
         | None => True
         end
     | Err _ => CJoin = CJoin /\ awaits_build (B:=reference) Unbuilt = false
         /\ has demo_avail BUILD_SLOT = true
     end.
Proof.
  split; [reflexivity|].
  exact (can_step_agrees_with_select (B:=reference) Unbuilt CJoin demo_avail eq_refl eq_refl).
Defined.

Lemma selected_call_keeps_protocol_witness :
  select (B:=reference) Unbuilt CJoin demo_avail = Ok LSetBuild
  /\ not_protocol (run_lane demo_site LSetBuild (Some demo_input) WHOLE demo_lane).1.
Proof.
  split; [reflexivity|].
  apply (selected_call_keeps_protocol demo_site demo_avail); try reflexivity.
  discriminate.
Defined.

Lemma lane_call_accounts_its_batches_witness :
  exists o s', run_lane demo_site LSetBuild (Some demo_input) WHOLE demo_lane = (Ok o, s')
    /\ in_flight_bytes (l_acct s') = 0
    /\ (in_flight_bytes (l_acct s') + in_bytes_of (Some demo_input)
        = in_flight_bytes (l_acct demo_lane) + sumN (out_bytes o)
      /\ holds (l_acct s') = (holds (l_acct demo_lane) + length (out_bytes o))%nat
      /\ releases (l_acct s') = (releases (l_acct demo_lane) + in_count (Some demo_input))%nat
      /\ is_finished (l_state s') = finished o).
Proof.
  eexists _, _. split; [vm_compute; reflexivity|]. split; [reflexivity|].
  apply (lane_call_accounts_its_batches demo_site LSetBuild (Some demo_input) WHOLE);
    [discriminate|vm_compute; reflexivity].
Defined.
