(* ===== verification/Claims.v ===== *)
(** * What a layout says of the lanes that carry it

    A [PartitionLayout] is a claim a node makes about its output: how many lanes, which rows are in
    which, how each batch is ordered, how many batches a lane has.  [layout_holds] is that claim
    read over lanes of batches of rows, and the lemmas here carry it through a projection, which is
    what [rebase_through_projection] ([plan/common.rs]) is for, and to the merge keys
    [check_merge_keys] accepts. *)
From stdpp Require Import strings.
From Stdlib Require Import Sorted.
From S2P Require Import Prelude Interval PlanIR PlanCommon.
Open Scope nat_scope.

Section Claims.
Context {V : Type} (null : V).
Notation Row := (list V).

(** The lane of [lanes] that a key's values are placed in, and the order of two values under a
    direction and a place for NULLs: what the engines agree on, whatever it is. *)
Context (place : nat -> list V -> nat) (value_cmp : bool -> bool -> V -> V -> comparison).

Definition key_at (ks : list nat) (row : Row) : list V := map (fun k => nth k row null) ks.

Definition placed (ks : list nat) (lanes : list (list Row)) : Prop :=
  forall i lane row, lanes !! i = Some lane -> row ∈ lane ->
  place (length lanes) (key_at ks row) = i.

Definition hash_holds (kd : KeyDistribution) (lanes : list (list Row)) : Prop :=
  match kd with KeysNotSpecified => True | ByHash ks => placed ks lanes end.

Fixpoint row_cmp (cols : list ColumnOrder) (r1 r2 : Row) : comparison :=
  match cols with
  | [] => Eq
  | c :: cols =>
      match value_cmp (ascending c) (nulls_first c) (nth (column c) r1 null) (nth (column c) r2 null) with
      | Eq => row_cmp cols r1 r2
      | other => other
      end
  end.

Definition row_le (cols : list ColumnOrder) (r1 r2 : Row) : Prop := row_cmp cols r1 r2 <> Gt.

Definition order_holds (so : SortOrder) (batch : list Row) : Prop :=
  match so with OrderNotSpecified => True | BatchSorted cols => StronglySorted (row_le cols) batch end.

Definition batches_hold (bl : BatchLayout) (lane : list (list Row)) : Prop :=
  match bl with MultipleBatches => True | SingleBatch => length lane <= 1 end.

Record layout_holds (l : PartitionLayout) (lanes : list (list (list Row))) : Prop := {
  lanes_counted : length lanes = n l;
  lanes_placed : hash_holds (key_distribution l) (map (@concat Row) lanes);
  lanes_ordered : forall lane batch, lane ∈ lanes -> batch ∈ lane -> order_holds (sort_order l) batch;
  lanes_batched : forall lane, lane ∈ lanes -> batches_hold (batch_layout l) lane }.

(** ** Keys through a map of rows *)
Definition follows (f : Row -> Row) (old new : nat) : Prop :=
  forall row, nth new (f row) null = nth old row null.

Lemma key_at_follows f olds news row :
  Forall2 (follows f) olds news -> key_at news (f row) = key_at olds row.
Proof. unfold key_at. induction 1 as [|old new olds news Hf _ IH]; [done|]. cbn. by rewrite Hf, IH. Qed.

Lemma placed_map f olds news lanes :
  Forall2 (follows f) olds news -> placed olds lanes -> placed news (map (map f) lanes).
Proof.
  intros Hf Hp i lane row Hi Hrow. rewrite length_map.
  apply map_lookup_Some in Hi as (lane' & Hi & ->).
  apply elem_of_map in Hrow as (row' & -> & Hrow). rewrite (key_at_follows f olds) by done.
  by eapply Hp.
Qed.

(** Rows that are among a lane's rows are where the lane's rows are. *)
Lemma placed_sub ks lanes lanes' :
  Forall2 (fun lane lane' => forall row, row ∈ lane' -> exists row0, row0 ∈ lane /\ key_at ks row0 = key_at ks row)
    lanes lanes' -> placed ks lanes -> placed ks lanes'.
Proof.
  intros Hsub Hp i lane' row Hi Hrow. rewrite <- (Forall2_length _ _ _ Hsub).
  destruct (Forall2_lookup_r _ _ _ _ _ Hsub Hi) as (lane & Hl & Hin).
  destruct (Hin row Hrow) as (row0 & Hrow0 & <-). by eapply Hp.
Qed.

Lemma row_cmp_follows f olds news r1 r2 :
  Forall2 (fun o n' => follows f (column o) (column n') /\ ascending n' = ascending o
                       /\ nulls_first n' = nulls_first o) olds news ->
  row_cmp news (f r1) (f r2) = row_cmp olds r1 r2.
Proof.
  induction 1 as [|o n' olds news (Hf & Ha & Hn) _ IH]; [done|]. cbn. by rewrite !Hf, Ha, Hn, IH.
Qed.

Lemma StronglySorted_map {A B} (R : B -> B -> Prop) (S : A -> A -> Prop) (f : A -> B) l :
  (forall x y, S x y -> R (f x) (f y)) -> StronglySorted S l -> StronglySorted R (map f l).
Proof.
  intros Hf. induction 1 as [|x l _ IH Hx]; cbn; constructor; [done|].
  apply Forall_map. eapply Forall_impl; [done|]. intros y. apply Hf.
Qed.

Lemma StronglySorted_weaken {A} (R S : A -> A -> Prop) l :
  (forall x y, R x y -> S x y) -> StronglySorted R l -> StronglySorted S l.
Proof. intros Hi Hl. rewrite <- (map_id l). by eapply StronglySorted_map. Qed.

Lemma StronglySorted_sublist {A} (R : A -> A -> Prop) l l' :
  sublist l' l -> StronglySorted R l -> StronglySorted R l'.
Proof.
  induction 1 as [|x l' l Hs IH|x l' l Hs IH]; intros Hl; [constructor| |];
    inversion Hl as [|? ? Hl' Hx]; subst; [|by apply IH]. constructor; [by apply IH|].
  rewrite Forall_forall in Hx |- *. intros y Hy. apply Hx. by eapply elem_of_sublist.
Qed.

(** ** A projection *)
Context (eval : Expr -> Row -> V).
Definition project (exprs : list Expr) (row : Row) : Row := map (fun e => eval e row) exprs.
Definition eval_reads_columns : Prop := forall r row, eval (Column r) row = nth (index r) row null.

Lemma position_Some {A} (p : A -> bool) l i : position p l = Some i -> exists x, l !! i = Some x /\ p x = true.
Proof.
  unfold position. destruct (list_find _ l) as [[j x]|] eqn:Hf; [|done]. intros [= <-].
  apply list_find_Some in Hf as (Hj & Hp & _). eauto.
Qed.

Lemma new_index_follows exprs old new :
  eval_reads_columns -> new_index exprs old = Some new -> follows (project exprs) old new.
Proof.
  intros He (e & Hi & Hc)%position_Some row. unfold project.
  destruct e as [r| | | | | | |]; try done. apply Nat.eqb_eq in Hc. subst old.
  rewrite <- He. apply nth_lookup_Some. apply map_lookup_Some. eauto.
Qed.

Lemma rebased_hash_holds l exprs lanes : eval_reads_columns ->
  hash_holds (key_distribution l) lanes ->
  hash_holds (key_distribution (rebase_through_projection l exprs)) (map (map (project exprs)) lanes).
Proof.
  intros He Hh. cbn. destruct (key_distribution l) as [|ks]; [done|].
  destruct (mapM (new_index exprs) ks) as [news|] eqn:Hm; [|done]. cbn in Hh |- *.
  apply (placed_map _ ks); [|done]. apply mapM_Some in Hm.
  eapply Forall2_impl; [done|]. intros old new. by apply new_index_follows.
Qed.

Lemma rebased_order_holds l exprs batch : eval_reads_columns ->
  order_holds (sort_order l) batch ->
  order_holds (sort_order (rebase_through_projection l exprs)) (map (project exprs) batch).
Proof.
  intros He Ho. cbn. destruct (sort_order l) as [|cols]; [done|].
  destruct (mapM _ cols) as [news|] eqn:Hm; [|done].
  assert (Hs : StronglySorted (row_le news) (map (project exprs) batch)).
  { eapply StronglySorted_map; [|exact Ho]. intros r1 r2. unfold row_le.
    rewrite (row_cmp_follows _ cols); [done|]. apply mapM_Some in Hm.
    eapply Forall2_impl; [done|]. intros o c Hc. cbn in Hc.
    destruct (new_index exprs (column o)) as [i|] eqn:Hi; [|done]. injection Hc as <-.
    split; [|done]. by apply new_index_follows. }
  unfold batch_sorted. by destruct news.
Qed.

(** A layout rebased through a projection says of the projected rows what the layout said of
    the rows: whatever hash or order it still claims, at the ordinals it renumbered the columns to,
    the projected lanes keep, lane for lane and batch for batch. *)
Lemma rebased_layout_holds l exprs lanes :
  eval_reads_columns -> layout_holds l lanes ->
  layout_holds (rebase_through_projection l exprs) (map (map (map (project exprs))) lanes).
Proof.
  intros He [Hn Hp Ho Hb]. split.
  - by rewrite length_map.
  - rewrite map_map, (map_ext _ (fun lane => map (project exprs) (concat lane))).
    + rewrite <- (map_map (@concat Row)). by apply rebased_hash_holds.
    + intros lane. by rewrite concat_map.
  - intros ? ? (lane & -> & Hl)%elem_of_map (batch & -> & Hb')%elem_of_map.
    apply rebased_order_holds; eauto.
  - intros ? (lane & -> & Hl)%elem_of_map. specialize (Hb lane Hl). cbn.
    destruct (batch_layout l); [|done]. cbn in *. by rewrite length_map.
Qed.

(** ** The keys of a merge *)
Lemma row_cmp_prefix keys more r1 r2 : row_cmp keys r1 r2 = Gt -> row_cmp (keys ++ more) r1 r2 = Gt.
Proof. induction keys as [|c keys IH]; [done|]. cbn. by destruct (value_cmp _ _ _ _). Qed.

Lemma key_prefix_ok node keys sorted :
  check_key_prefix node keys sorted = Ok () -> exists more, sorted = keys ++ more.
Proof.
  revert sorted. induction keys as [|k keys IH]; intros sorted Hk; [by exists sorted|].
  destruct sorted as [|s sorted]; [done|]. cbn in Hk. case_bool_decide as Hs; [|done]. subst s.
  destruct (IH sorted Hk) as [more ->]. by exists more.
Qed.

Lemma merge_keys_sorted node keys l batch :
  check_merge_keys node keys l = Ok () -> order_holds (sort_order l) batch ->
  StronglySorted (row_le keys) batch.
Proof.
  unfold check_merge_keys. destruct (sort_order l) as [|cols]; [done|].
  intros [more ->]%key_prefix_ok Hs. eapply StronglySorted_weaken; [|exact Hs].
  intros r1 r2 Hle Hgt. apply Hle. by apply row_cmp_prefix.
Qed.
End Claims.

(** Values to compute with: numbers, 0 for NULL, placed by their sum, in either direction. *)
Definition demo_place (lanes : nat) (key : list nat) : nat := sum_list key mod lanes.
Definition demo_cmp (ascending _ : bool) (a b : nat) : comparison :=
  if ascending then Nat.compare a b else Nat.compare b a.
Definition demo_eval (e : Expr) (row : list nat) : nat :=
  match e with Column r => nth (index r) row 0 | _ => 0 end.

Definition demo_layout : PartitionLayout :=
  {| n := 2; key_distribution := ByHash [1];
     sort_order := batch_sorted [{| column := 0; ascending := false; nulls_first := true |};
                                 {| column := 2; ascending := true; nulls_first := true |}];
     batch_layout := MultipleBatches |}.
Definition demo_lanes : list (list (list (list nat))) :=
  [[[[9; 4; 1]; [9; 2; 5]]; [[7; 6; 3]]]; [[[8; 5; 2]]; []]].
Definition demo_exprs : list Expr :=
  [expr_column 2 "c"; Literal {| scalar_type := Int64; scalar_value := None |}; expr_column 1 "b";
   expr_column 0 "a"].

(** A layout of two lanes holds of lanes written out. *)
Ltac layout_holds_of lanes :=
  let i := fresh in let lane := fresh in let row := fresh in let batch := fresh in
  let Hi := fresh in let Hrow := fresh in let Hl := fresh in let Hb := fresh in
  split;
  [ done
  | intros i lane row Hi Hrow; destruct i as [|[|i]]; cbn in Hi; [injection Hi as <-..|done];
    repeat (apply elem_of_cons in Hrow as [->|Hrow]; [reflexivity|]); by apply not_elem_of_nil in Hrow
  | intros lane batch Hl Hb; unfold lanes in Hl;
    repeat (apply elem_of_cons in Hl as [->|Hl];
      [repeat (apply elem_of_cons in Hb as [->|Hb];
         [repeat constructor; cbv; discriminate|]); by apply not_elem_of_nil in Hb|]);
    by apply not_elem_of_nil in Hl
  | done ].

Lemma demo_layout_holds : layout_holds 0 demo_place demo_cmp demo_layout demo_lanes.
Proof. layout_holds_of demo_lanes. Qed.
