(* ===== verification/Joins.v ===== *)
(** * The joins

    [plan/join.rs]: what each join type emits, which side's hash survives it, what its inputs must
    be, and what its session costs.  The reference semantics of the nine types ([joined], over lists
    of rows) is in JoinFacts.v. *)
From stdpp Require Import strings.
From S2P Require Import Prelude Interval PlanIR PlanCommon.
Open Scope nat_scope.

(** ** What a join type emits *)
Inductive Emits := BothSides | BuildSide | BuildSideAndMark | ProbeSide.

Definition emits (jt : JoinType) : Emits :=
  match jt with
  | Inner | Left | Right | Full => BothSides
  | LeftSemi | LeftAnti => BuildSide
  | LeftMark => BuildSideAndMark
  | RightSemi | RightAnti => ProbeSide
  end.

Definition emitted_columns (jt : JoinType) (build probe : nat) : nat :=
  match emits jt with
  | BothSides => build + probe
  | BuildSide => build
  | BuildSideAndMark => build + 1
  | ProbeSide => probe
  end.

Definition emitted_sides (jt : JoinType) : bool * bool :=
  match emits jt with
  | BothSides => (true, true)
  | BuildSide | BuildSideAndMark => (true, false)
  | ProbeSide => (false, true)
  end.

Definition unpadded_sides (jt : JoinType) : list JoinSide :=
  match jt with
  | Inner => [Build; Probe]
  | Left | LeftSemi | LeftAnti | LeftMark => [Build]
  | Right | RightSemi | RightAnti => [Probe]
  | Full => []
  end.

Definition needs_finish (jt : JoinType) : bool :=
  match jt with
  | Left | Full | LeftSemi | LeftAnti | LeftMark => true
  | Inner | Right | RightSemi | RightAnti => false
  end.

Definition null_key_droppable (jt : JoinType) : bool * bool :=
  match jt with
  | Inner | LeftSemi | RightSemi => (true, true)
  | Left | LeftAnti | LeftMark => (false, true)
  | Right | RightAnti => (true, false)
  | Full => (false, false)
  end.

Definition empty_build_owes_nothing (jt : JoinType) : bool :=
  match jt with
  | Inner | Left | LeftSemi | LeftAnti | LeftMark | RightSemi => true
  | Right | Full | RightAnti => false
  end.

(** ** The distribution the output carries *)
Definition emitted_ordinal (jt : JoinType) (side : JoinSide) (ordinal build_width : nat) : option nat :=
  match emits jt, side with
  | BothSides, Build => Some ordinal
  | BothSides, Probe => Some (build_width + ordinal)
  | BuildSide, Build | BuildSideAndMark, Build => Some ordinal
  | ProbeSide, Probe => Some ordinal
  | BuildSide, Probe | BuildSideAndMark, Probe | ProbeSide, Build => None
  end.

Definition output_ordinal (jt : JoinType) (side : JoinSide) (ordinal build_width : nat)
    (projection : option (list nat)) : option nat :=
  emitted ← emitted_ordinal jt side ordinal build_width;
  match projection with
  | Some columns => position (fun column => column =? emitted) columns
  | None => Some emitted
  end.

Definition side_keys (keys : list (nat * nat)) (side : JoinSide) : list nat :=
  match side with Build => map fst keys | Probe => map snd keys end.

Definition carries_hash (keys : list (nat * nat)) (build probe : PartitionLayout)
    (side : JoinSide) : bool :=
  let layout := match side with Build => build | Probe => probe end in
  bool_decide (key_distribution layout = ByHash (side_keys keys side)).

Definition joined_key_distribution (jt : JoinType) (keys : list (nat * nat))
    (build probe : PartitionLayout) (build_width : nat) (projection : option (list nat)) :
    KeyDistribution :=
  match unpadded_sides jt with
  | [] => KeysNotSpecified
  | sides =>
      if negb (forallb (carries_hash keys build probe) sides) then KeysNotSpecified
      else match head (omap (fun side =>
               mapM (fun ordinal => output_ordinal jt side ordinal build_width projection)
                 (side_keys keys side)) sides) with
           | Some hash_keys => ByHash hash_keys
           | None => KeysNotSpecified
           end
  end.

Definition joined_layout : PartitionLayout :=
  {| n := 1; key_distribution := KeysNotSpecified; sort_order := OrderNotSpecified;
     batch_layout := MultipleBatches |}.

(** ** What the inputs must be *)
Definition check_keys (keys : list (nat * nat)) (build probe : Schema) : PlanResult () :=
  ensure (negb (bool_decide (keys = [])))
    (Invalid "GpuHashJoin: an equi-join with no keys is a cross join") ≫= fun _ =>
  for_each (fun '(schema, ordinals) =>
    for_each (fun ordinal => ensure (ordinal <? length (fields schema))
      (Invalid "GpuHashJoin: a key is past the columns that side has")) ordinals)
    [(build, map fst keys); (probe, map snd keys)].

Definition check_projection (node : string) (jt : JoinType) (projection : option (list nat))
    (build probe : Schema) : PlanResult () :=
  let width := emitted_columns jt (length (fields build)) (length (fields probe)) in
  for_each (fun ordinal => ensure (ordinal <? width)
    (Invalid (node +:+ ": a projected column is past those the join emits")))
    (default [] projection).

Definition check_join_inputs (node : string) (build probe : GpuNode) : PlanResult () :=
  let build_layout := input_layout build in
  let probe_layout := input_layout probe in
  ensure ((n build_layout =? 1) && (n probe_layout =? 1))
    (Invalid (node +:+ ": with no key to co-locate on both inputs must be one lane"))
  ≫= fun _ =>
  ensure (bool_decide (batch_layout build_layout = SingleBatch))
    (Invalid (node +:+ ": its build side must be one batch")).

(** The references of an expression, in the order the source pushes them. *)
Fixpoint collect_column_refs (e : Expr) : list ColumnRef :=
  match e with
  | Column r => [r]
  | Literal _ => []
  | BinaryE l _ r _ => collect_column_refs l ++ collect_column_refs r
  | UnaryE _ a => collect_column_refs a
  | Cast a _ => collect_column_refs a
  | Like a p _ _ => collect_column_refs a ++ collect_column_refs p
  | Case c wts el =>
      match c with Some a => collect_column_refs a | None => [] end
      ++ match el with Some a => collect_column_refs a | None => [] end
      ++ concat (map (fun '(w, t) => collect_column_refs w ++ collect_column_refs t) wts)
  | ScalarFunction _ args _ _ => concat (map collect_column_refs args)
  end.

Definition check_filter_ref (node : string) (columns : list JoinFilterColumn) (build probe : Schema)
    (reference : ColumnRef) : PlanResult () :=
  mapped ← ok_or (columns !! index reference)
             (Invalid (node +:+ ": filter column " +:+ ref_name reference
                       +:+ " is past those its map has"));
  let source := match side mapped with Build => build | Probe => probe end in
  field ← ok_or (fields source !! filter_index mapped)
            (Invalid (node +:+ ": filter column " +:+ ref_name reference
                      +:+ " maps past its side's columns"));
  ensure (bool_decide (field_name field = ref_name reference))
    (Invalid (node +:+ ": filter column " +:+ ref_name reference +:+ " maps to "
              +:+ field_name field)).

Definition check_filter_columns (node : string) (filter : Expr) (columns : list JoinFilterColumn)
    (build probe : Schema) : PlanResult () :=
  check_expr_types filter node ≫= fun _ =>
  for_each (check_filter_ref node columns build probe) (collect_column_refs filter).

Definition hashed_on (layout : PartitionLayout) (keys : list nat) : bool :=
  bool_decide (key_distribution layout = ByHash keys).

Definition validate_hash_join (jt : JoinType) (keys : list (nat * nat)) (filter : option Expr)
    (filter_columns : list JoinFilterColumn) (projection : option (list nat))
    (build probe : GpuNode) : PlanResult () :=
  let bl := input_layout build in
  let pl := input_layout probe in
  ensure (n bl =? n pl)
    (Invalid "GpuHashJoin: the sides carry different lane counts") ≫= fun _ =>
  ensure (negb ((1 <? n bl)
                && (negb (hashed_on bl (map fst keys)) || negb (hashed_on pl (map snd keys)))))
    (Invalid "GpuHashJoin: several lanes are co-partitioned only if both sides were hashed on the join keys, in key order")
  ≫= fun _ =>
  ensure (bool_decide (batch_layout bl = SingleBatch))
    (Invalid "GpuHashJoin: its build side must be one batch per lane") ≫= fun _ =>
  match filter with
  | Some filter =>
      check_filter_columns "GpuHashJoin" filter filter_columns (input_schema build)
        (input_schema probe)
  | None => Ok ()
  end ≫= fun _ =>
  check_keys keys (input_schema build) (input_schema probe) ≫= fun _ =>
  check_projection "GpuHashJoin" jt projection (input_schema build) (input_schema probe).

Definition validate_cross_join (projection : option (list nat)) (build probe : GpuNode) :
    PlanResult () :=
  check_join_inputs "GpuCrossJoin" build probe ≫= fun _ =>
  check_projection "GpuCrossJoin" Inner projection (input_schema build) (input_schema probe).

Definition validate_nested_loop_join (jt : JoinType) (filter : Expr)
    (filter_columns : list JoinFilterColumn) (projection : option (list nat))
    (build probe : GpuNode) : PlanResult () :=
  check_join_inputs "GpuNestedLoopJoin" build probe ≫= fun _ =>
  check_filter_columns "GpuNestedLoopJoin" filter filter_columns (input_schema build)
    (input_schema probe) ≫= fun _ =>
  check_projection "GpuNestedLoopJoin" jt projection (input_schema build) (input_schema probe).

(** ** Construction *)
Definition new_hash_join (build probe : GpuNode) (jt : JoinType) (keys : list (nat * nat))
    (filter : option Expr) (filter_columns : list JoinFilterColumn) (null_equals_null : bool)
    (projection : option (list nat)) (schema : Schema) : GpuNode :=
  let bl := input_layout build in
  let pl := input_layout probe in
  let layout :=
    {| n := n pl;
       key_distribution := joined_key_distribution jt keys bl pl
                             (length (fields (input_schema build))) projection;
       sort_order := OrderNotSpecified; batch_layout := MultipleBatches |} in
  GpuHashJoin (Intermediate layout schema) jt keys filter filter_columns null_equals_null
    projection build probe.

Definition new_cross_join (build probe : GpuNode) (projection : option (list nat))
    (schema : Schema) : GpuNode :=
  GpuCrossJoin (Intermediate joined_layout schema) projection build probe.

Definition new_nested_loop_join (build probe : GpuNode) (jt : JoinType) (filter : Expr)
    (filter_columns : list JoinFilterColumn) (projection : option (list nat)) (schema : Schema) :
    GpuNode :=
  GpuNestedLoopJoin (Intermediate joined_layout schema) jt filter filter_columns projection build
    probe.

(** ** What a session costs *)
Fixpoint conjuncts_of (e : Expr) : list Expr :=
  match e with
  | BinaryE l And r _ => conjuncts_of l ++ conjuncts_of r
  | other => [other]
  end.

(** [DataType::primitive_width]: [None] for the types that are not primitive. *)
Definition primitive_width (t : DataType) : option N :=
  match t with
  | Int8 | UInt8 => Some 1%N
  | Int16 | UInt16 | Float16 => Some 2%N
  | Int32 | UInt32 | Float32 | Date32 | Time32 _ | IntervalOf YearMonth => Some 4%N
  | Int64 | UInt64 | Float64 | Timestamp _ _ | Date64 | Time64 _ | Duration _
  | IntervalOf DayTime => Some 8%N
  | IntervalOf MonthDayNano => Some 16%N
  | Decimal128 _ _ => Some 16%N
  | Decimal256 _ _ => Some 32%N
  | _ => None
  end.

Definition width_on_device (t : DataType) : N :=
  match t with Boolean => 1%N | other => default 16%N (primitive_width other) end.

(** [iter().any(f)], stopping at the first hit; [None] is [f]'s panic where it is reached. *)
Fixpoint any_panicking {A} (f : A -> option bool) (l : list A) : option bool :=
  match l with
  | [] => Some false
  | x :: l => b ← f x; if b : bool then Some true else any_panicking f l
  end.

(** A conjunct that reads both sides of the join, or neither. A reference past the map is the index
    panic, which a validated join does not reach. *)
Definition conjunct_crosses (filter_columns : list JoinFilterColumn) (conjunct : Expr) : option bool :=
  let reads (s : JoinSide) := any_panicking
    (fun r => (fun c => bool_decide (side c = s)) <$> filter_columns !! index r)
    (collect_column_refs conjunct) in
  build ← reads Build; probe ← reads Probe; Some (Bool.eqb build probe).

Definition distinct_key_width (jt : JoinType) (keys : list (nat * nat)) (filter : option Expr)
    (filter_columns : list JoinFilterColumn) (build probe : GpuNode) : option N :=
  let width (side : GpuNode) (ordinals : list nat) : option N :=
    crosses ← any_panicking (conjunct_crosses filter_columns)
                (match filter with Some f => conjuncts_of f | None => [] end);
    if crosses : bool then Some 0%N
    else sumN <$> mapM (fun ordinal => (fun f => width_on_device (data_type f))
                          <$> fields (input_schema side) !! ordinal) ordinals in
  match jt with
  | RightSemi | RightAnti => width build (map fst keys)
  | LeftSemi | LeftAnti | LeftMark => width probe (map snd keys)
  | Inner | Left | Right | Full => Some 0%N
  end.

Definition HASH_TABLE_BYTES_PER_ROW : N := 16.

(** [u64] products and sums, wrapping. *)
Definition session_bytes (jt : JoinType) (keyed : bool) (distinct_key_width rows : N) : N :=
  let table := if keyed then ((HASH_TABLE_BYTES_PER_ROW * rows) mod u64_modulus)%N else 0%N in
  let distinct_keys := match jt with
                       | RightSemi | RightAnti => ((distinct_key_width * rows) mod u64_modulus)%N
                       | _ => 0%N
                       end in
  let matched := if needs_finish jt then rows else 0%N in
  wrapping_add (wrapping_add table distinct_keys) matched.
