(* ===== verification/Aggregates.v ===== *)
(** * The aggregates

    [plan/aggregates.rs]: the vocabulary and the decomposition of each SQL aggregate into the
    aggregators that build its state, those that merge it and the expression that finishes it.
    [plan/aggregate.rs]: the two aggregate nodes, what each requires of its input and the hash its
    output still carries.  DataFusion's typed NULL of a type is a parameter. *)
From stdpp Require Import strings.
From Stdlib Require Import QArith.
From S2P Require Import Prelude Interval PlanIR PlanCommon.
Open Scope nat_scope.

(** ** The vocabulary *)
Definition tag (agg : PlanAgg) : string :=
  match agg with
  | PSum => "sum" | PMin => "min" | PMax => "max" | PCount => "count" | PMean => "mean"
  | PM2 => "m2" | PMergeM2 => "merge_m2"
  end.

Definition resolve (name : string) : PlanResult AggSpec :=
  let spec f d := Ok {| spec_func := f; spec_ddof := d |} in
  if decide (name = "sum"%string) then spec Sum 0
  else if decide (name = "min"%string) then spec Min 0
  else if decide (name = "max"%string) then spec Max 0
  else if decide (name = "count"%string) then spec Count 0
  else if decide (name = "avg"%string) then spec Avg 0
  else if decide (name ∈ ["stddev"; "stddev_samp"]%string) then spec Stddev 1
  else if decide (name = "stddev_pop"%string) then spec Stddev 0
  else if decide (name ∈ ["var"; "var_samp"; "variance"]%string) then spec Var 1
  else if decide (name = "var_pop"%string) then spec Var 0
  else Err (Unsupported ("aggregate " +:+ name +:+ ": no decomposition (#161)")).

Definition WELFORD : Decomposition :=
  {| state := [("$count", PCount); ("$mean", PMean); ("$m2", PM2)]%string;
     merge := Combined PMergeM2 |}.

Definition decomposition (func : AggFunc) : Decomposition :=
  match func with
  | Sum => {| state := [(""%string, PSum)]; merge := PerColumn [PSum] |}
  | Min => {| state := [(""%string, PMin)]; merge := PerColumn [PMin] |}
  | Max => {| state := [(""%string, PMax)]; merge := PerColumn [PMax] |}
  | Count => {| state := [(""%string, PCount)]; merge := PerColumn [PSum] |}
  | Avg => {| state := [("$sum", PSum); ("$count", PCount)]%string; merge := PerColumn [PSum; PSum] |}
  | Stddev | Var => WELFORD
  end.

Definition is_signed_integer (t : DataType) : bool :=
  match t with Int8 | Int16 | Int32 | Int64 => true | _ => false end.
Definition is_unsigned_integer (t : DataType) : bool :=
  match t with UInt8 | UInt16 | UInt32 | UInt64 => true | _ => false end.
Definition is_floating (t : DataType) : bool :=
  match t with Float16 | Float32 | Float64 => true | _ => false end.

(** [None] is the [unreachable!] arm. *)
Definition state_type (agg : PlanAgg) (input : DataType) : option (PlanResult DataType) :=
  match agg with
  | PSum => Some match input with
            | Decimal128 p s => Ok (Decimal128 (Nat.min (p + 10) 38) s)
            | t => if is_signed_integer t then Ok Int64
                   else if is_unsigned_integer t then Ok UInt64
                   else if is_floating t then Ok Float64
                   else Err (Unsupported "sum over a type it does not add")
            end
  | PMin | PMax => Some (Ok input)
  | PCount => Some (Ok Int64)
  | PMean | PM2 => Some (Ok Float64)
  | PMergeM2 => None
  end.

Section Typed.
(** [ScalarValue::try_from(&DataType)]. *)
Context (null_scalar : DataType -> result string ScalarValue).

Definition int64 (z : Z) : ScalarValue := {| scalar_type := Int64; scalar_value := Some (DInt z) |}.
Definition float64 (q : Q) : ScalarValue := {| scalar_type := Float64; scalar_value := Some (DFloat q) |}.

Definition empty_state (agg : PlanAgg) (input : DataType) : option (PlanResult ScalarValue) :=
  match agg with
  | PCount => Some (Ok (int64 0))
  | PMean | PM2 => Some (Ok (float64 0))
  | PSum | PMin | PMax =>
      st ← state_type agg input;
      Some (st ← st;
            map_err (fun e => Unsupported (tag agg +:+ ": no typed NULL of its state: " +:+ e))
              (null_scalar st))
  | PMergeM2 => None
  end.

(** A whole number in the type an aggregate declares it outputs; [None] is the panic on a type that
    is not a float. *)
Definition number_of (t : DataType) (value : Q) : option ScalarValue :=
  match t with
  | Float64 => Some {| scalar_type := Float64; scalar_value := Some (DFloat value) |}
  | Float32 => Some {| scalar_type := Float32; scalar_value := Some (DFloat value) |}
  | _ => None
  end.

(** [None] is the [expect]. *)
Definition null_of (t : DataType) : option ScalarValue :=
  match null_scalar t with Ok v => Some v | Err _ => None end.

Definition state_column (state_ : list Field) (state_at offset : nat) : option Expr :=
  (fun f => expr_column (state_at + offset) (field_name f)) <$> state_ !! offset.

Definition finalize_expr (spec : AggSpec) (state_ : list Field) (state_at : nat) (out_type : DataType) :
    option Expr :=
  let column := state_column state_ state_at in
  match spec_func spec with
  | Sum | Min | Max | Count => column 0
  | Avg =>
      c0 ← column 0; c1 ← column 1;
      Some match out_type with
           | Decimal128 p _ =>
               Cast (BinaryE c0 Divide (Cast c1 (Decimal128 p 0)) out_type) out_type
           | other => BinaryE (Cast c0 other) Divide (Cast c1 other) other
           end
  | Stddev | Var =>
      c0 ← column 0;
      ddof ← number_of out_type (inject_Z (Z.of_nat (spec_ddof spec)));
      let denominator := BinaryE (Cast c0 out_type) Minus (Literal ddof) out_type in
      c2 ← column 2;
      let quotient := BinaryE c2 Divide denominator out_type in
      let value := match spec_func spec with Stddev => UnaryE Sqrt quotient | _ => quotient end in
      zero ← number_of out_type 0%Q;
      null ← null_of out_type;
      Some (Case None [(BinaryE denominator LtEq (Literal zero) Boolean, Literal null)] (Some value))
  end.
End Typed.

(** ** The bodies of the aggregate nodes *)
Definition validate_body (body : AggregateBody) (node : string) (input intermediate : Schema) :
    PlanResult () :=
  for_each (fun key => check_column_refs key input node) (group_by body) ≫= fun _ =>
  for_each (fun null => check_expr_types null node) (null_exprs body) ≫= fun _ =>
  for_each (fun call => for_each (fun arg => check_column_refs arg input node) (call_args call))
    (aggs body) ≫= fun _ =>
  for_each (fun column => check_column_refs (expr column) intermediate node)
    (default [] (finalize body)).

Definition key_width (body : AggregateBody) : nat :=
  length (group_by body) + (if bool_decide (grouping_sets body = []) then 0 else 1).

(** *** Which aggregate a state column belongs to *)
Record StateFunc :=
  { sf_name : string; sf_call : AggCall; sf_alias : string; sf_state_names : list string;
    sf_ddof : nat }.

Definition sql_name (func : AggFunc) (ddof : nat) : string :=
  match func, ddof with
  | Stddev, 0 => "stddev_pop"
  | Stddev, _ => "stddev"
  | Var, 0 => "var_pop"
  | Var, _ => "var"
  | Sum, _ => "sum"
  | Min, _ => "min"
  | Max, _ => "max"
  | Count, _ => "count"
  | Avg, _ => "avg"
  end.

Definition agg_name (agg : PlanAgg) : PlanResult string :=
  match agg with
  | PSum | PMin | PMax | PCount | PMean => Ok (tag agg)
  | PM2 => Err (Unsupported "m2 alone has no name on the wire")
  | PMergeM2 => Err (Unsupported "merge_m2 alone has no name on the wire either")
  end.

(** The aggregator owning each state column after the keys. *)
Definition column_owners (calls : list AggCall) : list nat :=
  concat (imap (fun position call => replicate (Nat.max 1 (length (outputs call))) position) calls).

Definition is_welford (columns : AggStateColumns) : bool :=
  match agg_func columns with Stddev | Var => true | _ => false end.

Definition claim_column (owners : list nat) (group_width : nat) (columns : AggStateColumns)
    (per_agg : list (option AggStateColumns)) (position : nat) : list (option AggStateColumns) :=
  if position <? group_width then per_agg
  else match owners !! (position - group_width) with
       | Some agg => <[agg := Some columns]> per_agg
       | None => per_agg
       end.

Definition welford_owners (body : AggregateBody) (state_ : Schema) : list (option AggStateColumns) :=
  let owners := column_owners (aggs body) in
  foldl (fun per_agg columns =>
    if is_welford columns
    then foldl (claim_column owners (key_width body) columns) per_agg (positions columns)
    else per_agg) (replicate (length (aggs body)) None) (agg_state state_).

Definition owner_at (welford : list (option AggStateColumns)) (position : nat) :
    option AggStateColumns := mjoin (welford !! position).

(** Every column the triple folds, in state order. *)
Definition triple_names (welford : list (option AggStateColumns)) (calls : list AggCall)
    (out : string) : list string :=
  concat (imap (fun at_ call =>
    match owner_at welford at_ with
    | Some other => if bool_decide (output other = out) then map field_name (outputs call) else []
    | None => []
    end) calls).

Fixpoint state_funcs_from (welford : list (option AggStateColumns)) (calls : list AggCall)
    (position : nat) (rest : list AggCall) (funcs : list StateFunc) : PlanResult (list StateFunc) :=
  match rest with
  | [] => Ok funcs
  | call :: rest =>
      func ← match owner_at welford position with
             | Some owner =>
                 if existsb (fun f => bool_decide (sf_alias f = output owner)) funcs then Ok None
                 else Ok (Some {| sf_name := sql_name (agg_func owner) (agg_ddof owner);
                                  sf_call := call; sf_alias := output owner;
                                  sf_state_names := triple_names welford calls (output owner);
                                  sf_ddof := agg_ddof owner |})
             | None =>
                 let names := map field_name (outputs call) in
                 name ← agg_name (call_func call);
                 Ok (Some {| sf_name := name; sf_call := call; sf_alias := default "" (head names);
                             sf_state_names := names; sf_ddof := 0 |})
             end;
      state_funcs_from welford calls (S position) rest (funcs ++ option_list func)
  end.

Definition state_funcs (body : AggregateBody) (state_ : Schema) : PlanResult (list StateFunc) :=
  state_funcs_from (welford_owners body state_) (aggs body) 0 (aggs body) [].

(** *** The finalize as a project.  [None] is a failed [expect]. *)
Definition name_at (schema : Schema) (ordinal : nat) : option string :=
  field_name <$> fields schema !! ordinal.

Fixpoint key_columns (state_ output : Schema) (ordinals : list nat) :
    option (PlanResult (list NamedExpr)) :=
  match ordinals with
  | [] => Some (Ok [])
  | ordinal :: ordinals =>
      name ← name_at state_ ordinal;
      declared_name ← name_at output ordinal;
      if bool_decide (name <> declared_name)
      then Some (Err (Invalid ("the finalized output names a key column " +:+ declared_name
                               +:+ " and the state names it " +:+ name)))
      else rest ← key_columns state_ output ordinals;
           Some (rest ← rest;
                 Ok ({| expr := expr_column ordinal name; expr_name := declared_name |} :: rest))
  end.

Fixpoint finished_columns (output : Schema) (at_ : nat) (finalize : list NamedExpr) :
    option (list NamedExpr) :=
  match finalize with
  | [] => Some []
  | column :: finalize =>
      name ← name_at output at_;
      rest ← finished_columns output (S at_) finalize;
      Some ({| expr := expr column; expr_name := name |} :: rest)
  end.

Definition finalize_columns (body : AggregateBody) (state_ output : Schema) :
    option (PlanResult (list NamedExpr)) :=
  finalize ← finalize body;
  let keys := key_width body in
  if negb (keys + length finalize =? length (fields output))
  then Some (Err (Invalid "an aggregate's keys and finalized columns are not its output columns"))
  else key_cols ← key_columns state_ output (seq 0 keys);
       match key_cols with
       | Err e => Some (Err e)
       | Ok key_cols =>
           done_cols ← finished_columns output keys finalize;
           Some (Ok (key_cols ++ done_cols))
       end.

(** ** What a merge checks of the state it was given *)
Definition reads (call : AggCall) : list nat :=
  omap (fun arg => match arg with Column r => Some (index r) | _ => None end) (call_args call).

Definition find_reading (calls : list AggCall) (columns : list nat) : option AggCall :=
  List.find (fun call => bool_decide (reads call = columns)) calls.

Definition check_merged_by (calls : list AggCall) (columns : list nat) (func : PlanAgg)
    (out : string) : PlanResult () :=
  merged ← ok_or (find_reading calls columns)
             (Invalid ("GpuAggregateBatches: nothing merges the columns its input declares as "
                       +:+ out +:+ " state"));
  ensure (bool_decide (call_func merged = func))
    (Invalid ("GpuAggregateBatches: " +:+ out +:+ " state is merged by " +:+ tag (call_func merged)
              +:+ " rather than " +:+ tag func)).

Definition check_state (calls : list AggCall) (st : AggStateColumns) : PlanResult () :=
  match merge (decomposition (agg_func st)) with
  | PerColumn funcs =>
      ensure (length funcs =? length (positions st))
        (Invalid ("GpuAggregateBatches: " +:+ output st
                  +:+ " declares other state columns than its decomposition merges")) ≫= fun _ =>
      for_each (fun '(func, position) => check_merged_by calls [position] func (output st))
        (zip funcs (positions st))
  | Combined func => check_merged_by calls (positions st) func (output st)
  end.

Definition check_merges_the_state_it_was_given (body : AggregateBody) (input : Schema) :
    PlanResult () := for_each (check_state (aggs body)) (agg_state input).

Definition grouped_columns (body : AggregateBody) : list nat :=
  omap (fun key => match key with Column r => Some (index r) | _ => None end) (group_by body).

Definition validate_aggregate (body : AggregateBody) (intermediate : Schema) (input : GpuNode) :
    PlanResult () := validate_body body "GpuAggregate" (input_schema input) intermediate.

Definition validate_aggregate_batches (body : AggregateBody) (intermediate : Schema)
    (input : GpuNode) : PlanResult () :=
  validate_body body "GpuAggregateBatches" (input_schema input) intermediate ≫= fun _ =>
  check_merges_the_state_it_was_given body (input_schema input) ≫= fun _ =>
  ensure (negb (bool_decide (is_Some (finalize body)) && (1 <? n (input_layout input))
                && negb (is_subset_of (key_distribution (input_layout input)) (grouped_columns body))))
    (Invalid "GpuAggregateBatches: a finalizing merge over several lanes needs its input hashed on a subset of its group columns").

(** ** The hash an aggregate's output carries *)
Definition is_excluded (sets : list (list bool)) (position : nat) : bool :=
  existsb (fun mask => default true (mask !! position)) sets.

Definition regrouped_key (body : AggregateBody) (key : nat) : option nat :=
  at_ ← position (is_column key) (group_by body);
  if is_excluded (grouping_sets body) at_ then None else Some at_.

Definition regrouped_key_distribution (layout : PartitionLayout) (body : AggregateBody) :
    KeyDistribution :=
  match key_distribution layout with
  | KeysNotSpecified => KeysNotSpecified
  | ByHash hash_keys =>
      match mapM (regrouped_key body) hash_keys with
      | Some hash_keys => ByHash hash_keys
      | None => KeysNotSpecified
      end
  end.

Definition new_aggregate (input : GpuNode) (body : AggregateBody) (intermediate schema : Schema) :
    GpuNode :=
  let layout := input_layout input in
  GpuAggregate
    (Intermediate {| n := n layout; key_distribution := regrouped_key_distribution layout body;
                     sort_order := OrderNotSpecified; batch_layout := batch_layout layout |} schema)
    body intermediate input.

Definition new_aggregate_batches (input : GpuNode) (body : AggregateBody)
    (intermediate schema : Schema) : GpuNode :=
  let layout := input_layout input in
  GpuAggregateBatches
    (Intermediate {| n := n layout; key_distribution := regrouped_key_distribution layout body;
                     sort_order := OrderNotSpecified; batch_layout := SingleBatch |} schema)
    body intermediate input.
