(* ===== verification/Validate.v ===== *)
(** * Validating a tree

    [plan/validate.rs]: each node against its children ([validate_node], the dispatch of
    [validate_schemas_and_partitions]), then against itself, over the whole tree, and the
    canonical-form rule the driver asks for before it runs anything. *)
From stdpp Require Import strings.
From S2P Require Import Prelude Interval PlanIR PlanCommon PlanNodes Joins Aggregates.
Open Scope nat_scope.

Definition is_sink (k : NodeKind) : bool := match k with Sink => true | _ => false end.

(** ** The canonical form *)
Definition limit_positions : GpuNode -> bool -> PlanResult () :=
  fold_node (fun node kids parent_is_sink =>
    ensure (negb (bool_decide (is_Some (row_interval node)) && parent_is_sink))
      (Invalid (node_name node +:+ ": a limit feeding only the sink is not a node")) ≫= fun _ =>
    for_each (fun kid => kid (is_sink (kind node))) kids).

Definition check_canonical_form (root : GpuNode) : PlanResult () := limit_positions root false.

(** ** A node against its children *)
Definition validate_node (node : GpuNode) : PlanResult () :=
  match node with
  | GpuLoadParquet k table _ projection groups survivors _ =>
      validate_load_parquet k table projection groups survivors
  | GpuEmpty _ => Ok ()
  | GpuFilter _ predicate _ input => validate_filter predicate input
  | GpuProject _ exprs input => validate_project exprs input
  | GpuSort _ keys _ input => validate_sort keys input
  | GpuCoalesceAllBatches _ _ => Ok ()
  | GpuAccumulateBatchesAndSort _ keys _ input =>
      check_merge_keys "GpuAccumulateBatchesAndSort" keys (input_layout input)
  | GpuLimit _ _ input => validate_limit input
  | GpuAggregate _ body intermediate input => validate_aggregate body intermediate input
  | GpuAggregateBatches _ body intermediate input =>
      validate_aggregate_batches body intermediate input
  | GpuHashJoin _ jt keys filter columns _ projection build probe =>
      validate_hash_join jt keys filter columns projection build probe
  | GpuCrossJoin _ projection build probe => validate_cross_join projection build probe
  | GpuNestedLoopJoin _ jt filter columns projection build probe =>
      validate_nested_loop_join jt filter columns projection build probe
  | GpuMergePartitions _ _ => Ok ()
  | GpuEmitPartitions _ hash_keys input => validate_emit hash_keys input
  | GpuMergeSortedPartitions _ keys _ input =>
      check_merge_keys "GpuMergeSortedPartitions" keys (input_layout input)
  | GpuUnion k branches => check_branch_schemas "GpuUnion" (kind_schema k) branches
  | GpuInterleave k branches => validate_interleave k branches
  | GpuUnload _ interval input => validate_unload interval input
  end.

(** ** A node against itself *)
Definition declares_a_column (node : GpuNode) : PlanResult () :=
  match kind_schema (kind node) with
  | Some schema =>
      ensure (negb (length (fields schema) =? 0))
        (Invalid (node_name node +:+ ": it declares no column"))
  | None => Ok ()
  end.

Definition check_ordinal (node : string) (columns : nat) (what : string) (ordinal : nat) :
    PlanResult () :=
  ensure (ordinal <? columns) (Invalid (node +:+ ": " +:+ what +:+ " is past the columns it emits")).

(** [AggStateColumns::positions] against the columns the node emits. *)
Definition annotated_state (node : string) (schema : Schema) : PlanResult () :=
  let columns := length (fields schema) in
  for_each (fun st =>
    ensure (negb (bool_decide (positions st = [])))
      (Invalid (node +:+ ": " +:+ output st +:+ " declares aggregate state in no column")) ≫= fun _ =>
    for_each (check_ordinal node columns (output st +:+ " state")) (positions st) ≫= fun _ =>
    ensure (negb (existsb (fun p => bool_decide (p ∈ group_keys schema)) (positions st)))
      (Invalid (node +:+ ": " +:+ output st
                +:+ " declares its state in a column that is also a group key")))
    (agg_state schema).

Definition structural (node : GpuNode) : PlanResult () :=
  let name := node_name node in
  for_each (fun child =>
    ensure (negb (is_sink (kind child)))
      (Invalid (name +:+ ": its input is a " +:+ node_name child
                +:+ ", whose output has already crossed to the host"))) (children node) ≫= fun _ =>
  match kind node, bool_decide (children node = []) with
  | SourceKind _ _, false => Err (Invalid (name +:+ ": a source reads a table, so it takes no input"))
  | Intermediate _ _, true => Err (Invalid (name +:+ ": nothing produces the rows it declares"))
  | _, _ => Ok ()
  end ≫= fun _ =>
  match kind node with
  | SourceKind layout schema | Intermediate layout schema =>
      let columns := length (fields schema) in
      ensure (negb (n layout =? 0))
        (Invalid (name +:+ ": no lanes, so it declares rows nothing can read")) ≫= fun _ =>
      match key_distribution layout with
      | ByHash hash_keys => for_each (check_ordinal name columns "hash key") hash_keys
      | KeysNotSpecified => Ok ()
      end ≫= fun _ =>
      match sort_order layout with
      | BatchSorted orders =>
          for_each (fun order => check_ordinal name columns "sort key" (column order)) orders
      | OrderNotSpecified => Ok ()
      end ≫= fun _ =>
      for_each (check_ordinal name columns "group key") (group_keys schema) ≫= fun _ =>
      annotated_state name schema
  | Sink => Ok ()
  end.

Definition width_of (input : GpuNode) : nat := length (fields (input_schema input)).

Definition aggregate_width (body : AggregateBody) : nat :=
  let keys := length (group_by body) + (if bool_decide (grouping_sets body = []) then 0 else 1) in
  match finalize body with
  | Some finalize => keys + length finalize
  | None => keys + sum_list (map (fun call => length (outputs call)) (aggs body))
  end.

(** What a node's parameters produce, [None] where it emits its input's columns. *)
Definition produced_width (node : GpuNode) : option nat :=
  match node with
  | GpuLoadParquet _ _ _ projection _ _ _ =>
      Some (if rows_only projection then 1 else length projection)
  | GpuProject _ exprs _ => Some (length exprs)
  | GpuFilter _ _ projection input =>
      Some match projection with Some columns => length columns | None => width_of input end
  | GpuHashJoin _ jt _ _ _ _ projection build probe
  | GpuNestedLoopJoin _ jt _ _ projection build probe =>
      Some match projection with
           | Some columns => length columns
           | None => emitted_columns jt (width_of build) (width_of probe)
           end
  | GpuCrossJoin _ projection build probe =>
      Some match projection with
           | Some columns => length columns
           | None => width_of build + width_of probe
           end
  | GpuAggregate _ body _ _ | GpuAggregateBatches _ body _ _ => Some (aggregate_width body)
  | _ => None
  end.

Definition declared_width (node : GpuNode) : PlanResult () :=
  match kind_schema (kind node), produced_width node with
  | Some schema, Some emitted =>
      ensure (length (fields schema) =? emitted)
        (Invalid (node_name node +:+ ": it declares other columns than its parameters produce"))
  | _, _ => Ok ()
  end.

Definition device_holdable_columns (node what : string) (schema : Schema) : PlanResult () :=
  for_each (fun field =>
    match unholdable (data_type field) with
    | Some why => Err (Invalid (node +:+ ": " +:+ what +:+ " " +:+ field_name field +:+ " is " +:+ why))
    | None => Ok ()
    end) (fields schema).

Definition device_holdable_types (node : GpuNode) : PlanResult () :=
  match kind_schema (kind node) with
  | None => Ok ()
  | Some schema =>
      device_holdable_columns (node_name node) "column" schema ≫= fun _ =>
      match node with
      | GpuAggregate _ _ intermediate _ | GpuAggregateBatches _ _ intermediate _ =>
          device_holdable_columns (node_name node) "intermediate column" intermediate
      | _ => Ok ()
      end
  end.

(** The input whose columns a node carries unchanged. *)
Definition carried (node : GpuNode) : option GpuNode :=
  match node with
  | GpuSort _ _ _ i | GpuCoalesceAllBatches _ i | GpuAccumulateBatchesAndSort _ _ _ i
  | GpuLimit _ _ i | GpuMergePartitions _ i | GpuEmitPartitions _ _ i
  | GpuMergeSortedPartitions _ _ _ i | GpuFilter _ _ None i => Some i
  | _ => None
  end.

Definition types_across_the_edge (node : GpuNode) : PlanResult () :=
  match carried node with
  | None => Ok ()
  | Some input =>
      let ours := fields (input_schema node) in
      let theirs := fields (input_schema input) in
      ensure (length ours =? length theirs)
        (Invalid (node_name node +:+ ": it declares other columns than its input produces")) ≫= fun _ =>
      ensure (forallb (fun '(a, b) => same_field a b) (zip ours theirs))
        (Invalid (node_name node +:+ ": it moves rows rather than changing them, and declares another column"))
  end.

(** ** Where a claim starts *)
Definition below (accept : GpuNode -> bool) : GpuNode -> bool :=
  fold_node (fun node kids => accept node || existsb id kids).

Definition scatters (node : GpuNode) : bool := match node with GpuEmitPartitions _ _ _ => true | _ => false end.
Definition sorts (node : GpuNode) : bool :=
  match node with
  | GpuSort _ _ _ _ | GpuAccumulateBatchesAndSort _ _ _ _ | GpuMergeSortedPartitions _ _ _ _ => true
  | _ => false
  end.

Definition is_by_hash (kd : KeyDistribution) : bool :=
  match kd with ByHash _ => true | KeysNotSpecified => false end.

Definition earned_claims (node : GpuNode) : PlanResult () :=
  match kind_layout (kind node) with
  | None => Ok ()
  | Some layout =>
      ensure (negb (is_by_hash (key_distribution layout) && negb (below scatters node)))
        (Invalid (node_name node
                  +:+ ": it declares rows placed by a hash, and nothing below it scattered them")) ≫= fun _ =>
      ensure (negb (is_batch_sorted (sort_order layout) && negb (below sorts node)))
        (Invalid (node_name node +:+ ": it declares sorted batches, and nothing below it sorted any"))
  end.

(** ** The whole tree *)
Definition validate_at (node : GpuNode) : PlanResult () :=
  validate_node node ≫= fun _ => declares_a_column node ≫= fun _ => structural node ≫= fun _ =>
  declared_width node ≫= fun _ => device_holdable_types node ≫= fun _ =>
  types_across_the_edge node ≫= fun _ => earned_claims node.

Definition validate_walk : GpuNode -> PlanResult () :=
  fold_node (fun node kids => for_each id kids ≫= fun _ => validate_at node).

Definition validate (root : GpuNode) : PlanResult () :=
  ensure (is_sink (kind root))
    (Invalid (node_name root +:+ ": a plan ends at the crossing back to the host")) ≫= fun _ =>
  check_canonical_form root ≫= fun _ => validate_walk root.

(** What the plan promised its caller; [None] is the [expect] on a root of no input. *)
Definition check_output_schema (root : GpuNode) (planned : list Field) : option (PlanResult ()) :=
  emitted ← (input ← head (children root); kind_schema (kind input));
  Some (ensure (length (fields emitted) =? length planned)
          (Invalid "the plan emits other columns than the query asked for") ≫= fun _ =>
        ensure (forallb (fun '(a, b) => same_field a b) (zip (fields emitted) planned))
          (Invalid "the plan emits another column than the query asked for")).

(** ** What a valid tree is *)
Definition descendants : GpuNode -> list GpuNode := fold_node (fun node kids => node :: concat kids).

Definition same_columns (ours theirs : list Field) : Prop :=
  Forall2 (fun a b => field_name a = field_name b /\ data_type a = data_type b) ours theirs.

Definition holdable (schema : Schema) : Prop :=
  Forall (fun field => unholdable (data_type field) = None) (fields schema).

Record well_declared (node : GpuNode) (layout : PartitionLayout) (schema : Schema) : Prop := {
  some_column : fields schema <> [];
  some_lane : n layout <> 0;
  hash_in_range : forall keys k, key_distribution layout = ByHash keys -> k ∈ keys -> k < length (fields schema);
  order_in_range : forall orders o, sort_order layout = BatchSorted orders -> o ∈ orders ->
    column o < length (fields schema);
  keys_in_range : forall k, k ∈ group_keys schema -> k < length (fields schema);
  state_placed : forall st, st ∈ agg_state schema ->
    positions st <> [] /\ forall p, p ∈ positions st -> p < length (fields schema) /\ p ∉ group_keys schema;
  width_produced : forall w, produced_width node = Some w -> length (fields schema) = w;
  columns_holdable : holdable schema;
  hash_earned : forall keys, key_distribution layout = ByHash keys ->
    exists below_, below_ ∈ descendants node /\ scatters below_ = true;
  order_earned : is_batch_sorted (sort_order layout) = true ->
    exists below_, below_ ∈ descendants node /\ sorts below_ = true }.

Definition intermediate_of (node : GpuNode) : option Schema :=
  match node with
  | GpuAggregate _ _ s _ | GpuAggregateBatches _ _ s _ => Some s
  | _ => None
  end.

Record well_formed (node : GpuNode) : Prop := {
  own_requirements : validate_node node = Ok ();
  inputs_on_device : forall child, child ∈ children node -> kind child <> Sink;
  declares : forall layout schema, kind_layout (kind node) = Some layout ->
    kind_schema (kind node) = Some schema ->
    well_declared node layout schema
    /\ forall s, intermediate_of node = Some s -> holdable s;
  source_is_leaf : forall layout schema, kind node = SourceKind layout schema -> children node = [];
  intermediate_is_fed : forall layout schema, kind node = Intermediate layout schema -> children node <> [];
  carries : forall input, carried node = Some input ->
    same_columns (fields (input_schema node)) (fields (input_schema input)) }.
