(* ===== verification/Driver.v ===== *)
(** * The driver: a whole plan, one node at a time

    [executor/driver/partitioned.rs].  Output queues live on the producing node; the driver asks the
    scheduler for a node, runs every lane of it that can make progress, settles its limit and
    recomputes the readiness of that node and its parent.

    Every method is a computation on the driver's whole state that may fail: the state survives
    the failure, as [&mut self] does.  A panic (an index out of range, an [expect]) is the error
    [SPanic].  The hook, like a backend's calls, may change the world. *)
From stdpp Require Import strings gmap.
From S2P Require Import Prelude Interval PlanIR PlanCommon Index Executor Reference Forwarder.
From S2P Require Import Accounting Scheduler Lane Validate.
Open Scope nat_scope.

Definition DEFAULT_MAX_STEPS : N := 1000000.

Section Driver.
Context {B : Backend}.

(** ** State *)
Definition OutputHook := World -> nat -> nat -> Batch -> World * result string ().

Inductive CrossExecutor :=
| XAccumulator (a : PartAcc)
| XEmitter (e : Emitter).

Record NodeState :=
  { out_queues : list (list (Held Batch)); out_done : list bool; lane_drivers : list LaneState;
    cross : option CrossExecutor; forward_map : list (list (nat * nat)); cursors : list nat;
    retired : list (list bool); lane_done_sent : list bool; emitter_finished : bool }.

(** What only the report reads. *)
Record RunLog :=
  { trace : list TraceEvent; rows_skipped : list N; peak_queued : list nat;
    emitted : list (list (list EmittedBatch)); abi_calls : list (list (list AbiCalls));
    calls_made : gmap nat N; abandoned : list (list N); consumed : list (list (list N)) }.

Record Driver :=
  { d_index : PlanIndex; hook : option OutputHook; d_world : World; d_sched : Scheduler;
    d_acct : ResidentAccountant; states : list NodeState; results : list CpuBatch; steps : nat;
    rows_seen : list N; rows_emitted : list N; d_log : RunLog }.

Definition DM := M Driver StepError.

(** ** Field updates *)
Definition with_world (w : World) (d : Driver) : Driver :=
  {| d_index := d_index d; hook := hook d; d_world := w; d_sched := d_sched d; d_acct := d_acct d;
     states := states d; results := results d; steps := steps d; rows_seen := rows_seen d;
     rows_emitted := rows_emitted d; d_log := d_log d |}.
Definition with_sched (s : Scheduler) (d : Driver) : Driver :=
  {| d_index := d_index d; hook := hook d; d_world := d_world d; d_sched := s; d_acct := d_acct d;
     states := states d; results := results d; steps := steps d; rows_seen := rows_seen d;
     rows_emitted := rows_emitted d; d_log := d_log d |}.
Definition with_acct (a : ResidentAccountant) (d : Driver) : Driver :=
  {| d_index := d_index d; hook := hook d; d_world := d_world d; d_sched := d_sched d; d_acct := a;
     states := states d; results := results d; steps := steps d; rows_seen := rows_seen d;
     rows_emitted := rows_emitted d; d_log := d_log d |}.
Definition with_states (st : list NodeState) (d : Driver) : Driver :=
  {| d_index := d_index d; hook := hook d; d_world := d_world d; d_sched := d_sched d;
     d_acct := d_acct d; states := st; results := results d; steps := steps d;
     rows_seen := rows_seen d; rows_emitted := rows_emitted d; d_log := d_log d |}.
Definition with_results (r : list CpuBatch) (d : Driver) : Driver :=
  {| d_index := d_index d; hook := hook d; d_world := d_world d; d_sched := d_sched d;
     d_acct := d_acct d; states := states d; results := r; steps := steps d;
     rows_seen := rows_seen d; rows_emitted := rows_emitted d; d_log := d_log d |}.
Definition with_steps (n : nat) (d : Driver) : Driver :=
  {| d_index := d_index d; hook := hook d; d_world := d_world d; d_sched := d_sched d;
     d_acct := d_acct d; states := states d; results := results d; steps := n;
     rows_seen := rows_seen d; rows_emitted := rows_emitted d; d_log := d_log d |}.
Definition with_seen (r : list N) (d : Driver) : Driver :=
  {| d_index := d_index d; hook := hook d; d_world := d_world d; d_sched := d_sched d;
     d_acct := d_acct d; states := states d; results := results d; steps := steps d;
     rows_seen := r; rows_emitted := rows_emitted d; d_log := d_log d |}.
Definition with_rows_emitted (r : list N) (d : Driver) : Driver :=
  {| d_index := d_index d; hook := hook d; d_world := d_world d; d_sched := d_sched d;
     d_acct := d_acct d; states := states d; results := results d; steps := steps d;
     rows_seen := rows_seen d; rows_emitted := r; d_log := d_log d |}.
Definition with_log (l : RunLog) (d : Driver) : Driver :=
  {| d_index := d_index d; hook := hook d; d_world := d_world d; d_sched := d_sched d;
     d_acct := d_acct d; states := states d; results := results d; steps := steps d;
     rows_seen := rows_seen d; rows_emitted := rows_emitted d; d_log := l |}.

Definition set_queues (q : list (list (Held Batch))) (st : NodeState) : NodeState :=
  {| out_queues := q; out_done := out_done st; lane_drivers := lane_drivers st; cross := cross st;
     forward_map := forward_map st; cursors := cursors st; retired := retired st;
     lane_done_sent := lane_done_sent st; emitter_finished := emitter_finished st |}.
Definition set_done (f : list bool) (st : NodeState) : NodeState :=
  {| out_queues := out_queues st; out_done := f; lane_drivers := lane_drivers st; cross := cross st;
     forward_map := forward_map st; cursors := cursors st; retired := retired st;
     lane_done_sent := lane_done_sent st; emitter_finished := emitter_finished st |}.
Definition set_lane_drivers (l : list LaneState) (st : NodeState) : NodeState :=
  {| out_queues := out_queues st; out_done := out_done st; lane_drivers := l; cross := cross st;
     forward_map := forward_map st; cursors := cursors st; retired := retired st;
     lane_done_sent := lane_done_sent st; emitter_finished := emitter_finished st |}.
Definition set_cross (c : CrossExecutor) (st : NodeState) : NodeState :=
  {| out_queues := out_queues st; out_done := out_done st; lane_drivers := lane_drivers st;
     cross := Some c; forward_map := forward_map st; cursors := cursors st; retired := retired st;
     lane_done_sent := lane_done_sent st; emitter_finished := emitter_finished st |}.
Definition set_routing (m : list (list (nat * nat))) (st : NodeState) : NodeState :=
  {| out_queues := out_queues st; out_done := out_done st; lane_drivers := lane_drivers st;
     cross := cross st; forward_map := m; cursors := cursors st;
     retired := map (fun lane => replicate (length lane) false) m;
     lane_done_sent := lane_done_sent st; emitter_finished := emitter_finished st |}.
Definition set_cursor (lane c : nat) (st : NodeState) : NodeState :=
  {| out_queues := out_queues st; out_done := out_done st; lane_drivers := lane_drivers st;
     cross := cross st; forward_map := forward_map st; cursors := <[lane := c]> (cursors st);
     retired := retired st; lane_done_sent := lane_done_sent st;
     emitter_finished := emitter_finished st |}.
Definition retire (lane index : nat) (st : NodeState) : NodeState :=
  {| out_queues := out_queues st; out_done := out_done st; lane_drivers := lane_drivers st;
     cross := cross st; forward_map := forward_map st; cursors := cursors st;
     retired := alter (<[index := true]>) lane (retired st);
     lane_done_sent := lane_done_sent st; emitter_finished := emitter_finished st |}.
Definition send_lane_done (lane : nat) (st : NodeState) : NodeState :=
  {| out_queues := out_queues st; out_done := out_done st; lane_drivers := lane_drivers st;
     cross := cross st; forward_map := forward_map st; cursors := cursors st;
     retired := retired st; lane_done_sent := <[lane := true]> (lane_done_sent st);
     emitter_finished := emitter_finished st |}.
Definition finish_emitter (st : NodeState) : NodeState :=
  {| out_queues := out_queues st; out_done := out_done st; lane_drivers := lane_drivers st;
     cross := cross st; forward_map := forward_map st; cursors := cursors st;
     retired := retired st; lane_done_sent := lane_done_sent st; emitter_finished := true |}.

Definition upd_state (node : nat) (f : NodeState -> NodeState) : DM () :=
  modify (fun d => with_states (alter f node (states d)) d).

(** ** Reading: an index out of range panics *)
Definition panicking {A} (f : Driver -> option A) : DM A := fun d =>
  match f d with Some x => (Ok x, d) | None => (Err SPanic, d) end.

Definition node_at (d : Driver) (node : nat) : IndexedNode := nodes (d_index d) !!! node.
Definition name_of (d : Driver) (node : nat) : string := node_name (in_node (node_at d node)).
Definition child_of (d : Driver) (node slot_ : nat) : option nat := in_children (node_at d node) !! slot_.
Definition queue_of (d : Driver) (node lane : nat) : option (list (Held Batch)) :=
  st ← states d !! node; out_queues st !! lane.
Definition done_of (d : Driver) (node lane : nat) : option bool :=
  st ← states d !! node; out_done st !! lane.
Definition lane_of (d : Driver) (node lane : nat) : option LaneState :=
  st ← states d !! node; lane_drivers st !! lane.
Definition slot_of (d : Driver) (node lane : nat) : Slot :=
  {| slot_index := Index.slot (d_index d) node lane; slot_node := node; slot_lane := lane |}.

Definition is_empty {A} (l : list A) : bool := match l with [] => true | _ => false end.

Definition at2 {A} (m : list (list A)) (i j : nat) : option A := r ← m !! i; r !! j.
Definition at3 {A} (m : list (list (list A))) (i j k : nat) : option A := r ← m !! i; at2 r j k.
Definition alter2 {A} (f : A -> A) (i j : nat) (m : list (list A)) : list (list A) :=
  alter (alter f j) i m.
Definition alter3 {A} (f : A -> A) (i j k : nat) (m : list (list (list A))) :=
  alter (alter2 f j k) i m.

(** ** Errors and the accountant *)
Definition protocol {A} (d_name what : string) : DM A :=
  throw (SRun (Protocol (d_name +:+ ": " +:+ what))).

Definition acct_dm {E A} (into : E -> StepError)
    (f : ResidentAccountant -> result E A * ResidentAccountant) : DM A := fun d =>
  let '(r, a) := f (d_acct d) in (map_err into r, with_acct a d).
Definition d_begin {E} `{Executor E} (slot_ : Slot) (e : E) (rows bytes_ : N) : DM N :=
  acct_dm STrip (fun a => begin_call a slot_ e rows bytes_).
Definition d_end {E} `{Executor E} (slot_ : Slot) (e : E) (st : CallStats) (m : N) : DM () :=
  acct_dm STrip (fun a => end_call a slot_ e st m).
Definition d_release (b : N) : DM () := acct_dm SRun (fun a => release a b).
Definition d_hold (b : N) : DM () := acct_dm SRun (fun a => (Ok (), hold a b)).
Definition d_forget (slot_ : Slot) : DM () := acct_dm SRun (fun a => (Ok (), forget a slot_)).

(** [let _ = cleanup; return Err(e)] when [m] failed. *)
Definition on_err {A} (m : DM A) (cleanup : DM ()) : DM A := fun d =>
  match m d with
  | (Ok x, d') => (Ok x, d')
  | (Err e, d') => (Err e, (cleanup d').2)
  end.

Definition call_failed {A} (node : nat) (e : BackendError) : DM A := fun d =>
  (Err (SRun (CallFailed (name_of d node +:+ ": " +:+ message e))), d).
Definition or_call_failed {A} (node : nat) (r : result BackendError A) : DM A :=
  match r with Ok x => mret x | Err e => call_failed node e end.

Definition wrong_cross (node : GpuNode) : RunError :=
  BackendErr (Invalid (node_name node
    +:+ ": its executor is not the cross-lane one its category names")).

(** ** What a run records *)
Definition record (node lane : nat) (call_ : CallKind) (outputs_ : nat) : DM () :=
  modify (fun d =>
    let l := d_log d in
    with_log
      {| trace := trace l ++ [{| t_step := steps d; t_node := node; t_lane := lane; t_call := call_;
                                 t_outputs := outputs_ |}];
         rows_skipped := rows_skipped l; peak_queued := peak_queued l; emitted := emitted l;
         abi_calls := abi_calls l; calls_made := calls_made l; abandoned := abandoned l;
         consumed := consumed l |} d).

Definition log_emitted (node lane : nat) (e : EmittedBatch) (l : RunLog) : RunLog :=
  {| trace := trace l; rows_skipped := rows_skipped l; peak_queued := peak_queued l;
     emitted := alter2 (fun bs => bs ++ [e]) node lane (emitted l);
     abi_calls := abi_calls l; calls_made := calls_made l; abandoned := abandoned l;
     consumed := consumed l |}.
Definition record_emitted {T} `{BatchLike T} (node lane : nat) (h : Held T) : DM () :=
  panicking (fun d => at2 (emitted (d_log d)) node lane) ≫= fun _ =>
  modify (fun d => with_log (log_emitted node lane {| e_rows := held_rows h; e_bytes := bytes h |}
                               (d_log d)) d).

Definition log_consumed (node slot_ child_lane : nat) (rows : N) (l : RunLog) : RunLog :=
  {| trace := trace l; rows_skipped := rows_skipped l; peak_queued := peak_queued l;
     emitted := emitted l; abi_calls := abi_calls l; calls_made := calls_made l;
     abandoned := abandoned l;
     consumed := alter3 (N.add rows) node slot_ child_lane (consumed l) |}.
Definition record_consumed (node slot_ child_lane : nat) (rows : N) : DM () :=
  panicking (fun d => at3 (consumed (d_log d)) node slot_ child_lane) ≫= fun _ =>
  modify (fun d => with_log (log_consumed node slot_ child_lane rows (d_log d)) d).

Definition log_abandoned (node lane : nat) (rows : N) (l : RunLog) : RunLog :=
  {| trace := trace l; rows_skipped := rows_skipped l; peak_queued := peak_queued l;
     emitted := emitted l; abi_calls := abi_calls l; calls_made := calls_made l;
     abandoned := alter2 (N.add rows) node lane (abandoned l); consumed := consumed l |}.
Definition record_abandoned (node lane : nat) (rows : N) : DM () :=
  panicking (fun d => at2 (abandoned (d_log d)) node lane) ≫= fun _ =>
  modify (fun d => with_log (log_abandoned node lane rows (d_log d)) d).

Definition log_skipped (node : nat) (rows : N) (l : RunLog) : RunLog :=
  {| trace := trace l; rows_skipped := alter (N.add rows) node (rows_skipped l);
     peak_queued := peak_queued l; emitted := emitted l; abi_calls := abi_calls l;
     calls_made := calls_made l; abandoned := abandoned l; consumed := consumed l |}.
Definition log_peak (node q : nat) (l : RunLog) : RunLog :=
  {| trace := trace l; rows_skipped := rows_skipped l;
     peak_queued := alter (Nat.max q) node (peak_queued l); emitted := emitted l;
     abi_calls := abi_calls l; calls_made := calls_made l; abandoned := abandoned l;
     consumed := consumed l |}.

(** Each call takes the next index its seq has. *)
Definition stamp (call_ : AbiCall) (made : gmap nat N) : AbiCall * gmap nat N :=
  let next_ := default 0%N (made !! call_seq call_) in
  ({| call_seq := call_seq call_; target := target call_; call_index := next_;
      in_rows := in_rows call_; in_bytes := in_bytes call_; out_rows := out_rows call_;
      Executor.out_bytes := Executor.out_bytes call_ |},
   <[call_seq call_ := (next_ + 1)%N]> made).
Fixpoint stamp_all (calls_ : list AbiCall) (made : gmap nat N) : list AbiCall * gmap nat N :=
  match calls_ with
  | [] => ([], made)
  | c :: cs =>
      let '(c, made) := stamp c made in
      let '(cs, made) := stamp_all cs made in
      (c :: cs, made)
  end.
Definition log_calls (node lane : nat) (calls_ : AbiCalls) (l : RunLog) : RunLog :=
  let '(calls_, made) :=
    match calls_ with
    | None => (None, calls_made l)
    | Some cs => let '(cs, made) := stamp_all cs (calls_made l) in (Some cs, made)
    end in
  {| trace := trace l; rows_skipped := rows_skipped l; peak_queued := peak_queued l;
     emitted := emitted l; abi_calls := alter2 (fun cs => cs ++ [calls_]) node lane (abi_calls l);
     calls_made := made; abandoned := abandoned l; consumed := consumed l |}.
Definition record_calls (node lane : nat) (calls_ : option AbiCalls) : DM () :=
  match calls_ with
  | None => mret ()
  | Some calls_ =>
      panicking (fun d => at2 (abi_calls (d_log d)) node lane) ≫= fun _ =>
      modify (fun d => with_log (log_calls node lane calls_ (d_log d)) d)
  end.

(** The hook's look at a held batch; a refusal releases it. *)
Definition offer (node lane : nat) (h : Held Batch) : DM () := fun d =>
  match hook d with
  | None => (Ok (), d)
  | Some look =>
      let '(w, r) := look (d_world d) node lane (batch h) in
      let d := with_world w d in
      match r with
      | Ok _ => (Ok (), d)
      | Err why =>
          (Err (SRun (CallFailed (name_of d node +:+ ": the output hook refused a batch: " +:+ why))),
           with_acct (release (d_acct d) (bytes h)).2 d)
      end
  end.

(** ** Queues *)
Definition push_out (node lane : nat) (h : Held Batch) : DM () :=
  q ← panicking (fun d => queue_of d node lane);
  upd_state node (fun st => set_queues (<[lane := q ++ [h]]> (out_queues st)) st).

Definition pop_out (node lane : nat) : DM (option (Held Batch)) :=
  q ← panicking (fun d => queue_of d node lane);
  match q with
  | [] => mret None
  | h :: rest =>
      upd_state node (fun st => set_queues (<[lane := rest]> (out_queues st)) st) ≫= fun _ =>
      mret (Some h)
  end.

Definition avail (d : Driver) (node lane : nat) : option Avail :=
  let edge slot_ :=
    match child_of d node slot_ with
    | None => Some (false, false)
    | Some child =>
        q ← queue_of d child lane;
        f ← done_of d child lane;
        Some (negb (is_empty q), f && is_empty q)
    end in
  first ← edge 0; second ← edge 1;
  Some {| has slot_ := match slot_ with 0 => first.1 | 1 => second.1 | _ => false end;
          done_ slot_ := match slot_ with 0 => first.2 | 1 => second.2 | _ => false end |}.

Definition peek_rows (d : Driver) (node lane : nat) (c : LaneCall) : option N :=
  slot_ ← consumes c;
  child ← child_of d node slot_;
  q ← queue_of d child lane;
  Some (match q with h :: _ => held_rows h | [] => 0%N end).

Definition take_input (node lane : nat) (c : LaneCall) : DM (option (Held Batch)) :=
  slot_ ← panicking (fun _ => consumes c);
  child ← panicking (fun d => child_of d node slot_);
  popped ← pop_out child lane;
  match popped with
  | Some h => record_consumed node slot_ lane (held_rows h) ≫= fun _ => mret (Some h)
  | None =>
      if negb (needs_its_batch c) then mret None
      else name ← gets (fun d => name_of d node);
           protocol name "the schedule offered a batch that is not there"
  end.

Definition queued (d : Driver) (node : nat) : nat :=
  match states d !! node with Some st => sum_list (map length (out_queues st)) | None => 0 end.

(** ** Cross-lane executors *)
Definition built_cross (d : Driver) (node : nat) : option CrossExecutor :=
  st ← states d !! node; cross st.

Definition build_cross (node : nat) : DM () :=
  d ← get_state;
  match built_cross d node with
  | Some _ => mret ()
  | None =>
      let indexed := node_at d node in
      let '(w, built) := executors_for (d_world d) (in_node indexed) (post_order indexed) 0 in
      modify (with_world w) ≫= fun _ =>
      match built with
      | Err e => throw (SRun (BackendErr e))
      | Ok executors =>
          if bool_decide (executors_category executors <> category indexed)
          then throw (SRun (BackendErr (Invalid (node_name (in_node indexed)
                 +:+ ": the backend built another category's executor"))))
          else match executors with
               | EPartitionAccumulator a => upd_state node (set_cross (XAccumulator a))
               | EPartitionEmitter e => upd_state node (set_cross (XEmitter e))
               | _ => throw (SRun (wrong_cross (in_node indexed)))
               end
      end
  end.

Definition expect_emitter (node : nat) : DM Emitter := fun d =>
  match built_cross d node with
  | Some (XEmitter e) => (Ok e, d)
  | _ => (Err (SRun (wrong_cross (in_node (node_at d node)))), d)
  end.
Definition expect_accumulator (node : nat) : DM PartAcc := fun d =>
  match built_cross d node with
  | Some (XAccumulator a) => (Ok a, d)
  | _ => (Err (SRun (wrong_cross (in_node (node_at d node)))), d)
  end.

(** ** Lane-scoped nodes *)

(** Which rows of the arriving batch an unload's interval wants: [None] is not one. *)
Definition rows_wanted (name : string) (iv : RowInterval) (seen_ arriving : N) :
    result RunError (option RowRange) :=
  match range_of iv seen_ arriving with
  | None => Ok None
  | Some range =>
      let rows := if covers range arriving then WHOLE else range in
      if bool_decide (rows <> WHOLE)
         && ((range_length rows =? 0)%N
             || (arriving <? wrapping_add (offset rows) (range_length rows))%N)
      then Err (Protocol (name +:+ ": the rows wanted of this batch are past it"))
      else Ok (Some rows)
  end.

Definition add_seen (node : nat) (rows : N) : DM () :=
  modify (fun d => with_seen (alter (N.add rows) node (rows_seen d)) d).

(** [self.states[node].lanes[lane].run(&site, call, input, rows, &mut self.acct)]. *)
Definition call_lane (node lane : nat) (c : LaneCall) (input : option (Held Batch))
    (rows : RowRange) : DM LaneOutcome := fun d =>
  match lane_of d node lane with
  | None => (Err SPanic, d)
  | Some l =>
      let indexed := node_at d node in
      let site := {| site_node := in_node indexed; site_category := category indexed;
                     site_post_order := post_order indexed; site_lane := lane;
                     site_slot := slot_of d node lane |} in
      let '(r, s) := run_lane site c input rows
                       {| l_world := d_world d; l_acct := d_acct d; l_state := l |} in
      (r, with_states
            (alter (fun st => set_lane_drivers (<[lane := l_state s]> (lane_drivers st)) st) node
               (states d))
            (with_acct (l_acct s) (with_world (l_world s) d)))
  end.

(** A refusal gives back the batches behind the refused one. *)
Fixpoint queue_device (node lane : nat) (limited : bool) (batches : list (Held Batch)) : DM () :=
  match batches with
  | [] => mret ()
  | h :: rest =>
      record_emitted node lane h ≫= fun _ =>
      (if limited
       then modify (fun d => with_rows_emitted (alter (N.add (held_rows h)) node (rows_emitted d)) d)
       else mret ()) ≫= fun _ =>
      on_err (offer node lane h)
        (modify (fun d => with_acct (foldl (fun a b => (release a (bytes b)).2) (d_acct d) rest) d))
        ≫= fun _ =>
      push_out node lane h ≫= fun _ =>
      queue_device node lane limited rest
  end.

Definition hand_over (node lane : nat) (h : Held CpuBatch) : DM () :=
  record_emitted node lane h ≫= fun _ =>
  d_release (bytes h) ≫= fun _ =>
  modify (fun d => with_results (results d ++ [batch h]) d).

Definition left_build (node : nat) : DM () := fun d =>
  match lane_left_build (d_sched d) node with
  | Some s => (Ok (), with_sched s d)
  | None => (Err SPanic, d)
  end.

Definition end_lane (node lane : nat) : DM () :=
  upd_state node (fun st => set_done (<[lane := true]> (out_done st)) st).

(** One call, its outputs queued or handed over and its lane's end noted. *)
Definition lane_called (node lane : nat) (c : LaneCall) (arriving : N)
    (input : option (Held Batch)) (rows : RowRange) : DM () :=
  o ← call_lane node lane c input rows;
  add_seen node arriving ≫= fun _ =>
  limited ← gets (fun d => bool_decide (is_Some (in_interval (node_at d node))));
  match outputs o with
  | Device batches => queue_device node lane limited batches
  | Host batches => forM batches (hand_over node lane)
  end ≫= fun _ =>
  (if bool_decide (c = LSetBuild) then left_build node else mret ()) ≫= fun _ =>
  (if finished o then end_lane node lane else mret ()) ≫= fun _ =>
  record node lane (call o)
    (match outputs o with Device bs => length bs | Host bs => length bs end) ≫= fun _ =>
  record_calls node lane (made_calls o).

(** A batch of which not one row is wanted. *)
Definition lane_unwanted (node lane : nat) (c : LaneCall) (arriving : N) : DM () :=
  taken ← take_input node lane c;
  unwanted ← panicking (fun _ => taken);
  add_seen node arriving ≫= fun _ =>
  modify (fun d => with_log (log_skipped node arriving (d_log d)) d) ≫= fun _ =>
  d_release (bytes unwanted) ≫= fun _ =>
  record node lane KReleaseUnwanted 0.

Definition site_error (name : string) (e : RunError) : StepError :=
  SRun match e with Protocol what => Protocol (name +:+ ": " +:+ what) | e => e end.

Definition lane_turn (node lane : nat) : DM () :=
  indexed ← gets (fun d => node_at d node);
  let name := node_name (in_node indexed) in
  let unloading := bool_decide (category indexed = CUnload) in
  av ← panicking (fun d => avail d node lane);
  l ← panicking (fun d => lane_of d node lane);
  if negb (can_step l (category indexed) av) then mret ()
  else
    c ← lift (map_err (site_error name) (select l (category indexed) av));
    let consuming := bool_decide (is_Some (consumes c)) in
    match in_interval indexed, unloading && consuming with
    | Some iv, true =>
        arriving ← panicking (fun d => peek_rows d node lane c);
        seen_ ← panicking (fun d => rows_seen d !! node);
        wanted ← lift (map_err SRun (rows_wanted name iv seen_ arriving));
        match wanted with
        | None => lane_unwanted node lane c arriving
        | Some rows =>
            input ← take_input node lane c;
            lane_called node lane c arriving input rows
        end
    | _, _ =>
        input ← (if consuming then take_input node lane c else mret None);
        lane_called node lane c 0 input WHOLE
    end.

Definition run_lane_scoped (node : nat) : DM () :=
  lanes_ ← gets (fun d => lanes (node_at d node));
  forM (seq 0 lanes_) (lane_turn node).

(** ** Cross-lane nodes *)

(** A device output held, recorded, offered and queued. *)
Definition queue_output (node lane : nat) (out : Batch) : DM () :=
  let h := held_of out in
  d_hold (bytes h) ≫= fun _ =>
  record_emitted node lane h ≫= fun _ =>
  offer node lane h ≫= fun _ =>
  push_out node lane h.

(** Empty scatter outputs are dropped; the count is of the others. *)
Fixpoint queue_scatter (node lane : nat) (outs : list Batch) : DM nat :=
  match outs with
  | [] => mret 0
  | out :: outs =>
      if (num_rows out =? 0)%N then queue_scatter node (S lane) outs
      else
        queue_output node lane out ≫= fun _ =>
        count ← queue_scatter node (S lane) outs;
        mret (S count)
  end.

Definition run_emitter (node : nat) : DM () :=
  child ← panicking (fun d => child_of d node 0);
  lanes_ ← gets (fun d => lanes (node_at d node));
  slot_ ← gets (fun d => slot_of d node 0);
  popped ← pop_out child 0;
  match popped with
  | None =>
      upd_state node (fun st => set_done (replicate lanes_ true) (finish_emitter st)) ≫= fun _ =>
      d_forget slot_ ≫= fun _ =>
      record node 0 KEmitDone 0
  | Some h =>
      record_consumed node 0 0 (held_rows h) ≫= fun _ =>
      build_cross node ≫= fun _ =>
      emitter ← expect_emitter node;
      modelled_ ← d_begin slot_ emitter (held_rows h) (bytes h);
      w ← gets d_world;
      let '(w, emitter, r) := emit w emitter (batch h) in
      modify (with_world w) ≫= fun _ =>
      upd_state node (set_cross (XEmitter emitter)) ≫= fun _ =>
      d_release (bytes h) ≫= fun _ =>
      res ← or_call_failed node r;
      let '(outs, stats) := res in
      (if length outs =? lanes_ then mret ()
       else name ← gets (fun d => name_of d node);
            protocol name "emit returned another count of lanes than the plan declares") ≫= fun _ =>
      count ← queue_scatter node 0 outs;
      emitter ← expect_emitter node;
      d_end slot_ emitter stats modelled_ ≫= fun _ =>
      record node 0 KEmit count ≫= fun _ =>
      record_calls node 0 (Some (calls stats))
  end.

(** One lane of a cross-lane accumulator's input: its batch, or its end, once. *)
Definition accumulator_event (node child lane : nat) : DM () :=
  slot_ ← gets (fun d => slot_of d node 0);
  popped ← pop_out child lane;
  match popped with
  | Some h => record_consumed node 0 lane (held_rows h)
  | None => upd_state node (send_lane_done lane)
  end ≫= fun _ =>
  build_cross node ≫= fun _ =>
  accumulator ← expect_accumulator node;
  modelled_ ← d_begin slot_ accumulator (match popped with Some h => held_rows h | None => 0%N end)
                (match popped with Some h => bytes h | None => 0%N end);
  w ← gets d_world;
  let '(w, accumulator, r) :=
    lane_event w accumulator lane
      (match popped with Some h => LaneBatch (batch h) | None => LaneDone end) in
  modify (with_world w) ≫= fun _ =>
  upd_state node (set_cross (XAccumulator accumulator)) ≫= fun _ =>
  match popped with Some h => d_release (bytes h) | None => mret () end ≫= fun _ =>
  res ← or_call_failed node r;
  let '(outs, stats) := res in
  forM outs (queue_output node 0) ≫= fun _ =>
  accumulator ← expect_accumulator node;
  d_end slot_ accumulator stats modelled_ ≫= fun _ =>
  record node lane (match popped with Some _ => KLaneEvent | None => KLaneDone end)
    (length outs) ≫= fun _ =>
  record_calls node lane (Some (calls stats)).

Definition lane_done_was_sent (d : Driver) (node lane : nat) : option bool :=
  st ← states d !! node; lane_done_sent st !! lane.

Definition accumulator_turn (node child lane : nat) : DM () :=
  q ← panicking (fun d => queue_of d child lane);
  f ← panicking (fun d => done_of d child lane);
  sent ← panicking (fun d => lane_done_was_sent d node lane);
  if is_empty q && negb (f && negb sent) then mret ()
  else accumulator_event node child lane.

Definition run_partition_accumulator (node : nat) : DM () :=
  child ← panicking (fun d => child_of d node 0);
  slot_ ← gets (fun d => slot_of d node 0);
  lanes_ ← gets (fun d => input_lanes (node_at d node));
  forM (seq 0 lanes_) (accumulator_turn node child) ≫= fun _ =>
  sent ← panicking (fun d => lane_done_sent <$> states d !! node);
  if forallb id sent
  then panicking (fun d => done_of d node 0) ≫= fun _ =>
       end_lane node 0 ≫= fun _ => d_forget slot_
  else mret ().

(** ** Forwarders *)
Definition source_at (d : Driver) (node lane index : nat) : option (nat * nat) :=
  st ← states d !! node; at2 (forward_map st) lane index.
Definition retired_at (d : Driver) (node lane index : nat) : option bool :=
  st ← states d !! node; at2 (retired st) lane index.
Definition sources_at (d : Driver) (node lane : nat) : option (list (nat * nat)) :=
  st ← states d !! node; forward_map st !! lane.

(** The sources in service order from the cursor; [true] when a batch moved. *)
Fixpoint forward_from (node lane start sources : nat) (offsets : list nat) : DM bool :=
  match offsets with
  | [] => mret false
  | offset_ :: offsets =>
      let index := (start + offset_) mod sources in
      gone ← panicking (fun d => retired_at d node lane index);
      if gone : bool then forward_from node lane start sources offsets
      else
        src ← panicking (fun d => source_at d node lane index);
        child ← panicking (fun d => child_of d node src.1);
        popped ← pop_out child src.2;
        match popped with
        | Some h =>
            record_consumed node src.1 src.2 (held_rows h) ≫= fun _ =>
            record_emitted node lane h ≫= fun _ =>
            push_out node lane h ≫= fun _ =>
            upd_state node (set_cursor lane ((index + 1) mod sources)) ≫= fun _ =>
            mret true
        | None =>
            f ← panicking (fun d => done_of d child src.2);
            (if f : bool then upd_state node (retire lane index) else mret ()) ≫= fun _ =>
            forward_from node lane start sources offsets
        end
  end.

Definition forward_one (node lane : nat) : DM bool :=
  sources ← panicking (fun d => length <$> sources_at d node lane);
  start ← panicking (fun d => st ← states d !! node; cursors st !! lane);
  forward_from node lane start sources (seq 0 sources).

Definition forwarder_turn (node lane : nat) : DM () :=
  f ← panicking (fun d => done_of d node lane);
  if f : bool then mret ()
  else
    moved ← forward_one node lane;
    if moved : bool then record node lane KForward 1
    else
      gone ← panicking (fun d => st ← states d !! node; retired st !! lane);
      if forallb id gone
      then end_lane node lane ≫= fun _ => record node lane KForwardDone 0
      else mret ().

Definition run_forwarder (node : nat) : DM () :=
  lanes_ ← gets (fun d => lanes (node_at d node));
  forM (seq 0 lanes_) (forwarder_turn node).

Definition run_node (node : nat) : DM () :=
  cat ← gets (fun d => category (node_at d node));
  match cat with
  | CPartitionEmitter => run_emitter node
  | CPartitionAccumulator => run_partition_accumulator node
  | CBatchForwarder => run_forwarder node
  | _ => run_lane_scoped node
  end ≫= fun _ =>
  modify (fun d => with_log (log_peak node (queued d node) (d_log d)) d).

(** ** Readiness *)

(** A source with a batch, or no live source left. *)
Fixpoint forwarder_scan (d : Driver) (node lane index live : nat) (sources : list (nat * nat)) :
    option bool :=
  match sources with
  | [] => Some (live =? 0)
  | (child_index, child_lane) :: sources =>
      gone ← retired_at d node lane index;
      if gone : bool then forwarder_scan d node lane (S index) live sources
      else
        child ← child_of d node child_index;
        q ← queue_of d child child_lane;
        if negb (is_empty q) then Some true
        else
          f ← done_of d child child_lane;
          forwarder_scan d node lane (S index) (if f : bool then live else S live) sources
  end.

Definition forwarder_lane_ready (d : Driver) (node lane : nat) : option bool :=
  f ← done_of d node lane;
  if f : bool then Some false
  else sources ← sources_at d node lane; forwarder_scan d node lane 0 0 sources.

Definition lane_ready (d : Driver) (node lane : nat) : option bool :=
  let cat := category (node_at d node) in
  match cat with
  | CPartitionEmitter =>
      child ← child_of d node 0;
      q ← queue_of d child 0;
      f ← done_of d child 0;
      st ← states d !! node;
      Some (negb (is_empty q) || (f && negb (emitter_finished st)))
  | CPartitionAccumulator =>
      child ← child_of d node 0;
      q ← queue_of d child lane;
      f ← done_of d child lane;
      sent ← lane_done_was_sent d node lane;
      Some (negb (is_empty q) || (f && negb sent))
  | CBatchForwarder => forwarder_lane_ready d node lane
  | _ =>
      av ← avail d node lane;
      l ← lane_of d node lane;
      Some (can_step l cat av)
  end.

(** [Driver::refresh]. *)
Definition refresh_node (node : nat) : DM () :=
  lanes_ ← gets (fun d => ready_lanes (node_at d node));
  forM (seq 0 lanes_) (fun lane =>
    ready ← panicking (fun d => lane_ready d node lane);
    modify (fun d => with_sched (set_lane_ready (d_sched d) node lane ready) d)).

Definition settle_limit (node : nat) : DM () :=
  indexed ← gets (fun d => node_at d node);
  match in_interval indexed with
  | None => mret ()
  | Some iv =>
      reached ← match category indexed with
                | CUnload => gets (fun d => satisfied_by iv (default 0%N (rows_seen d !! node)))
                | CBatchAccumulator =>
                    gets (fun d => satisfied_by_emitted iv (default 0%N (rows_emitted d !! node)))
                | _ => protocol (node_name (in_node indexed))
                         "a row interval on neither an unload nor a limit"
                end;
      if reached : bool
      then modify (fun d => with_sched (satisfy (d_sched d) node) d) ≫= fun _ =>
           upd_state node (set_done (replicate (lanes indexed) true))
      else mret ()
  end.

(** ** The end of a run *)

Definition drain_one (node lane : nat) : DM () :=
  popped ← pop_out node lane;
  match popped with
  | Some h => record_abandoned node lane (held_rows h) ≫= fun _ => d_release (bytes h)
  | None => mret ()
  end.

(** [while let Some(batch) = queue.pop_front() { .. }]: one turn per batch queued. *)
Definition drain_lane (node lane : nat) : DM () :=
  q ← panicking (fun d => queue_of d node lane);
  forM q (fun _ => drain_one node lane).

Definition release_in_flight : DM () :=
  count ← gets (fun d => index_len (d_index d));
  forM (seq 0 count) (fun node =>
    lanes_ ← panicking (fun d => length ∘ out_queues <$> states d !! node);
    forM (seq 0 lanes_) (drain_lane node)).

Definition stranded (d : Driver) : bool :=
  existsb (fun node => match states d !! node with
                       | Some st => existsb (fun q => negb (is_empty q)) (out_queues st)
                       | None => false
                       end) (seq 0 (index_len (d_index d))).

Definition assert_drained : DM () :=
  root_done ← panicking (fun d => out_done <$> states d !! ROOT);
  if negb (forallb id root_done)
  then protocol "the driver" "nothing is runnable and the root has lanes that never ended"
  else
    left_over ← gets stranded;
    if left_over : bool
    then protocol "the driver" "nothing is runnable and batches remain"
    else mret ().

Definition finish : DM () :=
  early ← gets (fun d => any_satisfied (d_sched d));
  if early : bool then release_in_flight else assert_drained.

(** ** The loop *)
Definition seed : DM () :=
  count ← gets (fun d => index_len (d_index d));
  forM (seq 0 count) (fun node => refresh_node node ≫= fun _ => settle_limit node).

(** Everything a step does once its node is picked. *)
Definition run_picked (node : nat) : DM () :=
  modify (fun d => with_steps (S (steps d)) d) ≫= fun _ =>
  run_node node ≫= fun _ =>
  settle_limit node ≫= fun _ =>
  refresh_node node ≫= fun _ =>
  up ← gets (fun d => parent (node_at d node));
  match up with Some p => refresh_node p | None => mret () end.

Definition step : DM bool :=
  picked ← gets (fun d => next (d_sched d));
  match picked with
  | None => mret false
  | Some node => run_picked node ≫= fun _ => mret true
  end.

(** [while self.step()? { if self.steps > max_steps { return Err(..) } }]; out of fuel is the
    panic, and the bound below shows it is not reached. *)
Fixpoint drive_loop (fuel max_steps : nat) : DM () :=
  match fuel with
  | O => throw SPanic
  | S fuel =>
      more ← step;
      if more : bool then
        over_ ← gets (fun d => max_steps <? steps d);
        if over_ : bool then protocol "the driver" "no termination after its steps"
        else drive_loop fuel max_steps
      else mret ()
  end.

Definition drive (max_steps : nat) : DM () :=
  seed ≫= fun _ =>
  taken ← gets steps;
  drive_loop (max_steps + 2 - taken) max_steps ≫= fun _ =>
  finish.

(** ** Wiring *)
Definition forward_lane (ix : PlanIndex) (indexed : IndexedNode) (f : Forwarder) (lane : nat) :
    result StepError (list (nat * nat)) :=
  let name := node_name (in_node indexed) in
  let invalid what := SRun (BackendErr (Invalid (name +:+ ": " +:+ what))) in
  sources ← ok_or (sources_of f lane) SPanic;
  ensure (negb (is_empty sources)) (invalid "a lane is served by nothing, so it can never finish")
    ≫= fun _ =>
  for_each (fun '(child_index, child_lane) =>
    child ← ok_or (in_children indexed !! child_index) (invalid "a lane reads a child it lacks");
    ensure (child_lane <? lanes (nodes ix !!! child)) (invalid "a lane reads a lane its child lacks"))
    sources ≫= fun _ =>
  Ok sources.

Definition forward_map_of (ix : PlanIndex) (node : nat) (f : Forwarder) :
    result StepError (list (list (nat * nat))) :=
  let indexed := nodes ix !!! node in
  match f with
  | FUnion lanes_ =>
      ensure (length lanes_ =? lanes indexed)
        (SRun (BackendErr (Invalid (node_name (in_node indexed)
           +:+ ": the routing serves another count of lanes than the layout declares"))))
  | _ => Ok ()
  end ≫= fun _ =>
  traverse (forward_lane ix indexed f) (seq 0 (lanes indexed)).

Definition wire_forwarder (node : nat) : DM () :=
  d ← get_state;
  let indexed := node_at d node in
  if negb (bool_decide (category indexed = CBatchForwarder)) then mret ()
  else
    let '(w, built) := executors_for (d_world d) (in_node indexed) (post_order indexed) 0 in
    modify (with_world w) ≫= fun _ =>
    match built with
    | Err e => throw (SRun (BackendErr e))
    | Ok (EBatchForwarder f) =>
        map_ ← lift (forward_map_of (d_index d) node f);
        upd_state node (set_routing map_)
    | Ok _ => throw (SRun (BackendErr (Invalid (node_name (in_node indexed)
                +:+ ": the backend built another executor for a routing node"))))
    end.

Definition wire_forwarders : DM () :=
  count ← gets (fun d => index_len (d_index d));
  forM (seq 0 count) wire_forwarder.

(** ** Construction *)
Definition fresh_node (x : IndexedNode) : NodeState :=
  {| out_queues := replicate (lanes x) []; out_done := replicate (lanes x) false;
     lane_drivers := replicate (lanes x) Unbuilt; cross := None; forward_map := [];
     cursors := replicate (lanes x) 0; retired := [];
     lane_done_sent := replicate (input_lanes x) false; emitter_finished := false |}.

Definition fresh_log (ix : PlanIndex) : RunLog :=
  {| trace := []; rows_skipped := replicate (index_len ix) 0%N;
     peak_queued := replicate (index_len ix) 0;
     emitted := map (fun x => replicate (lanes x) []) (nodes ix);
     abi_calls := map (fun x => replicate (ready_lanes x) []) (nodes ix);
     calls_made := ∅;
     abandoned := map (fun x => replicate (lanes x) 0%N) (nodes ix);
     consumed := map (fun x => map (fun c => replicate (lanes (nodes ix !!! c)) 0%N)
                                 (in_children x)) (nodes ix) |}.

Definition fresh (root : GpuNode) (w : World) (budget_ : option N) (look : option OutputHook) :
    Driver :=
  let ix := build root in
  {| d_index := ix; hook := look; d_world := w; d_sched := sched_new (shape ix);
     d_acct := acct_new (slots ix) budget_; states := map fresh_node (nodes ix); results := [];
     steps := 0; rows_seen := replicate (index_len ix) 0%N;
     rows_emitted := replicate (index_len ix) 0%N; d_log := fresh_log ix |}.

(** [Driver::new] and the hook [run_with_hook] installs after it. *)
Definition driver_new (root : GpuNode) (w : World) (budget_ : option N)
    (look : option OutputHook) : result StepError Driver :=
  map_err (fun e => SRun (BackendErr e)) (check_canonical_form root) ≫= fun _ =>
  match wire_forwarders (fresh root w budget_ look) with
  | (Ok _, d) => Ok d
  | (Err e, _) => Err e
  end.

(** ** The report *)
Record RunReport :=
  { batches : list CpuBatch; peak_bytes : N; report_in_flight : N; report_steps : nat;
    report_holds : nat; report_releases : nat; report_underestimates : list Underestimate;
    report_measured : nat; report_log : RunLog; lanes_of : list nat; report_satisfied : list nat }.

(** The sink's batches, or one of no rows under its input's columns. *)
Definition answer (d : Driver) : list CpuBatch :=
  match results d with
  | [] => [new_empty_batch (fields (input_schema (children (in_node (node_at d ROOT)) !!! 0)))]
  | bs => bs
  end.

Definition report (d : Driver) : RunReport :=
  {| batches := answer d; peak_bytes := peak (d_acct d);
     report_in_flight := in_flight_bytes (d_acct d); report_steps := steps d;
     report_holds := holds (d_acct d); report_releases := releases (d_acct d);
     report_underestimates := underestimates (d_acct d);
     report_measured := measured_calls (d_acct d); report_log := d_log d;
     lanes_of := map lanes (nodes (d_index d));
     report_satisfied := filter (fun node => is_satisfied (d_sched d) node)
                           (seq 0 (index_len (d_index d))) |}.

Definition budget_error (d : Driver) (t : Trip) : RunError :=
  BudgetExceeded (trip_when t)
    ("resident GPU memory budget exceeded at " +:+ name_of d (slot_node (trip_slot t))).

(** [Driver::run], before the error is told: what an errored run held is let go. *)
Definition run_to_end (max_steps : nat) : DM () := on_err (drive max_steps) release_in_flight.

(** [None] is a panic. *)
Definition run_driver (d : Driver) (max_steps : nat) : option (result RunError RunReport) :=
  match run_to_end max_steps d with
  | (Ok _, d) => Some (Ok (report d))
  | (Err (SRun e), _) => Some (Err e)
  | (Err (STrip t), d) => Some (Err (budget_error d t))
  | (Err SPanic, _) => None
  end.

Definition run (root : GpuNode) (w : World) (budget_ : option N) (look : option OutputHook)
    (max_steps : nat) : option (result RunError RunReport) :=
  match driver_new root w budget_ look with
  | Ok d => run_driver d max_steps
  | Err (SRun e) => Some (Err e)
  | Err _ => None
  end.

(** [executor::run]. *)
Definition run_default (root : GpuNode) (w : World) (budget_ : option N) :
    option (result RunError RunReport) :=
  run root w budget_ None (N.to_nat DEFAULT_MAX_STEPS).
End Driver.
