(* ===== verification/DriverBooks.v ===== *)
(** * The driver's books: bytes, batches and rows

    What [Driver.v]'s methods leave behind when they return: the accountant's in-flight bytes are
    the bytes queued, every batch held is released or still queued, and every row a node emitted
    was consumed by its parent, is still queued or was abandoned by an early exit.

    A method takes the books out of balance between its steps, so the invariant carries what is
    outstanding: [k] batches of [b] bytes held and in no queue, and [e c l] rows by which the
    record of lane [l] of node [c] is ahead of its queue. *)
From stdpp Require Import strings gmap.
From S2P Require Import Prelude Interval PlanIR PlanCommon Index Executor Reference Forwarder.
From S2P Require Import Accounting Scheduler Lane Validate Driver.
Open Scope nat_scope.

Section Books.
Context {B : Backend}.

(** ** What the books count *)
Definition queue_bytes (q : list (Held Batch)) : N := sumN (map bytes q).
Definition queue_rows (q : list (Held Batch)) : N := sumN (map held_rows q).
Definition node_bytes (qs : list (list (Held Batch))) : N := sumN (map queue_bytes qs).
Definition node_batches (qs : list (list (Held Batch))) : nat := sum_list (map length qs).
Definition total_bytes (d : Driver) : N := sumN (map (node_bytes ∘ out_queues) (states d)).
Definition total_batches (d : Driver) : nat := sum_list (map (node_batches ∘ out_queues) (states d)).

Definition emitted_rows (l : RunLog) (c lane : nat) : N :=
  sumN (map e_rows (default [] (at2 (emitted l) c lane))).
Definition consumed_rows (l : RunLog) (p s lane : nat) : N := default 0%N (at3 (consumed l) p s lane).
Definition abandoned_rows (l : RunLog) (c lane : nat) : N := default 0%N (at2 (abandoned l) c lane).

(** Rows emitted by a lane beyond those its parent consumed, its queue holds and it abandoned. *)
Definition gap (d : Driver) (p s c lane : nat) : Z :=
  Z.of_N (emitted_rows (d_log d) c lane) - Z.of_N (consumed_rows (d_log d) p s lane)
  - Z.of_N (queue_rows (default [] (queue_of d c lane)))
  - Z.of_N (abandoned_rows (d_log d) c lane).

Definition unloads (d : Driver) (c : nat) : Prop := category (node_at d c) = CUnload.

Definition even : nat -> nat -> Z := fun _ _ => 0%Z.
Definition bump (e : nat -> nat -> Z) (c l : nat) (z : Z) : nat -> nat -> Z := fun c' l' =>
  (e c' l' + if bool_decide (c' = c /\ l' = l) then z else 0)%Z.

Record bal (ix : PlanIndex) (k : nat) (b : N) (e : nat -> nat -> Z) (d : Driver) : Prop := {
  bal_index : d_index d = ix;
  bal_len : length (states d) = length (nodes ix);
  bal_bytes : in_flight_bytes (d_acct d) = (total_bytes d + b)%N;
  bal_batches : holds (d_acct d) = releases (d_acct d) + total_batches d + k;
  bal_rows p s c l : child_of d p s = Some c -> ~ unloads d c -> gap d p s c l = e c l;
  bal_tree p s p' s' c :
    child_of d p s = Some c -> child_of d p' s' = Some c -> p = p' /\ s = s' }.

(** ** Steps that leave the books alone *)
Record neutral (d d' : Driver) : Prop := {
  n_index : d_index d' = d_index d;
  n_queues : map out_queues (states d') = map out_queues (states d);
  n_flow : flow (d_acct d) (d_acct d') 0 0 0 0;
  n_emitted : emitted (d_log d') = emitted (d_log d);
  n_consumed : consumed (d_log d') = consumed (d_log d);
  n_abandoned : abandoned (d_log d') = abandoned (d_log d) }.

Lemma neutral_refl d : neutral d d.
Proof. split; auto using flow_refl. Qed.

Lemma neutral_trans d1 d2 d3 : neutral d1 d2 -> neutral d2 d3 -> neutral d1 d3.
Proof.
  intros [] []. split; [congruence..| |congruence|congruence|congruence].
  by eapply flow_trans; [eassumption..|reflexivity|reflexivity|reflexivity|reflexivity].
Qed.

Definition calm {A} (m : DM A) : Prop := forall d, neutral d (m d).2.

Lemma calm_ret {A} (x : A) : calm (mret x).
Proof. intros d. apply neutral_refl. Qed.
Lemma calm_throw {A} e : calm (throw (A:=A) e).
Proof. intros d. apply neutral_refl. Qed.
Lemma calm_lift {A} (r : result StepError A) : calm (lift r).
Proof. intros d. apply neutral_refl. Qed.
Lemma calm_gets {A} (f : Driver -> A) : calm (gets f).
Proof. intros d. apply neutral_refl. Qed.
Lemma calm_state : calm get_state.
Proof. intros d. apply neutral_refl. Qed.
Lemma calm_panicking {A} (f : Driver -> option A) : calm (panicking f).
Proof. intros d. unfold panicking. destruct (f d); apply neutral_refl. Qed.
Lemma calm_bind {A C} (m : DM A) (k : A -> DM C) :
  calm m -> (forall x, calm (k x)) -> calm (m ≫= k).
Proof.
  intros Hm Hk d. specialize (Hm d). unfold mbind, M_bind. destruct (m d) as [[x|e] d1]; [|done].
  by eapply neutral_trans, Hk.
Qed.
Lemma calm_forM {A} (l : list A) (body : A -> DM ()) :
  (forall x, calm (body x)) -> calm (forM l body).
Proof. intros Hb. induction l; [apply calm_ret|]. by apply calm_bind. Qed.

Lemma calm_modify (f : Driver -> Driver) : (forall d, neutral d (f d)) -> calm (modify f).
Proof. intros Hf d. apply Hf. Qed.

Lemma calm_upd node (f : NodeState -> NodeState) :
  (forall st, out_queues (f st) = out_queues st) -> calm (upd_state node f).
Proof.
  intros Hf. apply calm_modify. intros d. split; try done.
  cbn. apply list_eq. intros i. rewrite !list_lookup_fmap, list_lookup_alter.
  destruct (decide (node = i)) as [->|]; [|done].
  destruct (states d !! i); cbn; [by rewrite Hf|done].
Qed.

Lemma calm_acct {E A} (into : E -> StepError) (f : ResidentAccountant -> result E A * ResidentAccountant) :
  (forall a, flow a (f a).2 0 0 0 0) -> calm (acct_dm into f).
Proof.
  intros Hf d. unfold acct_dm. specialize (Hf (d_acct d)). destruct (f _) as [r a].
  by split.
Qed.

Lemma calm_begin {E} `{Executor E} s (e : E) r b : calm (d_begin s e r b).
Proof. apply calm_acct. intros a. apply flow_begin. Qed.
Lemma calm_end {E} `{Executor E} s (e : E) st m : calm (d_end s e st m).
Proof. apply calm_acct. intros a. apply flow_end. Qed.
Lemma calm_forget s : calm (d_forget s).
Proof. apply calm_acct. intros a. apply flow_forget. Qed.
Lemma calm_failed {A} node (r : result BackendError A) : calm (or_call_failed node r).
Proof. destruct r; intros d; apply neutral_refl. Qed.
Lemma calm_protocol {A} n w : calm (protocol (A:=A) n w).
Proof. intros d. apply neutral_refl. Qed.
Lemma calm_left_build node : calm (left_build node).
Proof. intros d. unfold left_build. case_match; split; auto using flow_refl. Qed.
Lemma calm_emitter node : calm (expect_emitter node).
Proof. intros d. unfold expect_emitter. repeat case_match; apply neutral_refl. Qed.
Lemma calm_accumulator node : calm (expect_accumulator node).
Proof. intros d. unfold expect_accumulator. repeat case_match; apply neutral_refl. Qed.
Lemma calm_record node lane c o : calm (record node lane c o).
Proof. apply calm_modify. by split; auto using flow_refl. Qed.
Lemma calm_seen node r : calm (add_seen node r).
Proof. apply calm_modify. by split; auto using flow_refl. Qed.
End Books.

#[export] Hint Resolve calm_ret calm_throw calm_lift calm_gets calm_state calm_panicking calm_begin
  calm_end calm_forget calm_failed calm_protocol calm_left_build calm_emitter calm_accumulator
  calm_record calm_seen : calm.

(** Splits a computation into the steps the hints know. *)
Ltac calm :=
  repeat first
    [ solve [auto 2 with calm nocore]
    | apply calm_bind; [|intros ?]
    | apply calm_forM; intros ?
    | apply calm_upd; intros ?; reflexivity
    | apply calm_modify; intros ?; solve [split; auto using flow_refl]
    | case_match ].

Section CalmSteps.
Context {B : Backend}.

Lemma calm_record_calls node lane c : calm (record_calls node lane c).
Proof.
  unfold record_calls. destruct c as [cs|]; calm. apply calm_modify. intros d.
  split; try done; cbn; unfold log_calls; by repeat case_match.
Qed.

Lemma calm_build_cross node : calm (build_cross node).
Proof.
  unfold build_cross. apply calm_bind; [calm|]. intros d. case_match; [calm|].
  destruct (executors_for _ _ _ _) as [w r]. calm.
Qed.

Lemma calm_end_lane node lane : calm (end_lane node lane).
Proof. unfold end_lane. calm. Qed.

Lemma calm_settle node : calm (settle_limit node).
Proof. unfold settle_limit. calm. Qed.

Lemma calm_refresh node : calm (refresh_node node).
Proof. unfold refresh_node. calm. Qed.

Lemma calm_wire node : calm (wire_forwarder node).
Proof.
  unfold wire_forwarder. apply calm_bind; [calm|]. intros d. case_match; [calm|].
  destruct (executors_for _ _ _ _) as [w r]. calm.
Qed.
End CalmSteps.
#[export] Hint Resolve calm_record_calls calm_build_cross calm_end_lane calm_settle calm_refresh
  calm_wire : calm.

Section Balance.
Context {B : Backend} (ix : PlanIndex).

Lemma bal_neutral k b e d d' : neutral d d' -> bal ix k b e d -> bal ix k b e d'.
Proof.
  intros [Hi Hq [] He Hc Ha] [Hix Hln Hby Hba Hro Htr].
  assert (forall C (f : list (list (Held Batch)) -> C),
    map (f ∘ out_queues) (states d') = map (f ∘ out_queues) (states d)) as Hqm.
  { intros C f. exact (eq_trans (eq_sym (map_map out_queues f (states d')))
                         (eq_trans (f_equal (map f) Hq) (map_map out_queues f (states d)))). }
  assert (forall c l, queue_of d' c l = queue_of d c l) as Hqo.
  { intros c l. unfold queue_of. pose proof (f_equal (fun x => x !! c) Hq) as Hx. cbn in Hx.
    rewrite !list_lookup_fmap in Hx. destruct (states d' !! c), (states d !! c); simplify_eq/=; congruence. }
  split.
  - congruence.
  - rewrite <- Hln, <- (length_map out_queues (states d)), <- Hq. by rewrite length_map.
  - unfold total_bytes. rewrite Hqm. fold (total_bytes d). lia.
  - unfold total_batches. rewrite Hqm. fold (total_batches d). lia.
  - intros p s c l Hch Hu. unfold gap, emitted_rows, consumed_rows, abandoned_rows in *.
    rewrite Hqo, He, Hc, Ha. apply Hro.
    + unfold child_of, node_at in *. by rewrite <- Hi.
    + unfold unloads, node_at in *. by rewrite <- Hi.
  - intros p s p' s' c. unfold child_of, node_at in *. rewrite Hi. apply Htr.
Qed.

Lemma bal_calm {A} (m : DM A) k b e d r d' :
  calm m -> m d = (r, d') -> bal ix k b e d -> bal ix k b e d'.
Proof. intros Hm Hr. specialize (Hm d). rewrite Hr in Hm. by apply bal_neutral. Qed.

Lemma bal_ext k b e e' d :
  (forall c l, ~ unloads d c -> e c l = e' c l) -> bal ix k b e d -> bal ix k b e' d.
Proof. intros He []. split; try done. intros p s c l Hc Hu. rewrite <- He by done. eauto. Qed.

(** ** One queue replaced *)
Definition put_queue (node lane : nat) (q : list (Held Batch)) (d : Driver) : Driver :=
  with_states (alter (fun st => set_queues (<[lane := q]> (out_queues st)) st) node (states d)) d.

Lemma queue_of_Some d node lane q :
  queue_of d node lane = Some q ->
  exists st, states d !! node = Some st /\ out_queues st !! lane = Some q.
Proof. unfold queue_of. destruct (states d !! node) as [st|]; cbn; [eauto|done]. Qed.

Lemma queue_of_put d node lane q q' c l :
  queue_of d node lane = Some q ->
  queue_of (put_queue node lane q' d) c l
  = if bool_decide (c = node /\ l = lane) then Some q' else queue_of d c l.
Proof.
  intros (st & Hst & Hq)%queue_of_Some. unfold queue_of, put_queue. cbn.
  rewrite list_lookup_alter. case_bool_decide as Hd.
  - destruct Hd as [-> ->]. rewrite decide_True by done. rewrite Hst. cbn.
    apply list_lookup_insert_eq. by eapply lookup_lt_Some.
  - destruct (decide (node = c)) as [->|]; [|done]. rewrite Hst. cbn.
    apply list_lookup_insert_ne. intros ->. by apply Hd.
Qed.

Lemma fmap_lookup {A C} (f : A -> C) (l : list A) i x : l !! i = Some x -> map f l !! i = Some (f x).
Proof. intros Hx. change (map f l) with (f <$> l). by rewrite list_lookup_fmap, Hx. Qed.

Lemma map_insert {A C} (f : A -> C) (l : list A) i x : map f (<[i := x]> l) = <[i := f x]> (map f l).
Proof. exact (list_fmap_insert f l i x). Qed.

Lemma put_totals d node lane q q' :
  queue_of d node lane = Some q ->
  (total_bytes (put_queue node lane q' d) + queue_bytes q = total_bytes d + queue_bytes q')%N
  /\ total_batches (put_queue node lane q' d) + length q = total_batches d + length q'.
Proof.
  intros (st & Hst & Hq)%queue_of_Some. unfold total_bytes, total_batches, put_queue. cbn.
  rewrite (alter_is_insert _ _ _ _ Hst), !map_insert.
  change ((node_bytes ∘ out_queues) (set_queues (<[lane:=q']> (out_queues st)) st))
    with (sumN (map queue_bytes (<[lane:=q']> (out_queues st)))).
  change ((node_batches ∘ out_queues) (set_queues (<[lane:=q']> (out_queues st)) st))
    with (sum_list (map length (<[lane:=q']> (out_queues st)))).
  rewrite !map_insert.
  pose proof (sumN_insert _ _ _ (queue_bytes q') (fmap_lookup queue_bytes _ _ _ Hq)).
  pose proof (sum_list_insert _ _ _ (length q') (fmap_lookup length _ _ _ Hq)).
  pose proof (sumN_insert _ _ _ (sumN (<[lane := queue_bytes q']> (map queue_bytes (out_queues st))))
    (fmap_lookup (node_bytes ∘ out_queues) _ _ _ Hst)).
  pose proof (sum_list_insert _ _ _ (sum_list (<[lane := length q']> (map length (out_queues st))))
    (fmap_lookup (node_batches ∘ out_queues) _ _ _ Hst)).
  cbn [compose] in *. unfold node_bytes, node_batches in *. split; lia.
Qed.

Lemma bal_put k b e d node lane q q' k' b' :
  queue_of d node lane = Some q -> bal ix k b e d ->
  (queue_bytes q + b = queue_bytes q' + b')%N -> length q + k = length q' + k' ->
  bal ix k' b' (bump e node lane (Z.of_N (queue_rows q) - Z.of_N (queue_rows q')))
    (put_queue node lane q' d).
Proof.
  intros Hq [Hix Hln Hby Hba Hro Htr] Hb Hk. destruct (put_totals d node lane q q' Hq) as [Htb Htn].
  split; cbn [d_acct put_queue with_states].
  - done.
  - cbn. by rewrite length_alter.
  - lia.
  - lia.
  - intros p s c l Hc Hu. specialize (Hro p s c l Hc Hu). unfold bump. rewrite <- Hro.
    unfold gap. rewrite (queue_of_put _ _ _ _ _ _ _ Hq). cbn [d_log put_queue with_states].
    case_bool_decide as Hd; [|lia]. destruct Hd as [-> ->]. rewrite Hq. cbn. lia.
  - intros. by apply (Htr p s p' s' c).
Qed.

(** ** The methods that move a batch or a count *)
Lemma panicking_ok {A} (f : Driver -> option A) d x d' :
  panicking f d = (Ok x, d') -> f d = Some x /\ d' = d.
Proof. unfold panicking. destruct (f d); intros [= <- <-]. done. Qed.

Lemma on_err_ok {A} (m : DM A) c d x d' : on_err m c d = (Ok x, d') -> m d = (Ok x, d').
Proof. unfold on_err. destruct (m d) as [[y|err] d1]; [done|discriminate]. Qed.

Lemma push_out_ok node lane h d u d' k b e :
  push_out node lane h d = (Ok u, d') -> bal ix (S k) (b + bytes h) e d ->
  bal ix k b (bump e node lane (- Z.of_N (held_rows h))) d'.
Proof.
  unfold push_out. intros Hr Hbal. inv_ok. apply panicking_ok in E as [Hq ->]. injection Hr as <-.
  eapply bal_ext, (bal_put _ _ _ _ _ _ x (x ++ [h])); [|done..| |].
  - intros c l _. unfold bump, queue_rows. rewrite map_app, sumN_app. cbn [map].
    rewrite sumN_cons, sumN_nil. case_bool_decide; lia.
  - unfold queue_bytes. rewrite map_app, sumN_app. cbn [map]. rewrite sumN_cons, sumN_nil. lia.
  - rewrite length_app. cbn. lia.
Qed.

Lemma pop_out_ok node lane d o d' k b e :
  pop_out node lane d = (Ok o, d') -> bal ix k b e d ->
  match o with
  | Some h => bal ix (S k) (b + bytes h) (bump e node lane (Z.of_N (held_rows h))) d'
  | None => d' = d /\ queue_of d node lane = Some []
  end.
Proof.
  unfold pop_out. intros Hr Hbal. inv_ok. apply panicking_ok in E as [Hq ->].
  destruct x as [|h rest].
  - injection Hr as <- <-. done.
  - inv_ok. injection E as <-.
    eapply bal_ext, (bal_put _ _ _ _ _ _ (h :: rest) rest); [|done..| |].
    + intros c l _. unfold bump, queue_rows. cbn [map]. rewrite sumN_cons. case_bool_decide; lia.
    + unfold queue_bytes. cbn [map]. rewrite sumN_cons. lia.
    + cbn. lia.
Qed.

Lemma at2_alter2 {A} (f : A -> A) i j m i' j' :
  at2 (alter2 f i j m) i' j'
  = if bool_decide (i' = i /\ j' = j) then f <$> at2 m i' j' else at2 m i' j'.
Proof.
  unfold at2, alter2. rewrite list_lookup_alter.
  destruct (decide (i = i')) as [->|]; [|by rewrite bool_decide_false by naive_solver].
  destruct (m !! i') as [r|]; cbn; [|by case_bool_decide].
  rewrite list_lookup_alter. destruct (decide (j = j')) as [->|].
  - by rewrite bool_decide_true.
  - by rewrite bool_decide_false by naive_solver.
Qed.

Lemma at3_alter3 {A} (f : A -> A) i j k m i' j' k' :
  at3 (alter3 f i j k m) i' j' k'
  = if bool_decide (i' = i /\ j' = j /\ k' = k) then f <$> at3 m i' j' k' else at3 m i' j' k'.
Proof.
  unfold at3, alter3. rewrite list_lookup_alter.
  destruct (decide (i = i')) as [->|]; [|by rewrite bool_decide_false by naive_solver].
  destruct (m !! i') as [r|]; cbn; [|by case_bool_decide].
  rewrite at2_alter2. destruct (decide (j' = j /\ k' = k)) as [Hd|Hd].
  - by rewrite !bool_decide_true by naive_solver.
  - by rewrite !bool_decide_false by naive_solver.
Qed.

(** A change of the log alone. *)
Lemma bal_log k b e e' d l :
  bal ix k b e d ->
  (forall p s c lane, child_of d p s = Some c -> ~ unloads d c ->
     (gap (with_log l d) p s c lane - gap d p s c lane = e' c lane - e c lane)%Z) ->
  bal ix k b e' (with_log l d).
Proof.
  intros [Hix Hln Hby Hba Hro Htr] Hg. split; [done..| |exact Htr].
  intros p s c lane Hc Hu. specialize (Hg p s c lane Hc Hu). specialize (Hro p s c lane Hc Hu). lia.
Qed.

Lemma record_emitted_ok {T} `{BatchLike T} node lane (h : Held T) d u d' k b e :
  record_emitted node lane h d = (Ok u, d') -> bal ix k b e d ->
  bal ix k b (bump e node lane (Z.of_N (held_rows h))) d'.
Proof.
  unfold record_emitted. intros Hr Hbal. inv_ok. apply panicking_ok in E as [Hat ->].
  injection Hr as <-. eapply bal_log; [done|]. intros p s c l Hc Hu.
  unfold gap, emitted_rows, bump. cbn [d_log with_log log_emitted emitted consumed abandoned].
  rewrite at2_alter2. change (queue_of (with_log _ d)) with (queue_of d).
  change (consumed_rows (log_emitted _ _ _ _)) with (consumed_rows (d_log d)).
  change (abandoned_rows (log_emitted _ _ _ _)) with (abandoned_rows (d_log d)).
  case_bool_decide as Hd; [|lia]. destruct Hd as [-> ->]. rewrite Hat. cbn.
  rewrite map_app, sumN_app. cbn [map e_rows]. rewrite sumN_cons, sumN_nil. lia.
Qed.

Lemma record_consumed_ok node slot_ c cl rows d u d' k b e :
  record_consumed node slot_ cl rows d = (Ok u, d') -> child_of d node slot_ = Some c ->
  bal ix k b e d -> bal ix k b (bump e c cl (- Z.of_N rows)) d'.
Proof.
  unfold record_consumed. intros Hr Hch Hbal. inv_ok. apply panicking_ok in E as [Hat ->].
  injection Hr as <-. eapply bal_log; [done|]. intros p s c' l Hc Hu.
  unfold gap, consumed_rows, bump. cbn [d_log with_log log_consumed emitted consumed abandoned].
  rewrite at3_alter3. change (queue_of (with_log _ d)) with (queue_of d).
  change (emitted_rows (log_consumed _ _ _ _ _)) with (emitted_rows (d_log d)).
  change (abandoned_rows (log_consumed _ _ _ _ _)) with (abandoned_rows (d_log d)).
  destruct (decide (c' = c /\ l = cl)) as [[-> ->]|Hd].
  - destruct (bal_tree _ _ _ _ _ Hbal p s node slot_ c Hc Hch) as [-> ->].
    rewrite !bool_decide_true by done. rewrite Hat. cbn. lia.
  - rewrite (bool_decide_false (c' = c /\ l = cl)) by done. rewrite bool_decide_false; [lia|].
    intros (-> & -> & ->). apply Hd. by simplify_eq.
Qed.

Lemma record_abandoned_ok node lane rows d u d' k b e :
  record_abandoned node lane rows d = (Ok u, d') -> bal ix k b e d ->
  bal ix k b (bump e node lane (- Z.of_N rows)) d'.
Proof.
  unfold record_abandoned. intros Hr Hbal. inv_ok. apply panicking_ok in E as [Hat ->].
  injection Hr as <-. eapply bal_log; [done|]. intros p s c l Hc Hu.
  unfold gap, abandoned_rows, bump. cbn [d_log with_log log_abandoned emitted consumed abandoned].
  rewrite at2_alter2. change (queue_of (with_log _ d)) with (queue_of d).
  change (emitted_rows (log_abandoned _ _ _ _)) with (emitted_rows (d_log d)).
  change (consumed_rows (log_abandoned _ _ _ _)) with (consumed_rows (d_log d)).
  case_bool_decide as Hd; [|lia]. destruct Hd as [-> ->]. rewrite Hat. cbn. lia.
Qed.

Lemma bal_flow k b e d a k1 h1 j1 f1 k' b' :
  flow (d_acct d) a k1 h1 j1 f1 -> bal ix k b e d ->
  (b + h1 = b' + f1)%N -> k + k1 = k' + j1 -> bal ix k' b' e (with_acct a d).
Proof. intros [] [Hix Hln Hby Hba Hro Htr] Hb Hk. split; [done|done| | |exact Hro|exact Htr]; cbn [d_acct with_acct];
    change (total_bytes (with_acct a d)) with (total_bytes d);
    change (total_batches (with_acct a d)) with (total_batches d); lia. Qed.

Lemma acct_dm_ok {E A} (into : E -> StepError) f (d : Driver) (x : A) d' :
  acct_dm into f d = (Ok x, d') -> exists a, f (d_acct d) = (Ok x, a) /\ d' = with_acct a d.
Proof. unfold acct_dm. destruct (f (d_acct d)) as [[y|e] a]; cbn; intros [= <- <-]. eauto. Qed.

Lemma d_release_ok c d u d' k b e :
  d_release c d = (Ok u, d') -> bal ix (S k) (b + c) e d -> bal ix k b e d'.
Proof.
  unfold d_release. intros (a & Hf & ->)%acct_dm_ok Hbal. destruct u.
  eapply bal_flow; [by apply flow_release|done|lia..].
Qed.

Lemma d_hold_ok c d u d' k b e :
  d_hold c d = (Ok u, d') -> bal ix k b e d -> bal ix (S k) (b + c) e d'.
Proof.
  unfold d_hold. intros (a & [= Ha] & ->)%acct_dm_ok Hbal. subst a.
  eapply bal_flow; [apply flow_hold|done|lia..].
Qed.

Lemma offer_ok node lane h d u d' k b e :
  offer node lane h d = (Ok u, d') -> bal ix k b e d -> bal ix k b e d'.
Proof.
  unfold offer. intros Hr. apply bal_neutral. destruct (hook d); [|injection Hr as <- <-; apply neutral_refl].
  destruct (o _ _ _ _) as [w [x|why]]; [|done]. injection Hr as <- <-. split; auto using flow_refl.
Qed.
End Balance.

(** Pushes the balance through the equation of one step. *)
Ltac bal_step :=
  match goal with
  | H : panicking _ ?d = (Ok _, _) |- _ => apply panicking_ok in H as [? ->]
  | H : get_state ?d = (Ok _, _) |- _ => injection H as <- <-
  | H : gets _ ?d = (Ok _, _) |- _ => injection H as <- <-
  | H : lift _ ?d = (Ok _, _) |- _ => injection H as H <-
  | H : on_err _ _ ?d = (Ok _, _) |- _ => apply on_err_ok in H
  | H : throw _ ?d = (Ok _, _) |- _ => discriminate H
  | H : protocol _ _ ?d = (Ok _, _) |- _ => discriminate H
  | H : push_out _ _ _ ?d = (Ok _, _), Hb : bal _ _ _ _ ?d |- _ =>
      eapply push_out_ok in H; [clear Hb|exact Hb]
  | H : record_emitted _ _ _ ?d = (Ok _, _), Hb : bal _ _ _ _ ?d |- _ =>
      eapply record_emitted_ok in H; [clear Hb|exact Hb]
  | H : record_abandoned _ _ _ ?d = (Ok _, _), Hb : bal _ _ _ _ ?d |- _ =>
      eapply record_abandoned_ok in H; [clear Hb|exact Hb]
  | H : d_release _ ?d = (Ok _, _), Hb : bal _ _ _ _ ?d |- _ =>
      eapply d_release_ok in H; [clear Hb|exact Hb]
  | H : d_hold _ ?d = (Ok _, _), Hb : bal _ _ _ _ ?d |- _ =>
      eapply d_hold_ok in H; [clear Hb|exact Hb]
  | H : offer _ _ _ ?d = (Ok _, _), Hb : bal _ _ _ _ ?d |- _ =>
      eapply offer_ok in H; [clear Hb|exact Hb]
  | H : ?m ?d = (Ok _, _), Hb : bal _ _ _ _ ?d |- _ =>
      eapply bal_calm in H; [clear Hb|solve [calm]|exact Hb]
  end.
Ltac bal_steps := repeat first [progress inv_ok | bal_step].

Ltac bal_by lem :=
  match goal with H : _ ?d = (Ok _, _), Hb : bal _ _ _ _ ?d |- _ =>
    eapply lem in H; [clear Hb|exact Hb] end.
Ltac bal_lia := cbn [length map in_count in_bytes_of]; rewrite ?sumN_cons, ?sumN_nil; lia.

Section Composites.
Context {B : Backend} (ix : PlanIndex).

Lemma bal_eq k b e k' b' e' d :
  bal ix k b e d -> k = k' -> b = b' ->
  (forall c l, category (nodes ix !!! c) <> CUnload -> e c l = e' c l) -> bal ix k' b' e' d.
Proof.
  intros Hb <- <- He. eapply bal_ext, Hb. intros c l Hu. apply He. unfold unloads, node_at in Hu.
  by rewrite (bal_index _ _ _ _ _ Hb) in Hu.
Qed.

Lemma bump_cancel (e : nat -> nat -> Z) c l x y c' l' :
  (x + y = 0)%Z -> bump (bump e c l x) c l y c' l' = e c' l'.
Proof. intros Hxy. unfold bump. case_bool_decide; lia. Qed.

Lemma bal_child k b e d p s c :
  bal ix k b e d -> child_of d p s = Some c -> in_children (nodes ix !!! p) !! s = Some c.
Proof. intros Hb. unfold child_of, node_at. by rewrite (bal_index _ _ _ _ _ Hb). Qed.

Lemma take_input_ok node lane c d o d' k b e :
  take_input node lane c d = (Ok o, d') -> bal ix k b e d ->
  bal ix (k + in_count o) (b + in_bytes_of o) e d' /\ (o = None -> needs_its_batch c = false).
Proof.
  unfold take_input. intros Hr Hb. bal_steps.
  pose proof (pop_out_ok _ _ _ _ _ _ _ _ _ E1 Hb) as Hp. destruct x1 as [h|].
  - bal_steps. split; [|done].
    assert (child_of s1 node x = Some x0) as Hch.
    { pose proof (bal_index _ _ _ _ _ Hp) as Hi. pose proof (bal_index _ _ _ _ _ Hb) as Hj.
      unfold child_of, node_at in *. by rewrite Hi, <- Hj. }
    eapply bal_eq; [eapply record_consumed_ok; eassumption|cbn; lia|done|].
    intros. apply bump_cancel. lia.
  - destruct Hp as [-> _]. destruct (negb (needs_its_batch c)) eqn:Hn; bal_steps.
    split; [|by intros; apply negb_true_iff]. eapply bal_eq; [exact Hb|bal_lia..|done].
Qed.

Lemma call_lane_ok node lane c input rows d o d' k b e :
  call_lane node lane c input rows d = (Ok o, d') -> (consumes c = None -> input = None) ->
  bal ix (k + in_count input) (b + in_bytes_of input) e d ->
  bal ix (k + length (out_bytes o)) (b + sumN (out_bytes o)) e d'.
Proof.
  unfold call_lane. intros Hr Hin Hb. destruct (lane_of d node lane) as [l|]; [|done].
  destruct (run_lane _ _ _ _ _) as [r s'] eqn:Hrun. injection Hr as -> <-.
  apply run_lane_ran in Hrun as [Hflow _]; [|done]. cbn [l_acct] in Hflow.
  set (d1 := with_acct (l_acct s') (with_world (l_world s') d)).
  assert (bal ix (k + length (out_bytes o)) (b + sumN (out_bytes o)) e d1) as Hb1.
  { apply (bal_flow ix (k + in_count input) (b + in_bytes_of input) e (with_world (l_world s') d) _
      _ _ _ _ _ _ Hflow); [|lia..].
    eapply bal_neutral, Hb. split; auto using flow_refl. }
  revert Hb1. apply bal_neutral.
  by refine (calm_upd node (fun st => set_lane_drivers (<[lane := l_state s']> (lane_drivers st)) st)
              _ d1).
Qed.

Lemma queue_device_ok node lane limited bs d u d' k b e :
  queue_device node lane limited bs d = (Ok u, d') ->
  bal ix (k + length bs) (b + sumN (map bytes bs)) e d -> bal ix k b e d'.
Proof.
  revert d e. induction bs as [|h bs IH]; intros d e Hr Hb; cbn [queue_device] in Hr.
  - injection Hr as _ <-. eapply bal_eq; [exact Hb|bal_lia..|done].
  - inv_ok. eapply (IH s2); [exact Hr|].
    eapply record_emitted_ok in E; [|exact Hb].
    eapply bal_calm in E0; [|destruct limited; calm|exact E].
    apply on_err_ok in E1. eapply offer_ok in E1; [|exact E0].
    eapply (push_out_ok ix _ _ _ _ _ _ (k + length bs) (b + sumN (map bytes bs))) in E2;
      [|eapply bal_eq; [exact E1|bal_lia..|done]].
    eapply bal_eq; [exact E2|reflexivity..|]. intros. apply bump_cancel. lia.
Qed.

Lemma hand_over_ok node lane bs d u d' k b e :
  forM bs (hand_over node lane) d = (Ok u, d') -> category (nodes ix !!! node) = CUnload ->
  bal ix (k + length bs) (b + sumN (map bytes bs)) e d -> bal ix k b e d'.
Proof.
  intros Hr Hu. revert d e Hr. induction bs as [|h bs IH]; intros d e Hr Hb; cbn [forM] in Hr.
  - injection Hr as _ <-. eapply bal_eq; [exact Hb|bal_lia..|done].
  - inv_ok. eapply (IH s); [exact Hr|]. unfold hand_over in E. inv_ok.
    eapply record_emitted_ok in E0; [|exact Hb].
    eapply (d_release_ok ix _ _ _ _ (k + length bs) (b + sumN (map bytes bs))) in E1;
      [|eapply (bal_eq _ _ _ _ _ e); [exact E0|bal_lia..|]].
    + eapply bal_calm in E; [exact E|calm|exact E1].
    + intros c l Hc. unfold bump. rewrite bool_decide_false; [lia|]. intros [-> _]. done.
Qed.

(** Only an unload's call answers on the host. *)
Lemma host_is_unload site c input rows s o s' :
  run_lane (B:=B) site c input rows s = (Ok o, s') ->
  match outputs o with Host _ => c = LUnload | Device _ => True end.
Proof.
  unfold run_lane. intros Hr. inv_ok. destruct (is_finished _); [done|]. inv_ok.
  destruct c; try (destruct (outputs o); done);
    unfold run_end_of_input, source_step, run_exec, run_accumulate, run_mark_done, run_set_build,
      run_drop_probe, run_probe, run_finish in Hr; inv_ok;
    repeat (case_match; inv_ok); try done; try discriminate;
    injection Hr as <- _; done.
Qed.

Lemma call_lane_host node lane c input rows d o d' :
  call_lane (B:=B) node lane c input rows d = (Ok o, d') ->
  match outputs o with Host _ => c = LUnload | Device _ => True end.
Proof.
  unfold call_lane. destruct (lane_of d node lane) as [l|]; [|done].
  destruct (run_lane _ _ _ _ _) as [r s'] eqn:Hrun. intros [= -> _]. by eapply host_is_unload.
Qed.

Lemma lane_called_ok node lane c arriving input rows d u d' k b e :
  lane_called node lane c arriving input rows d = (Ok u, d') ->
  (consumes c = None -> input = None) ->
  (c = LUnload -> category (nodes ix !!! node) = CUnload) ->
  bal ix (k + in_count input) (b + in_bytes_of input) e d -> bal ix k b e d'.
Proof.
  unfold lane_called. intros Hr Hin Hu Hb. inv_ok.
  pose proof (call_lane_host _ _ _ _ _ _ _ _ E) as Hhost.
  eapply call_lane_ok in E; [|done|exact Hb].
  do 2 bal_step.
  assert (bal ix k b e s2) as Hb1.
  { unfold out_bytes in *. destruct (outputs x) as [bs|bs]; rewrite ?length_map in *.
    - by eapply queue_device_ok; [exact E2|].
    - eapply hand_over_ok; [exact E2|by apply Hu|done]. }
  clear E0 E2. bal_steps. exact Hr.
Qed.

Lemma select_unload (l : LaneState (B:=B)) cat av c :
  select l cat av = Ok c -> c = LUnload -> cat = CUnload.
Proof. intros Hs ->. destruct cat; cbn in Hs; repeat case_match; simplify_eq; done. Qed.

Lemma lane_unwanted_ok node lane c arriving d u d' k b e :
  lane_unwanted node lane c arriving d = (Ok u, d') -> bal ix k b e d -> bal ix k b e d'.
Proof.
  unfold lane_unwanted. intros Hr Hb. inv_ok.
  eapply take_input_ok in E as [E _]; [|exact Hb]. clear Hb. bal_step. subst x.
  cbn [in_count in_bytes_of] in E. eapply bal_eq in E; [|apply Nat.add_1_r|reflexivity|reflexivity].
  bal_steps. exact Hr.
Qed.

(** The input taken for a call, or none for a call that consumes nothing. *)
Lemma taken_ok node lane c d o d' k b e :
  (if bool_decide (is_Some (consumes c)) then take_input node lane c else mret None) d = (Ok o, d') ->
  bal ix k b e d ->
  bal ix (k + in_count o) (b + in_bytes_of o) e d' /\ (consumes c = None -> o = None).
Proof.
  intros Ht Hb. case_bool_decide as Hc.
  - eapply take_input_ok in Ht as [Ht _]; [|exact Hb]. split; [done|]. intros Hn. rewrite Hn in Hc.
    by destruct Hc.
  - injection Ht as <- <-. split; [|done]. eapply bal_eq; [exact Hb|bal_lia..|done].
Qed.

Lemma lane_turn_ok node lane d u d' k b e :
  lane_turn node lane d = (Ok u, d') -> bal ix k b e d -> bal ix k b e d'.
Proof.
  unfold lane_turn. intros Hr Hb. inv_ok. bal_step. bal_step. bal_step.
  destruct (negb _); [injection Hr as <-; exact Hb|]. inv_ok. bal_step.
  assert (x = LUnload -> category (nodes ix !!! node) = CUnload) as Hun.
  { intros Hc. destruct (select _ _ _) eqn:Hsel; [|done]. injection E as ->.
    rewrite <- (bal_index _ _ _ _ _ Hb). by eapply select_unload. }
  destruct (in_interval _) as [iv|];
    [destruct (bool_decide (category _ = CUnload) && _) eqn:Hc|]; inv_ok.
  2-3: apply (taken_ok _ _ _ _ _ _ k b e) in E0 as [Hb' Hn]; [|exact Hb]; by eapply lane_called_ok.
  repeat bal_step. destruct x4 as [rows|]; [|by eapply lane_unwanted_ok].
  inv_ok. apply andb_true_iff in Hc as [_ Hc].
  eapply (taken_ok node lane x) in Hb as [Hb' Hn]; [|by rewrite Hc]. by eapply lane_called_ok.
Qed.

Lemma forM_bal {A} (l : list A) (body : A -> DM ()) d u d' k b e :
  (forall x d u d', body x d = (Ok u, d') -> bal ix k b e d -> bal ix k b e d') ->
  forM l body d = (Ok u, d') -> bal ix k b e d -> bal ix k b e d'.
Proof.
  intros Hbody. revert d. induction l as [|x l IH]; intros d Hr Hb; cbn [forM] in Hr.
  - by injection Hr as _ <-.
  - inv_ok. eapply IH; [exact Hr|]. by eapply Hbody.
Qed.

Lemma run_lane_scoped_ok node d u d' k b e :
  run_lane_scoped node d = (Ok u, d') -> bal ix k b e d -> bal ix k b e d'.
Proof.
  unfold run_lane_scoped. intros Hr Hb. inv_ok. bal_step.
  eapply forM_bal; [|exact Hr|exact Hb]. intros. by eapply lane_turn_ok.
Qed.

Lemma queue_output_ok node lane out d u d' k b e :
  queue_output node lane out d = (Ok u, d') -> bal ix k b e d -> bal ix k b e d'.
Proof.
  unfold queue_output. intros Hr Hb. bal_steps.
  eapply bal_eq; [exact Hr|done..|]. intros. apply bump_cancel. lia.
Qed.

Lemma queue_scatter_ok node lane outs d n_ d' k b e :
  queue_scatter node lane outs d = (Ok n_, d') -> bal ix k b e d -> bal ix k b e d'.
Proof.
  revert lane d n_. induction outs as [|out outs IH]; intros lane d n_ Hr Hb; cbn [queue_scatter] in Hr.
  - by injection Hr as _ <-.
  - destruct (_ =? 0)%N; [by eapply IH|]. inv_ok. eapply IH; [exact E0|]. by eapply queue_output_ok.
Qed.

(** A batch popped from a child and recorded as consumed is what a call then owes. *)
Lemma popped_ok node slot_ c lane d h d' d'' u k b e :
  pop_out c lane d = (Ok (Some h), d') -> child_of d node slot_ = Some c ->
  record_consumed node slot_ lane (held_rows h) d' = (Ok u, d'') -> bal ix k b e d ->
  bal ix (S k) (b + bytes h) e d''.
Proof.
  intros Hp Hch Hc Hb. pose proof (pop_out_ok _ _ _ _ _ _ _ _ _ Hp Hb) as Hb'. cbn in Hb'.
  eapply record_consumed_ok in Hc; [|..|exact Hb'].
  - eapply bal_eq; [exact Hc|done..|]. intros. apply bump_cancel. lia.
  - unfold child_of, node_at in *. by rewrite (bal_index _ _ _ _ _ Hb'), <- (bal_index _ _ _ _ _ Hb).
Qed.

Lemma run_emitter_ok node d u d' k b e :
  run_emitter node d = (Ok u, d') -> bal ix k b e d -> bal ix k b e d'.
Proof.
  unfold run_emitter. intros Hr Hb. inv_ok. do 3 bal_step.
  destruct x2 as [h|].
  - inv_ok. eapply popped_ok in E2; [|done..].
    destruct (emit _ _ _) as [[w em] r]. bal_steps. destruct x6 as [outs stats]. inv_ok.
    bal_step. bal_by queue_scatter_ok. bal_steps. exact Hr.
  - apply (pop_out_ok ix _ _ _ _ _ k b e) in E2 as [-> _]; [|done]. bal_steps. exact Hr.
Qed.

Lemma accumulator_event_ok node child lane d u d' k b e :
  accumulator_event node child lane d = (Ok u, d') -> child_of d node 0 = Some child ->
  bal ix k b e d -> bal ix k b e d'.
Proof.
  unfold accumulator_event. intros Hr Hch Hb. inv_ok. injection E as <- <-.
  assert (bal ix (k + in_count x0) (b + in_bytes_of x0) e s1) as Hb1.
  { destruct x0 as [h|].
    - eapply popped_ok in E1; [|done..]. eapply bal_eq; [exact E1|bal_lia..|done].
    - apply (pop_out_ok ix _ _ _ _ _ k b e) in E0 as [-> _]; [|done].
      eapply bal_calm in E1; [|calm|exact Hb]. eapply bal_eq; [exact E1|bal_lia..|done]. }
  clear E0 E1 Hb. repeat bal_step.
  destruct (lane_event _ _ _ _) as [[w acc] r]. inv_ok. do 2 bal_step.
  assert (bal ix k b e s6) as Hb6.
  { destruct x0 as [h|].
    - eapply d_release_ok; [exact E1|]. eapply bal_eq; [exact E0|bal_lia..|done].
    - injection E1 as <-. eapply bal_eq; [exact E0|bal_lia..|done]. }
  clear E0 E1. destruct x5 as [outs stats]. bal_step. inv_ok.
  assert (bal ix k b e s8) as Hb8.
  { eapply forM_bal; [|eassumption|exact E2]. intros. by eapply queue_output_ok. }
  clear E2. bal_steps. exact Hr.
Qed.

Lemma child_bal k b e d d0 node child s :
  bal ix k b e d -> bal ix k b e d0 -> child_of d node s = Some child -> child_of d0 node s = Some child.
Proof.
  intros Hb Hb0. unfold child_of, node_at.
  by rewrite (bal_index _ _ _ _ _ Hb), (bal_index _ _ _ _ _ Hb0).
Qed.

Lemma run_partition_accumulator_ok node d u d' k b e :
  run_partition_accumulator node d = (Ok u, d') -> bal ix k b e d -> bal ix k b e d'.
Proof.
  unfold run_partition_accumulator. intros Hr Hb. inv_ok. do 4 bal_step.
  assert (bal ix k b e s2) as Hb2.
  { eapply (forM_bal _ _ d); [|exact E2|exact Hb]. intros lane d0 u0 d1 Ht Hb0.
    unfold accumulator_turn in Ht. inv_ok. do 3 bal_step. destruct (_ && _).
    - by injection Ht as <-.
    - eapply accumulator_event_ok; [exact Ht|exact (child_bal _ _ _ _ _ _ _ _ Hb Hb0 H0)|exact Hb0]. }
  clear E2 Hb. bal_steps. exact Hr.
Qed.

Lemma forward_from_ok node lane start sources offsets d m d' k b e :
  forward_from node lane start sources offsets d = (Ok m, d') -> bal ix k b e d -> bal ix k b e d'.
Proof.
  revert d. induction offsets as [|offset_ offsets IH]; intros d Hr Hb; cbn [forward_from] in Hr.
  - by injection Hr as _ <-.
  - inv_ok. bal_step. destruct x; [by eapply IH|]. inv_ok. do 2 bal_step. destruct x1 as [h|].
    + inv_ok.
      match goal with H : record_consumed _ _ _ _ _ = _ |- _ => eapply popped_ok in H; [|done..] end.
      clear Hb. bal_steps.
      eapply bal_eq; [eassumption|done..|]. intros. apply bump_cancel. lia.
    + match goal with H : pop_out _ _ _ = _ |- _ =>
        apply (pop_out_ok ix _ _ _ _ _ k b e) in H as [-> _]; [|done] end.
      bal_steps. by eapply IH.
Qed.

Lemma run_forwarder_ok node d u d' k b e :
  run_forwarder node d = (Ok u, d') -> bal ix k b e d -> bal ix k b e d'.
Proof.
  unfold run_forwarder. intros Hr Hb. inv_ok. bal_step.
  eapply forM_bal; [|exact Hr|exact Hb]. clear. intros lane d u d' Ht Hb.
  unfold forwarder_turn in Ht. inv_ok. bal_step. destruct x; [by injection Ht as <-|].
  unfold forward_one in Ht. inv_ok. do 2 bal_step. bal_by forward_from_ok.
  destruct x; bal_steps; exact Ht.
Qed.

Lemma run_node_ok node d u d' k b e :
  run_node node d = (Ok u, d') -> bal ix k b e d -> bal ix k b e d'.
Proof.
  unfold run_node. intros Hr Hb. inv_ok. bal_step.
  assert (bal ix k b e s0) as Hb0.
  { destruct (category (node_at d node));
      eauto using run_lane_scoped_ok, run_emitter_ok, run_partition_accumulator_ok, run_forwarder_ok. }
  clear E0 Hb. bal_steps. exact Hr.
Qed.

Lemma step_ok d m d' k b e : step d = (Ok m, d') -> bal ix k b e d -> bal ix k b e d'.
Proof.
  unfold step. intros Hr Hb. inv_ok. bal_step. destruct (next _); [|by injection Hr as _ <-].
  unfold run_picked in Hr. inv_ok. do 2 bal_step. bal_by run_node_ok. bal_steps. exact E.
Qed.

Lemma drive_loop_ok fuel max d u d' k b e :
  drive_loop fuel max d = (Ok u, d') -> bal ix k b e d -> bal ix k b e d'.
Proof.
  revert d. induction fuel as [|fuel IH]; intros d Hr Hb; [done|]. cbn [drive_loop] in Hr. inv_ok.
  bal_by step_ok. destruct x; [|by injection Hr as <-]. inv_ok. bal_step.
  destruct (_ <? _); [done|]. by eapply IH.
Qed.

(** ** The end of a run leaves no queue standing *)
Definition empty_at (d : Driver) (c l : nat) : Prop :=
  match queue_of d c l with Some q => q = [] | None => True end.

(** Queues only lose batches, from the front. *)
Definition shrinks (d d' : Driver) : Prop :=
  forall c l, exists j, queue_of d' c l = drop j <$> queue_of d c l.

Lemma shrinks_refl d : shrinks d d.
Proof. intros c l. exists 0. by destruct (queue_of d c l). Qed.

Lemma shrinks_trans d1 d2 d3 : shrinks d1 d2 -> shrinks d2 d3 -> shrinks d1 d3.
Proof.
  intros H1 H2 c l. destruct (H1 c l) as [j Hj], (H2 c l) as [j' Hj']. exists (j + j').
  rewrite Hj', Hj. destruct (queue_of d1 c l); cbn; [by rewrite drop_drop|done].
Qed.

Lemma shrinks_empty d d' c l : shrinks d d' -> empty_at d c l -> empty_at d' c l.
Proof.
  intros Hs. unfold empty_at. destruct (Hs c l) as [j ->]. destruct (queue_of d c l); cbn; [|done].
  intros ->. by rewrite drop_nil.
Qed.

Lemma pop_out_queues node lane (d : Driver) o d' :
  pop_out node lane d = (Ok o, d') ->
  exists q, queue_of d node lane = Some q /\ queue_of d' node lane = Some (drop 1 q)
    /\ shrinks d d'.
Proof.
  unfold pop_out. intros Hr. inv_ok. apply panicking_ok in E as [Hq ->]. exists x. split; [done|].
  destruct x as [|h rest].
  - injection Hr as _ <-. split; [done|apply shrinks_refl].
  - inv_ok. injection E as <-.
    pose proof (fun c l => queue_of_put d node lane _ rest c l Hq) as Hp. unfold put_queue in Hp. split.
    + by rewrite Hp, bool_decide_true.
    + intros c l. rewrite Hp. case_bool_decide as Hd.
      * destruct Hd as [-> ->]. exists 1. by rewrite Hq.
      * exists 0. by destruct (queue_of d c l).
Qed.

Lemma drain_one_ok node lane d u d' k b e :
  drain_one node lane d = (Ok u, d') -> bal ix k b e d ->
  bal ix k b e d' /\ shrinks d d'
  /\ queue_of d' node lane = drop 1 <$> queue_of d node lane.
Proof.
  unfold drain_one. intros Hr Hb. inv_ok.
  pose proof (pop_out_queues _ _ _ _ _ E) as (q & Hq & Hq' & Hs).
  pose proof (pop_out_ok _ _ _ _ _ _ _ _ _ E Hb) as Hp.
  assert (bal ix k b e d' /\ states d' = states s) as [Hb' Hst].
  { destruct x as [h|]; [|injection Hr as <-; by destruct Hp as [-> _]]. inv_ok.
    assert (states s0 = states s) as Hs0.
    { revert E0. unfold record_abandoned. intros Ha. inv_ok. bal_step.
      match goal with H : modify _ _ = _ |- _ => by injection H as <- end. }
    eapply record_abandoned_ok in E0; [|exact Hp].
    pose proof Hr as Hr'. unfold d_release in Hr'. apply acct_dm_ok in Hr' as (a & _ & ->).
    split; [|done]. eapply d_release_ok in Hr; [|exact E0].
    eapply bal_eq; [exact Hr|done..|]. intros. apply bump_cancel. lia. }
  assert (forall c l, queue_of d' c l = queue_of s c l) as Hqs
    by (intros; unfold queue_of; by rewrite Hst).
  split_and!; [done| |by rewrite Hqs, Hq', Hq].
  intros c l. rewrite Hqs. apply Hs.
Qed.

Lemma drain_lane_ok node lane d u d' k b e :
  drain_lane node lane d = (Ok u, d') -> bal ix k b e d ->
  bal ix k b e d' /\ shrinks d d' /\ empty_at d' node lane.
Proof.
  unfold drain_lane. intros Hr Hb. inv_ok. apply panicking_ok in E as [Hq ->].
  assert (forall (l : list (Held Batch)) d0 d1, forM l (fun _ => drain_one node lane) d0 = (Ok (), d1) ->
    bal ix k b e d0 -> bal ix k b e d1 /\ shrinks d0 d1
    /\ queue_of d1 node lane = drop (length l) <$> queue_of d0 node lane) as Hloop.
  { induction l as [|h0 l IH]; intros d0 d1 Hl Hb0; cbn [forM] in Hl.
    - injection Hl as <-. split_and!; [done|apply shrinks_refl|by destruct (queue_of d0 node lane)].
    - inv_ok. apply (drain_one_ok _ _ _ _ _ k b e) in E as (Hb1 & Hs1 & Hq1); [|done].
      destruct (IH s d1 Hl Hb1) as (Hb2 & Hs2 & Hq2).
      split_and!; [done|by eapply shrinks_trans|]. rewrite Hq2, Hq1.
      destruct (queue_of d0 node lane); cbn; [by rewrite drop_drop|done]. }
  destruct (Hloop _ _ _ Hr Hb) as (Hb1 & Hs1 & Hq1). split_and!; [done..|].
  unfold empty_at. rewrite Hq1, Hq. cbn. apply drop_ge. done.
Qed.

(** Emptying one part after another empties them all. *)
Lemma forM_empties {A} (l : list A) (body : A -> DM ()) (part : A -> nat -> nat -> Prop) d u d' k b e :
  (forall x d u d', body x d = (Ok u, d') -> bal ix k b e d ->
     bal ix k b e d' /\ shrinks d d' /\ forall c j, part x c j -> empty_at d' c j) ->
  forM l body d = (Ok u, d') -> bal ix k b e d ->
  bal ix k b e d' /\ shrinks d d' /\ forall x c j, x ∈ l -> part x c j -> empty_at d' c j.
Proof.
  intros Hbody. revert d. induction l as [|x l IH]; intros d Hr Hb; cbn [forM] in Hr.
  - injection Hr as _ <-. split_and!; [done|apply shrinks_refl|]. intros x c j Hx. set_solver.
  - inv_ok. apply Hbody in E as (Hb1 & Hs1 & He1); [|done].
    destruct (IH s Hr Hb1) as (Hb2 & Hs2 & He2).
    split_and!; [done|by eapply shrinks_trans|]. intros y c j [->|Hy]%elem_of_cons Hp; [|by eapply He2].
    eapply shrinks_empty; [exact Hs2|by apply He1].
Qed.

Lemma queue_of_lt d c j q :
  queue_of d c j = Some q -> length (states d) = length (nodes ix) ->
  c < length (nodes ix) /\ exists st, states d !! c = Some st /\ j < length (out_queues st).
Proof.
  intros (st & Hst & Hj)%queue_of_Some Hl. apply lookup_lt_Some in Hj.
  split; [rewrite <- Hl; by eapply lookup_lt_Some|eauto].
Qed.

Lemma release_in_flight_ok d u d' k b e :
  release_in_flight d = (Ok u, d') -> bal ix k b e d ->
  bal ix k b e d' /\ forall c j, empty_at d' c j.
Proof.
  unfold release_in_flight. intros Hr Hb. inv_ok. bal_step.
  apply (forM_empties _ _ (fun node c j => c = node) _ _ _ k b e) in Hr as (Hb' & Hs & He); [|clear|done].
  - split; [done|]. intros c j. unfold empty_at. destruct (queue_of d' c j) eqn:Hq; [|done].
    pose proof (queue_of_lt _ _ _ _ Hq (bal_len _ _ _ _ _ Hb')) as [Hc _].
    specialize (He c c j). unfold empty_at in He. rewrite Hq in He. apply He; [|done].
    apply elem_of_seq. unfold index_len. rewrite (bal_index _ _ _ _ _ Hb). lia.
  - intros node d u d' Hr Hb. inv_ok. bal_step.
    destruct (states d !! node) as [st|] eqn:Hst; [|done]. injection H as <-.
    apply (forM_empties _ _ (fun lane c j => c = node /\ j = lane) _ _ _ k b e) in Hr
      as (Hb' & Hs & He); [|clear|done].
    + split_and!; [done..|]. intros c j ->. destruct (queue_of d node j) as [q|] eqn:Hq.
      * apply (He j); [|done]. apply elem_of_seq. unfold queue_of in Hq. rewrite Hst in Hq.
        apply lookup_lt_Some in Hq. cbn in *. lia.
      * unfold empty_at. destruct (Hs node j) as [x ->]. by rewrite Hq.
    + intros lane d u d' Hr Hb. apply (drain_lane_ok _ _ _ _ _ k b e) in Hr as (? & ? & ?); [|done].
      split_and!; [done..|]. by intros c j [-> ->].
Qed.

Lemma finish_ok d u d' k b e :
  finish d = (Ok u, d') -> bal ix k b e d -> bal ix k b e d' /\ forall c j, empty_at d' c j.
Proof.
  unfold finish. intros Hr Hb. inv_ok. bal_step. destruct (any_satisfied _).
  - by eapply release_in_flight_ok.
  - unfold assert_drained in Hr. inv_ok. bal_step. destruct (negb _); [done|]. inv_ok. bal_step.
    destruct (stranded d) eqn:Hs; [done|]. injection Hr as <-. split; [done|]. intros c j.
    unfold empty_at. destruct (queue_of d c j) as [q|] eqn:Hq; [|done].
    pose proof (queue_of_lt _ _ _ _ Hq (bal_len _ _ _ _ _ Hb)) as [Hc (st & Hst & _)].
    destruct q as [|h q]; [done|]. exfalso. unfold stranded in Hs.
    rewrite <- not_true_iff_false in Hs. apply Hs. apply existsb_exists. exists c. split.
    + apply in_seq. unfold index_len. rewrite (bal_index _ _ _ _ _ Hb). lia.
    + rewrite Hst. apply existsb_exists. exists (h :: q). split; [|done].
      unfold queue_of in Hq. rewrite Hst in Hq. apply list_elem_of_In.
      by eapply list_elem_of_lookup_2.
Qed.

(** ** From the first state to the report *)
Lemma empty_totals d :
  (forall c j, empty_at d c j) -> total_bytes d = 0%N /\ total_batches d = 0.
Proof.
  intros He.
  assert (forall st q, st ∈ states d -> q ∈ out_queues st -> q = []) as Hq.
  { intros st q [c Hc]%list_elem_of_lookup_1 [j Hj]%list_elem_of_lookup_1.
    specialize (He c j). unfold empty_at, queue_of in He. rewrite Hc in He. cbn in He.
    by rewrite Hj in He. }
  split; [apply sumN_zero|apply sum_list_zero]; intros x (st & -> & Hst)%list_elem_of_fmap;
    [apply sumN_zero|apply sum_list_zero]; intros y (q & -> & Hin)%list_elem_of_fmap;
    by rewrite (Hq st q).
Qed.

Lemma settled d b k :
  bal ix k b even d -> (forall c j, empty_at d c j) ->
  in_flight_bytes (d_acct d) = b /\ holds (d_acct d) = releases (d_acct d) + k
  /\ forall p s c l, in_children (nodes ix !!! p) !! s = Some c ->
       category (nodes ix !!! c) <> CUnload ->
       (consumed_rows (d_log d) p s l + abandoned_rows (d_log d) c l
        = emitted_rows (d_log d) c l)%N.
Proof.
  intros [Hix Hln Hby Hba Hro Htr] He. destruct (empty_totals d He) as [Ht Hn].
  split_and!; [lia|lia|]. intros p s c l Hc Hu.
  assert (gap d p s c l = 0%Z) as Hg.
  { apply Hro; unfold child_of, unloads, node_at; by rewrite Hix. }
  unfold gap in Hg. specialize (He c l). unfold empty_at in He.
  assert (queue_rows (default [] (queue_of d c l)) = 0%N) as Hz
    by (destruct (queue_of d c l); cbn; by rewrite ?He).
  lia.
Qed.
End Composites.

Section Theorems.
Context {B : Backend}.

Lemma index_tree ix p s p' s' c :
  wf_index ix -> in_children (nodes ix !!! p) !! s = Some c ->
  in_children (nodes ix !!! p') !! s' = Some c -> p = p' /\ s = s'.
Proof.
  intros Hwf Hp Hp'.
  assert (forall p s, in_children (nodes ix !!! p) !! s = Some c ->
    exists x, nodes ix !! p = Some x /\ in_children x !! s = Some c) as Hin.
  { intros q t Hq. rewrite list_lookup_total_alt in Hq. destruct (nodes ix !! q); [eauto|].
    cbn in Hq. by destruct t. }
  destruct (Hin _ _ Hp) as (x & Hx & Hs), (Hin _ _ Hp') as (x' & Hx' & Hs').
  destruct (wf_child _ Hwf _ _ _ _ Hx Hs) as (y & h & Hy & Hpar & _).
  destruct (wf_child _ Hwf _ _ _ _ Hx' Hs') as (y' & h' & Hy' & Hpar' & _).
  simplify_eq. split; [done|]. destruct (wf_node _ Hwf _ _ Hx) as (_ & _ & _ & _ & _ & Hnd & _).
  by eapply NoDup_lookup.
Qed.

Lemma at2_replicate {A X} (f : X -> nat) (v : A) (l : list X) c j :
  default v (at2 (map (fun x => replicate (f x) v) l) c j) = v.
Proof.
  unfold at2. change (map ?g l) with (g <$> l). rewrite list_lookup_fmap.
  destruct (l !! c); cbn; [|done]. destruct (replicate _ _ !! j) eqn:Hr; [|done].
  by apply lookup_replicate in Hr as [-> _].
Qed.

Lemma fresh_bal root w budget_ look :
  sinks_have_input root -> bal (build root) 0 0 even (fresh root w budget_ look).
Proof.
  intros Hsinks. set (d := fresh root w budget_ look).
  assert (forall c j, empty_at d c j) as He.
  { intros c j. unfold empty_at, queue_of. cbn. change (map ?g ?l) with (g <$> l).
    rewrite list_lookup_fmap. destruct (nodes (build root) !! c); cbn; [|done].
    case_match eqn:Hr; [|done]. by apply lookup_replicate in Hr as [-> _]. }
  destruct (empty_totals d He) as [Ht Hn]. split; [done|apply length_map|by rewrite Ht|by rewrite Hn| |].
  - intros p s c l _ _. unfold gap, emitted_rows, consumed_rows, abandoned_rows. cbn.
    rewrite (at2_replicate lanes []), (at2_replicate lanes 0%N).
    replace (default 0%N (at3 _ p s l)) with 0%N.
    + specialize (He c l). unfold empty_at in He. destruct (queue_of d c l); cbn; by rewrite ?He.
    + unfold at3. change (map ?g (nodes (build root))) with (g <$> nodes (build root)).
      rewrite list_lookup_fmap. destruct (nodes (build root) !! p) as [x|]; cbn; [|done].
      symmetry. apply (at2_replicate (fun c => lanes (nodes (build root) !!! c)) 0%N).
  - intros p s p' s' c. apply index_tree. by apply build_wf.
Qed.

Lemma driver_new_bal root w budget_ look d :
  sinks_have_input root -> driver_new root w budget_ look = Ok d -> bal (build root) 0 0 even d.
Proof.
  unfold driver_new. intros Hs Hr. inv_ok.
  destruct (wire_forwarders _) as [[u|err] d1] eqn:Hw; [|done]. injection Hr as <-.
  eapply bal_calm; [|exact Hw|by apply fresh_bal]. unfold wire_forwarders. calm.
Qed.

Lemma run_ok root w budget_ look max r :
  run root w budget_ look max = Some (Ok r) -> sinks_have_input root ->
  exists d, r = report d /\ bal (build root) 0 0 even d /\ (forall c j, empty_at d c j).
Proof.
  unfold run, run_driver, run_to_end. intros Hr Hs.
  destruct (driver_new _ _ _ _) as [d|[]] eqn:Hnew; [|done..].
  apply driver_new_bal in Hnew; [|done].
  destruct (on_err _ _ d) as [[u|[]] d1] eqn:Hd; [|done..]. injection Hr as <-. exists d1.
  split; [done|]. apply on_err_ok in Hd. unfold drive in Hd. inv_ok.
  assert (bal (build root) 0 0 even s) as Hb.
  { eapply bal_calm; [|exact E|exact Hnew]. unfold seed. calm. }
  bal_step. bal_by drive_loop_ok. by eapply finish_ok.
Qed.

(** Nothing in flight, and every batch held let go. *)
Definition books_settled (r : RunReport) : Prop :=
  report_in_flight r = 0%N /\ report_holds r = report_releases r.

(** C12: a run that answers has settled its books, whatever the backend, the budget and the hook: no
    byte is left in flight, and every batch held was released, on the drained path and on the
    early exit of a satisfied limit alike. *)
Theorem answered_run_settles_the_books (root : GpuNode) (w : World) (budget_ : option N)
    (look : option OutputHook) (max : nat) (r : RunReport)
    (Hrun : run root w budget_ look max = Some (Ok r)) (Hsinks : sinks_have_input root) :
  books_settled r.
Proof.
  destruct (run_ok _ _ _ _ _ _ Hrun Hsinks) as (d & -> & Hb & He).
  destruct (settled _ _ _ _ Hb He) as (Hf & Hh & _). unfold books_settled. cbn. split; [done|lia].
Qed.

(** C18: a run that answers has accounted for every row between two nodes: for every node but an
    unload, lane by lane, the rows its parent consumed and the rows an early exit abandoned in its
    queue are exactly the rows it emitted. *)
Theorem rows_consumed_or_abandoned (root : GpuNode) (w : World) (budget_ : option N)
    (look : option OutputHook) (max : nat) (r : RunReport) (p s c lane : nat)
    (Hrun : run root w budget_ look max = Some (Ok r)) (Hsinks : sinks_have_input root)
    (Hchild : in_children (nodes (build root) !!! p) !! s = Some c)
    (Hdevice : category (nodes (build root) !!! c) <> CUnload) :
  (consumed_rows (report_log r) p s lane + abandoned_rows (report_log r) c lane
   = emitted_rows (report_log r) c lane)%N.
Proof.
  destruct (run_ok _ _ _ _ _ _ Hrun Hsinks) as (d & -> & Hb & He).
  destruct (settled _ _ _ _ Hb He) as (_ & _ & Hrows). by apply Hrows.
Qed.
End Theorems.

(** [LIMIT 2] over two merged lanes, under a coalesce: it ends with a batch still queued. *)
Definition demo_limit_plan : GpuNode :=
  GpuUnload Sink None
    (demo_coalesce
       (GpuLimit (Intermediate (demo_layout 1 MultipleBatches) demo_schema)
          {| skip := 0; fetch := Some 2%N |}
          (GpuMergePartitions (Intermediate (demo_layout 1 MultipleBatches) demo_schema)
             (demo_load 2))) 1).

Lemma demo_limit_sinks : sinks_have_input demo_limit_plan.
Proof. repeat split; try discriminate; repeat constructor; discriminate. Defined.

Lemma answered_run_settles_the_books_witness :
  exists r, run (B:=reference) demo_join_plan tt (Some 1000%N) None 100 = Some (Ok r)
    /\ batches r = [[0; 1; 2; 3]; [0; 1; 2; 3]]%N /\ report_holds r = 10
    /\ books_settled r.
Proof.
  eexists. split; [vm_compute; reflexivity|]. do 2 (split; [reflexivity|]).
  apply (answered_run_settles_the_books (B:=reference) demo_join_plan tt (Some 1000%N) None 100);
    [vm_compute; reflexivity|exact demo_sinks].
Defined.

Lemma rows_consumed_or_abandoned_witness :
  exists r, run (B:=reference) demo_limit_plan tt None None 100 = Some (Ok r)
    /\ batches r = [[0; 1]]%N /\ abandoned_rows (report_log r) 4 1 = 4%N
    /\ (consumed_rows (report_log r) 3 0 1 + abandoned_rows (report_log r) 4 1
        = emitted_rows (report_log r) 4 1)%N.
Proof.
  eexists. split; [vm_compute; reflexivity|]. do 2 (split; [reflexivity|]).
  apply (rows_consumed_or_abandoned (B:=reference) demo_limit_plan tt None None 100 _ 3 0 4 1);
    [vm_compute; reflexivity|exact demo_limit_sinks|vm_compute; reflexivity|by vm_compute].
Defined.

(** The join plan under a budget of two batches. *)
Definition demo_tight : Driver (B:=reference) :=
  Eval vm_compute in
  match driver_new (B:=reference) demo_join_plan tt (Some 64%N) None with
  | Ok d => d
  | Err _ => fresh demo_join_plan tt (Some 64%N) None
  end.

(** A run the budget ends is the exception to the settled books: the tripped call's input, or the
    output of a call tripped after it ran, is in no queue and is released by nothing. *)
Theorem tripped_run_keeps_a_hold :
  driver_new (B:=reference) demo_join_plan tt (Some 64%N) None = Ok demo_tight
  /\ match run_to_end 100 demo_tight with
     | (Err (STrip _), d) =>
         holds (d_acct d) = 2 /\ releases (d_acct d) = 1 /\ in_flight_bytes (d_acct d) = 32%N
     | _ => False
     end.
Proof. split; vm_compute; auto. Qed.
