(* ===== verification/DriverReady.v ===== *)
(** * The driver's readiness flags are exact

    A step recomputes the readiness of the node it ran and of that node's parent, and of no other.
    Here: that is enough.  Running node [n] touches the state of [n] and the output queues of its
    children; the readiness of any other node but [n]'s parent reads neither, so after every step
    each flag the scheduler holds is what the driver's queues say. *)
From stdpp Require Import strings gmap.
From S2P Require Import Prelude Interval PlanIR PlanCommon Index Executor Reference Forwarder.
From S2P Require Import Accounting Scheduler Lane Validate Driver DriverBooks.
Open Scope nat_scope.

Section Touch.
Context {B : Backend} (ix : PlanIndex) (n : nat).
Context (Hsh : shape_ok (shape ix)) (Hn : n < node_count (shape ix)).

(** All of a node's state but its queues. *)
Definition core_of (d : Driver) (m : nat) : option NodeState := set_queues [] <$> states d !! m.

Record touches (d d' : Driver) : Prop := {
  t_index : d_index d' = d_index d;
  t_steps : steps d' = steps d;
  t_len : length (states d') = length (states d);
  t_core m : m <> n -> core_of d' m = core_of d m;
  t_other m : m <> n -> m ∉ in_children (nodes ix !!! n) -> states d' !! m = states d !! m;
  t_sched : sched_ok (shape ix) (d_sched d) -> sched_ok (shape ix) (d_sched d')
    /\ forall m, node_flags (shape ix) (d_sched d') m = node_flags (shape ix) (d_sched d) m }.

Lemma touches_refl d : touches d d.
Proof. by split. Qed.

Lemma touches_trans d1 d2 d3 : touches d1 d2 -> touches d2 d3 -> touches d1 d3.
Proof.
  intros [] []. split; try congruence.
  - intros m Hm. by rewrite t_core1, t_core0.
  - intros m Hm Hc. by rewrite t_other1, t_other0.
  - intros Hs. destruct (t_sched0 Hs) as [Hs' Hf], (t_sched1 Hs') as [Hs'' Hf'].
    split; [done|]. intros m. by rewrite Hf', Hf.
Qed.

Definition touching {A} (m : DM A) : Prop := forall d, d_index d = ix -> touches d (m d).2.

Lemma touching_ret {A} (x : A) : touching (mret x).
Proof. intros d _. apply touches_refl. Qed.
Lemma touching_throw {A} e : touching (throw (A:=A) e).
Proof. intros d _. apply touches_refl. Qed.
Lemma touching_lift {A} (r : result StepError A) : touching (lift r).
Proof. intros d _. apply touches_refl. Qed.
Lemma touching_gets {A} (f : Driver -> A) : touching (gets f).
Proof. intros d _. apply touches_refl. Qed.
Lemma touching_panicking {A} (f : Driver -> option A) : touching (panicking f).
Proof. intros d _. unfold panicking. destruct (f d); apply touches_refl. Qed.
Lemma touching_bind {A C} (m : DM A) (k : A -> DM C) :
  touching m -> (forall x, touching (k x)) -> touching (m ≫= k).
Proof.
  intros Hm Hk d Hd. specialize (Hm d Hd). unfold mbind, M_bind. destruct (m d) as [[x|e] d1]; [|done].
  eapply touches_trans; [exact Hm|]. apply Hk. by rewrite <- Hd; apply (t_index _ _ Hm).
Qed.

(** Reading the state, and knowing what was read. *)
Lemma touching_bind_state {C} (k : Driver -> DM C) :
  (forall d, d_index d = ix -> touching (k d)) -> touching (get_state ≫= k).
Proof. intros Hk d Hd. by apply Hk. Qed.
Lemma touching_bind_gets {A C} (f : Driver -> A) (k : A -> DM C) :
  (forall d, d_index d = ix -> touching (k (f d))) -> touching (gets f ≫= k).
Proof. intros Hk d Hd. by apply Hk. Qed.
Lemma touching_child {C} slot_ (k : nat -> DM C) :
  (forall c, c ∈ in_children (nodes ix !!! n) -> touching (k c)) ->
  touching (panicking (fun d => child_of d n slot_) ≫= k).
Proof.
  intros Hk d Hd. unfold mbind, M_bind, panicking. destruct (child_of d n slot_) as [c|] eqn:Hc;
    [|apply touches_refl]. apply Hk; [|done]. unfold child_of, node_at in Hc. rewrite Hd in Hc.
  by eapply list_elem_of_lookup_2.
Qed.

Lemma touching_forM {A} (l : list A) (body : A -> DM ()) :
  (forall x, touching (body x)) -> touching (forM l body).
Proof. intros Hb. induction l; [apply touching_ret|]. by apply touching_bind. Qed.

Lemma touching_on_err {A} (m : DM A) (c : DM ()) : touching m -> touching c -> touching (on_err m c).
Proof.
  intros Hm Hc d Hd. specialize (Hm d Hd). unfold on_err. destruct (m d) as [[x|e] d1]; [done|].
  eapply touches_trans; [exact Hm|]. apply Hc. by rewrite <- Hd; apply (t_index _ _ Hm).
Qed.

(** A change of nothing the readiness reads. *)
Lemma touching_quiet (f : Driver -> Driver) :
  (forall d, d_index (f d) = d_index d) -> (forall d, states (f d) = states d) ->
  (forall d, d_sched (f d) = d_sched d) -> (forall d, steps (f d) = steps d) -> touching (modify f).
Proof.
  intros Hi Hs Hsc Hst d _. unfold modify. split; cbn; unfold core_of; by rewrite ?Hi, ?Hs, ?Hsc, ?Hst.
Qed.

Lemma touches_alter d m f :
  m = n \/ (m ∈ in_children (nodes ix !!! n) /\ forall st, set_queues [] (f st) = set_queues [] st) ->
  touches d (with_states (alter f m (states d)) d).
Proof.
  intros Hm. split; cbn; [done|done|by rewrite length_alter| | |done].
  - intros m' Hm'. unfold core_of. cbn. rewrite list_lookup_alter.
    destruct (decide (m = m')) as [->|]; [|done]. destruct Hm as [->|[_ Hf]]; [done|].
    destruct (states d !! m'); cbn; [by rewrite Hf|done].
  - intros m' Hm' Hc. apply list_lookup_alter_ne. intros ->. destruct Hm as [->|[Hin _]]; done.
Qed.

Lemma touching_upd f : touching (upd_state n f).
Proof. intros d _. apply touches_alter. by left. Qed.

Lemma touching_push lane h : touching (push_out n lane h).
Proof. unfold push_out. apply touching_bind; [apply touching_panicking|]. intros q. apply touching_upd. Qed.

Lemma touching_pop c lane : c ∈ in_children (nodes ix !!! n) -> touching (pop_out c lane).
Proof.
  intros Hc. unfold pop_out. apply touching_bind; [apply touching_panicking|]. intros [|h q];
    [apply touching_ret|]. apply touching_bind; [|intros; apply touching_ret].
  intros d _. apply touches_alter. right. by split.
Qed.

Lemma touching_acct {E A} (into : E -> StepError) (f : ResidentAccountant -> result E A * ResidentAccountant) :
  touching (acct_dm into f).
Proof. intros d _. unfold acct_dm. destruct (f _) as [r a]. by split. Qed.

Lemma touching_left_build m : touching (left_build m).
Proof.
  intros d _. unfold left_build. destruct (lane_left_build _ _) as [s|] eqn:Hs; [|apply touches_refl].
  split; try done. intros Hok. by destruct (lane_left_build_ok _ _ _ _ Hsh Hok Hs) as (? & ? & _).
Qed.

Lemma touching_satisfy : touching (modify (fun d => with_sched (satisfy (d_sched d) n) d)).
Proof.
  intros d _. split; try done. intros Hok. by destruct (satisfy_ok _ _ n Hsh Hok Hn) as (? & ? & _).
Qed.

Lemma touching_call_lane lane c input rows : touching (call_lane n lane c input rows).
Proof.
  intros d _. unfold call_lane. destruct (lane_of d n lane); [|apply touches_refl].
  destruct (run_lane _ _ _ _ _) as [r s].
  eapply touches_trans; [|apply (touches_alter (with_acct (l_acct s) (with_world (l_world s) d))); by left].
  by split.
Qed.

Lemma touching_offer m lane h : touching (offer m lane h).
Proof.
  intros d _. unfold offer. destruct (hook d); [|apply touches_refl].
  destruct (o _ _ _ _) as [w [x|why]]; by split.
Qed.

Lemma touching_emitter m : touching (expect_emitter m).
Proof. intros d _. unfold expect_emitter. repeat case_match; apply touches_refl. Qed.
Lemma touching_accumulator m : touching (expect_accumulator m).
Proof. intros d _. unfold expect_accumulator. repeat case_match; apply touches_refl. Qed.
Lemma touching_protocol {A} s w : touching (protocol (A:=A) s w).
Proof. apply touching_throw. Qed.
Lemma touching_failed {A} m (r : result BackendError A) : touching (or_call_failed m r).
Proof. destruct r; [apply touching_ret|]. intros d _. apply touches_refl. Qed.
End Touch.

#[export] Hint Resolve touching_ret touching_throw touching_lift touching_gets touching_panicking
  touching_upd touching_push touching_pop touching_acct touching_left_build touching_satisfy
  touching_call_lane touching_offer touching_emitter touching_accumulator touching_protocol
  touching_failed : touch.

Ltac touch :=
  repeat first
    [ solve [auto 3 with touch nocore]
    | apply touching_child; intros ? ?
    | apply touching_bind; [|intros ?]
    | apply touching_forM; intros ?
    | apply touching_on_err
    | apply touching_upd
    | apply touching_quiet; intros ?; reflexivity
    | case_match ].

Section Steps.
Context {B : Backend} (ix : PlanIndex) (n : nat).
Context (Hsh : shape_ok (shape ix)) (Hn : n < node_count (shape ix)).

Lemma touching_record m lane c o : touching ix n (record m lane c o).
Proof. unfold record. touch. Qed.
Lemma touching_emitted {T} `{BatchLike T} m lane (h : Held T) : touching ix n (record_emitted m lane h).
Proof. unfold record_emitted. touch. Qed.
Lemma touching_consumed m s lane r : touching ix n (record_consumed m s lane r).
Proof. unfold record_consumed. touch. Qed.
Lemma touching_calls m lane c : touching ix n (record_calls m lane c).
Proof. unfold record_calls. touch. Qed.
#[local] Hint Resolve touching_record touching_emitted touching_consumed touching_calls : touch.

Lemma touching_begin {E} `{Executor E} s (e : E) r b : touching ix n (d_begin s e r b).
Proof. apply touching_acct. Qed.
Lemma touching_end {E} `{Executor E} s (e : E) st m : touching ix n (d_end s e st m).
Proof. apply touching_acct. Qed.
Lemma touching_release b : touching ix n (d_release b).
Proof. apply touching_acct. Qed.
Lemma touching_hold b : touching ix n (d_hold b).
Proof. apply touching_acct. Qed.
Lemma touching_forget s : touching ix n (d_forget s).
Proof. apply touching_acct. Qed.
#[local] Hint Resolve touching_begin touching_end touching_release touching_hold touching_forget : touch.

Lemma touching_take_input lane c : touching ix n (take_input n lane c).
Proof. unfold take_input. touch. Qed.

Lemma touching_build_cross : touching ix n (build_cross n).
Proof.
  unfold build_cross. apply touching_bind_state. intros d _. case_match; [touch|].
  destruct (executors_for _ _ _ _) as [w r]. touch.
Qed.

Lemma touching_queue_device lane limited bs : touching ix n (queue_device n lane limited bs).
Proof. induction bs as [|h bs IH]; cbn [queue_device]; touch. Qed.

Lemma touching_hand_over lane h : touching ix n (hand_over n lane h).
Proof. unfold hand_over. touch. Qed.

Lemma touching_end_lane lane : touching ix n (end_lane n lane).
Proof. unfold end_lane. touch. Qed.
#[local] Hint Resolve touching_take_input touching_build_cross touching_queue_device
  touching_hand_over touching_end_lane : touch.

Lemma touching_lane_called lane c a input rows : touching ix n (lane_called n lane c a input rows).
Proof. unfold lane_called, add_seen. touch. Qed.

Lemma touching_lane_unwanted lane c a : touching ix n (lane_unwanted n lane c a).
Proof. unfold lane_unwanted, add_seen. touch. Qed.
#[local] Hint Resolve touching_lane_called touching_lane_unwanted : touch.

Lemma touching_run_lane_scoped : touching ix n (run_lane_scoped n).
Proof. unfold run_lane_scoped, lane_turn. touch. Qed.

Lemma touching_queue_output lane out : touching ix n (queue_output n lane out).
Proof. unfold queue_output. touch. Qed.
#[local] Hint Resolve touching_queue_output : touch.

Lemma touching_queue_scatter lane outs : touching ix n (queue_scatter n lane outs).
Proof. revert lane. induction outs; intros lane; cbn [queue_scatter]; touch. Qed.
#[local] Hint Resolve touching_queue_scatter : touch.

Lemma touching_run_emitter : touching ix n (run_emitter n).
Proof. unfold run_emitter. touch. Qed.

Lemma touching_accumulator_event child lane :
  child ∈ in_children (nodes ix !!! n) -> touching ix n (accumulator_event n child lane).
Proof. intros Hc. unfold accumulator_event. touch. Qed.
#[local] Hint Resolve touching_accumulator_event : touch.

Lemma touching_run_partition_accumulator : touching ix n (run_partition_accumulator n).
Proof. unfold run_partition_accumulator, accumulator_turn. touch. Qed.

Lemma touching_forward_from lane start sources offsets :
  touching ix n (forward_from n lane start sources offsets).
Proof. induction offsets; cbn [forward_from]; touch. Qed.
#[local] Hint Resolve touching_forward_from : touch.

Lemma touching_run_forwarder : touching ix n (run_forwarder n).
Proof. unfold run_forwarder, forwarder_turn, forward_one. touch. Qed.
#[local] Hint Resolve touching_run_lane_scoped touching_run_emitter
  touching_run_partition_accumulator touching_run_forwarder : touch.

Lemma touching_run_node : touching ix n (run_node n).
Proof. unfold run_node. touch. Qed.

Lemma touching_settle : touching ix n (settle_limit n).
Proof. unfold settle_limit. touch. Qed.
End Steps.

(** ** What a node's readiness reads *)
Section Frame.
Context {B : Backend} (ix : PlanIndex).
Context (Hwf : wf_index ix) (Hsh : shape_ok (shape ix)).

Lemma child_of_index d m s : d_index d = ix -> child_of d m s = in_children (nodes ix !!! m) !! s.
Proof. intros Hd. unfold child_of, node_at. by rewrite Hd. Qed.

Lemma core_reads {A} (f : NodeState -> A) (d d' : Driver) m :
  (forall st, f (set_queues [] st) = f st) -> core_of d' m = core_of d m ->
  f <$> states d' !! m = f <$> states d !! m.
Proof.
  intros Hf Hc. unfold core_of in Hc.
  destruct (states d' !! m) as [st'|], (states d !! m) as [st|]; try done.
  apply (f_equal (default st)) in Hc. change (set_queues [] st' = set_queues [] st) in Hc.
  change (Some (f st') = Some (f st)). by rewrite <- (Hf st'), Hc, Hf.
Qed.

(** The part of a node's readiness that is about its children. *)
Definition children_agree (d d' : Driver) (m : nat) : Prop :=
  forall s c, child_of d m s = Some c -> states d' !! c = states d !! c.

Lemma avail_frame d d' m lane :
  d_index d' = d_index d -> children_agree d d' m -> avail d' m lane = avail d m lane.
Proof.
  intros Hi Hc. unfold avail, child_of, queue_of, done_of, node_at. rewrite Hi.
  assert (forall s c, in_children (nodes (d_index d) !!! m) !! s = Some c -> states d' !! c = states d !! c)
    as Hc' by (intros s c Hs; by apply (Hc s)).
  destruct (in_children _ !! 0) as [c|] eqn:H0; [rewrite (Hc' 0 c H0)|];
    (destruct (in_children _ !! 1) as [c1|] eqn:H1; [rewrite (Hc' 1 c1 H1)|]); done.
Qed.

Lemma forwarder_scan_frame d d' m lane sources : d_index d' = d_index d -> children_agree d d' m ->
  core_of d' m = core_of d m ->
  forall index live, forwarder_scan d' m lane index live sources = forwarder_scan d m lane index live sources.
Proof.
  intros Hi Hc Hcore. induction sources as [|[ci cl] sources IH]; intros index live; cbn; [done|].
  assert (retired_at d' m lane index = retired_at d m lane index) as ->.
  { pose proof (core_reads retired d d' m ltac:(done) Hcore) as Hr. unfold retired_at.
    destruct (states d' !! m), (states d !! m); simplify_eq/=; congruence. }
  destruct (retired_at d m lane index) as [[]|]; cbn; [apply IH| |done].
  assert (child_of d' m ci = child_of d m ci) as -> by (unfold child_of, node_at; by rewrite Hi).
  destruct (child_of d m ci) as [c|] eqn:Hch; cbn; [|done].
  unfold queue_of, done_of. rewrite (Hc _ _ Hch). destruct (states d !! c) as [st|]; cbn; [|done].
  destruct (out_queues st !! cl) as [q|]; cbn; [|done]. destruct (negb _); [done|].
  destruct (out_done st !! cl) as [f|]; cbn; [|done]. by destruct f.
Qed.

Lemma lane_ready_frame d d' m lane :
  d_index d' = d_index d -> children_agree d d' m -> core_of d' m = core_of d m ->
  lane_ready d' m lane = lane_ready d m lane.
Proof.
  intros Hi Hc Hcore. unfold lane_ready.
  assert (node_at d' m = node_at d m) as -> by (unfold node_at; by rewrite Hi).
  assert (forall s, child_of d' m s = child_of d m s) as Hch
    by (intros; unfold child_of, node_at; by rewrite Hi).
  assert (lane_of d' m lane = lane_of d m lane) as Hlane.
  { pose proof (core_reads lane_drivers d d' m ltac:(done) Hcore) as Hr. unfold lane_of.
    destruct (states d' !! m), (states d !! m); simplify_eq/=; congruence. }
  destruct (category (node_at d m)); rewrite ?(avail_frame d d' m lane), ?Hlane, ?Hch by done; try done.
  - destruct (child_of d m 0) as [c|] eqn:H0; cbn; [|done]. unfold queue_of, done_of, lane_done_was_sent.
    rewrite (Hc 0 c H0). pose proof (core_reads lane_done_sent d d' m ltac:(done) Hcore) as Hr.
    destruct (states d !! c) as [st|]; cbn; [|done].
    destruct (states d' !! m), (states d !! m); simplify_eq/=; by rewrite ?Hr.
  - destruct (child_of d m 0) as [c|] eqn:H0; cbn; [|done]. unfold queue_of, done_of.
    rewrite (Hc 0 c H0). pose proof (core_reads emitter_finished d d' m ltac:(done) Hcore) as Hr.
    destruct (states d !! c) as [st|]; cbn; [|done].
    destruct (out_queues st !! 0), (out_done st !! 0); cbn; try done.
    destruct (states d' !! m), (states d !! m); simplify_eq/=; congruence.
  - unfold forwarder_lane_ready, done_of, sources_at.
    pose proof (core_reads out_done d d' m ltac:(done) Hcore) as Hr.
    pose proof (core_reads forward_map d d' m ltac:(done) Hcore) as Hm.
    destruct (states d' !! m) as [st'|], (states d !! m) as [st|]; simplify_eq/=; [|done].
    rewrite Hr. destruct (out_done st !! lane) as [[]|]; cbn; [done| |done]. rewrite Hm.
    destruct (forward_map st !! lane); cbn; [|done]. by apply forwarder_scan_frame.
Qed.

Lemma touched_ready n d d' m lane :
  d_index d = ix -> touches ix n d d' -> m <> n -> n ∉ in_children (nodes ix !!! m) ->
  lane_ready d' m lane = lane_ready d m lane.
Proof.
  intros Hd [Hi _ _ Hcore Hother _] Hm Hn. apply lane_ready_frame; [done| |by apply Hcore].
  intros s c Hc. rewrite (child_of_index _ _ _ Hd) in Hc. apply Hother.
  - intros ->. apply Hn. by eapply list_elem_of_lookup_2.
  - intros [s' Hs']%list_elem_of_lookup_1.
    destruct (index_tree ix m s n s' c Hwf Hc Hs') as [-> _]. done.
Qed.
End Frame.

(** ** Exact flags *)
Section Exact.
Context {B : Backend} (ix : PlanIndex).
Context (Hwf : wf_index ix) (Hsh : shape_ok (shape ix)).

Definition flag_at (d : Driver) (m lane : nat) : option bool :=
  node_flags (shape ix) (d_sched d) m !! lane.

(** Every flag of the nodes in [P] is what their queues say now. *)
Record exact_on (P : nat -> Prop) (d : Driver) : Prop := {
  ex_index : d_index d = ix;
  ex_sched : sched_ok (shape ix) (d_sched d);
  ex_flags m lane : P m -> m < length (nodes ix) -> lane < ready_lanes (nodes ix !!! m) ->
    exists r, lane_ready d m lane = Some r /\ flag_at d m lane = Some r }.

Lemma count_nodes : node_count (shape ix) = length (nodes ix).
Proof. apply (wf_heights _ Hwf). Qed.

Lemma lanes_of_shape m : m < length (nodes ix) -> shape_lanes (shape ix) !!! m = ready_lanes (nodes ix !!! m).
Proof.
  intros [x Hx]%lookup_lt_is_Some. rewrite (wf_lanes_len _ Hwf).
  rewrite (list_lookup_total_correct _ _ x Hx). apply list_lookup_total_correct.
  by apply (fmap_lookup ready_lanes).
Qed.

Lemma length_flags (d : Driver) m :
  sched_ok (shape ix) (d_sched d) -> m < length (nodes ix) ->
  length (node_flags (shape ix) (d_sched d) m) = ready_lanes (nodes ix !!! m).
Proof.
  intros [Hst _ _] Hm. rewrite <- lanes_of_shape by done. unfold node_flags.
  destruct (decide (shape_lanes (shape ix) !!! m = 0)) as [->|Hz]; [done|].
  rewrite length_take, length_drop.
  pose proof (slot_in_flags _ _ m (shape_lanes (shape ix) !!! m - 1) Hst Hsh) as Hs.
  rewrite count_nodes in Hs. specialize (Hs Hm ltac:(lia)). lia.
Qed.

Lemma touched_exact n P d d' :
  exact_on P d -> touches ix n d d' ->
  exact_on (fun m => P m /\ m <> n /\ n ∉ in_children (nodes ix !!! m)) d'.
Proof.
  intros [Hi Hs Hf] Ht. destruct (t_sched _ _ _ _ Ht Hs) as [Hs' Hfl].
  split; [by rewrite (t_index _ _ _ _ Ht)|done|]. intros m lane (HP & Hm & Hc) Hlt Hl.
  destruct (Hf m lane HP Hlt Hl) as (r & Hr & Hflag). exists r. unfold flag_at in *. rewrite Hfl.
  split; [|done]. rewrite <- Hr. by eapply touched_ready.
Qed.

Lemma exact_weaken (P Q : nat -> Prop) d : (forall m, Q m -> P m) -> exact_on P d -> exact_on Q d.
Proof. intros HPQ []. split; auto. Qed.

Lemma lane_ready_sched sc (d : Driver) m lane : lane_ready (with_sched sc d) m lane = lane_ready d m lane.
Proof. by apply lane_ready_frame. Qed.

Lemma exact_same P (d d' : Driver) :
  d_index d' = d_index d -> states d' = states d -> d_sched d' = d_sched d ->
  exact_on P d -> exact_on P d'.
Proof.
  intros Hi Hst Hsc [Hix Hs Hf]. split; [congruence|congruence|]. intros m lane HP Hm Hl.
  unfold flag_at in *. rewrite Hsc. destruct (Hf m lane HP Hm Hl) as (r & Hr & Hfl). exists r.
  split; [|done]. rewrite <- Hr. apply lane_ready_frame; [done|intros s c _; by rewrite Hst|].
  unfold core_of. by rewrite Hst.
Qed.

(** One lane's flag set to what the queues say. *)
Definition refresh_lane (m lane : nat) : DM () :=
  ready ← panicking (fun d => lane_ready d m lane);
  modify (fun d => with_sched (set_lane_ready (d_sched d) m lane ready) d).

Lemma refresh_lane_ok m lane d u d' :
  refresh_lane m lane d = (Ok u, d') -> sched_ok (shape ix) (d_sched d) -> m < length (nodes ix) ->
  lane < ready_lanes (nodes ix !!! m) ->
  exists r, lane_ready d m lane = Some r /\ d' = with_sched (d_sched d') d
    /\ sched_ok (shape ix) (d_sched d') /\ flag_at d' m lane = Some r
    /\ forall m' lane', m' < length (nodes ix) -> (m', lane') <> (m, lane) ->
         flag_at d' m' lane' = flag_at d m' lane'.
Proof.
  unfold refresh_lane. intros Hr Hs Hm Hl. inv_ok. apply panicking_ok in E as [Hready ->].
  injection Hr as <-. exists x.
  destruct (set_lane_ready_ok _ _ m lane x Hsh Hs) as [Hs' Hfl];
    [by rewrite count_nodes|by rewrite lanes_of_shape|].
  rewrite count_nodes in Hfl. unfold flag_at.
  split_and!; [done|by destruct d|done|..]; cbn [d_sched with_sched].
  - rewrite Hfl, bool_decide_true by done. apply list_lookup_insert_eq. by rewrite length_flags.
  - intros m' lane' Hm' Hne. rewrite Hfl by done. case_bool_decide as Heq; [subst m'|done].
    apply list_lookup_insert_ne. congruence.
Qed.

Lemma refresh_lanes_ok m l d u d' :
  forM l (refresh_lane m) d = (Ok u, d') -> sched_ok (shape ix) (d_sched d) -> m < length (nodes ix) ->
  (forall lane, lane ∈ l -> lane < ready_lanes (nodes ix !!! m)) ->
  d' = with_sched (d_sched d') d /\ sched_ok (shape ix) (d_sched d')
  /\ (forall lane, lane ∈ l -> exists r, lane_ready d m lane = Some r /\ flag_at d' m lane = Some r)
  /\ forall m' lane', m' < length (nodes ix) -> ~ (m' = m /\ lane' ∈ l) ->
       flag_at d' m' lane' = flag_at d m' lane'.
Proof.
  intros Hr Hs Hm. revert d Hr Hs. induction l as [|lane l IH]; intros d Hr Hs Hl; cbn [forM] in Hr.
  - injection Hr as _ <-. split_and!; [by destruct d|done|set_solver|done].
  - inv_ok. apply refresh_lane_ok in E as (r & Hr0 & Hd & Hs1 & Hf1 & Ho1); [|done|done|set_solver].
    destruct (IH s Hr Hs1) as (Hd2 & Hs2 & Hf2 & Ho2); [set_solver|].
    assert (forall k, lane_ready s m k = lane_ready d m k) as Hsame by (intros; rewrite Hd; apply lane_ready_sched).
    split_and!; [rewrite Hd2; by rewrite Hd|done| |].
    + intros k Hk. destruct (decide (k ∈ l)) as [Hin|Hout].
      * destruct (Hf2 k Hin) as (r' & Hr' & Hf'). exists r'. by rewrite <- Hsame.
      * assert (k = lane) as -> by set_solver. exists r. split; [done|].
        rewrite Ho2; [done|done|]. by intros [_ ?].
    + intros m' lane' Hm' Hne. rewrite Ho2; [apply Ho1|..]; [done| |done|].
      * intros [= -> ->]. apply Hne. set_solver.
      * intros [-> ?]. apply Hne. set_solver.
Qed.

Lemma refresh_node_ok P n d u d' :
  refresh_node n d = (Ok u, d') -> exact_on P d -> n < length (nodes ix) ->
  exact_on (fun m => P m \/ m = n) d' /\ d' = with_sched (d_sched d') d.
Proof.
  unfold refresh_node. intros Hr [Hi Hs Hf] Hn. inv_ok. injection E as <- <-.
  change (forM (seq 0 (ready_lanes (node_at d n))) (refresh_lane n) d = (Ok (), d')) in Hr.
  unfold node_at in Hr. rewrite Hi in Hr.
  apply refresh_lanes_ok in Hr as (Hd & Hs' & Hflags & Hother);
    [|done|done|intros lane Hin%elem_of_seq; lia].
  split; [|done]. split; [by rewrite Hd|done|]. intros m lane HP Hm Hl.
  assert (lane_ready d' m lane = lane_ready d m lane) as -> by (rewrite Hd; apply lane_ready_sched).
  destruct (decide (m = n)) as [->|Hne].
  - apply Hflags. apply elem_of_seq. lia.
  - rewrite Hother; [|done|by intros [? _]]. apply Hf; [|done..]. by destruct HP.
Qed.

(** ** A step *)
Lemma run_picked_exact n d u d' :
  run_picked n d = (Ok u, d') -> exact_on (fun _ => True) d -> n < length (nodes ix) ->
  exact_on (fun _ => True) d'.
Proof.
  unfold run_picked. intros Hr Hex Hn. inv_ok. injection E as <-.
  assert (n < node_count (shape ix)) as Hn' by (by rewrite count_nodes).
  assert (exact_on (fun _ => True) (with_steps (S (steps d)) d)) as Hex1
    by (by eapply exact_same, Hex).
  pose proof (touching_run_node ix n Hsh _ (ex_index _ _ Hex1)) as Ht1. rewrite E0 in Ht1. cbn [snd] in Ht1.
  pose proof (touched_exact _ _ _ _ Hex1 Ht1) as Hex2.
  pose proof (touching_settle ix n Hsh Hn' _ (ex_index _ _ Hex2)) as Ht2. rewrite E1 in Ht2. cbn [snd] in Ht2.
  pose proof (touched_exact _ _ _ _ Hex2 Ht2) as Hex3. clear Ht1 Ht2 Hex1 Hex2 Hex.
  eapply refresh_node_ok in E2 as [Hex4 _]; [|exact Hex3|done]. injection E3 as <- <-.
  apply lookup_lt_is_Some in Hn as [x Hx].
  assert (parent (node_at s2 n) = parent x) as Hpar.
  { unfold node_at. rewrite (ex_index _ _ Hex4). by rewrite (list_lookup_total_correct _ _ _ Hx). }
  rewrite Hpar in Hr.
  assert (forall m, n ∈ in_children (nodes ix !!! m) -> m < length (nodes ix) -> parent x = Some m) as Hup.
  { intros m [j Hj]%list_elem_of_lookup_1 [y Hy]%lookup_lt_is_Some.
    rewrite (list_lookup_total_correct _ _ _ Hy) in Hj.
    destruct (wf_child _ Hwf _ _ _ _ Hy Hj) as (z & h & Hz & Hp & _). by simplify_eq. }
  assert (forall p, parent x = Some p -> p < length (nodes ix)) as Hin.
  { intros p Hp. destruct (wf_parent _ Hwf _ _ Hx) as [[_ ?]|(i & y & Hy & Hi & _)]; [congruence|].
    simplify_eq. by eapply lookup_lt_Some. }
  assert (exact_on (fun m => m = n \/ parent x = Some m \/ n ∉ in_children (nodes ix !!! m)) d') as Hex5.
  { destruct (parent x) as [p|].
    - eapply refresh_node_ok in Hr as [Hex5 _]; [|exact Hex4|by apply Hin].
      eapply exact_weaken; [|exact Hex5]. intros m. cbn. destruct (decide (m = n)); naive_solver.
    - injection Hr as <-. eapply exact_weaken; [|exact Hex4]. intros m. cbn.
      destruct (decide (m = n)); naive_solver. }
  destruct Hex5 as [Hi Hs Hf]. split; [done..|]. intros m lane _ Hm Hl. apply Hf; [|done..].
  destruct (decide (n ∈ in_children (nodes ix !!! m))) as [Hc|]; [|naive_solver]. right. left. by apply Hup.
Qed.
End Exact.

(** ** The index's shape is one a scheduler can run *)

(** Every node declares a lane, as the structural rules require. *)
Definition has_lanes (root : GpuNode) : Prop := Forall (fun x => 0 < lanes x) (nodes (build root)).

Lemma joins_of_spec (ns : list IndexedNode) sub j :
  j ∈ joins_of ns sub -> exists i x, ns !! i = Some x /\ category x = CJoin
    /\ join_node j = i /\ join_lanes j = lanes x /\ exists c, probe_range j = sub !!! c.
Proof.
  unfold joins_of. rewrite list_elem_of_omap. intros (i & Hi & Hj). apply elem_of_seq in Hi as [_ Hi].
  apply lookup_lt_is_Some in Hi as [x Hx]. rewrite (list_lookup_total_correct _ _ _ Hx) in Hj.
  case_bool_decide; [|done]. injection Hj as <-. cbn. eauto 10.
Qed.

Lemma NoDup_omap_id {A} (f : nat -> option A) (key : A -> nat) (l : list nat) :
  (forall i a, f i = Some a -> key a = i) -> NoDup l -> NoDup (map key (omap f l)).
Proof.
  intros Hf Hl. induction Hl as [|i l Hi Hl IH]; cbn; [constructor|].
  destruct (f i) as [a|] eqn:Ha; [|done]. cbn. constructor; [|done].
  rewrite (Hf _ _ Ha). intros (b & Hb & Hin)%list_elem_of_fmap.
  apply list_elem_of_omap in Hin as (i' & Hi' & Hb'). apply Hi. by rewrite Hb, (Hf _ _ Hb').
Qed.

Lemma length_subtree_ranges ns : length (subtree_ranges ns) = length ns.
Proof. unfold subtree_ranges. by rewrite length_map, length_seq. Qed.

Lemma build_shape_ok root : sinks_have_input root -> has_lanes root -> shape_ok (shape (build root)).
Proof.
  intros Hs Hl. pose proof (build_wf root Hs) as Hwf.
  assert (length (subtree (shape (build root))) = length (nodes (build root))) as Hsub.
  { rewrite build_eq by done. cbn. by rewrite length_subtree_ranges, length_imap. }
  assert (forall i range, subtree (shape (build root)) !! i = Some range ->
    range.2 <= length (nodes (build root))) as Hin.
  { intros i range Hr. pose proof (lookup_lt_Some _ _ _ Hr) as Hi. rewrite Hsub in Hi.
    apply lookup_lt_is_Some in Hi as [x Hx]. destruct (wf_subtree _ Hwf _ _ Hx). by simplify_eq. }
  assert (node_count (shape (build root)) = length (nodes (build root))) as Hcount
    by apply (wf_heights _ Hwf).
  split; rewrite ?Hcount; [by rewrite (wf_lanes_len _ Hwf), length_map|done|done| |].
  - intros j Hj. rewrite build_eq in Hj by done. cbn [shape joins] in Hj.
    apply joins_of_spec in Hj as (i & x & Hx & _ & _ & Hlanes & c & Hrange). split.
    + change (probe_range j = subtree_ranges (map set_ready (map fst (flat root))) !!! c) in Hrange.
      rewrite Hrange. rewrite build_eq in Hin by done. cbn [shape subtree] in Hin.
      rewrite list_lookup_total_alt.
      destruct (subtree_ranges _ !! c) eqn:Hc; cbn; [|lia]. rewrite build_eq by done. by apply (Hin c).
    + rewrite Hlanes. unfold has_lanes in Hl. rewrite build_eq in Hl by done. cbn [nodes] in Hl.
      rewrite Forall_lookup in Hl. specialize (Hl i). rewrite list_lookup_imap, Hx in Hl.
      by specialize (Hl _ eq_refl).
  - rewrite build_eq by done. cbn [shape joins]. unfold joins_of.
    apply NoDup_omap_id; [|apply NoDup_seq]. intros i a. case_bool_decide; by intros [= <-].
Qed.

(** ** From the seed on *)
Section Seed.
Context {B : Backend}.

(** A limit settled before anything runs. *)
Definition zero_limit (x : IndexedNode) : bool :=
  match in_interval x with
  | Some iv => match category x with
               | CUnload => satisfied_by iv 0
               | _ => satisfied_by_emitted iv 0
               end
  | None => false
  end.

(** No node below the root starts with its limit met. *)
Definition no_zero_limit (ix : PlanIndex) : Prop :=
  forall m, m <> ROOT -> zero_limit (nodes ix !!! m) = false.

Definition no_rows (d : Driver) : Prop :=
  forall m, default 0%N (rows_seen d !! m) = 0%N /\ default 0%N (rows_emitted d !! m) = 0%N.

Lemma settle_limit_ok n d u d' :
  settle_limit n d = (Ok u, d') -> no_rows d ->
  d' = d \/ (zero_limit (node_at d n) = true
    /\ (category (node_at d n) = CUnload \/ category (node_at d n) = CBatchAccumulator)
    /\ d' = with_states (alter (fun st => set_done (replicate (lanes (node_at d n)) true) st) n (states d))
              (with_sched (satisfy (d_sched d) n) d)).
Proof.
  unfold settle_limit. intros Hr Hz. inv_ok. injection E as <- <-. unfold zero_limit.
  destruct (Hz n) as [Hz1 Hz2].
  destruct (in_interval (node_at d n)) as [iv|]; [|by injection Hr as <-; left]. inv_ok.
  destruct (category (node_at d n)); try discriminate; injection E as <- <-;
    rewrite ?Hz1, ?Hz2 in Hr;
    (match type of Hr with (if ?b then _ else _) _ = _ => destruct b eqn:Hb end;
     [inv_ok; injection E as <-; injection Hr as <-; right; auto|injection Hr as <-; by left]).
Qed.

Context (ix : PlanIndex) (Hwf : wf_index ix) (Hsh : shape_ok (shape ix)).

(** Settling a limit leaves the node's own readiness as it was: it reads its inputs. *)
Lemma settled_own_ready n (d d' : Driver) f sc lane :
  d_index d = ix -> category (node_at d n) = CUnload \/ category (node_at d n) = CBatchAccumulator ->
  d' = with_states (alter (set_done f) n (states d)) (with_sched sc d) ->
  lane_ready d' n lane = lane_ready d n lane.
Proof.
  intros Hi Hcat ->. unfold lane_ready.
  change (node_at (with_states _ _) n) with (node_at d n).
  assert (avail (with_states (alter (set_done f) n (states d)) (with_sched sc d)) n lane
          = avail d n lane) as ->.
  { apply avail_frame; [done|]. intros s c Hc. cbn. apply list_lookup_alter_ne. intros ->.
    rewrite (child_of_index ix) in Hc by done.
    rewrite list_lookup_total_alt in Hc. destruct (nodes ix !! c) as [x|] eqn:Hx; cbn in Hc; [|by destruct s].
    destruct (wf_child _ Hwf _ _ _ _ Hx Hc) as (y & h & _ & _ & _ & Hlt & _). lia. }
  assert (lane_of (with_states (alter (set_done f) n (states d)) (with_sched sc d)) n lane
          = lane_of d n lane) as ->.
  { unfold lane_of. cbn. rewrite list_lookup_alter_eq. by destruct (states d !! n). }
  by destruct Hcat as [-> | ->].
Qed.

Lemma seed_node_ok i d u d' :
  (refresh_node i ≫= fun _ => settle_limit i) d = (Ok u, d') -> i < length (nodes ix) ->
  no_zero_limit ix -> exact_on ix (fun m => m < i) d -> no_rows d ->
  exact_on ix (fun m => m < S i) d' /\ no_rows d'.
Proof.
  intros Hr Hi Hz Hex Hn. inv_ok. eapply (refresh_node_ok ix Hwf Hsh) in E as [Hex1 Hd]; [|done..].
  assert (no_rows s) as Hn1 by (rewrite Hd; exact Hn).
  assert (exact_on ix (fun m => m < S i) s) as Hex2.
  { eapply exact_weaken; [|exact Hex1]. intros m. cbn. lia. }
  destruct (settle_limit_ok _ _ _ _ Hr Hn1) as [->|(Hzero & Hcat & Hd')]; [done|].
  assert (i = ROOT) as ->.
  { destruct (decide (i = ROOT)) as [|Hne]; [done|]. unfold node_at in Hzero.
    rewrite (ex_index _ _ _ Hex2), (Hz i Hne) in Hzero. done. }
  split; [|rewrite Hd'; exact Hn1].
  assert (ROOT < node_count (shape ix)) as Hroot by (by rewrite (count_nodes ix Hwf)).
  destruct (satisfy_ok _ _ ROOT Hsh (ex_sched _ _ _ Hex2) Hroot) as (Hs & Hf & _).
  split; [rewrite Hd'; apply Hex2|by rewrite Hd'|]. intros m lane Hm Hlt Hl.
  assert (m = ROOT) as -> by (unfold ROOT in *; lia).
  destruct (ex_flags _ _ _ Hex2 ROOT lane ltac:(unfold ROOT; lia) Hlt Hl) as (r & Hready & Hflag).
  exists r. split; [|unfold flag_at in *; rewrite Hd'; cbn [d_sched with_states with_sched]; by rewrite Hf].
  rewrite <- Hready. eapply settled_own_ready; [apply Hex2|exact Hcat|exact Hd'].
Qed.

Lemma seed_ok d u d' :
  seed d = (Ok u, d') -> d_index d = ix -> sched_ok (shape ix) (d_sched d) -> no_zero_limit ix ->
  no_rows d -> exact_on ix (fun _ => True) d'.
Proof.
  unfold seed. intros Hr Hi Hs Hz Hn. inv_ok. injection E as <- <-.
  unfold index_len in Hr. rewrite Hi in Hr.
  assert (forall k i d, i + k = length (nodes ix) ->
    forM (seq i k) (fun node => refresh_node node ≫= fun _ => settle_limit node) d = (Ok (), d') ->
    exact_on ix (fun m => m < i) d -> no_rows d -> exact_on ix (fun _ => True) d') as Hloop.
  { clear d Hr Hi Hs Hn. induction k as [|k IH]; intros i d Hik Hr Hex Hn; cbn [seq forM] in Hr.
    - injection Hr as <-. destruct Hex as [Hi Hs Hf]. split; [done..|]. intros m lane _ Hm.
      apply Hf; [lia|done].
    - apply M_bind_ok in Hr as ([] & s & E & Hr). eapply seed_node_ok in E as [Hex1 Hn1]; [|lia|done..]. apply (IH (S i) s); [lia|done..]. }
  apply (Hloop (length (nodes ix)) 0 d); [done..| |done]. split; [done..|]. intros; lia.
Qed.
End Seed.

(** ** The run's picks *)
Section Picks.
Context {B : Backend}.

(** What the driver passes through: seeded, then step after step. *)
Inductive reaches (d0 : Driver) : Driver -> Prop :=
| reach_seed d : seed d0 = (Ok (), d) -> reaches d0 d
| reach_step d d' : reaches d0 d -> step d = (Ok true, d') -> reaches d0 d'.

(** A node that can run, every queue and both holds looked at afresh. *)
Definition can_run (d : Driver) (node : nat) : bool :=
  existsb (fun lane => bool_decide (lane_ready d node lane = Some true))
    (seq 0 (ready_lanes (node_at d node)))
  && (spec_build_holds (d_sched d) node =? 0) && (spec_limit_holds (d_sched d) node =? 0).

(** The first such node in (height, index) order. *)
Definition rescan (d : Driver) : option nat :=
  snd <$> list_find (fun node => can_run d node = true) (order_of (shape (d_index d))).

Lemma exact_runnable ix d m :
  wf_index ix -> shape_ok (shape ix) -> exact_on ix (fun _ => True) d -> m < length (nodes ix) ->
  spec_runnable (shape ix) (d_sched d) m = can_run d m.
Proof.
  intros Hwf Hsh Hex Hm. unfold spec_runnable, can_run. do 2 f_equal.
  pose proof (length_flags ix Hwf Hsh d m (ex_sched _ _ _ Hex) Hm) as Hlen.
  unfold node_at. rewrite (ex_index _ _ _ Hex). apply eq_true_iff_eq. rewrite !existsb_exists. split.
  - intros (b & Hb%list_elem_of_In & Ht). cbn in Ht. subst b. apply list_elem_of_lookup in Hb as [lane Hl].
    pose proof (lookup_lt_Some _ _ _ Hl) as Hlt. rewrite Hlen in Hlt.
    destruct (ex_flags _ _ _ Hex m lane I Hm Hlt) as (r & Hr & Hf). unfold flag_at in Hf.
    simplify_eq. exists lane. split; [apply in_seq; lia|]. by apply bool_decide_eq_true.
  - intros (lane & Hin%in_seq & Hr%bool_decide_eq_true).
    destruct (ex_flags _ _ _ Hex m lane I Hm ltac:(lia)) as (r & Hr' & Hf). simplify_eq.
    exists true. split; [|done]. apply list_elem_of_In. by eapply list_elem_of_lookup_2.
Qed.

Lemma step_exact ix d d' :
  wf_index ix -> shape_ok (shape ix) -> step d = (Ok true, d') -> exact_on ix (fun _ => True) d ->
  exact_on ix (fun _ => True) d'.
Proof.
  unfold step. intros Hwf Hsh Hr Hex. inv_ok. injection E as <- <-.
  destruct (next (d_sched d)) as [n|] eqn:Hnext; [|done]. inv_ok.
  eapply run_picked_exact; [done|done|eassumption|done|].
  rewrite (next_spec _ _ (ex_sched _ _ _ Hex)) in Hnext. unfold spec_next in Hnext.
  destruct (list_find _ _) as [[i m]|] eqn:Hfind; [|done]. injection Hnext as ->.
  apply list_find_Some in Hfind as (Hin & _ & _). apply list_elem_of_lookup_2, order_elem in Hin.
  by rewrite (count_nodes ix Hwf) in Hin.
Qed.

Lemma wire_keeps (P : Driver -> Prop) :
  (forall w d, P d -> P (with_world w d)) -> (forall st d, P d -> P (with_states st d)) ->
  keeps P wire_forwarders.
Proof.
  intros Hw Hst. unfold wire_forwarders. apply keeps_bind; [apply keeps_gets|]. intros count.
  apply keeps_forM. intros node _ d Hd. unfold wire_forwarder, mbind, M_bind, get_state.
  destruct (negb (bool_decide _)); [done|].
  destruct (executors_for _ _ _ _) as [w [[]|e]]; cbn; auto.
  unfold lift. destruct (forward_map_of _ _ _); cbn; auto.
Qed.

Lemma driver_new_start root w budget_ look d :
  driver_new root w budget_ look = Ok d ->
  d_index d = build root /\ d_sched d = sched_new (shape (build root)) /\ no_rows d /\ steps d = 0.
Proof.
  unfold driver_new. intros Hr. inv_ok. clear E.
  pose proof (wire_keeps (fun d => d_index d = build root /\ d_sched d = sched_new (shape (build root))
    /\ no_rows d /\ steps d = 0) ltac:(done) ltac:(done) (fresh root w budget_ look)) as Hk.
  destruct (wire_forwarders _) as [[u|err] d1]; [|done]. injection Hr as <-. apply Hk.
  split_and!; [done|done| |done]. intros m. cbn.
  split; destruct (replicate _ _ !! m) eqn:Hm; try done; by apply lookup_replicate in Hm as [-> _].
Qed.

Lemma reaches_exact root w budget_ look d0 d :
  driver_new root w budget_ look = Ok d0 -> sinks_have_input root -> has_lanes root ->
  no_zero_limit (build root) -> reaches d0 d -> exact_on (build root) (fun _ => True) d.
Proof.
  intros Hnew Hs Hl Hz Hr. pose proof (build_wf root Hs) as Hwf.
  pose proof (build_shape_ok root Hs Hl) as Hsh.
  destruct (driver_new_start _ _ _ _ _ Hnew) as (Hi & Hsc & Hn & _).
  induction Hr as [d Hseed|d d' Hr IH Hstep].
  - eapply seed_ok; [done|done|exact Hseed|done| |done|done]. rewrite Hsc. by apply sched_new_ok.
  - by eapply step_exact.
Qed.

(** C5: refreshing the node just run and its parent is enough: at every point a run passes through,
    the node the scheduler's bitset picks is the one a full rescan would pick, which looks at every
    queue, every done flag and both holds afresh and takes the first runnable node by height and
    then by index; and it picks none only when the rescan finds none.  A limit satisfied before the
    run starts is the exception, so the plans here have none below the root. *)
Theorem pick_is_the_full_rescan (root : GpuNode) (w : World) (budget_ : option N)
    (look : option OutputHook) (d0 d : Driver)
    (Hnew : driver_new root w budget_ look = Ok d0) (Hsinks : sinks_have_input root)
    (Hlanes : has_lanes root) (Hzero : no_zero_limit (build root)) (Hreach : reaches d0 d) :
  next (d_sched d) = rescan d.
Proof.
  pose proof (build_wf root Hsinks) as Hwf. pose proof (build_shape_ok root Hsinks Hlanes) as Hsh.
  pose proof (reaches_exact _ _ _ _ _ _ Hnew Hsinks Hlanes Hzero Hreach) as Hex.
  rewrite (next_spec _ _ (ex_sched _ _ _ Hex)). unfold spec_next, rescan.
  rewrite (ex_index _ _ _ Hex). f_equal. apply list_find_bool_ext. intros m Hm%order_elem.
  rewrite (count_nodes _ Hwf) in Hm. by rewrite (exact_runnable (build root)).
Qed.
End Picks.

(** ** The loop ends *)
Section Terminates.
Context {B : Backend} (ix : PlanIndex).
Context (Hwf : wf_index ix) (Hsh : shape_ok (shape ix)).

(** The tree and the scheduler's invariant, with nothing said of the flags. *)
Definition sane : Driver -> Prop := exact_on ix (fun _ => False).

Lemma refresh_sane n d u d' :
  refresh_node n d = (Ok u, d') -> sane d -> n < length (nodes ix) -> sane d' /\ steps d' = steps d.
Proof.
  intros Hr Hs Hn. eapply (refresh_node_ok ix Hwf Hsh) in Hr as [Hex Hd]; [|exact Hs|done].
  split; [by eapply exact_weaken, Hex|by rewrite Hd].
Qed.

Lemma touched_sane n {A} (m : DM A) d r d' :
  touching ix n m -> m d = (r, d') -> sane d -> sane d' /\ steps d' = steps d.
Proof.
  intros Ht Hm Hs. specialize (Ht d (ex_index _ _ _ Hs)). rewrite Hm in Ht.
  split; [|apply Ht]. eapply exact_weaken; [|by eapply touched_exact]. by intros.
Qed.

Lemma run_picked_sane n d u d' :
  run_picked n d = (Ok u, d') -> sane d -> n < length (nodes ix) ->
  sane d' /\ steps d' = S (steps d).
Proof.
  unfold run_picked. intros Hr Hs Hn. inv_ok. injection E as <-.
  assert (n < node_count (shape ix)) as Hn' by (by rewrite (count_nodes ix Hwf)).
  assert (sane (with_steps (S (steps d)) d)) as Hs0 by (by eapply exact_same, Hs).
  eapply touched_sane in E0 as [Hs1 Hst1]; [|by apply touching_run_node|done].
  eapply touched_sane in E1 as [Hs2 Hst2]; [|by apply touching_settle|done].
  eapply refresh_sane in E2 as [Hs3 Hst3]; [|done..]. injection E3 as <- <-.
  cbn [steps with_steps] in Hst1.
  destruct (parent (node_at s2 n)) as [p|] eqn:Hp; [|injection Hr as <-; split; [done|congruence]].
  eapply refresh_sane in Hr as [Hs4 Hst4]; [split; [done|congruence]|done|].
  unfold node_at in Hp. rewrite (ex_index _ _ _ Hs3) in Hp. apply lookup_lt_is_Some in Hn as [x Hx].
  rewrite (list_lookup_total_correct _ _ _ Hx) in Hp.
  destruct (wf_parent _ Hwf _ _ Hx) as [[_ ?]|(i & y & Hy & Hi & _)]; [congruence|].
  simplify_eq. by eapply lookup_lt_Some.
Qed.

Lemma step_sane d m d' :
  step d = (Ok m, d') -> sane d -> sane d' /\ steps d' = if m : bool then S (steps d) else steps d.
Proof.
  unfold step. intros Hr Hs. inv_ok. injection E as <- <-.
  destruct (next (d_sched d)) as [n|] eqn:Hnext; [|by injection Hr as <- <-]. inv_ok.
  eapply run_picked_sane; [done..|].
  rewrite (next_spec _ _ (ex_sched _ _ _ Hs)) in Hnext. unfold spec_next in Hnext.
  destruct (list_find _ _) as [[i k]|] eqn:Hfind; [|done]. injection Hnext as ->.
  apply list_find_Some in Hfind as (Hin & _ & _). apply list_elem_of_lookup_2, order_elem in Hin.
  by rewrite (count_nodes ix Hwf) in Hin.
Qed.

Lemma drive_loop_fuel max d fuel extra :
  sane d -> max + 2 <= fuel + steps d -> 0 < fuel ->
  drive_loop (fuel + extra) max d = drive_loop fuel max d.
Proof.
  revert d. induction fuel as [|fuel IH]; intros d Hs Hf Hpos; [lia|]. cbn [drive_loop plus].
  unfold mbind, M_bind. destruct (step d) as [[m|e] d1] eqn:Hstep; [|done].
  apply step_sane in Hstep as [Hs1 Hst]; [|done]. destruct m; [|done]. unfold gets.
  destruct (Nat.ltb_spec max (steps d1)); [done|]. apply IH; [done|lia|lia].
Qed.

Lemma seed_sane d u d' :
  seed d = (Ok u, d') -> sane d -> sane d' /\ steps d' = steps d.
Proof.
  unfold seed. intros Hr Hs. inv_ok. injection E as <- <-. unfold index_len in Hr.
  rewrite (ex_index _ _ _ Hs) in Hr.
  assert (forall k i d, i + k = length (nodes ix) ->
    forM (seq i k) (fun node => refresh_node node ≫= fun _ => settle_limit node) d = (Ok (), d') ->
    sane d -> sane d' /\ steps d' = steps d) as Hloop.
  { clear d Hr Hs. induction k as [|k IH]; intros i d Hik Hr Hs; cbn [seq forM] in Hr.
    - by injection Hr as <-.
    - inv_ok. eapply refresh_sane in E0 as [Hs1 Hst1]; [|done|lia].
      eapply (touched_sane i) in E as [Hs2 Hst2]; [|apply touching_settle|done]; [|done|].
      + destruct (IH (S i) s ltac:(lia) Hr Hs2) as [Hs3 Hst3]. split; [done|congruence].
      + rewrite (count_nodes ix Hwf). lia. }
  by apply (Hloop (length (nodes ix)) 0 d).
Qed.
End Terminates.

Section TerminatesTheorem.
Context {B : Backend}.

(** C30: the driver's loop ends: from the seeded state, [max_steps + 2] turns are enough, since every
    turn that goes on has taken a step and the step count is checked after each.  Given at least
    that many, the outcome and the final state are the ones more turns would give. *)
Theorem drive_loop_terminates (root : GpuNode) (w : World) (budget_ : option N)
    (look : option OutputHook) (d0 d : Driver) (max extra : nat)
    (Hnew : driver_new root w budget_ look = Ok d0) (Hsinks : sinks_have_input root)
    (Hlanes : has_lanes root) (Hseed : seed d0 = (Ok (), d)) :
  drive_loop (max + 2 + extra) max d = drive_loop (max + 2) max d.
Proof.
  pose proof (build_wf root Hsinks) as Hwf. pose proof (build_shape_ok root Hsinks Hlanes) as Hsh.
  destruct (driver_new_start _ _ _ _ _ Hnew) as (Hi & Hsc & _ & Hstart).
  eapply (seed_sane (build root) Hwf Hsh) in Hseed as [Hs Hst].
  - apply (drive_loop_fuel (build root) Hwf Hsh); [done|lia|lia].
  - split; [done|rewrite Hsc; by apply sched_new_ok|done].
Qed.
End TerminatesTheorem.

(** ** Concrete runs, on the reference backend *)
Definition demo_start : Driver (B:=reference) :=
  Eval vm_compute in
  match driver_new (B:=reference) demo_join_plan tt None None with
  | Ok d => d
  | Err _ => fresh demo_join_plan tt None None
  end.
Definition demo_seeded : Driver (B:=reference) := Eval vm_compute in (seed demo_start).2.
Definition demo_stepped : Driver (B:=reference) := Eval vm_compute in (step demo_seeded).2.

Lemma demo_lanes : has_lanes demo_join_plan.
Proof. vm_compute. repeat (apply List.Forall_cons; [lia|]). apply List.Forall_nil. Defined.

Lemma demo_no_zero : no_zero_limit (build demo_join_plan).
Proof. intros m _. do 5 (destruct m as [|m]; [reflexivity|]). by destruct m. Defined.

Lemma pick_is_the_full_rescan_witness :
  next (d_sched demo_stepped) = Some 2 /\ next (d_sched demo_stepped) = rescan demo_stepped.
Proof.
  split; [vm_compute; reflexivity|].
  apply (pick_is_the_full_rescan (B:=reference) demo_join_plan tt None None demo_start);
    [vm_compute; reflexivity|exact demo_sinks|exact demo_lanes|exact demo_no_zero|].
  apply (reach_step _ demo_seeded); [apply reach_seed|]; vm_compute; reflexivity.
Defined.

Lemma drive_loop_terminates_witness :
  (drive_loop (20 + 2) 20 demo_seeded).1 = Ok ()
  /\ drive_loop (20 + 2 + 7) 20 demo_seeded = drive_loop (20 + 2) 20 demo_seeded.
Proof.
  split; [vm_compute; reflexivity|].
  apply (drive_loop_terminates (B:=reference) demo_join_plan tt None None demo_start demo_seeded 20 7);
    [vm_compute; reflexivity|exact demo_sinks|exact demo_lanes|vm_compute; reflexivity].
Defined.

(** ** A limit of no rows, met before the run starts *)
Definition demo_zero_plan : GpuNode :=
  GpuUnload Sink None
    (demo_coalesce
       (GpuLimit (Intermediate (demo_layout 1 MultipleBatches) demo_schema)
          {| skip := 0; fetch := Some 0%N |} (demo_load 1)) 1).
Definition demo_zero_start : Driver (B:=reference) :=
  Eval vm_compute in
  match driver_new (B:=reference) demo_zero_plan tt None None with
  | Ok d => d
  | Err _ => fresh demo_zero_plan tt None None
  end.
Definition demo_zero_seeded : Driver (B:=reference) := Eval vm_compute in (seed demo_zero_start).2.

(** [seed] refreshes a node before it settles the limits of the nodes below it, and settling one
    refreshes no parent: the limit's parent is not told its input ended.  The run stops with the
    parent able to run, and it is never asked for what it owes at the end of its input. *)
Theorem zero_limit_strands_its_parent :
  seed demo_zero_start = (Ok (), demo_zero_seeded)
  /\ next (d_sched demo_zero_seeded) = None /\ rescan demo_zero_seeded = Some 1
  /\ exists r, run (B:=reference) demo_zero_plan tt None None 100 = Some (Ok r)
       /\ trace (report_log r) = [].
Proof. split_and!; [vm_compute; reflexivity..|]. eexists. split; vm_compute; reflexivity. Qed.
