(* ===== verification/CpuOps.v ===== *)
(** * The CPU backend's executors, short of the joins

    [cpu_backend/mod.rs] and [accumulate.rs]: what
    this backend does around the DataFusion operators it runs.  Arrow's batches and kernels and
    DataFusion's operators are parameters: the class [Arrow] names the calls the code makes of
    them and [ArrowLaws] what it relies on. *)
From stdpp Require Import strings.
From S2P Require Import Prelude Interval PlanIR PlanCommon Executor.
Open Scope N_scope.
Open Scope rust_scope.

(** ** Arrow *)
Definition SchemaRef := list Field.

Class Arrow := {
  RecordBatch : Type;
  Row : Type;
  Column : Type;
  rows : RecordBatch -> list Row;
  batch_schema : RecordBatch -> SchemaRef;
  columns : RecordBatch -> list Column;
  column_type : Column -> DataType;
  null_count : Column -> N;
  get_array_memory_size : RecordBatch -> N;
  (** [cast_with_options] with [safe: false] *)
  cast_unsafe : Column -> DataType -> result string Column;
  (** [RecordBatch::try_new] *)
  try_new : SchemaRef -> list Column -> result string RecordBatch;
  new_empty : SchemaRef -> RecordBatch;
  slice_batch : RecordBatch -> N -> N -> RecordBatch;
  concat_batches : SchemaRef -> list RecordBatch -> result string RecordBatch }.

Definition n_rows `{Arrow} (b : RecordBatch) : N := lenN (rows b).
Definition rows_of `{Arrow} (bs : list RecordBatch) : list Row := concat (map rows bs).

(** What the code relies on: a slice is those rows, a concatenation is its batches' rows in order,
    a batch built of columns of the same values has the same rows, and widening a decimal's
    precision, or narrowing it where the value fits, keeps the value. *)
Class ArrowLaws `{Arrow} := {
  same_values : Column -> Column -> Prop;
  same_refl : forall c, same_values c c;
  cast_same : forall c t c', cast_unsafe c t = Ok c' -> same_values c c';
  slice_rows : forall b off len, rows (slice_batch b off len) = slice off len (rows b);
  slice_schema : forall b off len, batch_schema (slice_batch b off len) = batch_schema b;
  concat_rows : forall s bs b, concat_batches s bs = Ok b -> rows b = rows_of bs;
  concat_schema : forall s bs b, concat_batches s bs = Ok b -> batch_schema b = s;
  concat_total : forall s bs, (forall b, b ∈ bs -> batch_schema b = s) ->
    exists b, concat_batches s bs = Ok b;
  relabel_rows : forall b s cols b', Forall2 same_values (columns b) cols ->
    try_new s cols = Ok b' -> rows b' = rows b;
  try_new_schema : forall s cols b, try_new s cols = Ok b -> batch_schema b = s;
  empty_rows : forall s, rows (new_empty s) = [];
  empty_schema : forall s, batch_schema (new_empty s) = s }.

Definition backend_error (what e : string) : BackendError := {| message := what +:+ e |}.

Notation CallOf T := (result BackendError (T * CallStats)) (only parsing).
Definition answers {T} (x : T) : CallOf T := Ok (x, default_stats).

Section Cpu.
Context `{Arrow}.

(** A DataFusion operator over the batches it is handed: [run_node]. *)
Context {Operator : Type} (run_node : Operator -> list RecordBatch -> result BackendError (list RecordBatch)).

(** ** Relabelling an answer *)

(** Whether the produced type is the declared one with the precision a decimal sum gains. *)
Definition widened_decimal (produced declared : DataType) : bool :=
  match produced, declared with
  | Decimal128 theirs their_scale, Decimal128 ours our_scale =>
      (their_scale =? our_scale)%Z && (ours <=? theirs)%nat
  | _, _ => false
  end.

Definition nulls_where_none_declared (cols : list Column) (declared : SchemaRef) : option string :=
  if negb (length cols =? length declared)%nat then None
  else match filter (fun '(c, f) => nullable f = false /\ 0 < null_count c) (zip cols declared) with
       | [] => None
       | _ => Some "NULLs where the node declares it non-nullable (#227)"
       end.

(** The loop over [columns.iter_mut().zip(declared)]: a column past the declared ones is left as
    it is. *)
Fixpoint narrow_decimals (cols : list Column) (declared : SchemaRef) :
    result BackendError (list Column) :=
  match cols, declared with
  | c :: cols, f :: declared =>
      c ← (if widened_decimal (column_type c) (data_type f)
           then map_err (backend_error (field_name f +:+ " does not fit what the node declares: "))
                  (cast_unsafe c (data_type f))
           else Ok c);
      cols ← narrow_decimals cols declared;
      Ok (c :: cols)
  | cols, _ => Ok cols
  end.

Definition declared_as (batch : RecordBatch) (declared : SchemaRef) :
    result BackendError RecordBatch :=
  match nulls_where_none_declared (columns batch) declared with
  | Some said => Err {| message := said |}
  | None =>
      if bool_decide (batch_schema batch = declared) then Ok batch
      else cols ← narrow_decimals (columns batch) declared;
           map_err (backend_error "the node declares other columns than DataFusion answered with: ")
             (try_new declared cols)
  end.

Definition declared_all (batches : list RecordBatch) (schema : SchemaRef) :
    result BackendError (list RecordBatch) := traverse (fun b => declared_as b schema) batches.

(** ** [CpuExec]: a node's operators in call order *)
Record Stage := { stage_node : Operator; stage_declared : SchemaRef }.
Record CpuExec := { stages : list Stage; exec_fetch : option N }.

Definition sum_bytes (bs : list RecordBatch) : N := sumN (map get_array_memory_size bs).

Definition run_stage (acc : list RecordBatch * N) (stage : Stage) :
    result BackendError (list RecordBatch * N) :=
  let '(batches, scratch) := acc in
  produced ← run_node (stage_node stage) batches;
  batches ← declared_all produced (stage_declared stage);
  Ok (batches, N.max scratch (sum_bytes batches)).

Fixpoint run_stages (acc : list RecordBatch * N) (l : list Stage) :
    result BackendError (list RecordBatch * N) :=
  match l with
  | [] => Ok acc
  | stage :: l => acc ← run_stage acc stage; run_stages acc l
  end.

(** The fetch as a slice of what a sort ordered. *)
Definition first_rows (batch : RecordBatch) (fetch : option N) : RecordBatch :=
  match fetch with
  | Some fetch => if fetch <? n_rows batch then slice_batch batch 0 fetch else batch
  | None => batch
  end.

(** The [expect] on the last stage never fails: every constructor builds one. *)
Definition output_schema (e : CpuExec) : SchemaRef := default [] (stage_declared <$> last (stages e)).

Definition cpu_exec (e : CpuExec) (batch : RecordBatch) : CallOf RecordBatch :=
  '(batches, scratch) ← run_stages ([batch], 0) (stages e);
  batch ← map_err (backend_error "joining the node's output: ")
            (concat_batches (output_schema e) batches);
  Ok (first_rows batch (exec_fetch e), {| scratch := Some scratch; calls := None |}).

(** ** The accumulators *)
Definition coalesce_or_nothing (schema : SchemaRef) (held : list RecordBatch) :
    CallOf (list RecordBatch) :=
  match held with
  | [] => answers []
  | _ => batch ← map_err (backend_error "joining the lane's batches: ") (concat_batches schema held);
         answers [batch]
  end.

Definition sorted_and_cut (sort : Operator) (held : list RecordBatch) (fetch : option N)
    (schema : SchemaRef) : CallOf (list RecordBatch) :=
  if forallb (fun b => n_rows b =? 0) held then coalesce_or_nothing schema held
  else sorted ← run_node sort held;
       '(ordered, _) ← coalesce_or_nothing schema sorted;
       answers (map (fun b => first_rows b fetch) ordered).

Record Coalesce := { c_held : list RecordBatch; c_schema : SchemaRef }.
Record SortedRuns :=
  { r_held : list RecordBatch; r_sort : Operator; r_fetch : option N; r_schema : SchemaRef }.

(** [held] is the state's declared schema, [state_] what is folded so far. *)
Record AggregateBatches :=
  { a_merge : Operator; a_finalize : option Operator; state_ : option RecordBatch;
    pending : list RecordBatch; pending_bytes : N; threshold : N; compactions : N;
    a_held : SchemaRef; a_output : SchemaRef }.

Record AggregateInit := { chain : CpuExec; i_input : SchemaRef; emitted : bool }.

Inductive State :=
| SCoalesce (s : Coalesce) | SSorted (s : SortedRuns) | SAggregate (s : AggregateBatches)
| SLimit (s : LimitStream) | SInit (s : AggregateInit).

(** *** Coalesce and sort *)
Definition coalesce_accumulate (s : Coalesce) (batch : RecordBatch) : Coalesce :=
  {| c_held := c_held s ++ [batch]; c_schema := c_schema s |}.
Definition coalesce_done (s : Coalesce) : CallOf (list RecordBatch) :=
  coalesce_or_nothing (c_schema s) (c_held s).

Definition sorted_accumulate (s : SortedRuns) (batch : RecordBatch) : SortedRuns :=
  {| r_held := r_held s ++ [batch]; r_sort := r_sort s; r_fetch := r_fetch s;
     r_schema := r_schema s |}.
Definition sorted_done (s : SortedRuns) : CallOf (list RecordBatch) :=
  sorted_and_cut (r_sort s) (r_held s) (r_fetch s) (r_schema s).

(** *** The merge of aggregate state *)
Definition state_bytes (st : option RecordBatch) : N :=
  match st with Some b => get_array_memory_size b | None => 0 end.
Definition agg_held_bytes (s : AggregateBatches) : N :=
  state_bytes (state_ s) ⊞ pending_bytes s.

Definition agg_with (s : AggregateBatches) (st : option RecordBatch) (p : list RecordBatch)
    (pb th c : N) : AggregateBatches :=
  {| a_merge := a_merge s; a_finalize := a_finalize s; state_ := st; pending := p;
     pending_bytes := pb; threshold := th; compactions := c; a_held := a_held s;
     a_output := a_output s |}.

Definition AM := M AggregateBatches BackendError.

Definition take_inputs : AM (list RecordBatch) := fun s =>
  (Ok (option_list (state_ s) ++ pending s),
   agg_with s None [] 0 (threshold s) (compactions s)).

Definition merge_declared (inputs : list RecordBatch) : AM RecordBatch := fun s =>
  ((merged ← run_node (a_merge s) inputs;
    merged ← declared_all merged (a_held s);
    map_err (backend_error "joining the merged state: ") (concat_batches (a_held s) merged)), s).

Definition store_state (b : RecordBatch) : AM () := modify (fun s =>
  agg_with s (Some b) (pending s) (pending_bytes s)
    (N.max (threshold s) ((2 * get_array_memory_size b) mod u64_modulus))
    (compactions s ⊞ 1)).

Definition compact : AM () :=
  inputs ← take_inputs; b ← merge_declared inputs; store_state b.

Definition push_pending (batch : RecordBatch) : AM () := modify (fun s =>
  agg_with s (state_ s) (pending s ++ [batch])
    (pending_bytes s ⊞ get_array_memory_size batch) (threshold s) (compactions s)).

Definition agg_accumulate (batch : RecordBatch) : AM (list RecordBatch) :=
  push_pending batch ≫= fun _ =>
  full ← gets (fun s => threshold s <=? agg_held_bytes s);
  (if full : bool then compact else mret ()) ≫= fun _ => mret [].

Definition agg_done (s : AggregateBatches) : CallOf (list RecordBatch) :=
  match (if bool_decide (pending s = []) then (Ok (), s) else compact s) with
  | (Err e, _) => Err e
  | (Ok _, s) =>
      match state_ s with
      | None => coalesce_or_nothing (a_output s) []
      | Some st =>
          match a_finalize s with
          | None => coalesce_or_nothing (a_held s) [st]
          | Some finalize =>
              finalized ← run_node finalize [st];
              finalized ← declared_all finalized (a_output s);
              coalesce_or_nothing (a_output s) finalized
          end
      end
  end.

(** *** The mid-plan limit, over batches *)
Definition cpu_limit_accumulate (s : LimitStream) (batch : RecordBatch) :
    LimitStream * list RecordBatch :=
  let rows := range_of (interval s) (seen s) (n_rows batch) in
  let s' := {| interval := interval s; seen := seen s ⊞ n_rows batch |} in
  match rows with
  | None => (s', [])
  | Some r => (s', [if covers r (n_rows batch) then batch
                    else slice_batch batch (offset r) (range_length r)])
  end.

(** *** An aggregate's init *)
Definition IM := M AggregateInit BackendError.

Definition init_emitted (went_out : bool) : IM () := modify (fun s =>
  {| chain := chain s; i_input := i_input s; emitted := emitted s || went_out |}).

Definition init_accumulate (batch : RecordBatch) : IM (list RecordBatch * CallStats) :=
  if n_rows batch =? 0 then mret ([], default_stats)
  else e ← gets chain;
       '(out, stats) ← lift (cpu_exec e batch);
       init_emitted (0 <? n_rows out) ≫= fun _ => mret ([out], stats).

Definition init_done (s : AggregateInit) : CallOf (list RecordBatch) :=
  if emitted s then answers []
  else '(out, stats) ← cpu_exec (chain s) (new_empty (i_input s));
       Ok (if n_rows out =? 0 then ([], stats) else ([out], stats)).

(** *** [CpuAccumulator]: one call of whichever variant it is *)
Definition held_by {S} (wrap : S -> State) (r : result BackendError (list RecordBatch * CallStats) * S) :
    State * CallOf (list RecordBatch) := (wrap r.2, r.1).

Definition cpu_accumulate_and_fetch (st : State) (batch : RecordBatch) :
    State * CallOf (list RecordBatch) :=
  match st with
  | SCoalesce s => (SCoalesce (coalesce_accumulate s batch), answers [])
  | SSorted s => (SSorted (sorted_accumulate s batch), answers [])
  | SAggregate s =>
      held_by SAggregate ((out ← agg_accumulate batch; mret (out, default_stats)) s)
  | SLimit s => let '(s, out) := cpu_limit_accumulate s batch in (SLimit s, answers out)
  | SInit s => held_by SInit (init_accumulate batch s)
  end.

Definition cpu_mark_done_and_fetch (st : State) : CallOf (list RecordBatch) :=
  match st with
  | SCoalesce s => coalesce_done s
  | SSorted s => sorted_done s
  | SAggregate s => agg_done s
  | SLimit s => answers []
  | SInit s => init_done s
  end.

Definition held_bytes (st : State) : N :=
  match st with
  | SCoalesce s => sum_bytes (c_held s)
  | SSorted s => sum_bytes (r_held s)
  | SAggregate s => agg_held_bytes s
  | SLimit _ | SInit _ => 0
  end.

(** ** [CpuPartitionAccumulator]: every lane's sorted stream merged at the last done *)
Record CpuPartitionAccumulator :=
  { per_lane : list (list RecordBatch); live : nat; p_sort : Operator; p_fetch : option N;
    p_schema : SchemaRef }.

Definition part_with (s : CpuPartitionAccumulator) (lanes : list (list RecordBatch)) (l : nat) :
    CpuPartitionAccumulator :=
  {| per_lane := lanes; live := l; p_sort := p_sort s; p_fetch := p_fetch s;
     p_schema := p_schema s |}.

(** A lane past the node's is the index panic, and a done past the last live lane wraps the count:
    the driver makes neither call. *)
Definition part_event (s : CpuPartitionAccumulator) (partition : nat)
    (event : LaneEvent RecordBatch) : CpuPartitionAccumulator * CallOf (list RecordBatch) :=
  match event with
  | LaneBatch batch =>
      (part_with s (alter (fun held => held ++ [batch]) partition (per_lane s)) (live s),
       answers [])
  | LaneDone =>
      let left := (live s - 1)%nat in
      if (0 <? left)%nat then (part_with s (per_lane s) left, answers [])
      else (part_with s [] left,
            sorted_and_cut (p_sort s) (concat (per_lane s)) (p_fetch s) (p_schema s))
  end.

Definition part_held_bytes (s : CpuPartitionAccumulator) : N := sumN (map sum_bytes (per_lane s)).

(** ** A lane's calls: one per batch, and the one at done *)
Fixpoint acc_lane (st : State) (bs : list RecordBatch) : result BackendError (list RecordBatch) :=
  match bs with
  | [] => fst <$> cpu_mark_done_and_fetch st
  | b :: bs =>
      let '(st, r) := cpu_accumulate_and_fetch st b in
      '(outs, _) ← r; rest ← acc_lane st bs; Ok (outs ++ rest)
  end.

Definition part_step (acc : result BackendError (CpuPartitionAccumulator * list RecordBatch))
    (event : nat * LaneEvent RecordBatch) :
    result BackendError (CpuPartitionAccumulator * list RecordBatch) :=
  '(s, outs) ← acc;
  let '(s, r) := part_event s event.1 event.2 in
  '(more, _) ← r; Ok (s, outs ++ more).

(** What the calls of a run of lane events answer, in order. *)
Definition part_run (s : CpuPartitionAccumulator) (events : list (nat * LaneEvent RecordBatch)) :
    result BackendError (CpuPartitionAccumulator * list RecordBatch) :=
  foldl part_step (Ok (s, [])) events.
End Cpu.

(** ** Relabelling keeps the rows *)
Section relabel.
Context `{ArrowLaws}.

Lemma narrow_same cols s cols' : narrow_decimals cols s = Ok cols' -> Forall2 same_values cols cols'.
Proof.
  revert s cols'. induction cols as [|c cols IH]; intros s cols' Hn; cbn in Hn.
  - by injection Hn as <-.
  - destruct s as [|f s].
    + injection Hn as <-. apply Forall_Forall2_diag. apply Forall_forall. eauto using same_refl.
    + apply bind_ok in Hn as (c' & Hc & (cs & Hcs & [= <-])%bind_ok). constructor; [|by eapply IH].
      destruct (widened_decimal _ _); [|injection Hc as <-; apply same_refl].
      destruct (cast_unsafe c (data_type f)) eqn:E; [|done]. injection Hc as <-. by eapply cast_same.
Qed.

Lemma declared_rows b s b' : declared_as b s = Ok b' -> rows b' = rows b.
Proof.
  unfold declared_as. destruct (nulls_where_none_declared _ _); [done|]. case_bool_decide.
  - by intros [= <-].
  - intros (cols & Hc & Ht)%bind_ok. destruct (try_new s cols) eqn:E; [|done]. injection Ht as <-.
    eapply relabel_rows; [|done]. by eapply narrow_same.
Qed.

Lemma declared_schema b s b' : declared_as b s = Ok b' -> batch_schema b' = s.
Proof.
  unfold declared_as. destruct (nulls_where_none_declared _ _); [done|]. case_bool_decide.
  - by intros [= <-].
  - intros (cols & Hc & Ht)%bind_ok. destruct (try_new s cols) eqn:E; [|done]. injection Ht as <-.
    by eapply try_new_schema.
Qed.

Lemma declared_all_rows bs s bs' : declared_all bs s = Ok bs' -> rows_of bs' = rows_of bs.
Proof.
  intros Hd%traverse_ok. unfold rows_of. f_equal.
  induction Hd as [|b b' bs bs' Hb _ IH]; [done|]. cbn. f_equal; [|done]. by eapply declared_rows.
Qed.

Lemma declared_all_schema bs s bs' : declared_all bs s = Ok bs' -> Forall (fun b => batch_schema b = s) bs'.
Proof.
  intros Hd%traverse_ok. induction Hd; constructor; [|done]. by eapply declared_schema.
Qed.

Lemma rows_of_app bs bs' : rows_of (bs ++ bs') = rows_of bs ++ rows_of bs'.
Proof. unfold rows_of. by rewrite map_app, concat_app. Qed.

Lemma rows_of_cons b bs : rows_of (b :: bs) = rows b ++ rows_of bs.
Proof. done. Qed.

Lemma coalesce_rows s held outs stats :
  coalesce_or_nothing s held = Ok (outs, stats) ->
  rows_of outs = rows_of held /\ length outs = (if decide (held = []) then 0%nat else 1%nat).
Proof.
  unfold coalesce_or_nothing. destruct held as [|b bs]; [by intros [= <- _]|].
  intros (c & Hc & [= <- _])%bind_ok. destruct (concat_batches s (b :: bs)) eqn:E; [|done].
  injection Hc as ->. cbn [length decide]. split; [|done].
  apply concat_rows in E. by rewrite <- E, rows_of_cons, app_nil_r.
Qed.
End relabel.
