(* ===== verification/Samples.v ===== *)
(** * Concrete batches the witnesses run on

    An instance of [Arrow] small enough to compute with: one-column batches of numbers, and the two
    operators the accumulators' witnesses call. *)
From stdpp Require Import strings.
From S2P Require Import Prelude Interval PlanIR PlanCommon Executor CpuOps.
Open Scope N_scope.

(** A toy of one-column batches of numbers, a byte each: the merge adds, so a batch of any rows
    folds to one row. *)
Definition toy_arrow_of (A : Type) : Arrow := {|
  RecordBatch := list Field * list A; Row := A; Column := list A; rows := snd;
  batch_schema := fst; columns := fun b => [b.2]; column_type := fun _ => Int64;
  null_count := fun _ => 0; get_array_memory_size := fun b => lenN b.2 mod 2 ^ 62;
  cast_unsafe := fun c _ => Ok c; try_new := fun s cs => Ok (s, default [] (head cs));
  new_empty := fun s => (s, []); slice_batch := fun b off len => (b.1, slice off len b.2);
  concat_batches := fun s bs => Ok (s, concat (map snd bs)) |}.

Lemma toy_laws_of A : @ArrowLaws (toy_arrow_of A).
Proof.
  refine {| same_values := eq |}; try done; cbn; try congruence.
  - intros s bs b [= <-]. done.
  - intros s bs b [= <-]. done.
  - eauto.
  - intros b s cols b' Hc%Forall2_cons_inv_l [= <-]. destruct Hc as (c & cs & <- & _ & ->). done.
  - intros s cols b [= <-]. done.
Qed.

Definition toy_arrow : Arrow := toy_arrow_of N.
Definition toy_laws : @ArrowLaws toy_arrow := toy_laws_of N.
#[local] Existing Instance toy_arrow.

(** The toy's operators: add every row up, or sort by insertion. *)
Inductive Toy := ToyAdd | ToySort.

Fixpoint toy_insert (x : N) (l : list N) : list N :=
  match l with [] => [x] | y :: l => if x <=? y then x :: y :: l else y :: toy_insert x l end.

Definition toy_run (op : Toy) (bs : list RecordBatch) : result BackendError (list RecordBatch) :=
  let all := concat (map snd bs) in
  Ok [([], match op with ToyAdd => [sumN all] | ToySort => foldr toy_insert [] all end)].

Definition toy_batch (l : list N) : RecordBatch := ([], l).
