(* ===== verification/CpuEmit.v ===== *)
(** * The CPU backend's scatter

    [cpu_backend/spark_partitioning.rs] and [emit.rs]: which lane a row belongs to, and one batch in,
    N out.  Comet's murmur3 and arrow's kernels are parameters. *)
From stdpp Require Import strings.
From S2P Require Import Prelude Interval PlanIR PlanCommon Executor CpuOps Samples.
Open Scope nat_scope.

(** ** 32-bit signed arithmetic *)
Definition i32_modulus : Z := 2 ^ 32.
Definition wrap_i32 (z : Z) : Z := (z + 2 ^ 31) `mod` i32_modulus - 2 ^ 31.
Definition is_i32 (z : Z) : Prop := (- 2 ^ 31 <= z < 2 ^ 31)%Z.

(** Spark's [pmod], [%] rounding towards zero and [+] wrapping. *)
Definition pmod (hash n : Z) : Z := Z.rem (wrap_i32 (Z.rem hash n + n)) n.

(** [per_lane[pmod(hash as i32, lanes as i32) as usize]]: [None] is the panic, of a remainder by
    zero or of an index out of range, a negative one included. *)
Definition lane_index (lanes : nat) (hash : Z) : option nat :=
  let m := wrap_i32 (Z.of_nat lanes) in
  let i := pmod (wrap_i32 hash) m in
  if decide (m <> 0 /\ 0 <= i < Z.of_nat lanes)%Z then Some (Z.to_nat i) else None.

Class Hashing `{Arrow} := {
  SEED : Z;
  (** [expr.evaluate(batch)] of a column reference *)
  key_column : RecordBatch -> nat -> result string Column;
  cast_column : Column -> DataType -> result string Column;
  (** [unary(|v| v as i64)] of a [u64] column *)
  bits_as_i64 : Column -> Column;
  (** [unary] of the map sending every NaN to [NAN] *)
  nans_as_one : Column -> Column;
  (** [create_murmur3_hashes] over a buffer of seeds *)
  create_murmur3_hashes : list Column -> list Z -> result string (list Z);
  (** [take] of every column *)
  take_columns : RecordBatch -> list nat -> result string (list Column) }.

Section Spark.
Context `{Hashing}.

Definition canonical_nans (array : Column) : Column :=
  match column_type array with
  | Float64 | Float32 => nans_as_one array
  | _ => array
  end.

Definition hash_key (batch : RecordBatch) (key : nat) : result string Column :=
  array ← key_column batch key;
  array ← match column_type array with
          | Decimal128 p s => if p <? 38 then cast_column array (Decimal128 38 s) else Ok array
          | UInt8 | UInt16 => cast_column array Int32
          | UInt32 => cast_column array Int64
          | UInt64 => Ok (bits_as_i64 array)
          | _ => Ok array
          end;
  Ok (canonical_nans array).

Definition hash_keys_of (batch : RecordBatch) (keys : list nat) : result string (list Column) :=
  traverse (hash_key batch) keys.

(** [for (row, hash) in hashes: per_lane[lane].push(row)], the index panic [None]. *)
Fixpoint push_rows (lanes : nat) (row : nat) (hashes : list Z) (per_lane : list (list nat)) :
    option (list (list nat)) :=
  match hashes with
  | [] => Some per_lane
  | hash :: hashes =>
      lane ← lane_index lanes hash;
      push_rows lanes (S row) hashes (alter (fun rows => rows ++ [row]) lane per_lane)
  end.

Definition batch_hashes (batch : RecordBatch) (keys : list nat) : result string (list Z) :=
  cols ← hash_keys_of batch keys;
  let hashes := replicate (length (rows batch)) SEED in
  if 0 <? length (rows batch) then create_murmur3_hashes cols hashes else Ok hashes.

Definition rows_per_lane (batch : RecordBatch) (keys : list nat) (lanes : nat) :
    result string (option (list (list nat))) :=
  hashes ← batch_hashes batch keys;
  Ok (push_rows lanes 0 hashes (replicate lanes [])).

(** ** [CpuEmitter] *)
Record CpuEmitter := { e_keys : list nat; e_lanes : nat; e_schema : SchemaRef }.

Definition emitter_new (hash_keys : list nat) (lanes : nat) (input : SchemaRef) :
    PlanResult CpuEmitter :=
  for_each (fun key => ensure (key <? length input)
    (Invalid "the hash key is past the columns its input has")) hash_keys ≫= fun _ =>
  ensure (negb (lanes =? 0))
    (Invalid "a scatter into no lanes emits nothing a plan could read") ≫= fun _ =>
  Ok {| e_keys := hash_keys; e_lanes := lanes; e_schema := input |}.

Definition lane_rows (schema : SchemaRef) (batch : RecordBatch) (picked : list nat) :
    result BackendError RecordBatch :=
  match picked with
  | [] => Ok (new_empty schema)
  | _ => cols ← map_err (backend_error "gathering a lane's rows: ") (take_columns batch picked);
         map_err (backend_error "a lane's batch: ") (try_new schema cols)
  end.

(** [None] is the panic of a row no lane holds. *)
Definition cpu_emit (e : CpuEmitter) (batch : RecordBatch) :
    option (result BackendError (list RecordBatch * CallStats)) :=
  match map_err (backend_error "assigning the scatter's lanes: ")
          (rows_per_lane batch (e_keys e) (e_lanes e)) with
  | Err err => Some (Err err)
  | Ok None => None
  | Ok (Some per_lane) =>
      Some (lanes ← traverse (lane_rows (e_schema e) batch) per_lane; answers lanes)
  end.
End Spark.

(** ** What the scatter relies on: a hash per row, and [take] answering the rows it names. *)
Class HashingLaws `{Hashing} := {
  hash_per_row : forall cols seeds hs,
    create_murmur3_hashes cols seeds = Ok hs -> length hs = length seeds;
  take_rows : forall b picked s cols out,
    take_columns b picked = Ok cols -> try_new s cols = Ok out ->
    rows out = omap (fun i => rows b !! i) picked }.

(** ** The lane of a hash *)
Lemma wrap_i32_small z : is_i32 z -> wrap_i32 z = z.
Proof. unfold is_i32, wrap_i32, i32_modulus. intros Hz. rewrite Z.mod_small; lia. Qed.

Lemma wrap_i32_is z : is_i32 (wrap_i32 z).
Proof.
  unfold is_i32, wrap_i32, i32_modulus.
  pose proof (Z.mod_pos_bound (z + 2 ^ 31) (2 ^ 32) ltac:(lia)). lia.
Qed.

(** Up to 2^30 lanes the signed remainder is the mathematical one, so it names a lane. *)
Lemma pmod_mod h m : is_i32 h -> (0 < m <= 2 ^ 30)%Z -> pmod h m = (h `mod` m)%Z.
Proof.
  intros Hh Hm. unfold pmod.
  pose proof (Z.rem_bound_abs h m ltac:(lia)) as Hr.
  rewrite wrap_i32_small by (unfold is_i32; lia).
  rewrite Z.rem_mod_nonneg by lia.
  replace (Z.rem h m + m)%Z with (h + (1 - h ÷ m) * m)%Z.
  - by rewrite Z.mod_add by lia.
  - pose proof (Z.quot_rem h m ltac:(lia)). lia.
Qed.

Lemma lane_index_bound lanes h i : lane_index lanes h = Some i -> i < lanes.
Proof. unfold lane_index. case_decide as Hd; intros [= <-]. lia. Qed.

Lemma lane_index_total lanes h : 0 < lanes -> (Z.of_nat lanes <= 2 ^ 30)%Z ->
  lane_index lanes h = Some (Z.to_nat (wrap_i32 h `mod` Z.of_nat lanes)).
Proof.
  intros Hl Hm. unfold lane_index.
  rewrite (wrap_i32_small (Z.of_nat lanes)) by (unfold is_i32; lia).
  rewrite pmod_mod by (try apply wrap_i32_is; lia).
  pose proof (Z.mod_pos_bound (wrap_i32 h) (Z.of_nat lanes) ltac:(lia)).
  rewrite decide_True; [done|]. lia.
Qed.

(** ** The scatter *)

(** The rows of a batch whose hash names lane [i], in row order: what lane [i] is owed. *)
Definition rows_hashed_to {A} (lanes i : nat) (keyed : list (A * Z)) : list A :=
  map fst (filter (fun rh => lane_index lanes rh.2 = Some i) keyed).

Fixpoint picks (lanes i row : nat) (hashes : list Z) : list nat :=
  match hashes with
  | [] => []
  | h :: hashes =>
      (if decide (lane_index lanes h = Some i) then [row] else []) ++ picks lanes i (S row) hashes
  end.

Section scatter.
Context `{HashingLaws}.

Lemma push_rows_spec lanes hashes row acc out :
  length acc = lanes -> push_rows lanes row hashes acc = Some out ->
  length out = lanes /\ forall i x, acc !! i = Some x -> out !! i = Some (x ++ picks lanes i row hashes).
Proof.
  revert row acc. induction hashes as [|h hashes IH]; intros row acc Hl Hp; cbn in Hp.
  - injection Hp as <-. split; [done|]. intros i x Hx. by rewrite app_nil_r.
  - destruct (lane_index lanes h) as [lane|] eqn:Hh; [|done]. cbn in Hp.
    apply IH in Hp as [Hout Hat]; [|by rewrite length_alter]. split; [done|].
    intros i x Hx. cbn [picks]. rewrite Hh. destruct (decide (lane = i)) as [->|Hne].
    + rewrite decide_True by done. rewrite app_assoc. apply Hat. by rewrite list_lookup_alter_eq, Hx.
    + rewrite decide_False by congruence. apply Hat. by rewrite list_lookup_alter_ne.
Qed.

Lemma push_rows_total lanes hashes row acc :
  (forall h, h ∈ hashes -> is_Some (lane_index lanes h)) -> is_Some (push_rows lanes row hashes acc).
Proof.
  revert row acc. induction hashes as [|h hashes IH]; intros row acc Hh; cbn; [done|].
  destruct (Hh h ltac:(set_solver)) as [lane ->]. cbn. apply IH. set_solver.
Qed.

Lemma picks_rows {A} lanes i (pre l : list A) hashes :
  length l = length hashes ->
  omap (fun j => (pre ++ l) !! j) (picks lanes i (length pre) hashes)
  = rows_hashed_to lanes i (zip l hashes).
Proof.
  revert pre l. induction hashes as [|h hashes IH]; intros pre [|x l] Hl; try done.
  cbn [picks zip zip_with]. unfold rows_hashed_to. rewrite filter_cons. cbn [snd].
  specialize (IH (pre ++ [x]) l ltac:(by injection Hl)).
  rewrite length_app, Nat.add_1_r, <- app_assoc in IH. cbn [app] in IH.
  rewrite omap_app, IH. destruct (decide (lane_index lanes h = Some i)); [|done].
  cbn [omap list_omap]. by rewrite list_lookup_middle.
Qed.

Lemma picks_lane lanes i row hashes : picks lanes i row hashes ≠ [] -> i < lanes.
Proof.
  revert row. induction hashes as [|h hashes IH]; intros row Hp; [done|]. cbn in Hp.
  case_decide as Hh; [by eapply lane_index_bound|]. by eapply IH.
Qed.

Lemma lane_rows_ok s b picked out :
  lane_rows s b picked = Ok out -> ArrowLaws -> rows out = omap (fun i => rows b !! i) picked.
Proof.
  intros Hr HL. unfold lane_rows in Hr. destruct picked as [|i picked].
  - injection Hr as <-. by rewrite empty_rows.
  - apply bind_ok in Hr as (cols & Hc & Ht).
    destruct (take_columns b (i :: picked)) eqn:E; [|done]. injection Hc as ->.
    destruct (try_new s cols) eqn:E2; [|done]. injection Ht as ->. by eapply take_rows.
Qed.

Lemma batch_hashes_length b keys hs : batch_hashes b keys = Ok hs -> length hs = length (rows b).
Proof.
  unfold batch_hashes. intros Hh. apply bind_ok in Hh as (cols & _ & Hh).
  destruct (Nat.ltb_spec 0 (length (rows b))).
  - apply hash_per_row in Hh. by rewrite Hh, length_replicate.
  - injection Hh as <-. by rewrite length_replicate.
Qed.

Lemma rows_hashed_split {A} lanes (keyed : list (A * Z)) :
  (forall rh, rh ∈ keyed -> is_Some (lane_index lanes rh.2)) ->
  concat (map (fun i => rows_hashed_to lanes i keyed) (seq 0 lanes)) ≡ₚ map fst keyed.
Proof.
  intros Hk.
  transitivity (map fst (concat (map (fun i =>
    filter (fun rh => default 0 (lane_index lanes rh.2) = i) keyed) (seq 0 lanes))));
    [|apply Permutation_map, concat_classes].
  - match goal with |- ?a ≡ₚ ?b => enough (a = b) as -> by done end.
    rewrite concat_map, map_map. f_equal. apply map_ext. intros i. unfold rows_hashed_to. f_equal.
    apply filter_ext_in. intros rh [l Hl]%Hk. rewrite Hl. cbn. split; congruence.
  - intros rh [l Hl]%Hk. rewrite Hl. cbn. by apply lane_index_bound in Hl.
Qed.

(** C34: over at least one and at most 2^30 lanes, a scatter that answers does so with exactly one batch
    per lane, in lane order; lane [i]'s holds exactly the rows whose hash names lane [i], in the order
    the batch had them; and no row is lost or doubled. *)
Theorem scatter_partitions_the_batch `{!ArrowLaws} e b hashes outs stats :
  (0 < Z.of_nat (e_lanes e) <= 2 ^ 30)%Z ->
  batch_hashes b (e_keys e) = Ok hashes ->
  cpu_emit e b = Some (Ok (outs, stats)) ->
  length outs = e_lanes e
  /\ (forall i out, outs !! i = Some out -> rows out = rows_hashed_to (e_lanes e) i (zip (rows b) hashes))
  /\ rows_of outs ≡ₚ rows b.
Proof.
  intros Hlanes Hh He. unfold cpu_emit, rows_per_lane in He. rewrite Hh in He. cbn [mbind result_bind map_err] in He.
  destruct (push_rows _ 0 hashes _) as [per_lane|] eqn:Hp; [|done]. injection He as He.
  apply bind_ok in He as (lanes & Ht%traverse_ok & [= <- _]).
  apply push_rows_spec in Hp as [Hlen Hat]; [|by rewrite length_replicate].
  assert (Hl : length lanes = e_lanes e) by (rewrite <- Hlen; symmetry; by eapply Forall2_length).
  assert (Hz : length (rows b) = length hashes) by (symmetry; by eapply batch_hashes_length).
  assert (Hout : forall i out, lanes !! i = Some out ->
    rows out = rows_hashed_to (e_lanes e) i (zip (rows b) hashes)).
  { intros i out Hi. destruct (Forall2_lookup_r _ _ _ _ _ Ht Hi) as (picked & Hpick & Hr).
    rewrite (Hat i []) in Hpick.
    - cbn in Hpick. injection Hpick as <-. apply lane_rows_ok in Hr; [|done]. rewrite Hr.
      by apply (picks_rows (e_lanes e) i []).
    - apply lookup_replicate_2. rewrite <- Hl. by eapply lookup_lt_Some. }
  split_and!; [done|done|].
  unfold rows_of. rewrite (map_by_index rows _ lanes Hout), Hl, rows_hashed_split.
  - by rewrite fst_zip by lia.
  - intros rh _. rewrite lane_index_total by lia. done.
Qed.
End scatter.

(** A number hashes to itself. *)
#[local] Existing Instances toy_arrow toy_laws.
#[local] Instance toy_hashing : Hashing := {|
  SEED := 42; key_column := fun b _ => Ok b.2; cast_column := fun c _ => Ok c;
  bits_as_i64 := fun c => c; nans_as_one := fun c => c;
  create_murmur3_hashes := fun cols seeds =>
    match cols with
    | [c] => if length c =? length seeds then Ok (map Z.of_N c) else Err "lengths"
    | _ => Err "one key"
    end;
  take_columns := fun b picked => Ok [omap (fun i => b.2 !! i) picked] |}.

#[local] Instance toy_hashing_laws : HashingLaws.
Proof.
  split; cbn.
  - intros [|c []] seeds hs Hh; try done. destruct (Nat.eqb_spec (length c) (length seeds)); [|done].
    injection Hh as <-. by rewrite length_map.
  - by intros b picked s cols out [= <-] [= <-].
Qed.

Definition toy_emitter : CpuEmitter := {| e_keys := [0]; e_lanes := 3; e_schema := [] |}.

Lemma scatter_partitions_the_batch_witness :
  cpu_emit toy_emitter (toy_batch [5; 3; 8; 9; 4]%N)
    = Some (Ok ([toy_batch [3; 9]; toy_batch [4]; toy_batch [5; 8]]%N, default_stats))
  /\ rows_of [toy_batch [3; 9]; toy_batch [4]; toy_batch [5; 8]]%N ≡ₚ [5; 3; 8; 9; 4]%N.
Proof.
  split; [vm_compute; reflexivity|].
  apply (scatter_partitions_the_batch toy_emitter (toy_batch [5; 3; 8; 9; 4]%N) [5; 3; 8; 9; 4]%Z
           [toy_batch [3; 9]; toy_batch [4]; toy_batch [5; 8]]%N default_stats).
  - cbn. lia.
  - vm_compute. reflexivity.
  - vm_compute. reflexivity.
Defined.

(** up to 2^30 lanes the lane of a hash is the mathematical remainder, so every row has one and
    equal hashes share it; past that the signed sum overflows and some hash names no lane at all. *)
Theorem lane_of_every_hash_iff_bounded lanes :
  0 < lanes -> (Z.of_nat lanes < 2 ^ 31)%Z ->
  (Z.of_nat lanes <= 2 ^ 30)%Z <->
  forall h, lane_index lanes h = Some (Z.to_nat (wrap_i32 h `mod` Z.of_nat lanes)).
Proof.
  intros Hl Hm. split; [intros Hb h; by apply lane_index_total|]. intros Hall.
  destruct (Z.le_gt_cases (Z.of_nat lanes) (2 ^ 30)) as [?|Hgt]; [done|]. exfalso.
  (* the hash that leaves the remainder [lanes - 1] *)
  specialize (Hall (Z.of_nat lanes - 1)%Z). unfold lane_index, pmod in Hall.
  rewrite !(wrap_i32_small (Z.of_nat lanes)) in Hall by (unfold is_i32; lia).
  rewrite (wrap_i32_small (Z.of_nat lanes - 1)) in Hall by (unfold is_i32; lia).
  rewrite (Z.rem_small (Z.of_nat lanes - 1)) in Hall by lia.
  replace (wrap_i32 (Z.of_nat lanes - 1 + Z.of_nat lanes))
    with (2 * Z.of_nat lanes - 1 - 2 ^ 32)%Z in Hall.
  - case_decide as Hd; [|done].
    set (m := Z.of_nat lanes) in *. set (r := (2 * m - 1 - 2 ^ 32)%Z) in *.
    pose proof (Z.quot_rem r m ltac:(lia)) as Hq.
    pose proof (Z.rem_bound_abs r m ltac:(lia)) as Hr.
    assert (Hneg : (Z.rem r m <= 0)%Z) by (apply Z.rem_nonpos; lia).
    assert (Hqb : (r ÷ m = 0 \/ r ÷ m = -1)%Z) by (subst r; nia).
    destruct Hqb as [Hz|Hz]; rewrite Hz in Hq; subst r; lia.
  - unfold wrap_i32, i32_modulus. 
    replace (Z.of_nat lanes - 1 + Z.of_nat lanes + 2 ^ 31)%Z with
      ((2 * Z.of_nat lanes - 1 - 2 ^ 31) + 1 * 2 ^ 32)%Z by lia.
    rewrite Z.mod_add, Z.mod_small by lia. lia.
Qed.

Lemma lane_of_every_hash_iff_bounded_witness :
  (Z.of_nat 8 <= 2 ^ 30)%Z <->
  forall h, lane_index 8 h = Some (Z.to_nat (wrap_i32 h `mod` Z.of_nat 8)).
Proof. apply (lane_of_every_hash_iff_bounded 8); lia. Defined.
