(* ===== verification/CpuFacts.v ===== *)
(** * What the CPU backend's accumulators promise

    The work compaction does is linear in what arrives and leaves the merged state's meaning
    alone; a partition merge answers the same whatever order the lanes' events come in; an
    aggregate's init answers the same with and without empty batches. *)
From stdpp Require Import strings.
From S2P Require Import Prelude Interval PlanIR PlanCommon Executor CpuOps Samples.
Open Scope N_scope.
Open Scope rust_scope.

#[local] Existing Instances toy_arrow toy_laws.

Section merge.
Context `{Arrow} {Operator : Type}.
Context (run_node : Operator -> list RecordBatch -> result BackendError (list RecordBatch)).
Implicit Types (s : AggregateBatches (Operator:=Operator)) (b : RecordBatch).

Notation accumulate := (agg_accumulate run_node).

(** ** The work compaction does *)

(** A merge's state as [CpuAccumulator::aggregate] builds it. *)
Definition agg_fresh (merge : Operator) (finalize : option Operator) (held output : SchemaRef)
    (compact_bytes : N) : AggregateBatches :=
  {| a_merge := merge; a_finalize := finalize; state_ := None; pending := []; pending_bytes := 0;
     threshold := compact_bytes; compactions := 0; a_held := held; a_output := output |}.

(** The bytes the compaction of one call reads: what is held when it starts, nothing where the
    call does not compact. *)
Definition scanned s b : N :=
  let s' := (push_pending b s).2 in
  if threshold s' <=? agg_held_bytes s' then agg_held_bytes s' else 0.

Fixpoint total_scanned s (bs : list RecordBatch) : N :=
  match bs with
  | [] => 0
  | b :: bs => scanned s b + total_scanned (accumulate b s).2 bs
  end.

Fixpoint agg_after s (bs : list RecordBatch) : AggregateBatches :=
  match bs with [] => s | b :: bs => agg_after (accumulate b s).2 bs end.

(** Sizes stay far enough below the width that no sum of them wraps. *)
Definition small_states : Prop := forall s inputs b,
  (merge_declared run_node inputs s).1 = Ok b -> get_array_memory_size b < 2 ^ 62.

(** What every call keeps: the folded state is at most half the threshold, and the bytes charged
    so far, counting the pending ones twice, are at most twice what arrived. *)
Record thrifty (t arrived spent : N) s : Prop := {
  thrifty_state : 2 * state_bytes (state_ s) <= threshold s;
  thrifty_small : state_bytes (state_ s) < 2 ^ 62;
  thrifty_above : t <= threshold s;
  thrifty_count : compactions s * t + 2 * pending_bytes s <= 2 * arrived;
  thrifty_spent : spent + 2 * pending_bytes s <= 2 * arrived }.

Lemma thrifty_fresh merge finalize held output t :
  thrifty t 0 0 (agg_fresh merge finalize held output t).
Proof. split; cbn; lia. Qed.

Lemma compact_state s : exists st,
  (compact run_node s).2 = agg_with s st [] 0
    (match st with
     | Some b => N.max (threshold s) ((2 * get_array_memory_size b) mod u64_modulus)
     | None => threshold s
     end)
    (match st with Some _ => compactions s ⊞ 1 | None => compactions s end)
  /\ (forall b, st = Some b -> exists inputs s', (merge_declared run_node inputs s').1 = Ok b).
Proof.
  unfold compact, mbind, M_bind, take_inputs.
  destruct (merge_declared run_node _ _) as [[b|e] s'] eqn:Hm.
  - exists (Some b). unfold merge_declared in Hm. injection Hm as Hm <-. split; [done|].
    intros ? [= <-]. do 2 eexists. unfold merge_declared. exact Hm.
  - exists None. unfold merge_declared in Hm. injection Hm as Hm <-. by split.
Qed.

Lemma accumulate_thrifty t arrived spent s b :
  small_states -> 0 < t -> arrived + get_array_memory_size b < 2 ^ 62 ->
  thrifty t arrived spent s ->
  thrifty t (arrived + get_array_memory_size b) (spent + scanned s b) (accumulate b s).2.
Proof.
  intros Hsmall Ht Harr [Hst Hsm Hab Hc Hsp]. unfold scanned.
  assert (Hpb : pending_bytes s ⊞ get_array_memory_size b
    = pending_bytes s + get_array_memory_size b)
    by (apply wrapping_add_small; unfold u64_modulus; lia).
  unfold agg_accumulate, mbind, M_bind, gets. cbn [push_pending modify fst snd].
  set (s1 := agg_with s _ _ _ _ _).
  assert (Hheld : agg_held_bytes s1
    = state_bytes (state_ s) + (pending_bytes s + get_array_memory_size b)).
  { subst s1. unfold agg_held_bytes. cbn [state_ pending_bytes agg_with]. rewrite Hpb.
    apply wrapping_add_small. unfold u64_modulus. lia. }
  assert (Hth : threshold s1 = threshold s) by done. rewrite Hth, Hheld.
  destruct (N.leb_spec (threshold s)
    (state_bytes (state_ s) + (pending_bytes s + get_array_memory_size b))) as [Hle|Hgt].
  - destruct (compact_state s1) as (st & Hs & Hb).
    assert (Hs2 : (let '(r, s') := compact run_node s1 in
      match r with Ok _ => (Ok (E:=BackendError) (@nil RecordBatch), s')
                 | Err e => (Err e, s') end).2 = (compact run_node s1).2)
      by (by destruct (compact run_node s1) as [[]]).
    destruct (compact run_node s1) as [[[]|e] s2]; cbn [snd] in Hs2, Hs |- *;
      cbn [mret M_ret snd]; clear Hs2; subst s2; destruct st as [m|]; split;
      cbn [agg_with state_ threshold pending_bytes compactions state_bytes s1]; try lia.
    all: try (destruct (Hb m eq_refl) as (inputs & s' & Hm); apply Hsmall in Hm).
    all: try (rewrite (N.mod_small (2 * _)) by (unfold u64_modulus; lia)); try lia.
    all: subst s1; cbn [agg_with threshold compactions]; try lia.
    all: rewrite wrapping_add_small; try nia.
    all: unfold u64_modulus; nia.
  - cbn [mret M_ret snd]. split; subst s1; cbn [agg_with state_ threshold pending_bytes compactions];
      rewrite ?Hpb; lia.
Qed.

Lemma run_thrifty t bs arrived spent s :
  small_states -> 0 < t -> arrived + sum_bytes bs < 2 ^ 62 -> thrifty t arrived spent s ->
  thrifty t (arrived + sum_bytes bs) (spent + total_scanned s bs) (agg_after s bs).
Proof.
  revert arrived spent s. induction bs as [|b bs IH]; intros arrived spent s Hs Ht Ha Hth.
  - unfold sum_bytes. cbn. rewrite sumN_nil, !N.add_0_r. exact Hth.
  - unfold sum_bytes in *. cbn [map] in *. rewrite sumN_cons in Ha |- *.
    cbn [total_scanned agg_after]. rewrite !N.add_assoc.
    apply IH; [done..|lia|]. apply accumulate_thrifty; [done..|lia|done].
Qed.

(** a merge never re-reads its state once per arrival: whatever the groups do, the compactions
    its arrivals trigger read at most twice the bytes that arrived, and each of them is paid for by
    half a threshold of arrivals. *)
Theorem compaction_is_linear merge finalize held output compact_bytes bs :
  0 < compact_bytes -> small_states -> sum_bytes bs < 2 ^ 62 ->
  let s := agg_fresh merge finalize held output compact_bytes in
  total_scanned s bs <= 2 * sum_bytes bs
  /\ compactions (agg_after s bs) * compact_bytes <= 2 * sum_bytes bs.
Proof.
  intros Ht Hs Hb s.
  destruct (run_thrifty compact_bytes bs 0 0 s Hs Ht Hb (thrifty_fresh _ _ _ _ _))
    as [_ _ _ Hc Hsp].
  cbn in Hc, Hsp. lia.
Qed.
End merge.

Definition toy_batches : list RecordBatch :=
  [toy_batch [1; 2]; toy_batch [3]; toy_batch [4; 5; 6]; toy_batch [7]; toy_batch [8; 9]].

Lemma compaction_is_linear_witness :
  let s := agg_fresh ToyAdd None [] [] 3 in
  sum_bytes toy_batches = 9
  /\ total_scanned toy_run s toy_batches = 11
  /\ (total_scanned toy_run s toy_batches <= 18
      /\ compactions (agg_after toy_run s toy_batches) * 3 <= 18).
Proof.
  split; [vm_compute; reflexivity|split; [vm_compute; reflexivity|]].
  apply (compaction_is_linear toy_run ToyAdd None [] [] 3 toy_batches).
  - lia.
  - intros s inputs b _. cbn. apply N.mod_lt. discriminate.
  - vm_compute. reflexivity.
Defined.

(** ** What the merged state means *)
Section meaning.
Context `{ArrowLaws} {Operator : Type}.
Context (run_node : Operator -> list RecordBatch -> result BackendError (list RecordBatch)).

(** What rows of aggregate state stand for (the groups and their states), which a merge by
    [merge] keeps, and which more state extends alike wherever it was alike. *)
Context {X : Type} (meaning : list Row -> X) (merge : Operator).
Definition merge_keeps_meaning : Prop := forall inputs out,
  run_node merge inputs = Ok out -> meaning (rows_of out) = meaning (rows_of inputs).
Definition meaning_extends : Prop := forall a b c,
  meaning a = meaning b -> meaning (a ++ c) = meaning (b ++ c).

(** A batch the merge operator produced: its groups are folded. *)
Definition folded (b : RecordBatch) : Prop := exists inputs out,
  run_node merge inputs = Ok out /\ rows b = rows_of out.

Record stands_for (seen_ : list RecordBatch) (s : AggregateBatches) : Prop := {
  sf_merge : a_merge s = merge;
  sf_means : meaning (rows_of (option_list (state_ s) ++ pending s)) = meaning (rows_of seen_);
  sf_none : seen_ = [] <-> (state_ s = None /\ pending s = []);
  sf_folded : forall b, state_ s = Some b -> folded b }.

Hypothesis Hkeeps : merge_keeps_meaning.
Hypothesis Hext : meaning_extends.

Lemma push_stands seen_ s b : stands_for seen_ s -> stands_for (seen_ ++ [b]) (push_pending b s).2.
Proof.
  intros [Hm Hmean Hnone Hf]. split; cbn.
  - done.
  - rewrite app_assoc, !rows_of_app. apply Hext. by rewrite <- Hmean, rows_of_app.
  - split; [by intros [_ ?]%app_nil|by intros [_ [_ ?]%app_nil]].
  - done.
Qed.

Lemma compact_stands seen_ s s' :
  seen_ <> [] -> stands_for seen_ s -> compact run_node s = (Ok (), s') ->
  stands_for seen_ s' /\ pending s' = [] /\ is_Some (state_ s')
  /\ a_finalize s' = a_finalize s /\ a_output s' = a_output s /\ a_held s' = a_held s.
Proof.
  intros Hne [Hm Hmean Hnone Hf] Hc. unfold compact, mbind, M_bind, take_inputs in Hc.
  destruct (merge_declared run_node _ _) as [[b|e] s1] eqn:Hmd; [|done].
  unfold merge_declared in Hmd. injection Hmd as Hmd <-. injection Hc as <-.
  cbn [a_merge agg_with] in Hmd. rewrite Hm in Hmd.
  apply bind_ok in Hmd as (out & Hout & (decl & Hd & Hcc)%bind_ok).
  destruct (concat_batches _ decl) eqn:Econ; [|done]. injection Hcc as ->.
  assert (Hrows : rows b = rows_of out).
  { apply concat_rows in Econ. by rewrite Econ, (declared_all_rows _ _ _ Hd). }
  split_and!; [|done..]. split; cbn.
  - done.
  - rewrite app_nil_r, Hrows, (Hkeeps _ _ Hout). exact Hmean.
  - split; [done|by intros [? _]].
  - intros ? [= <-]. by do 2 eexists.
Qed.

Lemma accumulate_stands seen_ s b out s' :
  stands_for seen_ s -> agg_accumulate run_node b s = (Ok out, s') ->
  out = [] /\ stands_for (seen_ ++ [b]) s'
  /\ a_finalize s' = a_finalize s /\ a_output s' = a_output s /\ a_held s' = a_held s.
Proof.
  intros Hs Ha. apply (push_stands _ _ b) in Hs.
  unfold agg_accumulate, mbind, M_bind, gets in Ha. destruct (push_pending b s) as [r s1] eqn:Hp.
  unfold push_pending, modify in Hp. injection Hp as <- <-. cbn [fst snd] in *.
  match type of Ha with context [if ?c then _ else _] => destruct c end.
  - destruct (compact run_node _) as [[[]|e] s2] eqn:Hc; [|done]. injection Ha as <- <-.
    apply (compact_stands (seen_ ++ [b])) in Hc as (? & _ & _ & ?); [done|by destruct seen_|done].
  - injection Ha as <- <-. done.
Qed.

(** What the node answers once [seen_] has been merged: nothing for nothing, else one batch of the
    folded state, or what the finalize makes of it. *)
Definition merged_answer (finalize : option Operator) (seen_ outs : list RecordBatch) : Prop :=
  match seen_ with
  | [] => outs = []
  | _ => exists st, meaning (rows st) = meaning (rows_of seen_) /\ folded st
         /\ match finalize with
            | None => length outs = 1%nat /\ rows_of outs = rows st
            | Some f => exists finished, run_node f [st] = Ok finished
                        /\ rows_of outs = rows_of finished
            end
  end.

Lemma done_answers seen_ s outs stats :
  stands_for seen_ s -> agg_done run_node s = Ok (outs, stats) ->
  merged_answer (a_finalize s) seen_ outs.
Proof.
  intros Hs Hd. unfold agg_done in Hd. destruct (decide (seen_ = [])) as [->|Hne].
  - destruct Hs as [_ _ Hnone _]. destruct (proj1 Hnone eq_refl) as [Hst Hp].
    rewrite bool_decide_eq_true_2, Hst in Hd by done. by injection Hd as <- _.
  - assert (Hready : exists s', (if bool_decide (pending s = []) then (Ok (), s)
        else compact run_node s) = (Ok (), s') /\ stands_for seen_ s' /\ pending s' = []
        /\ is_Some (state_ s') /\ a_finalize s' = a_finalize s).
    { case_bool_decide as Hp.
      - exists s. split_and!; try done. destruct Hs as [_ _ Hnone _].
        destruct (state_ s); [done|]. by destruct Hne, Hnone; auto.
      - destruct (compact run_node s) as [[[]|e] s'] eqn:Hc; [|done]. exists s'.
        apply (compact_stands seen_) in Hc as (? & ? & ? & ? & _); done. }
    destruct Hready as (s' & Heq & Hs' & Hp & [st Hst] & Hfin). rewrite Heq, Hst, Hfin in Hd.
    destruct Hs' as [_ Hmean _ Hf]. rewrite Hst, Hp in Hmean. cbn in Hmean.
    rewrite !app_nil_r in Hmean. unfold merged_answer. destruct seen_ as [|b seen_]; [done|].
    exists st. split_and!; [done|by apply Hf|]. destruct (a_finalize s) as [f|].
    + apply bind_ok in Hd as (finished & Hrun & (decl & Hdecl & Hco)%bind_ok).
      exists finished. split; [done|]. apply coalesce_rows in Hco as [-> _].
      by eapply declared_all_rows.
    + apply coalesce_rows in Hd as [Hr Hl]. split; [done|]. rewrite Hr, rows_of_cons. apply app_nil_r.
Qed.

Lemma lane_answers bs seen_ s outs :
  stands_for seen_ s -> acc_lane run_node (SAggregate s) bs = Ok outs ->
  merged_answer (a_finalize s) (seen_ ++ bs) outs.
Proof.
  revert seen_ s outs. induction bs as [|b bs IH]; intros seen_ s outs Hs Hl.
  - rewrite app_nil_r. cbn in Hl. destruct (agg_done run_node s) as [[o st]|] eqn:Hd; [|done].
    injection Hl as <-. by eapply done_answers.
  - cbn in Hl. unfold held_by, mbind, M_bind in Hl.
    destruct (agg_accumulate run_node b s) as [[o|e] s'] eqn:Ha; [|done]. cbn in Hl.
    apply (accumulate_stands seen_) in Ha as (-> & Hs' & Hfin & _); [|done].
    destruct (acc_lane run_node (SAggregate s') bs) eqn:Hrest; [|done]. injection Hl as <-.
    rewrite <- Hfin, cons_middle, app_assoc. by apply IH.
Qed.
End meaning.

(** C29: compaction is transparent: whatever the threshold, a lane that handed a merge its batches
    is answered nothing where it handed none, and else one batch of folded state that stands for
    exactly what all the batches together stood for, finalized once where the node finalizes. *)
Theorem merged_state_stands_for_the_arrivals `{ArrowLaws} {Operator X : Type} run_node
    (meaning : list Row -> X) (merge : Operator) finalize held output compact_bytes bs outs :
  merge_keeps_meaning run_node meaning merge -> meaning_extends meaning ->
  acc_lane run_node (SAggregate (agg_fresh merge finalize held output compact_bytes)) bs = Ok outs ->
  merged_answer run_node meaning merge finalize bs outs.
Proof.
  intros Hk He Hl. eapply (lane_answers run_node meaning merge Hk He bs []) in Hl; [done|].
  split; cbn; done.
Qed.

Lemma merged_state_stands_for_the_arrivals_witness :
  acc_lane toy_run (SAggregate (agg_fresh ToyAdd None [] [] 3)) toy_batches
    = Ok [toy_batch [45]]
  /\ merged_answer toy_run sumN ToyAdd None toy_batches [toy_batch [45]].
Proof.
  split; [vm_compute; reflexivity|].
  apply (merged_state_stands_for_the_arrivals toy_run sumN ToyAdd None [] [] 3).
  - intros inputs out [= <-]. cbn. rewrite !sumN_cons, sumN_nil. cbn. rewrite N.add_0_r.
    reflexivity.
  - intros a b c Hab. rewrite !sumN_app. lia.
  - vm_compute. reflexivity.
Defined.

(** ** The partition merge and the order its events come in *)
Section interleaving.
Context `{Arrow} {Operator : Type}.
Context (run_node : Operator -> list RecordBatch -> result BackendError (list RecordBatch)).
Implicit Types (events : list (nat * LaneEvent RecordBatch)).

(** [CpuPartitionAccumulator::merge_sorted]. *)
Definition part_fresh (lanes : nat) (sort : Operator) (fetch : option N) (schema : SchemaRef) :
    CpuPartitionAccumulator :=
  {| per_lane := replicate lanes []; live := lanes; p_sort := sort; p_fetch := fetch;
     p_schema := schema |}.

Definition events_of (p : nat) events : list (LaneEvent RecordBatch) :=
  map snd (filter (fun e => e.1 = p) events).

Definition batch_of (e : LaneEvent RecordBatch) : option RecordBatch :=
  match e with LaneBatch b => Some b | LaneDone => None end.
Definition batches_of (p : nat) events : list RecordBatch := omap batch_of (events_of p events).

Fixpoint dones events : nat :=
  match events with
  | [] => 0
  | (_, LaneDone) :: events => S (dones events)
  | _ :: events => dones events
  end.

(** Each lane's events are over, or its batches and then its done: nothing after. *)
Definition well_ended (k : nat) events : Prop :=
  Forall (fun e => e.1 < k)%nat events
  /\ forall p, (p < k)%nat ->
     events_of p events = [] \/ exists bs, events_of p events = map LaneBatch bs ++ [LaneDone].

(** What every lane holds once the rest of the events have come. *)
Definition final_lanes (held : list (list RecordBatch)) events : list (list RecordBatch) :=
  imap (fun p l => l ++ batches_of p events) held.

Lemma events_of_cons p q e events :
  events_of p ((q, e) :: events) = if decide (q = p) then e :: events_of p events else events_of p events.
Proof. unfold events_of. rewrite filter_cons. cbn. by case_decide. Qed.

Lemma dones_none k events : well_ended k events -> dones events = 0%nat -> events = [].
Proof.
  intros [Hall Hp] Hd. destruct events as [|[q e] events]; [done|].
  apply Forall_cons in Hall as [Hq _]. cbn in Hq. destruct (Hp q Hq) as [He|[bs He]].
  - by rewrite events_of_cons, decide_True in He.
  - assert (Hin : LaneDone ∈ events_of q ((q, e) :: events)) by (rewrite He; set_solver).
    unfold events_of in Hin. apply list_elem_of_fmap in Hin as ([q' ev] & Hev & Hin).
    cbn in Hev. subst ev.
    apply list_elem_of_filter in Hin as [_ Hin]. exfalso. clear -Hd Hin.
    induction ((q, e) :: events) as [|[r [b|]] l IH]; [set_solver| |done].
    apply IH; [done|]. by apply elem_of_cons in Hin as [[=]|].
Qed.

Lemma well_ended_tail k p e events : well_ended k ((p, e) :: events) ->
  well_ended k events /\ (p < k)%nat /\ (e = LaneDone -> events_of p events = []).
Proof.
  intros [[Hlt Hall]%Forall_cons Hp]. cbn in Hlt. split_and!; [split; [done|]|done|].
  - intros q Hq. destruct (Hp q Hq) as [He|[bs He]]; rewrite events_of_cons in He;
      destruct (decide (p = q)) as [<-|]; eauto; [done|].
    destruct bs as [|b bs]; cbn in He; injection He as _ He; eauto.
  - intros ->. destruct (Hp p Hlt) as [He|[bs He]]; rewrite events_of_cons, decide_True in He by done;
      [done|]. destruct bs; cbn in He; by injection He.
Qed.

Lemma final_batch held p b events : (p < length held)%nat ->
  final_lanes (alter (fun l => l ++ [b]) p held) events = final_lanes held ((p, LaneBatch b) :: events).
Proof.
  intros Hp. apply list_eq. intros i. unfold final_lanes. rewrite !list_lookup_imap.
  unfold batches_of. rewrite events_of_cons. destruct (decide (p = i)) as [->|Hne].
  - rewrite list_lookup_alter_eq. destruct (held !! i); [|done]. cbn. by rewrite <- app_assoc.
  - by rewrite list_lookup_alter_ne.
Qed.

Lemma final_done held p events : final_lanes held ((p, LaneDone) :: events) = final_lanes held events.
Proof.
  unfold final_lanes. apply imap_ext. intros i l _. f_equal. unfold batches_of.
  rewrite events_of_cons. by case_decide.
Qed.

Lemma final_nil held : final_lanes held [] = held.
Proof.
  unfold final_lanes. apply list_eq. intros i. rewrite list_lookup_imap. cbn.
  destruct (held !! i); cbn; by rewrite ?app_nil_r.
Qed.

Definition answers_once (s : CpuPartitionAccumulator) events : result BackendError (list RecordBatch) :=
  fst <$> sorted_and_cut run_node (p_sort s) (concat (final_lanes (per_lane s) events)) (p_fetch s)
            (p_schema s).

Lemma part_run_answers k events s :
  length (per_lane s) = k -> well_ended k events -> live s = dones events -> events <> [] ->
  snd <$> part_run run_node s events = answers_once s events.
Proof.
  revert s. induction events as [|[p e] events IH]; intros s Hk Hw Hl Hne; [done|].
  destruct (well_ended_tail _ _ _ _ Hw) as (Hw' & Hp & Hdone). unfold part_run. cbn [foldl].
  destruct e as [b|].
  - cbn [part_step mbind result_bind part_event fst snd app answers].
    set (s' := part_with _ _ _).
    assert (He : events <> []) by (intros ->; destruct (proj2 Hw p Hp) as [He|[[|? []] He]];
      rewrite events_of_cons, decide_True in He; done).
    specialize (IH s'). unfold part_run in IH. rewrite IH; [|by subst s'; cbn; rewrite length_alter|done..].
    unfold answers_once. subst s'. cbn [part_with per_lane p_sort p_fetch p_schema].
    by rewrite final_batch by lia.
  - cbn [part_step mbind result_bind part_event fst snd].
    cbn [dones] in Hl. replace (live s - 1)%nat with (dones events) by lia.
    destruct (Nat.ltb_spec 0 (dones events)) as [Hmore|Hlast].
    + set (s' := part_with _ _ _). cbn [answers mbind result_bind app]. specialize (IH s'). unfold part_run in IH.
      rewrite IH; [|done..|by (intros ->; cbn in Hmore; lia)].
      unfold answers_once. by rewrite final_done.
    + assert (events = []) as -> by (eapply dones_none; [done|lia]). cbn [foldl].
      unfold answers_once. rewrite final_done, final_nil.
      by destruct (sorted_and_cut _ _ _ _ _) as [[outs st]|].
Qed.

(** One done per lane. *)
Lemma dones_app l l' : dones (l ++ l') = (dones l + dones l')%nat.
Proof. induction l as [|[p [b|]] l IH]; cbn; lia. Qed.

Lemma dones_perm l l' : l ≡ₚ l' -> dones l = dones l'.
Proof.
  induction 1 as [|[p [b|]] l l' _ IH|[p [b|]] [q [c|]] l|l l' l'' _ IH _ IH']; cbn; lia.
Qed.

Lemma dones_one l bs : map snd l = map LaneBatch bs ++ [LaneDone] -> dones l = 1%nat.
Proof.
  revert l. induction bs as [|b bs IH]; intros [|[p e] l] Hl; try done; cbn in Hl;
    injection Hl as -> Hl; [by destruct l|cbn; by apply IH].
Qed.

Lemma dones_count lanes events : Forall (fun e => e.1 < length lanes)%nat events ->
  (forall p bs, lanes !! p = Some bs -> events_of p events = map LaneBatch bs ++ [LaneDone]) ->
  dones events = length lanes.
Proof.
  intros Hall Hev. rewrite Forall_forall in Hall.
  rewrite <- (dones_perm _ _ (concat_classes fst (length lanes) events Hall)).
  assert (Hin : forall p, p ∈ seq 0 (length lanes) -> dones (filter (fun e => e.1 = p) events) = 1%nat).
  { intros p [_ [bs Hp]%lookup_lt_is_Some_2]%elem_of_seq. by eapply dones_one, Hev. }
  rewrite <- (length_seq (length lanes) 0) at 2. revert Hin. generalize (seq 0 (length lanes)).
  intros l Hin. induction l as [|p l IH]; [done|]. cbn [map concat]. rewrite dones_app, Hin, IH; [done| |];
    set_solver.
Qed.

(** a sorted merge of lanes answers once, and the same, in whatever order the lanes' batches
    and dones reach it: the rows of the lanes in lane order, each lane's in arrival order, sorted
    and cut to the fetch. *)
Theorem merge_ignores_interleaving lanes sort fetch schema events :
  lanes <> [] -> Forall (fun e => e.1 < length lanes)%nat events ->
  (forall p bs, lanes !! p = Some bs -> events_of p events = map LaneBatch bs ++ [LaneDone]) ->
  snd <$> part_run run_node (part_fresh (length lanes) sort fetch schema) events
  = fst <$> sorted_and_cut run_node sort (concat lanes) fetch schema.
Proof.
  intros Hne Hall Hev.
  assert (Hw : well_ended (length lanes) events).
  { split; [done|]. intros p [bs Hp]%lookup_lt_is_Some_2. right. eauto. }
  rewrite (part_run_answers (length lanes));
    [|cbn; by rewrite length_replicate|done|cbn; symmetry; by apply dones_count|].

  - unfold answers_once. cbn [part_fresh per_lane p_sort p_fetch p_schema]. do 3 f_equal.
    unfold final_lanes. apply list_eq. intros i. rewrite list_lookup_imap.
    destruct (lanes !! i) as [bs|] eqn:Hi.
    + rewrite lookup_replicate_2 by (by eapply lookup_lt_Some). cbn. f_equal.
      unfold batches_of. rewrite (Hev i bs Hi), omap_app. cbn. rewrite app_nil_r.
      clear. induction bs as [|b bs IH]; [done|]. cbn. by f_equal.
    + apply lookup_ge_None in Hi. by rewrite (proj1 (lookup_replicate_None _ _ _)) by lia.
  - intros ->. destruct lanes as [|bs lanes]; [done|]. specialize (Hev 0%nat bs eq_refl).
    cbn in Hev. by destruct bs.
Qed.
End interleaving.

Definition toy_events : list (nat * LaneEvent RecordBatch) :=
  [(1%nat, LaneBatch (toy_batch [7; 2])); (0%nat, LaneBatch (toy_batch [9])); (1%nat, LaneDone);
   (0%nat, LaneBatch (toy_batch [1; 3])); (0%nat, LaneDone)].

Lemma merge_ignores_interleaving_witness :
  snd <$> part_run toy_run (part_fresh 2 ToySort (Some 3) []) toy_events
    = Ok [toy_batch [1; 2; 3]]
  /\ snd <$> part_run toy_run (part_fresh 2 ToySort (Some 3) []) toy_events
     = fst <$> sorted_and_cut toy_run ToySort
         (concat [[toy_batch [9]; toy_batch [1; 3]]; [toy_batch [7; 2]]]) (Some 3) [].
Proof.
  split; [vm_compute; reflexivity|].
  apply (merge_ignores_interleaving toy_run [[toy_batch [9]; toy_batch [1; 3]]; [toy_batch [7; 2]]]
           ToySort (Some 3) [] toy_events).
  - discriminate.
  - repeat constructor.
  - intros [|[|p]] bs Hp; cbn in Hp; [injection Hp as <-; vm_compute; reflexivity..|].
    discriminate.
Defined.

(** ** An aggregate's init and the batches of no rows *)
Section init.
Context `{Arrow} {Operator : Type}.
Context (run_node : Operator -> list RecordBatch -> result BackendError (list RecordBatch)).

Definition has_rows (b : RecordBatch) : Prop := n_rows b <> 0.
#[local] Instance has_rows_dec b : Decision (has_rows b).
Proof. unfold has_rows. apply _. Defined.

Definition init_fresh (e : CpuExec (Operator:=Operator)) (input : SchemaRef) : AggregateInit :=
  {| chain := e; i_input := input; emitted := false |}.

(** [identity_owed e input]: the chain has a row to answer over no rows at all. *)
Definition identity_owed (e : CpuExec (Operator:=Operator)) (input : SchemaRef) : Prop := forall out stats,
  cpu_exec run_node e (new_empty input) = Ok (out, stats) -> has_rows out.

Lemma init_lane_skips s bs :
  acc_lane run_node (SInit s) (filter has_rows bs) = acc_lane run_node (SInit s) bs.
Proof.
  revert s. induction bs as [|b bs IH]; intros s; [done|]. rewrite filter_cons.
  destruct (decide (has_rows b)) as [Hb|Hb]; cbn [acc_lane cpu_accumulate_and_fetch].
  - destruct (held_by _ _) as [st r] eqn:Hh. unfold held_by in Hh. injection Hh as <- _.
    destruct r as [[o c]|e]; cbn; [|done]. by rewrite IH.
  - assert (Hz : n_rows b = 0) by (destruct (decide (n_rows b = 0)); [done|by destruct Hb]).
    unfold held_by, init_accumulate. rewrite Hz. cbn. rewrite IH.
    by destruct (acc_lane run_node (SInit s) bs).
Qed.

Lemma init_lane_owes s bs outs :
  identity_owed (chain s) (i_input s) -> acc_lane run_node (SInit s) bs = Ok outs ->
  emitted s = true \/ Exists has_rows outs.
Proof.
  revert s outs. induction bs as [|b bs IH]; intros s outs Hid Hl.
  - cbn in Hl. unfold init_done in Hl. destruct (emitted s); [by left|]. right.
    destruct (cpu_exec run_node (chain s) _) as [[out st]|] eqn:He; [|done].
    specialize (Hid _ _ He). cbn in Hl. destruct (N.eqb_spec (n_rows out) 0); [done|].
    injection Hl as <-. by constructor.
  - cbn [acc_lane cpu_accumulate_and_fetch] in Hl. unfold held_by, init_accumulate in Hl.
    destruct (N.eqb_spec (n_rows b) 0) as [Hz|Hz].
    + cbn in Hl. destruct (acc_lane run_node (SInit s) bs) eqn:Hr; [|done]. injection Hl as <-.
      by eapply IH.
    + unfold mbind, M_bind, gets, lift in Hl.
      destruct (cpu_exec run_node (chain s) b) as [[out st]|] eqn:He; [|done]. cbn in Hl.
      match type of Hl with context [acc_lane _ (SInit ?x)] => set (s1 := x) in Hl end.
      destruct (acc_lane run_node (SInit s1) bs) as [rest|] eqn:Hr; [|done]. injection Hl as <-.
      destruct (N.eqb_spec (n_rows out) 0) as [Ho|Ho]; [|right; by constructor].
      apply IH in Hr; [|done]. destruct Hr as [Hr|Hr]; [|right; by constructor].
      left. subst s1. cbn in Hr. by rewrite Ho, orb_false_r in Hr.
Qed.
End init.

(** an aggregate's init gives a batch of no rows no say: it answers what it answers without it;
    and where its chain has an identity row to give (no keys), no lane goes unanswered, whatever
    reached it. *)
Theorem init_ignores_empty_batches `{Arrow} {Operator : Type} run_node (e : CpuExec (Operator:=Operator))
    input bs :
  acc_lane run_node (SInit (init_fresh e input)) (filter has_rows bs)
    = acc_lane run_node (SInit (init_fresh e input)) bs
  /\ (identity_owed run_node e input -> forall outs,
      acc_lane run_node (SInit (init_fresh e input)) bs = Ok outs -> Exists has_rows outs).
Proof.
  split; [apply init_lane_skips|]. intros Hid outs Hl.
  apply init_lane_owes in Hl; [|done]. by destruct Hl.
Qed.

Definition toy_chain : CpuExec (Operator:=Toy) :=
  {| stages := [{| stage_node := ToyAdd; stage_declared := [] |}]; exec_fetch := None |}.

Lemma init_ignores_empty_batches_witness :
  acc_lane toy_run (SInit (init_fresh toy_chain [])) [toy_batch []; toy_batch [2; 3]; toy_batch []]
    = Ok [toy_batch [5]]
  /\ (acc_lane toy_run (SInit (init_fresh toy_chain []))
        (filter has_rows [toy_batch []; toy_batch [2; 3]; toy_batch []])
      = acc_lane toy_run (SInit (init_fresh toy_chain [])) [toy_batch []; toy_batch [2; 3]; toy_batch []])
  /\ Exists has_rows [toy_batch [0]].
Proof.
  split; [vm_compute; reflexivity|].
  split; [apply (init_ignores_empty_batches toy_run toy_chain [])|].
  apply (init_ignores_empty_batches toy_run toy_chain [] [toy_batch []]).
  - intros out stats Ho. vm_compute in Ho. injection Ho as <- _. vm_compute. discriminate.
  - vm_compute. reflexivity.
Defined.
