(* ===== verification/CpuSource.v ===== *)
(** * The CPU backend's sources

    [cpu_backend/source.rs]: one call per batch the mapping gave a lane, each reading exactly that
    batch's row groups.  Opening a file, its footer and the parquet reader are parameters. *)
From stdpp Require Import strings.
From S2P Require Import Prelude Interval PlanIR PlanCommon PlanNodes Executor CpuOps Samples.
Open Scope nat_scope.

Class Parquet `{Arrow} := {
  (** [File::open] and [ArrowReaderMetadata::load] at construction *)
  load_metadata : string -> result PlanError ();
  (** [File::open], the builder over the row groups and the projection, and the reader *)
  read_row_groups : string -> list nat -> list nat -> result BackendError (list RecordBatch);
  (** [Int8Array::from(vec![0; rows])] *)
  int8_zeros : nat -> Column }.

Section Source.
Context `{Parquet}.

Record LaneRead :=
  { l_file : string; l_projection : list nat; l_rows_only : bool; l_batches : list (list nat);
    l_schema : SchemaRef }.
Record CpuSource := { read : option LaneRead }.

(** [projection.windows(2).any(|pair| pair[0] >= pair[1])]. *)
Fixpoint ascends (columns : list nat) : bool :=
  match columns with
  | a :: (b :: _) as rest => (a <? b) && ascends rest
  | _ => true
  end.

Definition source_new (file : string) (projection : list nat)
    (partition_groups : list (list (list nat))) (lane : nat) (schema : SchemaRef) :
    PlanResult CpuSource :=
  batches ← ok_or (partition_groups !! lane) (Invalid "a lane the partitioner did not map");
  ensure (ascends projection) (Invalid "a scan's projection is read as a set, so it must ascend")
  ≫= fun _ => load_metadata file ≫= fun _ =>
  Ok {| read := Some {| l_file := file; l_projection := projection;
                        l_rows_only := rows_only projection; l_batches := batches;
                        l_schema := schema |} |}.

Definition source_empty : CpuSource := {| read := None |}.

Definition rowmarker_batch (count : nat) (declared : SchemaRef) : result BackendError RecordBatch :=
  map_err (backend_error "the scan's row marker: ") (try_new declared [int8_zeros count]).

Definition check_batch_schema (batch : RecordBatch) (declared : SchemaRef) :
    result BackendError RecordBatch :=
  if bool_decide (batch_schema batch = declared) then Ok batch
  else map_err (backend_error "the scan's batch is not its schema: ")
         (try_new declared (columns batch)).

Definition read_schema (lane : LaneRead) (read_ : list RecordBatch) : SchemaRef :=
  match read_ with [] => l_schema lane | first :: _ => batch_schema first end.

Definition read_batch (lane : LaneRead) (groups : list nat) : result BackendError RecordBatch :=
  read_ ← read_row_groups (l_file lane) groups (l_projection lane);
  batch ← map_err (backend_error "joining the row groups read: ")
            (concat_batches (read_schema lane read_) read_);
  if l_rows_only lane then rowmarker_batch (length (rows batch)) (l_schema lane)
  else check_batch_schema batch (l_schema lane).

(** The batch is popped before it is read, so a failed read has used it up. *)
Definition read_next : M CpuSource BackendError (option (RecordBatch * CallStats)) := fun s =>
  match read s with
  | None => (Ok None, s)
  | Some lane =>
      match l_batches lane with
      | [] => (Ok None, s)
      | groups :: rest =>
          let s' := {| read := Some {| l_file := l_file lane; l_projection := l_projection lane;
                                       l_rows_only := l_rows_only lane; l_batches := rest;
                                       l_schema := l_schema lane |} |} in
          (batch ← read_batch lane groups; Ok (Some (batch, default_stats)), s')
      end
  end.

(** [SourceExecutor::next_batch]: the source comes back with a batch and not at the end. *)
Definition source_next_batch (s : CpuSource) : result BackendError (SourceStep RecordBatch CpuSource) :=
  match read_next s with
  | (Ok (Some (batch, stats)), s') => Ok (StepBatch batch stats s')
  | (Ok None, _) => Ok Exhausted
  | (Err e, _) => Err e
  end.

(** What a lane reads, call after call, until its source is exhausted; [fuel] calls at most. *)
Fixpoint source_lane (fuel : nat) (s : CpuSource) : option (result BackendError (list RecordBatch)) :=
  match fuel with
  | 0 => None
  | S fuel =>
      match source_next_batch s with
      | Ok (StepBatch b _ s') =>
          (fun r => bs ← r; Ok (b :: bs)) <$> source_lane fuel s'
      | Ok Exhausted => Some (Ok [])
      | Err e => Some (Err e)
      end
  end.
End Source.

(** ** A lane's reads *)
Section reads.
Context `{Parquet}.

(** C35: a lane's source always ends: its calls read the batches the mapping gave the lane, once each
    and in the mapping's order, up to the first read that fails, and then it is exhausted; a source
    over no file is exhausted at once. *)
Theorem source_reads_the_mapping_and_ends file projection groups lane schema s fuel batches :
  source_new file projection groups lane schema = Ok s ->
  groups !! lane = Some batches -> length batches < fuel ->
  exists l, read s = Some l
  /\ source_lane fuel s = Some (traverse (read_batch l) batches)
  /\ source_lane fuel source_empty = Some (Ok []).
Proof.
  intros Hs Hb Hf. unfold source_new in Hs. rewrite Hb in Hs. cbn in Hs. inv_ok. subst s.
  eexists. split; [done|]. split; [|by destruct fuel; [lia|]].
  set (mk := fun bs => {| l_file := file; l_projection := projection;
    l_rows_only := rows_only projection; l_batches := bs; l_schema := schema |}).
  change (source_lane fuel {| read := Some (mk batches) |} = Some (traverse (read_batch (mk batches)) batches)).
  assert (Hany : forall bs todo fuel, length todo < fuel ->
    source_lane fuel {| read := Some (mk todo) |} = Some (traverse (read_batch (mk bs)) todo)).
  { clear. intros bs todo. induction todo as [|g todo IH]; intros [|fuel] Hf; cbn in Hf; try lia; [done|].
    cbn [source_lane traverse]. unfold source_next_batch, read_next. cbn [read l_batches mk].
    change (read_batch (mk bs) g) with (read_batch (mk (g :: todo)) g).
    destruct (read_batch (mk (g :: todo)) g) as [b|e]; [|done]. cbn [mbind result_bind].
    specialize (IH fuel ltac:(lia)). unfold mk in IH |- *. cbn [l_file l_projection l_rows_only l_schema].
    by rewrite IH. }
  by apply Hany.
Qed.
End reads.

#[local] Existing Instances toy_arrow toy_laws.
#[local] Instance toy_parquet : Parquet := {|
  load_metadata := fun _ => Ok ();
  read_row_groups := fun _ gs _ => Ok (map (fun g => toy_batch [N.of_nat g]) gs);
  int8_zeros := fun k => replicate k 0%N |}.

Definition toy_source : CpuSource :=
  {| read := Some {| l_file := "t.parquet"; l_projection := [0]; l_rows_only := false;
                     l_batches := [[4; 5]; [6]]; l_schema := [] |} |}.

Lemma source_reads_the_mapping_and_ends_witness :
  source_lane 3 toy_source = Some (Ok [toy_batch [4; 5]; toy_batch [6]]%N)
  /\ exists l, read toy_source = Some l
     /\ source_lane 3 toy_source = Some (traverse (read_batch l) [[4; 5]; [6]])
     /\ source_lane 3 source_empty = Some (Ok []).
Proof.
  split; [vm_compute; reflexivity|].
  apply (source_reads_the_mapping_and_ends "t.parquet" [0] [[[1]]; [[4; 5]; [6]]] 1 []).
  - vm_compute. reflexivity.
  - reflexivity.
  - cbn. lia.
Defined.
