(* ===== verification/JoinFacts.v ===== *)
(** * The joins: what the tables of [plan/join.rs] say, against the nine joins of SQL

    [joined] is the reference: the rows each join type answers for a build side, a probe side and
    the pairs that match, NULL padding and marks included.  The facts the planner and the driver
    read off a join's type are proved exact against it, a session that streams the probe answers
    it, and lane-wise joins of co-partitioned sides are the join of the whole. *)
From stdpp Require Import strings.
From S2P Require Import Prelude Interval PlanIR PlanCommon Claims Joins.
Open Scope nat_scope.

Section Sql.
Context {V : Type} (null : V) (mark : bool -> V).
Notation Row := (list V).

(** [on b p]: the keys match and the residual holds; [bw] and [pw] the widths of the sides. *)
Context (on : Row -> Row -> bool) (bw pw : nat).

Definition matches_some (b : Row) (probe : list Row) : bool := existsb (on b) probe.
Definition matched_by (build : list Row) (p : Row) : bool := existsb (fun b => on b p) build.

Definition pairs (build probe : list Row) : list Row :=
  concat (map (fun p => map (fun b => b ++ p) (List.filter (fun b => on b p) build)) probe).
Definition unmatched_build (build probe : list Row) : list Row :=
  List.filter (fun b => negb (matches_some b probe)) build.
Definition unmatched_probe (build probe : list Row) : list Row :=
  List.filter (fun p => negb (matched_by build p)) probe.
Definition pad_build (b : Row) : Row := b ++ replicate pw null.
Definition pad_probe (p : Row) : Row := replicate bw null ++ p.

Definition joined (jt : JoinType) (build probe : list Row) : list Row :=
  match jt with
  | Inner => pairs build probe
  | Left => pairs build probe ++ map pad_build (unmatched_build build probe)
  | Right => pairs build probe ++ map pad_probe (unmatched_probe build probe)
  | Full => pairs build probe ++ map pad_build (unmatched_build build probe)
            ++ map pad_probe (unmatched_probe build probe)
  | LeftSemi => List.filter (fun b => matches_some b probe) build
  | LeftAnti => unmatched_build build probe
  | LeftMark => map (fun b => b ++ [mark (matches_some b probe)]) build
  | RightSemi => List.filter (matched_by build) probe
  | RightAnti => unmatched_probe build probe
  end.

(** What a session answers one probe batch, and what is left for its finish. *)
Definition probe_answer (jt : JoinType) (build batch : list Row) : list Row :=
  match jt with
  | Inner | Left => pairs build batch
  | Right | Full => pairs build batch ++ map pad_probe (unmatched_probe build batch)
  | LeftSemi | LeftAnti | LeftMark => []
  | RightSemi => List.filter (matched_by build) batch
  | RightAnti => unmatched_probe build batch
  end.

Definition finish_answer (jt : JoinType) (build probed : list Row) : list Row :=
  match jt with
  | Left | Full => map pad_build (unmatched_build build probed)
  | LeftSemi | LeftAnti | LeftMark => joined jt build probed
  | Inner | Right | RightSemi | RightAnti => []
  end.

(** ** Lists of pairs *)
Lemma pairs_app_probe build p1 p2 : pairs build (p1 ++ p2) = pairs build p1 ++ pairs build p2.
Proof. unfold pairs. by rewrite map_app, concat_app. Qed.

Lemma unmatched_probe_app build p1 p2 :
  unmatched_probe build (p1 ++ p2) = unmatched_probe build p1 ++ unmatched_probe build p2.
Proof. apply List.filter_app. Qed.

Lemma pairs_app_build b1 b2 probe : pairs (b1 ++ b2) probe ≡ₚ pairs b1 probe ++ pairs b2 probe.
Proof.
  unfold pairs. induction probe as [|p probe IH]; [done|]. cbn [map concat].
  rewrite List.filter_app, map_app, IH. solve_Permutation.
Qed.

Lemma pairs_none build probe :
  (forall b p, b ∈ build -> p ∈ probe -> on b p = false) -> pairs build probe = [].
Proof.
  intros Hno. unfold pairs. induction probe as [|p probe IH]; [done|]. cbn [map concat].
  rewrite IH by set_solver. rewrite filterb_none; [done|]. set_solver.
Qed.

(** ** Sides that cannot match *)

(** Two halves of each side with no match across: the join of the whole is the halves' joins. *)
Definition apart (b1 b2 p1 p2 : list Row) : Prop :=
  (forall b p, b ∈ b1 -> p ∈ p2 -> on b p = false) /\ (forall b p, b ∈ b2 -> p ∈ p1 -> on b p = false).

Lemma pairs_apart b1 b2 p1 p2 : apart b1 b2 p1 p2 ->
  pairs (b1 ++ b2) (p1 ++ p2) ≡ₚ pairs b1 p1 ++ pairs b2 p2.
Proof.
  intros [H1 H2]. rewrite pairs_app_probe, !pairs_app_build.
  rewrite (pairs_none b2 p1), (pairs_none b1 p2) by done. by rewrite app_nil_r.
Qed.

Lemma matches_some_apart b p1 p2 :
  (forall p, p ∈ p2 -> on b p = false) -> matches_some b (p1 ++ p2) = matches_some b p1.
Proof.
  intros Hno. unfold matches_some. rewrite existsb_app, (existsb_false _ p2), orb_false_r by done. done.
Qed.

Lemma matches_some_apart_l b p1 p2 :
  (forall p, p ∈ p1 -> on b p = false) -> matches_some b (p1 ++ p2) = matches_some b p2.
Proof. intros Hno. unfold matches_some. by rewrite existsb_app, (existsb_false _ p1) by done. Qed.

Lemma matched_by_apart p b1 b2 :
  (forall b, b ∈ b2 -> on b p = false) -> matched_by (b1 ++ b2) p = matched_by b1 p.
Proof.
  intros Hno. unfold matched_by. rewrite existsb_app, (existsb_false _ b2), orb_false_r by done. done.
Qed.

Lemma matched_by_apart_l p b1 b2 :
  (forall b, b ∈ b1 -> on b p = false) -> matched_by (b1 ++ b2) p = matched_by b2 p.
Proof. intros Hno. unfold matched_by. by rewrite existsb_app, (existsb_false _ b1) by done. Qed.

(** Filtering or mapping a side by whether its rows match, half by half. *)
Lemma build_side_apart {A} (f : bool -> Row -> list A) b1 b2 p1 p2 : apart b1 b2 p1 p2 ->
  concat (map (fun b => f (matches_some b (p1 ++ p2)) b) (b1 ++ b2))
  = concat (map (fun b => f (matches_some b p1) b) b1) ++ concat (map (fun b => f (matches_some b p2) b) b2).
Proof.
  intros [H1 H2]. rewrite map_app, concat_app. f_equal; f_equal; apply map_ext_elem; intros b Hb.
  - rewrite matches_some_apart by eauto. done.
  - rewrite matches_some_apart_l by eauto. done.
Qed.

Lemma probe_side_apart {A} (f : bool -> Row -> list A) b1 b2 p1 p2 : apart b1 b2 p1 p2 ->
  concat (map (fun p => f (matched_by (b1 ++ b2) p) p) (p1 ++ p2))
  = concat (map (fun p => f (matched_by b1 p) p) p1) ++ concat (map (fun p => f (matched_by b2 p) p) p2).
Proof.
  intros [H1 H2]. rewrite map_app, concat_app. f_equal; f_equal; apply map_ext_elem; intros p Hp.
  - rewrite matched_by_apart by eauto. done.
  - rewrite matched_by_apart_l by eauto. done.
Qed.

Lemma filterb_concat {A B} (f : A -> bool) (g : A -> B) l :
  map g (List.filter f l) = concat (map (fun x => if f x then [g x] else []) l).
Proof. induction l as [|x l IH]; [done|]. cbn. destruct (f x); cbn; by rewrite IH. Qed.

Lemma unmatched_build_apart {A} (g : Row -> A) b1 b2 p1 p2 : apart b1 b2 p1 p2 ->
  map g (unmatched_build (b1 ++ b2) (p1 ++ p2))
  = map g (unmatched_build b1 p1) ++ map g (unmatched_build b2 p2).
Proof.
  intros Ha. unfold unmatched_build. rewrite !filterb_concat.
  by apply (build_side_apart (fun m b => if negb m then [g b] else [])).
Qed.

Lemma unmatched_probe_apart {A} (g : Row -> A) b1 b2 p1 p2 : apart b1 b2 p1 p2 ->
  map g (unmatched_probe (b1 ++ b2) (p1 ++ p2))
  = map g (unmatched_probe b1 p1) ++ map g (unmatched_probe b2 p2).
Proof.
  intros Ha. unfold unmatched_probe. rewrite !filterb_concat.
  by apply (probe_side_apart (fun m b => if negb m then [g b] else [])).
Qed.

Lemma joined_apart jt b1 b2 p1 p2 : apart b1 b2 p1 p2 ->
  joined jt (b1 ++ b2) (p1 ++ p2) ≡ₚ joined jt b1 p1 ++ joined jt b2 p2.
Proof.
  intros Ha. pose proof (pairs_apart _ _ _ _ Ha) as Hp.
  pose proof (unmatched_build_apart id _ _ _ _ Ha) as Hub.
  pose proof (unmatched_probe_apart id _ _ _ _ Ha) as Hup.
  rewrite !map_id in Hub, Hup. destruct jt; cbn [joined].
  - done.
  - rewrite Hp, (unmatched_build_apart pad_build) by done. solve_Permutation.
  - rewrite Hp, (unmatched_probe_apart pad_probe) by done. solve_Permutation.
  - rewrite Hp, (unmatched_build_apart pad_build), (unmatched_probe_apart pad_probe) by done.
    solve_Permutation.
  - rewrite <- (map_id (List.filter _ (b1 ++ b2))), <- (map_id (List.filter _ b1)),
      <- (map_id (List.filter _ b2)), !filterb_concat.
    by rewrite (build_side_apart (fun m b => if m then [id b] else [])).
  - rewrite <- (map_id (List.filter _ (p1 ++ p2))), <- (map_id (List.filter _ p1)),
      <- (map_id (List.filter _ p2)), !filterb_concat.
    by rewrite (probe_side_apart (fun m b => if m then [id b] else [])).
  - by rewrite Hub.
  - by rewrite Hup.
  - destruct Ha as [H1 H2]. rewrite map_app. apply Permutation_app; 
      match goal with |- ?a ≡ₚ ?b => enough (a = b) as -> by done end; apply map_ext_elem; intros b Hb.
    + by rewrite matches_some_apart by eauto.
    + by rewrite matches_some_apart_l by eauto.
Qed.

(** ** Streaming the probe side *)
Lemma probe_answers_concat jt build batches :
  concat (map (probe_answer jt build) batches) ≡ₚ probe_answer jt build (concat batches).
Proof.
  induction batches as [|b batches IH]; cbn [map concat].
  - destruct jt; done.
  - rewrite IH. destruct jt; cbn [probe_answer];
      rewrite ?pairs_app_probe, ?unmatched_probe_app, ?map_app, ?List.filter_app; try done.
    all: solve_Permutation.
Qed.

Lemma streamed_is_joined jt build batches :
  concat (map (probe_answer jt build) batches) ++ finish_answer jt build (concat batches)
  ≡ₚ joined jt build (concat batches).
Proof.
  rewrite probe_answers_concat. destruct jt; cbn [probe_answer finish_answer joined];
    rewrite ?app_nil_r; try done; solve_Permutation.
Qed.

(** ** Widths *)
Lemma joined_width jt build probe row :
  Forall (fun r => length r = bw) build -> Forall (fun r => length r = pw) probe ->
  row ∈ joined jt build probe -> length row = emitted_columns jt bw pw.
Proof.
  intros Hb Hp. rewrite Forall_forall in Hb, Hp.
  assert (Hpairs : row ∈ pairs build probe -> length row = bw + pw).
  { unfold pairs. rewrite list_elem_of_In, in_concat. intros (l & Hl & Hr).
    apply in_map_iff in Hl as (p & <- & Hpin%list_elem_of_In). apply in_map_iff in Hr as (b & <- & Hbin).
    apply List.filter_In in Hbin as [Hbin%list_elem_of_In _]. rewrite length_app, Hb, Hp by done. done. }
  assert (Hpb : row ∈ map pad_build (unmatched_build build probe) -> length row = bw + pw).
  { intros (b & -> & [Hin _]%elem_of_filterb)%elem_of_map. unfold pad_build.
    by rewrite length_app, length_replicate, Hb. }
  assert (Hpp : row ∈ map pad_probe (unmatched_probe build probe) -> length row = bw + pw).
  { intros (p & -> & [Hin _]%elem_of_filterb)%elem_of_map. unfold pad_probe.
    by rewrite length_app, length_replicate, Hp. }
  destruct jt; cbn [joined emitted_columns emits]; rewrite ?elem_of_app; try naive_solver.
  1-4: unfold unmatched_build, unmatched_probe; rewrite elem_of_filterb; intros [? _]; auto.
  intros (b & -> & Hin)%elem_of_map. rewrite length_app, Hb by done. done.
Qed.
End Sql.

(** ** The tables, exact *)

(** a join type needs a finish exactly when its answer is not a probe batch's at a time: it does
    not iff, for every matching, some function of the build side and one batch answers any run of
    batches by answering each. *)
Theorem needs_finish_exact jt :
  needs_finish jt = false <->
  forall (V : Type) (null : V) mark on bw pw, exists f : list (list V) -> list (list V) -> list (list V),
  forall build batches, batches <> [] ->
    concat (map (f build) batches) ≡ₚ joined null mark on bw pw jt build (concat batches).
Proof.
  split.
  - intros Hn V null mark on bw pw. exists (probe_answer null on bw jt). intros build batches _.
    rewrite <- (streamed_is_joined null mark on bw pw).
    destruct jt; try done; cbn [finish_answer]; by rewrite app_nil_r.
  - intros Hall. destruct (needs_finish jt) eqn:Hn; [exfalso|done].
    (* one build row and the probe row twice: what one batch is answered, two are answered twice *)
    destruct (Hall unit tt (fun _ => tt) 
      (fun _ _ => match jt with LeftSemi => true | _ => false end) 0 0) as [f Hf].
    pose proof (Permutation_length (Hf [[]] [[[]]] ltac:(done))) as H1.
    pose proof (Permutation_length (Hf [[]] [[[]]; [[]]] ltac:(done))) as H2.
    cbn [map concat] in H1, H2. rewrite !app_nil_r in H1, H2.
    rewrite length_app in H2.
    revert H1 H2. generalize (length (f [[]] [[]])). intros k H1 H2.
    destruct jt; try done; cbn in H1, H2; lia.
Qed.

(** the driver drops a lane's probe batches uncalled on an empty build side exactly for the join
    types that answer nothing there, whatever the probe side holds. *)
Theorem empty_build_owes_nothing_exact jt :
  empty_build_owes_nothing jt = true <->
  forall (V : Type) (null : V) mark on bw pw probe, joined null mark on bw pw jt [] probe = [].
Proof.
  assert (Hpairs : forall V (on : list V -> list V -> bool) probe, pairs on [] probe = []).
  { intros V on probe. apply pairs_none. set_solver. }
  split.
  - intros He V null mark on bw pw probe. destruct jt; try done; cbn [joined]; rewrite ?Hpairs; try done.
    apply filterb_none. done.
  - intros Hall. specialize (Hall unit tt (fun _ => tt) (fun _ _ => false) 0 0 [[]]).
    by destruct jt.
Qed.

(** Dropping the rows [d] picks. *)
Definition without {A} (d : A -> bool) (l : list A) : list A := List.filter (fun x => negb (d x)) l.

Definition build_droppable (jt : JoinType) : Prop :=
  forall (V : Type) (null : V) mark on bw pw (d : list V -> bool) build probe,
  (forall b p, d b = true -> on b p = false) ->
  joined null mark on bw pw jt (without d build) probe = joined null mark on bw pw jt build probe.

Definition probe_droppable (jt : JoinType) : Prop :=
  forall (V : Type) (null : V) mark on bw pw (d : list V -> bool) build probe,
  (forall b p, d p = true -> on b p = false) ->
  joined null mark on bw pw jt build (without d probe) = joined null mark on bw pw jt build probe.

Lemma filter_without {A} (f d : A -> bool) l :
  (forall x, d x = true -> f x = false) -> List.filter f (without d l) = List.filter f l.
Proof.
  intros Hd. unfold without. induction l as [|x l IH]; [done|]. cbn.
  destruct (d x) eqn:Hx; cbn; [by rewrite (Hd x Hx)|]. by rewrite IH.
Qed.

Lemma existsb_without {A} (f d : A -> bool) l :
  (forall x, d x = true -> f x = false) -> existsb f (without d l) = existsb f l.
Proof.
  intros Hd. unfold without. induction l as [|x l IH]; [done|]. cbn.
  destruct (d x) eqn:Hx; cbn; [by rewrite (Hd x Hx)|]. by rewrite IH.
Qed.

Section drops.
Context {V : Type} (on : list V -> list V -> bool) (d : list V -> bool).

Lemma pairs_without_build build probe : (forall b p, d b = true -> on b p = false) ->
  pairs on (without d build) probe = pairs on build probe.
Proof.
  intros Hd. unfold pairs. f_equal. apply map_ext. intros p. f_equal. apply filter_without. eauto.
Qed.

Lemma pairs_without_probe build probe : (forall b p, d p = true -> on b p = false) ->
  pairs on build (without d probe) = pairs on build probe.
Proof.
  intros Hd. unfold pairs, without. induction probe as [|p probe IH]; [done|]. cbn.
  destruct (d p) eqn:Hp; cbn; [|by rewrite IH].
  rewrite (filterb_none _ build), IH; [done|]. intros b _. by apply Hd.
Qed.

Lemma matched_by_without build p : (forall b p, d b = true -> on b p = false) ->
  matched_by on (without d build) p = matched_by on build p.
Proof. intros Hd. apply existsb_without. eauto. Qed.

Lemma matches_some_without b probe : (forall b p, d p = true -> on b p = false) ->
  matches_some on b (without d probe) = matches_some on b probe.
Proof. intros Hd. apply existsb_without. eauto. Qed.
End drops.

(** rows with a NULL key, which match nothing, are dropped before the shuffle exactly on the
    sides whose dropped rows never show: on every other side some join would lose a row. *)
Theorem null_key_droppable_exact jt :
  ((null_key_droppable jt).1 = true <-> build_droppable jt)
  /\ ((null_key_droppable jt).2 = true <-> probe_droppable jt).
Proof.
  split; split.
  - intros Hn V null mark on bw pw d build probe Hd.
    assert (Hup : unmatched_probe on (without d build) probe = unmatched_probe on build probe).
    { apply filterb_ext. intros p _. by rewrite matched_by_without. }
    destruct jt; try done; cbn [joined]; rewrite ?pairs_without_build, ?Hup by done; try done.
    + apply filter_without. intros b Hb. apply existsb_false. eauto.
    + apply filterb_ext. intros p _. by apply matched_by_without.
  - intros Hall. specialize (Hall unit tt (fun _ => tt) (fun _ _ => false) 0 0 (fun _ => true) [[]] []
      ltac:(done)). by destruct jt.
  - intros Hn V null mark on bw pw d build probe Hd.
    assert (Hub : unmatched_build on build (without d probe) = unmatched_build on build probe).
    { apply filterb_ext. intros b _. by rewrite matches_some_without. }
    destruct jt; try done; cbn [joined]; rewrite ?pairs_without_probe, ?Hub by done; try done.
    + apply filterb_ext. intros b _. by apply matches_some_without.
    + apply filter_without. intros p Hp. apply existsb_false. eauto.
    + apply map_ext. intros b. by rewrite matches_some_without.
  - intros Hall. specialize (Hall unit tt (fun _ => tt) (fun _ _ => false) 0 0 (fun _ => true) [] [[]]
      ltac:(done)). by destruct jt.
Qed.

(** ** What a validated hash join knows *)
Lemma validate_hash_join_ok jt keys filter fcols projection build probe :
  validate_hash_join jt keys filter fcols projection build probe = Ok () ->
  n (input_layout build) = n (input_layout probe)
  /\ (1 < n (input_layout build) ->
      key_distribution (input_layout build) = ByHash (map fst keys)
      /\ key_distribution (input_layout probe) = ByHash (map snd keys))
  /\ Forall (fun k => k < length (fields (input_schema build))) (map fst keys)
  /\ Forall (fun k => k < length (fields (input_schema probe))) (map snd keys).
Proof.
  intros Hv. unfold validate_hash_join in Hv. apply bind_ok in Hv as ([] & Hn%ensure_ok & Hv).
  apply bind_ok in Hv as ([] & Hh%ensure_ok & Hv). apply bind_ok in Hv as ([] & _ & Hv).
  apply bind_ok in Hv as ([] & _ & Hv). apply bind_ok in Hv as ([] & Hk & _).
  apply Nat.eqb_eq in Hn. split; [done|]. split.
  - intros Hlt%Nat.ltb_lt. rewrite Hlt in Hh. unfold hashed_on in Hh. cbn in Hh.
    do 2 case_bool_decide; done.
  - unfold check_keys in Hk. apply bind_ok in Hk as ([] & _ & Hk).
    rewrite for_each_ok in Hk. rewrite !Forall_forall.
    split; intros k Hin; apply Nat.ltb_lt; eapply ensure_ok.
    + apply (proj1 (for_each_ok _ _) (Hk (input_schema build, map fst keys) ltac:(set_solver)) k Hin).
    + apply (proj1 (for_each_ok _ _) (Hk (input_schema probe, map snd keys) ltac:(set_solver)) k Hin).
Qed.

Section colocated.
Context {V : Type} (null : V) (mark : bool -> V) (place : nat -> list V -> nat).
Notation Row := (list V).
Context (on : Row -> Row -> bool) (bw pw : nat).
Notation joined := (joined null mark on bw pw).

Lemma lanes_joined jt (bs ps : list (list Row)) :
  length bs = length ps ->
  (forall i j lb lp b p, bs !! i = Some lb -> ps !! j = Some lp -> b ∈ lb -> p ∈ lp ->
    on b p = true -> i = j) ->
  concat (zip_with (joined jt) bs ps) ≡ₚ joined jt (concat bs) (concat ps).
Proof.
  revert ps. induction bs as [|b bs IH]; intros [|p ps] Hl Hon; try done.
  - by destruct jt.
  - cbn [zip_with concat]. rewrite joined_apart, IH; [done| | |].
    + cbn in Hl. lia.
    + intros i j lb lp x y Hi Hj Hx Hy Hm. apply (Hon (S i) (S j) lb lp x y) in Hm; [lia|done..].
    + assert (Hin : forall (ls : list (list Row)) x, x ∈ concat ls -> exists i l, ls !! i = Some l /\ x ∈ l).
      { intros ls x. rewrite list_elem_of_In, in_concat. intros (l & Hl' & Hx).
        apply list_elem_of_In, list_elem_of_lookup in Hl' as [i Hi]. exists i, l.
        split; [done|]. by apply list_elem_of_In. }
      split; intros x y Hx Hy; apply not_true_is_false; intros Hm.
      * apply Hin in Hy as (j & l & Hj & Hy). by apply (Hon 0 (S j) b l x y) in Hm.
      * apply Hin in Hx as (j & l & Hj & Hx). by apply (Hon (S j) 0 l p x y) in Hm.
Qed.

(** C16: a validated hash join of several lanes is the join of the whole: where lanes hold what their
    layouts claim and only rows of equal keys match, joining lane by lane answers the rows, NULL
    padding and marks included, that joining the gathered sides would. *)
Theorem copartitioned_join_is_the_join jt keys filter fcols projection build probe bs ps :
  validate_hash_join jt keys filter fcols projection build probe = Ok () ->
  length bs = n (input_layout build) -> length ps = n (input_layout probe) ->
  hash_holds null place (key_distribution (input_layout build)) bs ->
  hash_holds null place (key_distribution (input_layout probe)) ps ->
  (forall b p, on b p = true -> key_at null (map fst keys) b = key_at null (map snd keys) p) ->
  concat (zip_with (joined jt) bs ps) ≡ₚ joined jt (concat bs) (concat ps).
Proof.
  intros (Hn & Hhash & _)%validate_hash_join_ok Hb Hp Hbs Hps Hon.
  apply lanes_joined; [congruence|]. intros i j lb lp b p Hi Hj Hib Hjp Hm.
  destruct (Nat.le_gt_cases (n (input_layout build)) 1) as [Hle|Hgt].
  - apply lookup_lt_Some in Hi, Hj. lia.
  - destruct (Hhash Hgt) as [Hbk Hpk]. rewrite Hbk in Hbs. rewrite Hpk in Hps. cbn in Hbs, Hps.
    rewrite <- (Hbs i lb b), <- (Hps j lp p) by done. by rewrite (Hon b p Hm), Hb, Hp, Hn.
Qed.

(** ** The side a row's keys survive on *)
Lemma pairs_elem build probe r :
  r ∈ pairs on build probe -> exists b p, b ∈ build /\ p ∈ probe /\ r = b ++ p.
Proof.
  unfold pairs. rewrite list_elem_of_In, in_concat. intros (l & Hl & Hr).
  apply in_map_iff in Hl as (p & <- & Hpin%list_elem_of_In). apply in_map_iff in Hr as (b & <- & Hbin).
  apply List.filter_In in Hbin as [Hbin%list_elem_of_In _]. eauto 6.
Qed.

Lemma build_part jt build probe r :
  Build ∈ unpadded_sides jt -> r ∈ joined jt build probe -> exists b tail, b ∈ build /\ r = b ++ tail.
Proof.
  assert (Hf : forall f : Row -> bool, r ∈ List.filter f build -> exists b tail, b ∈ build /\ r = b ++ tail).
  { intros f [Hin _]%elem_of_filterb. exists r, []. by rewrite app_nil_r. }
  intros Hs. destruct jt; cbn in Hs; try (set_solver); cbn [JoinFacts.joined]; rewrite ?elem_of_app.
  - intros (b & p & Hb & _ & ->)%pairs_elem. eauto.
  - intros [(b & p & Hb & _ & ->)%pairs_elem|(b & -> & [Hb _]%elem_of_filterb)%elem_of_map]; [eauto|].
    unfold pad_build. eauto.
Qed.

Lemma probe_part jt build probe r :
  Forall (fun b => length b = bw) build ->
  Probe ∈ unpadded_sides jt -> r ∈ joined jt build probe ->
  exists p pre, p ∈ probe /\ r = pre ++ p
  /\ length pre = match emits jt with BothSides => bw | _ => 0 end.
Proof.
  intros Hb. rewrite Forall_forall in Hb.
  assert (Hf : forall f : Row -> bool, r ∈ List.filter f probe ->
    exists p pre, p ∈ probe /\ r = pre ++ p /\ length pre = 0).
  { intros f [Hin _]%elem_of_filterb. by exists r, []. }
  intros Hs. destruct jt; cbn in Hs; try (set_solver); cbn [JoinFacts.joined emits]; rewrite ?elem_of_app.
  - intros (b & p & Hbin & Hp & ->)%pairs_elem. exists p, b. auto.
  - intros [(b & p & Hbin & Hp & ->)%pairs_elem|(p & -> & [Hp _]%elem_of_filterb)%elem_of_map].
    + exists p, b. auto.
    + exists p, (replicate bw null). by rewrite length_replicate.
Qed.

(** The join's own projection of its emitted columns. *)
Definition kept_columns (projection : option (list nat)) (row : Row) : Row :=
  match projection with Some columns => map (fun c => nth c row null) columns | None => row end.

Lemma output_ordinal_nth jt side ordinal e projection row :
  output_ordinal jt side ordinal bw projection = Some e ->
  exists e0, emitted_ordinal jt side ordinal bw = Some e0
  /\ nth e (kept_columns projection row) null = nth e0 row null.
Proof.
  unfold output_ordinal. destruct (emitted_ordinal jt side ordinal bw) as [e0|]; cbn; [|done].
  intros He. exists e0. split; [done|]. destruct projection as [columns|]; cbn in He |- *.
  - apply position_Some in He as (c & Hc & <-%Nat.eqb_eq). apply nth_lookup_Some.
    apply map_lookup_Some. eauto.
  - by injection He as <-.
Qed.

(** A renumbered key reads, in the kept columns of an emitted row, what it read in the side's row. *)
Lemma build_ordinal_nth jt k e projection b tail :
  k < length b -> output_ordinal jt Build k bw projection = Some e ->
  nth e (kept_columns projection (b ++ tail)) null = nth k b null.
Proof.
  intros Hk (e0 & He & ->)%(output_ordinal_nth _ _ _ _ _ (b ++ tail)).
  unfold emitted_ordinal in He. assert (e0 = k) as -> by (destruct jt; cbn in He; congruence).
  by rewrite app_nth1.
Qed.

Lemma probe_ordinal_nth jt k e projection pre p :
  length pre = match emits jt with BothSides => bw | _ => 0 end ->
  output_ordinal jt Probe k bw projection = Some e ->
  nth e (kept_columns projection (pre ++ p)) null = nth k p null.
Proof.
  intros Hpre (e0 & He & ->)%(output_ordinal_nth _ _ _ _ _ (pre ++ p)).
  unfold emitted_ordinal in He. assert (e0 = length pre + k) as ->
    by (rewrite Hpre; destruct jt; cbn in He |- *; congruence).
  rewrite app_nth2 by lia. f_equal. lia.
Qed.

Lemma renumbered_key_at jt side ks hk projection (row0 r : Row) :
  mapM (fun k => output_ordinal jt side k bw projection) ks = Some hk ->
  (forall k e, k ∈ ks -> output_ordinal jt side k bw projection = Some e ->
    nth e (kept_columns projection r) null = nth k row0 null) ->
  key_at null hk (kept_columns projection r) = key_at null ks row0.
Proof.
  intros Hm%mapM_Some Hk. unfold key_at. induction Hm as [|k e ks hk He _ IH]; [done|].
  cbn. f_equal; [apply Hk; [set_solver|done]|]. apply IH. set_solver.
Qed.

(** The hash a join says its output still carries is where its rows are: over lanes that hold
    their layouts' hashes, every row a lane's join emits, padded and projected as it is, sits in the
    lane its renumbered keys name. *)
Lemma joined_hash_holds jt keys filter fcols projection build probe bs ps :
  validate_hash_join jt keys filter fcols projection build probe = Ok () ->
  length bs = n (input_layout build) -> length ps = n (input_layout probe) ->
  bw = length (fields (input_schema build)) ->
  (forall lane, lane ∈ bs -> Forall (fun r => length r = bw) lane) ->
  hash_holds null place (key_distribution (input_layout build)) bs ->
  hash_holds null place (key_distribution (input_layout probe)) ps ->
  hash_holds null place
    (joined_key_distribution jt keys (input_layout build) (input_layout probe) bw projection)
    (map (map (kept_columns projection)) (zip_with (joined jt) bs ps)).
Proof.
  intros (Hn & _ & Hkb & _)%validate_hash_join_ok Hb Hp Hbw Hwidth Hbs Hps.
  unfold joined_key_distribution. destruct (unpadded_sides jt) as [|s0 sides0] eqn:Hsides; [done|].
  rewrite <- Hsides in *. destruct (forallb _ _) eqn:Hcarries; [|done]. cbn [negb].
  destruct (head _) as [hk|] eqn:Hhead; [|done]. cbn.
  apply head_Some_elem_of, list_elem_of_omap in Hhead as (side & Hside & Hm).
  assert (Hc : carries_hash keys (input_layout build) (input_layout probe) side = true).
  { rewrite forallb_forall in Hcarries. apply Hcarries. by apply list_elem_of_In. }
  unfold carries_hash in Hc. apply bool_decide_eq_true in Hc.
  intros i lane row Hi Hrow. rewrite length_map, length_zip_with.
  apply map_lookup_Some in Hi as (lane0 & Hi & ->). apply elem_of_map in Hrow as (r & -> & Hr).
  apply lookup_zip_with_Some in Hi as (lb & lp & -> & Hlb & Hlp).
  rewrite Forall_forall in Hkb. pose proof (Hwidth lb ltac:(by eapply list_elem_of_lookup_2)) as Hw.
  destruct side.
  - rewrite Hc in Hbs. destruct (build_part _ _ _ _ Hside Hr) as (b & tail & Hbin & ->).
    rewrite (renumbered_key_at jt Build (map fst keys) hk projection b).
    + rewrite Nat.min_l by lia. by eapply Hbs.
    + done.
    + intros k e Hk He. apply (build_ordinal_nth jt); [|done]. rewrite Forall_forall in Hw.
      rewrite (Hw b Hbin), Hbw. auto.
  - rewrite Hc in Hps. destruct (probe_part _ _ _ _ Hw Hside Hr) as (p & pre & Hpin & -> & Hpre).
    rewrite (renumbered_key_at jt Probe (map snd keys) hk projection p).
    + rewrite Nat.min_r by lia. by eapply Hps.
    + done.
    + intros k e Hk He. by apply (probe_ordinal_nth jt).
Qed.
End colocated.

(** ** Two lanes of a left join *)
Definition demo_field (name : string) : Field :=
  {| field_name := name; data_type := Int64; nullable := true |}.
Definition demo_side (hash_keys : list nat) (names : list string) : GpuNode :=
  GpuEmpty (SourceKind {| n := 2; key_distribution := ByHash hash_keys; sort_order := OrderNotSpecified;
                          batch_layout := SingleBatch |} (schema_new (map demo_field names))).
Definition demo_build : GpuNode := demo_side [0] ["k"; "a"]%string.
Definition demo_probe : GpuNode := demo_side [1] ["b"; "j"]%string.
Definition demo_on (b p : list nat) : bool := nth 0 b 0 =? nth 1 p 0.
Definition demo_bs : list (list (list nat)) := [[[4; 10]; [6; 11]]; [[5; 12]]].
Definition demo_ps : list (list (list nat)) := [[[20; 4]]; [[21; 5]; [22; 7]]].

Lemma demo_sides_placed :
  hash_holds 0 demo_place (ByHash [0]) demo_bs /\ hash_holds 0 demo_place (ByHash [1]) demo_ps.
Proof.
  split; intros i lane row Hi Hrow;
    (destruct i as [|[|i]]; cbn in Hi; [injection Hi as <-..|done]);
    repeat (apply elem_of_cons in Hrow as [->|Hrow]; [reflexivity|]); by apply not_elem_of_nil in Hrow.
Qed.

Lemma copartitioned_join_is_the_join_witness :
  validate_hash_join Left [(0, 1)] None [] None demo_build demo_probe = Ok ()
  /\ concat (zip_with (joined 0 Nat.b2n demo_on 2 2 Left) demo_bs demo_ps)
     = [[4; 10; 20; 4]; [6; 11; 0; 0]; [5; 12; 21; 5]]
  /\ concat (zip_with (joined 0 Nat.b2n demo_on 2 2 Left) demo_bs demo_ps)
     ≡ₚ joined 0 Nat.b2n demo_on 2 2 Left (concat demo_bs) (concat demo_ps).
Proof.
  split; [vm_compute; reflexivity|]. split; [vm_compute; reflexivity|].
  apply (copartitioned_join_is_the_join 0 Nat.b2n demo_place demo_on 2 2 Left [(0, 1)] None [] None
           demo_build demo_probe).
  - vm_compute. reflexivity.
  - reflexivity.
  - reflexivity.
  - apply demo_sides_placed.
  - apply demo_sides_placed.
  - intros b p Hm. apply Nat.eqb_eq in Hm. unfold key_at. cbn [map fst snd]. by rewrite Hm.
Defined.
