(* ===== verification/CpuJoin.v ===== *)
(** * The CPU backend's joins

    [cpu_backend/join.rs]: one DataFusion join stream per lane, alive from [set_build] to
    [finish_and_fetch].  The stream is a parameter: [JoinStreams] names its calls and
    [JoinStreamLaws] what it answers them, a probe batch's rows at the batch and the rest once the
    probe side closes, each cut to the columns the join keeps. *)
From stdpp Require Import strings.
From S2P Require Import Prelude Interval PlanIR PlanCommon Joins JoinFacts Executor CpuOps Samples.
Open Scope N_scope.

Class JoinStreams `{Arrow} := {
  JoinExec : Type;
  JoinStream : Type;
  (** [fed] and [execute_stream] over the build batch, if any, and an open probe channel *)
  start_stream : JoinExec -> list RecordBatch -> result string JoinStream;
  stream_schema : JoinStream -> SchemaRef;
  (** [unbounded_send] *)
  send_probe : JoinStream -> RecordBatch -> result string JoinStream;
  (** polling until the stream is pending: a chunk that fails ends the call *)
  poll_ready : JoinStream -> JoinStream * result string (list RecordBatch);
  (** dropping the sender and collecting the rest *)
  close_and_collect : JoinStream -> result string (list RecordBatch) }.

Section Session.
Context `{JoinStreams}.

(** [Plan]: the join and the cross join's own projection are the one [JoinExec]. *)
Record CpuJoin := { j_exec : JoinExec; j_type : JoinType; j_output : SchemaRef }.
Record CpuProbingJoin :=
  { p_stream : JoinStream; p_type : JoinType; p_output : SchemaRef; build_bytes : N;
    p_owes_nothing : bool }.

Definition answers_at_finish_only (jt : JoinType) : bool :=
  match jt with LeftSemi | LeftAnti | LeftMark => true | _ => false end.

Definition set_build (j : CpuJoin) (batch : option RecordBatch) :
    result BackendError (CpuProbingJoin * CallStats) :=
  let build := option_list batch in
  let build_rows := sumN (map n_rows build) in
  stream ← map_err (backend_error "starting the join: ") (start_stream (j_exec j) build);
  answers {| p_stream := stream; p_type := j_type j; p_output := j_output j;
             build_bytes := sum_bytes build;
             p_owes_nothing := (build_rows =? 0) && empty_build_owes_nothing (j_type j) |}.

Definition one_batch (p : CpuProbingJoin) (chunks : list RecordBatch) :
    result BackendError RecordBatch :=
  joined ← map_err (backend_error "joining a call's chunks: ")
             (concat_batches (stream_schema (p_stream p)) chunks);
  declared_as joined (p_output p).

Definition owed_nothing (chunks : list RecordBatch) (call : string) : result BackendError () :=
  if sumN (map n_rows chunks) =? 0 then Ok ()
  else Err {| message := call +:+ " of a join answers nothing, and DataFusion emitted rows there" |}.

Definition with_stream (p : CpuProbingJoin) (s : JoinStream) : CpuProbingJoin :=
  {| p_stream := s; p_type := p_type p; p_output := p_output p; build_bytes := build_bytes p;
     p_owes_nothing := p_owes_nothing p |}.

Definition JM := M CpuProbingJoin BackendError.

Definition feed_probe (batch : RecordBatch) : JM () := fun p =>
  match send_probe (p_stream p) batch with
  | Ok s => (Ok (), with_stream p s)
  | Err e => (Err (backend_error "feeding the probe side: " e), p)
  end.

Definition ready : JM (list RecordBatch) := fun p =>
  let '(s, r) := poll_ready (p_stream p) in
  (map_err (backend_error "probing: ") r, with_stream p s).

Definition cpu_probe_and_fetch (batch : RecordBatch) : JM (option RecordBatch * CallStats) :=
  feed_probe batch ≫= fun _ =>
  chunks ← ready;
  at_finish ← gets (fun p => answers_at_finish_only (p_type p));
  if at_finish : bool then lift (owed_nothing chunks "a probe call") ≫= fun _ =>
                           mret (None, default_stats)
  else p ← get_state; b ← lift (one_batch p chunks); mret (Some b, default_stats).

Definition cpu_finish_and_fetch (p : CpuProbingJoin) :
    result BackendError (option RecordBatch * CallStats) :=
  chunks ← map_err (backend_error "finishing the join: ") (close_and_collect (p_stream p));
  if negb (needs_finish (p_type p)) then owed_nothing chunks "the finish" ≫= fun _ => answers None
  else b ← one_batch p chunks; answers (Some b).

(** ** A lane's session: every probe batch, then the finish *)
Fixpoint session (p : CpuProbingJoin) (batches : list RecordBatch) :
    result BackendError (list RecordBatch) :=
  match batches with
  | [] => '(out, _) ← cpu_finish_and_fetch p; Ok (option_list out)
  | b :: batches =>
      match cpu_probe_and_fetch b p with
      | (Ok (out, _), p) => rest ← session p batches; Ok (option_list out ++ rest)
      | (Err e, _) => Err e
      end
  end.
End Session.

(** ** What the stream answers *)
Class JoinStreamLaws `{JoinStreams} {V : Type} (cells : Row -> list V) (null : V) (mark : bool -> V) := {
  (** What an exec was built with: its type, when two rows match, the widths of its sides, and the
      columns it keeps of what it emits: the projection handed to [HashJoinExec] or
      [NestedLoopJoinExec], or the [ProjectionExec] around a cross join. *)
  exec_type : JoinExec -> JoinType;
  exec_on : JoinExec -> list V -> list V -> bool;
  build_width : JoinExec -> nat;
  probe_width : JoinExec -> nat;
  exec_projection : JoinExec -> option (list nat);
  (** a stream over build rows [B], having been sent the probe rows [P] *)
  streams : JoinStream -> JoinExec -> JoinType -> list (list V) -> list (list V) -> Prop;
  (** a probe batch sent and not yet polled *)
  sent : JoinStream -> JoinExec -> JoinType -> list (list V) -> list (list V) -> list (list V) -> Prop;
  start_law : forall e build s, start_stream e build = Ok s ->
    streams s e (exec_type e) (map cells (rows_of build)) [];
  send_law : forall s e jt B P b s', streams s e jt B P -> send_probe s b = Ok s' ->
    sent s' e jt B P (map cells (rows b));
  poll_law : forall s e jt B P new s' r, sent s e jt B P new -> poll_ready s = (s', r) ->
    streams s' e jt B (P ++ new)
    /\ forall chunks, r = Ok chunks ->
       map cells (rows_of chunks)
       ≡ₚ map (kept_columns null (exec_projection e)) (probe_answer null (exec_on e) (build_width e) jt B new);
  close_law : forall s e jt B P chunks, streams s e jt B P -> close_and_collect s = Ok chunks ->
    map cells (rows_of chunks)
    ≡ₚ map (kept_columns null (exec_projection e))
         (finish_answer null mark (exec_on e) (build_width e) (probe_width e) jt B P) }.

Section answers.
Context `{Arr : Arrow} `{!ArrowLaws} `{!JoinStreams} {V : Type} (cells : Row -> list V) (null : V)
  (mark : bool -> V) `{!JoinStreamLaws cells null mark}.
Notation cut_by e := (map (kept_columns null (exec_projection e))).
Notation probed e := (probe_answer null (exec_on e) (build_width e)).
Notation finished e := (finish_answer null mark (exec_on e) (build_width e) (probe_width e)).
Notation joined_by e := (joined null mark (exec_on e) (build_width e) (probe_width e)).

Lemma no_rows_of chunks : sumN (map n_rows chunks) = 0 -> rows_of chunks = [].
Proof.
  induction chunks as [|c chunks IH]; [done|]. cbn [map]. rewrite sumN_cons. intros Hs.
  rewrite rows_of_cons, IH by lia. assert (Hc : n_rows c = 0) by lia. unfold n_rows, lenN in Hc.
  destruct (rows c); [done|cbn in Hc; lia].
Qed.

Lemma owed_nothing_rows chunks call : owed_nothing chunks call = Ok () -> rows_of chunks = [].
Proof.
  unfold owed_nothing. destruct (N.eqb_spec (sumN (map n_rows chunks)) 0) as [Hz|]; [|done].
  intros _. by apply no_rows_of.
Qed.

Lemma one_batch_rows p chunks b : one_batch p chunks = Ok b -> rows b = rows_of chunks.
Proof.
  intros (j & Hj & Hd)%bind_ok. apply declared_rows in Hd. rewrite Hd.
  destruct (concat_batches _ chunks) eqn:E; [|done]. injection Hj as ->. by apply concat_rows in E.
Qed.

Lemma probe_call_answers p b out stats p' e B P :
  streams (p_stream p) e (p_type p) B P -> cpu_probe_and_fetch b p = (Ok (out, stats), p') ->
  map cells (rows_of (option_list out)) ≡ₚ cut_by e (probed e (p_type p) B (map cells (rows b)))
  /\ streams (p_stream p') e (p_type p') B (P ++ map cells (rows b)) /\ p_type p' = p_type p.
Proof.
  intros Hs Hc. unfold cpu_probe_and_fetch, mbind, M_bind, feed_probe, ready, gets, lift, get_state in Hc.
  destruct (send_probe (p_stream p) b) as [s1|] eqn:Hsend; [|done]. cbn [with_stream p_stream p_type] in Hc.
  apply (send_law _ _ _ _ _ _ _ Hs) in Hsend. destruct (poll_ready s1) as [s2 [chunks|]] eqn:Hpoll; [|done].
  destruct (poll_law _ _ _ _ _ _ _ _ Hsend Hpoll) as [Hs2 Hans]. specialize (Hans chunks eq_refl).
  cbn [map_err with_stream p_type] in Hc. destruct (answers_at_finish_only (p_type p)) eqn:Haf.
  - destruct (owed_nothing chunks _) as [[]|] eqn:Ho; [|done]. injection Hc as <- _ <-.
    split_and!; [|done|done]. rewrite <- Hans, (owed_nothing_rows _ _ Ho). done.
  - destruct (one_batch _ chunks) as [ob|] eqn:Ho; [|done]. injection Hc as <- _ <-.
    split_and!; [|done|done]. rewrite <- Hans. cbn [option_list option_rect].
    rewrite rows_of_cons. unfold rows_of at 1. cbn. by rewrite app_nil_r, (one_batch_rows _ _ _ Ho).
Qed.

Lemma finish_call_answers p out stats e B P :
  streams (p_stream p) e (p_type p) B P -> cpu_finish_and_fetch p = Ok (out, stats) ->
  map cells (rows_of (option_list out)) ≡ₚ cut_by e (finished e (p_type p) B P).
Proof.
  intros Hs (chunks & Hc & Hf)%bind_ok. destruct (close_and_collect _) eqn:E; [|done].
  injection Hc as ->. apply (close_law _ _ _ _ _ _ Hs) in E. rewrite <- E.
  destruct (needs_finish (p_type p)); cbn [negb] in Hf.
  - apply bind_ok in Hf as (ob & Ho & [= <- _]). cbn [option_list option_rect].
    rewrite rows_of_cons. unfold rows_of at 1. cbn. by rewrite app_nil_r, (one_batch_rows _ _ _ Ho).
  - apply bind_ok in Hf as ([] & Ho & [= <- _]). by rewrite (owed_nothing_rows _ _ Ho).
Qed.

Lemma session_rest p e B P batches outs :
  streams (p_stream p) e (p_type p) B P -> session p batches = Ok outs ->
  map cells (rows_of outs)
  ≡ₚ cut_by e (concat (map (fun b => probed e (p_type p) B (map cells (rows b))) batches)
             ++ finished e (p_type p) B (P ++ map cells (rows_of batches))).
Proof.
  revert p P outs. induction batches as [|b batches IH]; intros p P outs Hs Hr; cbn [session] in Hr.
  - apply bind_ok in Hr as ([out st] & Hf & [= <-]). cbn. rewrite app_nil_r.
    by eapply finish_call_answers.
  - destruct (cpu_probe_and_fetch b p) as [[[out st]|] p'] eqn:Hp; [|done].
    apply bind_ok in Hr as (rest & Hrest & [= <-]).
    destruct (probe_call_answers _ _ _ _ _ _ _ _ Hs Hp) as (Hout & Hs' & Hty).
    apply (IH _ _ _ Hs') in Hrest. rewrite Hty in Hrest.
    rewrite rows_of_app, map_app, Hout, Hrest. cbn [map concat].
    by rewrite rows_of_cons, !map_app, !app_assoc.
Qed.

(** C21: a lane's session answers its join: the calls that answer and the calls that answer nothing
    together hand back, over any run of probe batches, the rows of the join of the build batch with
    all of them, cut to the columns the join keeps; and a session that says it owes nothing indeed
    owes none.  The laws say of each exec's stream that it answers a probe batch's matches, projected,
    at the batch and what is left at the close. *)
Theorem session_answers_the_join j build p stats batches outs :
  exec_type (j_exec j) = j_type j ->
  set_build j build = Ok (p, stats) -> session p batches = Ok outs ->
  let B := map cells (rows_of (option_list build)) in
  map cells (rows_of outs)
    ≡ₚ cut_by (j_exec j) (joined_by (j_exec j) (j_type j) B (map cells (rows_of batches)))
  /\ (p_owes_nothing p = true -> rows_of outs = []).
Proof.
  intros Hty (s & Hstart & [= <- _])%bind_ok Hr B.
  destruct (start_stream _ _) eqn:E; [|done]. injection Hstart as ->. apply start_law in E.
  rewrite Hty in E. eapply session_rest in Hr; [|exact E]. cbn [p_type p_stream app] in Hr.
  assert (Hj : map cells (rows_of outs)
    ≡ₚ cut_by (j_exec j) (joined_by (j_exec j) (j_type j) B (map cells (rows_of batches)))).
  { assert (Hcells : map cells (rows_of batches) = concat (map (fun b => map cells (rows b)) batches))
      by (unfold rows_of; by rewrite concat_map, map_map).
    rewrite Hr. apply Permutation_map.
    rewrite Hcells, <- (streamed_is_joined null mark (exec_on (j_exec j)) _ _). by rewrite map_map. }
  split; [done|]. cbn [p_owes_nothing]. intros [Hz%N.eqb_eq He]%andb_true_iff.
  assert (HB : B = []) by (subst B; by rewrite no_rows_of). rewrite HB in Hj.
  rewrite (proj1 (empty_build_owes_nothing_exact (j_type j)) He) in Hj.
  apply Permutation_sym, Permutation_nil, map_eq_nil in Hj. done.
Qed.
End answers.

(** ** A stream to run: it answers as the reference does, over rows of numbers *)
Definition toy_joins : Arrow := toy_arrow_of (list nat).
Definition toy_join_laws : @ArrowLaws toy_joins := toy_laws_of (list nat).
#[local] Existing Instances toy_joins toy_join_laws.

Record ToyStream :=
  { ts_type : JoinType; ts_kept : option (list nat); ts_build : list (list nat); ts_probed : list (list nat);
    ts_sent : list (list nat) }.

#[local] Instance toy_streams : JoinStreams := {|
  JoinExec := JoinType * option (list nat); JoinStream := ToyStream;
  start_stream := fun '(jt, projection) build =>
    Ok {| ts_type := jt; ts_kept := projection; ts_build := rows_of build; ts_probed := []; ts_sent := [] |};
  stream_schema := fun _ => [];
  send_probe := fun s b => Ok {| ts_type := ts_type s; ts_kept := ts_kept s; ts_build := ts_build s;
    ts_probed := ts_probed s; ts_sent := rows b |};
  poll_ready := fun s =>
    ({| ts_type := ts_type s; ts_kept := ts_kept s; ts_build := ts_build s;
        ts_probed := ts_probed s ++ ts_sent s; ts_sent := [] |},
     Ok [([], map (kept_columns 0%nat (ts_kept s))
                (probe_answer 0%nat demo_on 2 (ts_type s) (ts_build s) (ts_sent s)))]);
  close_and_collect := fun s =>
    Ok [([], map (kept_columns 0%nat (ts_kept s))
               (finish_answer 0%nat Nat.b2n demo_on 2 2 (ts_type s) (ts_build s) (ts_probed s)))] |}.

Definition toy_cells (r : @Row toy_joins) : list nat := r.
Lemma map_toy_cells l : map toy_cells l = l.
Proof. apply map_id. Qed.

#[local] Instance toy_stream_laws : JoinStreamLaws toy_cells 0%nat Nat.b2n.
Proof.
  refine {| exec_type := fst; exec_on := fun _ => demo_on; build_width := fun _ => 2%nat;
            probe_width := fun _ => 2%nat; exec_projection := snd;
            streams := fun s e jt B P =>
              ts_type s = jt /\ ts_kept s = snd e /\ ts_build s = B /\ ts_probed s = P;
            sent := fun s e jt B P new =>
              ts_type s = jt /\ ts_kept s = snd e /\ ts_build s = B /\ ts_probed s = P /\ ts_sent s = new |}.
  - intros [jt projection] build s [= <-]. cbn. by rewrite map_toy_cells.
  - intros s e jt B P b s' (<- & Hk & <- & <-) [= <-]. cbn. by rewrite map_toy_cells.
  - intros s e jt B P new s' r (<- & <- & <- & <- & <-) [= <- <-]. split; [done|].
    intros chunks [= <-]. rewrite map_toy_cells. unfold rows_of. cbn. by rewrite app_nil_r.
  - intros s e jt B P chunks (<- & <- & <- & <-) [= <-]. rewrite map_toy_cells. unfold rows_of. cbn.
    by rewrite app_nil_r.
Defined.

(** A left join that keeps its build side's second column and its probe side's first, and a semi join
    that keeps everything. *)
Definition toy_exec : @JoinExec _ toy_streams := (Left, Some [1; 2]%nat).
Definition toy_join : CpuJoin := {| j_exec := toy_exec; j_type := Left; j_output := [] |}.
Definition toy_build : RecordBatch := ([], [[4; 10]; [6; 11]; [5; 12]]%nat).
Definition toy_probes : list RecordBatch := [([], [[20; 4]; [21; 9]]%nat); ([], []); ([], [[22; 5]; [23; 4]]%nat)].
Definition toy_probing (jt : JoinType) (projection : option (list nat)) : CpuProbingJoin :=
  {| p_stream := {| ts_type := jt; ts_kept := projection;
                    ts_build := [[4; 10]; [6; 11]; [5; 12]]%nat; ts_probed := []; ts_sent := [] |};
     p_type := jt; p_output := []; build_bytes := 3; p_owes_nothing := false |}.

Lemma session_answers_the_join_witness :
  session (toy_probing Left (Some [1; 2]%nat)) toy_probes
    = Ok [([], [[10; 20]]%nat); ([], []); ([], [[12; 22]; [10; 23]]%nat); ([], [[11; 0]]%nat)]
  /\ map toy_cells (rows_of [([], [[10; 20]]%nat) : RecordBatch; ([], []);
                             ([], [[12; 22]; [10; 23]]%nat); ([], [[11; 0]]%nat)])
     ≡ₚ map (kept_columns 0%nat (Some [1; 2]%nat))
          (joined 0%nat Nat.b2n demo_on 2 2 Left
             (map toy_cells (rows_of [toy_build])) (map toy_cells (rows_of toy_probes))).
Proof.
  split; [vm_compute; reflexivity|].
  refine (proj1 (session_answers_the_join toy_cells 0%nat Nat.b2n toy_join
           (Some toy_build) (toy_probing Left (Some [1; 2]%nat)) default_stats toy_probes
           [([], [[10; 20]]%nat); ([], []); ([], [[12; 22]; [10; 23]]%nat); ([], [[11; 0]]%nat)] _ _ _)).
  - reflexivity.
  - vm_compute. reflexivity.
  - vm_compute. reflexivity.
Defined.

(** A semi join answers nothing before its finish. *)
Example semi_join_answers_at_finish :
  session (toy_probing LeftSemi None) toy_probes = Ok [([], [[4; 10]; [5; 12]]%nat)].
Proof. vm_compute. reflexivity. Qed.
