(* ===== verification/AggFacts.v ===== *)
(** * The aggregates: what the decomposition computes, and where a group's rows are

    The reference of each SQL aggregate is a function of the values it is over.  Splitting it into
    inits over batches, a merge of their states and a finalize expression is proved to give it, over
    exact rationals: a decimal is cut to its scale, a float is not rounded.  DataFusion's merge of a
    Welford state is a parameter, and Chan's formula an instance. *)
From stdpp Require Import strings.
From Stdlib Require Import QArith Qcanon Qpower Field.
From S2P Require Import Prelude Interval PlanIR PlanCommon Claims Aggregates.
Open Scope nat_scope.

(** ** Cells *)
Definition cell := option Qc.
Definition qlen {A} (l : list A) : Qc := Q2Qc (inject_Z (Z.of_nat (length l))).
Definition qsum (l : list Qc) : Qc := foldr Qcplus 0%Qc l.
Definition qmin (a b : Qc) : Qc := if Qclt_le_dec b a then b else a.
Definition qmax (a b : Qc) : Qc := if Qclt_le_dec a b then b else a.

Definition folded_by (f : Qc -> Qc -> Qc) (l : list Qc) : cell :=
  match l with [] => None | x :: l => Some (foldr f x l) end.

Definition mean (l : list Qc) : Qc := (qsum l / qlen l)%Qc.
Definition m2 (l : list Qc) : Qc := qsum (map (fun x => (x - mean l) * (x - mean l))%Qc l).

Definition Triple := (Qc * Qc * Qc)%type.
Definition welford (l : list Qc) : Triple := (qlen l, mean l, m2 l).

(** *** Decimals: whole multiples of the unit of their scale.  A quotient is truncated toward zero to
    its scale, a cast rounded to the nearest, halves away from zero. *)
Definition whole (z : Z) : Qc := Q2Qc (inject_Z z).
Definition ulp (scale : Z) : Qc := Q2Qc (Qpower 10 (- scale)).
Definition truncated (q : Qc) : Z := Z.quot (Qnum q) (Zpos (Qden q)).
Definition rounded (q : Qc) : Z :=
  Z.quot (2 * Qnum q + Z.sgn (Qnum q) * Zpos (Qden q)) (2 * Zpos (Qden q)).
Definition at_scale (cut : Qc -> Z) (scale : Z) (q : Qc) : Qc := (whole (cut (q / ulp scale)) * ulp scale)%Qc.

(** What a value becomes in the type it is declared at, cut by [cut] where that is a decimal;
    [None] is a type no average is declared. *)
Definition declared_at (cut : Qc -> Z) (t : DataType) (q : Qc) : option Qc :=
  match t with
  | Decimal128 _ scale => Some (at_scale cut scale q)
  | _ => if is_floating t then Some q else None
  end.

Section Aggregate.
Context (qsqrt : Qc -> Qc) (merge_m2 : list Triple -> Triple) (null_scalar : DataType -> result string ScalarValue).

(** ** The reference *)
Definition dispersion (ddof : nat) (l : list Qc) : cell :=
  if length l <=? ddof then None
  else Some (m2 l / (qlen l - Q2Qc (inject_Z (Z.of_nat ddof))))%Qc.

(** An average declared a decimal is the quotient truncated to the declared scale. *)
Definition aggregate_of (func : AggFunc) (ddof : nat) (out_type : DataType) (l : list Qc) : cell :=
  match func with
  | Sum => folded_by Qcplus l
  | Min => folded_by qmin l
  | Max => folded_by qmax l
  | Count => Some (qlen l)
  | Avg => match l with [] => None | _ => declared_at truncated out_type (qsum l / qlen l)%Qc end
  | Var => dispersion ddof l
  | Stddev => option_map qsqrt (dispersion ddof l)
  end.

(** ** The aggregators *)
Definition state_cell (agg : PlanAgg) (l : list Qc) : cell :=
  match agg with
  | PSum => folded_by Qcplus l
  | PMin => folded_by qmin l
  | PMax => folded_by qmax l
  | PCount => Some (qlen l)
  | PMean => Some (mean l)
  | PM2 => Some (m2 l)
  | PMergeM2 => None
  end.

Definition init_states (func : AggFunc) (l : list Qc) : list cell :=
  map (fun '(_, agg) => state_cell agg l) (state (decomposition func)).

(** An aggregator over a column of states; the NULLs are passed over. *)
Definition merge_cells (agg : PlanAgg) (cells : list cell) : cell :=
  match agg with
  | PSum => folded_by Qcplus (omap id cells)
  | PMin => folded_by qmin (omap id cells)
  | PMax => folded_by qmax (omap id cells)
  | _ => None
  end.

Definition column_of (i : nat) (rows : list (list cell)) : list cell := map (fun r => nth i r None) rows.

Definition triple_of (r : list cell) : option Triple :=
  match r with [Some n; Some m; Some d] => Some (n, m, d) | _ => None end.

Definition merge_states (rule : Merge) (rows : list (list cell)) : list cell :=
  match rule with
  | PerColumn funcs => imap (fun i f => merge_cells f (column_of i rows)) funcs
  | Combined _ =>
      let '(n, m, d) := merge_m2 (omap triple_of rows) in [Some n; Some m; Some d]
  end.

(** ** The finalize expression, as far as a finalize uses the IR.  [None] is an expression outside
    that, or a division by zero.  A quotient is truncated and a cast rounded to the scale of the
    decimal they are declared: arrow's quotient of a decimal average has the scale declared. *)
Definition literal_cell (v : ScalarValue) : option cell :=
  match scalar_value v with
  | None => Some None
  | Some (DInt z) => Some (Some (Q2Qc (inject_Z z)))
  | Some (DFloat q) => Some (Some (Q2Qc q))
  | Some _ => None
  end.

Definition declared_cell (cut : Qc -> Z) (t : DataType) (c : cell) : option cell :=
  match c with Some q => Some <$> declared_at cut t q | None => Some None end.

Definition binary_cell (op : BinaryOp) (t : DataType) (a b : cell) : option cell :=
  match a, b with
  | Some a, Some b =>
      match op with
      | Minus => Some (Some (a - b)%Qc)
      | Divide => if Qc_eq_dec b 0%Qc then None else declared_cell truncated t (Some (a / b)%Qc)
      | LtEq => Some (Some (if Qclt_le_dec b a then 0%Qc else 1%Qc))
      | _ => None
      end
  | _, _ => Some None
  end.

Definition is_true (c : cell) : bool :=
  match c with Some q => if Qc_eq_dec q 0%Qc then false else true | None => false end.

Fixpoint eval_finalize (e : Expr) (row : list cell) : option cell :=
  match e with
  | Column r => Some (nth (index r) row None)
  | Literal v => literal_cell v
  | Cast a t => a ← eval_finalize a row; declared_cell rounded t a
  | BinaryE l op r t =>
      a ← eval_finalize l row; b ← eval_finalize r row; binary_cell op t a b
  | UnaryE Sqrt a => a ← eval_finalize a row; Some (option_map qsqrt a)
  | Case None [(w, t)] (Some e) =>
      c ← eval_finalize w row;
      if is_true c then eval_finalize t row else eval_finalize e row
  | _ => None
  end.
End Aggregate.

(** ** Merging the parts *)

Lemma folded_app f l1 l2 : (forall a b c, f a (f b c) = f (f a b) c) -> (forall a b, f a b = f b a) ->
  folded_by f (l1 ++ l2) =
  match folded_by f l1, folded_by f l2 with
  | Some a, Some b => Some (f a b)
  | a, None => a
  | None, b => b
  end.
Proof.
  intros Ha Hc. destruct l1 as [|x l1]; cbn; [by destruct l2|]. destruct l2 as [|y l2]; cbn.
  - by rewrite app_nil_r.
  - assert (Hswap : forall a b c, f a (f b c) = f b (f a c)) by (intros; by rewrite !Ha, (Hc a b)).
    f_equal. induction l1 as [|z l1 IH]; cbn; [|by rewrite IH, Ha].
    induction l2 as [|z l2 IH]; cbn; [apply Hc|]. by rewrite (Hswap y), IH, (Hswap x).
Qed.

Lemma folded_parts f (parts : list (list Qc)) :
  (forall a b c, f a (f b c) = f (f a b) c) -> (forall a b, f a b = f b a) ->
  folded_by f (omap id (map (folded_by f) parts)) = folded_by f (concat parts).
Proof.
  intros Ha Hc. induction parts as [|p parts IH]; [done|]. cbn [map concat omap list_omap].
  rewrite folded_app, <- IH by done. unfold id at 1. destruct (folded_by f p) as [a|].
  - by apply (folded_app f [a]).
  - by destruct (folded_by f (omap id (map (folded_by f) parts))).
Qed.

Lemma qplus_folded l : l <> [] -> folded_by Qcplus l = Some (qsum l).
Proof.
  destruct l as [|x l]; [done|]. intros _. cbn. f_equal. unfold qsum.
  induction l as [|y l IH]; cbn; [ring|]. rewrite IH. ring.
Qed.

Lemma qsum_app l1 l2 : qsum (l1 ++ l2) = (qsum l1 + qsum l2)%Qc.
Proof. unfold qsum. induction l1 as [|x l1 IH]; cbn; [ring|]. rewrite IH. ring. Qed.

Lemma qlen_app {A} (l1 l2 : list A) : qlen (l1 ++ l2) = (qlen l1 + qlen l2)%Qc.
Proof.
  unfold qlen. rewrite length_app, Nat2Z.inj_add, inject_Z_plus. apply Qc_is_canon. cbn.
  by rewrite !Qred_correct.
Qed.

Lemma qlen_parts (parts : list (list Qc)) : qsum (map qlen parts) = qlen (concat parts).
Proof.
  induction parts as [|p parts IH]; [done|]. cbn [map concat]. rewrite qlen_app, <- IH. done.
Qed.

Lemma qmin_comm a b : qmin a b = qmin b a.
Proof.
  unfold qmin. destruct (Qclt_le_dec b a) as [H1|H1], (Qclt_le_dec a b) as [H2|H2]; try done.
  - exfalso. by apply (Qclt_not_le _ _ H1), Qclt_le_weak.
  - by apply Qcle_antisym.
Qed.
Lemma qmin_le_l a b : (qmin a b <= a)%Qc.
Proof. unfold qmin. destruct (Qclt_le_dec b a); [by apply Qclt_le_weak|apply Qcle_refl]. Qed.
Lemma qmin_glb a b c : (c <= a -> c <= b -> c <= qmin a b)%Qc.
Proof. unfold qmin. by destruct (Qclt_le_dec b a). Qed.
Lemma qmin_assoc a b c : qmin a (qmin b c) = qmin (qmin a b) c.
Proof.
  assert (Hr : forall x y, (qmin x y <= y)%Qc) by (intros; rewrite qmin_comm; apply qmin_le_l).
  apply Qcle_antisym.
  - apply qmin_glb; [apply qmin_glb; [apply qmin_le_l|]|]; (eapply Qcle_trans; [apply Hr|]);
      [apply qmin_le_l|apply Hr].
  - apply qmin_glb; [|apply qmin_glb; [|apply Hr]]; (eapply Qcle_trans; [apply qmin_le_l|]);
      [apply qmin_le_l|apply Hr].
Qed.

(** The larger is the smaller of the opposites. *)
Lemma qmax_qmin a b : qmax a b = (- qmin (- a) (- b))%Qc.
Proof.
  unfold qmax, qmin. destruct (Qclt_le_dec a b) as [H1|H1], (Qclt_le_dec (- b) (- a)) as [H2|H2];
    rewrite ?Qcopp_involutive; try done.
  - apply Qcopp_le_compat in H2. rewrite !Qcopp_involutive in H2. by destruct (Qclt_not_le _ _ H1).
  - apply Qclt_not_le in H2. destruct H2. by apply Qcopp_le_compat.
Qed.
Lemma qmax_comm a b : qmax a b = qmax b a.
Proof. by rewrite !qmax_qmin, qmin_comm. Qed.
Lemma qmax_assoc a b c : qmax a (qmax b c) = qmax (qmax a b) c.
Proof. by rewrite !qmax_qmin, !Qcopp_involutive, qmin_assoc. Qed.

(** ** Counts as rationals *)
Lemma qlen_zero {A} (l : list A) : qlen l = 0%Qc -> l = [].
Proof.
  unfold qlen. intros Hz. apply (f_equal this) in Hz. cbn in Hz.
  assert (Hq : (inject_Z (Z.of_nat (length l)) == 0)%Q) by (rewrite <- Qred_correct, Hz; done).
  unfold Qeq in Hq. cbn in Hq. destruct l; [done|cbn in Hq; lia].
Qed.

Lemma q2qc_le a b : (Q2Qc a <= Q2Qc b)%Qc <-> (a <= b)%Q.
Proof. unfold Qcle. cbn. by rewrite !Qred_correct. Qed.

Lemma qsub_le a b : (a - b <= 0)%Qc <-> (a <= b)%Qc.
Proof.
  rewrite (Qcle_minus_iff a b), (Qcle_minus_iff (a - b) 0).
  replace (0 + - (a - b))%Qc with (b + - a)%Qc by ring. done.
Qed.

Lemma denominator_le {A} (l : list A) ddof :
  (qlen l - Q2Qc (inject_Z (Z.of_nat ddof)) <= 0)%Qc <-> length l <= ddof.
Proof.
  rewrite qsub_le. unfold qlen. rewrite q2qc_le, <- Zle_Qle. lia.
Qed.

(** ** Decimals *)
Lemma whole_num z : Qnum (whole z) = z /\ Qden (whole z) = 1%positive.
Proof.
  unfold whole. cbn [Q2Qc this]. rewrite Qred_identity; [done|]. cbn. apply Z.gcd_1_r.
Qed.

Lemma rounded_whole z : rounded (whole z) = z.
Proof.
  unfold rounded. destruct (whole_num z) as [-> ->]. Z.to_euclidean_division_equations. lia.
Qed.

Lemma ulp_nonzero s : ulp s <> 0%Qc.
Proof.
  intros Hz. apply (f_equal this) in Hz. cbn in Hz.
  apply (Qpower_not_0 10 (- s)); [discriminate|]. by rewrite <- Qred_correct, Hz.
Qed.

(** A value at the scale already is what casting it there leaves. *)
Lemma at_scale_rounded s z : at_scale rounded s (whole z * ulp s)%Qc = (whole z * ulp s)%Qc.
Proof.
  unfold at_scale. replace (whole z * ulp s / ulp s)%Qc with (whole z) by (field; apply ulp_nonzero).
  by rewrite rounded_whole.
Qed.

Lemma qlen_at_scale {A} (l : list A) : at_scale rounded 0 (qlen l) = qlen l.
Proof.
  replace (qlen l) with (whole (Z.of_nat (length l)) * ulp 0)%Qc at 1 2; [by rewrite at_scale_rounded|].
  change (ulp 0) with 1%Qc. apply Qcmult_1_r.
Qed.

Lemma floating_declared cut t q : is_floating t = true -> declared_at cut t q = Some q.
Proof. by destruct t. Qed.

Lemma number_of_floating t v lit : number_of t v = Some lit ->
  is_floating t = true /\ scalar_value lit = Some (DFloat v).
Proof. destruct t; try discriminate; by intros [= <-]. Qed.

(** ** The theorem *)
Section Decomposed.
Context (qsqrt : Qc -> Qc) (merge_m2 : list Triple -> Triple).
Context (null_scalar : DataType -> result string ScalarValue).

(** What the plan relies on DataFusion for: merging Welford states gives the state of all the
    values, and the NULL of a type is a NULL. *)
Definition merges_welford : Prop := forall parts,
  parts <> [] -> merge_m2 (map welford parts) = welford (concat parts).
Definition is_average (t : DataType) : bool :=
  match t with Decimal128 _ _ => true | _ => is_floating t end.
Definition null_is_null : Prop := forall t v, null_scalar t = Ok v -> scalar_value v = None.

Notation merge_states := (merge_states merge_m2).
Notation eval := (eval_finalize qsqrt).

Lemma column_of_init func (parts : list (list Qc)) i agg name :
  state (decomposition func) !! i = Some (name, agg) ->
  column_of i (map (init_states func) parts) = map (state_cell agg) parts.
Proof.
  intros Hi. unfold column_of. rewrite map_map. apply map_ext. intros p.
  apply nth_lookup_Some. unfold init_states. apply map_lookup_Some. by exists (name, agg).
Qed.

Lemma merged_sums (parts : list (list Qc)) :
  merge_cells PSum (map (state_cell PSum) parts) = folded_by Qcplus (concat parts).
Proof. apply folded_parts; intros; ring. Qed.

Lemma merged_counts (parts : list (list Qc)) : parts <> [] ->
  merge_cells PSum (map (state_cell PCount) parts) = Some (qlen (concat parts)).
Proof.
  intros Hne. unfold merge_cells.
  assert (Homap : omap id (map (state_cell PCount) parts) = map qlen parts)
    by (clear; induction parts as [|p parts IH]; [done|]; cbn; by f_equal).
  rewrite Homap, qplus_folded by (by destruct parts). by rewrite qlen_parts.
Qed.

Lemma merged_triples func parts : merges_welford -> is_welford {| output := ""; agg_func := func;
    agg_ddof := 0; positions := [] |} = true -> parts <> [] ->
  merge_states (merge (decomposition func)) (map (init_states func) parts)
  = [Some (qlen (concat parts)); Some (mean (concat parts)); Some (m2 (concat parts))].
Proof.
  intros Hm Hw Hne.
  assert (Htr : omap triple_of (map (init_states func) parts) = map welford parts).
  { clear -Hw. induction parts as [|p parts IH]; [done|]. destruct func; try done; cbn; by f_equal. }
  destruct func; try done; cbn; rewrite Htr, Hm by done; done.
Qed.

Lemma eval_state_column (keys merged : list cell) fields at_ offset e :
  length keys = at_ -> state_column fields at_ offset = Some e ->
  eval e (keys ++ merged) = Some (nth offset merged None).
Proof.
  intros <-. unfold state_column. destruct (fields !! offset); [|done]. intros [= <-]. cbn.
  rewrite app_nth2 by lia. do 2 f_equal. lia.
Qed.

(** What a dispersion's finalize is built of. *)
Lemma dispersion_finalize func ddof out_type fields at_ e c0 c2 : (func = Var \/ func = Stddev) ->
  state_column fields at_ 0 = Some c0 -> state_column fields at_ 2 = Some c2 ->
  finalize_expr null_scalar {| spec_func := func; spec_ddof := ddof |} fields at_ out_type = Some e ->
  exists dd zero nv, number_of out_type (inject_Z (Z.of_nat ddof)) = Some dd
  /\ number_of out_type 0%Q = Some zero /\ null_of null_scalar out_type = Some nv
  /\ let den := BinaryE (Cast c0 out_type) Minus (Literal dd) out_type in
     let quotient := BinaryE c2 Divide den out_type in
     e = Case None [(BinaryE den LtEq (Literal zero) Boolean, Literal nv)]
           (Some (match func with Stddev => UnaryE Sqrt quotient | _ => quotient end)).
Proof.
  intros Hfunc H0 H2 He. unfold finalize_expr in He. cbn [spec_func spec_ddof] in He.
  destruct Hfunc as [-> | ->]; rewrite H0, H2 in He; cbn [mbind option_bind] in He.
  all: destruct (number_of out_type (inject_Z (Z.of_nat ddof))) as [dd|]; [|done].
  all: cbn [mbind option_bind] in He; destruct (number_of out_type 0%Q) as [zero|]; [|done].
  all: cbn [mbind option_bind] in He; destruct (null_of null_scalar out_type) as [nv|]; [|done].
  all: injection He as <-; by exists dd, zero, nv.
Qed.

(** The finalize of a Welford pair over its merged triple. *)
Lemma eval_dispersion func ddof out_type l (keys : list cell) fields e :
  null_is_null -> (func = Var \/ func = Stddev) ->
  finalize_expr null_scalar {| spec_func := func; spec_ddof := ddof |} fields (length keys) out_type = Some e ->
  eval e (keys ++ [Some (qlen l); Some (mean l); Some (m2 l)])
  = Some (match func with Stddev => option_map qsqrt (dispersion ddof l) | _ => dispersion ddof l end).
Proof.
  intros Hnull Hfunc He. set (row := keys ++ _).
  destruct (state_column fields (length keys) 0) as [c0|] eqn:H0;
    [|destruct Hfunc as [-> | ->]; unfold finalize_expr in He; cbn in He; by rewrite H0 in He].
  destruct (state_column fields (length keys) 2) as [c2|] eqn:H2;
    [|destruct Hfunc as [-> | ->]; unfold finalize_expr in He; cbn in He; rewrite H0, H2 in He;
      cbn in He; by destruct (number_of _ _)].
  assert (E0 : eval c0 row = Some (Some (qlen l)))
    by (unfold row; by rewrite (eval_state_column _ _ fields (length keys) 0)).
  assert (E2 : eval c2 row = Some (Some (m2 l)))
    by (unfold row; by rewrite (eval_state_column _ _ fields (length keys) 2)).
  destruct (dispersion_finalize _ _ _ _ _ _ _ _ Hfunc H0 H2 He) as (dd & zero & nv & Hdd & Hzero & Hnv & ->).
  apply number_of_floating in Hdd as [Ht Hdd], Hzero as [_ Hzero].
  assert (Hnull' : scalar_value nv = None).
  { unfold null_of in Hnv. destruct (null_scalar out_type) as [w|] eqn:Hw; [|done].
    injection Hnv as <-. by eapply Hnull. }
  assert (Hden : eval (BinaryE (Cast c0 out_type) Minus (Literal dd) out_type) row
    = Some (Some (qlen l - Q2Qc (inject_Z (Z.of_nat ddof)))%Qc)).
  { cbn [eval_finalize]. rewrite E0. cbn [mbind option_bind declared_cell].
    rewrite floating_declared by done. cbn. unfold literal_cell. by rewrite Hdd. }
  set (den := BinaryE (Cast c0 out_type) Minus (Literal dd) out_type) in *. clearbody den.
  cbn [eval_finalize]. rewrite Hden. cbn [mbind option_bind]. unfold literal_cell. rewrite Hzero, Hnull'.
  unfold dispersion. cbn [mbind option_bind binary_cell]. change (Q2Qc 0) with 0%Qc.
  destruct (Qclt_le_dec 0%Qc (qlen l - Q2Qc (inject_Z (Z.of_nat ddof)))) as [Hlt|Hle].
  - assert (Hgt : length l <=? ddof = false).
    { apply Nat.leb_gt. apply Qclt_not_le in Hlt. rewrite denominator_le in Hlt. lia. }
    assert (Hq : eval (BinaryE c2 Divide den out_type) row
      = Some (Some (m2 l / (qlen l - Q2Qc (inject_Z (Z.of_nat ddof))))%Qc)).
    { cbn [eval_finalize]. rewrite E2, Hden. cbn. destruct (Qc_eq_dec _ _) as [Hz|].
      - rewrite Hz in Hlt. by apply Qclt_not_eq in Hlt.
      - by rewrite floating_declared. }
    cbn. rewrite Hgt. destruct Hfunc as [-> | ->]; [exact Hq|].
    cbn [eval_finalize] in Hq |- *. by rewrite Hq.
  - assert (Hgt : length l <=? ddof = true) by (by apply Nat.leb_le, denominator_le).
    cbn. rewrite Hgt. by destruct Hfunc as [-> | ->].
Qed.

(** The finalize of an average over its merged sum and count. *)
Lemma eval_average out_type l (keys : list cell) fields e :
  is_average out_type = true ->
  finalize_expr null_scalar {| spec_func := Avg; spec_ddof := 0 |} fields (length keys) out_type = Some e ->
  eval e (keys ++ [folded_by Qcplus l; Some (qlen l)]) = Some (aggregate_of qsqrt Avg 0 out_type l).
Proof.
  intros Ht He. unfold finalize_expr in He. cbn [spec_func] in He.
  destruct (state_column fields (length keys) 0) as [c0|] eqn:E0; [|done].
  destruct (state_column fields (length keys) 1) as [c1|] eqn:E1; [|done].
  cbn in He. injection He as <-.
  pose proof (eval_state_column keys [folded_by Qcplus l; Some (qlen l)] _ _ _ _ eq_refl E0) as H0.
  pose proof (eval_state_column keys [folded_by Qcplus l; Some (qlen l)] _ _ _ _ eq_refl E1) as H1.
  cbn [nth] in H0, H1. set (row := keys ++ _) in *.
  assert (Hz : l <> [] -> qlen l <> 0%Qc) by (intros Hl Hz; by apply Hl, qlen_zero).
  destruct out_type; try done; cbn [eval_finalize]; rewrite H0, H1; cbn [mbind option_bind declared_cell].
  1-3: rewrite floating_declared by done; destruct l as [|x l]; [done|]; rewrite qplus_folded by done;
    cbn; destruct (Qc_eq_dec _ _) as [Hq|]; [by apply Hz in Hq|done].
  cbn [declared_at]. rewrite qlen_at_scale. destruct l as [|x l]; [done|]. rewrite qplus_folded by done.
  cbn [fmap option_fmap option_map mbind option_bind binary_cell].
  destruct (Qc_eq_dec _ _) as [Hq|]; [by apply Hz in Hq|]. cbn. f_equal. f_equal.
  unfold at_scale at 2 3. by rewrite at_scale_rounded.
Qed.

(** C15: splitting a SQL aggregate does not change it.  However the values of a group are split over
    batches, finishing the merge of the batches' states gives the aggregate of all the values: the
    sums, extrema and counts by their column's aggregator, AVG by the quotient of two sums, the four
    dispersions by the Welford triple, NULL where the group has no more values than the degrees of
    freedom taken off.  For every output type a finalize is built for, an AVG's being a float or a
    Decimal128 (DataFusion declares no other): a decimal average is the exact quotient truncated to
    the declared scale, the cast around it changing nothing.  Over exact rationals, a decimal's
    precision and a float's rounding left out, for any merge of Welford states that is one. *)
Theorem decomposed_aggregate_is_the_aggregate func ddof out_type fields (keys : list cell) parts e :
  merges_welford -> null_is_null -> parts <> [] -> (func = Avg -> is_average out_type = true) ->
  finalize_expr null_scalar {| spec_func := func; spec_ddof := ddof |} fields (length keys) out_type = Some e ->
  eval e (keys ++ merge_states (merge (decomposition func)) (map (init_states func) parts))
  = Some (aggregate_of qsqrt func ddof out_type (concat parts)).
Proof.
  intros Hm Hn Hne Ht He.
  assert (Hmin : merge_cells PMin (map (state_cell PMin) parts) = folded_by qmin (concat parts))
    by (apply folded_parts; [apply qmin_assoc|apply qmin_comm]).
  assert (Hmax : merge_cells PMax (map (state_cell PMax) parts) = folded_by qmax (concat parts))
    by (apply folded_parts; [apply qmax_assoc|apply qmax_comm]).
  assert (Hcol : forall i agg name, state (decomposition func) !! i = Some (name, agg) ->
    column_of i (map (init_states func) parts) = map (state_cell agg) parts)
    by (intros; by eapply column_of_init).
  destruct func.
  all: try (rewrite merged_triples by done; etrans; [eapply eval_dispersion; [done| |exact He]; by auto|done]).
  all: cbn [merge decomposition merge_states imap fst] in *; unfold compose.
  all: repeat erewrite Hcol by done; rewrite ?merged_sums, ?merged_counts, ?Hmin, ?Hmax by done.
  5: by apply (eval_average out_type _ _ fields); auto.
  all: cbn [finalize_expr spec_func] in He; erewrite eval_state_column by done; done.
Qed.
End Decomposed.

(** ** Chan's formula merges Welford states *)
Definition chan (a b : Triple) : Triple :=
  let '(na, ma, da) := a in
  let '(nb, mb, db) := b in
  if Qc_eq_dec na 0%Qc then b else if Qc_eq_dec nb 0%Qc then a
  else let total := (na + nb)%Qc in
       (total, (na * ma + nb * mb) / total, da + db + (ma - mb) * (ma - mb) * na * nb / total)%Qc.

Definition chan_merge (states : list Triple) : Triple := foldr chan (0, 0, 0)%Qc states.

Definition squares (l : list Qc) : Qc := qsum (map (fun x => x * x)%Qc l).

Lemma about_a_point c l :
  qsum (map (fun x => (x - c) * (x - c))%Qc l) = (squares l - (c + c) * qsum l + qlen l * c * c)%Qc.
Proof.
  induction l as [|x l IH]; [cbn; change (qlen []) with 0%Qc; ring|].
  change (x :: l) with ([x] ++ l). unfold squares.
  rewrite !map_app, !qsum_app, qlen_app, IH. change (qlen [x]) with 1%Qc. unfold squares. cbn. ring.
Qed.

Lemma m2_squares l : qlen l <> 0%Qc -> m2 l = (squares l - qsum l * qsum l / qlen l)%Qc.
Proof. intros Hl. unfold m2. rewrite about_a_point. unfold mean. by field. Qed.

Lemma qlen_nonneg {A} (l : list A) : (0 <= qlen l)%Qc.
Proof. unfold qlen. change 0%Qc with (Q2Qc 0). rewrite q2qc_le. change 0%Q with (inject_Z 0). rewrite <- Zle_Qle. lia. Qed.

Lemma welford_nil : welford [] = (0, 0, 0)%Qc.
Proof. unfold welford, m2. cbn. by change (qlen []) with 0%Qc. Qed.

Lemma chan_welford l1 l2 : chan (welford l1) (welford l2) = welford (l1 ++ l2).
Proof.
  unfold chan. unfold welford at 1 2. destruct (Qc_eq_dec (qlen l1) 0%Qc) as [E1|E1].
  { by rewrite (qlen_zero _ E1). }
  destruct (Qc_eq_dec (qlen l2) 0%Qc) as [E2|E2]; [by rewrite (qlen_zero _ E2), app_nil_r|].
  assert (E12 : qlen (l1 ++ l2) <> 0%Qc).
  { intros E. apply qlen_zero, app_eq_nil in E as [-> _]. by destruct E1. }
  unfold welford. rewrite !m2_squares by done. unfold mean, squares.
  rewrite map_app, !qsum_app, !qlen_app in *.
  f_equal; [f_equal|]; field; auto.
Qed.

Lemma chan_merges_welford : merges_welford chan_merge.
Proof.
  intros parts _. induction parts as [|p parts IH]; [done|].
  cbn [map concat]. unfold chan_merge in *. cbn [foldr]. by rewrite IH, chan_welford.
Qed.

Definition demo_field (name : string) (t : DataType) : Field :=
  {| field_name := name; data_type := t; nullable := true |}.
Definition demo_null (t : DataType) : result string ScalarValue :=
  Ok {| scalar_type := t; scalar_value := None |}.
Definition demo_values : list (list Qc) := map (map (fun z => Q2Qc (inject_Z z))) [[1; 2]; []; [4; 7]]%Z.

(** ** A group over no rows *)

(** the value a keyless aggregate emits for each state column over no row at all is the state
    its aggregator builds from no values, in the type the plan declares for that column: NULL for a
    sum or an extremum, 0 for a count, and the Welford triple (0, 0, 0).  So merging it in changes
    nothing.  The aggregator with no empty state is the one no init runs. *)
Theorem empty_state_is_the_state_of_nothing null_scalar agg input v :
  (forall t w, null_scalar t = Ok w -> scalar_type w = t /\ scalar_value w = None) ->
  empty_state null_scalar agg input = Some (Ok v) ->
  state_type agg input = Some (Ok (scalar_type v)) /\ literal_cell v = Some (state_cell agg [])
  /\ agg <> PMergeM2.
Proof.
  intros Hnull Hv.
  assert (Hthree : forall st, state_type agg input = Some st ->
    (st ≫= fun t => map_err (fun e => Unsupported (tag agg +:+ ": no typed NULL of its state: " +:+ e))
              (null_scalar t)) = Ok v ->
    state_type agg input = Some (Ok (scalar_type v)) /\ literal_cell v = Some None).
  { intros st Hst (t & -> & Ht)%bind_ok. destruct (null_scalar t) as [w|] eqn:Hw; [|done].
    injection Ht as <-. destruct (Hnull _ _ Hw) as [<- Hval]. unfold literal_cell. by rewrite Hval. }
  destruct agg; try discriminate Hv.
  all: try (injection Hv as <-; split_and!; [done| |done]; unfold literal_cell; cbn; f_equal; f_equal;
    by apply Qc_is_canon).
  all: cbn [empty_state] in Hv; destruct (state_type _ input) as [st|] eqn:Hst; [|done].
  all: injection Hv as Hv; destruct (Hthree st eq_refl Hv) as [-> ->]; done.
Qed.

Lemma empty_state_is_the_state_of_nothing_witness :
  state_type PSum (Decimal128 34 2) = Some (Ok (Decimal128 38 2))
  /\ literal_cell {| scalar_type := Decimal128 38 2; scalar_value := None |} = Some (state_cell PSum [])
  /\ PSum <> PMergeM2.
Proof.
  apply (empty_state_is_the_state_of_nothing demo_null PSum (Decimal128 34 2)
    {| scalar_type := Decimal128 38 2; scalar_value := None |}).
  - by intros t w [= <-].
  - reflexivity.
Defined.

(** ** The finalize as a project *)
Definition straight_through (out : list Field) (k : nat) : list NamedExpr :=
  match out !! k with
  | Some f => [{| expr := expr_column k (field_name f); expr_name := field_name f |}]
  | None => []
  end.

Definition renamed (finalize : list NamedExpr) (out : list Field) : list NamedExpr :=
  zip_with (fun c f => {| expr := expr c; expr_name := field_name f |}) finalize out.

Lemma key_columns_exact st out ks cols :
  key_columns st out ks = Some (Ok cols) <->
  Forall (fun k => exists f, name_at out k = Some f /\ name_at st k = Some f) ks
  /\ cols = concat (map (straight_through (fields out)) ks).
Proof.
  revert cols. induction ks as [|k ks IH]; intros cols; cbn [key_columns map concat].
  { split; [intros [= <-]; by split|by intros [_ ->]]. }
  unfold straight_through at 1. unfold name_at in *. rewrite Forall_cons. split.
  - intros Hk. destruct (fields st !! k) as [a|] eqn:Ha; [|done].
    destruct (fields out !! k) as [b|] eqn:Hb; [|done]. cbn in Hk. case_bool_decide as Hn; [done|].
    destruct (key_columns st out ks) as [[rest|]|] eqn:Hr; [|done..]. injection Hk as <-.
    assert (field_name a = field_name b) as Hab by (by destruct (decide (field_name a = field_name b))).
    destruct (proj1 (IH rest) eq_refl) as [Hf ->]. rewrite Hab. split; [|done]. split; [|done].
    exists (field_name b). cbn. by rewrite Hab.
  - intros [[(f & Hb & Ha) Hf] ->]. rewrite Ha. cbn.
    destruct (fields out !! k) as [b|] eqn:Hbk; [|done]. injection Hb as <-. cbn.
    rewrite bool_decide_false by (by intros []). rewrite (proj2 (IH _) (conj Hf eq_refl)). done.
Qed.

Lemma finished_columns_exact out at_ fin cols : at_ + length fin <= length (fields out) ->
  finished_columns out at_ fin = Some cols <-> cols = renamed fin (drop at_ (fields out)).
Proof.
  revert at_ cols. induction fin as [|c fin IH]; intros at_ cols Hlen; cbn.
  { by split; [intros [= <-]|intros ->]. }
  cbn in Hlen. unfold name_at. destruct (fields out !! at_) as [f|] eqn:Hf; cycle 1.
  { apply lookup_ge_None in Hf. lia. }
  rewrite (drop_S _ _ _ Hf). cbn. destruct (finished_columns out (S at_) fin) as [rest|] eqn:Hr.
  - apply (IH (S at_) rest) in Hr; [|lia]. cbn. subst rest. by split; [intros [= <-]|intros ->].
  - by rewrite (proj2 (IH (S at_) (renamed fin (drop (S at_) (fields out))) ltac:(lia)) eq_refl) in Hr.
Qed.

(** the finish of an aggregate is a project of exactly the columns it declares, or an error:
    it succeeds when the keys and the finalize list are as many as the declared columns and the
    state names each key as the output does, and then it reads key k from state column k and puts
    each finalize expression under the declared name at its place. *)
Theorem finalize_columns_exact body st out cols :
  finalize_columns body st out = Some (Ok cols) <->
  exists fin, finalize body = Some fin
    /\ key_width body + length fin = length (fields out)
    /\ Forall (fun k => exists f, name_at out k = Some f /\ name_at st k = Some f) (seq 0 (key_width body))
    /\ cols = concat (map (straight_through (fields out)) (seq 0 (key_width body)))
              ++ renamed fin (drop (key_width body) (fields out)).
Proof.
  unfold finalize_columns. destruct (finalize body) as [fin|]; cbn; [|split; [done|by intros (? & ? & _)]].
  destruct (Nat.eqb_spec (key_width body + length fin) (length (fields out))) as [Hw|Hw]; cbn;
    [|split; [done|by intros (? & [= <-] & ? & _)]].
  destruct (finished_columns out (key_width body) fin) as [done_cols|] eqn:Hd; cycle 1.
  { by rewrite (proj2 (finished_columns_exact out (key_width body) fin _ ltac:(lia)) eq_refl) in Hd. }
  apply finished_columns_exact in Hd; [|lia]. subst done_cols.
  destruct (key_columns st out (seq 0 (key_width body))) as [[keys|e]|] eqn:Hk; cbn.
  - apply key_columns_exact in Hk as [Hf ->]. split.
    + intros [= <-]. by exists fin.
    + by intros (? & [= <-] & _ & _ & ->).
  - split; [done|]. intros (? & [= <-] & _ & Hf & _).
    by rewrite (proj2 (key_columns_exact st out _ _) (conj Hf eq_refl)) in Hk.
  - split; [done|]. intros (? & [= <-] & _ & Hf & _).
    by rewrite (proj2 (key_columns_exact st out _ _) (conj Hf eq_refl)) in Hk.
Qed.

(** ** Where a group's rows are *)
Section Groups.
Context {V : Type} (null : V) (place : nat -> list V -> nat) (value_cmp : bool -> bool -> V -> V -> comparison).
Notation Row := (list V).

Lemma key_at_subset ks cols (r1 r2 : Row) : (forall k, k ∈ ks -> k ∈ cols) ->
  key_at null cols r1 = key_at null cols r2 -> key_at null ks r1 = key_at null ks r2.
Proof.
  intros Hsub Hk. unfold key_at in *. apply map_ext_elem. intros k Hin.
  apply Hsub in Hin. apply list_elem_of_lookup in Hin as [i Hi].
  apply (f_equal (fun l => l !! i)) in Hk.
  rewrite !(proj2 (map_lookup_Some _ _ _ _)) in Hk by eauto. by injection Hk.
Qed.

(** Two rows that agree on the group columns are in one lane: either there is one or the rows were
    placed by a hash of group columns. *)
Lemma group_in_one_lane body intermediate input (lanes : list (list (list Row)))
    i j li lj ri rj :
  validate_aggregate_batches body intermediate input = Ok () -> is_Some (finalize body) ->
  layout_holds null place value_cmp (input_layout input) lanes ->
  map (@concat Row) lanes !! i = Some li -> map (@concat Row) lanes !! j = Some lj ->
  ri ∈ li -> rj ∈ lj ->
  key_at null (grouped_columns body) ri = key_at null (grouped_columns body) rj -> i = j.
Proof.
  intros Hv Hfin [Hn Hp _ _] Hi Hj Hri Hrj Hkey.
  apply bind_ok in Hv as ([] & _ & Hv). apply bind_ok in Hv as ([] & _ & Hv).
  apply ensure_ok in Hv. rewrite bool_decide_true in Hv by done.
  rewrite negb_andb, negb_involutive, !negb_andb in Hv.
  destruct (Nat.ltb_spec 1 (n (input_layout input))) as [Hlanes|Hlanes]; cbn [negb orb] in Hv.
  - destruct (key_distribution (input_layout input)) as [|ks]; [done|].
    cbn in Hv. rewrite forallb_forall in Hv.
    assert (Hks : key_at null ks ri = key_at null ks rj).
    { apply (key_at_subset _ (grouped_columns body)); [|done]. intros k Hk.
      apply (bool_decide_eq_true_1 _), Hv, list_elem_of_In, Hk. }
    cbn in Hp. rewrite <- (Hp i li ri Hi Hri), <- (Hp j lj rj Hj Hrj). by rewrite Hks.
  - apply lookup_lt_Some in Hi, Hj. rewrite length_map in Hi, Hj. lia.
Qed.

Lemma filter_concat_one {A} (P : A -> Prop) `{!forall x, Decision (P x)} (lanes : list (list A)) i lane :
  lanes !! i = Some lane ->
  (forall j lane' x, lanes !! j = Some lane' -> x ∈ lane' -> P x -> j = i) ->
  filter P (concat lanes) = filter P lane.
Proof.
  revert i. induction lanes as [|l lanes IH]; intros i Hi Hone; [done|]. cbn [concat].
  assert (Hno : forall l', (forall x, x ∈ l' -> ~ P x) -> filter P l' = []).
  { intros l' Hl'. induction l' as [|x l' IHl]; [done|]. rewrite filter_cons_False by (apply Hl', list_elem_of_here).
    apply IHl. intros y Hy. by apply Hl', list_elem_of_further. }
  rewrite filter_app. destruct i as [|i].
  - injection Hi as <-. rewrite (Hno (concat lanes)), app_nil_r; [done|].
    intros x (l' & [j Hj]%list_elem_of_lookup & Hx)%elem_of_concat HP.
    by specialize (Hone (S j) l' x Hj Hx HP).
  - rewrite (Hno l); [|intros x Hx HP; by specialize (Hone 0 l x eq_refl Hx HP)]. cbn [app].
    apply (IH i Hi). intros j l' x Hj Hx HP. specialize (Hone (S j) l' x Hj Hx HP). lia.
Qed.

(** C37: a finalizing merge the plan accepts sees every group whole: the rows of its input that agree
    with a row on the group columns are all in that row's lane, so the group gathered from every lane
    is the group of the one lane, and finishing each lane on its own finishes every group once.
    Either there is one lane or the rows were placed by a hash of group columns. *)
Theorem finalizing_merge_sees_whole_groups `{!EqDecision V} body intermediate input
    (lanes : list (list (list Row))) i li ri :
  validate_aggregate_batches body intermediate input = Ok () -> is_Some (finalize body) ->
  layout_holds null place value_cmp (input_layout input) lanes ->
  map (@concat Row) lanes !! i = Some li -> ri ∈ li ->
  let group := fun r => key_at null (grouped_columns body) r = key_at null (grouped_columns body) ri in
  (forall j lj rj, map (@concat Row) lanes !! j = Some lj -> rj ∈ lj -> group rj -> j = i)
  /\ filter group (concat (map (@concat Row) lanes)) = filter group li.
Proof.
  intros Hv Hfin Hl Hi Hri group.
  assert (Hone : forall j lj rj, map (@concat Row) lanes !! j = Some lj -> rj ∈ lj -> group rj -> j = i)
    by (intros; by eapply (group_in_one_lane body intermediate input lanes)).
  split; [done|]. by eapply filter_concat_one.
Qed.

(** *** The rows an aggregate emits: the keys of a row of the group, NULL where the grouping set
    leaves one out, and whatever follows them. *)
Context (eval : Expr -> Row -> V).

Definition masks (body : AggregateBody) : list (list bool) :=
  match grouping_sets body with [] => [[]] | sets => sets end.

Definition group_key (body : AggregateBody) (mask : list bool) (row : Row) : Row :=
  imap (fun at_ key => if default false (mask !! at_) then null else eval key row) (group_by body).

Definition emitted_of (body : AggregateBody) (lane : list Row) (out : Row) : Prop :=
  exists row mask rest, row ∈ lane /\ mask ∈ masks body /\ out = group_key body mask row ++ rest.

Lemma regrouped_key_follows body mask old new row rest : eval_reads_columns null eval ->
  mask ∈ masks body -> regrouped_key body old = Some new ->
  nth new (group_key body mask row ++ rest) null = nth old row null.
Proof.
  intros He Hmask Hk. unfold regrouped_key in Hk.
  destruct (position _ (group_by body)) as [at_|] eqn:Hpos; [|done]. cbn in Hk.
  destruct (is_excluded _ at_) eqn:Hex; [done|]. injection Hk as <-.
  apply position_Some in Hpos as (e & Hat & Hc).
  assert (Hkept : default false (mask !! at_) = false).
  { unfold masks in Hmask. destruct (grouping_sets body) as [|set sets].
    - by apply list_elem_of_singleton in Hmask as ->.
    - destruct (mask !! at_) as [[]|] eqn:Hm; [|done..].
      assert (Ht : is_excluded (set :: sets) at_ = true); [|congruence].
      apply existsb_elem. exists mask. by rewrite Hm. }
  assert (Hlook : group_key body mask row !! at_ = Some (eval e row)).
  { unfold group_key. rewrite list_lookup_imap, Hat. cbn. by rewrite Hkept. }
  rewrite app_nth1 by (by eapply lookup_lt_Some). rewrite (nth_lookup_Some _ _ _ _ Hlook).
  destruct e as [r| | | | | | |]; try done. apply Nat.eqb_eq in Hc. subst old. apply He.
Qed.

(** The hash an aggregate still declares is the one its rows are placed by: every hash column
    its input was scattered on that survives as a group key in every grouping set is read back at
    its place among the keys, and where one does not survive the claim is dropped. *)
Lemma regrouped_hash_holds l body (lanes lanes' : list (list Row)) :
  eval_reads_columns null eval -> hash_holds null place (key_distribution l) lanes ->
  Forall2 (fun lane lane' => forall out, out ∈ lane' -> emitted_of body lane out) lanes lanes' ->
  hash_holds null place (regrouped_key_distribution l body) lanes'.
Proof.
  intros He Hh Hl. unfold regrouped_key_distribution.
  destruct (key_distribution l) as [|ks]; [done|].
  destruct (mapM (regrouped_key body) ks) as [news|] eqn:Hm; [|done]. apply mapM_Some in Hm.
  cbn in Hh |- *. intros i lane' out Hi Hout. rewrite <- (Forall2_length _ _ _ Hl).
  destruct (Forall2_lookup_r _ _ _ _ _ Hl Hi) as (lane & Hlane & Hin).
  destruct (Hin out Hout) as (row & mask & rest & Hrow & Hmask & ->).
  rewrite <- (Hh i lane row Hlane Hrow). f_equal. unfold key_at.
  clear -He Hm Hmask. induction Hm as [|old new ks news Hk _ IH]; [done|]. cbn [map]. f_equal; [|exact IH].
  by eapply regrouped_key_follows.
Qed.
End Groups.

(** *** A merge over two lanes hashed on column 1, grouped on columns 1 and 0 *)
Definition demo_state : Schema :=
  {| fields := [demo_field "k" Int64; demo_field "g" Int64; demo_field "sum(x)" Int64];
     group_keys := [0; 1]; agg_state := [{| output := "sum(x)"; agg_func := Sum; agg_ddof := 0; positions := [2] |}] |}.
Definition demo_merge_body : AggregateBody :=
  {| group_by := [expr_column 1 "g"; expr_column 0 "k"]; grouping_sets := []; null_exprs := [];
     aggs := [{| call_func := PSum; call_args := [expr_column 2 "sum(x)"];
                 outputs := [demo_field "sum(x)" Int64] |}];
     finalize := Some [{| expr := expr_column 2 "sum(x)"; expr_name := "total" |}] |}.
Definition demo_rollup : AggregateBody :=
  {| group_by := [expr_column 1 "g"; expr_column 0 "k"]; grouping_sets := [[false; false]; [false; true]];
     null_exprs := []; aggs := []; finalize := None |}.
Definition demo_scattered : GpuNode := GpuEmpty (SourceKind demo_layout demo_state).

(** Three rows of the group (4, 9) in two batches of one lane, and a row of another group that hashes
    to the same lane. *)
Definition demo_grouped_lanes : list (list (list (list nat))) :=
  [[[[9; 4; 1]; [9; 4; 8]]; [[9; 2; 0]; [9; 4; 3]]]; [[[9; 5; 2]]]].

Lemma demo_grouped_layout_holds : layout_holds 0 demo_place demo_cmp demo_layout demo_grouped_lanes.
Proof. layout_holds_of demo_grouped_lanes. Qed.

Lemma finalizing_merge_sees_whole_groups_witness :
  validate_aggregate_batches demo_merge_body demo_state demo_scattered = Ok ()
  /\ layout_holds 0 demo_place demo_cmp (input_layout demo_scattered) demo_grouped_lanes
  /\ let group := fun r =>
       key_at 0 (grouped_columns demo_merge_body) r = key_at 0 (grouped_columns demo_merge_body) [9; 4; 8] in
     (forall j lj rj, map (@concat (list nat)) demo_grouped_lanes !! j = Some lj ->
        rj ∈ lj -> group rj -> j = 0)
     /\ filter group [[9; 4; 1]; [9; 4; 8]; [9; 2; 0]; [9; 4; 3]; [9; 5; 2]]
        = [[9; 4; 1]; [9; 4; 8]; [9; 4; 3]].
Proof.
  split; [reflexivity|]. split; [apply demo_grouped_layout_holds|].
  refine (finalizing_merge_sees_whole_groups 0 demo_place demo_cmp demo_merge_body demo_state demo_scattered
    demo_grouped_lanes 0 [[9; 4; 1]; [9; 4; 8]; [9; 2; 0]; [9; 4; 3]] [9; 4; 8] _ _ _ _ _); try reflexivity.
  - by eexists.
  - apply demo_grouped_layout_holds.
  - apply list_elem_of_further, list_elem_of_here.
Defined.

Example rollup_keeps_the_key_no_set_drops :
  regrouped_key_distribution demo_layout demo_rollup = ByHash [0].
Proof. reflexivity. Qed.

(** *** The variance of 1, 2, 4 and 7 from three batches, one of them empty *)
Definition demo_dispersion_state : list Field :=
  [demo_field "var(x)$count" Int64; demo_field "var(x)$mean" Float64; demo_field "var(x)$m2" Float64].

Definition demo_average_state : list Field :=
  [demo_field "avg(x)$sum" (Decimal128 25 2); demo_field "avg(x)$count" Int64].
Definition demo_thirds : list (list Qc) := map (map (fun z => Q2Qc (inject_Z z))) [[1; 2]; []; [-10]]%Z.

Lemma decomposed_aggregate_is_the_aggregate_witness :
  (exists e, finalize_expr demo_null {| spec_func := Var; spec_ddof := 1 |} demo_dispersion_state 1 Float32 = Some e
   /\ eval_finalize id e ([Some 1%Qc] ++ merge_states chan_merge (merge (decomposition Var))
                                          (map (init_states Var) demo_values))
      = Some (aggregate_of id Var 1 Float32 (concat demo_values)))
  /\ exists e, finalize_expr demo_null {| spec_func := Avg; spec_ddof := 0 |} demo_average_state 1
                 (Decimal128 19 6) = Some e
   /\ eval_finalize id e ([Some 1%Qc] ++ merge_states chan_merge (merge (decomposition Avg))
                                          (map (init_states Avg) demo_thirds))
      = Some (aggregate_of id Avg 0 (Decimal128 19 6) (concat demo_thirds)).
Proof.
  split; eexists; (split; [reflexivity|]).
  - eapply (decomposed_aggregate_is_the_aggregate id chan_merge demo_null Var 1 Float32
      demo_dispersion_state [Some 1%Qc]); try done; [exact chan_merges_welford|by intros t v [= <-]].
  - eapply (decomposed_aggregate_is_the_aggregate id chan_merge demo_null Avg 0 (Decimal128 19 6)
      demo_average_state [Some 1%Qc]); try done; [exact chan_merges_welford|by intros t v [= <-]].
Defined.

Example variance_of_demo_values :
  option_map this (aggregate_of id Var 1 Float64 (concat demo_values)) = Some (7 # 1)%Q.
Proof. vm_compute. reflexivity. Qed.

(** -7/3, truncated to six digits. *)
Example average_of_demo_thirds :
  option_map this (aggregate_of id Avg 0 (Decimal128 19 6) (concat demo_thirds)) = Some (-2333333 # 1000000)%Q.
Proof. vm_compute. reflexivity. Qed.
