(* ===== verification/ValidFacts.v ===== *)
(** * What a validated tree is

    [validate] accepts exactly the trees rooted in a sink, in canonical form, each node of which is
    [well_formed]: the checks say no more and no less than the requirements they name. *)
From stdpp Require Import strings.
From S2P Require Import Prelude Interval PlanIR PlanCommon PlanNodes Joins Aggregates Validate.
Open Scope nat_scope.

(** ** The tree under a node *)
Lemma descendants_eq node : descendants node = node :: concat (map descendants (children node)).
Proof. unfold descendants at 1. by rewrite fold_node_eq. Qed.

Lemma descendants_ind (P : GpuNode -> Prop) root :
  Forall P (descendants root) <-> P root /\ Forall (fun c => Forall P (descendants c)) (children root).
Proof.
  rewrite descendants_eq, Forall_cons. apply and_iff_compat_l.
  induction (children root) as [|c cs IH]; cbn; [split; constructor|].
  by rewrite Forall_app, Forall_cons, IH.
Qed.

Lemma validate_walk_ok root :
  validate_walk root = Ok () <-> Forall (fun node => validate_at node = Ok ()) (descendants root).
Proof.
  induction root as [root IH] using node_ind_children. rewrite descendants_ind.
  unfold validate_walk. rewrite fold_node_eq. fold validate_walk. cbv beta. unfold PlanResult. rewrite seq_ok, for_each_ok.
  rewrite Forall_forall. split; intros [Hl Hr]; split; try done; revert Hl Hr.
  - intros Hall _ c Hc. apply IH; [done|]. apply (Hall (validate_walk c)), elem_of_map. eauto.
  - intros _ Hall r (c & -> & Hc)%elem_of_map. apply IH; [done|]. by apply Hall.
Qed.

Lemma below_ok accept root :
  below accept root = true <-> exists node, node ∈ descendants root /\ accept node = true.
Proof.
  induction root as [root IH] using node_ind_children.
  unfold below. rewrite fold_node_eq. fold (below accept). cbv beta. rewrite descendants_eq, orb_true_iff. split.
  - intros [Ha|(b & (c & -> & Hc)%elem_of_map & Hb)%existsb_elem]; [exists root; set_solver|].
    apply IH in Hb as (node & Hn & Ha); [|done]. exists node. split; [|done].
    apply elem_of_cons. right. apply elem_of_concat. eexists. split; [apply elem_of_map; eauto|done].
  - intros (node & [->|Hn]%elem_of_cons & Ha); [by left|]. right.
    apply elem_of_concat in Hn as (l & (c & -> & Hc)%elem_of_map & Hn).
    apply existsb_elem. exists (below accept c). split; [apply elem_of_map|apply IH]; eauto.
Qed.

(** ** Each check says what it names *)
Lemma same_columns_ok ours theirs :
  (length ours =? length theirs) = true /\ forallb (fun '(a, b) => same_field a b) (zip ours theirs) = true
  <-> same_columns ours theirs.
Proof.
  unfold same_columns. revert theirs. induction ours as [|a ours IH]; intros [|b theirs]; cbn.
  - split; [constructor|done].
  - split; [by intros []|by inversion 1].
  - split; [by intros []|by inversion 1].
  - rewrite andb_true_iff. unfold same_field at 1. rewrite andb_true_iff, !bool_decide_eq_true.
    rewrite (Forall2_cons _ a ours b theirs), <- IH. naive_solver.
Qed.

Lemma holdable_ok node what schema : device_holdable_columns node what schema = Ok () <-> holdable schema.
Proof.
  unfold device_holdable_columns, holdable, PlanResult. rewrite for_each_ok, Forall_forall.
  apply forall_proper. intros f. apply imp_iff_compat_l. by destruct (unholdable (data_type f)).
Qed.

Lemma check_ordinal_ok node columns what ordinal :
  check_ordinal node columns what ordinal = Ok () <-> ordinal < columns.
Proof. unfold check_ordinal, PlanResult. by rewrite ensure_iff, Nat.ltb_lt. Qed.

Lemma ordinals_ok node columns what (l : list nat) :
  for_each (check_ordinal node columns what) l = Ok () <-> forall k, k ∈ l -> k < columns.
Proof. rewrite for_each_ok. by setoid_rewrite check_ordinal_ok. Qed.

Lemma annotated_ok node schema :
  annotated_state node schema = Ok () <-> forall st, st ∈ agg_state schema ->
    positions st <> [] /\ forall p, p ∈ positions st -> p < length (fields schema) /\ p ∉ group_keys schema.
Proof.
  unfold annotated_state, PlanResult. rewrite for_each_ok. apply forall_proper. intros st.
  apply imp_iff_compat_l. rewrite !seq_ok, !ensure_iff, ordinals_ok, !negb_true_iff, bool_decide_eq_false.
  apply and_iff_compat_l. split.
  - intros [Hlt Hex] p Hp. split; [by apply Hlt|]. intros Hk.
    enough (Ht : existsb (fun p => bool_decide (p ∈ group_keys schema)) (positions st) = true)
      by congruence. apply existsb_elem. exists p. by rewrite bool_decide_true.
  - intros Hp. split; [intros k Hk; by apply Hp|]. apply existsb_false. intros k Hk.
    apply bool_decide_eq_false. by apply Hp.
Qed.

Lemma device_ok node schema : kind_schema (kind node) = Some schema ->
  device_holdable_types node = Ok () <->
  holdable schema /\ forall s, intermediate_of node = Some s -> holdable s.
Proof.
  intros Hs. unfold device_holdable_types, PlanResult. rewrite Hs, seq_ok, holdable_ok.
  apply and_iff_compat_l. destruct node; cbn; rewrite ?holdable_ok; naive_solver.
Qed.

Lemma width_ok node schema : kind_schema (kind node) = Some schema ->
  declared_width node = Ok () <-> forall w, produced_width node = Some w -> length (fields schema) = w.
Proof.
  intros Hs. unfold declared_width, PlanResult. rewrite Hs. destruct (produced_width node) as [w|].
  - rewrite ensure_iff, Nat.eqb_eq. naive_solver.
  - naive_solver.
Qed.

Lemma carries_ok node :
  types_across_the_edge node = Ok () <-> forall input, carried node = Some input ->
    same_columns (fields (input_schema node)) (fields (input_schema input)).
Proof.
  unfold types_across_the_edge, PlanResult. destruct (carried node) as [i|]; [|naive_solver].
  rewrite seq_ok, !ensure_iff, same_columns_ok. naive_solver.
Qed.

Lemma earned_ok node layout : kind_layout (kind node) = Some layout ->
  earned_claims node = Ok () <->
  (forall keys, key_distribution layout = ByHash keys ->
     exists below_, below_ ∈ descendants node /\ scatters below_ = true)
  /\ (is_batch_sorted (sort_order layout) = true ->
     exists below_, below_ ∈ descendants node /\ sorts below_ = true).
Proof.
  intros Hl. unfold earned_claims, PlanResult. rewrite Hl, seq_ok, !ensure_iff.
  setoid_rewrite <- (below_ok scatters node). setoid_rewrite <- (below_ok sorts node).
  destruct (below scatters node), (below sorts node), (key_distribution layout) as [|ks],
    (is_batch_sorted (sort_order layout)); cbn; naive_solver.
Qed.

Lemma hash_ok node columns kd :
  match kd with
  | ByHash hash_keys => for_each (check_ordinal node columns "hash key") hash_keys
  | KeysNotSpecified => Ok ()
  end = Ok () <-> forall keys k, kd = ByHash keys -> k ∈ keys -> k < columns.
Proof. destruct kd as [|ks]; [naive_solver|]. rewrite ordinals_ok. naive_solver. Qed.

Lemma order_ok node columns so :
  match so with
  | BatchSorted orders => for_each (fun order => check_ordinal node columns "sort key" (column order)) orders
  | OrderNotSpecified => Ok ()
  end = Ok () <-> forall orders o, so = BatchSorted orders -> o ∈ orders -> column o < columns.
Proof.
  destruct so as [|os]; [naive_solver|]. rewrite for_each_ok. setoid_rewrite check_ordinal_ok. naive_solver.
Qed.

Record declared_in_range (layout : PartitionLayout) (schema : Schema) : Prop := {
  lane_count : n layout <> 0;
  hash_range : forall keys k, key_distribution layout = ByHash keys -> k ∈ keys -> k < length (fields schema);
  order_range : forall orders o, sort_order layout = BatchSorted orders -> o ∈ orders ->
    column o < length (fields schema);
  group_range : forall k, k ∈ group_keys schema -> k < length (fields schema);
  state_range : forall st, st ∈ agg_state schema ->
    positions st <> [] /\ forall p, p ∈ positions st -> p < length (fields schema) /\ p ∉ group_keys schema }.

Lemma structural_ok node :
  structural node = Ok () <->
  (forall child, child ∈ children node -> kind child <> Sink)
  /\ (forall layout schema, kind node = SourceKind layout schema -> children node = [])
  /\ (forall layout schema, kind node = Intermediate layout schema -> children node <> [])
  /\ (forall layout schema, kind_layout (kind node) = Some layout ->
        kind_schema (kind node) = Some schema -> declared_in_range layout schema).
Proof.
  unfold structural, PlanResult. rewrite seq_ok, for_each_ok. setoid_rewrite ensure_iff.
  setoid_rewrite negb_true_iff. apply and_iff.
  { apply forall_proper. intros c. apply imp_iff_compat_l. destruct (kind c); naive_solver. }
  rewrite seq_ok, <- Logic.and_assoc. apply and_iff.
  { case_bool_decide as Hc; destruct (kind node); naive_solver. }
  assert (Hrange : forall layout schema,
    (ensure (negb (n layout =? 0))
      (Invalid (node_name node +:+ ": no lanes, so it declares rows nothing can read")) ≫= fun _ =>
    match key_distribution layout with
    | ByHash hash_keys => for_each (check_ordinal (node_name node) (length (fields schema)) "hash key") hash_keys
    | KeysNotSpecified => Ok ()
    end ≫= fun _ =>
    match sort_order layout with
    | BatchSorted orders =>
        for_each (fun order => check_ordinal (node_name node) (length (fields schema)) "sort key" (column order)) orders
    | OrderNotSpecified => Ok ()
    end ≫= fun _ =>
    for_each (check_ordinal (node_name node) (length (fields schema)) "group key") (group_keys schema) ≫= fun _ =>
    annotated_state (node_name node) schema) = Ok () <-> declared_in_range layout schema).
  { intros layout schema. unfold PlanResult.
    rewrite !seq_ok, ensure_iff, hash_ok, order_ok, ordinals_ok, annotated_ok, negb_true_iff, Nat.eqb_neq.
    split; [intros (? & ? & ? & ? & ?)|intros []]; [constructor|split_and!]; done. }
  destruct (kind node) as [layout schema|layout schema|]; cbn.
  - rewrite Hrange. naive_solver.
  - rewrite Hrange. naive_solver.
  - naive_solver.
Qed.

Lemma declares_ok node schema : kind_schema (kind node) = Some schema ->
  declares_a_column node = Ok () <-> fields schema <> [].
Proof.
  intros Hs. unfold declares_a_column, PlanResult. rewrite Hs, ensure_iff.
  by destruct (fields schema).
Qed.

Lemma sink_ok node : kind node = Sink ->
  declares_a_column node = Ok () /\ declared_width node = Ok () /\ device_holdable_types node = Ok ()
  /\ earned_claims node = Ok ().
Proof.
  intros Hk. unfold declares_a_column, declared_width, device_holdable_types, earned_claims. by rewrite Hk.
Qed.

Lemma layout_and_schema k : k = Sink \/ exists layout schema,
  kind_layout k = Some layout /\ kind_schema k = Some schema.
Proof. destruct k; eauto. Qed.

Lemma validate_at_ok node : validate_at node = Ok () <-> well_formed node.
Proof.
  unfold validate_at, PlanResult. rewrite !seq_ok, structural_ok, carries_ok.
  destruct (layout_and_schema (kind node)) as [Hk|(layout & schema & Hl & Hs)].
  - destruct (sink_ok node Hk) as (-> & -> & -> & ->). rewrite Hk. split.
    + intros (? & _ & (? & ? & ? & _) & _ & _ & ? & _). split; try done; by rewrite Hk.
    + intros [? ? _ ? ? ?]. split_and!; done.
  - rewrite (declares_ok _ _ Hs), (width_ok _ _ Hs), (device_ok _ _ Hs), (earned_ok _ _ Hl). split.
    + intros (? & ? & (? & ? & ? & Hr) & ? & [? ?] & ? & ? & ?).
      destruct (Hr layout schema Hl Hs). split; try done.
      rewrite Hl, Hs. intros ? ? [= <-] [= <-]. split; [constructor|]; done.
    + intros [? ? Hd ? ? ?]. destruct (Hd layout schema Hl Hs) as [[] ?]. split_and!; try done.
      rewrite Hl, Hs. intros ? ? [= <-] [= <-]. constructor; done.
Qed.

(** *** The canonical form *)
Lemma limit_positions_ok node parent_is_sink :
  limit_positions node parent_is_sink = Ok () <->
  (parent_is_sink = true -> row_interval node = None)
  /\ Forall (fun c => limit_positions c (is_sink (kind node)) = Ok ()) (children node).
Proof.
  unfold limit_positions at 1. rewrite fold_node_eq. fold limit_positions. cbv beta. unfold PlanResult.
  rewrite seq_ok, for_each_ok, ensure_iff, Forall_forall. apply and_iff.
  - rewrite negb_true_iff, andb_false_iff, bool_decide_eq_false. destruct parent_is_sink; [|naive_solver].
    destruct (row_interval node) as [i|]; split; [|by intros H; specialize (H eq_refl)|done|].
    + intros [H|]; [|done]. destruct H. eauto.
    + intros _. left. by intros [].
  - split.
    + intros Hall c Hc. apply (Hall (limit_positions c)), elem_of_map. eauto.
    + intros Hall kid (c & -> & Hc)%elem_of_map. by apply Hall.
Qed.

Lemma device_positions node parent_is_sink :
  Forall (fun d => kind d <> Sink) (descendants node) ->
  limit_positions node parent_is_sink = Ok () <-> (parent_is_sink = true -> row_interval node = None).
Proof.
  revert parent_is_sink. induction node as [node IH] using node_ind_children. intros b [Hk Hc]%descendants_ind.
  rewrite limit_positions_ok. split; [by intros []|]. intros Hb. split; [done|].
  rewrite Forall_forall in Hc |- *. intros c Hin. apply IH; [done|by apply Hc|]. by destruct (kind node).
Qed.

Lemma sinks_at_root root : Forall well_formed (descendants root) ->
  Forall (fun c => Forall (fun d => kind d <> Sink) (descendants c)) (children root).
Proof.
  induction root as [root IH] using node_ind_children. intros [Hr Hc]%descendants_ind.
  rewrite Forall_forall in Hc |- *. intros c Hin. apply descendants_ind. split.
  - by apply (inputs_on_device _ Hr).
  - apply IH; [done|]. by apply Hc.
Qed.

(** C17: validation accepts exactly the well-formed trees.  A plan passes when its root is the
    crossing back to the host, no limit feeds it directly, and every node under it meets its own
    requirements of its inputs, reads inputs still on the device, is a leaf just when it is a source,
    declares at least one lane and one column, of a type the device holds, as many as its parameters
    produce, every ordinal of its hash, order, keys and state among them, carries its input's
    columns unchanged where it moves rows, and claims a hash or an order only over a scatter or a
    sort; and it is refused otherwise. *)
Theorem validate_accepts_exactly_the_well_formed root :
  validate root = Ok () <->
  kind root = Sink /\ (forall c, c ∈ children root -> row_interval c = None)
  /\ forall node, node ∈ descendants root -> well_formed node.
Proof.
  unfold validate, check_canonical_form, PlanResult.
  rewrite !seq_ok, ensure_iff, validate_walk_ok, <- (Forall_forall well_formed).
  setoid_rewrite validate_at_ok.
  assert (Hpos : kind root = Sink -> Forall well_formed (descendants root) ->
    limit_positions root false = Ok () <-> forall c, c ∈ children root -> row_interval c = None).
  { intros Hk Hd%sinks_at_root. rewrite limit_positions_ok, Hk, Forall_forall. cbn.
    rewrite Forall_forall in Hd. split.
    - intros [_ Hl] c Hc. by apply (device_positions c true); [apply Hd|apply Hl|].
    - intros Hl. split; [done|]. intros c Hc. apply device_positions; [by apply Hd|]. intros _. by apply Hl. }
  assert (Hsink : is_sink (kind root) = true <-> kind root = Sink) by (by destruct (kind root)).
  rewrite Hsink. split; intros (Hk & Hl & Hw); (split; [|split]); try done; by apply Hpos.
Qed.
