(* ===== verification/Denote.v ===== *)
(** * What the nodes of a plan answer

    [computes node lanes]: the lanes of batches of rows a node may answer, given what its inputs
    answer.  It is the contract the executors of either backend keep, left as loose as they leave
    it: a merge may interleave its lanes' batches anyhow, a scatter may cut a batch anyhow, a sort
    may break ties anyhow.  The values, the expressions, the join conditions, where a key's values
    are placed and what a scan reads are parameters. *)
From stdpp Require Import strings.
From Stdlib Require Import Sorted.
From S2P Require Import Prelude Interval PlanIR PlanCommon PlanNodes Claims Joins Aggregates Validate JoinFacts AggFacts.
Open Scope nat_scope.

(** ** A node as its constructor declares it *)
Definition rebuild (node : GpuNode) : GpuNode :=
  let schema := input_schema node in
  match node with
  | GpuLoadParquet _ table file projection groups survivors nulls =>
      new_load_parquet table projection groups
        {| scan_file := file; scan_groups := survivors; scan_can_be_null := nulls |} schema
  | GpuEmpty _ => new_empty schema
  | GpuFilter _ predicate projection input => new_filter input predicate projection schema
  | GpuProject _ exprs input => new_project input exprs schema
  | GpuSort _ keys fetch input => new_sort input keys fetch
  | GpuCoalesceAllBatches _ input => new_coalesce_all_batches input
  | GpuAccumulateBatchesAndSort _ keys fetch input => new_accumulate_batches_and_sort input keys fetch
  | GpuLimit _ interval input => new_limit input interval
  | GpuAggregate _ body intermediate input => new_aggregate input body intermediate schema
  | GpuAggregateBatches _ body intermediate input => new_aggregate_batches input body intermediate schema
  | GpuHashJoin _ jt keys filter columns nulls projection build probe =>
      new_hash_join build probe jt keys filter columns nulls projection schema
  | GpuCrossJoin _ projection build probe => new_cross_join build probe projection schema
  | GpuNestedLoopJoin _ jt filter columns projection build probe =>
      new_nested_loop_join build probe jt filter columns projection schema
  | GpuMergePartitions _ input => new_merge_partitions input
  | GpuEmitPartitions _ hash_keys input =>
      new_emit_partitions input hash_keys (n (input_layout node))
  | GpuMergeSortedPartitions _ keys fetch input => new_merge_sorted_partitions input keys fetch
  | GpuUnion _ branches => new_union branches schema
  | GpuInterleave _ branches => new_interleave branches schema
  | GpuUnload _ interval input => new_unload input interval
  end.

(** Every node is what its constructor makes of its inputs, and a scatter has a key. *)
Definition built (node : GpuNode) : Prop :=
  rebuild node = node
  /\ match node with GpuEmitPartitions _ hash_keys _ => hash_keys <> [] | _ => True end.

Section Denote.
Context {V : Type} (null : V) (mark : bool -> V).
Context (place : nat -> list V -> nat) (value_cmp : bool -> bool -> V -> V -> comparison).
Context (eval : Expr -> list V -> V) (keep : Expr -> list V -> bool).
(** Whether two rows join: the keys, the residual with its columns' map, NULL = NULL. *)
Context (joins : list (nat * nat) -> option Expr -> list JoinFilterColumn -> bool -> list V -> list V -> bool).
Context (read_rows : string -> list nat -> list nat -> list (list V)).
Notation Row := (list V).
Notation Batch := (list Row).
Notation Lane := (list Batch).

Definition filter_batch (predicate : Expr) (projection : option (list nat)) (batch : Batch) : Batch :=
  let kept := List.filter (keep predicate) batch in
  match projection with Some columns => map (key_at null columns) kept | None => kept end.

Definition cut_rows (fetch : option N) (rows : Batch) : Batch :=
  match fetch with Some f => take (N.to_nat f) rows | None => rows end.

Definition sorted_rows (keys : list ColumnOrder) (fetch : option N) (rows out : Batch) : Prop :=
  exists sorted, sorted ≡ₚ rows /\ StronglySorted (row_le null value_cmp keys) sorted
    /\ out = cut_rows fetch sorted.

(** One batch of everything a lane held, none where nothing came. *)
Definition one_batch_of (f : Batch -> Batch -> Prop) (lane out : Lane) : Prop :=
  match lane with
  | [] => out = []
  | _ => exists batch, out = [batch] /\ f (concat lane) batch
  end.

(** A row an aggregate emits for a lane: of a group of the lane's rows or, without keys, the row
    owed over none. *)
Definition agg_row (body : AggregateBody) (lane : list Row) (out : Row) : Prop :=
  length out = aggregate_width body
  /\ (emitted_of null eval body lane out \/ group_by body = [] /\ grouping_sets body = [])
  /\ (grouping_sets body <> [] -> nth (length (group_by body)) out null <> null).

Definition joined_lane (jt : JoinType) (on : Row -> Row -> bool) (build probe : GpuNode)
    (projection : option (list nat)) (b p : list Row) : list Row :=
  map (kept_columns null projection) (joined null mark on (width_of build) (width_of probe) jt b p).

Inductive computes : GpuNode -> list Lane -> Prop :=
| C_load k table file projection groups survivors nulls :
    computes (GpuLoadParquet k table file projection groups survivors nulls)
      (map (map (read_rows file projection)) groups)
| C_empty k : computes (GpuEmpty k) [[]]
| C_filter k predicate projection input lanes :
    computes input lanes ->
    computes (GpuFilter k predicate projection input) (map (map (filter_batch predicate projection)) lanes)
| C_project k exprs input lanes :
    computes input lanes ->
    computes (GpuProject k exprs input) (map (map (map (project eval (map expr exprs)))) lanes)
| C_sort k keys fetch input lanes out :
    computes input lanes -> Forall2 (Forall2 (sorted_rows keys fetch)) lanes out ->
    computes (GpuSort k keys fetch input) out
| C_coalesce k input lanes out :
    computes input lanes -> Forall2 (one_batch_of eq) lanes out ->
    computes (GpuCoalesceAllBatches k input) out
| C_accumulate_sort k keys fetch input lanes out :
    computes input lanes -> Forall2 (one_batch_of (sorted_rows keys fetch)) lanes out ->
    computes (GpuAccumulateBatchesAndSort k keys fetch input) out
| C_limit k iv input lane :
    computes input [lane] ->
    computes (GpuLimit k iv input) [limit_run {| interval := iv; seen := 0 |} lane]
| C_aggregate k body intermediate input lanes out :
    computes input lanes ->
    Forall2 (fun lane out => length out <= Nat.max 1 (length lane)
      /\ forall row, row ∈ concat out -> agg_row body (concat lane) row) lanes out ->
    computes (GpuAggregate k body intermediate input) out
| C_aggregate_batches k body intermediate input lanes out :
    computes input lanes ->
    Forall2 (fun lane out => length out <= 1
      /\ forall row, row ∈ concat out -> agg_row body (concat lane) row) lanes out ->
    computes (GpuAggregateBatches k body intermediate input) out
| C_hash_join k jt keys filter columns nulls projection build probe bs ps out :
    computes build bs -> computes probe ps ->
    Forall2 (fun rows lane => concat lane ≡ₚ rows)
      (zip_with (joined_lane jt (joins keys filter columns nulls) build probe projection)
         (map (@concat Row) bs) (map (@concat Row) ps)) out ->
    computes (GpuHashJoin k jt keys filter columns nulls projection build probe) out
| C_cross_join k projection build probe b p lane :
    computes build [b] -> computes probe [p] ->
    concat lane ≡ₚ joined_lane Inner (fun _ _ => true) build probe projection (concat b) (concat p) ->
    computes (GpuCrossJoin k projection build probe) [lane]
| C_nested_loop_join k jt filter columns projection build probe b p lane :
    computes build [b] -> computes probe [p] ->
    concat lane ≡ₚ joined_lane jt (joins [] (Some filter) columns false) build probe projection
                     (concat b) (concat p) ->
    computes (GpuNestedLoopJoin k jt filter columns projection build probe) [lane]
| C_merge k input lanes out :
    computes input lanes -> out ≡ₚ concat lanes ->
    computes (GpuMergePartitions k input) [out]
| C_emit k hash_keys input lane out :
    computes input [lane] ->
    length out = n (input_layout (GpuEmitPartitions k hash_keys input)) ->
    placed null place hash_keys (map (@concat Row) out) ->
    concat (map (@concat Row) out) ≡ₚ concat lane ->
    computes (GpuEmitPartitions k hash_keys input) out
| C_merge_sorted k keys fetch input lanes out :
    computes input lanes -> one_batch_of (sorted_rows keys fetch) (concat lanes) out ->
    computes (GpuMergeSortedPartitions k keys fetch input) [out]
| C_union k branches answers :
    Forall2 computes branches answers -> computes (GpuUnion k branches) (concat answers)
| C_interleave k branches answers out :
    Forall2 computes branches answers ->
    (forall lanes, lanes ∈ answers -> length lanes = length out) ->
    (forall i lane, out !! i = Some lane ->
       lane ≡ₚ concat (omap (fun lanes : list Lane => lanes !! i) answers)) ->
    computes (GpuInterleave k branches) out.
End Denote.
