(* ===== verification/PlanSound.v ===== *)
(** * The layouts a plan declares are the layouts its lanes have

    For a validated tree of nodes as their constructors build them: whatever lanes a node answers
    ([computes]), the [PartitionLayout] it declares holds of them, and their rows are as wide as its
    schema.  One lemma per node, by induction over the tree. *)
From stdpp Require Import strings.
From Stdlib Require Import Sorted.
From S2P Require Import Prelude Interval PlanIR PlanCommon PlanNodes Claims Joins Aggregates Validate.
From S2P Require Import JoinFacts AggFacts ValidFacts Denote.
Open Scope nat_scope.

Section Sound.
Context {V : Type} (null : V) (mark : bool -> V).
Context (place : nat -> list V -> nat) (value_cmp : bool -> bool -> V -> V -> comparison).
Context (eval : Expr -> list V -> V) (keep : Expr -> list V -> bool).
Context (joins : list (nat * nat) -> option Expr -> list JoinFilterColumn -> bool -> list V -> list V -> bool).
Context (read_rows : string -> list nat -> list nat -> list (list V)).
Notation Row := (list V).
Notation Batch := (list Row).
Notation Lane := (list Batch).
Notation layout_holds := (layout_holds null place value_cmp).
Notation hash_holds := (hash_holds null place).
Notation order_holds := (order_holds null value_cmp).

Definition widths (w : nat) (lanes : list Lane) : Prop :=
  forall lane row, lane ∈ lanes -> row ∈ concat lane -> length row = w.

(** A hash is of some key: what keeps a row with no keys out of a hashed lane. *)
Definition keyed (kd : KeyDistribution) : Prop := kd <> ByHash [].

Record sound (node : GpuNode) (lanes : list Lane) : Prop := {
  layout_sound : layout_holds (input_layout node) lanes;
  width_sound : widths (width_of node) lanes;
  keys_sound : keyed (key_distribution (input_layout node)) }.

(** ** Lanes whose rows came from lanes *)
Lemma placed_or_none kd (rows : list (list Row)) out :
  Forall2 (fun rows lane => concat lane ≡ₚ rows) rows out ->
  hash_holds kd rows -> hash_holds kd (map (@concat Row) out).
Proof.
  intros Ho. destruct kd as [|ks]; [done|]. apply placed_sub.
  induction Ho as [|r o rows out Hp _ IH]; cbn; constructor; [|done].
  intros row Hr. exists row. by rewrite <- Hp.
Qed.

Definition among (lane out : Lane) : Prop := forall row, row ∈ concat out -> row ∈ concat lane.

Lemma hash_among kd lanes out :
  Forall2 among lanes out -> hash_holds kd (map (@concat Row) lanes) -> hash_holds kd (map (@concat Row) out).
Proof.
  intros Ho. destruct kd as [|ks]; [done|]. apply placed_sub.
  induction Ho as [|lane o lanes out Ha _ IH]; cbn; constructor; [|done].
  intros row Hr. exists row. split; [by apply Ha|done].
Qed.

Lemma widths_among w lanes out : Forall2 among lanes out -> widths w lanes -> widths w out.
Proof.
  intros Ho Hw lane row Hl Hr. apply list_elem_of_lookup in Hl as [i Hi].
  destruct (Forall2_lookup_r _ _ _ _ _ Ho Hi) as (lane0 & H0 & Ha). apply (Hw lane0); [|by apply Ha].
  by eapply list_elem_of_lookup_2.
Qed.

Lemma among_batches (R : Batch -> Batch -> Prop) lane out :
  (forall b o, R b o -> forall row, row ∈ o -> row ∈ b) -> Forall2 R lane out -> among lane out.
Proof.
  intros HR Ho row (o & Hin & Hr)%elem_of_concat. apply list_elem_of_lookup in Hin as [i Hi].
  destruct (Forall2_lookup_r _ _ _ _ _ Ho Hi) as (b & Hb & Hbo). apply elem_of_concat. exists b.
  split; [by eapply list_elem_of_lookup_2|by eapply HR].
Qed.

Lemma among_one_batch (R : Batch -> Batch -> Prop) lane out :
  (forall b o, R b o -> forall row, row ∈ o -> row ∈ b) -> one_batch_of R lane out -> among lane out.
Proof.
  intros HR Ho row Hr. destruct lane as [|b lane]; cbn in Ho; [by subst out|].
  destruct Ho as (o & -> & Hbo). cbn in Hr. rewrite app_nil_r in Hr. by eapply HR.
Qed.

Lemma one_batch_length (R : Batch -> Batch -> Prop) lane out :
  one_batch_of R lane out -> length out <= 1.
Proof. destruct lane as [|b lane]; [by intros ->; cbn; lia|]. intros (o & -> & _). done. Qed.

Lemma sorted_rows_among keys fetch b o row :
  sorted_rows null value_cmp keys fetch b o -> row ∈ o -> row ∈ b.
Proof.
  intros (s & Hp & _ & ->). rewrite <- Hp. unfold cut_rows. destruct fetch; [|done].
  intros Hr. by eapply elem_of_take in Hr as (i & Hi%list_elem_of_lookup_2 & _).
Qed.

Lemma sorted_rows_ordered keys fetch b o :
  sorted_rows null value_cmp keys fetch b o -> order_holds (batch_sorted keys) o.
Proof.
  intros (s & _ & Hs & ->). unfold batch_sorted. destruct keys as [|k keys]; [done|]. cbn.
  unfold cut_rows. destruct fetch; [|done]. eapply StronglySorted_sublist; [|exact Hs].
  apply sublist_take.
Qed.

(** A row rewritten lane by lane. *)
Lemma layout_filter l lanes (f : Row -> bool) :
  layout_holds l lanes -> layout_holds l (map (map (List.filter f)) lanes).
Proof.
  intros [Hn Hh Ho Hb]. split.
  - by rewrite length_map.
  - eapply hash_among; [|exact Hh]. apply Forall2_self_map. intros lane _.
    eapply (among_batches (fun b o => o = List.filter f b)); [|by apply Forall2_self_map].
    intros b o -> row [Hr _]%elem_of_filterb. done.
  - intros ? ? (lane & -> & Hl)%elem_of_map (batch & -> & Hin)%elem_of_map. specialize (Ho lane batch Hl Hin).
    destruct (sort_order l) as [|cols]; [done|]. cbn in *. eapply StronglySorted_sublist; [|exact Ho].
    clear. induction batch as [|x b IH]; cbn; [constructor|]. destruct (f x); by constructor.
  - intros ? (lane & -> & Hl)%elem_of_map. specialize (Hb lane Hl). destruct (batch_layout l); [|done].
    cbn in *. by rewrite length_map.
Qed.

(** ** What a node's own checks give *)
Lemma width_is_produced node w :
  well_formed node -> kind node <> Sink -> produced_width node = Some w -> width_of node = w.
Proof.
  intros Hw Hk Hp. destruct (layout_and_schema (kind node)) as [|(layout & schema & Hl & Hs)]; [done|].
  destruct (declares _ Hw layout schema Hl Hs) as [Hd _]. rewrite <- (width_produced _ _ _ Hd w Hp).
  unfold width_of, input_schema. by rewrite Hs.
Qed.

Lemma width_is_carried node input :
  well_formed node -> carried node = Some input -> width_of node = width_of input.
Proof. intros Hw Hc. unfold width_of. eapply Forall2_length. by apply (carries _ Hw). Qed.

Lemma not_sink node : built node -> kind node <> Sink \/ exists k iv i, node = GpuUnload k iv i.
Proof.
  intros [Hb _]. assert (Hk : kind (rebuild node) = kind node) by (by rewrite Hb).
  destruct node; cbn in Hk |- *; first [by right; eauto|by left; rewrite <- Hk].
Qed.

(** The layout declared is the constructor's. *)
Ltac declared_layout Hb node :=
  let H := fresh "Hl" in
  assert (H : input_layout node = input_layout (rebuild node)) by (by rewrite Hb);
  rewrite H; clear H; cbn [rebuild].

Lemma widths_nil w : widths w [].
Proof. intros ? ? []%not_elem_of_nil. Qed.

Lemma layout_plain l lanes :
  key_distribution l = KeysNotSpecified -> sort_order l = OrderNotSpecified -> batch_layout l = MultipleBatches ->
  length lanes = n l -> layout_holds l lanes.
Proof. intros Hk Hs Hb Hn. split; rewrite ?Hk, ?Hs, ?Hb; done. Qed.

(** ** Sources *)
Lemma sound_load k table file projection groups survivors nulls :
  (forall file projection groups row, row ∈ read_rows file projection groups ->
     length row = if rows_only projection then 1 else length projection) ->
  let node := GpuLoadParquet k table file projection groups survivors nulls in
  built node -> well_formed node -> sound node (map (map (read_rows file projection)) groups).
Proof.
  intros Hr node Hb Hw. assert (Hk : kind node <> Sink) by (destruct (not_sink _ Hb) as [|(? & ? & ? & ?)]; done).
  destruct Hb as [Hb _]. split.
  - declared_layout Hb node. apply layout_plain; try done. cbn. by rewrite length_map.
  - rewrite (width_is_produced node _ Hw Hk eq_refl).
    intros ? row (lane & -> & _)%elem_of_map (b & (gs & -> & _)%elem_of_map & Hin)%elem_of_concat. by eapply Hr.
  - declared_layout Hb node. done.
Qed.

Lemma sound_empty k : built (GpuEmpty k) -> sound (GpuEmpty k) [[]].
Proof.
  intros [Hb _]. split.
  - declared_layout Hb (GpuEmpty k). split; cbn; try done.
    intros lane ->%list_elem_of_singleton. cbn. lia.
  - intros lane row ->%list_elem_of_singleton []%not_elem_of_nil.
  - declared_layout Hb (GpuEmpty k). done.
Qed.

(** ** Row by row *)
Lemma rebase_keyed l exprs : keyed (key_distribution l) -> keyed (key_distribution (rebase_through_projection l exprs)).
Proof.
  unfold keyed. cbn. destruct (key_distribution l) as [|ks]; [done|].
  destruct (mapM (new_index exprs) ks) as [news|] eqn:Hm; [|done]. cbn. intros Hks [= ->].
  apply mapM_Some, Forall2_length in Hm. by destruct ks.
Qed.

Lemma project_columns columns row : eval_reads_columns null eval ->
  project eval (map (fun c => expr_column c "") columns) row = key_at null columns row.
Proof. intros He. unfold project, key_at. rewrite map_map. apply map_ext. intros c. apply He. Qed.

Lemma sound_filter k predicate projection input lanes :
  eval_reads_columns null eval ->
  let node := GpuFilter k predicate projection input in
  built node -> well_formed node -> sound input lanes ->
  sound node (map (map (filter_batch null keep predicate projection)) lanes).
Proof.
  intros He node Hb Hw [Hl Hwd Hks]. assert (Hk : kind node <> Sink) by (destruct (not_sink _ Hb) as [|(? & ? & ? & ?)]; done).
  destruct Hb as [Hb _]. pose proof (layout_filter _ _ (keep predicate) Hl) as Hf. split.
  - declared_layout Hb node. cbn. destruct projection as [columns|]; [|exact Hf].
    eapply (rebased_layout_holds null place value_cmp eval _ (map (fun c => expr_column c "") columns)) in Hf; [|done].
    rewrite map_map in Hf. match type of Hf with layout_holds _ ?a => enough (Heq : _ = a) by (by rewrite Heq) end.
    apply map_ext. intros lane. rewrite map_map. apply map_ext. intros b. apply map_ext. intros r.
    symmetry. by apply project_columns.
  - rewrite (width_is_produced node _ Hw Hk eq_refl).
    intros ? row (lane & -> & Hin)%elem_of_map (b & (b0 & -> & Hb0)%elem_of_map & Hr)%elem_of_concat.
    unfold filter_batch in Hr. destruct projection as [columns|].
    + apply elem_of_map in Hr as (r & -> & _). unfold key_at. by rewrite length_map.
    + apply elem_of_filterb in Hr as [Hr _]. apply (Hwd lane); [done|]. apply elem_of_concat. eauto.
  - declared_layout Hb node. cbn. destruct projection; [by apply rebase_keyed|done].
Qed.

Lemma sound_project k exprs input lanes :
  eval_reads_columns null eval ->
  let node := GpuProject k exprs input in
  built node -> well_formed node -> sound input lanes ->
  sound node (map (map (map (project eval (map expr exprs)))) lanes).
Proof.
  intros He node Hb Hw [Hl _ Hks]. assert (Hk : kind node <> Sink) by (destruct (not_sink _ Hb) as [|(? & ? & ? & ?)]; done).
  destruct Hb as [Hb _]. split.
  - declared_layout Hb node. by apply rebased_layout_holds.
  - rewrite (width_is_produced node _ Hw Hk eq_refl).
    intros ? row (lane & -> & _)%elem_of_map (b & (b0 & -> & _)%elem_of_map & Hr)%elem_of_concat.
    apply elem_of_map in Hr as (r & -> & _). unfold project. by rewrite !length_map.
  - declared_layout Hb node. by apply rebase_keyed.
Qed.

(** ** Sorts and accumulators *)
Lemma among_lanes (R : Lane -> Lane -> Prop) lanes out :
  (forall lane o, R lane o -> among lane o) -> Forall2 R lanes out -> Forall2 among lanes out.
Proof. intros HR Ho. by eapply Forall2_impl. Qed.

(** A node that moves rows within their lanes and declares its input's columns. *)
Lemma sound_within node input lanes out :
  well_formed node -> carried node = Some input -> sound input lanes -> Forall2 among lanes out ->
  n (input_layout node) = n (input_layout input) ->
  key_distribution (input_layout node) = key_distribution (input_layout input) ->
  (forall lane b, lane ∈ out -> b ∈ lane -> order_holds (sort_order (input_layout node)) b) ->
  (forall lane, lane ∈ out -> batches_hold (batch_layout (input_layout node)) lane) ->
  sound node out.
Proof.
  intros Hw Hc [[Hn Hh _ _] Hwd Hks] Ha Hnn Hkd Ho Hb. split.
  - split; [|rewrite Hkd; by eapply hash_among|done..]. rewrite Hnn, <- Hn. symmetry. by eapply Forall2_length.
  - rewrite (width_is_carried _ _ Hw Hc). by eapply widths_among.
  - by rewrite Hkd.
Qed.

Lemma sound_sort k keys fetch input lanes out :
  let node := GpuSort k keys fetch input in
  built node -> well_formed node -> sound input lanes ->
  Forall2 (Forall2 (sorted_rows null value_cmp keys fetch)) lanes out -> sound node out.
Proof.
  intros node [Hb _] Hw Hs Ho.
  assert (Hl : input_layout node = with_order (input_layout input) (batch_sorted keys)) by (by rewrite <- Hb).
  eapply (sound_within _ input lanes); rewrite ?Hl; try done.
  - eapply among_lanes; [|exact Ho]. intros lane o Hlo. eapply among_batches; [|exact Hlo].
    intros b o' Hbo row. by eapply sorted_rows_among.
  - intros lane b Hin Hbin. apply list_elem_of_lookup in Hin as [i Hi], Hbin as [j Hj].
    destruct (Forall2_lookup_r _ _ _ _ _ Ho Hi) as (lane0 & _ & Hlo).
    destruct (Forall2_lookup_r _ _ _ _ _ Hlo Hj) as (b0 & _ & Hb0). by eapply sorted_rows_ordered.
  - intros lane Hin. apply list_elem_of_lookup in Hin as [i Hi].
    destruct (Forall2_lookup_r _ _ _ _ _ Ho Hi) as (lane0 & H0 & Hlo).
    pose proof (lanes_batched _ _ _ _ _ (layout_sound _ _ Hs) lane0 ltac:(by eapply list_elem_of_lookup_2)) as Hbl.
    cbn. destruct (batch_layout (input_layout input)); [|done]. cbn in *.
    by rewrite <- (Forall2_length _ _ _ Hlo).
Qed.

Lemma each_one_batch (R : Batch -> Batch -> Prop) lanes out :
  Forall2 (one_batch_of R) lanes out -> forall lane, lane ∈ out -> length lane <= 1.
Proof.
  intros Ho lane Hin. apply list_elem_of_lookup in Hin as [i Hi].
  destruct (Forall2_lookup_r _ _ _ _ _ Ho Hi) as (lane0 & _ & Hlo). by eapply one_batch_length.
Qed.

Lemma sound_coalesce k input lanes out :
  let node := GpuCoalesceAllBatches k input in
  built node -> well_formed node -> sound input lanes -> Forall2 (one_batch_of eq) lanes out -> sound node out.
Proof.
  intros node [Hb _] Hw Hs Ho.
  assert (Hl : input_layout node
    = with_order (with_batches (input_layout input) SingleBatch) OrderNotSpecified) by (by rewrite <- Hb).
  eapply (sound_within _ input lanes); rewrite ?Hl; try done.
  - eapply among_lanes; [|exact Ho]. intros lane o. apply among_one_batch. by intros b ? ->.
  - by eapply each_one_batch.
Qed.

Lemma one_batch_ordered (R : Batch -> Batch -> Prop) keys lane out b :
  (forall b o, R b o -> order_holds (batch_sorted keys) o) -> one_batch_of R lane out -> b ∈ out ->
  order_holds (batch_sorted keys) b.
Proof.
  intros HR Ho Hin. destruct lane as [|b0 lane]; cbn in Ho; [subst out; by apply not_elem_of_nil in Hin|].
  destruct Ho as (o & -> & Hbo). apply list_elem_of_singleton in Hin as ->. by eapply HR.
Qed.

Lemma sound_accumulate_sort k keys fetch input lanes out :
  let node := GpuAccumulateBatchesAndSort k keys fetch input in
  built node -> well_formed node -> sound input lanes ->
  Forall2 (one_batch_of (sorted_rows null value_cmp keys fetch)) lanes out -> sound node out.
Proof.
  intros node [Hb _] Hw Hs Ho.
  assert (Hl : input_layout node
    = with_batches (with_order (input_layout input) (batch_sorted keys)) SingleBatch) by (by rewrite <- Hb).
  eapply (sound_within _ input lanes); rewrite ?Hl; try done.
  - eapply among_lanes; [|exact Ho]. intros lane o. apply among_one_batch. intros b ? Hbo row.
    by eapply sorted_rows_among.
  - intros lane b Hin Hbin. apply list_elem_of_lookup in Hin as [i Hi].
    destruct (Forall2_lookup_r _ _ _ _ _ Ho Hi) as (lane0 & _ & Hlo). cbn.
    eapply one_batch_ordered; [|exact Hlo|done]. intros ? ?. apply sorted_rows_ordered.
  - by eapply each_one_batch.
Qed.

(** A limit hands on each batch or a run of it. *)
Lemma kept_sublist {A} r (b : list A) : sublist (kept r b) b.
Proof.
  unfold kept. destruct (covers r (lenN b)); [done|]. unfold slice.
  etrans; [apply sublist_take|apply sublist_drop].
Qed.

Lemma limit_run_kept st (lane : Lane) :
  exists sel, sublist sel lane /\ Forall2 (fun b o => sublist o b) sel (limit_run st lane).
Proof.
  revert st. induction lane as [|b lane IH]; intros st; cbn [limit_run]; [by exists []|].
  destruct (limit_accumulate_and_fetch st b) as [st' o] eqn:Hacc. destruct (IH st') as (sel & Hs & Hf).
  unfold limit_accumulate_and_fetch in Hacc.
  destruct (range_of _ _ _) as [r|]; injection Hacc as <- <-.
  - exists (b :: sel). split; [by constructor|]. constructor; [apply kept_sublist|exact Hf].
  - exists sel. split; [by constructor|exact Hf].
Qed.

Lemma sound_limit k iv input lane :
  let node := GpuLimit k iv input in
  built node -> well_formed node -> sound input [lane] ->
  sound node [limit_run {| interval := iv; seen := 0%N |} lane].
Proof.
  intros node [Hb _] Hw Hs.
  assert (Hl : input_layout node = input_layout input) by (by rewrite <- Hb).
  destruct (limit_run_kept {| interval := iv; seen := 0%N |} lane) as (sel & Hsub & Hf).
  pose proof (layout_sound _ _ Hs) as [_ _ Ho Hbl].
  eapply (sound_within _ input [lane]); rewrite ?Hl; try done.
  - constructor; [|constructor]. intros row (o & Hin & Hr)%elem_of_concat.
    apply list_elem_of_lookup in Hin as [i Hi]. destruct (Forall2_lookup_r _ _ _ _ _ Hf Hi) as (b & Hbi & Hbo).
    apply elem_of_concat. exists b. split; [|by eapply elem_of_sublist].
    eapply elem_of_sublist; [|exact Hsub]. by eapply list_elem_of_lookup_2.
  - intros ? o ->%list_elem_of_singleton Hin.
    apply list_elem_of_lookup in Hin as [i Hi]. destruct (Forall2_lookup_r _ _ _ _ _ Hf Hi) as (b & Hbi & Hbo).
    assert (Hbin : b ∈ lane) by (eapply elem_of_sublist; [by eapply list_elem_of_lookup_2|exact Hsub]).
    specialize (Ho lane b ltac:(by apply list_elem_of_singleton) Hbin).
    destruct (sort_order (input_layout input)); [done|]. by eapply StronglySorted_sublist.
  - intros ? ->%list_elem_of_singleton. specialize (Hbl lane ltac:(by apply list_elem_of_singleton)).
    destruct (batch_layout (input_layout input)); [|done]. cbn in *.
    rewrite <- (Forall2_length _ _ _ Hf). apply sublist_length in Hsub. lia.
Qed.

(** ** Aggregates *)
Lemma regrouped_keyless l body : group_by body = [] -> keyed (key_distribution l) ->
  regrouped_key_distribution l body = KeysNotSpecified.
Proof.
  intros Hg Hk. unfold keyed, regrouped_key_distribution in *. destruct (key_distribution l) as [|[|k ks]]; [done..|].
  assert (Hnone : regrouped_key body k = None) by (unfold regrouped_key; by rewrite Hg).
  cbn. by rewrite Hnone.
Qed.

Lemma regrouped_keyed l body : keyed (key_distribution l) -> keyed (regrouped_key_distribution l body).
Proof.
  unfold keyed, regrouped_key_distribution. destruct (key_distribution l) as [|ks]; [done|].
  destruct (mapM (regrouped_key body) ks) as [news|] eqn:Hm; [|done]. intros Hks [= ->].
  apply mapM_Some, Forall2_length in Hm. by destruct ks.
Qed.

Definition agg_lane (body : AggregateBody) (lane out : Lane) : Prop :=
  forall row, row ∈ concat out -> agg_row null eval body (concat lane) row.

Lemma sound_grouped node body input lanes out : eval_reads_columns null eval ->
  well_formed node -> kind node <> Sink -> produced_width node = Some (aggregate_width body) ->
  n (input_layout node) = n (input_layout input) ->
  key_distribution (input_layout node) = regrouped_key_distribution (input_layout input) body ->
  sort_order (input_layout node) = OrderNotSpecified ->
  (forall lane, lane ∈ out -> batches_hold (batch_layout (input_layout node)) lane) ->
  sound input lanes -> Forall2 (agg_lane body) lanes out -> sound node out.
Proof.
  intros He Hw Hk Hpw Hn Hkd Hso Hbl [[Hln Hh _ _] _ Hks] Ho. split.
  - split; [| |by rewrite Hso|done].
    + rewrite Hn, <- Hln. symmetry. by eapply Forall2_length.
    + rewrite Hkd. destruct (decide (group_by body = [])) as [Hg|Hg]; [by rewrite regrouped_keyless|].
      eapply regrouped_hash_holds; [done|exact Hh|]. apply Forall2_fmap_2.
      eapply Forall2_impl; [exact Ho|]. intros lane o Hlo row Hr.
      destruct (Hlo row Hr) as (_ & [He'|[Hnone _]] & _); [exact He'|done].
  - rewrite (width_is_produced node _ Hw Hk Hpw). intros lane row Hin Hr.
    apply list_elem_of_lookup in Hin as [i Hi]. destruct (Forall2_lookup_r _ _ _ _ _ Ho Hi) as (lane0 & _ & Hlo).
    by apply (Hlo row Hr).
  - rewrite Hkd. by apply regrouped_keyed.
Qed.

Lemma sound_aggregate k body intermediate input lanes out : eval_reads_columns null eval ->
  let node := GpuAggregate k body intermediate input in
  built node -> well_formed node -> sound input lanes ->
  Forall2 (fun lane out => length out <= Nat.max 1 (length lane)
    /\ forall row, row ∈ concat out -> agg_row null eval body (concat lane) row) lanes out ->
  sound node out.
Proof.
  intros He node Hb Hw Hs Ho.
  assert (Hk : kind node <> Sink) by (destruct (not_sink _ Hb) as [|(? & ? & ? & ?)]; done).
  assert (Hl : input_layout node = input_layout (rebuild node)) by (destruct Hb as [-> _]; done).
  eapply (sound_grouped _ body input lanes); rewrite ?Hl; try done.
  - intros lane Hin. apply list_elem_of_lookup in Hin as [i Hi].
    destruct (Forall2_lookup_r _ _ _ _ _ Ho Hi) as (lane0 & H0 & [Hlen _]).
    pose proof (lanes_batched _ _ _ _ _ (layout_sound _ _ Hs) lane0 ltac:(by eapply list_elem_of_lookup_2)) as Hbl.
    cbn. destruct (batch_layout (input_layout input)); [|done]. cbn in *. lia.
  - eapply Forall2_impl; [exact Ho|]. by intros ? ? [_ ?].
Qed.

Lemma sound_aggregate_batches k body intermediate input lanes out : eval_reads_columns null eval ->
  let node := GpuAggregateBatches k body intermediate input in
  built node -> well_formed node -> sound input lanes ->
  Forall2 (fun lane out => length out <= 1
    /\ forall row, row ∈ concat out -> agg_row null eval body (concat lane) row) lanes out ->
  sound node out.
Proof.
  intros He node Hb Hw Hs Ho.
  assert (Hk : kind node <> Sink) by (destruct (not_sink _ Hb) as [|(? & ? & ? & ?)]; done).
  assert (Hl : input_layout node = input_layout (rebuild node)) by (destruct Hb as [-> _]; done).
  eapply (sound_grouped _ body input lanes); rewrite ?Hl; try done.
  - intros lane Hin. apply list_elem_of_lookup in Hin as [i Hi].
    by destruct (Forall2_lookup_r _ _ _ _ _ Ho Hi) as (lane0 & _ & [Hlen _]).
  - eapply Forall2_impl; [exact Ho|]. by intros ? ? [_ ?].
Qed.

(** ** Joins *)
Lemma map_zip_with {A B C D} (f : C -> D) (g : A -> B -> C) l k :
  map f (zip_with g l k) = zip_with (fun x y => f (g x y)) l k.
Proof. revert k. induction l as [|x l IH]; intros [|y k]; cbn; [done..|]. by rewrite IH. Qed.

Lemma kept_width projection row w :
  length row = w -> length (kept_columns null projection row)
  = match projection with Some columns => length columns | None => w end.
Proof. intros <-. destruct projection; [apply length_map|done]. Qed.

Lemma joined_lane_width jt on build probe projection b p row :
  (forall r, r ∈ b -> length r = width_of build) -> (forall r, r ∈ p -> length r = width_of probe) ->
  row ∈ joined_lane null mark jt on build probe projection b p ->
  length row = match projection with
               | Some columns => length columns
               | None => emitted_columns jt (width_of build) (width_of probe)
               end.
Proof.
  intros Hb Hp (r & -> & Hr)%elem_of_map. apply kept_width.
  eapply joined_width; [| |exact Hr]; by apply Forall_forall.
Qed.

Lemma joined_keyed jt keys build probe bw projection :
  keyed (key_distribution build) -> keyed (key_distribution probe) ->
  keyed (joined_key_distribution jt keys build probe bw projection).
Proof.
  intros Hb Hp. unfold keyed, joined_key_distribution. destruct (unpadded_sides jt) as [|side sides]; [done|].
  destruct (forallb _ _) eqn:Hall; [|done]. cbn [negb]. cbn in Hall. apply andb_true_iff in Hall as [Hc _].
  unfold carries_hash in Hc. apply bool_decide_eq_true in Hc.
  assert (Hkeys : keys <> []). { intros ->. destruct side; cbn in Hc; rewrite Hc in *; done. }
  destruct (head _) as [hk|] eqn:Hh; [|done]. intros [= ->].
  apply head_Some_elem_of, list_elem_of_omap in Hh as (s & _ & Hm%mapM_Some%Forall2_length).
  destruct s; cbn in Hm; rewrite length_map in Hm; by destruct keys.
Qed.

Lemma concat_widths w lanes : widths w lanes ->
  forall lane, lane ∈ map (@concat Row) lanes -> Forall (fun r => length r = w) lane.
Proof. intros Hw ? (lane & -> & Hl)%elem_of_map. apply Forall_forall. intros r Hr. by eapply Hw. Qed.

Lemma sound_hash_join k jt keys filter columns nulls projection build probe bs ps out :
  let node := GpuHashJoin k jt keys filter columns nulls projection build probe in
  built node -> well_formed node -> sound build bs -> sound probe ps ->
  Forall2 (fun rows lane => concat lane ≡ₚ rows)
    (zip_with (joined_lane null mark jt (joins keys filter columns nulls) build probe projection)
       (map (@concat Row) bs) (map (@concat Row) ps)) out ->
  sound node out.
Proof.
  intros node Hb Hw [[Hbn Hbh _ _] Hbw Hbk] [[Hpn Hph _ _] Hpw Hpk] Ho.
  assert (Hk : kind node <> Sink) by (destruct (not_sink _ Hb) as [|(? & ? & ? & ?)]; done).
  destruct Hb as [Hb _].
  assert (Hv : validate_hash_join jt keys filter columns projection build probe = Ok ()) by apply (own_requirements _ Hw).
  pose proof (validate_hash_join_ok _ _ _ _ _ _ _ Hv) as (Hn & _). split.
  - declared_layout Hb node. split; try done.
    + rewrite <- (Forall2_length _ _ _ Ho), length_zip_with, !length_map. cbn. lia.
    + cbn [key_distribution input_layout new_hash_join kind kind_layout default].
      eapply placed_or_none; [exact Ho|]. unfold joined_lane. rewrite <- map_zip_with.
      eapply (joined_hash_holds null mark place (joins keys filter columns nulls) (width_of build) (width_of probe));
        rewrite ?length_map; try done. by apply concat_widths.
  - rewrite (width_is_produced node _ Hw Hk eq_refl). intros lane row Hin Hr.
    apply list_elem_of_lookup in Hin as [i Hi]. destruct (Forall2_lookup_r _ _ _ _ _ Ho Hi) as (rows & Hz & Hp).
    apply lookup_zip_with_Some in Hz as (b & p & -> & Hbi & Hpi). rewrite Hp in Hr.
    apply map_lookup_Some in Hbi as (bl & Hbi & ->), Hpi as (pl & Hpi & ->).
    eapply joined_lane_width; [| |exact Hr]; intros r Hin.
    + apply (Hbw bl); [by eapply list_elem_of_lookup_2|done].
    + apply (Hpw pl); [by eapply list_elem_of_lookup_2|done].
  - declared_layout Hb node. by apply joined_keyed.
Qed.

Lemma lane_width w (lane : Lane) row : widths w [lane] -> row ∈ concat lane -> length row = w.
Proof. intros Hw Hr. apply (Hw lane); [by apply list_elem_of_singleton|done]. Qed.

Lemma sound_product node jt on build probe projection b p lane :
  built node -> well_formed node -> kind node <> Sink -> input_layout node = joined_layout ->
  produced_width node = Some match projection with
                             | Some columns => length columns
                             | None => emitted_columns jt (width_of build) (width_of probe)
                             end ->
  sound build [b] -> sound probe [p] ->
  concat lane ≡ₚ joined_lane null mark jt on build probe projection (concat b) (concat p) ->
  sound node [lane].
Proof.
  intros _ Hw Hk Hl Hpw [_ Hbw _] [_ Hprw _] Ho. split; rewrite ?Hl.
  - by apply layout_plain.
  - rewrite (width_is_produced node _ Hw Hk Hpw). intros ? row ->%list_elem_of_singleton Hr. rewrite Ho in Hr.
    eapply joined_lane_width; [| |exact Hr]; intros r Hin; by eapply lane_width.
  - done.
Qed.

(** ** Across lanes *)
Lemma widths_gathered w lanes (out : Lane) :
  widths w lanes -> (forall row, row ∈ concat out -> row ∈ concat (concat lanes)) -> widths w [out].
Proof.
  intros Hw Ho ? row ->%list_elem_of_singleton Hr%Ho.
  apply elem_of_concat in Hr as (b & (lane & Hl & Hb)%elem_of_concat & Hr). apply (Hw lane); [done|].
  apply elem_of_concat. eauto.
Qed.

Lemma sound_merge k input lanes out :
  let node := GpuMergePartitions k input in
  built node -> well_formed node -> sound input lanes -> out ≡ₚ concat lanes -> sound node [out].
Proof.
  intros node [Hb _] Hw [[Hn _ _ Hbl] Hwd _] Ho. split.
  - declared_layout Hb node. split; try done. intros ? ->%list_elem_of_singleton.
    change (batches_hold (if 1 <? n (input_layout input) then MultipleBatches
                          else batch_layout (input_layout input)) out).
    destruct (Nat.ltb_spec 1 (n (input_layout input))) as [|Hle]; [done|].
    destruct (batch_layout (input_layout input)) eqn:Hbatch; [|done]. cbn. rewrite Ho.
    destruct lanes as [|lane [|]]; [cbn; lia| |cbn in Hn; lia]. cbn. rewrite app_nil_r.
    apply (Hbl lane). by apply list_elem_of_singleton.
  - rewrite (width_is_carried node input Hw eq_refl). eapply widths_gathered; [exact Hwd|].
    intros row (b & Hin & Hr)%elem_of_concat. rewrite Ho in Hin. apply elem_of_concat. eauto.
  - by declared_layout Hb node.
Qed.

Lemma sound_emit k hash_keys input lane out :
  let node := GpuEmitPartitions k hash_keys input in
  built node -> well_formed node -> sound input [lane] ->
  length out = n (input_layout node) -> placed null place hash_keys (map (@concat Row) out) ->
  concat (map (@concat Row) out) ≡ₚ concat lane -> sound node out.
Proof.
  intros node [Hb Hkeys] Hw [_ Hwd _] Hn Hp Ho. split.
  - pose proof Hn as Hn'. assert (Hl : input_layout node = input_layout (rebuild node)) by (by rewrite Hb).
    rewrite Hl in Hn' |- *. cbn [rebuild] in Hn' |- *. by split.
  - rewrite (width_is_carried node input Hw eq_refl). intros o row Hin Hr. eapply lane_width; [exact Hwd|].
    rewrite <- Ho. apply elem_of_concat. exists (concat o). split; [apply elem_of_map; eauto|done].
  - declared_layout Hb node. cbn. by intros [= ->].
Qed.

Lemma sound_merge_sorted k keys fetch input lanes out :
  let node := GpuMergeSortedPartitions k keys fetch input in
  built node -> well_formed node -> sound input lanes ->
  one_batch_of (sorted_rows null value_cmp keys fetch) (concat lanes) out -> sound node [out].
Proof.
  intros node [Hb _] Hw [_ Hwd _] Ho. split.
  - declared_layout Hb node. split; try done.
    + intros ? b ->%list_elem_of_singleton Hin. cbn. eapply one_batch_ordered; [|exact Ho|done].
      intros ? ?. apply sorted_rows_ordered.
    + intros ? ->%list_elem_of_singleton. by eapply one_batch_length.
  - rewrite (width_is_carried node input Hw eq_refl). eapply widths_gathered; [exact Hwd|].
    eapply (among_one_batch (sorted_rows null value_cmp keys fetch)); [|exact Ho].
    intros ? ? Hs row. by eapply sorted_rows_among.
  - by declared_layout Hb node.
Qed.

(** ** Unions *)
Lemma agreed_order branches b batch : b ∈ branches ->
  order_holds (sort_order (input_layout b)) batch -> order_holds (agreed_sort_order branches) batch.
Proof.
  intros Hin Ho. unfold agreed_sort_order. destruct branches as [|first rest]; [done|].
  destruct (forallb _ _) eqn:Hall; [|done]. rewrite forallb_forall in Hall.
  apply list_elem_of_In, Hall, bool_decide_eq_true in Hin. by rewrite <- Hin.
Qed.

Lemma agreed_batches branches b : b ∈ branches -> agreed_batch_layout branches = SingleBatch ->
  batch_layout (input_layout b) = SingleBatch.
Proof.
  intros Hin. unfold agreed_batch_layout. destruct (forallb _ _) eqn:Hall; [|done]. intros _.
  rewrite forallb_forall in Hall. by apply list_elem_of_In, Hall, bool_decide_eq_true in Hin.
Qed.

Lemma branch_widths node declared branches b : check_branch_schemas node (Some declared) branches = Ok () ->
  b ∈ branches -> width_of b = length (fields declared).
Proof.
  unfold check_branch_schemas, PlanResult. rewrite for_each_ok. intros Hall Hb. specialize (Hall b Hb).
  apply seq_ok in Hall as [Hlen%ensure_iff _]. by apply Nat.eqb_eq.
Qed.

Lemma answer_of branches answers lanes : Forall2 sound branches answers -> lanes ∈ answers ->
  exists b, b ∈ branches /\ sound b lanes.
Proof.
  intros Hs Hin. apply list_elem_of_lookup in Hin as [i Hi].
  destruct (Forall2_lookup_r _ _ _ _ _ Hs Hi) as (b & Hb & Hsb). exists b. split; [|done].
  by eapply list_elem_of_lookup_2.
Qed.

Lemma schema_declared node : built node -> kind node <> Sink -> kind_schema (kind node) = Some (input_schema node).
Proof.
  intros _ Hk. unfold input_schema. by destruct (kind node).
Qed.

Lemma sound_union k branches answers :
  let node := GpuUnion k branches in
  built node -> well_formed node -> Forall2 sound branches answers -> sound node (concat answers).
Proof.
  intros node Hb Hw Hs. assert (Hk : kind node <> Sink) by (destruct (not_sink _ Hb) as [|(? & ? & ? & ?)]; done).
  pose proof (own_requirements _ Hw) as Hv. cbn in Hv. change k with (kind node) in Hv.
  rewrite (schema_declared node Hb Hk) in Hv. destruct Hb as [Hb _]. split.
  - declared_layout Hb node. split; cbn; try done.
    + clear -Hs. induction Hs as [|b lanes branches answers [[Hn _ _ _] _ _] _ IH]; [done|].
      cbn [map concat sum_list sum_list_with foldr]. rewrite length_app, IH, Hn. done.
    + intros lane batch (lanes & Hl & Hin)%elem_of_concat Hbatch.
      destruct (answer_of _ _ _ Hs Hl) as (b & Hb' & [[_ _ Ho _] _ _]). eapply agreed_order; eauto.
    + intros lane (lanes & Hl & Hin)%elem_of_concat.
      destruct (answer_of _ _ _ Hs Hl) as (b & Hb' & [[_ _ _ Hbl] _ _]).
      destruct (agreed_batch_layout branches) eqn:Ha; [|done].
      specialize (Hbl lane Hin). by rewrite (agreed_batches _ _ Hb' Ha) in Hbl.
  - intros lane row (lanes & Hl & Hin)%elem_of_concat Hr.
    destruct (answer_of _ _ _ Hs Hl) as (b & Hb' & [_ Hwd _]). rewrite (Hwd lane row Hin Hr).
    by eapply branch_widths.
  - by declared_layout Hb node.
Qed.

Lemma interleave_ok k branches : validate_interleave k branches = Ok () ->
  check_branch_schemas "GpuInterleave" (kind_schema k) branches = Ok ()
  /\ forall b, b ∈ branches ->
     n (input_layout b) = n (input_layout (branches !!! 0))
     /\ key_distribution (input_layout b) = key_distribution (input_layout (branches !!! 0)).
Proof.
  unfold validate_interleave, PlanResult. rewrite seq_ok, for_each_ok. intros [Hs Hall]. split; [done|].
  intros b Hb. destruct branches as [|first rest]; [by apply not_elem_of_nil in Hb|]. cbn in Hall |- *.
  apply elem_of_cons in Hb as [->|Hb]; [done|]. specialize (Hall b Hb).
  apply ensure_iff, andb_true_iff in Hall as [Hn%Nat.eqb_eq Hk%bool_decide_eq_true]. done.
Qed.

Lemma sound_interleave k branches answers out :
  let node := GpuInterleave k branches in
  built node -> well_formed node -> branches <> [] -> Forall2 sound branches answers ->
  (forall lanes, lanes ∈ answers -> length lanes = length out) ->
  (forall i lane, out !! i = Some lane -> lane ≡ₚ concat (omap (fun lanes : list Lane => lanes !! i) answers)) ->
  sound node out.
Proof.
  intros node Hb Hw Hne Hs Hlen Ho.
  assert (Hk : kind node <> Sink) by (destruct (not_sink _ Hb) as [|(? & ? & ? & ?)]; done).
  pose proof (own_requirements _ Hw) as Hv. apply interleave_ok in Hv as [Hsch Hsame]. change k with (kind node) in Hsch.
  rewrite (schema_declared node Hb Hk) in Hsch. destruct Hb as [Hb _].
  assert (Hfirst : exists first lanes, first = branches !!! 0 /\ first ∈ branches /\ lanes ∈ answers /\ sound first lanes).
  { destruct Hs as [|b lanes bs ls Hb' Hs]; [done|]. exists b, lanes. split_and!; try done; apply list_elem_of_here. }
  destruct Hfirst as (first & lanes0 & Hf & Hfin & Hl0 & [[Hn0 _ _ _] _ Hks0]).
  assert (Hbatch : forall lane batch i, out !! i = Some lane -> batch ∈ lane ->
    exists b lanes lane0, b ∈ branches /\ sound b lanes /\ lanes ∈ answers /\ lanes !! i = Some lane0 /\ batch ∈ lane0).
  { intros lane batch i Hi Hin. rewrite (Ho i lane Hi) in Hin.
    apply elem_of_concat in Hin as (lane0 & (lanes & Hl & Hli)%list_elem_of_omap & Hin).
    destruct (answer_of _ _ _ Hs Hl) as (b & Hb' & Hsb). eauto 10. }
  split.
  - declared_layout Hb node. cbn. split; cbn.
    + rewrite <- Hf, <- Hn0. symmetry. by apply Hlen.
    + rewrite <- Hf. destruct (key_distribution (input_layout first)) as [|ks] eqn:Hkd; [done|].
      intros i rows row Hi Hr. apply map_lookup_Some in Hi as (lane & Hi & ->).
      apply elem_of_concat in Hr as (batch & Hin & Hr).
      destruct (Hbatch lane batch i Hi Hin) as (b & lanes & lane0 & Hb' & [[_ Hh _ _] _ _] & Hl & Hli & Hin0).
      destruct (Hsame b Hb') as [_ Hkb]. rewrite Hkb, <- Hf, Hkd in Hh. cbn in Hh.
      rewrite length_map, <- (Hlen lanes Hl), <- (length_map (@concat Row)).
      apply (Hh i (concat lane0)); [by apply map_lookup_Some; eauto|]. apply elem_of_concat. eauto.
    + intros lane batch Hin Hbin. apply list_elem_of_lookup in Hin as [i Hi].
      destruct (Hbatch lane batch i Hi Hbin) as (b & lanes & lane0 & Hb' & [[_ _ Hord _] _ _] & Hl & Hli & Hin0).
      eapply agreed_order; [exact Hb'|]. eapply Hord; [by eapply list_elem_of_lookup_2|done].
    + intros lane Hin. destruct branches as [|b [|b' rest]]; [done| |done]. cbn.
      destruct (agreed_batch_layout [b]) eqn:Ha; [|done]. cbn.
      apply list_elem_of_lookup in Hin as [i Hi]. rewrite (Ho i lane Hi).
      inversion Hs as [|? lanes ? ls [[_ _ _ Hbl] _ _] Hs' ]; subst. inversion Hs'; subst. cbn.
      destruct (lanes !! i) as [lane0|] eqn:Hli; cbn; [|lia]. rewrite app_nil_r.
      specialize (Hbl lane0 ltac:(by eapply list_elem_of_lookup_2)).
      by rewrite (agreed_batches _ b (list_elem_of_here _ _) Ha) in Hbl.
  - intros lane row Hin (batch & Hbin & Hr)%elem_of_concat. apply list_elem_of_lookup in Hin as [i Hi].
    destruct (Hbatch lane batch i Hi Hbin) as (b & lanes & lane0 & Hb' & [_ Hwd _] & Hl & Hli & Hin0).
    rewrite (Hwd lane0 row); [by eapply branch_widths|by eapply list_elem_of_lookup_2|].
    apply elem_of_concat. eauto.
  - declared_layout Hb node. cbn. by rewrite <- Hf.
Qed.

(** ** The tree *)
Notation computes := (computes null mark place value_cmp eval keep joins read_rows).

(** What a scan reads has the columns it was asked for, or the row marker alone. *)
Definition read_width : Prop := forall file projection groups row, row ∈ read_rows file projection groups ->
  length row = if rows_only projection then 1 else length projection.

Lemma sound_branches branches answers :
  Forall2 computes branches answers ->
  (forall b, b ∈ branches -> forall lanes, computes b lanes -> sound b lanes) -> Forall2 sound branches answers.
Proof. intros Hf. induction Hf; intros Hs; constructor; [apply Hs; set_solver|apply IHHf; set_solver]. Qed.

Lemma fed_branches k branches : built (GpuInterleave k branches) -> well_formed (GpuInterleave k branches) ->
  branches <> [].
Proof.
  intros [Hb _] Hw. assert (Hk : kind (rebuild (GpuInterleave k branches)) = k) by (by rewrite Hb).
  cbn in Hk. exact (intermediate_is_fed _ Hw _ _ (eq_sym Hk)).
Qed.

Lemma sound_of_children node lanes :
  eval_reads_columns null eval -> read_width -> built node -> well_formed node ->
  (forall c, c ∈ children node -> forall lanes, computes c lanes -> sound c lanes) ->
  computes node lanes -> sound node lanes.
Proof.
  intros He Hr Hb Hw IH Hc. inversion Hc; subst; cbn [children] in IH.
  - by apply sound_load.
  - by apply sound_empty.
  - apply sound_filter; try done. apply IH; [set_solver|done].
  - apply sound_project; try done. apply IH; [set_solver|done].
  - eapply sound_sort; try done. apply IH; [set_solver|done].
  - eapply sound_coalesce; try done. apply IH; [set_solver|done].
  - eapply sound_accumulate_sort; try done. apply IH; [set_solver|done].
  - apply sound_limit; try done. apply IH; [set_solver|done].
  - eapply sound_aggregate; try done. apply IH; [set_solver|done].
  - eapply sound_aggregate_batches; try done. apply IH; [set_solver|done].
  - eapply sound_hash_join; [done..| | |done]; apply IH; try done; set_solver.
  - destruct (not_sink _ Hb) as [Hk|(? & ? & ? & ?)]; [|done].
    eapply (sound_product _ Inner (fun _ _ => true) build probe projection); try done.
    + destruct Hb as [Hb _]. by rewrite <- Hb.
    + apply IH; [set_solver|done].
    + apply IH; [set_solver|done].
  - destruct (not_sink _ Hb) as [Hk|(? & ? & ? & ?)]; [|done].
    eapply (sound_product _ jt (joins [] (Some filter) columns false) build probe projection); try done.
    + destruct Hb as [Hb _]. by rewrite <- Hb.
    + apply IH; [set_solver|done].
    + apply IH; [set_solver|done].
  - eapply sound_merge; try done. apply IH; [set_solver|done].
  - eapply sound_emit; try done. apply IH; [set_solver|done].
  - eapply sound_merge_sorted; try done. apply IH; [set_solver|done].
  - apply sound_union; try done. by apply sound_branches.
  - eapply sound_interleave; try done; [by eapply fed_branches|by apply sound_branches].
Qed.

Lemma accepted_nodes root :
  validate root = Ok () -> (forall d, d ∈ descendants root -> built d) ->
  Forall (fun d => well_formed d /\ built d) (descendants root).
Proof.
  intros Hv Hb. unfold validate, PlanResult in Hv. rewrite !seq_ok, validate_walk_ok in Hv. destruct_and!.
  rewrite Forall_forall in *. intros d Hd. rewrite <- validate_at_ok. eauto.
Qed.

Lemma accepted_is_sound root node lanes :
  eval_reads_columns null eval -> read_width ->
  Forall (fun d => well_formed d /\ built d) (descendants root) ->
  node ∈ descendants root -> computes node lanes -> sound node lanes.
Proof.
  intros He Hr Hw. revert node lanes.
  induction root as [root IH] using node_ind_children. apply descendants_ind in Hw as [[Hw Hb] Hkids].
  rewrite Forall_forall in Hkids.
  assert (Hbelow : forall c, c ∈ children root -> forall node lanes, node ∈ descendants c ->
    computes node lanes -> sound node lanes) by (intros c Hcin; apply IH; [done|by apply Hkids]).
  intros node lanes Hin Hc. rewrite descendants_eq in Hin.
  apply elem_of_cons in Hin as [->|(ds & (c & -> & Hcin)%elem_of_map & Hin)%elem_of_concat].
  - apply sound_of_children; try done. intros c Hcin ls Hl. apply (Hbelow c); [done| |done].
    rewrite descendants_eq. apply list_elem_of_here.
  - by apply (Hbelow c).
Qed.

(** C1: the claims a plan carries are true of the rows it moves.  Take any tree [validate] accepts,
    each node of it built by its constructor.  Whatever lanes of batches a node of the tree may answer,
    the [PartitionLayout] it declares holds of them: that many lanes, every row in the lane its hash
    key's values place it in, every batch in the declared order, no lane of several batches where one
    is declared, and every row has as many columns as the declared schema.  The claim is derived node
    by node through filters, projections, grouping sets, the four padding kinds of join, unions and
    limits; the hypotheses are that a column expression reads its column and that a scan answers the
    columns asked. *)
Theorem declared_layouts_hold root node lanes :
  eval_reads_columns null eval -> read_width ->
  validate root = Ok () -> (forall d, d ∈ descendants root -> built d) ->
  node ∈ descendants root -> computes node lanes ->
  layout_holds (input_layout node) lanes /\ widths (width_of node) lanes.
Proof.
  intros He Hr Hv Hb Hin Hc. pose proof (accepted_nodes root Hv Hb) as Hw.
  destruct (accepted_is_sound root node lanes He Hr Hw Hin Hc). done.
Qed.
End Sound.

(** ** A scan of two files scattered by its column and filtered *)
Definition demo_schema : Schema :=
  schema_new [{| field_name := "x"; data_type := Int64; nullable := false |}].
Definition demo_load : GpuNode :=
  new_load_parquet "t" [0] [[[0]]; [[1]]]
    {| scan_file := "t.parquet"; scan_can_be_null := [false];
       scan_groups := [{| rg_index := 0; rg_rows := 1; rg_bytes := 8 |}; {| rg_index := 1; rg_rows := 1; rg_bytes := 8 |}] |}
    demo_schema.
Definition demo_scattered : GpuNode := new_emit_partitions (new_merge_partitions demo_load) [0] 2.
Definition demo_filtered : GpuNode := new_filter demo_scattered (expr_column 0 "x") None demo_schema.
Definition demo_plan : GpuNode := new_unload demo_filtered None.

Definition demo_read (file : string) (projection groups : list nat) : list (list nat) :=
  map (fun g => if rows_only projection then [g] else map (fun _ => g) projection) groups.

Lemma declared_layouts_hold_witness :
  validate demo_plan = Ok ()
  /\ layout_holds 0 (fun n vs => default 0 (head vs) mod n) (fun _ _ => Nat.compare)
       (input_layout demo_filtered) [[[]]; [[[1]]]]
  /\ key_distribution (input_layout demo_filtered) = ByHash [0].
Proof.
  split; [by vm_compute|]. split; [|done].
  refine (proj1 (declared_layouts_hold 0 (fun b : bool => if b then 1 else 0) (fun n vs => default 0 (head vs) mod n)
    (fun _ _ => Nat.compare) (fun e row => match e with Column r => nth (index r) row 0 | _ => 0 end)
    (fun _ row => 0 <? nth 0 row 0) (fun _ _ _ _ _ _ => true) demo_read demo_plan demo_filtered
    [[[]]; [[[1]]]] _ _ _ _ _ _)).
  - done.
  - intros file projection groups row (g & -> & _)%elem_of_map. destruct (rows_only projection); [done|].
    apply length_map.
  - by vm_compute.
  - apply Forall_forall. vm_compute. repeat (constructor; [done|]). constructor.
  - vm_compute. right. left.
  - refine (C_filter _ _ _ _ _ _ _ _ _ _ _ _ [[[[0]]]; [[[1]]]] _).
    refine (C_emit _ _ _ _ _ _ _ _ _ _ _ [[[0]]; [[1]]] _ _ _ _ _); [|done| |done].
    + refine (C_merge _ _ _ _ _ _ _ _ _ _ [[[[0]]]; [[[1]]]] _ _ _); [|done].
      exact (C_load _ _ _ _ _ _ _ _ _ "t" _ [0] [[[0]]; [[1]]] _ _).
    + intros i lane row Hi Hr. destruct i as [|[|i]]; [..|done]; injection Hi as <-;
        by apply list_elem_of_singleton in Hr as ->.
Defined.
