(* ===== verification/Nullability.v ===== *)
(** * Which columns can be NULL

    [planner/nullability.rs]: what [can_be_null] answers of a node's columns, and that it is sound:
    a column it says cannot be NULL holds none in any row the node may answer.  The analysis of a
    DataFusion [LogicalPlan] in the same file is Logical.v's. *)
From stdpp Require Import strings.
From S2P Require Import Prelude Interval PlanIR PlanCommon PlanNodes Claims Joins Aggregates Validate.
From S2P Require Import JoinFacts AggFacts ValidFacts Denote PlanSound.
Open Scope nat_scope.

(** ** The analysis *)
Definition nullable_at (columns : list bool) (ordinal : nat) : bool := default true (columns !! ordinal).

Fixpoint expr_can_be_null (e : Expr) (input : list bool) : bool :=
  match e with
  | Column reference => nullable_at input (index reference)
  | Literal value => bool_decide (scalar_value value = None)
  | BinaryE l _ r _ => expr_can_be_null l input || expr_can_be_null r input
  | Cast e _ => expr_can_be_null e input
  | UnaryE op arg =>
      match op with IsNull | IsNotNull => false | _ => expr_can_be_null arg input end
  | Case _ when_then else_expr =>
      match else_expr with
      | None => true
      | Some otherwise =>
          expr_can_be_null otherwise input
          || existsb (fun '(_, then_) => expr_can_be_null then_ input) when_then
      end
  | Like e pattern _ _ => expr_can_be_null e input || expr_can_be_null pattern input
  | ScalarFunction _ _ _ _ => true
  end.

(** [columns[position] |= other] for the positions both have. *)
Definition or_into (columns other : list bool) : list bool :=
  imap (fun position c => c || default false (other !! position)) columns.

Definition aggregate_can_be_null (body : AggregateBody) (input : list bool) (width : nat) : list bool :=
  let keys := map (fun key => expr_can_be_null key input) (group_by body) in
  let masked := foldl or_into keys (grouping_sets body) in
  let columns := masked ++ match grouping_sets body with [] => [] | _ => [false] end in
  take width (columns ++ replicate (Nat.max width (length columns) - length columns) true).

Definition joined_can_be_null (jt : JoinType) (build probe : list bool) : list bool :=
  let padded (columns : list bool) := replicate (length columns) true in
  match jt with
  | Inner => build ++ probe
  | Left => build ++ padded probe
  | Right => padded build ++ probe
  | Full => padded build ++ padded probe
  | LeftSemi | LeftAnti => build
  | RightSemi | RightAnti => probe
  | LeftMark => build ++ [false]
  end.

Definition narrowed (projection : option (list nat)) (columns : list bool) : list bool :=
  match projection with Some kept => map (nullable_at columns) kept | None => columns end.

Definition join_output_can_be_null (jt : JoinType) (projection : option (list nat))
    (build probe : list bool) : list bool :=
  narrowed projection (joined_can_be_null jt build probe).

Definition can_be_null : GpuNode -> list bool :=
  fold_node (fun node kids =>
    let width := match kind_schema (kind node) with Some schema => length (fields schema) | None => 0 end in
    let child i := default [] (kids !! i) in
    match node with
    | GpuLoadParquet _ _ _ _ _ _ nulls => nulls
    | GpuEmpty _ => replicate width false
    | GpuProject _ exprs _ => map (fun named => expr_can_be_null (expr named) (child 0)) exprs
    | GpuFilter _ _ projection _ => narrowed projection (child 0)
    | GpuSort _ _ _ _ | GpuAccumulateBatchesAndSort _ _ _ _ | GpuMergeSortedPartitions _ _ _ _
    | GpuCoalesceAllBatches _ _ | GpuMergePartitions _ _ | GpuEmitPartitions _ _ _ | GpuLimit _ _ _
    | GpuUnload _ _ _ => child 0
    | GpuUnion _ _ | GpuInterleave _ _ => foldl or_into (replicate width false) kids
    | GpuAggregate _ body _ _ | GpuAggregateBatches _ body _ _ =>
        aggregate_can_be_null body (child 0) width
    | GpuHashJoin _ jt _ _ _ _ projection _ _ | GpuNestedLoopJoin _ jt _ _ projection _ _ =>
        join_output_can_be_null jt projection (child 0) (child 1)
    | GpuCrossJoin _ projection _ _ => join_output_can_be_null Inner projection (child 0) (child 1)
    end).

(** ** Widths of the answers *)
Lemma length_or_into columns other : length (or_into columns other) = length columns.
Proof. apply length_imap. Qed.

Lemma length_foldl_or_into columns others : length (foldl or_into columns others) = length columns.
Proof. revert columns. induction others as [|o others IH]; intros columns; [done|]. cbn. by rewrite IH, length_or_into. Qed.

Lemma or_into_false columns other i :
  or_into columns other !! i = Some false -> columns !! i = Some false /\ other !! i <> Some true.
Proof.
  unfold or_into. rewrite list_lookup_imap. destruct (columns !! i) as [c|]; [|done]. cbn.
  intros [= [-> Ho]%orb_false_iff]. split; [done|]. by destruct (other !! i) as [[]|].
Qed.

Lemma foldl_or_into_false columns others i :
  foldl or_into columns others !! i = Some false ->
  columns !! i = Some false /\ forall other, other ∈ others -> other !! i <> Some true.
Proof.
  revert columns. induction others as [|o others IH]; intros columns; cbn.
  - intros Hc. split; [done|]. intros other []%not_elem_of_nil.
  - intros [[Hc Ho]%or_into_false Hrest]%IH. split; [done|].
    intros other [->|Hin]%elem_of_cons; [done|by apply Hrest].
Qed.

Lemma length_joined_can_be_null jt build probe :
  length (joined_can_be_null jt build probe) = emitted_columns jt (length build) (length probe).
Proof. destruct jt; cbn; by rewrite ?length_app, ?length_replicate. Qed.

Lemma length_narrowed projection columns :
  length (narrowed projection columns)
  = match projection with Some kept => length kept | None => length columns end.
Proof. destruct projection; [apply length_map|done]. Qed.

Lemma length_aggregate_can_be_null body input width : length (aggregate_can_be_null body input width) = width.
Proof. unfold aggregate_can_be_null. rewrite length_take, length_app, length_replicate. lia. Qed.

Section Sound.
Context {V : Type} (null : V) (mark : bool -> V).
Notation Row := (list V).
Notation Batch := (list Row).
Notation Lane := (list Batch).

(** ** Rows *)
Definition respects (nulls : list bool) (row : Row) : Prop :=
  forall i, nulls !! i = Some false -> nth i row null <> null.

Lemma respects_nullable_at nulls row i :
  respects nulls row -> nullable_at nulls i = false -> nth i row null <> null.
Proof. unfold nullable_at. intros Hr. destruct (nulls !! i) as [b|] eqn:Hi; [|done]. cbn. intros ->. by apply Hr. Qed.

Lemma respects_app n1 n2 r1 r2 :
  length n1 = length r1 -> respects n1 r1 -> respects n2 r2 -> respects (n1 ++ n2) (r1 ++ r2).
Proof.
  intros Hlen H1 H2 i. destruct (Nat.lt_ge_cases i (length n1)) as [Hi|Hi].
  - rewrite lookup_app_l by done. rewrite app_nth1 by lia. apply H1.
  - rewrite lookup_app_r by done. rewrite app_nth2 by lia. rewrite <- Hlen. apply H2.
Qed.

Lemma respects_padded m row : respects (replicate m true) row.
Proof. intros i [? _]%lookup_replicate. done. Qed.

Lemma respects_narrowed projection nulls row :
  respects nulls row -> respects (narrowed projection nulls) (kept_columns null projection row).
Proof.
  intros Hr. destruct projection as [kept|]; [|done]. intros i (c & Hc & Hn)%map_lookup_Some. cbn.
  unfold key_at. rewrite (nth_lookup_Some _ _ _ (nth c row null)); [by eapply respects_nullable_at|].
  apply map_lookup_Some. eauto.
Qed.

Lemma joined_respects on bw pw jt bn pn build probe row :
  (forall b, mark b <> null) -> length bn = bw -> length pn = pw ->
  (forall b, b ∈ build -> length b = bw /\ respects bn b) ->
  (forall p, p ∈ probe -> length p = pw /\ respects pn p) ->
  row ∈ joined null mark on bw pw jt build probe -> respects (joined_can_be_null jt bn pn) row.
Proof.
  intros Hm Hbl Hpl Hb Hp.
  assert (Hpairs : forall bn' pn', length bn' = bw ->
    (forall b, b ∈ build -> respects bn' b) -> (forall p, p ∈ probe -> respects pn' p) ->
    row ∈ pairs on build probe -> respects (bn' ++ pn') row).
  { intros bn' pn' Hl Hb' Hp' (l & (p & -> & Hpin)%elem_of_map & Hr)%elem_of_concat.
    apply elem_of_map in Hr as (b & -> & [Hbin _]%elem_of_filterb).
    apply respects_app; [|by apply Hb'|by apply Hp']. destruct (Hb b Hbin). congruence. }
  assert (Hpb : forall bn', length bn' = bw -> (forall b, b ∈ build -> respects bn' b) ->
    row ∈ map (pad_build null pw) (unmatched_build on build probe) -> respects (bn' ++ replicate (length pn) true) row).
  { intros bn' Hl Hb' (b & -> & [Hbin _]%elem_of_filterb)%elem_of_map.
    apply respects_app; [|by apply Hb'|apply respects_padded]. destruct (Hb b Hbin). congruence. }
  assert (Hpp : forall pn', (forall p, p ∈ probe -> respects pn' p) ->
    row ∈ map (pad_probe null bw) (unmatched_probe on build probe) -> respects (replicate (length bn) true ++ pn') row).
  { intros pn' Hp' (p & -> & [Hpin _]%elem_of_filterb)%elem_of_map.
    apply respects_app; [by rewrite !length_replicate|apply respects_padded|by apply Hp']. }
  assert (Hbr : forall b, b ∈ build -> respects bn b) by (intros; by apply Hb).
  assert (Hpr : forall p, p ∈ probe -> respects pn p) by (intros; by apply Hp).
  assert (Hbt : forall b, b ∈ build -> respects (replicate (length bn) true) b) by (intros; apply respects_padded).
  assert (Hpt : forall p, p ∈ probe -> respects (replicate (length pn) true) p) by (intros; apply respects_padded).
  assert (Hlen : length (replicate (length bn) true) = bw) by (by rewrite length_replicate).
  destruct jt; cbn [joined joined_can_be_null]; rewrite ?elem_of_app.
  - by apply Hpairs.
  - intros [Hr|Hr]; [by apply Hpairs|by apply Hpb].
  - intros [Hr|Hr]; [by apply Hpairs|by apply Hpp].
  - intros [Hr|[Hr|Hr]]; [by apply Hpairs|by apply Hpb|by apply Hpp].
  - intros [Hin _]%elem_of_filterb. by apply Hbr.
  - intros [Hin _]%elem_of_filterb. by apply Hpr.
  - intros [Hin _]%elem_of_filterb. by apply Hbr.
  - intros [Hin _]%elem_of_filterb. by apply Hpr.
  - intros (b & -> & Hin)%elem_of_map. apply respects_app; [destruct (Hb b Hin); congruence|by apply Hbr|].
    intros [|i] [=]; cbn. apply Hm.
Qed.

(** ** Expressions: what the engines answer of a NULL *)
Context (eval : Expr -> Row -> V).

Record null_laws : Prop := {
  column_reads : eval_reads_columns null eval;
  literal_value : forall v row, scalar_value v <> None -> eval (Literal v) row <> null;
  binary_strict : forall l op r t row, eval l row <> null -> eval r row <> null ->
    eval (BinaryE l op r t) row <> null;
  cast_strict : forall e t row, eval e row <> null -> eval (Cast e t) row <> null;
  null_test_answers : forall op e row, op = IsNull \/ op = IsNotNull -> eval (UnaryE op e) row <> null;
  unary_strict : forall op e row, eval e row <> null -> eval (UnaryE op e) row <> null;
  like_strict : forall e p neg ci row, eval e row <> null -> eval p row <> null ->
    eval (Like e p neg ci) row <> null;
  case_selects : forall c wts otherwise row,
    eval (Case c wts (Some otherwise)) row = eval otherwise row
    \/ exists w t, (w, t) ∈ wts /\ eval (Case c wts (Some otherwise)) row = eval t row }.

Lemma expr_not_null e nulls row :
  null_laws -> respects nulls row -> expr_can_be_null e nulls = false -> eval e row <> null.
Proof.
  intros Hl Hr. revert e.
  fix IH 1. intros [r|v|l op r t|op a|a t|a p neg ci|c wts el|f args t nb]; cbn [expr_can_be_null].
  - intros Hn. rewrite (column_reads Hl). by eapply respects_nullable_at.
  - intros Hn%bool_decide_eq_false. by apply (literal_value Hl).
  - intros [Ha Hb]%orb_false_iff. apply (binary_strict Hl); by apply IH.
  - destruct op; intros Hn; try (apply (null_test_answers Hl); tauto); apply (unary_strict Hl); by apply IH.
  - intros Hn. apply (cast_strict Hl). by apply IH.
  - intros [Ha Hb]%orb_false_iff. apply (like_strict Hl); by apply IH.
  - destruct el as [otherwise|]; [|done]. intros [Ho Hw]%orb_false_iff.
    assert (Hthen : forall w t, (w, t) ∈ wts -> eval t row <> null).
    { clear Ho. induction wts as [|[w' t'] wts IHw]; cbn in Hw; [intros ? ? []%not_elem_of_nil|].
      apply orb_false_iff in Hw as [Ht Hw]. intros w t [[= -> ->]|Hin]%elem_of_cons; [by apply IH|].
      by eapply IHw. }
    destruct (case_selects Hl c wts otherwise row) as [->|(w & t & Hin & ->)]; [by apply IH|by eapply Hthen].
  - done.
Qed.

Lemma group_key_respects body mask nulls row rest :
  null_laws -> mask ∈ masks body -> respects nulls row ->
  respects (foldl or_into (map (fun key => expr_can_be_null key nulls) (group_by body)) (grouping_sets body))
    (group_key null eval body mask row ++ rest).
Proof.
  intros Hl Hm Hr i [Hk Hsets]%foldl_or_into_false. apply map_lookup_Some in Hk as (key & Hk & Hn).
  assert (Hkept : default false (mask !! i) = false).
  { unfold masks in Hm. destruct (grouping_sets body) as [|s sets]; [by apply list_elem_of_singleton in Hm as ->|].
    specialize (Hsets mask Hm). by destruct (mask !! i) as [[]|]. }
  assert (Hlook : group_key null eval body mask row !! i = Some (eval key row)).
  { unfold group_key. rewrite list_lookup_imap, Hk. cbn. by rewrite Hkept. }
  rewrite app_nth1 by (by eapply lookup_lt_Some). rewrite (nth_lookup_Some _ _ _ _ Hlook).
  by eapply expr_not_null.
Qed.

Lemma agg_row_respects body nulls lane out width :
  null_laws -> (forall row, row ∈ lane -> respects nulls row) -> agg_row null eval body lane out ->
  respects (aggregate_can_be_null body nulls width) out.
Proof.
  intros Hl Hlane (_ & Hrow & Hgid) i Hi. unfold aggregate_can_be_null in Hi.
  apply lookup_take_Some in Hi as [Hi _]. apply lookup_app_Some in Hi as [Hi|[_ Hi]].
  2: { by apply lookup_replicate in Hi as [? _]. }
  apply lookup_app_Some in Hi as [Hi|[Hge Hi]].
  - destruct Hrow as [(row & mask & rest & Hin & Hm & ->)|[Hg _]].
    + by apply (group_key_respects body mask nulls row rest Hl Hm (Hlane row Hin)).
    + apply lookup_lt_Some in Hi. rewrite length_foldl_or_into, length_map, Hg in Hi. cbn in Hi. lia.
  - rewrite length_foldl_or_into, length_map in Hge, Hi.
    destruct (grouping_sets body) as [|s sets]; [done|].
    apply lookup_lt_Some in Hi as Hlt. cbn in Hlt. assert (i = length (group_by body)) as -> by lia.
    by apply Hgid.
Qed.

(** ** Nodes that hand rows on *)
Context (place : nat -> list V -> nat) (value_cmp : bool -> bool -> V -> V -> comparison).
Context (keep : Expr -> list V -> bool).
Context (joins : list (nat * nat) -> option Expr -> list JoinFilterColumn -> bool -> list V -> list V -> bool).
Context (read_rows : string -> list nat -> list nat -> list (list V)).
Notation computes := (computes null mark place value_cmp eval keep joins read_rows).
Notation sound := (sound null place value_cmp).

Definition all_rows (lanes : list Lane) : list Row := concat (map (@concat Row) lanes).

Lemma elem_of_all_rows lanes row : row ∈ all_rows lanes <-> exists lane, lane ∈ lanes /\ row ∈ concat lane.
Proof.
  unfold all_rows. rewrite elem_of_concat. setoid_rewrite elem_of_map. naive_solver.
Qed.

Lemma all_rows_one lane : all_rows [lane] = concat lane.
Proof. unfold all_rows. cbn. apply app_nil_r. Qed.

Lemma all_rows_among lanes out row : Forall2 among lanes out -> row ∈ all_rows out -> row ∈ all_rows lanes.
Proof.
  intros Ha (lane & Hl & Hr)%elem_of_all_rows. apply list_elem_of_lookup in Hl as [i Hi].
  destruct (Forall2_lookup_r _ _ _ _ _ Ha Hi) as (lane0 & H0 & Hsub). apply elem_of_all_rows. exists lane0.
  split; [by eapply list_elem_of_lookup_2|by apply Hsub].
Qed.

Lemma all_rows_concat (lanes : list Lane) : concat (concat lanes) = all_rows lanes.
Proof. unfold all_rows. induction lanes as [|lane lanes IH]; [done|]. cbn. by rewrite concat_app, IH. Qed.

Lemma sorted_among keys fetch b o row :
  sorted_rows null value_cmp keys fetch b o -> row ∈ o -> row ∈ b.
Proof. apply sorted_rows_among. Qed.

Lemma carried_rows node input out :
  carried node = Some input -> computes node out ->
  exists lanes, computes input lanes /\ forall row, row ∈ all_rows out -> row ∈ all_rows lanes.
Proof.
  intros Hc Hcomp. destruct Hcomp; cbn in Hc; try done.
  - destruct projection; [done|]. injection Hc as <-. exists lanes. split; [done|]. intros row.
    apply all_rows_among. apply Forall2_self_map. intros lane _.
    eapply (among_batches (fun b o => o = List.filter (keep predicate) b)); [|by apply Forall2_self_map].
    by intros b o -> r [Hr _]%elem_of_filterb.
  - injection Hc as <-. exists lanes. split; [done|]. intros row. apply all_rows_among.
    eapply among_lanes; [|done]. intros lane o. eapply among_batches. by intros b o' Hs r; eapply sorted_among.
  - injection Hc as <-. exists lanes. split; [done|]. intros row. apply all_rows_among.
    eapply among_lanes; [|done]. intros lane o. apply among_one_batch. by intros b ? ->.
  - injection Hc as <-. exists lanes. split; [done|]. intros row. apply all_rows_among.
    eapply among_lanes; [|done]. intros lane o. apply among_one_batch. by intros b ? Hs r; eapply sorted_among.
  - injection Hc as <-. exists [lane]. split; [done|]. intros row. rewrite !all_rows_one.
    destruct (limit_run_kept {| interval := iv; seen := 0%N |} lane) as (sel & Hsub & Hf).
    intros (o & Hin & Hr)%elem_of_concat. apply list_elem_of_lookup in Hin as [i Hi].
    destruct (Forall2_lookup_r _ _ _ _ _ Hf Hi) as (b & Hbi & Hbo). apply elem_of_concat. exists b.
    split; [|by eapply elem_of_sublist]. eapply elem_of_sublist; [|exact Hsub]. by eapply list_elem_of_lookup_2.
  - injection Hc as <-. exists lanes. split; [done|]. intros row. rewrite all_rows_one, <- all_rows_concat.
    rewrite !elem_of_concat. intros (b & Hb & Hr). exists b. split; [|done]. by rewrite <- H.
  - injection Hc as <-. exists [lane]. split; [done|]. intros row. rewrite all_rows_one. unfold all_rows. by rewrite H1.
  - injection Hc as <-. exists lanes. split; [done|]. intros row. rewrite all_rows_one, <- all_rows_concat.
    eapply (among_one_batch (sorted_rows null value_cmp keys fetch)); [|done].
    by intros b ? Hs r; eapply sorted_among.
Qed.

(** ** The tree *)

(** The metadata of a scan says of its columns what its rows hold. *)
Definition honest_scan (node : GpuNode) : Prop :=
  match node with
  | GpuLoadParquet _ _ file projection groups _ nulls =>
      length nulls = (if rows_only projection then 1 else length projection)
      /\ forall batch row, batch ∈ concat groups -> row ∈ read_rows file projection batch -> respects nulls row
  | _ => True
  end.

Lemma can_be_null_carried node input : carried node = Some input -> can_be_null node = can_be_null input.
Proof.
  intros Hc. unfold can_be_null at 1. rewrite fold_node_eq. fold can_be_null.
  destruct node; cbn in Hc; try done; try (by injection Hc as <-). destruct projection; [done|]. by injection Hc as <-.
Qed.

Lemma can_be_null_width node :
  kind node <> Sink -> built node -> well_formed node -> honest_scan node ->
  (forall c, c ∈ children node -> length (can_be_null c) = width_of c) ->
  length (can_be_null node) = width_of node.
Proof.
  intros Hk Hb Hw Hs Hc. destruct (carried node) as [input|] eqn:Hcar.
  { rewrite (can_be_null_carried _ _ Hcar), (width_is_carried _ _ Hw Hcar). apply Hc.
    destruct node; cbn in Hcar; try done; try (injection Hcar as <-; apply list_elem_of_here).
    destruct projection; [done|]. injection Hcar as <-. apply list_elem_of_here. }
  assert (Hp : forall w, produced_width node = Some w -> width_of node = w) by (intros; by apply width_is_produced).
  assert (Hks : match kind_schema (kind node) with Some s => length (fields s) | None => 0 end = width_of node).
  { unfold width_of. by rewrite <- (schema_declared node Hb Hk) || rewrite (schema_declared node Hb Hk). }
  unfold can_be_null. rewrite fold_node_eq. fold can_be_null. cbv zeta. rewrite Hks.
  destruct node; cbn in Hcar, Hp |- *; try done.
  - by rewrite (Hp _ eq_refl), (proj1 Hs).
  - apply length_replicate.
  - destruct projection as [kept|]; [|done]. rewrite (Hp _ eq_refl). cbn. apply length_map.
  - rewrite (Hp _ eq_refl). apply length_map.
  - apply length_aggregate_can_be_null.
  - apply length_aggregate_can_be_null.
  - unfold join_output_can_be_null. rewrite (Hp _ eq_refl), length_narrowed, length_joined_can_be_null.
    cbn in Hc. rewrite !Hc by set_solver. done.
  - unfold join_output_can_be_null. rewrite (Hp _ eq_refl), length_narrowed, length_joined_can_be_null.
    cbn in Hc. rewrite !Hc by set_solver. done.
  - unfold join_output_can_be_null. rewrite (Hp _ eq_refl), length_narrowed, length_joined_can_be_null.
    cbn in Hc. rewrite !Hc by set_solver. done.
  - by rewrite length_foldl_or_into, length_replicate.
  - by rewrite length_foldl_or_into, length_replicate.
  - destruct Hk. destruct Hb as [Hb _]. by rewrite <- Hb.
Qed.

Definition null_sound (node : GpuNode) (lanes : list Lane) : Prop :=
  forall row, row ∈ all_rows lanes -> respects (can_be_null node) row.

Lemma or_into_answers (kids : list (list bool)) width i :
  foldl or_into (replicate width false) kids !! i = Some false ->
  (forall kid, kid ∈ kids -> length kid = width) ->
  forall kid, kid ∈ kids -> kid !! i = Some false.
Proof.
  intros Hi Hlen kid Hin. apply lookup_lt_Some in Hi as Hlt. rewrite length_foldl_or_into, length_replicate in Hlt.
  apply foldl_or_into_false in Hi as [_ Hno]. specialize (Hno kid Hin).
  destruct (lookup_lt_is_Some_2 kid i) as [[] Hk]; [by rewrite (Hlen kid Hin)|done|done].
Qed.

Lemma interleaved_rows answers (out : list Lane) row :
  (forall i lane, out !! i = Some lane -> lane ≡ₚ concat (omap (fun lanes : list Lane => lanes !! i) answers)) ->
  row ∈ all_rows out -> exists lanes, lanes ∈ answers /\ row ∈ all_rows lanes.
Proof.
  intros Ho (lane & Hl & Hr)%elem_of_all_rows. apply list_elem_of_lookup in Hl as [i Hi].
  apply elem_of_concat in Hr as (b & Hb & Hr). rewrite (Ho i lane Hi) in Hb.
  apply elem_of_concat in Hb as (lane0 & (lanes & Hl & Hi0)%list_elem_of_omap & Hb).
  exists lanes. split; [done|]. apply elem_of_all_rows. exists lane0. split; [by eapply list_elem_of_lookup_2|].
  apply elem_of_concat. eauto.
Qed.

Lemma branch_answers branches answers lanes :
  Forall2 computes branches answers -> lanes ∈ answers -> exists b, b ∈ branches /\ computes b lanes.
Proof.
  intros Hs Hin. apply list_elem_of_lookup in Hin as [i Hi].
  destruct (Forall2_lookup_r _ _ _ _ _ Hs Hi) as (b & Hb & Hsb). exists b. split; [|done].
  by eapply list_elem_of_lookup_2.
Qed.

Lemma null_sound_branches branches lanes row width :
  (exists b, b ∈ branches /\ computes b lanes) -> row ∈ all_rows lanes ->
  (forall c, c ∈ branches -> length (can_be_null c) = width) ->
  (forall c, c ∈ branches -> forall lanes, computes c lanes -> null_sound c lanes) ->
  respects (foldl or_into (replicate width false) (map can_be_null branches)) row.
Proof.
  intros (b & Hb & Hcomp) Hr Hw Hs i Hi. apply (Hs b Hb lanes Hcomp row Hr).
  apply (or_into_answers _ _ _ Hi); [|apply elem_of_map; eauto].
  intros kid (c & -> & Hc)%elem_of_map. by apply Hw.
Qed.

Lemma null_sound_join jt on build probe projection b p row :
  (forall x, mark x <> null) ->
  length (can_be_null build) = width_of build -> length (can_be_null probe) = width_of probe ->
  (forall r, r ∈ b -> length r = width_of build /\ respects (can_be_null build) r) ->
  (forall r, r ∈ p -> length r = width_of probe /\ respects (can_be_null probe) r) ->
  row ∈ joined_lane null mark jt on build probe projection b p ->
  respects (join_output_can_be_null jt projection (can_be_null build) (can_be_null probe)) row.
Proof.
  intros Hm Hlb Hlp Hb Hp (r & -> & Hr)%elem_of_map. apply respects_narrowed.
  eapply joined_respects; [done|exact Hlb|exact Hlp|exact Hb|exact Hp|exact Hr].
Qed.

Definition good (node : GpuNode) (lanes : list Lane) : Prop :=
  forall row, row ∈ all_rows lanes -> length row = width_of node /\ respects (can_be_null node) row.

Lemma joined_lanes_rows jt on build probe projection bs ps (out : list Lane) row :
  Forall2 (fun rows lane => concat lane ≡ₚ rows)
    (zip_with (joined_lane null mark jt on build probe projection) (map (@concat Row) bs) (map (@concat Row) ps)) out ->
  row ∈ all_rows out ->
  exists b p, (forall r, r ∈ b -> r ∈ all_rows bs) /\ (forall r, r ∈ p -> r ∈ all_rows ps)
    /\ row ∈ joined_lane null mark jt on build probe projection b p.
Proof.
  intros Ho (lane & Hl & Hr)%elem_of_all_rows. apply list_elem_of_lookup in Hl as [i Hi].
  destruct (Forall2_lookup_r _ _ _ _ _ Ho Hi) as (rows & Hz & Hp). rewrite Hp in Hr.
  apply lookup_zip_with_Some in Hz as (b & p & -> & Hbi & Hpi). exists b, p.
  split; [|split; [|done]]; intros r Hin; apply elem_of_concat.
  - exists b. split; [by eapply list_elem_of_lookup_2|done].
  - exists p. split; [by eapply list_elem_of_lookup_2|done].
Qed.

Lemma null_sound_aggregate body width lanes out :
  null_laws -> forall nulls, (forall row, row ∈ all_rows lanes -> respects nulls row) ->
  Forall2 (agg_lane null eval body) lanes out ->
  forall row, row ∈ all_rows out -> respects (aggregate_can_be_null body nulls width) row.
Proof.
  intros Hl nulls Hn Ho row (lane & Hin & Hr)%elem_of_all_rows. apply list_elem_of_lookup in Hin as [i Hi].
  destruct (Forall2_lookup_r _ _ _ _ _ Ho Hi) as (lane0 & H0 & Hlo).
  eapply agg_row_respects; [done| |by apply Hlo]. intros r Hrin. apply Hn, elem_of_all_rows.
  exists lane0. split; [by eapply list_elem_of_lookup_2|done].
Qed.

Lemma branch_width node b : well_formed node ->
  match node with GpuUnion _ bs | GpuInterleave _ bs => b ∈ bs /\ kind node <> Sink | _ => False end ->
  width_of b = width_of node.
Proof.
  intros Hw Hb. pose proof (own_requirements _ Hw) as Hv. destruct node; try done; destruct Hb as [Hb Hk].
  - cbn in Hv. eapply branch_widths; [|done]. unfold width_of, input_schema.
    destruct kind; done.
  - apply interleave_ok in Hv as [Hv _]. eapply branch_widths; [|done]. unfold input_schema. destruct kind; done.
Qed.

Lemma null_sound_of_children node lanes :
  null_laws -> (forall x, mark x <> null) -> kind node <> Sink -> built node -> well_formed node -> honest_scan node ->
  (forall c, c ∈ children node -> length (can_be_null c) = width_of c) ->
  (forall c, c ∈ children node -> forall lanes, computes c lanes -> good c lanes) ->
  computes node lanes -> null_sound node lanes.
Proof.
  intros Hl Hm Hk Hb Hwf Hs Hw IH Hc row Hr.
  assert (Hn : forall c ls r, c ∈ children node -> computes c ls -> r ∈ all_rows ls -> respects (can_be_null c) r).
  { intros c ls r Hin Hls Hrin. by apply (IH c Hin ls Hls r). }
  destruct (carried node) as [input|] eqn:Hcar.
  { destruct (carried_rows _ _ _ Hcar Hc) as (ls & Hcomp & Hsub). rewrite (can_be_null_carried _ _ Hcar).
    apply (Hn input ls); [|exact Hcomp|by apply Hsub].
    destruct node; cbn in Hcar; try done; try (injection Hcar as <-; apply list_elem_of_here).
    destruct projection; [done|]. injection Hcar as <-. apply list_elem_of_here. }
  assert (Hks : match kind_schema (kind node) with Some s => length (fields s) | None => 0 end = width_of node).
  { unfold width_of. by rewrite (schema_declared node Hb Hk). }
  unfold can_be_null. rewrite fold_node_eq. fold can_be_null. cbv zeta. rewrite Hks.
  clear Hks. destruct Hc; cbn in Hcar; try done; cbn [map children] in *.
  - apply elem_of_all_rows in Hr as (? & (lane & -> & Hl0)%elem_of_map & (b & (gs & -> & Hgs)%elem_of_map & Hin)%elem_of_concat).
    apply (proj2 Hs gs row); [|done]. apply elem_of_concat. eauto.
  - by apply elem_of_all_rows in Hr as (lane & ->%list_elem_of_singleton & []%not_elem_of_nil).
  - destruct projection as [kept|]; [|done]. cbn [default lookup list_lookup].
    apply elem_of_all_rows in Hr as (? & (lane & -> & Hin)%elem_of_map & (b & (b0 & -> & Hb0)%elem_of_map & Hr)%elem_of_concat).
    apply elem_of_map in Hr as (r & -> & [Hr _]%elem_of_filterb). apply (respects_narrowed (Some kept)).
    apply (Hn input lanes); [set_solver|done|]. apply elem_of_all_rows. exists lane. split; [done|].
    apply elem_of_concat. eauto.
  - apply elem_of_all_rows in Hr as (? & (lane & -> & Hin)%elem_of_map & (b & (b0 & -> & Hb0)%elem_of_map & Hr)%elem_of_concat).
    apply elem_of_map in Hr as (r & -> & Hr). cbn [default lookup list_lookup].
    intros i (e & He & Hnull)%map_lookup_Some. unfold project.
    rewrite (nth_lookup_Some _ _ _ (eval (expr e) r)).
    2: { rewrite map_map. apply map_lookup_Some. eauto. }
    eapply (expr_not_null (expr e)); [done| |done].
    apply (Hn input lanes); [set_solver|done|]. apply elem_of_all_rows. exists lane. split; [done|].
    apply elem_of_concat. eauto.
  - eapply null_sound_aggregate; [done| | |exact Hr].
    + intros r Hin. apply (Hn input lanes); [set_solver|done..].
    + eapply Forall2_impl; [eassumption|]. by intros ? ? [_ ?].
  - eapply null_sound_aggregate; [done| | |exact Hr].
    + intros r Hin. apply (Hn input lanes); [set_solver|done..].
    + eapply Forall2_impl; [eassumption|]. by intros ? ? [_ ?].
  - destruct (joined_lanes_rows _ _ _ _ _ _ _ _ _ ltac:(eassumption) Hr) as (b & p & Hbin & Hpin & Hj).
    eapply null_sound_join; [done|apply Hw; set_solver|apply Hw; set_solver| | |exact Hj].
    + intros r Hin. apply (IH build ltac:(set_solver) bs); auto.
    + intros r Hin. apply (IH probe ltac:(set_solver) ps); auto.
  - rewrite all_rows_one in Hr.
    match goal with H : concat lane ≡ₚ _ |- _ => rewrite H in Hr end.
    eapply null_sound_join; [done|apply Hw; set_solver|apply Hw; set_solver| | |exact Hr]; intros r Hin.
    + apply (IH build ltac:(set_solver) [b]); [done|]. by rewrite all_rows_one.
    + apply (IH probe ltac:(set_solver) [p]); [done|]. by rewrite all_rows_one.
  - rewrite all_rows_one in Hr.
    match goal with H : concat lane ≡ₚ _ |- _ => rewrite H in Hr end.
    eapply null_sound_join; [done|apply Hw; set_solver|apply Hw; set_solver| | |exact Hr]; intros r Hin.
    + apply (IH build ltac:(set_solver) [b]); [done|]. by rewrite all_rows_one.
    + apply (IH probe ltac:(set_solver) [p]); [done|]. by rewrite all_rows_one.
  - apply elem_of_all_rows in Hr as (lane & (lanes & Hl0 & Hin)%elem_of_concat & Hr).
    eapply (null_sound_branches branches); [by eapply branch_answers|apply elem_of_all_rows; eauto| |].
    + intros c Hcin. rewrite (Hw c Hcin). by apply (branch_width _ _ Hwf).
    + intros c Hcin ls Hls r Hrin. by apply (Hn c ls).
  - destruct (interleaved_rows _ _ _ ltac:(eassumption) Hr) as (lanes & Hl0 & Hr0).
    eapply (null_sound_branches branches); [by eapply branch_answers|exact Hr0| |].
    + intros c Hcin. rewrite (Hw c Hcin). by apply (branch_width _ _ Hwf).
    + intros c Hcin ls Hls r Hrin. by apply (Hn c ls).
Qed.

Lemma accepted_null_sound root :
  null_laws -> (forall b, mark b <> null) -> read_width read_rows ->
  Forall (fun d => well_formed d /\ built d) (descendants root) ->
  (forall d, d ∈ descendants root -> honest_scan d) ->
  forall node lanes, node ∈ descendants root -> computes node lanes -> null_sound node lanes.
Proof.
  intros Hl Hm Hrw Hw Hs.
  assert (Hsound : forall node, node ∈ descendants root -> kind node <> Sink ->
    length (can_be_null node) = width_of node
    /\ forall lanes, computes node lanes -> null_sound node lanes); cycle 1.
  { intros node lanes Hin Hc. apply Hsound; [done| |done]. intros Hk.
    rewrite Forall_forall in Hw. destruct (Hw node Hin) as [_ [Hb _]]. rewrite <- Hb in Hk.
    by destruct Hc. }
  assert (Hrows : forall node lanes, node ∈ descendants root -> computes node lanes -> widths (width_of node) lanes).
  { intros node lanes Hin Hc. by destruct (accepted_is_sound _ _ _ _ _ _ _ _ root node lanes (column_reads Hl) Hrw Hw Hin Hc). }
  revert Hw Hs Hrows. induction root as [root IH] using node_ind_children.
  intros Hw Hs Hrows.
  pose proof Hw as [[Hwf Hb] Hkids]%descendants_ind. rewrite Forall_forall in Hkids.
  assert (Hsub : forall c node, c ∈ children root -> node ∈ descendants c -> node ∈ descendants root).
  { intros c node Hc Hin. rewrite descendants_eq. right. apply elem_of_concat. eexists. split; [|exact Hin].
    apply elem_of_map. eauto. }
  assert (Hbelow : forall c, c ∈ children root -> forall node, node ∈ descendants c -> kind node <> Sink ->
    length (can_be_null node) = width_of node /\ forall lanes, computes node lanes -> null_sound node lanes).
  { intros c Hc. apply IH; [done|by apply Hkids| |]; eauto. }
  assert (Hself : forall c, c ∈ children root -> c ∈ descendants c).
  { intros c _. rewrite descendants_eq. apply list_elem_of_here. }
  intros node Hin Hk. rewrite descendants_eq in Hin.
  apply elem_of_cons in Hin as [->|(ds & (c & -> & Hcin)%elem_of_map & Hin)%elem_of_concat]; [|by apply (Hbelow c)].
  assert (Hwidth : forall c, c ∈ children root -> length (can_be_null c) = width_of c).
  { intros c Hc. apply (Hbelow c Hc); [by apply Hself|]. by apply (inputs_on_device _ Hwf). }
  assert (Hh : honest_scan root) by (apply Hs; rewrite descendants_eq; apply list_elem_of_here).
  split; [by apply can_be_null_width|].
  intros lanes Hc. apply null_sound_of_children; try done.
  intros c Hcin ls Hls row Hr. split.
  - apply elem_of_all_rows in Hr as (lane & Hl0 & Hr). eapply (Hrows c ls); eauto.
  - exact (proj2 (Hbelow c Hcin c (Hself c Hcin) (inputs_on_device _ Hwf c Hcin)) ls Hls row Hr).
Qed.

(** C19: a column the analysis clears holds no NULL.  In any tree [validate] accepts, built by the
    nodes' constructors over scans whose metadata is true of their rows, whatever lanes a node may
    answer: wherever [can_be_null] says no of a column, that column of every row is a value.  It is
    carried through expressions, the sides each join type pads, the keys a grouping set leaves out,
    branches that disagree and projections. *)
Theorem cleared_columns_hold_no_null root node lanes lane row i :
  null_laws -> (forall b, mark b <> null) -> read_width read_rows ->
  validate root = Ok () -> (forall d, d ∈ descendants root -> built d /\ honest_scan d) ->
  node ∈ descendants root -> computes node lanes -> lane ∈ lanes -> row ∈ concat lane ->
  can_be_null node !! i = Some false -> nth i row null <> null.
Proof.
  intros Hl Hm Hrw Hv Hd Hin Hc Hlane Hrow Hi.
  assert (Hw : Forall (fun d => well_formed d /\ built d) (descendants root)).
  { apply accepted_nodes; [done|]. intros d Hdin. by apply Hd. }
  assert (Hr : row ∈ all_rows lanes) by (apply elem_of_all_rows; eauto).
  exact (accepted_null_sound root Hl Hm Hrw Hw (fun d Hdin => proj2 (Hd d Hdin)) node lanes Hin Hc row Hr i Hi).
Qed.
End Sound.

(** ** A left join of two scans, over optional numbers *)
Fixpoint demo_eval (e : Expr) (row : list (option nat)) : option nat :=
  match e with
  | Column r => nth (index r) row None
  | Literal v => match scalar_value v with Some _ => Some 1 | None => None end
  | BinaryE l _ r _ | Like l r _ _ => x ← demo_eval l row; y ← demo_eval r row; Some (x + y)
  | UnaryE op a =>
      match op with
      | IsNull | IsNotNull => Some match demo_eval a row with Some _ => 0 | None => 1 end
      | _ => demo_eval a row
      end
  | Cast e _ => demo_eval e row
  | Case _ _ (Some otherwise) => demo_eval otherwise row
  | Case _ _ None | ScalarFunction _ _ _ _ => None
  end.

Lemma demo_laws : null_laws None demo_eval.
Proof.
  split.
  - done.
  - intros v row Hv. cbn. by destruct (scalar_value v).
  - intros l op r t row Hl Hr. cbn. destruct (demo_eval l row); [|done]. by destruct (demo_eval r row).
  - done.
  - by intros op e row [-> | ->].
  - intros [] e row He; done.
  - intros l r neg ci row Hl Hr. cbn. destruct (demo_eval l row); [|done]. by destruct (demo_eval r row).
  - intros c wts otherwise row. by left.
Qed.

Definition demo_field (name : string) (nullable : bool) : Field :=
  {| field_name := name; data_type := Int64; nullable := nullable |}.
Definition demo_scan (file : string) : GpuNode :=
  new_load_parquet file [0] [[[0]]]
    {| scan_file := file; scan_can_be_null := [false];
       scan_groups := [{| rg_index := 0; rg_rows := 2; rg_bytes := 8 |}] |} (schema_new [demo_field "x" false]).
Definition demo_join : GpuNode :=
  new_hash_join (new_coalesce_all_batches (demo_scan "build")) (demo_scan "probe") Left [(0, 0)] None [] false None
    (schema_new [demo_field "x" false; demo_field "y" true]).
Definition demo_query : GpuNode := new_unload demo_join None.

Definition demo_rows (file : string) (projection groups : list nat) : list (list (option nat)) :=
  map (fun v => if rows_only projection then [Some v] else map (fun _ => Some v) projection)
    (if String.eqb file "build" then [1; 2] else [2]).

Definition demo_match (keys : list (nat * nat)) (filter : option Expr) (columns : list JoinFilterColumn)
    (nulls : bool) (b p : list (option nat)) : bool :=
  bool_decide (map (fun k => nth k.1 b None) keys = map (fun k => nth k.2 p None) keys).

(** The build's row 1 meets no probe row and is padded: its second column is the one [can_be_null]
    keeps. *)
Lemma cleared_columns_hold_no_null_witness :
  can_be_null demo_join = [false; true] /\ nth 0 [Some 1; None] None <> None.
Proof.
  split; [by vm_compute|].
  refine (cleared_columns_hold_no_null None (fun b : bool => Some (if b then 1 else 0)) demo_eval (fun _ _ => 0)
    (fun _ _ _ _ => Eq) (fun _ _ => true) demo_match demo_rows demo_query demo_join
    [[[[Some 2; Some 2]; [Some 1; None]]]] [[[Some 2; Some 2]; [Some 1; None]]] [Some 1; None] 0
    demo_laws _ _ _ _ _ _ _ _ _).
  - by intros [].
  - intros file projection groups row (v & -> & _)%elem_of_map. destruct (rows_only projection); [done|].
    apply length_map.
  - by vm_compute.
  - apply Forall_forall. repeat constructor; try done.
    all: intros b row _ (v & -> & _)%elem_of_map i; cbn; destruct i; done.
  - vm_compute. right. left.
  - apply (C_hash_join _ _ _ _ _ _ _ _ _ _ _ _ _ _ _ _ _ [[[[Some 1]; [Some 2]]]] [[[[Some 2]]]]).
    + apply (C_coalesce _ _ _ _ _ _ _ _ _ _ [[[[Some 1]; [Some 2]]]]).
      * exact (C_load _ _ _ _ _ _ _ demo_rows _ "build" "build" [0] [[[0]]] _ _).
      * constructor; [|constructor]. by eexists.
    + exact (C_load _ _ _ _ _ _ _ demo_rows _ "probe" "probe" [0] [[[0]]] _ _).
    + by vm_compute; repeat constructor.
  - left.
  - by vm_compute; right; left.
  - done.
Defined.
