(* ===== verification/Physical.v ===== *)
(** * DataFusion's physical plan, as the translator reads it

    The planner's input is a DataFusion tree.  Its nodes and expressions are foreign: what is here is
    the fields the translator's accessors read off each kind, one constructor per kind it tells
    apart, and [OtherPlan]/[OtherExpr] for every kind it refuses by name.  What DataFusion computes
    rather than stores is the class [DataFusion]. *)
From stdpp Require Import strings.
From S2P Require Import Prelude Interval PlanIR PlanCommon.
Open Scope nat_scope.

(** ** Expressions *)
Inductive Operator :=
| OpEq | OpNotEq | OpLt | OpLtEq | OpGt | OpGtEq | OpPlus | OpMinus | OpMultiply | OpDivide
| OpModulo | OpAnd | OpOr | OpBitwiseAnd | OpBitwiseOr | OpBitwiseXor | OpBitwiseShiftLeft
| OpBitwiseShiftRight | OpStringConcat | OpIsDistinctFrom | OpIsNotDistinctFrom
| OpOther (op_name : string).
#[export] Instance Operator_eq_dec : EqDecision Operator.
Proof. solve_decision. Defined.

Inductive PhysicalExpr :=
| ColumnExpr (col_index : nat) (col_name : string)
| LiteralExpr (value : ScalarValue)
| BinaryExpr (lhs : PhysicalExpr) (op : Operator) (rhs : PhysicalExpr)
| NotExpr (arg : PhysicalExpr)
| IsNullExpr (arg : PhysicalExpr)
| IsNotNullExpr (arg : PhysicalExpr)
| NegativeExpr (arg : PhysicalExpr)
| CastExpr (arg : PhysicalExpr) (cast_type : DataType)
| LikeExpr (negated case_insensitive : bool) (arg pattern : PhysicalExpr)
| CaseExpr (comparand : option PhysicalExpr) (when_then_expr : list (PhysicalExpr * PhysicalExpr))
    (else_expr : option PhysicalExpr)
| InListExpr (arg : PhysicalExpr) (items : list PhysicalExpr) (negated : bool)
| ScalarFunctionExpr (fun_name : string) (args : list PhysicalExpr) (return_type : DataType)
    (fun_nullable : bool)
| OtherExpr (expr_display : string).

(** ** What hangs off a plan node *)
Definition ArrowSchema := list Field.

Record SortExpr := { sort_expr : PhysicalExpr; descending : bool; sort_nulls_first : bool }.

Inductive DfJoinSide := DfLeft | DfRight | DfNone.
#[export] Instance DfJoinSide_eq_dec : EqDecision DfJoinSide.
Proof. solve_decision. Defined.

Record ColumnIndex := { ci_index : nat; ci_side : DfJoinSide }.
Record JoinFilter :=
  { filter_expression : PhysicalExpr; column_indices : list ColumnIndex; filter_schema : ArrowSchema }.

Inductive Partitioning :=
| HashPartitioning (exprs : list PhysicalExpr) (partitions : nat)
| RoundRobinBatch (partitions : nat)
| UnknownPartitioning (partitions : nat).

Inductive AggregateMode := Partial | Final | FinalPartitioned | Single | SinglePartitioned.

(** An aggregate call: the function's name, whether it is DISTINCT, its arguments, what DataFusion
    declares its state and its result to be. *)
Record AggregateFunctionExpr :=
  { aggr_name : string; fun_of : string; is_distinct : bool; expressions : list PhysicalExpr;
    state_fields : result string (list Field); aggr_field : Field }.

Record PhysicalGroupBy :=
  { group_exprs : list (PhysicalExpr * string); null_expr : list (PhysicalExpr * string);
    groups : list (list bool); is_single : bool }.

(** A parquet scan's base configuration. *)
Record ParquetExec :=
  { file_groups : list (list string); scan_projection : option (list nat); file_schema : ArrowSchema;
    scan_limit : option N; scan_schema : ArrowSchema }.

(** ** Plan nodes *)
Inductive ExecutionPlan :=
| ParquetPlan (parquet : ParquetExec)
| FilterExec (schema : ArrowSchema) (predicate : PhysicalExpr) (projection : option (list nat))
    (input : ExecutionPlan)
| ProjectionExec (schema : ArrowSchema) (exprs : list (PhysicalExpr * string)) (input : ExecutionPlan)
| SortExec (schema : ArrowSchema) (ordering : list SortExpr) (fetch : option N) (input : ExecutionPlan)
| CoalesceBatchesExec (schema : ArrowSchema) (fetch : option N) (input : ExecutionPlan)
| GlobalLimitExec (schema : ArrowSchema) (skip : N) (fetch : option N) (input : ExecutionPlan)
| LocalLimitExec (schema : ArrowSchema) (fetch : N) (input : ExecutionPlan)
| AggregateExec (mode : AggregateMode) (schema : ArrowSchema) (group : PhysicalGroupBy)
    (aggr_expr : list AggregateFunctionExpr) (filter_expr : list (option PhysicalExpr))
    (input : ExecutionPlan)
| CrossJoinExec (schema : ArrowSchema) (lhs rhs : ExecutionPlan)
| NestedLoopJoinExec (schema : ArrowSchema) (join_type : JoinType) (filter : option JoinFilter)
    (projection : option (list nat)) (lhs rhs : ExecutionPlan)
| RepartitionExec (schema : ArrowSchema) (partitioning : Partitioning) (input : ExecutionPlan)
| CoalescePartitionsExec (schema : ArrowSchema) (input : ExecutionPlan)
| SortPreservingMergeExec (schema : ArrowSchema) (ordering : list SortExpr) (fetch : option N) (input : ExecutionPlan)
| HashJoinExec (schema : ArrowSchema) (join_type : JoinType) (on : list (PhysicalExpr * PhysicalExpr))
    (filter : option JoinFilter) (null_equals_null : bool) (projection : option (list nat))
    (lhs rhs : ExecutionPlan)
| UnionExec (schema : ArrowSchema) (inputs : list ExecutionPlan)
| InterleaveExec (schema : ArrowSchema) (inputs : list ExecutionPlan)
| WindowExec (window_name : string) (schema : ArrowSchema)
| EmptyExec (schema : ArrowSchema)
| PlaceholderRowExec (placeholder_name : string) (schema : ArrowSchema)
| OtherPlan (other_name : string) (schema : ArrowSchema).

(** [ExecutionPlan::schema]. *)
Definition plan_schema (p : ExecutionPlan) : ArrowSchema :=
  match p with
  | ParquetPlan parquet => scan_schema parquet
  | FilterExec s _ _ _ | ProjectionExec s _ _ | SortExec s _ _ _ | CoalesceBatchesExec s _ _
  | GlobalLimitExec s _ _ _ | LocalLimitExec s _ _ | AggregateExec _ s _ _ _ _ | CrossJoinExec s _ _
  | NestedLoopJoinExec s _ _ _ _ _ | RepartitionExec s _ _ | CoalescePartitionsExec s _
  | SortPreservingMergeExec s _ _ _ | HashJoinExec s _ _ _ _ _ _ _ | UnionExec s _
  | InterleaveExec s _ | WindowExec _ s | EmptyExec s | PlaceholderRowExec _ s | OtherPlan _ s => s
  end.

Definition plan_children (p : ExecutionPlan) : list ExecutionPlan :=
  match p with
  | ParquetPlan _ | WindowExec _ _ | EmptyExec _ | PlaceholderRowExec _ _ | OtherPlan _ _ => []
  | FilterExec _ _ _ i | ProjectionExec _ _ i | SortExec _ _ _ i | CoalesceBatchesExec _ _ i
  | GlobalLimitExec _ _ _ i | LocalLimitExec _ _ i | AggregateExec _ _ _ _ _ i | RepartitionExec _ _ i
  | CoalescePartitionsExec _ i | SortPreservingMergeExec _ _ _ i => [i]
  | CrossJoinExec _ l r | NestedLoopJoinExec _ _ _ _ l r | HashJoinExec _ _ _ _ _ _ l r => [l; r]
  | UnionExec _ inputs | InterleaveExec _ inputs => inputs
  end.

Fixpoint plan_size (p : ExecutionPlan) : nat :=
  match p with
  | ParquetPlan _ | WindowExec _ _ | EmptyExec _ | PlaceholderRowExec _ _ | OtherPlan _ _ => 1
  | FilterExec _ _ _ i | ProjectionExec _ _ i | SortExec _ _ _ i | CoalesceBatchesExec _ _ i
  | GlobalLimitExec _ _ _ i | LocalLimitExec _ _ i | AggregateExec _ _ _ _ _ i | RepartitionExec _ _ i
  | CoalescePartitionsExec _ i | SortPreservingMergeExec _ _ _ i => S (plan_size i)
  | CrossJoinExec _ l r | NestedLoopJoinExec _ _ _ _ l r | HashJoinExec _ _ _ _ _ _ l r =>
      S (plan_size l + plan_size r)
  | UnionExec _ inputs | InterleaveExec _ inputs => S (sum_list_with plan_size inputs)
  end.

(** An [AggregateExec] once it is known to be one. *)
Record AggregateNode :=
  { an_mode : AggregateMode; an_schema : ArrowSchema; an_group : PhysicalGroupBy;
    an_aggr : list AggregateFunctionExpr; an_filters : list (option PhysicalExpr); an_input : ExecutionPlan }.

Definition as_aggregate (p : ExecutionPlan) : option AggregateNode :=
  match p with
  | AggregateExec mode schema group aggr filters input =>
      Some {| an_mode := mode; an_schema := schema; an_group := group; an_aggr := aggr; an_filters := filters;
              an_input := input |}
  | _ => None
  end.

Definition plan_name (p : ExecutionPlan) : string :=
  match p with
  | ParquetPlan _ => "ParquetExec" | FilterExec _ _ _ _ => "FilterExec" | ProjectionExec _ _ _ => "ProjectionExec"
  | SortExec _ _ _ _ => "SortExec" | CoalesceBatchesExec _ _ _ => "CoalesceBatchesExec"
  | GlobalLimitExec _ _ _ _ => "GlobalLimitExec" | LocalLimitExec _ _ _ => "LocalLimitExec"
  | AggregateExec _ _ _ _ _ _ => "AggregateExec" | CrossJoinExec _ _ _ => "CrossJoinExec"
  | NestedLoopJoinExec _ _ _ _ _ _ => "NestedLoopJoinExec" | RepartitionExec _ _ _ => "RepartitionExec"
  | CoalescePartitionsExec _ _ => "CoalescePartitionsExec"
  | SortPreservingMergeExec _ _ _ _ => "SortPreservingMergeExec"
  | HashJoinExec _ _ _ _ _ _ _ _ => "HashJoinExec" | UnionExec _ _ => "UnionExec"
  | InterleaveExec _ _ => "InterleaveExec" | EmptyExec _ => "EmptyExec"
  | WindowExec name _ | PlaceholderRowExec name _ | OtherPlan name _ => name
  end.

Lemma plan_size_children p : plan_size p = S (sum_list_with plan_size (plan_children p)).
Proof. destruct p; cbn; lia. Qed.

Lemma plan_size_child p c : c ∈ plan_children p -> plan_size c < plan_size p.
Proof.
  intros Hc. rewrite (plan_size_children p).
  pose proof (sum_list_with_in c plan_size (plan_children p) Hc). lia.
Qed.

(** ** What DataFusion answers, and what a file holds *)

(** A parquet file's footer: its columns' names and, per row group, its rows and per column chunk
    its uncompressed size and its statistics, if any, with the NULL count they carry, if any. *)
Record ColumnChunk := { uncompressed_size : Z; statistics : option (option N) }.
Record RowGroup := { group_rows : N; chunks : list ColumnChunk }.
Record ParquetFile := { file_columns : list string; row_groups : list RowGroup }.

Class DataFusion := {
  (** [PhysicalExpr::data_type] against a schema. *)
  expr_data_type : PhysicalExpr -> ArrowSchema -> result string DataType;
  (** [ScalarValue::try_from(&DataType)]: the typed NULL. *)
  typed_null : DataType -> result string ScalarValue;
  (** [Aggregate::grouping_id_type]. *)
  grouping_id_type : nat -> DataType;
  (** The file behind a path, or why it does not open. *)
  open_parquet : string -> result string ParquetFile;
  (** [ParquetExec::predicate] through [PruningPredicate::prune] over the groups' statistics: a flag per
      group, [false] where it can match nothing.  [None]: nothing was pushed down, or it cannot prune. *)
  prune : ParquetExec -> list RowGroup -> option (list bool);
  (** [FunctionRegistry::udf] with [ScalarFunctionExpr::new]: the session's function of that name. *)
  registered : string -> list PhysicalExpr -> DataType -> result string PhysicalExpr;
  (** [split_conjunction]: the conjuncts of a predicate. *)
  split_conjunction : PhysicalExpr -> list PhysicalExpr;
  (** [PartialEq] of two expressions. *)
  same_expr : PhysicalExpr -> PhysicalExpr -> bool;
  (** [CaseExpr::try_new]. *)
  case_try_new : option PhysicalExpr -> list (PhysicalExpr * PhysicalExpr) -> option PhysicalExpr ->
    result string PhysicalExpr }.

Definition INTERNAL_GROUPING_ID : string := "__grouping_id".
