(* ===== verification/ExprTrans.v ===== *)
(** * DataFusion's expressions in the engine's vocabulary, and back

    [planner/translator/expr.rs] and [executor/cpu_backend/expr_physical.rs].  Going in, each kind
    has its arm and any other is refused by name; [IN] has no counterpart and becomes a chain of
    equalities.  Going back, the cpu backend rebuilds the expression for DataFusion to run.  The
    theorem is that what it rebuilds answers what the planned expression did, NULLs included. *)
From stdpp Require Import strings.
From S2P Require Import Prelude Interval PlanIR PlanCommon Physical.
Open Scope nat_scope.

(** ** The translation *)
Definition translate_operator (op : Operator) : PlanResult BinaryOp :=
  match op with
  | OpEq => Ok Eq_
  | OpNotEq => Ok NotEq
  | OpLt => Ok Lt_
  | OpLtEq => Ok LtEq
  | OpGt => Ok Gt_
  | OpGtEq => Ok GtEq
  | OpPlus => Ok Plus
  | OpMinus => Ok Minus
  | OpMultiply => Ok Multiply
  | OpDivide => Ok Divide
  | OpModulo => Ok Modulo
  | OpAnd => Ok And
  | OpOr => Ok Or
  | OpBitwiseAnd => Ok BitwiseAnd
  | OpBitwiseOr => Ok BitwiseOr
  | OpBitwiseXor => Ok BitwiseXor
  | OpBitwiseShiftLeft => Ok BitwiseShiftLeft
  | OpBitwiseShiftRight => Ok BitwiseShiftRight
  | OpStringConcat => Ok StringConcat
  | OpIsDistinctFrom => Ok IsDistinctFrom
  | OpIsNotDistinctFrom => Ok IsNotDistinctFrom
  | OpOther name => Err (Unsupported ("binary operator " +:+ name +:+ " (#162)"))
  end.

(** The loop of [expand_in_list] over the items already translated: [None] is the chain before the
    first. *)
Definition in_list_chain (target : Expr) (items : list Expr) : option Expr :=
  foldl (fun chain item =>
    let eq := BinaryE target Eq_ item Boolean in
    Some match chain with None => eq | Some acc => BinaryE acc Or eq Boolean end) None items.

Section Translate.
Context `{DataFusion}.

Fixpoint translate_expr (e : PhysicalExpr) (input_schema : ArrowSchema) : PlanResult Expr :=
  match e with
  | ColumnExpr index name => Ok (Column {| index := index; ref_name := name |})
  | LiteralExpr value => Ok (Literal value)
  | BinaryExpr l op r =>
      out_type ← map_err (fun e => Invalid ("binary expression has no output type: " +:+ e))
                   (expr_data_type (BinaryExpr l op r) input_schema);
      l ← translate_expr l input_schema;
      op ← translate_operator op;
      r ← translate_expr r input_schema;
      Ok (BinaryE l op r out_type)
  | NotExpr a => UnaryE Not <$> translate_expr a input_schema
  | IsNullExpr a => UnaryE IsNull <$> translate_expr a input_schema
  | IsNotNullExpr a => UnaryE IsNotNull <$> translate_expr a input_schema
  | NegativeExpr a => UnaryE Negative <$> translate_expr a input_schema
  | CastExpr a cast_type => a ← translate_expr a input_schema; Ok (Cast a cast_type)
  | LikeExpr negated case_insensitive a pattern =>
      a ← translate_expr a input_schema;
      pattern ← translate_expr pattern input_schema;
      Ok (Like a pattern negated case_insensitive)
  | CaseExpr comparand when_then else_expr =>
      comparand ← match comparand with
                  | Some e => Some <$> translate_expr e input_schema
                  | None => Ok None
                  end;
      when_then ← traverse (fun '(w, t) =>
                    w ← translate_expr w input_schema;
                    t ← translate_expr t input_schema;
                    Ok (w, t)) when_then;
      else_expr ← match else_expr with
                  | Some e => Some <$> translate_expr e input_schema
                  | None => Ok None
                  end;
      Ok (Case comparand when_then else_expr)
  | InListExpr a items negated =>
      ensure (negb (bool_decide (length items = 0))) (Unsupported "IN with an empty list") ≫= fun _ =>
      target ← translate_expr a input_schema;
      items ← traverse (fun item => translate_expr item input_schema) items;
      chain ← ok_or (in_list_chain target items) (Invalid "the list is not empty");
      Ok (if negated then UnaryE Not chain else chain)
  | ScalarFunctionExpr name args return_type nullable =>
      args ← traverse (fun arg => translate_expr arg input_schema) args;
      Ok (ScalarFunction name args return_type nullable)
  | OtherExpr display => Err (Unsupported ("expression " +:+ display +:+ " (#162)"))
  end.

(** ** The way back *)
Definition operator (op : BinaryOp) : Operator :=
  match op with
  | Eq_ => OpEq
  | NotEq => OpNotEq
  | Lt_ => OpLt
  | LtEq => OpLtEq
  | Gt_ => OpGt
  | GtEq => OpGtEq
  | Plus => OpPlus
  | Minus => OpMinus
  | Multiply => OpMultiply
  | Divide => OpDivide
  | Modulo => OpModulo
  | And => OpAnd
  | Or => OpOr
  | BitwiseAnd => OpBitwiseAnd
  | BitwiseOr => OpBitwiseOr
  | BitwiseXor => OpBitwiseXor
  | BitwiseShiftLeft => OpBitwiseShiftLeft
  | BitwiseShiftRight => OpBitwiseShiftRight
  | StringConcat => OpStringConcat
  | IsDistinctFrom => OpIsDistinctFrom
  | IsNotDistinctFrom => OpIsNotDistinctFrom
  end.

Definition SQRT : string := "sqrt".

Definition scalar_function (name : string) (args : list PhysicalExpr) (return_type : DataType) :
    PlanResult PhysicalExpr :=
  map_err (fun error => Unsupported (name +:+ " is not in this session's functions: " +:+ error))
    (registered name args return_type).

Fixpoint physical_expr (e : Expr) (input : ArrowSchema) : PlanResult PhysicalExpr :=
  match e with
  | Column c =>
      field ← ok_or (input !! index c)
                (Invalid ("column " +:+ ref_name c +:+ " is past the input's columns"));
      ensure (bool_decide (field_name field = ref_name c))
        (Invalid ("column is " +:+ ref_name c +:+ " here and " +:+ field_name field +:+ " in the input"))
      ≫= fun _ => Ok (ColumnExpr (index c) (ref_name c))
  | Literal value => Ok (LiteralExpr value)
  | BinaryE l op r _ =>
      l ← physical_expr l input;
      r ← physical_expr r input;
      Ok (BinaryExpr l (operator op) r)
  | UnaryE op a =>
      a ← physical_expr a input;
      match op with
      | Not => Ok (NotExpr a)
      | IsNull => Ok (IsNullExpr a)
      | IsNotNull => Ok (IsNotNullExpr a)
      | Negative => Ok (NegativeExpr a)
      | Sqrt => scalar_function SQRT [a] Float64
      end
  | Cast a target => a ← physical_expr a input; Ok (CastExpr a target)
  | Like a pattern negated case_insensitive =>
      a ← physical_expr a input;
      pattern ← physical_expr pattern input;
      Ok (LikeExpr negated case_insensitive a pattern)
  | Case comparand when_then else_expr =>
      comparand ← match comparand with
                  | Some e => Some <$> physical_expr e input
                  | None => Ok None
                  end;
      arms ← traverse (fun '(w, t) =>
               w ← physical_expr w input;
               t ← physical_expr t input;
               Ok (w, t)) when_then;
      otherwise ← match else_expr with
                  | Some e => Some <$> physical_expr e input
                  | None => Ok None
                  end;
      map_err (fun error => Invalid ("case: " +:+ error)) (case_try_new comparand arms otherwise)
  | ScalarFunction name args return_type _ =>
      lowered ← traverse (fun arg => physical_expr arg input) args;
      scalar_function name lowered return_type
  end.

Definition physical_projection (exprs : list NamedExpr) (input : ArrowSchema) :
    PlanResult (list (PhysicalExpr * string)) :=
  traverse (fun named => e ← physical_expr (expr named) input; Ok (e, expr_name named)) exprs.
End Translate.

(** ** What an expression answers of a row *)
Section Meaning.
Context `{DataFusion} {V : Type} (v_null : V) (v_bool : bool -> V) (v_lit : ScalarValue -> V).
Context (apply_op : Operator -> V -> V -> V) (negative : V -> V) (cast_to : DataType -> V -> V).
Context (like : bool -> bool -> V -> V -> V) (case_of : option V -> list (V * V) -> option V -> V).
Context (call : string -> list V -> V).

(** SQL's truth values are [v_bool true], [v_bool false] and [v_null]. *)
Definition truth (b : option bool) : V := match b with Some b => v_bool b | None => v_null end.
Definition is_truth (v : V) : Prop := exists b, v = truth b.

Definition or3 (a b : option bool) : option bool :=
  match a, b with
  | Some true, _ | _, Some true => Some true
  | Some false, Some false => Some false
  | _, _ => None
  end.

Context (truth_dec : V -> option bool) (not_ : V -> V) (is_null : V -> bool).

(** [x IN (ys)]: true where some [y] is equal, otherwise unknown where some comparison is, otherwise
    false. *)
Definition in_list (x : V) (ys : list V) : option bool :=
  let answers := map (fun y => truth_dec (apply_op OpEq x y)) ys in
  if existsb (fun a => bool_decide (a = Some true)) answers then Some true
  else if existsb (fun a => bool_decide (a = None)) answers then None
  else Some false.

Fixpoint means (e : PhysicalExpr) (row : list V) : V :=
  match e with
  | ColumnExpr i _ => nth i row v_null
  | LiteralExpr value => v_lit value
  | BinaryExpr l op r => apply_op op (means l row) (means r row)
  | NotExpr a => not_ (means a row)
  | IsNullExpr a => v_bool (is_null (means a row))
  | IsNotNullExpr a => v_bool (negb (is_null (means a row)))
  | NegativeExpr a => negative (means a row)
  | CastExpr a t => cast_to t (means a row)
  | LikeExpr neg ci a p => like neg ci (means a row) (means p row)
  | CaseExpr c wts el =>
      case_of (match c with Some c => Some (means c row) | None => None end)
        (map (fun '(w, t) => (means w row, means t row)) wts)
        (match el with Some e => Some (means e row) | None => None end)
  | InListExpr a items neg =>
      let answer := truth (in_list (means a row) (map (fun i => means i row) items)) in
      if neg then not_ answer else answer
  | ScalarFunctionExpr name args _ _ => call name (map (fun a => means a row) args)
  | OtherExpr _ => v_null
  end.

(** What DataFusion documents: a comparison answers a truth value, OR is Kleene's, a registered
    function is the one of its name, and a CASE built of parts is the CASE of them. *)
Record sql_laws : Prop := {
  truth_read : forall b, truth_dec (truth b) = b;
  eq_is_truth : forall x y, is_truth (apply_op OpEq x y);
  or_is_kleene : forall a b, apply_op OpOr (truth a) (truth b) = truth (or3 a b);
  registered_calls : forall name args t p row, registered name args t = Ok p ->
    means p row = call name (map (fun a => means a row) args);
  case_built : forall c wts el p row, case_try_new c wts el = Ok p ->
    means p row = means (CaseExpr c wts el) row }.

(** *** What the rebuilt expression answers *)
Definition denotes (e : Expr) (input : ArrowSchema) (f : list V -> V) : Prop :=
  forall p, physical_expr e input = Ok p -> forall row, means p row = f row.

Lemma denotes_binary l r op t input f g : denotes l input f -> denotes r input g ->
  denotes (BinaryE l op r t) input (fun row => apply_op (operator op) (f row) (g row)).
Proof. intros Hl Hr p Hp row. cbn in Hp. inv_ok. subst p. cbn. f_equal; [by apply Hl|by apply Hr]. Qed.

Lemma denotes_ext e input f g : (forall row, f row = g row) -> denotes e input f -> denotes e input g.
Proof. intros Hfg Hd p Hp row. by rewrite <- Hfg, (Hd p Hp). Qed.

(** Any of a list of comparisons, as [IN] reads them and as a chain of ORs answers. *)
Definition any3 (answers : list (option bool)) : option bool :=
  if existsb (fun a => bool_decide (a = Some true)) answers then Some true
  else if existsb (fun a => bool_decide (a = None)) answers then None
  else Some false.

Lemma any3_snoc answers a : any3 (answers ++ [a]) = or3 (any3 answers) a.
Proof.
  unfold any3. rewrite !existsb_app. cbn. rewrite !orb_false_r.
  destruct (existsb _ answers), (existsb (fun a => bool_decide (a = None)) answers); by destruct a as [[]|].
Qed.

Lemma in_list_is_any3 x ys : in_list x ys = any3 (map (fun y => truth_dec (apply_op OpEq x y)) ys).
Proof. done. Qed.

Lemma chain_denotes target items input x fs : sql_laws -> denotes target input x -> items <> [] ->
  Forall2 (fun item f => denotes item input f) items fs ->
  exists chain, in_list_chain target items = Some chain
    /\ denotes chain input (fun row => truth (in_list (x row) (map (fun f => f row) fs))).
Proof.
  intros Hl Ht. revert fs. induction items as [|item items IH] using rev_ind; [done|]. intros fs _ Hf.
  apply Forall2_app_inv_l in Hf as (fs1 & fs2 & Hfs & H2 & ->).
  apply Forall2_cons_inv_l in H2 as (f & ? & Hd & ->%Forall2_nil_inv_l & ->).
  assert (Heq : denotes (BinaryE target Eq_ item Boolean) input
    (fun row => truth (truth_dec (apply_op OpEq (x row) (f row))))).
  { eapply denotes_ext; [|by apply denotes_binary]. intros row. cbn.
    destruct (eq_is_truth Hl (x row) (f row)) as [b ->]. by rewrite (truth_read Hl). }
  unfold in_list_chain. rewrite foldl_app. cbn.
  destruct items as [|i0 items'] eqn:Hi.
  - apply Forall2_nil_inv_l in Hfs as ->. eexists. split; [done|].
    eapply denotes_ext; [|exact Heq]. intros row. rewrite in_list_is_any3. cbn.
    by destruct (truth_dec _) as [[]|].
  - rewrite <- Hi in *. destruct (IH fs1 ltac:(by rewrite Hi) Hfs) as (chain & Hc & Hdc).
    unfold in_list_chain in Hc. rewrite Hc. eexists. split; [done|].
    eapply denotes_ext; [|exact (denotes_binary _ _ Or Boolean _ _ _ Hdc Heq)]. intros row. cbn.
    rewrite (or_is_kleene Hl), !in_list_is_any3, !map_app. cbn. by rewrite any3_snoc.
Qed.

Lemma denoted_list es fs input ps row :
  Forall2 (fun e f => denotes e input f) es fs -> traverse (fun e => physical_expr e input) es = Ok ps ->
  map (fun p => means p row) ps = map (fun f => f row) fs.
Proof.
  intros Hd. revert ps. induction Hd as [|e f es fs He _ IH]; intros ps Hp; cbn in Hp; inv_ok; [by subst|].
  subst ps. cbn. f_equal; [by apply He|by apply IH].
Qed.

Definition denotes_option (e : option Expr) (input : ArrowSchema) (f : list V -> option V) : Prop :=
  forall p, match e with Some e => Some <$> physical_expr e input | None => Ok None end = Ok p ->
  forall row, match p with Some p => Some (means p row) | None => None end = f row.

Lemma denotes_some e input f : denotes e input f -> denotes_option (Some e) input (fun row => Some (f row)).
Proof.
  intros Hd p Hp row. destruct (physical_expr e input) as [q|] eqn:Hq; cbn in Hp; [|done].
  injection Hp as <-. by rewrite (Hd q Hq).
Qed.

Lemma denotes_case c wts el input fc fw fe : sql_laws ->
  denotes_option c input fc -> Forall2 (fun '(w, t) f => denotes w input (fun row => (f row).1)
                                        /\ denotes t input (fun row => (f row).2)) wts fw ->
  denotes_option el input fe ->
  denotes (Case c wts el) input (fun row => case_of (fc row) (map (fun f => f row) fw) (fe row)).
Proof.
  intros Hl Hc Hw He p Hp row. cbn in Hp.
  apply bind_ok in Hp as (c' & Hc' & Hp). apply bind_ok in Hp as (arms & Ha & Hp).
  apply bind_ok in Hp as (el' & Hel & Hp).
  destruct (case_try_new c' arms el') as [p'|] eqn:Hnew; [|done]. injection Hp as <-.
  rewrite (case_built Hl _ _ _ _ row Hnew). cbn. rewrite <- (Hc _ Hc' row), <- (He _ Hel row).
  f_equal. apply traverse_ok in Ha. clear Hnew. revert arms Ha. clear -Hw.
  induction Hw as [|[w t] f wts fw [Hw Ht] _ IH]; intros arms Ha; inversion Ha as [|? [w' t'] ? arms' Hq Ha']; subst; [done|].
  cbn. apply bind_ok in Hq as (? & Hqw & Hq). apply bind_ok in Hq as (? & Hqt & [= <- <-]).
  rewrite (Hw _ Hqw row), (Ht _ Hqt row), <- surjective_pairing. f_equal. by apply IH.
Qed.

Lemma translated_list (schema input : ArrowSchema) es items :
  Forall (fun i => forall e, translate_expr i schema = Ok e -> denotes e input (means i)) items ->
  traverse (fun i => translate_expr i schema) items = Ok es ->
  Forall2 (fun e f => denotes e input f) es (map means items).
Proof.
  intros Hi. revert es. induction Hi as [|i items Hd _ IH]; intros es Ht; cbn in Ht; inv_ok; subst; [constructor|].
  cbn. constructor; [by apply Hd|by apply IH].
Qed.

Lemma translated_option schema input c c' :
  (forall i, c = Some i -> forall e, translate_expr i schema = Ok e -> denotes e input (means i)) ->
  match c with Some e => Some <$> translate_expr e schema | None => Ok None end = Ok c' ->
  denotes_option c' input (fun row => match c with Some c => Some (means c row) | None => None end).
Proof.
  intros Hd Hc. destruct c as [i|].
  - destruct (translate_expr i schema) as [e|] eqn:He; cbn in Hc; [|done]. injection Hc as <-.
    apply (denotes_some e input (means i)). by apply (Hd i).
  - injection Hc as <-. by intros p [= <-] row.
Qed.

Lemma translated_denotes p schema e input : sql_laws ->
  translate_expr p schema = Ok e -> denotes e input (means p).
Proof.
  intros Hl. revert p e. fix IH 1. intros [i name|v|l op r|a|a|a|a|a t|neg ci a pat|c wts el|a items neg|f args t nb|d] e;
    cbn [translate_expr]; intros Ht.
  - injection Ht as <-. intros p Hp row. cbn in Hp. inv_ok. by subst p.
  - injection Ht as <-. by intros p [= <-] row.
  - inv_ok. subst e. eapply denotes_ext; [|apply denotes_binary; by apply IH]. intros row. cbn.
    match goal with H : translate_operator op = Ok _ |- _ => destruct op; first [discriminate H|by injection H as <-] end.
  - destruct (translate_expr a schema) as [a'|] eqn:Ha; [|done]. injection Ht as <-. intros p Hp row.
    cbn in Hp. inv_ok. subst p. cbn. f_equal. by apply (IH a a').
  - destruct (translate_expr a schema) as [a'|] eqn:Ha; [|done]. injection Ht as <-. intros p Hp row.
    cbn in Hp. inv_ok. subst p. cbn. do 2 f_equal. by apply (IH a a').
  - destruct (translate_expr a schema) as [a'|] eqn:Ha; [|done]. injection Ht as <-. intros p Hp row.
    cbn in Hp. inv_ok. subst p. cbn. do 3 f_equal. by apply (IH a a').
  - destruct (translate_expr a schema) as [a'|] eqn:Ha; [|done]. injection Ht as <-. intros p Hp row.
    cbn in Hp. inv_ok. subst p. cbn. f_equal. by apply (IH a a').
  - inv_ok. subst e. intros p Hp row. cbn in Hp. inv_ok. subst p. cbn. f_equal. by eapply IH.
  - inv_ok. subst e. intros p Hp row. cbn in Hp. inv_ok. subst p. cbn. f_equal; by eapply IH.
  - apply bind_ok in Ht as (c' & Hc & Ht). apply bind_ok in Ht as (wts' & Hw & Ht).
    apply bind_ok in Ht as (el' & Hel & Ht). injection Ht as <-.
    eapply (translated_option _ input) in Hc; [|by destruct c as [i|]; intros ? [= <-]; apply IH].
    eapply (translated_option _ input) in Hel; [|by destruct el as [i|]; intros ? [= <-]; apply IH].
    eapply (denotes_ext _ _ (fun row => case_of _ (map (fun f => f row)
      (map (fun wt row => (means wt.1 row, means wt.2 row)) wts)) _)).
    2: { apply denotes_case; [done|exact Hc| |exact Hel]. apply traverse_ok in Hw.
         clear Hc Hel. revert wts' Hw. induction wts as [|[w t] wts IHw]; intros wts' Hw;
           inversion Hw as [|? [w' t'] ? ? Hq Hw']; subst; [constructor|].
         apply bind_ok in Hq as (? & Hqw & Hq). apply bind_ok in Hq as (? & Hqt & [= <- <-]).
         cbn. constructor; [split; by apply IH|by apply IHw]. }
    intros row. cbn. rewrite map_map. f_equal. apply map_ext. by intros [w t].
  - apply bind_ok in Ht as ([] & Hne & Ht). apply bind_ok in Ht as (target & Hta & Ht).
    apply bind_ok in Ht as (es & Hes & Ht).
    assert (Hd : Forall2 (fun e f => denotes e input f) es (map means items)).
    { eapply translated_list; [|exact Hes]. clear Hes Hne Ht. induction items as [|i items IHi]; constructor; [by apply IH|done]. }
    assert (Hnil : es <> []).
    { apply ensure_iff, negb_true_iff, bool_decide_eq_false in Hne. intros ->. by apply Forall2_nil_inv_l in Hd; destruct items. }
    destruct (chain_denotes target es input (means a) (map means items) Hl (IH a target Hta) Hnil Hd) as (chain & Hc & Hdc).
    rewrite Hc in Ht. cbn in Ht. injection Ht as <-.
    assert (Hin : denotes chain input (fun row => truth (in_list (means a row) (map (fun i => means i row) items)))).
    { eapply denotes_ext; [|exact Hdc]. intros row. cbn beta. by rewrite map_map. }
    destruct neg; [|exact Hin]. intros p Hp row. cbn in Hp. inv_ok. subst p. cbn. f_equal. by apply Hin.
  - apply bind_ok in Ht as (es & Hes & [= <-]).
    assert (Hd : Forall2 (fun e f => denotes e input f) es (map means args)).
    { eapply translated_list; [|exact Hes]. clear Hes. induction args as [|i args IHi]; constructor; [by apply IH|done]. }
    intros p Hp row. cbn in Hp. apply bind_ok in Hp as (ps & Hps & Hp). unfold scalar_function in Hp.
    destruct (registered f ps t) as [q|] eqn:Hq; [|done]. injection Hp as <-.
    rewrite (registered_calls Hl _ _ _ _ row Hq). cbn. f_equal. rewrite (denoted_list _ _ _ _ row Hd Hps). cbn beta.
    by rewrite map_map.
  - done.
Qed.

(** C23: the expression the cpu backend rebuilds answers what DataFusion's planned one does.  Whatever
    [translate_expr] makes of an expression, if [physical_expr] can rebuild it over the node's input
    then it answers every row alike: every operator comes back as itself, a CASE keeps its arms, and
    [x IN (a, b)], carried as [(x = a) OR (x = b)], is true, false and unknown on the same rows. *)
Theorem rebuilt_expression_answers_alike p schema e input p' row : sql_laws ->
  translate_expr p schema = Ok e -> physical_expr e input = Ok p' -> means p' row = means p row.
Proof. intros Hl Ht Hp. by apply (translated_denotes p schema e input Hl Ht p' Hp). Qed.
End Meaning.

(** ** [x NOT IN (1, NULL)] over optional numbers, where a truth value is 0, 1 or nothing *)
Section Demo.
#[local] Instance demo_datafusion : DataFusion := {|
  expr_data_type := fun _ _ => Ok Boolean; typed_null := fun t => Ok {| scalar_type := t; scalar_value := None |};
  grouping_id_type := fun _ => UInt8; open_parquet := Err; prune := fun _ _ => None;
  registered := fun name _ _ => Err name; same_expr := fun _ _ => false; split_conjunction := fun e => [e];
  case_try_new := fun c wts el => Ok (CaseExpr c wts el) |}.

Definition demo_truth (b : bool) : option Z := Some (Z.b2z b).
Definition demo_truth_dec (v : option Z) : option bool := (fun z => negb (z =? 0)%Z) <$> v.
Definition demo_lit (v : ScalarValue) : option Z := match scalar_value v with Some _ => Some 1%Z | None => None end.
Definition demo_op (op : Operator) (x y : option Z) : option Z :=
  match op with
  | OpEq => a ← x; b ← y; demo_truth (a =? b)%Z
  | OpOr => truth None demo_truth (or3 (demo_truth_dec x) (demo_truth_dec y))
  | _ => None
  end.
Definition demo_not (v : option Z) : option Z := truth None demo_truth (negb <$> demo_truth_dec v).
Definition demo_case (c : option (option Z)) (wts : list (option Z * option Z)) (el : option (option Z)) : option Z :=
  default None el.

Lemma demo_sql_laws :
  sql_laws None demo_truth demo_lit demo_op id (fun _ => id) (fun _ _ _ _ => None) demo_case (fun _ _ => None)
    demo_truth_dec demo_not (fun v => bool_decide (v = None)).
Proof.
  split; try done.
  - by intros [[]|].
  - intros [x|] [y|]; [by exists (Some (x =? y)%Z)|by exists None..].
  - by intros [[]|] [[]|].
  - by intros c wts el p row [= <-].
Qed.

Definition demo_null : ScalarValue := {| scalar_type := Int64; scalar_value := None |}.
Definition demo_not_in : PhysicalExpr := InListExpr (ColumnExpr 0 "x") [ColumnExpr 1 "y"; LiteralExpr demo_null] true.
Definition demo_input : ArrowSchema :=
  [{| field_name := "x"; data_type := Int64; nullable := true |}; {| field_name := "y"; data_type := Int64; nullable := true |}].
Definition demo_in_list : Expr :=
  UnaryE Not (BinaryE (BinaryE (expr_column 0 "x") Eq_ (expr_column 1 "y") Boolean) Or
                (BinaryE (expr_column 0 "x") Eq_ (Literal demo_null) Boolean) Boolean).
Definition demo_rebuilt : PhysicalExpr :=
  NotExpr (BinaryExpr (BinaryExpr (ColumnExpr 0 "x") OpEq (ColumnExpr 1 "y")) OpOr
             (BinaryExpr (ColumnExpr 0 "x") OpEq (LiteralExpr demo_null))).

Notation demo_means := (means None demo_truth demo_lit demo_op id (fun _ => id) (fun _ _ _ _ => None) demo_case
  (fun _ _ => None) demo_truth_dec demo_not (fun v => bool_decide (v = None))).

Lemma rebuilt_expression_answers_alike_witness :
  translate_expr demo_not_in demo_input = Ok demo_in_list
  /\ physical_expr demo_in_list demo_input = Ok demo_rebuilt
  /\ demo_means demo_rebuilt [Some 5%Z; Some 7%Z] = demo_means demo_not_in [Some 5%Z; Some 7%Z].
Proof.
  split; [reflexivity|]. split; [reflexivity|].
  exact (rebuilt_expression_answers_alike None demo_truth demo_lit demo_op id (fun _ => id) (fun _ _ _ _ => None)
    demo_case (fun _ _ => None) demo_truth_dec demo_not (fun v => bool_decide (v = None)) demo_not_in demo_input
    demo_in_list demo_input demo_rebuilt [Some 5%Z; Some 7%Z] demo_sql_laws eq_refl eq_refl).
Defined.

(** A row equal to a listed value is out; one equal to none is unknown beside the NULL. *)
Example not_in_beside_a_null :
  demo_means demo_not_in [Some 7%Z; Some 7%Z] = demo_truth false
  /\ demo_means demo_not_in [Some 5%Z; Some 7%Z] = None.
Proof. done. Qed.
End Demo.
