(* ===== verification/ScanMeta.v ===== *)
(** * What a scan's file says at plan time

    [planner/translator/scan_mapping/parquet_meta.rs], [rowgroup_prune.rs] beside it and
    [planner/parquet_nulls.rs]: the row groups pruning leaves, with the rows and projected bytes of each,
    and the columns that can hold a NULL.  The footer is [open_parquet]'s and a group's fate [prune]'s. *)
From stdpp Require Import strings.
From S2P Require Import Prelude Interval PlanIR PlanCommon Physical.
Open Scope nat_scope.

(** ** NULLs *)
Definition nulls_possible (statistics : option (option N)) : bool :=
  match mjoin statistics with Some count => (0 <? count)%N | None => true end.

Section Scan.
Context `{DataFusion}.

Definition open_file (path : string) : PlanResult ParquetFile :=
  map_err (fun e => Invalid (path +:+ ": " +:+ e)) (open_parquet path).

(** [group.columns()[position]], whose index panic is [None]. *)
Definition chunk_may_hold_null (position : nat) (group : RowGroup) : option bool :=
  (fun chunk => nulls_possible (statistics chunk)) <$> chunks group !! position.

(** [iter().any(..)] over the groups, stopping at the first hit. *)
Fixpoint any_group (f : RowGroup -> option bool) (groups : list RowGroup) : option bool :=
  match groups with
  | [] => Some false
  | g :: groups => b ← f g; if b : bool then Some true else any_group f groups
  end.

Definition column_may_hold_null (path column : string) : PlanResult (option bool) :=
  file ← open_file path;
  position ← ok_or (fst <$> list_find (fun c => c = column) (file_columns file))
               (Invalid (path +:+ ": no column " +:+ column));
  Ok (any_group (chunk_may_hold_null position) (row_groups file)).

(** ** The surviving row groups *)

(** [single_source_path]: several byte ranges of one file are one source. *)
Definition single_source_path (parquet : ParquetExec) : option string :=
  match concat (file_groups parquet) with
  | [] => None
  | first :: rest => if existsb (fun f => bool_decide (f <> first)) rest then None else Some ("/" +:+ first)
  end.

Definition kept_indices (keep : list bool) : list nat :=
  omap (fun '(i, k) => if k : bool then Some i else None) (imap pair keep).

(** [None]: read every group. *)
Definition surviving_row_groups (parquet : ParquetExec) : option (list nat) :=
  path ← single_source_path parquet;
  file ← match open_parquet path with Ok file => Some file | Err _ => None end;
  match row_groups file with
  | [] => None
  | groups =>
      keep ← prune parquet groups;
      let survivors := kept_indices keep in
      if length survivors =? length keep then None else Some survivors
  end.

Definition single_path (parquet : ParquetExec) : PlanResult string :=
  let paths := remove_dups (map (fun location => "/" +:+ location) (concat (file_groups parquet))) in
  ensure (length paths <=? 1) (Unsupported "a scan over several files: the row-group mapping addresses one file")
  ≫= fun _ => ok_or (head paths) (Invalid "a scan with no files").

Definition projected_columns (parquet : ParquetExec) : list nat :=
  match scan_projection parquet with Some columns => columns | None => seq 0 (length (file_schema parquet)) end.

Definition check_declared (path : string) (file : ParquetFile) (declared : ArrowSchema)
    (at_ : nat * nat) : PlanResult () :=
  let '(position, ordinal) := at_ in
  held ← ok_or (file_columns file !! ordinal) (Invalid (path +:+ ": the file has no column at that ordinal"));
  wanted ← ok_or (field_name <$> declared !! position) (Invalid (path +:+ ": the scan declares no such column"));
  ensure (bool_decide (held = wanted))
    (Unsupported (path +:+ ": the scan declares " +:+ wanted +:+ " and the file holds " +:+ held)).

Definition chunk_at (path : string) (group : RowGroup) (column : nat) : PlanResult ColumnChunk :=
  ok_or (chunks group !! column) (Invalid (path +:+ ": projected column has no chunk in a row group")).

(** What one surviving row group adds: its metadata, and the columns it may hold a NULL in. *)
Definition group_metadata (path : string) (projected : list nat) (index : nat) (group : RowGroup) :
    PlanResult (RowGroupMeta * list bool) :=
  held ← traverse (chunk_at path group) projected;
  let bytes := foldl Z.add 0%Z (map uncompressed_size held) in
  Ok ({| rg_index := index; rg_rows := group_rows group; rg_bytes := Z.to_N (bytes mod 2 ^ 64) |},
      map (fun chunk => nulls_possible (statistics chunk)) held).

Definition kept_groups (survivors : option (list nat)) (groups : list RowGroup) : list (nat * RowGroup) :=
  List.filter (fun '(index, _) => match survivors with Some kept => bool_decide (index ∈ kept) | None => true end)
    (imap pair groups).

Definition or_columns (columns other : list bool) : list bool := zip_with orb columns other.

Definition survivor_metadata (parquet : ParquetExec) : PlanResult ScanMetadata :=
  path ← single_path parquet;
  file ← open_file path;
  let projected := projected_columns parquet in
  for_each (check_declared path file (scan_schema parquet)) (imap pair projected) ≫= fun _ =>
  metadata ← traverse (fun '(index, group) => group_metadata path projected index group)
               (kept_groups (surviving_row_groups parquet) (row_groups file));
  Ok {| scan_file := path; scan_groups := map fst metadata;
        scan_can_be_null := foldl or_columns (replicate (length projected) false) (map snd metadata) |}.

(** ** Pruning leaves what can match *)
Lemma imap_pair_lookup {A} (l : list A) i x : (i, x) ∈ imap pair l <-> l !! i = Some x.
Proof.
  rewrite list_elem_of_lookup. split.
  - intros [j Hj]. rewrite list_lookup_imap in Hj. apply fmap_Some in Hj as (y & Hy & [= <- <-]). done.
  - intros Hi. exists i. by rewrite list_lookup_imap, Hi.
Qed.

Lemma kept_indices_elem keep i : i ∈ kept_indices keep <-> keep !! i = Some true.
Proof.
  unfold kept_indices. rewrite list_elem_of_omap. split.
  - intros ([j k] & Hin & Hk). apply imap_pair_lookup in Hin. destruct k; [|done]. by injection Hk as ->.
  - intros Hi. exists (i, true). split; [by apply imap_pair_lookup|done].
Qed.

Lemma kept_indices_length keep : length (kept_indices keep) = length (List.filter id keep).
Proof.
  unfold kept_indices. generalize (@pair nat bool), (fun i k => eq_refl : (@pair nat bool i k).2 = k).
  induction keep as [|k keep IH]; intros f Hf; [done|]. cbn. pose proof (Hf 0 k) as Hk. destruct (f 0 k) as [j k']. cbn in Hk. subst k'.
  specialize (IH (f ∘ S) (fun i => Hf (S i))). destruct k; cbn; by rewrite IH.
Qed.

(** A scan's groups are those of its file whose flag is not [false]: all of them where nothing prunes. *)
Lemma pruned_groups parquet path file keep i group : single_source_path parquet = Some path -> open_parquet path = Ok file ->
  prune parquet (row_groups file) = Some keep -> length keep = length (row_groups file) ->
  (i, group) ∈ kept_groups (surviving_row_groups parquet) (row_groups file)
  <-> row_groups file !! i = Some group /\ keep !! i = Some true.
Proof.
  intros Hp Hf Hk Hl. unfold surviving_row_groups, kept_groups. rewrite Hp. cbn. rewrite Hf. cbn.
  rewrite elem_of_filterb, imap_pair_lookup. destruct (row_groups file) as [|g groups] eqn:Hg; [split; by intros [? _]|].
  rewrite Hk. cbn [mbind option_bind]. destruct (Nat.eqb_spec (length (kept_indices keep)) (length keep)) as [Hall|_].
  - rewrite kept_indices_length in Hall. apply filter_length_forallb in Hall. rewrite forallb_forall in Hall.
    split; [|by intros [? _]]. intros [Hi _]. split; [done|]. apply lookup_lt_Some in Hi as Hlt. rewrite <- Hl in Hlt.
    apply lookup_lt_is_Some in Hlt as [k Hki]. rewrite Hki. f_equal. apply (Hall k), list_elem_of_In. by eapply list_elem_of_lookup_2.
  - by rewrite bool_decide_eq_true, kept_indices_elem.
Qed.

(** ** A column said not to hold a NULL holds none *)
Lemma nulls_possible_false st : nulls_possible st = false <-> st = Some (Some 0%N).
Proof.
  unfold nulls_possible. destruct st as [[c|]|]; cbn; [|done..]. rewrite N.ltb_ge. split; [intros ?; do 2 f_equal; lia|intros [= ->]; done].
Qed.

Lemma foldl_or_columns init others p :
  Forall (fun o => length o = length init) others ->
  length (foldl or_columns init others) = length init
  /\ (foldl or_columns init others !! p = Some false ->
      init !! p = Some false /\ forall o, o ∈ others -> o !! p = Some false).
Proof.
  revert init. induction others as [|o others IH]; intros init Hf; cbn.
  - split; [done|]. intros Hi. split; [done|]. by intros o []%not_elem_of_nil.
  - inversion Hf as [|? ? Ho Hrest]; subst.
    assert (Hl : length (or_columns init o) = length init) by (unfold or_columns; rewrite length_zip_with; lia).
    destruct (IH (or_columns init o)) as [Hlen Hp]; [by rewrite Hl|].
    split; [by rewrite Hlen|]. intros [Hi Hin]%Hp.
    apply lookup_zip_with_Some in Hi as (x & y & Hxy & Hx & Hy). symmetry in Hxy. apply orb_false_iff in Hxy as [-> ->].
    split; [done|]. intros o' [->|Ho']%elem_of_cons; [done|by apply Hin].
Qed.

Lemma group_metadata_ok path projected index group meta nulls :
  group_metadata path projected index group = Ok (meta, nulls) ->
  length nulls = length projected /\ rg_index meta = index /\ rg_rows meta = group_rows group
  /\ forall p c, projected !! p = Some c -> nulls !! p = Some false ->
       exists chunk, chunks group !! c = Some chunk /\ statistics chunk = Some (Some 0%N).
Proof.
  unfold group_metadata. intros (held & Hheld & [= <- <-])%bind_ok. apply traverse_ok in Hheld.
  split_and!; try done.
  - rewrite length_map. symmetry. by eapply Forall2_length.
  - intros p c Hp (chunk & Hc & Hn)%map_lookup_Some. symmetry in Hn. apply nulls_possible_false in Hn.
    pose proof (Forall2_lookup_lr _ _ _ _ _ _ Hheld Hp Hc) as Hat. apply ok_or_ok in Hat. eauto.
Qed.

(** The groups a scan keeps are the survivors with their own rows, in file order, and a column the
    metadata clears has a statistic of no NULLs in each of them. *)
Lemma survivor_metadata_ok parquet scan : survivor_metadata parquet = Ok scan ->
  exists path file, open_parquet path = Ok file /\ scan_file scan = path
  /\ map (fun m => (rg_index m, rg_rows m)) (scan_groups scan)
     = map (fun '(index, group) => (index, group_rows group))
         (kept_groups (surviving_row_groups parquet) (row_groups file))
  /\ length (scan_can_be_null scan) = length (projected_columns parquet)
  /\ forall p c index group, scan_can_be_null scan !! p = Some false -> projected_columns parquet !! p = Some c ->
       (index, group) ∈ kept_groups (surviving_row_groups parquet) (row_groups file) ->
       exists chunk, chunks group !! c = Some chunk /\ statistics chunk = Some (Some 0%N).
Proof.
  unfold survivor_metadata. intros (path & Hp & H0)%bind_ok. apply bind_ok in H0 as (file & Hf & H0).
  apply bind_ok in H0 as ([] & _ & H0). apply bind_ok in H0 as (metadata & Hm & [= <-]).
  exists path, file. unfold open_file in Hf. destruct (open_parquet path) as [f|] eqn:Hopen; [|done].
  injection Hf as ->. cbn [scan_file scan_groups scan_can_be_null].
  apply traverse_ok in Hm. set (kept := kept_groups _ _) in *.
  assert (Hlens : Forall (fun o => length o = length (replicate (length (projected_columns parquet)) false)) (map snd metadata)).
  { rewrite length_replicate. apply Forall_forall. intros o ([meta nulls] & -> & Hin)%elem_of_map.
    apply list_elem_of_lookup in Hin as [i Hi]. destruct (Forall2_lookup_r _ _ _ _ _ Hm Hi) as ([index group] & _ & Hg).
    by apply group_metadata_ok in Hg as (? & _). }
  split_and!; try done.
  - clear Hlens. induction Hm as [|[index group] [meta nulls] ks ms Hg _ IH]; [done|]. cbn.
    apply group_metadata_ok in Hg as (_ & -> & -> & _). by rewrite IH.
  - destruct (foldl_or_columns _ _ 0 Hlens) as [-> _]. apply length_replicate.
  - intros p c index group Hn Hc Hin. destruct (foldl_or_columns _ _ p Hlens) as [_ Hall].
    apply Hall in Hn as [_ Hn]. apply list_elem_of_lookup in Hin as [i Hi].
    destruct (Forall2_lookup_l _ _ _ _ _ Hm Hi) as ([meta nulls] & Hi' & Hg).
    apply group_metadata_ok in Hg as (_ & _ & _ & Hg). apply (Hg p c Hc), Hn.
    apply elem_of_map. eexists. split; [|by eapply list_elem_of_lookup_2]. done.
Qed.
End Scan.
