(* ===== verification/TransCommon.v ===== *)
(** * What the translation arms share

    The state a translation threads, and [planner/translator/common.rs]: the ordinals a DataFusion
    node names, a keyless join's row markers, and a limit's interval.  A translation counts the
    sources it reaches ([next_source]), refuses with a [PlanError], may panic, and runs on fuel that
    TransFacts.v shows is enough. *)
From stdpp Require Import strings.
From S2P Require Import Prelude Interval PlanIR PlanCommon PlanNodes Joins Physical ExprTrans.
Open Scope nat_scope.

(** ** Outcomes: an answer, a refusal, a panic, or fuel spent *)
Inductive outcome (A : Type) : Type :=
| Good (value : A)
| Refused (error : PlanError)
| Panicked
| OutOfFuel.
Arguments Good {A} value.
Arguments Refused {A} error.
Arguments Panicked {A}.
Arguments OutOfFuel {A}.

(** ** Outcomes in sequence *)
#[export] Instance outcome_ret : MRet outcome := fun _ => Good.
#[export] Instance outcome_bind : MBind outcome := fun _ _ k o =>
  match o with Good x => k x | Refused e => Refused e | Panicked => Panicked | OutOfFuel => OutOfFuel end.

Definition answered {A} (o : option (PlanResult A)) : outcome A :=
  match o with Some (Ok x) => Good x | Some (Err e) => Refused e | None => Panicked end.

Definition expected {A} (o : option A) : outcome A := match o with Some x => Good x | None => Panicked end.
Definition written {A} (r : PlanResult A) : outcome A := match r with Ok x => Good x | Err e => Refused e end.

Fixpoint map_outcome {A B} (f : A -> outcome B) (l : list A) : outcome (list B) :=
  match l with [] => Good [] | x :: l => y ← f x; ys ← map_outcome f l; Good (y :: ys) end.

Lemma bind_good {A B} (o : outcome A) (k : A -> outcome B) y :
  o ≫= k = Good y -> exists x, o = Good x /\ k x = Good y.
Proof. destruct o; cbn; [eauto|discriminate..]. Qed.

Ltac inv_good :=
  repeat match goal with
  | H : (_ ≫= _) = Good _ |- _ =>
      let x := fresh "x" in let E := fresh "E" in apply bind_good in H as (x & E & H)
  | H : Good _ = Good _ |- _ => injection H as H
  end.

Lemma expected_good {A} (o : option A) x : expected o = Good x -> o = Some x.
Proof. destruct o; by intros [= ->]. Qed.

(** *** A computation that answers or refuses *)
Definition ends {A} (o : outcome A) (P : A -> Prop) : Prop :=
  match o with Good x => P x | Refused _ => True | Panicked | OutOfFuel => False end.

Lemma ends_bind {A B} (o : outcome A) (k : A -> outcome B) P Q :
  ends o P -> (forall x, P x -> ends (k x) Q) -> ends (o ≫= k) Q.
Proof. destruct o; cbn; auto. Qed.

Lemma ends_good {A} (x : A) (P : A -> Prop) : P x -> ends (Good x) P.
Proof. done. Qed.

Lemma ends_written {A} (r : PlanResult A) : ends (written r) (fun x => r = Ok x).
Proof. by destruct r. Qed.

Lemma ends_expected {A} (o : option A) : is_Some o -> ends (expected o) (fun x => o = Some x).
Proof. by intros [x ->]. Qed.

Lemma after_written {A B} (r : PlanResult A) (k : A -> outcome B) Q :
  (forall x, r = Ok x -> ends (k x) Q) -> ends (written r ≫= k) Q.
Proof. intros Hk. eapply ends_bind; [apply ends_written|done]. Qed.

Lemma after_expected {A B} (o : option A) (k : A -> outcome B) Q :
  is_Some o -> (forall x, o = Some x -> ends (k x) Q) -> ends (expected o ≫= k) Q.
Proof. intros Ho Hk. eapply ends_bind; [by apply ends_expected|done]. Qed.

(** ** The monad *)
Definition TransM (A : Type) : Type := nat -> outcome (A * nat).
#[export] Instance TransM_ret : MRet TransM := fun _ x s => Good (x, s).
#[export] Instance TransM_bind : MBind TransM := fun _ _ f m s =>
  match m s with
  | Good (x, s) => f x s
  | Refused e => Refused e
  | Panicked => Panicked
  | OutOfFuel => OutOfFuel
  end.

Definition refuse {A} (e : PlanError) : TransM A := fun _ => Refused e.
Definition panic {A} : TransM A := fun _ => Panicked.
Definition from {A} (r : PlanResult A) : TransM A :=
  fun s => match r with Ok x => Good (x, s) | Err e => Refused e end.
(** An [expect], an index or an [unreachable!]. *)
Definition expect {A} (o : option A) : TransM A := match o with Some x => mret x | None => panic end.

Fixpoint mapT {A B} (f : A -> TransM B) (l : list A) : TransM (list B) :=
  match l with
  | [] => mret []
  | x :: l => y ← f x; ys ← mapT f l; mret (y :: ys)
  end.

(** *** What holds of the value and the counter a computation returns, if it returns *)
Definition returns {A} (m : TransM A) (s : nat) (Q : A -> nat -> Prop) : Prop :=
  forall x s', m s = Good (x, s') -> Q x s'.

Lemma returns_ret {A} (x : A) s (Q : A -> nat -> Prop) : Q x s -> returns (mret x) s Q.
Proof. by intros HQ ? ? [= <- <-]. Qed.

Lemma returns_bind {A B} (m : TransM A) (k : A -> TransM B) s (Q : B -> nat -> Prop) :
  returns m s (fun x s' => returns (k x) s' Q) -> returns (m ≫= k) s Q.
Proof.
  intros Hm y s'' Hb. unfold mbind, TransM_bind in Hb.
  destruct (m s) as [[x s']|e| |] eqn:E; try done. exact (Hm x s' E y s'' Hb).
Qed.

Lemma returns_weaken {A} (m : TransM A) s (P Q : A -> nat -> Prop) :
  returns m s P -> (forall x s', P x s' -> Q x s') -> returns m s Q.
Proof. intros Hm Hi x s' E. by apply Hi, Hm. Qed.

Lemma returns_from {A} (r : PlanResult A) s (Q : A -> nat -> Prop) :
  (forall x, r = Ok x -> Q x s) -> returns (from r) s Q.
Proof. intros HQ x s'. unfold from. destruct r as [y|e]; [|done]. intros [= -> ->]. by apply HQ. Qed.

Lemma returns_expect {A} (o : option A) s (Q : A -> nat -> Prop) :
  (forall x, o = Some x -> Q x s) -> returns (expect o) s Q.
Proof. intros HQ. destruct o as [y|]; [|done]. apply returns_ret. by apply HQ. Qed.

Lemma returns_mapT {A B} (f : A -> TransM B) (P : A -> B -> Prop) l s :
  (forall x s, x ∈ l -> returns (f x) s (fun y s' => P x y /\ s' = s)) ->
  returns (mapT f l) s (fun ys s' => Forall2 P l ys /\ s' = s).
Proof.
  revert s. induction l as [|x l IH]; intros s Hf; cbn.
  - apply returns_ret. by split; [constructor|].
  - apply returns_bind. eapply returns_weaken; [apply Hf, list_elem_of_here|]. intros y s' [Hy ->].
    apply returns_bind. eapply returns_weaken; [apply IH|].
    + intros x' s' Hx. apply Hf. by apply list_elem_of_further.
    + intros ys s' [Hys ->]. apply returns_ret. split; [by constructor|done].
Qed.

(** Whatever such a computation returns, it left the counter alone. *)
Definition keeps_count {A} (m : TransM A) : Prop := forall s, returns m s (fun _ s' => s' = s).

Lemma keeps_count_ret {A} (x : A) : keeps_count (mret x).
Proof. intros s. by apply returns_ret. Qed.
Lemma keeps_count_from {A} (r : PlanResult A) : keeps_count (from r).
Proof. intros s. by apply returns_from. Qed.
Lemma keeps_count_expect {A} (o : option A) : keeps_count (expect o).
Proof. intros s. by apply returns_expect. Qed.
Lemma keeps_count_refuse {A} e : keeps_count (refuse (A:=A) e).
Proof. done. Qed.
Lemma keeps_count_bind {A B} (m : TransM A) (k : A -> TransM B) :
  keeps_count m -> (forall x, keeps_count (k x)) -> keeps_count (m ≫= k).
Proof.
  intros Hm Hk s. apply returns_bind. eapply returns_weaken; [apply Hm|]. intros x s' ->. apply Hk.
Qed.
Lemma keeps_count_mapT {A B} (f : A -> TransM B) l : (forall x, keeps_count (f x)) -> keeps_count (mapT f l).
Proof.
  intros Hf. induction l as [|x l IH]; cbn; [apply keeps_count_ret|].
  apply keeps_count_bind; [done|]. intros y. apply keeps_count_bind; [done|]. intros ys. apply keeps_count_ret.
Qed.

#[export] Hint Resolve keeps_count_ret keeps_count_from keeps_count_expect keeps_count_refuse keeps_count_mapT
  keeps_count_bind : peacock.

(** One step of a computation: what it translates first, then the rest. *)
Lemma returns_after {A B} (m : TransM A) (k : A -> TransM B) s (Q : B -> nat -> Prop) :
  keeps_count m -> (forall x, returns (k x) s Q) -> returns (m ≫= k) s Q.
Proof. intros Hm Hk. apply returns_bind. eapply returns_weaken; [apply Hm|]. intros x s' ->. apply Hk. Qed.

Lemma returns_after_from {A B} (r : PlanResult A) (k : A -> TransM B) s (Q : B -> nat -> Prop) :
  (forall x, r = Ok x -> returns (k x) s Q) -> returns (from r ≫= k) s Q.
Proof. intros Hk. apply returns_bind, returns_from. done. Qed.

Lemma returns_after_expect {A B} (o : option A) (k : A -> TransM B) s (Q : B -> nat -> Prop) :
  (forall x, o = Some x -> returns (k x) s Q) -> returns (expect o ≫= k) s Q.
Proof. intros Hk. apply returns_bind, returns_expect. done. Qed.

(** ** A node's own answers *)
Definition lanes (node : GpuNode) : nat := n (input_layout node).
Definition batches (node : GpuNode) : BatchLayout := batch_layout (input_layout node).

(** ** Ordinals *)
Section Ordinals.
Context `{DataFusion}.

Definition column_ordinal_of (e : PhysicalExpr) (input_schema : ArrowSchema) (site : string) : PlanResult nat :=
  translated ← translate_expr e input_schema;
  match translated with
  | Column reference => Ok (index reference)
  | _ => Err (Unsupported (site +:+ " is an expression rather than a column"))
  end.

Definition hash_key_ordinals (exprs : list PhysicalExpr) (input_schema : ArrowSchema) : PlanResult (list nat) :=
  traverse (fun e => column_ordinal_of e input_schema "hash key") exprs.

Definition sort_key_ordinals (exprs : list SortExpr) (input_schema : ArrowSchema) : PlanResult (list ColumnOrder) :=
  traverse (fun key =>
    c ← column_ordinal_of (sort_expr key) input_schema "sort key";
    Ok {| column := c; ascending := negb (descending key); nulls_first := sort_nulls_first key |}) exprs.
End Ordinals.

Definition filter_column (c : ColumnIndex) : PlanResult JoinFilterColumn :=
  side ← match ci_side c with
         | DfLeft => Ok Build
         | DfRight => Ok Probe
         | DfNone => Err (Unsupported "a join filter reading the mark column: it belongs to neither side, so this mode has no ordinal to rebase it onto")
         end;
  Ok {| side := side; filter_index := ci_index c |}.

Definition filter_column_map (filter : JoinFilter) : PlanResult (list JoinFilterColumn) :=
  traverse filter_column (column_indices filter).

(** ** Row markers *)

(** One side's columns: DataFusion's ordinals, or the marker where it plans none. *)
Definition side_ordinals (emitted : bool) (width : nat) (acc : list (option nat) * nat) : list (option nat) * nat :=
  let '(ours, next) := acc in
  match emitted, width with
  | false, _ => (ours, next)
  | true, 0 => (ours ++ [None], next)
  | true, _ => (ours ++ map Some (seq next width), next + width)
  end.

Definition emitted_ordinals (jt : JoinType) (build probe : nat) : list (option nat) :=
  let '(with_build, with_probe) := emitted_sides jt in
  let '(ours, next) := side_ordinals with_probe probe (side_ordinals with_build build ([], 0)) in
  ours ++ map Some (seq next (emitted_columns jt build probe - next)).

(** [None] is a failed [expect]. *)
Definition past_rowmarkers (schema : ArrowSchema) (build probe : nat) (jt : JoinType)
    (projection : option (list nat)) : option (option (list nat) * Schema) :=
  let ours := emitted_ordinals jt build probe in
  let theirs := emitted_columns jt build probe in
  match position (fun from => bool_decide (from = None)) ours with
  | None => Some (projection, schema_new schema)
  | Some marker =>
      kept ← mapM (fun ordinal => position (fun from => bool_decide (from = Some ordinal)) ours)
               (default (seq 0 theirs) projection);
      Some match kept with
           | [] => (Some [marker], rowmarker)
           | _ => (Some kept, schema_new schema)
           end
  end.

(** ** Co-location and limits *)
Definition co_partitioned (build probe : GpuNode) (keys : list (nat * nat)) : bool :=
  let scattered_on node on :=
    (lanes node =? 1) || bool_decide (key_distribution (input_layout node) = ByHash on) in
  (lanes build =? lanes probe) && scattered_on build (map fst keys) && scattered_on probe (map snd keys).

Definition limit_interval (plan : ExecutionPlan) : option (ExecutionPlan * RowInterval) :=
  match plan with
  | GlobalLimitExec _ skip fetch input => Some (input, {| skip := skip; fetch := fetch |})
  | LocalLimitExec _ fetch input => Some (input, {| skip := 0; fetch := Some fetch |})
  | CoalesceBatchesExec _ (Some fetch) input => Some (input, {| skip := 0; fetch := Some fetch |})
  | _ => None
  end.

(** ** The shuffle's halves ([translator/nodes.rs]) *)
Definition merged (input : GpuNode) : GpuNode :=
  if 1 <? lanes input then new_merge_partitions input else input.

Definition shuffled (input : GpuNode) (keys : list nat) (n_ : nat) : GpuNode :=
  let was_single_batch := bool_decide (batches input = SingleBatch) in
  let input := merged input in
  let input := if was_single_batch && negb (bool_decide (batches input = SingleBatch))
               then new_coalesce_all_batches input else input in
  new_emit_partitions input keys n_.
