(* ===== verification/TransAgg.v ===== *)
(** * The aggregate sequence

    [planner/translator/aggregate.rs]: one DataFusion aggregate, or a pair of them, decomposed into
    the inits, the merges and the shuffle each position needs; which parts are emitted depends on
    the lanes and batches below.  The DISTINCT lowering ([aggregate/distinct.rs]) runs the sequence
    twice. *)
From stdpp Require Import strings.
From S2P Require Import Prelude Interval PlanIR PlanCommon PlanNodes Joins Aggregates Physical ExprTrans TransCommon.
Open Scope nat_scope.

(** ** The shuffle below a final aggregate *)
Inductive Shuffle :=
| ShuffleNone
| ShuffleByHash (keys : list nat) (lanes_ : nat)
| Collapse.

Section Aggregate.
Context `{DataFusion}.

Fixpoint shuffle_from (plan : ExecutionPlan) (shuffle : Shuffle) : ExecutionPlan * Shuffle :=
  match plan with
  | CoalesceBatchesExec _ (Some _) _ => (plan, shuffle)
  | CoalesceBatchesExec _ None input => shuffle_from input shuffle
  | CoalescePartitionsExec _ input => shuffle_from input Collapse
  | RepartitionExec _ (HashPartitioning exprs lanes_) input =>
      match hash_key_ordinals exprs (plan_schema input) with
      | Ok keys => shuffle_from input (ShuffleByHash keys lanes_)
      | Err _ => (plan, shuffle)
      end
  | RepartitionExec _ _ input => shuffle_from input shuffle
  | _ => (plan, shuffle)
  end.

Definition shuffle_below (plan : ExecutionPlan) : ExecutionPlan * Shuffle := shuffle_from plan ShuffleNone.

(** ** One aggregate's state *)
Definition ends_with (s suffix : string) : bool :=
  bool_decide (String.substring (String.length s - String.length suffix) (String.length suffix) s = suffix)
  && (String.length suffix <=? String.length s).

Definition declared_nullable (declared : list Field) (func : PlanAgg) (aggregate : string) : PlanResult bool :=
  match declared with
  | [field] => Ok (nullable field)
  | _ =>
      let tagged := "[" +:+ tag func +:+ "]" in
      ok_or (nullable <$> List.find (fun field => ends_with (field_name field) tagged) declared)
        (Invalid (aggregate +:+ ": DataFusion declares no " +:+ tagged
                  +:+ " state column, so this mode's decomposition of it has drifted"))
  end.

Inductive InitFrom :=
| Values
| Deduplicated (arg : Expr) (arg_type : DataType)
| StateOf (columns : AggStateColumns).

Definition reads_values (from : InitFrom) : bool := match from with Values => true | _ => false end.

Record Stage :=
  { stage_input : GpuNode; stage_schema : ArrowSchema; stage_group_by : list Expr;
    stage_keys : list Field; stage_sets : list (list bool); stage_nulls : list Expr;
    stage_aggregates : list (AggregateFunctionExpr * InitFrom); stage_finished : option ArrowSchema }.

Record Decomposed :=
  { d_init : list AggCall; d_merge : list AggCall; d_state : list Field; d_finalize : list Expr;
    d_annotations : list AggStateColumns }.

Definition state_type_of (func : PlanAgg) (input : DataType) : TransM DataType :=
  t ← expect (state_type func input); from t.

(** The init of one of a companion's state columns: its merge rule run over the inner stage's. *)
Definition companion_column (name : string) (funcs : list PlanAgg) (columns : AggStateColumns)
    (input_schema : ArrowSchema) (at_ : nat * (string * PlanAgg)) : TransM (Field * AggCall) :=
  let '(index, (suffix, _)) := at_ in
  at_ ← expect (positions columns !! index);
  inner ← expect (input_schema !! at_);
  func ← expect (funcs !! index);
  t ← state_type_of func (data_type inner);
  let field := {| field_name := name +:+ suffix; data_type := t; nullable := true |} in
  mret (field, {| call_func := func; call_args := [expr_column at_ (field_name inner)]; outputs := [field] |}).

(** What an ordinary aggregate reads: its arguments, the first one's type and the state DataFusion
    declares for it. *)
Definition own_values (aggregate : AggregateFunctionExpr) (rule : Decomposition) (input_schema : ArrowSchema) :
    TransM (list Expr * DataType * option (list Field)) :=
  let named := map_err (fun e => Invalid (aggr_name aggregate +:+ ": " +:+ e)) in
  declared ← from (named (state_fields aggregate));
  from (ensure (length declared =? length (state rule))
    (Invalid (aggr_name aggregate +:+ ": DataFusion declares other state columns than this mode decomposes into"))) ≫= fun _ =>
  args ← mapT (fun arg => from (translate_expr arg input_schema)) (expressions aggregate);
  arg_type ← match expressions aggregate with
             | arg :: _ => from (map_err (fun e => Invalid (aggr_name aggregate +:+ ": " +:+ e))
                                   (expr_data_type arg input_schema))
             | [] => mret Null
             end;
  mret (args, arg_type, Some declared).

Definition state_field (aggregate : string) (arg_type : DataType) (declared : option (list Field))
    (column : string * PlanAgg) : TransM Field :=
  let '(suffix, func) := column in
  nullable ← match declared with
             | Some declared => from (declared_nullable declared func aggregate)
             | None => mret true
             end;
  t ← state_type_of func arg_type;
  mret {| field_name := aggregate +:+ suffix; data_type := t; nullable := nullable |}.

Definition state_and_init (aggregate : AggregateFunctionExpr) (init_from : InitFrom) (rule : Decomposition)
    (input_schema : ArrowSchema) : TransM (list Field * list AggCall) :=
  match init_from with
  | StateOf columns =>
      match merge rule with
      | Combined _ => refuse (Invalid (aggr_name aggregate +:+ ": its state merges in one call, which an init cannot run"))
      | PerColumn funcs =>
          from (ensure (length (positions columns) =? length (state rule))
            (Invalid (aggr_name aggregate +:+ ": the inner stage left other state columns than this mode decomposes into")))
          ≫= fun _ =>
          both ← mapT (companion_column (aggr_name aggregate) funcs columns input_schema) (imap pair (state rule));
          mret (map fst both, map snd both)
      end
  | _ =>
      '(args, arg_type, declared) ← match init_from with
                                    | Deduplicated arg arg_type => mret ([arg], arg_type, None)
                                    | _ => own_values aggregate rule input_schema
                                    end;
      fields ← mapT (state_field (aggr_name aggregate) arg_type declared) (state rule);
      mret (fields, zip_with (fun '(_, func) field =>
                      {| call_func := func; call_args := args; outputs := [field] |}) (state rule) fields)
  end.

(** ** The decomposition of a node's aggregates *)
Definition merge_calls (rule : Merge) (state_columns : list Expr) (state_ : list Field) : list AggCall :=
  match rule with
  | PerColumn funcs =>
      zip_with (fun '(func, column) field => {| call_func := func; call_args := [column]; outputs := [field] |})
        (zip funcs state_columns) state_
  | Combined func => [{| call_func := func; call_args := state_columns; outputs := state_ |}]
  end.

(** What finishing a DISTINCT's outer stage adds: a cast back of a widened sum, and 0 for a count
    merged over nothing. *)
Definition finish_outer (func : AggFunc) (state_ : list Field) (out_type : DataType) (finished : Expr) : TransM Expr :=
  finished ← match func with
             | Sum | Min | Max =>
                 first ← expect (head state_);
                 mret (if bool_decide (data_type first = out_type) then finished else Cast finished out_type)
             | _ => mret finished
             end;
  mret match func with
       | Count => Case None [(UnaryE IsNull finished, Literal (int64 0))] (Some finished)
       | _ => finished
       end.

Definition decompose_one (input_schema : ArrowSchema) (n_keys : nat) (decomposed : Decomposed)
    (one : AggregateFunctionExpr * InitFrom) : TransM Decomposed :=
  let '(aggregate, init_from) := one in
  (if reads_values init_from && is_distinct aggregate
   then refuse (Unsupported ("DISTINCT inside " +:+ aggr_name aggregate +:+ " in a shape the lowering does not handle"))
   else mret tt) ≫= fun _ =>
  spec ← from (resolve (fun_of aggregate));
  let rule := decomposition (spec_func spec) in
  let state_at := n_keys + length (d_state decomposed) in
  '(state_, init) ← state_and_init aggregate init_from rule input_schema;
  let state_columns := imap (fun offset field => expr_column (state_at + offset) (field_name field)) state_ in
  let out_type := data_type (aggr_field aggregate) in
  finished ← expect (finalize_expr typed_null spec state_ state_at out_type);
  finished ← if reads_values init_from then mret finished
             else finish_outer (spec_func spec) state_ out_type finished;
  mret {| d_init := d_init decomposed ++ init;
          d_merge := d_merge decomposed ++ merge_calls (merge rule) state_columns state_;
          d_state := d_state decomposed ++ state_;
          d_finalize := d_finalize decomposed ++ [finished];
          d_annotations := d_annotations decomposed
            ++ [{| output := aggr_name aggregate; agg_func := spec_func spec; agg_ddof := spec_ddof spec;
                   positions := seq state_at (length state_) |}] |}.

Fixpoint decompose_from (input_schema : ArrowSchema) (n_keys : nat) (aggregates : list (AggregateFunctionExpr * InitFrom))
    (decomposed : Decomposed) : TransM Decomposed :=
  match aggregates with
  | [] => mret decomposed
  | one :: aggregates => d ← decompose_one input_schema n_keys decomposed one; decompose_from input_schema n_keys aggregates d
  end.

Definition decompose (aggregates : list (AggregateFunctionExpr * InitFrom)) (input_schema : ArrowSchema)
    (n_keys : nat) : TransM Decomposed :=
  decompose_from input_schema n_keys aggregates
    {| d_init := []; d_merge := []; d_state := []; d_finalize := []; d_annotations := [] |}.

(** ** The sequence *)
Definition drop_grouping_id (keys : list nat) (id : nat) : PlanResult (list nat) :=
  let keys := List.filter (fun k => negb (k =? id)) keys in
  ensure (negb (bool_decide (keys = []) || existsb (fun k => id <? k) keys))
    (Invalid "a grouping-set shuffle: after dropping the grouping id every key must be a user key below it, and one must remain")
  ≫= fun _ => Ok keys.

Definition keyed_schema (keys state_ : list Field) (annotations : list AggStateColumns) : Schema :=
  {| fields := keys ++ state_; group_keys := seq 0 (length keys); agg_state := annotations |}.

(** The finalize expressions under the output's names, and the finished output's schema. *)
Definition finished_output (keys : list Field) (finalize : list Expr) (names : ArrowSchema) :
    TransM (list NamedExpr * Schema) :=
  finalize ← mapT (fun '(index, e) =>
               field ← expect (names !! (length keys + index));
               mret {| expr := e; expr_name := field_name field |}) (imap pair finalize);
  mret (finalize, {| fields := names; group_keys := seq 0 (length keys); agg_state := [] |}).

Definition merge_body (keys : list Field) (calls : list AggCall) (finalize : option (list NamedExpr)) : AggregateBody :=
  {| group_by := imap (fun index field => expr_column index (field_name field)) keys; grouping_sets := [];
     null_exprs := []; aggs := calls; finalize := finalize |}.

Definition init_body (stage : Stage) (calls : list AggCall) (finalize : option (list NamedExpr)) : AggregateBody :=
  {| group_by := stage_group_by stage; grouping_sets := stage_sets stage; null_exprs := stage_nulls stage;
     aggs := calls; finalize := finalize |}.

(** What the shuffle makes of the merged tree. *)
Definition relanded (tree : GpuNode) (grouping_id : option nat) (shuffle : Shuffle) : TransM GpuNode :=
  match shuffle with
  | ShuffleByHash keys lanes_ =>
      if 1 <? lanes tree then
        keys ← match grouping_id with Some id => from (drop_grouping_id keys id) | None => mret keys end;
        mret (shuffled tree keys lanes_)
      else mret tree
  | Collapse => mret (merged tree)
  | ShuffleNone => mret tree
  end.

Definition shuffles (shuffle : Shuffle) : bool := match shuffle with ShuffleNone => false | _ => true end.

(** The init, the per-lane merge where a shuffle follows, and the shuffle. *)
Definition init_and_reland (stage : Stage) (decomposed : Decomposed) (intermediate : Schema)
    (grouping_id : option nat) (shuffle : Shuffle) : TransM GpuNode :=
  let tree := new_aggregate (stage_input stage) (init_body stage (d_init decomposed) None) intermediate intermediate in
  let regrouped := shuffles shuffle && (1 <? lanes tree) in
  let tree := if regrouped && negb (bool_decide (batches tree = SingleBatch))
              then new_aggregate_batches tree (merge_body (stage_keys stage) (d_merge decomposed) None)
                     intermediate intermediate
              else tree in
  relanded tree grouping_id shuffle.

Definition sequence (stage : Stage) (shuffle : Shuffle) : TransM GpuNode :=
  let keys := stage_keys stage in
  let input := stage_input stage in
  grouping_id ← match stage_sets stage with
                | [] => mret None
                | _ => last ← expect (match length keys with 0 => None | S k => Some k end); mret (Some last)
                end;
  decomposed ← decompose (stage_aggregates stage) (stage_schema stage) (length keys);
  let intermediate := keyed_schema keys (d_state decomposed) (d_annotations decomposed) in
  finished ← match stage_finished stage with
             | Some names => f ← finished_output keys (d_finalize decomposed) names; mret (Some f)
             | None => mret None
             end;
  match finished with
  | Some (finalize, output) =>
      if bool_decide (batches input = SingleBatch) && (lanes input =? 1)
      then mret (new_aggregate input (init_body stage (d_init decomposed) (Some finalize)) intermediate output)
      else tree ← init_and_reland stage decomposed intermediate grouping_id shuffle;
           mret (new_aggregate_batches tree (merge_body keys (d_merge decomposed) (Some finalize)) intermediate output)
  | None =>
      tree ← init_and_reland stage decomposed intermediate grouping_id shuffle;
      mret (new_aggregate_batches tree (merge_body keys (d_merge decomposed) None) intermediate intermediate)
  end.
End Aggregate.
