(* ===== verification/TransDistinct.v ===== *)
(** * DISTINCT lowered to two aggregate sequences

    [planner/translator/aggregate/distinct.rs]: an inner stage groups on the argument and the keys,
    an outer stage on the keys alone over the inner's state.  [translated] stands for the
    translation of the node's input, which Translate.v ties. *)
From stdpp Require Import strings.
From S2P Require Import Prelude Interval PlanIR PlanCommon PlanNodes Joins Aggregates Physical ExprTrans TransCommon TransAgg.
Open Scope nat_scope.

Definition DISTINCT_ARG : string := "__distinct_arg".

Definition is_integer (t : DataType) : bool := is_signed_integer t || is_unsigned_integer t.

Definition keeps_distinct (from to : DataType) : bool :=
  match from, to with
  | Int8, (Int16 | Int32 | Int64) | Int16, (Int32 | Int64) | Int32, Int64 => true
  | UInt8, (Int16 | Int32 | Int64 | UInt16 | UInt32 | UInt64)
  | UInt16, (Int32 | Int64 | UInt32 | UInt64)
  | UInt32, (Int64 | UInt64) => true
  | Decimal128 p s, Decimal128 p2 s2 => (s <=? s2)%Z && (Z.of_nat p - s <=? Z.of_nat p2 - s2)%Z
  | Decimal128 p _, Float64 => p <=? 15
  | from, Float64 => is_integer from
  | _, _ => false
  end.

Inductive Classified :=
| LowerDistinct (base : PhysicalExpr)
| RefuseDistinct (error : PlanError)
| NotOurs.

Section Distinct.
Context `{DataFusion}.

(** The argument under the casts that keep distinct values distinct, and their targets, outermost
    first. *)
Fixpoint stripped (e : PhysicalExpr) (schema : ArrowSchema) : PhysicalExpr * list DataType :=
  match e with
  | CastExpr inner cast_type =>
      match expr_data_type inner schema with
      | Ok from =>
          if keeps_distinct from cast_type
          then let '(base, casts) := stripped inner schema in (base, cast_type :: casts)
          else (e, [])
      | Err _ => (e, [])
      end
  | _ => (e, [])
  end.

(** The one argument every DISTINCT aggregate dedups, or why there is none. *)
Fixpoint distinct_base (aggregates : list AggregateFunctionExpr) (input_schema : ArrowSchema)
    (base : option PhysicalExpr) : result PlanError (option PhysicalExpr) :=
  match aggregates with
  | [] => Ok base
  | a :: aggregates =>
      match expressions a with
      | [only] =>
          let this := (stripped only input_schema).1 in
          match base with
          | None => distinct_base aggregates input_schema (Some this)
          | Some first =>
              if same_expr first this then distinct_base aggregates input_schema base
              else Err (Unsupported (aggr_name a +:+ ": its DISTINCT argument is another's: the lowering dedups one argument per node (#144)"))
          end
      | _ => Err (Unsupported (aggr_name a +:+ ": a DISTINCT over more than one argument (#144)"))
      end
  end.

Definition merges_in_one_call (a : AggregateFunctionExpr) : bool :=
  match resolve (fun_of a) with
  | Ok spec => match merge (decomposition (spec_func spec)) with Combined _ => true | PerColumn _ => false end
  | Err _ => false
  end.

Definition classify (aggregates : list AggregateFunctionExpr) (input_schema : ArrowSchema) (finished : bool) : Classified :=
  if negb finished then NotOurs
  else match distinct_base (List.filter is_distinct aggregates) input_schema None with
       | Err e => RefuseDistinct e
       | Ok base =>
           match List.find merges_in_one_call (List.filter (fun a => negb (is_distinct a)) aggregates) with
           | Some companion =>
               RefuseDistinct (Unsupported (aggr_name companion +:+ " beside a DISTINCT aggregate: its state merges in one call, which the outer stage's init cannot run (#261)"))
           | None => match base with Some base => LowerDistinct base | None => NotOurs end
           end
       end.

Definition inner_shuffle (shuffle : Shuffle) : Shuffle :=
  match shuffle with
  | ShuffleByHash keys lanes_ => ShuffleByHash (map S keys) lanes_
  | other => other
  end.

Context (translated : ExecutionPlan -> TransM GpuNode).

Definition key_fields_of (schema : ArrowSchema) (count : nat) : TransM (list Field) :=
  mapT (fun i => expect (schema !! i)) (seq 0 count).

(** The masks and NULLs of the inner stage's grouping sets: the argument is never masked. *)
Definition inner_sets (group : PhysicalGroupBy) (base_type : DataType) (input_schema : ArrowSchema) :
    TransM (list (list bool) * list Expr) :=
  null ← from (map_err (fun e => Invalid (DISTINCT_ARG +:+ ": " +:+ e)) (typed_null base_type));
  nulls ← mapT (fun '(e, _) => from (translate_expr e input_schema)) (null_expr group);
  mret (map (cons false) (groups group), Literal null :: nulls).

Definition inner_stage (partial : AggregateNode) (shuffle : Shuffle) (base : PhysicalExpr)
    (base_type inner_id_type : DataType) : TransM GpuNode :=
  let input_schema := plan_schema (an_input partial) in
  let group := an_group partial in
  first ← from (translate_expr base input_schema);
  group_by ← mapT (fun '(e, _) => from (translate_expr e input_schema)) (group_exprs group);
  keys ← key_fields_of (an_schema partial) (length (group_exprs group));
  let key_fields := {| field_name := DISTINCT_ARG; data_type := base_type; nullable := true |} :: keys in
  '(key_fields, (sets, nulls)) ←
    (if is_single group then mret (key_fields, ([], []))
     else sets ← inner_sets group base_type input_schema;
          mret (key_fields ++ [{| field_name := INTERNAL_GROUPING_ID; data_type := inner_id_type; nullable := false |}], sets));
  input ← translated (an_input partial);
  sequence
    {| stage_input := input; stage_schema := input_schema; stage_group_by := first :: group_by;
       stage_keys := key_fields; stage_sets := sets; stage_nulls := nulls;
       stage_aggregates := map (fun a => (a, Values)) (List.filter (fun a => negb (is_distinct a)) (an_aggr partial));
       stage_finished := None |} (inner_shuffle shuffle).

(** What each aggregate reads in the outer stage. *)
Definition outer_aggregate (inner_schema : Schema) (input_schema : ArrowSchema) (base_type : DataType)
    (a : AggregateFunctionExpr) : TransM (AggregateFunctionExpr * InitFrom) :=
  if is_distinct a then
    only ← expect (head (expressions a));
    let casts := (stripped only input_schema).2 in
    mret (a, Deduplicated (foldl (fun arg target => Cast arg target) (expr_column 0 DISTINCT_ARG) (rev casts))
               (default base_type (head casts)))
  else
    columns ← from (ok_or (List.find (fun st => bool_decide (output st = aggr_name a)) (agg_state inner_schema))
                      (Invalid (aggr_name a +:+ ": the inner stage holds no state for it")));
    mret (a, StateOf columns).

(** The project that narrows the grouping id to DataFusion's type. *)
Definition narrowed_id (outer : GpuNode) (wanted : ArrowSchema) (id : nat) : GpuNode :=
  new_project outer
    (imap (fun i field =>
       let column := expr_column i (field_name field) in
       {| expr := if i =? id then Cast column (data_type field) else column; expr_name := field_name field |}) wanted)
    (schema_new wanted).

Definition lower (partial : AggregateNode) (finisher_schema : ArrowSchema) (shuffle : Shuffle) (base : PhysicalExpr) :
    TransM GpuNode :=
  let input_schema := plan_schema (an_input partial) in
  let count := length (group_exprs (an_group partial)) in
  let sets := negb (is_single (an_group partial)) in
  base_type ← from (map_err (fun e => Invalid (DISTINCT_ARG +:+ ": " +:+ e)) (expr_data_type base input_schema));
  let inner_id_type := grouping_id_type (count + 1) in
  inner ← inner_stage partial shuffle base base_type inner_id_type;
  inner_schema ← expect (kind_schema (kind inner));
  outer_keys ← mapT (fun i => field ← expect (fields inner_schema !! i); mret (expr_column i (field_name field))) (seq 1 count);
  let outer_group := outer_keys ++ (if sets then [expr_column (count + 1) INTERNAL_GROUPING_ID] else []) in
  let finished := imap (fun i field =>
    if sets && (i =? count)
    then {| field_name := INTERNAL_GROUPING_ID; data_type := inner_id_type; nullable := false |} else field)
    finisher_schema in
  aggregates ← mapT (outer_aggregate inner_schema input_schema base_type) (an_aggr partial);
  key_fields ← key_fields_of finished (count + if sets then 1 else 0);
  outer ← sequence
    {| stage_input := inner; stage_schema := fields inner_schema; stage_group_by := outer_group;
       stage_keys := key_fields; stage_sets := []; stage_nulls := []; stage_aggregates := aggregates;
       stage_finished := Some finished |} ShuffleNone;
  if sets then
    id ← expect (finisher_schema !! count);
    mret (if bool_decide (data_type id = inner_id_type) then outer else narrowed_id outer finisher_schema count)
  else mret outer.
End Distinct.
