(* ===== verification/Translate.v ===== *)
(** * The translation of a plan

    [planner/translator/nodes.rs] and [translator/mod.rs]: one arm per DataFusion node, and the
    root's limit turned into the unload's interval.  Each helper takes [translated], the translation
    of an input, and [node] ties the knot on fuel. *)
From stdpp Require Import strings.
From S2P Require Import Prelude Interval PlanIR PlanCommon PlanNodes ScanMap Joins Aggregates Validate Denote Nullability.
From S2P Require Import Physical ExprTrans ScanMeta TransCommon TransAgg TransDistinct.
Open Scope nat_scope.

Record Translator :=
  { target_partitions : nat; batching : Batching; source_targets : list N; small_table_bytes : N }.

(** ** Scans *)
Definition batching_at (t : Translator) (seq : nat) : Batching :=
  match batching t, source_targets t !! seq with
  | Sized _, Some target => Sized target
  | batching, _ => batching
  end.

Definition batching_for_source (t : Translator) : TransM Batching := fun seq => Good (batching_at t seq, S seq).

Definition lanes_for (t : Translator) (survivors : list RowGroupMeta) (limit : option N) : nat :=
  match limit with
  | Some _ => 1
  | None =>
      match batching t with
      | Off => target_partitions t
      | _ => if (sumN (map rg_bytes survivors) <? small_table_bytes t)%N then 1 else target_partitions t
      end
  end.

Fixpoint covering_prefix_from (rows : N) (groups : list RowGroupMeta) (n_ : N) : list RowGroupMeta :=
  match groups with
  | [] => []
  | group :: groups =>
      let rows := (rows + rg_rows group)%N in
      if (n_ <=? rows)%N then [group] else group :: covering_prefix_from rows groups n_
  end.
Definition covering_prefix (groups : list RowGroupMeta) (n_ : N) : list RowGroupMeta :=
  covering_prefix_from 0 groups n_.

Definition pushed_limit (parquet : ParquetExec) : option RowInterval :=
  (fun n_ => {| skip := 0; fetch := Some n_ |}) <$> scan_limit parquet.

(** [rsplit] on the slash (47), its first part, and [strip_suffix(".parquet")]. *)
Fixpoint last_segment (s current : string) : string :=
  match s with
  | EmptyString => current
  | String c s => if Ascii.eqb c (Ascii.ascii_of_nat 47) then last_segment s "" else last_segment s (current +:+ String c "")
  end.

Definition strip_suffix (suffix s : string) : option string :=
  if ends_with s suffix then Some (String.substring 0 (String.length s - String.length suffix) s) else None.

Definition parquet_table_name (parquet : ParquetExec) : option string :=
  files ← head (file_groups parquet);
  location ← head files;
  strip_suffix ".parquet" (last_segment location "").

Section Scans.
Context `{DataFusion} (t : Translator).

Definition loader (parquet : ParquetExec) : TransM GpuNode :=
  scan ← from (survivor_metadata parquet);
  let groups := match scan_limit parquet with
                | Some n_ => covering_prefix (scan_groups scan) n_
                | None => scan_groups scan
                end in
  batching ← batching_for_source t;
  partition_groups ← match groups with
                     | [] => mret [[]]
                     | _ => from (partition groups (lanes_for t groups (scan_limit parquet)) batching)
                     end;
  let projection := projected_columns parquet in
  let schema := if rows_only projection then rowmarker else schema_new (scan_schema parquet) in
  mret (new_load_parquet (default "" (parquet_table_name parquet)) projection partition_groups
          {| scan_file := scan_file scan; scan_groups := groups; scan_can_be_null := scan_can_be_null scan |} schema).

Definition source (parquet : ParquetExec) : TransM GpuNode :=
  loader_ ← loader parquet;
  mret match pushed_limit parquet with Some interval => new_limit loader_ interval | None => loader_ end.
End Scans.

(** ** Branches *)
Definition cast_branch (branch : GpuNode) (schema declared : ArrowSchema) : GpuNode :=
  let pairs := zip schema declared in
  let differs := existsb (fun '(field, out) =>
    negb (bool_decide (data_type field = data_type out)) || negb (bool_decide (field_name field = field_name out))) pairs in
  if negb differs then branch
  else new_project branch
         (imap (fun index '(field, out) =>
            let column := expr_column index (field_name field) in
            {| expr := if bool_decide (data_type field = data_type out) then column else Cast column (data_type out);
               expr_name := field_name out |}) pairs)
         (schema_new declared).

(** ** NULL keys below a shuffle *)
Definition reduce_and (tests : list Expr) : option Expr :=
  match tests with [] => None | e :: tests => Some (foldl (fun l r => BinaryE l And r Boolean) e tests) end.

(** Keys that may be NULL, in key order; [None] is the index panic. *)
Fixpoint nullable_keys (nulls : list bool) (keys : list nat) : option (list nat) :=
  match keys with
  | [] => Some []
  | key :: keys => b ← nulls !! key; rest ← nullable_keys nulls keys; Some (if b : bool then key :: rest else rest)
  end.

Definition drop_null_keys_below_shuffle (side : GpuNode) (keys : list nat) : TransM GpuNode :=
  match side with
  | GpuEmitPartitions k hash_keys input =>
      let n_ := lanes side in
      schema ← expect (kind_schema (kind input));
      keys ← expect (nullable_keys (can_be_null input) keys);
      tests ← mapT (fun key => field ← expect (fields schema !! key);
                     mret (UnaryE IsNotNull (expr_column key (field_name field)))) keys;
      mret match reduce_and tests with
           | None => new_emit_partitions input hash_keys n_
           | Some predicate => new_emit_partitions (new_filter input predicate None schema) hash_keys n_
           end
  | _ => mret side
  end.

(** ** The arms *)
Record KeyedOn :=
  { on_keys : list (nat * nat); on_residual : option (Expr * list JoinFilterColumn);
    on_null_equals_null : bool; on_projection : option (list nat) }.

Section Arms.
Context `{DataFusion} (t : Translator) (translated : ExecutionPlan -> TransM GpuNode).

Definition one_batch_per_lane (build : GpuNode) : GpuNode :=
  if bool_decide (batches build = SingleBatch) then build else new_coalesce_all_batches build.

Definition build_side (plan : ExecutionPlan) : TransM GpuNode :=
  build ← translated plan; mret (one_batch_per_lane (merged build)).

Definition keyed_join (schema : ArrowSchema) (lhs rhs : ExecutionPlan) (jt : JoinType) (on : KeyedOn) : TransM GpuNode :=
  build ← translated lhs;
  probe ← translated rhs;
  let located := co_partitioned build probe (on_keys on) in
  let build := if located then build else merged build in
  let probe := if located then probe else merged probe in
  let drops := if on_null_equals_null on then (false, false) else null_key_droppable jt in
  build ← if drops.1 : bool then drop_null_keys_below_shuffle build (map fst (on_keys on)) else mret build;
  probe ← if drops.2 : bool then drop_null_keys_below_shuffle probe (map snd (on_keys on)) else mret probe;
  mret (new_hash_join (one_batch_per_lane build) probe jt (on_keys on) (fst <$> on_residual on)
          (match on_residual on with Some (_, columns) => columns | None => [] end)
          (on_null_equals_null on) (on_projection on) (schema_new schema)).

Definition join_residual (filter : option JoinFilter) : TransM (option (Expr * list JoinFilterColumn)) :=
  match filter with
  | Some filter =>
      e ← from (translate_expr (filter_expression filter) (filter_schema filter));
      columns ← from (filter_column_map filter);
      mret (Some (e, columns))
  | None => mret None
  end.

Definition hash_join (schema : ArrowSchema) (jt : JoinType) (on : list (PhysicalExpr * PhysicalExpr))
    (filter : option JoinFilter) (null_equals_null : bool) (projection : option (list nat))
    (lhs rhs : ExecutionPlan) : TransM GpuNode :=
  keys ← mapT (fun '(l, r) =>
           build ← from (column_ordinal_of l (plan_schema lhs) "join key");
           probe ← from (column_ordinal_of r (plan_schema rhs) "join key");
           mret (build, probe)) on;
  residual ← join_residual filter;
  keyed_join schema lhs rhs jt
    {| on_keys := keys; on_residual := residual; on_null_equals_null := null_equals_null; on_projection := projection |}.

(** The side and ordinal of a bare column of the filter's table. *)
Definition side_of (filter : JoinFilter) (e : PhysicalExpr) : TransM (option (DfJoinSide * nat)) :=
  match e with
  | ColumnExpr index _ => c ← expect (column_indices filter !! index); mret (Some (ci_side c, ci_index c))
  | _ => mret None
  end.

Definition side_pair (filter : JoinFilter) (conjunct : PhysicalExpr) :
    TransM (option ((DfJoinSide * nat) * (DfJoinSide * nat))) :=
  match conjunct with
  | BinaryExpr l OpIsNotDistinctFrom r =>
      left_ ← side_of filter l;
      match left_ with
      | None => mret None
      | Some a => right_ ← side_of filter r; mret ((fun b => (a, b)) <$> right_)
      end
  | _ => mret None
  end.

Definition split_keys (filter : JoinFilter) (conjunct : PhysicalExpr) (acc : list (nat * nat) * list Expr) :
    TransM (list (nat * nat) * list Expr) :=
  let '(keys, rest) := acc in
  pair_ ← side_pair filter conjunct;
  match pair_ with
  | Some ((DfLeft, build), (DfRight, probe)) | Some ((DfRight, probe), (DfLeft, build)) =>
      mret (keys ++ [(build, probe)], rest)
  | _ => e ← from (translate_expr conjunct (filter_schema filter)); mret (keys, rest ++ [e])
  end.

Fixpoint split_all (filter : JoinFilter) (conjuncts : list PhysicalExpr) (acc : list (nat * nat) * list Expr) :
    TransM (list (nat * nat) * list Expr) :=
  match conjuncts with
  | [] => mret acc
  | c :: conjuncts => acc ← split_keys filter c acc; split_all filter conjuncts acc
  end.

Definition null_equal_keys (filter : option JoinFilter) (projection : option (list nat)) : TransM (option KeyedOn) :=
  match filter with
  | None => mret None
  | Some filter =>
      '(keys, rest) ← split_all filter (split_conjunction (filter_expression filter)) ([], []);
      match keys with
      | [] => mret None
      | _ =>
          residual ← match reduce_and rest with
                     | Some residual => columns ← from (filter_column_map filter); mret (Some (residual, columns))
                     | None => mret None
                     end;
          mret (Some {| on_keys := keys; on_residual := residual; on_null_equals_null := true; on_projection := projection |})
      end
  end.

Definition true_literal : Expr := Literal {| scalar_type := Boolean; scalar_value := Some (DBool true) |}.

Definition nested_loop_join (schema : ArrowSchema) (jt : JoinType) (filter : option JoinFilter)
    (projection : option (list nat)) (lhs rhs : ExecutionPlan) : TransM GpuNode :=
  on ← null_equal_keys filter projection;
  match on with
  | Some on => keyed_join schema lhs rhs jt on
  | None =>
      let markers := past_rowmarkers schema (length (plan_schema lhs)) (length (plan_schema rhs)) jt projection in
      match filter, jt with
      | None, Inner =>
          '(projection, schema) ← expect markers;
          build ← build_side lhs;
          probe ← translated rhs;
          mret (new_cross_join build (merged probe) projection schema)
      | _, _ =>
          '(predicate, columns) ← match filter with
                                  | None => mret (true_literal, [])
                                  | Some filter =>
                                      e ← from (translate_expr (filter_expression filter) (filter_schema filter));
                                      columns ← from (filter_column_map filter);
                                      mret (e, columns)
                                  end;
          build ← build_side lhs;
          probe ← translated rhs;
          '(projection, schema) ← expect markers;
          mret (new_nested_loop_join build (merged probe) jt predicate columns projection schema)
      end
  end.

Definition mid_plan_limit (input : ExecutionPlan) (interval : RowInterval) : TransM GpuNode :=
  input ← translated input; mret (new_limit (merged input) interval).

(** The per-batch half of a sort: its node, keys and fetch. *)
Definition per_batch_sort (ordering : list SortExpr) (fetch : option N) (input : ExecutionPlan) :
    TransM (GpuNode * list ColumnOrder) :=
  node_ ← translated input;
  keys ← from (sort_key_ordinals ordering (plan_schema input));
  mret (new_sort node_ keys fetch, keys).

Definition sort (ordering : list SortExpr) (fetch : option N) (input : ExecutionPlan) : TransM GpuNode :=
  '(sorted, keys) ← per_batch_sort ordering fetch input;
  mret (new_accumulate_batches_and_sort sorted keys fetch).

Definition sort_preserving_merge (ordering : list SortExpr) (fetch : option N) (input : ExecutionPlan) : TransM GpuNode :=
  '(node_, keys) ← match input with
                   | SortExec _ sort_ordering sort_fetch sort_input => per_batch_sort sort_ordering sort_fetch sort_input
                   | _ =>
                       node_ ← translated input;
                       keys ← from (sort_key_ordinals ordering (plan_schema input));
                       mret (node_, keys)
                   end;
  mret (new_merge_sorted_partitions node_ keys fetch).

Definition repartition (partitioning : Partitioning) (input : ExecutionPlan) : TransM GpuNode :=
  node_ ← translated input;
  match partitioning with
  | HashPartitioning exprs n_ =>
      keys ← from (hash_key_ordinals exprs (plan_schema input));
      mret (shuffled node_ keys n_)
  | RoundRobinBatch _ => mret node_
  | UnknownPartitioning _ => refuse (Unsupported "a repartition by an unstated rule")
  end.

Definition branches (inputs : list ExecutionPlan) (declared : ArrowSchema) : TransM (list GpuNode) :=
  mapT (fun input => node_ ← translated input; mret (cast_branch node_ (plan_schema input) declared)) inputs.

Definition interleaved (branches : list GpuNode) (schema : Schema) : TransM GpuNode :=
  first ← expect (head branches);
  let agreed := forallb (fun branch =>
    (lanes branch =? lanes first)
    && bool_decide (key_distribution (input_layout branch) = key_distribution (input_layout first))) branches in
  mret (if agreed then new_interleave branches schema else new_union branches schema).

(** *** Aggregates *)
Definition aggregate_sequence (partial : AggregateNode) (finisher : option ArrowSchema) (shuffle : Shuffle) : TransM GpuNode :=
  if existsb (fun f => match f with Some _ => true | None => false end) (an_filters partial)
  then refuse (Unsupported "a filtered aggregate (#161)")
  else
    let input_schema := plan_schema (an_input partial) in
    let ordinary :=
      input ← translated (an_input partial);
      let group := an_group partial in
      group_by ← mapT (fun '(e, _) => from (translate_expr e input_schema)) (group_exprs group);
      keys ← key_fields_of (an_schema partial) (length (group_exprs group) + if is_single group then 0 else 1);
      nulls ← mapT (fun '(e, _) => from (translate_expr e input_schema)) (null_expr group);
      sequence
        {| stage_input := input; stage_schema := input_schema; stage_group_by := group_by; stage_keys := keys;
           stage_sets := if is_single group then [] else groups group; stage_nulls := nulls;
           stage_aggregates := map (fun a => (a, Values)) (an_aggr partial); stage_finished := finisher |} shuffle in
    if existsb is_distinct (an_aggr partial) then
      match classify (an_aggr partial) input_schema (bool_decide (is_Some finisher)) with
      | RefuseDistinct e => refuse e
      | LowerDistinct base => finisher ← expect finisher; lower translated partial finisher shuffle base
      | NotOurs => ordinary
      end
    else ordinary.

Definition is_partial (a : AggregateNode) : bool := match an_mode a with Partial => true | _ => false end.

Definition aggregate (exec : AggregateNode) : TransM GpuNode :=
  match an_mode exec with
  | Partial => aggregate_sequence exec None ShuffleNone
  | Final | FinalPartitioned =>
      let '(below_, shuffle) := shuffle_below (an_input exec) in
      match as_aggregate below_ with
      | Some partial =>
          if is_partial partial then aggregate_sequence partial (Some (an_schema exec)) shuffle
          else refuse (Unsupported ("a final aggregate over " +:+ plan_name below_ +:+ " rather than a partial one"))
      | None => refuse (Unsupported ("a final aggregate over " +:+ plan_name below_ +:+ " rather than a partial one"))
      end
  | Single | SinglePartitioned => aggregate_sequence exec (Some (an_schema exec)) ShuffleNone
  end.

(** *** One node *)
Definition node_arm (plan : ExecutionPlan) : TransM GpuNode :=
  match plan with
  | ParquetPlan parquet => source t parquet
  | FilterExec schema predicate projection input =>
      node_ ← translated input;
      predicate ← from (translate_expr predicate (plan_schema input));
      mret (new_filter node_ predicate projection (schema_new schema))
  | ProjectionExec schema exprs input =>
      node_ ← translated input;
      match exprs with
      | [] => mret (new_project node_
                [{| expr := Literal {| scalar_type := Int8; scalar_value := Some (DInt 0) |}; expr_name := ROWMARKER |}]
                rowmarker)
      | _ =>
          exprs ← mapT (fun '(e, name) => e ← from (translate_expr e (plan_schema input));
                         mret {| expr := e; expr_name := name |}) exprs;
          mret (new_project node_ exprs (schema_new schema))
      end
  | SortExec _ ordering fetch input => sort ordering fetch input
  | CoalesceBatchesExec _ (Some fetch) input => mid_plan_limit input {| skip := 0; fetch := Some fetch |}
  | CoalesceBatchesExec _ None input => translated input
  | GlobalLimitExec _ _ _ _ | LocalLimitExec _ _ _ =>
      '(input, interval) ← expect (limit_interval plan); mid_plan_limit input interval
  | AggregateExec mode schema group aggr filters input =>
      aggregate {| an_mode := mode; an_schema := schema; an_group := group; an_aggr := aggr; an_filters := filters;
                   an_input := input |}
  | CrossJoinExec schema lhs rhs =>
      build ← build_side lhs;
      probe ← translated rhs;
      '(projection, schema) ← expect (past_rowmarkers schema (length (plan_schema lhs)) (length (plan_schema rhs)) Inner None);
      mret (new_cross_join build (merged probe) projection schema)
  | NestedLoopJoinExec schema jt filter projection lhs rhs => nested_loop_join schema jt filter projection lhs rhs
  | RepartitionExec _ partitioning input => repartition partitioning input
  | CoalescePartitionsExec _ input => node_ ← translated input; mret (merged node_)
  | SortPreservingMergeExec _ ordering fetch input => sort_preserving_merge ordering fetch input
  | HashJoinExec schema jt on filter nulls projection lhs rhs => hash_join schema jt on filter nulls projection lhs rhs
  | UnionExec schema inputs => bs ← branches inputs schema; mret (new_union bs (schema_new schema))
  | InterleaveExec schema inputs => bs ← branches inputs schema; interleaved bs (schema_new schema)
  | WindowExec name _ => refuse (Unsupported (name +:+ ": window functions (#143)"))
  | EmptyExec schema => mret (new_empty (schema_new schema))
  | PlaceholderRowExec name _ =>
      refuse (Unsupported (name +:+ ": an aggregate DataFusion answered from statistics, so there is no aggregate left to translate (#158)"))
  | OtherPlan name _ => refuse (Unsupported ("plan node " +:+ name))
  end.
End Arms.

(** ** The knot, and the root *)
Section Root.
Context `{DataFusion} (t : Translator).

Fixpoint node (fuel : nat) (plan : ExecutionPlan) : TransM GpuNode :=
  match fuel with O => fun _ => OutOfFuel | S fuel => node_arm t (node fuel) plan end.

Fixpoint unload_input (fuel : nat) (plan : ExecutionPlan) : TransM (GpuNode * option RowInterval) :=
  match plan with
  | ParquetPlan parquet => loader_ ← loader t parquet; mret (loader_, pushed_limit parquet)
  | CoalescePartitionsExec _ input => '(node_, pushed) ← unload_input fuel input; mret (merged node_, pushed)
  | CoalesceBatchesExec _ None input => unload_input fuel input
  | RepartitionExec _ (RoundRobinBatch _) input => unload_input fuel input
  | _ => node_ ← node fuel plan; mret (node_, None)
  end.

Definition translate (root : ExecutionPlan) : TransM GpuNode :=
  let '(input, interval) := match limit_interval root with
                            | Some (input, interval) => (input, Some interval)
                            | None => (root, None)
                            end in
  '(input, pushed) ← unload_input (plan_size root) input;
  let interval := match interval, pushed with
                  | Some root_limit, Some pushed => Some (over root_limit pushed)
                  | Some root_limit, None => Some root_limit
                  | None, pushed => pushed
                  end in
  mret (new_unload input interval).
End Root.
