(* ===== verification/TransSamples.v ===== *)
(** * A session and two plans the translator's witnesses run on

    An instance of [DataFusion] over two small files, a join of their scans under a limit, and a limit
    DataFusion leaves below the root's. *)
From stdpp Require Import strings.
From S2P Require Import Prelude Interval PlanIR PlanCommon PlanNodes Physical ExprTrans TransCommon Translate.
Open Scope nat_scope.

Definition demo_chunk (size : Z) : ColumnChunk := {| uncompressed_size := size; statistics := Some (Some 0%N) |}.
Definition demo_file : ParquetFile :=
  {| file_columns := ["k"; "v"];
     row_groups := [{| group_rows := 1000; chunks := [demo_chunk 4000000; demo_chunk 4000000] |};
                    {| group_rows := 500; chunks := [demo_chunk 2000000; demo_chunk 2000000] |}] |}.

Definition demo_session : DataFusion := {|
  expr_data_type := fun _ _ => Ok Boolean; typed_null := fun t => Ok {| scalar_type := t; scalar_value := None |};
  grouping_id_type := fun _ => UInt8; open_parquet := fun _ => Ok demo_file; prune := fun _ _ => None;
  registered := fun name _ _ => Err name; same_expr := fun _ _ => false; split_conjunction := fun e => [e];
  case_try_new := fun c wts el => Ok (CaseExpr c wts el) |}.

Definition demo_columns : ArrowSchema :=
  [{| field_name := "k"; data_type := Int64; nullable := false |}; {| field_name := "v"; data_type := Int64; nullable := false |}].

Definition demo_parquet (table : string) (limit : option N) : ExecutionPlan :=
  ParquetPlan {| file_groups := [["data/" +:+ table +:+ ".parquet"]]; scan_projection := None; file_schema := demo_columns;
                 scan_limit := limit; scan_schema := demo_columns |}.

Definition demo_shuffled (table : string) : ExecutionPlan :=
  RepartitionExec demo_columns (HashPartitioning [ColumnExpr 0 "k"] 2) (demo_parquet table None).

Definition demo_join : ExecutionPlan :=
  GlobalLimitExec (demo_columns ++ demo_columns) 1 (Some 5%N)
    (CoalescePartitionsExec (demo_columns ++ demo_columns)
       (HashJoinExec (demo_columns ++ demo_columns) Inner [(ColumnExpr 0 "k", ColumnExpr 0 "k")] None false None
          (demo_shuffled "a") (demo_shuffled "b"))).

(** A root limit over a merge of lanes each cut by a fetch of its own. *)
Definition demo_two_limits : ExecutionPlan :=
  GlobalLimitExec demo_columns 0 (Some 5%N)
    (CoalescePartitionsExec demo_columns
       (CoalesceBatchesExec demo_columns (Some 5%N)
          (FilterExec demo_columns (BinaryExpr (ColumnExpr 0 "k") OpGt (ColumnExpr 1 "v")) None (demo_parquet "a" None)))).

Definition demo_translator : Translator :=
  {| target_partitions := 2; batching := Sized 1048576; source_targets := [4194304; 8388608]%N; small_table_bytes := 0 |}.
