(* ===== verification/TransFacts.v ===== *)
(** * What a translation produces

    For every tree the translator answers: each node is what its constructor makes of its inputs,
    each node's inputs have the lanes and batches that node needs, the sources are counted in the
    order they are reached, and the fuel given is enough.  Proved arm by arm over [translated], the
    translation of the inputs. *)
From stdpp Require Import strings.
From S2P Require Import Prelude Interval PlanIR PlanCommon PlanNodes ScanMap Joins Aggregates Validate ValidFacts Denote.
From S2P Require Import PlanSound Nullability Physical ExprTrans ScanMeta TransCommon TransAgg TransDistinct Translate TransSamples.
Open Scope nat_scope.

(** ** The trees *)
Definition one_lane (node : GpuNode) : Prop := lanes node = 1.
Definition one_batch (node : GpuNode) : Prop := batches node = SingleBatch.

(** The state an aggregate keeps names each key it groups by, and each key's NULL where it groups by sets. *)
Definition declares_keys (body : AggregateBody) (state_ : Schema) : Prop :=
  key_width body <= length (fields state_)
  /\ (grouping_sets body = [] \/ length (null_exprs body) <= length (fields state_)).

(** What a node needs of the lanes and batches of its inputs, and an aggregate of the state it keeps. *)
Definition lanes_fit (node : GpuNode) : Prop :=
  match node with
  | GpuLoadParquet k table _ projection groups survivors _ =>
      validate_load_parquet k table projection groups survivors = Ok ()
  | GpuLimit _ _ i | GpuEmitPartitions _ _ i => one_lane i
  | GpuCrossJoin _ _ b p | GpuNestedLoopJoin _ _ _ _ _ b p => one_lane b /\ one_lane p /\ one_batch b
  | GpuHashJoin _ _ keys _ _ _ _ b p => co_partitioned b p keys = true /\ one_batch b
  | GpuInterleave _ bs => forall b, b ∈ bs ->
      lanes b = lanes (bs !!! 0) /\ key_distribution (input_layout b) = key_distribution (input_layout (bs !!! 0))
  | GpuAggregate _ body state_ _ | GpuAggregateBatches _ body state_ _ => declares_keys body state_
  | _ => True
  end.

Record okay (node : GpuNode) : Prop := {
  okay_built : built node; okay_fit : lanes_fit node; okay_lanes : 1 <= lanes node }.

Definition good (tree : GpuNode) : Prop := Forall okay (descendants tree).

Definition is_load (node : GpuNode) : bool := match node with GpuLoadParquet _ _ _ _ _ _ _ => true | _ => false end.
(** The loads of a tree, left to right: the order a post-order walk meets them in. *)
Definition loads : GpuNode -> list GpuNode :=
  fold_node (fun node kids => concat kids ++ if is_load node then [node] else []).
Definition scans (tree : GpuNode) : nat := length (loads tree).

Lemma loads_eq node : loads node = concat (map loads (children node)) ++ if is_load node then [node] else [].
Proof. unfold loads at 1. by rewrite fold_node_eq. Qed.

Lemma good_eq node : good node <-> okay node /\ forall c, c ∈ children node -> good c.
Proof. unfold good. by rewrite descendants_ind, Forall_forall. Qed.

Lemma good_okay tree : good tree -> okay tree.
Proof. by intros [? _]%good_eq. Qed.

Lemma good_lanes tree : good tree -> 1 <= lanes tree.
Proof. intros Hg. by apply okay_lanes, good_okay. Qed.

Lemma good_one node input : good input -> children node = [input] -> built node -> lanes_fit node -> 1 <= lanes node ->
  good node.
Proof. intros Hg Hc Hb Hf Hl. apply good_eq. split; [by split|]. rewrite Hc. by intros ? ->%list_elem_of_singleton. Qed.

Lemma good_two node l r : good l -> good r -> children node = [l; r] -> built node -> lanes_fit node -> 1 <= lanes node ->
  good node.
Proof.
  intros Hg Hg' Hc Hb Hf Hl. apply good_eq. split; [by split|]. rewrite Hc.
  intros ? [->|[->|[]%not_elem_of_nil]%elem_of_cons]%elem_of_cons; done.
Qed.

Lemma loads_many node bs : children node = bs -> is_load node = false -> loads node = concat (map loads bs).
Proof. intros Hc Hl. by rewrite loads_eq, Hl, Hc, app_nil_r. Qed.
Lemma loads_one node input : children node = [input] -> is_load node = false -> loads node = loads input.
Proof. intros Hc Hl. rewrite (loads_many node _ Hc Hl). cbn. by rewrite app_nil_r. Qed.
Lemma loads_two node l r : children node = [l; r] -> is_load node = false -> loads node = loads l ++ loads r.
Proof. intros Hc Hl. rewrite (loads_many node _ Hc Hl). cbn. by rewrite app_nil_r. Qed.

(** ** The helpers that add nodes *)
Lemma merged_ok input : good input -> good (merged input) /\ loads (merged input) = loads input /\ one_lane (merged input).
Proof.
  intros Hg. pose proof (good_lanes _ Hg). unfold merged, one_lane. destruct (Nat.ltb_spec 1 (lanes input)); [|split_and!; try done; lia].
  split_and!; [|by eapply loads_one|done]. by eapply good_one.
Qed.

Lemma coalesced_ok input : good input ->
  good (new_coalesce_all_batches input) /\ loads (new_coalesce_all_batches input) = loads input
  /\ lanes (new_coalesce_all_batches input) = lanes input
  /\ key_distribution (input_layout (new_coalesce_all_batches input)) = key_distribution (input_layout input).
Proof.
  intros Hg. pose proof (good_lanes _ Hg). split_and!; [|by eapply loads_one|done..]. by eapply good_one.
Qed.

Lemma one_batch_per_lane_ok build : good build ->
  let build' := one_batch_per_lane build in
  good build' /\ loads build' = loads build /\ lanes build' = lanes build /\ one_batch build'
  /\ key_distribution (input_layout build') = key_distribution (input_layout build).
Proof.
  intros Hg. unfold one_batch_per_lane, one_batch. case_bool_decide; [done|].
  destruct (coalesced_ok build Hg) as (? & ? & ? & ?). done.
Qed.

Lemma emit_ok input keys n_ : good input -> one_lane input -> keys <> [] -> 1 <= n_ ->
  good (new_emit_partitions input keys n_) /\ loads (new_emit_partitions input keys n_) = loads input.
Proof. intros Hg H1 Hk Hn. split; [|by eapply loads_one]. by eapply good_one. Qed.

Lemma shuffled_ok input keys n_ : good input -> keys <> [] -> 1 <= n_ ->
  good (shuffled input keys n_) /\ loads (shuffled input keys n_) = loads input.
Proof.
  intros Hg Hk Hn. destruct (merged_ok input Hg) as (Hm & Hs & H1). unfold shuffled.
  destruct (_ && _).
  - destruct (coalesced_ok _ Hm) as (Hc & Hcs & Hcl & _).
    destruct (emit_ok (new_coalesce_all_batches (merged input)) keys n_) as [He ->]; try done. by rewrite Hcs.
  - by destruct (emit_ok (merged input) keys n_ Hm H1 Hk Hn) as [He ->].
Qed.

(** ** What an arm leaves: a good tree, and its loads sized by the order they were reached in *)
Section Arms.
Context `{DataFusion} (t : Translator).

Definition sized_at (seq : nat) (load : GpuNode) : Prop :=
  match load with
  | GpuLoadParquet _ _ _ _ groups survivors _ =>
      match survivors with
      | [] => groups = [[]]
      | _ => exists n_, partition survivors n_ (batching_at t seq) = Ok groups
      end
  | _ => False
  end.

(** From counter [s], these loads in this order, leaving it at [s']. *)
Definition reads (s : nat) (ls : list GpuNode) (s' : nat) : Prop :=
  s' = s + length ls /\ forall i load, ls !! i = Some load -> sized_at (s + i) load.

Definition reaches (s : nat) (tree : GpuNode) (s' : nat) : Prop := good tree /\ reads s (loads tree) s'.

Lemma reads_nil s : reads s [] s.
Proof. split; [cbn; lia|]. intros i load Hi. by rewrite lookup_nil in Hi. Qed.

Lemma reads_app s l s1 r s2 : reads s l s1 -> reads s1 r s2 -> reads s (l ++ r) s2.
Proof.
  intros [-> Hl] [-> Hr]. split; [rewrite length_app; lia|]. intros i load [Hi|[Hge Hi]]%lookup_app_Some; [by apply Hl|].
  replace (s + i) with (s + length l + (i - length l)) by lia. by apply Hr.
Qed.

(** *** The steps of an arm *)
Lemma returns_tree {B} (m : TransM GpuNode) (k : GpuNode -> TransM B) s (Q : B -> nat -> Prop) :
  returns m s (reaches s) ->
  (forall tree s1, good tree -> reads s (loads tree) s1 -> returns (k tree) s1 Q) -> returns (m ≫= k) s Q.
Proof. intros Hm Hk. apply returns_bind. eapply returns_weaken; [exact Hm|]. intros tree s' [Hg Hr]. by apply Hk. Qed.

Lemma returns_two {B} (m m' : TransM GpuNode) (k : GpuNode -> GpuNode -> TransM B) s (Q : B -> nat -> Prop) :
  returns m s (reaches s) -> (forall s, returns m' s (reaches s)) ->
  (forall l r s2, good l -> good r -> reads s (loads l ++ loads r) s2 -> returns (k l r) s2 Q) ->
  returns (l ← m; r ← m'; k l r) s Q.
Proof.
  intros Hm Hm' Hk. apply returns_tree; [done|]. intros l s1 Hl H1. apply returns_tree; [done|]. intros r s2 Hr H2.
  apply Hk; [done|done|]. by eapply reads_app.
Qed.

Lemma returns_built (tree : GpuNode) s s' : good tree -> reads s (loads tree) s' -> returns (mret tree) s' (reaches s).
Proof. intros Hg Hs. by apply returns_ret. Qed.

(** ** What DataFusion's plans are: a hash names a key and a lane, a union has a branch, and a grouping by sets
    a NULL for each of its keys *)
Definition partitioning_ok (p : Partitioning) : bool :=
  match p with HashPartitioning exprs n_ => negb (length exprs =? 0) && (1 <=? n_) | _ => true end.
Definition group_ok (g : PhysicalGroupBy) : bool := is_single g || (length (null_expr g) =? length (group_exprs g)).

Fixpoint plan_ok (p : ExecutionPlan) : bool :=
  match p with
  | ParquetPlan _ | WindowExec _ _ | EmptyExec _ | PlaceholderRowExec _ _ | OtherPlan _ _ => true
  | FilterExec _ _ _ i | ProjectionExec _ _ i | SortExec _ _ _ i | CoalesceBatchesExec _ _ i
  | GlobalLimitExec _ _ _ i | LocalLimitExec _ _ i
  | CoalescePartitionsExec _ i | SortPreservingMergeExec _ _ _ i => plan_ok i
  | RepartitionExec _ p i => partitioning_ok p && plan_ok i
  | AggregateExec _ _ group _ _ i => group_ok group && plan_ok i
  | CrossJoinExec _ l r | NestedLoopJoinExec _ _ _ _ l r | HashJoinExec _ _ _ _ _ _ l r => plan_ok l && plan_ok r
  | UnionExec _ inputs | InterleaveExec _ inputs => negb (length inputs =? 0) && forallb plan_ok inputs
  end.

(** ** Scans *)
Lemma chunks_from_length survivors total lanes_left index taken :
  length (chunks_from survivors total lanes_left index taken) = lanes_left.
Proof.
  revert index taken. induction lanes_left as [|more IH]; intros index taken; cbn [chunks_from]; [done|].
  destruct (chunk_end _ _ _ _ _) as [end_ got]. cbn. by rewrite IH.
Qed.

Lemma partition_lanes survivors n_ b groups : partition survivors n_ b = Ok groups -> length groups = n_ /\ 1 <= n_.
Proof.
  unfold partition, PlanResult. intros ([] & _ & H0)%bind_ok. apply bind_ok in H0 as ([] & Hn & [= <-]).
  apply ensure_iff, negb_true_iff, Nat.eqb_neq in Hn. rewrite length_map. unfold balanced_chunks.
  rewrite chunks_from_length. lia.
Qed.

Lemma load_good table projection groups scan schema : 1 <= length groups ->
  validate_load_parquet (SourceKind {| n := length groups; key_distribution := KeysNotSpecified;
    sort_order := OrderNotSpecified; batch_layout := MultipleBatches |} schema) table projection groups (scan_groups scan)
    = Ok () ->
  good (new_load_parquet table projection groups scan schema).
Proof.
  intros Hl Hv. apply good_eq. split; [|by intros c Hc%not_elem_of_nil].
  assert (Hb : built (new_load_parquet table projection groups scan schema)); [|by split]. split; [|done].
  unfold rebuild, new_load_parquet. cbn. by destruct (rows_only projection).
Qed.

(** The lanes of a load: each reads survivors, no batch of none. *)
Lemma load_valid knd table projection groups survivors : 1 <= length groups ->
  (forall lane batch, lane ∈ groups -> batch ∈ lane ->
     batch <> [] /\ forall g, g ∈ batch -> exists group, group ∈ survivors /\ rg_index group = g) ->
  (rows_only projection = true -> kind_schema knd = Some rowmarker) ->
  validate_load_parquet knd table projection groups survivors = Ok ().
Proof.
  intros Hl Hb Hr. unfold validate_load_parquet, PlanResult. rewrite !seq_ok, !ensure_iff, for_each_ok. split_and!.
  - destruct groups; [cbn in Hl; lia|done].
  - intros lane Hlane. rewrite for_each_ok. intros batch Hbatch. destruct (Hb lane batch Hlane Hbatch) as [Hne Hin].
    unfold PlanResult. rewrite seq_ok, ensure_iff, for_each_ok. split; [by rewrite bool_decide_false|].
    intros g (group & Hg & <-)%Hin. apply ensure_iff, existsb_elem. exists group. by rewrite Nat.eqb_refl.
  - destruct (rows_only projection); [|done]. by rewrite Hr, bool_decide_true.
Qed.

Lemma loader_ok parquet s :
  returns (loader t parquet) s (fun tree s' => reaches s tree s' /\ (scan_limit parquet <> None -> one_lane tree)).
Proof.
  unfold loader. apply returns_after_from. intros scan _. set (groups := match scan_limit parquet with Some _ => _ | None => _ end).
  apply returns_bind. intros batching_ s' [= <- <-]. apply returns_bind.
  eapply (returns_weaken _ _ (fun pg s' => s' = S s /\ 1 <= length pg /\ (scan_limit parquet <> None -> length pg = 1)
    /\ (forall lane batch, lane ∈ pg -> batch ∈ lane ->
         batch <> [] /\ forall g, g ∈ batch -> exists group, group ∈ groups /\ rg_index group = g)
    /\ match groups with [] => pg = [[]] | _ => exists n_, partition groups n_ (batching_at t s) = Ok pg end)).
  - destruct groups as [|g gs] eqn:Hg.
    + apply returns_ret. split_and!; [done|cbn; lia|done| |done]. intros lane batch ->%list_elem_of_singleton. by intros ?%not_elem_of_nil.
    + apply returns_from. intros pg Hpg. destruct (partition_lanes _ _ _ _ Hpg) as [Hlen Hn]. split_and!; [done|lia| | |eauto].
      * intros Hlim. rewrite Hlen. unfold lanes_for. by destruct (scan_limit parquet).
      * intros lane batch. by apply (partition_reads_survivors _ _ _ _ _ _ Hpg).
  - intros pg s' (-> & Hl & H1 & Hreads & Hsized). apply returns_ret. split; [|by intros Hlim; apply H1].
    split; [apply load_good; [done|]; apply load_valid; [done|done|]; intros Hr; by rewrite Hr|].
    rewrite loads_eq. split; [cbn; lia|]. intros i load Hi. cbn in Hi. apply list_lookup_singleton_Some in Hi as [-> <-].
    rewrite Nat.add_0_r. exact Hsized.
Qed.

Lemma limit_ok input iv : good input -> one_lane input -> good (new_limit input iv) /\ loads (new_limit input iv) = loads input.
Proof. intros Hg H1. split; [|by eapply loads_one]. eapply good_one; try done. apply (good_lanes _ Hg). Qed.

Lemma source_ok parquet s : returns (source t parquet) s (reaches s).
Proof.
  unfold source. apply returns_bind. eapply returns_weaken; [apply loader_ok|]. intros tree s' [[Hg Hr] H1].
  unfold pushed_limit. destruct (scan_limit parquet) as [n_|]; cbn; [|by apply returns_built].
  destruct (limit_ok tree {| skip := 0; fetch := Some n_ |} Hg (H1 ltac:(done))) as [Hl Hs].
  apply returns_built; [done|by rewrite Hs].
Qed.

Lemma project_ok input exprs schema : good input ->
  good (new_project input exprs schema) /\ loads (new_project input exprs schema) = loads input.
Proof. intros Hg. split; [|by eapply loads_one]. eapply good_one; try done. apply (good_lanes _ Hg). Qed.

Lemma filter_ok input predicate projection schema : good input ->
  good (new_filter input predicate projection schema) /\ loads (new_filter input predicate projection schema) = loads input.
Proof.
  intros Hg. split; [|by eapply loads_one]. eapply good_one; try done.
  destruct projection; apply (good_lanes _ Hg).
Qed.

Lemma cast_branch_ok branch schema declared : good branch ->
  good (cast_branch branch schema declared) /\ loads (cast_branch branch schema declared) = loads branch.
Proof. intros Hg. unfold cast_branch. destruct (negb _); [done|]. by apply project_ok. Qed.

(** ** NULL keys *)
Lemma emit_inv k hash_keys input : good (GpuEmitPartitions k hash_keys input) ->
  good input /\ one_lane input /\ hash_keys <> [] /\ 1 <= lanes (GpuEmitPartitions k hash_keys input)
  /\ GpuEmitPartitions k hash_keys input = new_emit_partitions input hash_keys (lanes (GpuEmitPartitions k hash_keys input)).
Proof.
  intros [[[Hb Hk] Hf Hl] Hc]%good_eq. cbn in Hf, Hk. split; [apply Hc; cbn; apply list_elem_of_here|].
  by split_and!.
Qed.

Lemma drop_null_keys_ok side keys s : good side ->
  returns (drop_null_keys_below_shuffle side keys) s (fun tree s' =>
    good tree /\ loads tree = loads side /\ input_layout tree = input_layout side /\ s' = s).
Proof.
  intros Hg. unfold drop_null_keys_below_shuffle.
  destruct side as [| | | | | | | | | | | | | |k hash_keys input| | | |]; try (by apply returns_ret).
  destruct (emit_inv _ _ _ Hg) as (Hi & H1 & Hk & Hn & Heq).
  apply returns_after_expect. intros schema Hs. apply returns_after_expect. intros nkeys _.
  apply returns_after; [eauto 6 with peacock|]. intros tests. apply returns_ret.
  destruct (reduce_and tests) as [p|].
  - destruct (filter_ok input p None schema Hi) as [Hf Hfs].
    destruct (emit_ok (new_filter input p None schema) hash_keys _ Hf H1 Hk Hn) as [He Hes].
    split_and!; [done|by rewrite Hes, Hfs; symmetry; eapply loads_one| |done]. by rewrite Heq.
  - rewrite <- Heq. done.
Qed.

(** ** Joins *)
Context (translated : ExecutionPlan -> TransM GpuNode).
Context (Hrec : forall plan, plan_ok plan = true -> forall s, returns (translated plan) s (reaches s)).

Lemma layout_lanes a b : input_layout a = input_layout b ->
  lanes a = lanes b /\ key_distribution (input_layout a) = key_distribution (input_layout b).
Proof. unfold lanes. intros ->. done. Qed.

Lemma co_partitioned_ext b b' p p' keys :
  lanes b' = lanes b -> key_distribution (input_layout b') = key_distribution (input_layout b) ->
  lanes p' = lanes p -> key_distribution (input_layout p') = key_distribution (input_layout p) ->
  co_partitioned b' p' keys = co_partitioned b p keys.
Proof. unfold co_partitioned. by intros -> -> -> ->. Qed.

Lemma one_lane_co_partitioned b p keys : one_lane b -> one_lane p -> co_partitioned b p keys = true.
Proof. unfold one_lane, co_partitioned. by intros -> ->. Qed.

Lemma hash_join_good build probe jt keys filter columns nulls projection schema :
  good build -> good probe -> co_partitioned build probe keys = true ->
  let node := new_hash_join (one_batch_per_lane build) probe jt keys filter columns nulls projection schema in
  good node /\ loads node = loads build ++ loads probe.
Proof.
  intros Hb Hp Hc node. destruct (one_batch_per_lane_ok build Hb) as (Hg & Hs & Hl & H1 & Hk). split.
  - eapply good_two; [exact Hg|exact Hp|done|by split| |apply (good_lanes _ Hp)].
    split; [|done]. rewrite <- Hc. by apply co_partitioned_ext.
  - rewrite <- Hs. by eapply loads_two.
Qed.

Lemma maybe_drop_ok (b : bool) side keys s : good side ->
  returns (if b then drop_null_keys_below_shuffle side keys else mret side) s (fun tree s' =>
    good tree /\ loads tree = loads side /\ input_layout tree = input_layout side /\ s' = s).
Proof. intros Hg. destruct b; [by apply drop_null_keys_ok|by apply returns_ret]. Qed.

Lemma keyed_join_ok schema lhs rhs jt on s : plan_ok lhs = true -> plan_ok rhs = true ->
  returns (keyed_join translated schema lhs rhs jt on) s (reaches s).
Proof.
  intros Hl Hr. unfold keyed_join. apply returns_two; [by apply Hrec|by intros; apply Hrec|]. intros build probe s2 Hb Hp Hr2.
  set (located := co_partitioned build probe (on_keys on)).
  set (build1 := if located then build else merged build). set (probe1 := if located then probe else merged probe).
  assert (Hsides : good build1 /\ good probe1 /\ loads build1 = loads build /\ loads probe1 = loads probe
    /\ co_partitioned build1 probe1 (on_keys on) = true).
  { subst build1 probe1. destruct located eqn:Hloc; [by split_and!|].
    destruct (merged_ok build Hb) as (? & ? & ?), (merged_ok probe Hp) as (? & ? & ?).
    split_and!; try done. by apply one_lane_co_partitioned. }
  clearbody build1 probe1. destruct Hsides as (Hb1 & Hp1 & Hbs & Hps & Hco).
  apply returns_bind. eapply returns_weaken; [by apply maybe_drop_ok|]. intros build2 s' (Hb2 & Hbs2 & Hbl & ->).
  apply returns_bind. eapply returns_weaken; [by apply maybe_drop_ok|]. intros probe2 s' (Hp2 & Hps2 & Hpl & ->).
  destruct (layout_lanes _ _ Hbl) as [Hbn Hbk], (layout_lanes _ _ Hpl) as [Hpn Hpk].
  destruct (hash_join_good build2 probe2 jt (on_keys on) (fst <$> on_residual on)
    (match on_residual on with Some (_, columns) => columns | None => [] end) (on_null_equals_null on)
    (on_projection on) (schema_new schema) Hb2 Hp2) as [Hg Hs].
  { rewrite <- Hco. by apply co_partitioned_ext. }
  apply returns_built; [exact Hg|]. by rewrite Hs, Hbs2, Hps2, Hbs, Hps.
Qed.

Lemma join_residual_count filter : keeps_count (join_residual filter).
Proof. destruct filter; cbn; eauto 8 with peacock. Qed.

Lemma hash_join_ok schema jt on filter nulls projection lhs rhs s : plan_ok lhs = true -> plan_ok rhs = true ->
  returns (hash_join translated schema jt on filter nulls projection lhs rhs) s (reaches s).
Proof.
  intros Hl Hr. unfold hash_join. apply returns_after.
  { apply keeps_count_mapT. intros [l r]. eauto 8 with peacock. }
  intros keys. apply returns_after; [apply join_residual_count|]. intros residual. by apply keyed_join_ok.
Qed.

Lemma side_of_count filter e : keeps_count (side_of filter e).
Proof. destruct e; cbn; eauto 8 with peacock. Qed.

Lemma side_pair_count filter e : keeps_count (side_pair filter e).
Proof.
  destruct e; cbn; eauto with peacock. destruct op; eauto with peacock.
  apply keeps_count_bind; [apply side_of_count|]. intros [a|]; [|eauto with peacock].
  apply keeps_count_bind; [apply side_of_count|eauto with peacock].
Qed.

Lemma split_all_count filter conjuncts acc : keeps_count (split_all filter conjuncts acc).
Proof.
  revert acc. induction conjuncts as [|c conjuncts IH]; intros acc; cbn; [eauto with peacock|].
  apply keeps_count_bind; [|done]. destruct acc as [keys rest]. cbn. apply keeps_count_bind; [apply side_pair_count|].
  intros [[[[] b] [[] p]]|]; eauto 6 with peacock.
Qed.

Lemma null_equal_keys_count filter projection : keeps_count (null_equal_keys filter projection).
Proof.
  destruct filter as [filter|]; cbn; [|eauto with peacock].
  apply keeps_count_bind; [apply split_all_count|]. intros [[|k keys] rest]; [eauto with peacock|].
  apply keeps_count_bind; [destruct (reduce_and rest); eauto 6 with peacock|eauto with peacock].
Qed.

Lemma build_side_ok plan s : plan_ok plan = true ->
  returns (build_side translated plan) s (fun tree s' => reaches s tree s' /\ one_lane tree /\ one_batch tree).
Proof.
  intros Hp. unfold build_side. apply returns_tree; [by apply Hrec|]. intros tree s1 Hg Hr. apply returns_ret.
  destruct (merged_ok tree Hg) as (Hm & Hs & H1). destruct (one_batch_per_lane_ok _ Hm) as (Hg' & Hs' & Hl & Hb & _).
  split; [split; [done|by rewrite Hs', Hs]|]. split; [|done]. unfold one_lane in *. congruence.
Qed.

(** A keyless join over its two sides. *)
Lemma product_good (join : GpuNode -> GpuNode -> GpuNode) build probe s1 s2 :
  good build -> one_lane build -> one_batch build -> good probe ->
  (forall b p, children (join b p) = [b; p] /\ is_load (join b p) = false /\ built (join b p)
     /\ (one_lane b -> one_lane p -> one_batch b -> lanes_fit (join b p)) /\ lanes (join b p) = 1) ->
  reads s1 (loads build ++ loads probe) s2 ->
  returns (mret (join build (merged probe))) s2 (reaches s1).
Proof.
  intros Hb H1 Hbb Hp Hj Hr. destruct (merged_ok probe Hp) as (Hm & Hs & Hm1).
  destruct (Hj build (merged probe)) as (Hc & Hload & Hbuilt & Hfit & Hl). apply returns_built.
  - eapply good_two; [exact Hb|exact Hm|exact Hc|exact Hbuilt|by apply Hfit|lia].
  - by rewrite (loads_two _ _ _ Hc Hload), Hs.
Qed.

Lemma cross_join_ok build probe projection schema s s2 : good build -> one_lane build -> one_batch build -> good probe ->
  reads s (loads build ++ loads probe) s2 ->
  returns (mret (new_cross_join build (merged probe) projection schema)) s2 (reaches s).
Proof.
  intros Hb H1 Hbb Hp Hr. by apply (product_good (fun b p => new_cross_join b p projection schema)).
Qed.

Lemma nested_loop_join_ok schema jt filter projection lhs rhs s : plan_ok lhs = true -> plan_ok rhs = true ->
  returns (nested_loop_join translated schema jt filter projection lhs rhs) s (reaches s).
Proof.
  intros Hl Hr. unfold nested_loop_join. apply returns_after; [apply null_equal_keys_count|].
  intros [on|]; [by apply keyed_join_ok|].
  assert (Hloop : returns
    ('(predicate, columns) ← match filter with
                             | None => mret (true_literal, [])
                             | Some filter =>
                                 e ← from (translate_expr (filter_expression filter) (filter_schema filter));
                                 columns ← from (filter_column_map filter);
                                 mret (e, columns)
                             end;
     build ← build_side translated lhs;
     probe ← translated rhs;
     '(projection, schema) ← expect (past_rowmarkers schema (length (plan_schema lhs)) (length (plan_schema rhs)) jt projection);
     mret (new_nested_loop_join build (merged probe) jt predicate columns projection schema)) s (reaches s)).
  { apply returns_after; [destruct filter; eauto 6 with peacock|]. intros [predicate columns].
    apply returns_bind. eapply returns_weaken; [by apply build_side_ok|]. intros build s1 ((Hb & Hr1) & H1 & Hbb).
    apply returns_tree; [by apply Hrec|]. intros probe s2 Hp Hr2. apply returns_after_expect. intros [projection' schema'] _.
    by apply (product_good (fun b p => new_nested_loop_join b p jt predicate columns projection' schema')); [..|by eapply reads_app]. }
  destruct filter as [filter|]; [exact Hloop|]. destruct jt; try exact Hloop.
  apply returns_after_expect. intros [projection' schema'] _. apply returns_bind.
  eapply returns_weaken; [by apply build_side_ok|]. intros build s1 ((Hb & Hr1) & H1 & Hbb).
  apply returns_tree; [by apply Hrec|]. intros probe s2 Hp Hr2. apply cross_join_ok; try done. by eapply reads_app.
Qed.

(** ** Limits, sorts and shuffles *)
Lemma mid_plan_limit_ok input iv s : plan_ok input = true ->
  returns (mid_plan_limit translated input iv) s (reaches s).
Proof.
  intros Hp. unfold mid_plan_limit. apply returns_tree; [by apply Hrec|]. intros tree s1 Hg Hr.
  destruct (merged_ok tree Hg) as (Hm & Hs & H1), (limit_ok (merged tree) iv) as [Hl Hls]; [done..|].
  apply returns_built; [done|by rewrite Hls, Hs].
Qed.

Lemma over_one (node : GpuNode) input s s1 : good input -> children node = [input] -> is_load node = false -> built node ->
  lanes_fit node -> 1 <= lanes node -> reads s (loads input) s1 -> returns (mret node) s1 (reaches s).
Proof.
  intros Hg Hc Hl Hb Hf Hn Hr. apply returns_built; [by eapply good_one|]. by rewrite (loads_one _ _ Hc Hl).
Qed.

Lemma sorted_ok input keys fetch : good input ->
  good (new_sort input keys fetch) /\ loads (new_sort input keys fetch) = loads input.
Proof. intros Hg. split; [|by eapply loads_one]. eapply good_one; try done. apply (good_lanes _ Hg). Qed.

Lemma per_batch_sort_ok ordering fetch input s : plan_ok input = true ->
  returns (per_batch_sort translated ordering fetch input) s (fun sorted s' => reaches s sorted.1 s').
Proof.
  intros Hp. unfold per_batch_sort. apply returns_tree; [by apply Hrec|]. intros tree s1 Hg Hr.
  apply returns_after_from. intros keys _. apply returns_ret. cbn.
  destruct (sorted_ok tree keys fetch Hg) as [Hs Hss]. split; [done|by rewrite Hss].
Qed.

Lemma sort_ok ordering fetch input s : plan_ok input = true ->
  returns (sort translated ordering fetch input) s (reaches s).
Proof.
  intros Hp. unfold sort. apply returns_bind. eapply returns_weaken; [by apply per_batch_sort_ok|].
  intros [tree keys] s' [Hg Hr]. cbn in Hg, Hr |- *. apply (over_one _ tree); try done. apply (good_lanes _ Hg).
Qed.

Lemma sort_preserving_merge_ok ordering fetch input s : plan_ok input = true ->
  returns (sort_preserving_merge translated ordering fetch input) s (reaches s).
Proof.
  intros Hp. unfold sort_preserving_merge.
  assert (Hmerge : forall m, returns m s (fun sorted s' => reaches s sorted.1 s') ->
    returns ('(node_, keys) ← m; mret (new_merge_sorted_partitions node_ keys fetch)) s (reaches s)).
  { intros m Hm. apply returns_bind. eapply returns_weaken; [exact Hm|]. intros [tree keys] s' [Hg Hr].
    cbn in Hg, Hr |- *. by apply (over_one _ tree). }
  assert (Hplain : returns (node_ ← translated input; keys ← from (sort_key_ordinals ordering (plan_schema input));
    mret (node_, keys)) s (fun sorted s' => reaches s sorted.1 s')).
  { apply returns_tree; [by apply Hrec|]. intros tree s1 Hg Hr. apply returns_after_from. intros keys _. by apply returns_ret. }
  apply Hmerge. destruct input; try exact Hplain. by apply per_batch_sort_ok.
Qed.

Lemma ordinals_keyed exprs schema keys : hash_key_ordinals exprs schema = Ok keys -> negb (length exprs =? 0) = true -> keys <> [].
Proof.
  intros Hk%traverse_ok%Forall2_length Hn%negb_true_iff%Nat.eqb_neq. by intros ->.
Qed.

Lemma repartition_ok partitioning input s : partitioning_ok partitioning = true -> plan_ok input = true ->
  returns (repartition translated partitioning input) s (reaches s).
Proof.
  intros Hk Hp. unfold repartition. apply returns_tree; [by apply Hrec|]. intros tree s1 Hg Hr.
  destruct partitioning as [exprs n_|n_|n_]; [|by apply returns_built|done].
  apply andb_true_iff in Hk as [He Hn%Nat.leb_le]. apply returns_after_from. intros keys Hkeys.
  destruct (shuffled_ok tree keys n_ Hg) as [Hs Hss]; [by eapply ordinals_keyed|done|].
  apply returns_built; [done|by rewrite Hss].
Qed.

(** ** Branches *)
Lemma branches_ok inputs declared s : forallb plan_ok inputs = true ->
  returns (branches translated inputs declared) s (fun bs s' =>
    Forall good bs /\ length bs = length inputs /\ reads s (concat (map loads bs)) s').
Proof.
  unfold branches. revert s. induction inputs as [|i inputs IH]; intros s; cbn.
  - intros _. apply returns_ret. cbn. split_and!; [constructor|done|apply reads_nil].
  - intros [Hi His]%andb_true_iff. apply returns_bind.
    apply returns_tree; [by apply Hrec|]. intros tree s1 Hg Hr.
    destruct (cast_branch_ok tree (plan_schema i) declared Hg) as [Hc Hs]. apply returns_ret.
    apply returns_bind. eapply returns_weaken; [by apply IH|]. intros bs s' (Hbs & Hlen & Hr2). apply returns_ret.
    split_and!; [by constructor|cbn; by rewrite Hlen|]. cbn. rewrite Hs. by eapply reads_app.
Qed.

Lemma good_many node bs : Forall good bs -> children node = bs -> built node -> lanes_fit node -> 1 <= lanes node -> good node.
Proof. intros Hg Hc Hb Hf Hl. apply good_eq. split; [by split|]. rewrite Hc. by apply Forall_forall. Qed.

Lemma union_good bs schema : Forall good bs -> bs <> [] ->
  good (new_union bs schema) /\ loads (new_union bs schema) = concat (map loads bs).
Proof.
  intros Hg Hne. split; [|by apply loads_many]. eapply good_many; try done.
  destruct bs as [|b bs]; [done|]. apply Forall_cons in Hg as [Hb _].
  pose proof (good_lanes _ Hb) as Hl. unfold lanes in *. cbn. lia.
Qed.

Lemma interleaved_ok bs schema s s1 : Forall good bs -> bs <> [] -> reads s (concat (map loads bs)) s1 ->
  returns (interleaved bs schema) s1 (reaches s).
Proof.
  intros Hg Hne Hr. unfold interleaved. apply returns_after_expect. intros first Hf.
  assert (Hfirst : bs !!! 0 = first) by (destruct bs; [done|by injection Hf]).
  destruct (forallb _ bs) eqn:Hagree.
  - apply returns_built; [|by rewrite (loads_many _ bs)]. eapply good_many; try done.
    + cbn. rewrite Hfirst. intros b Hb. rewrite forallb_forall in Hagree.
      apply list_elem_of_In, Hagree, andb_true_iff in Hb as [Hn%Nat.eqb_eq Hk%bool_decide_eq_true]. done.
    + unfold lanes. cbn. rewrite Hfirst. destruct bs as [|b bs]; [done|]. injection Hf as ->.
      apply Forall_cons in Hg as [Hb _]. apply (good_lanes _ Hb).
  - destruct (union_good bs schema Hg Hne) as [Hu Hs]. apply returns_built; [done|by rewrite Hs].
Qed.

(** ** Aggregates *)
Definition shuffle_ok (shuffle : Shuffle) : Prop :=
  match shuffle with ShuffleByHash keys n_ => keys <> [] /\ 1 <= n_ | _ => True end.

Lemma state_and_init_count aggregate init_from rule input_schema :
  keeps_count (state_and_init aggregate init_from rule input_schema).
Proof.
  assert (Htype : forall func ty, keeps_count (state_type_of func ty)).
  { intros func ty. unfold state_type_of. eauto with peacock. }
  assert (Hfield : forall arg_type declared c, keeps_count (state_field (aggr_name aggregate) arg_type declared c)).
  { intros arg_type declared [suffix func]. unfold state_field. apply keeps_count_bind; [destruct declared; eauto with peacock|].
    intros ?. apply keeps_count_bind; [done|eauto with peacock]. }
  assert (Hplain : forall m, keeps_count m -> keeps_count ('(args, arg_type, declared) ← m;
      fields ← mapT (state_field (aggr_name aggregate) arg_type declared) (state rule);
      mret (fields, zip_with (fun '(_, func) field =>
                      {| call_func := func; call_args := args; outputs := [field] |}) (state rule) fields))).
  { intros m Hm. apply keeps_count_bind; [done|]. intros [[args arg_type] declared].
    apply keeps_count_bind; [by apply keeps_count_mapT|]. intros ?. apply keeps_count_ret. }
  destruct init_from as [|arg arg_type|columns]; cbn.
  - apply Hplain. unfold own_values. repeat (apply keeps_count_bind; [|intros ?]); eauto with peacock.
    destruct (expressions aggregate); eauto with peacock.
  - apply Hplain. apply keeps_count_ret.
  - destruct (merge rule); [|done]. apply keeps_count_bind; [eauto with peacock|]. intros _.
    apply keeps_count_bind; [|eauto with peacock]. apply keeps_count_mapT. intros [index [suffix func]]. unfold companion_column.
    repeat (apply keeps_count_bind; [|intros ?]); eauto with peacock.
Qed.

Lemma finish_outer_count func state_ out_type finished : keeps_count (finish_outer func state_ out_type finished).
Proof. unfold finish_outer. destruct func; eauto 6 with peacock. Qed.

Lemma decompose_count aggregates input_schema n_keys : keeps_count (decompose aggregates input_schema n_keys).
Proof.
  unfold decompose. generalize {| d_init := []; d_merge := []; d_state := []; d_finalize := []; d_annotations := [] |}.
  induction aggregates as [|[a f] aggregates IH]; intros d; cbn; [eauto with peacock|].
  apply keeps_count_bind; [|done]. unfold decompose_one.
  apply keeps_count_bind; [destruct (_ && _); eauto with peacock|]. intros _.
  apply keeps_count_bind; [eauto with peacock|]. intros spec. apply keeps_count_bind; [apply state_and_init_count|].
  intros [state_ init]. apply keeps_count_bind; [eauto with peacock|]. intros finished.
  apply keeps_count_bind; [|eauto with peacock]. destruct (reads_values f); [eauto with peacock|apply finish_outer_count].
Qed.

Lemma aggregate_good input body intermediate schema : good input -> declares_keys body intermediate ->
  good (new_aggregate input body intermediate schema)
  /\ loads (new_aggregate input body intermediate schema) = loads input.
Proof. intros Hg Hk. split; [|by eapply loads_one]. eapply good_one; try done. apply (good_lanes _ Hg). Qed.

Lemma aggregate_batches_good input body intermediate schema : good input -> declares_keys body intermediate ->
  good (new_aggregate_batches input body intermediate schema)
  /\ loads (new_aggregate_batches input body intermediate schema) = loads input.
Proof. intros Hg Hk. split; [|by eapply loads_one]. eapply good_one; try done. apply (good_lanes _ Hg). Qed.

(** A stage's keys are as many as the state's leading columns. *)
Definition stage_keyed (stage : Stage) : Prop :=
  length (stage_group_by stage) + (if bool_decide (stage_sets stage = []) then 0 else 1) <= length (stage_keys stage)
  /\ (stage_sets stage = [] \/ length (stage_nulls stage) <= length (stage_keys stage)).

Lemma init_keyed stage calls finalize state_ annotations : stage_keyed stage ->
  declares_keys (init_body stage calls finalize) (keyed_schema (stage_keys stage) state_ annotations).
Proof.
  intros [Hk Hn]. unfold declares_keys, key_width, keyed_schema. cbn [group_by grouping_sets null_exprs init_body fields].
  rewrite length_app. destruct Hn as [Hn|Hn]; (split; [lia|]); [by left|right; lia].
Qed.

Lemma merge_keyed keys calls finalize state_ annotations :
  declares_keys (merge_body keys calls finalize) (keyed_schema keys state_ annotations).
Proof.
  unfold declares_keys, key_width, keyed_schema. cbn [group_by grouping_sets null_exprs merge_body fields].
  rewrite bool_decide_true, length_imap, length_app by done. split; [lia|by left].
Qed.

Lemma drop_grouping_id_keyed keys id keys' : drop_grouping_id keys id = Ok keys' -> keys' <> [].
Proof.
  unfold drop_grouping_id, PlanResult. intros ([] & Hn & [= <-])%bind_ok.
  apply ensure_iff, negb_true_iff, orb_false_iff in Hn as [Hn%bool_decide_eq_false _]. done.
Qed.

Lemma relanded_ok tree grouping_id shuffle s s1 : good tree -> shuffle_ok shuffle -> reads s (loads tree) s1 ->
  returns (relanded tree grouping_id shuffle) s1 (reaches s).
Proof.
  intros Hg Hs Hr. unfold relanded. destruct shuffle as [|keys n_|]; [by apply returns_built| |].
  - destruct Hs as [Hk Hn]. destruct (1 <? lanes tree); [|by apply returns_built].
    apply returns_bind. eapply (returns_weaken _ _ (fun keys s' => keys <> [] /\ s' = s1)).
    + destruct grouping_id as [id|]; [|by apply returns_ret]. apply returns_from. intros keys' Hd.
      split; [by eapply drop_grouping_id_keyed|done].
    + intros keys' s' [Hk' ->]. destruct (shuffled_ok tree keys' n_ Hg Hk' Hn) as [Hsh Hss].
      apply returns_built; [done|by rewrite Hss].
  - destruct (merged_ok tree Hg) as (Hm & Hms & _). apply returns_built; [done|by rewrite Hms].
Qed.

Lemma init_and_reland_ok stage decomposed grouping_id shuffle s s1 :
  let intermediate := keyed_schema (stage_keys stage) (d_state decomposed) (d_annotations decomposed) in
  good (stage_input stage) -> stage_keyed stage -> shuffle_ok shuffle -> reads s (loads (stage_input stage)) s1 ->
  returns (init_and_reland stage decomposed intermediate grouping_id shuffle) s1 (reaches s).
Proof.
  intros intermediate Hg Hk Hs Hr. unfold init_and_reland.
  destruct (aggregate_good _ (init_body stage (d_init decomposed) None) intermediate intermediate Hg) as [Ha Has];
    [by apply init_keyed|].
  destruct (_ && _ && _).
  - destruct (aggregate_batches_good _ (merge_body (stage_keys stage) (d_merge decomposed) None) intermediate intermediate Ha)
      as [Hb Hbs]; [apply merge_keyed|]. apply relanded_ok; [done|done|]. by rewrite Hbs, Has.
  - apply relanded_ok; [done|done|]. by rewrite Has.
Qed.

Lemma sequence_ok stage shuffle s s1 : good (stage_input stage) -> stage_keyed stage -> shuffle_ok shuffle ->
  reads s (loads (stage_input stage)) s1 -> returns (sequence stage shuffle) s1 (reaches s).
Proof.
  intros Hg Hk Hs Hr. unfold sequence. apply returns_after; [destruct (stage_sets stage); eauto with peacock|]. intros id.
  apply returns_after; [apply decompose_count|]. intros decomposed.
  apply returns_after.
  { destruct (stage_finished stage) as [names|]; [|eauto with peacock]. apply keeps_count_bind; [|eauto with peacock].
    unfold finished_output. apply keeps_count_bind; [|eauto with peacock]. apply keeps_count_mapT. intros [i e]. eauto with peacock. }
  set (intermediate := keyed_schema (stage_keys stage) (d_state decomposed) (d_annotations decomposed)).
  assert (Hlast : forall schema finalize, returns (tree ← init_and_reland stage decomposed intermediate id shuffle;
    mret (new_aggregate_batches tree (merge_body (stage_keys stage) (d_merge decomposed) finalize) intermediate schema)) s1
      (reaches s)).
  { intros schema finalize. apply returns_bind. eapply returns_weaken; [by apply init_and_reland_ok|].
    intros tree s' [Ht Hr']. destruct (aggregate_batches_good tree (merge_body (stage_keys stage) (d_merge decomposed) finalize)
      intermediate schema Ht) as [Hb Hbs]; [apply merge_keyed|].
    apply returns_built; [done|by rewrite Hbs]. }
  intros [[finalize output]|]; [|apply Hlast]. destruct (_ && _); [|apply Hlast].
  destruct (aggregate_good (stage_input stage) (init_body stage (d_init decomposed) (Some finalize)) intermediate output Hg)
    as [Ha Has]; [by apply init_keyed|].
  apply returns_built; [done|by rewrite Has].
Qed.

(** A list translated entry by entry is as long. *)
Lemma returns_mapped {A B C} (f : A -> TransM B) l (k : list B -> TransM C) s (Q : C -> nat -> Prop) :
  (forall x, keeps_count (f x)) -> (forall ys, length ys = length l -> returns (k ys) s Q) -> returns (mapT f l ≫= k) s Q.
Proof.
  intros Hf Hk. apply returns_bind. eapply returns_weaken; [apply (returns_mapT f (fun _ _ => True))|].
  - intros x s' _. eapply returns_weaken; [apply Hf|]. by intros y s'' ->.
  - intros ys s' [Hys%Forall2_length ->]. by apply Hk.
Qed.

Lemma expr_count (e : PhysicalExpr * string) schema : keeps_count (let '(e, _) := e in from (translate_expr e schema)).
Proof. destruct e. eauto with peacock. Qed.

Lemma key_field_count (schema : ArrowSchema) i : keeps_count (expect (schema !! i)).
Proof. eauto with peacock. Qed.

Definition partial_ok (partial : AggregateNode) : Prop :=
  plan_ok (an_input partial) = true /\ group_ok (an_group partial) = true.

Lemma group_nulls group : group_ok group = true -> is_single group = false -> length (null_expr group) = length (group_exprs group).
Proof. unfold group_ok. intros Hg Hs. rewrite Hs in Hg. by apply Nat.eqb_eq. Qed.

Lemma inner_stage_ok partial shuffle base base_type id_type s : partial_ok partial -> shuffle_ok shuffle ->
  returns (inner_stage translated partial shuffle base base_type id_type) s (reaches s).
Proof.
  intros [Hp Hgroup] Hs. unfold inner_stage. apply returns_after_from. intros first _.
  apply returns_mapped; [intros; apply expr_count|]. intros group_by Hgb. apply returns_mapped; [intros; apply key_field_count|].
  intros keys Hkeys. rewrite length_seq in Hkeys. apply returns_bind.
  eapply (returns_weaken _ _ (fun '(key_fields, (sets, nulls)) s' => s' = s
    /\ S (length group_by) + (if bool_decide (sets = []) then 0 else 1) <= length key_fields
    /\ (sets = [] \/ length nulls <= length key_fields))).
  { destruct (is_single (an_group partial)) eqn:Hsingle.
    - apply returns_ret. split_and!; [done| |by left]. cbn. lia.
    - unfold inner_sets. rewrite <- (group_nulls _ Hgroup Hsingle) in Hkeys, Hgb. apply returns_bind, returns_bind, returns_from. intros null _.
      apply returns_mapped; [intros; apply expr_count|]. intros nulls Hnulls. apply returns_ret, returns_ret.
      split_and!; [done|..]; [|right]; rewrite length_app; cbn; [case_bool_decide|]; lia. }
  intros [key_fields [sets nulls]] s' (-> & Hwidth & Hnulls). apply returns_tree; [by apply Hrec|]. intros tree s1 Hg Hr.
  apply (sequence_ok {| stage_input := tree |}); [done|by split| |done].
  destruct shuffle as [|ks n_|]; [done| |done]. destruct Hs as [Hk Hn]. split; [by destruct ks|done].
Qed.

Lemma lower_ok partial finisher shuffle base s : partial_ok partial -> shuffle_ok shuffle ->
  returns (lower translated partial finisher shuffle base) s (reaches s).
Proof.
  intros Hp Hs. unfold lower. apply returns_after_from. intros base_type _.
  apply returns_tree; [by apply inner_stage_ok|]. intros inner s1 Hg Hr. apply returns_after_expect. intros inner_schema _.
  apply returns_mapped; [eauto with peacock|]. intros outer_keys Hok. rewrite length_seq in Hok.
  apply returns_after.
  { apply keeps_count_mapT. intros a. unfold outer_aggregate. destruct (is_distinct a); eauto with peacock. }
  intros aggregates. apply returns_mapped; [intros; apply key_field_count|]. intros key_fields Hkf. rewrite length_seq in Hkf.
  apply returns_bind. eapply returns_weaken.
  { apply (sequence_ok {| stage_input := inner |}); [done| |done|done]. split; [|by left]. cbn [stage_group_by stage_sets stage_keys].
    rewrite bool_decide_true, length_app, Hok, Hkf by done. destruct (negb _); cbn; lia. }
  intros outer s' [Ho Hro].
  destruct (negb _); [|by apply returns_built]. apply returns_after_expect. intros id _.
  case_bool_decide; [by apply returns_built|].
  destruct (project_ok outer _ (schema_new finisher) Ho : good (narrowed_id outer finisher (length (group_exprs (an_group partial))))
    /\ loads (narrowed_id outer finisher (length (group_exprs (an_group partial)))) = loads outer) as [Hpg Hps].
  apply returns_built; [exact Hpg|by rewrite Hps].
Qed.

Lemma aggregate_sequence_ok partial finisher shuffle s : partial_ok partial -> shuffle_ok shuffle ->
  returns (aggregate_sequence translated partial finisher shuffle) s (reaches s).
Proof.
  intros Hpartial Hs. pose proof Hpartial as [Hp Hgroup]. unfold aggregate_sequence. destruct (existsb _ (an_filters partial)); [done|].
  set (ordinary := input ← translated (an_input partial); _).
  assert (Hord : returns ordinary s (reaches s)).
  { subst ordinary. apply returns_tree; [by apply Hrec|]. intros tree s1 Hg Hr.
    apply returns_mapped; [intros; apply expr_count|]. intros group_by Hgb. apply returns_mapped; [intros; apply key_field_count|].
    intros keys Hkeys. rewrite length_seq in Hkeys. apply returns_mapped; [intros; apply expr_count|]. intros nulls Hnulls.
    apply (sequence_ok {| stage_input := tree |}); [done| |done|done]. split; cbn [stage_group_by stage_sets stage_nulls stage_keys].
    - rewrite Hgb, Hkeys. destruct (is_single _); [rewrite bool_decide_true by done|case_bool_decide]; lia.
    - destruct (is_single _) eqn:Hsingle; [by left|right]. rewrite Hnulls, Hkeys, (group_nulls _ Hgroup Hsingle). lia. }
  clearbody ordinary. destruct (existsb _ (an_aggr partial)); [|done].
  destruct (classify _ _ _) as [base|e|]; [|done..]. apply returns_after_expect. intros f _. by apply lower_ok.
Qed.

Lemma shuffle_from_ok plan shuffle : plan_ok plan = true -> shuffle_ok shuffle ->
  plan_ok (shuffle_from plan shuffle).1 = true /\ shuffle_ok (shuffle_from plan shuffle).2.
Proof.
  revert shuffle. induction plan; intros shuffle Hp Hs; try done.
  - destruct fetch; [done|]. by apply IHplan.
  - pose proof Hp as [Hk Hi]%andb_true_iff. destruct partitioning as [exprs n_|n_|n_]; [|by apply IHplan..].
    pose proof Hk as [He Hn%Nat.leb_le]%andb_true_iff. cbn [shuffle_from].
    destruct (hash_key_ordinals exprs (plan_schema plan)) as [keys|e] eqn:Hkeys; [|done].
    apply IHplan; [done|]. split; [by eapply ordinals_keyed|done].
  - by apply IHplan.
Qed.

Lemma as_aggregate_ok plan a : as_aggregate plan = Some a -> plan_ok plan = true -> partial_ok a.
Proof. destruct plan; try done. by intros [= <-] [Hg Hp]%andb_true_iff. Qed.

Lemma aggregate_ok exec s : partial_ok exec -> returns (aggregate translated exec) s (reaches s).
Proof.
  intros Hpartial. pose proof Hpartial as [Hp _]. unfold aggregate.
  assert (Hfinal : returns (let '(below_, shuffle) := shuffle_below (an_input exec) in
      match as_aggregate below_ with
      | Some partial =>
          if is_partial partial then aggregate_sequence translated partial (Some (an_schema exec)) shuffle
          else refuse (Unsupported ("a final aggregate over " +:+ plan_name below_ +:+ " rather than a partial one"))
      | None => refuse (Unsupported ("a final aggregate over " +:+ plan_name below_ +:+ " rather than a partial one"))
      end) s (reaches s)).
  { destruct (shuffle_from_ok (an_input exec) ShuffleNone Hp I) as [Hb Hs]. fold (shuffle_below (an_input exec)) in Hb, Hs.
    destruct (shuffle_below (an_input exec)) as [below_ shuffle]. cbn in Hb, Hs.
    destruct (as_aggregate below_) as [partial|] eqn:Ha; [|done]. destruct (is_partial partial); [|done].
    apply aggregate_sequence_ok; [by eapply as_aggregate_ok|done]. }
  destruct (an_mode exec); [by apply aggregate_sequence_ok|exact Hfinal|exact Hfinal|by apply aggregate_sequence_ok..].
Qed.

Lemma cross_ok schema lhs rhs s : plan_ok lhs = true -> plan_ok rhs = true ->
  returns (node_arm t translated (CrossJoinExec schema lhs rhs)) s (reaches s).
Proof.
  intros Hl Hr. cbn. apply returns_bind. eapply returns_weaken; [by apply build_side_ok|].
  intros build s1 ((Hb & Hr1) & H1 & Hbb). apply returns_tree; [by apply Hrec|]. intros probe s2 Hp Hr2.
  apply returns_after_expect. intros [projection' schema'] _. apply cross_join_ok; try done. by eapply reads_app.
Qed.

Lemma limit_arm_ok plan s : plan_ok plan = true ->
  returns ('(input, interval) ← expect (limit_interval plan); mid_plan_limit translated input interval) s (reaches s).
Proof.
  intros Hp. apply returns_after_expect. intros [input interval] Hl. apply mid_plan_limit_ok.
  destruct plan; try done; [|by injection Hl as <- _..]. destruct fetch; [|done]. by injection Hl as <- _.
Qed.

Lemma node_arm_ok plan s : plan_ok plan = true -> returns (node_arm t translated plan) s (reaches s).
Proof.
  intros Hp. destruct plan; cbn [node_arm]; try done.
  - apply source_ok.
  - apply returns_tree; [by apply Hrec|]. intros tree s1 Hg Hr. apply returns_after_from. intros e _.
    destruct (filter_ok tree e projection (schema_new schema) Hg) as [Hf Hs]. apply returns_built; [done|by rewrite Hs].
  - apply returns_tree; [by apply Hrec|]. intros tree s1 Hg Hr. destruct exprs as [|e exprs].
    + destruct (project_ok tree [{| expr := Literal {| scalar_type := Int8; scalar_value := Some (DInt 0) |};
        expr_name := ROWMARKER |}] rowmarker Hg) as [Hf Hs]. apply returns_built; [done|by rewrite Hs].
    + apply returns_after; [apply keeps_count_mapT; intros [? ?]; eauto with peacock|]. intros es.
      destruct (project_ok tree es (schema_new schema) Hg) as [Hf Hs]. apply returns_built; [done|by rewrite Hs].
  - by apply sort_ok.
  - destruct fetch; [by apply mid_plan_limit_ok|by apply Hrec].
  - by apply (limit_arm_ok (GlobalLimitExec schema skip fetch plan)).
  - by apply (limit_arm_ok (LocalLimitExec schema fetch plan)).
  - pose proof Hp as [? ?]%andb_true_iff. by apply aggregate_ok.
  - apply andb_true_iff in Hp as [? ?]. by apply cross_ok.
  - apply andb_true_iff in Hp as [? ?]. by apply nested_loop_join_ok.
  - apply andb_true_iff in Hp as [? ?]. by apply repartition_ok.
  - apply returns_tree; [by apply Hrec|]. intros tree s1 Hg Hr. destruct (merged_ok tree Hg) as (Hm & Hs & _).
    apply returns_built; [done|by rewrite Hs].
  - by apply sort_preserving_merge_ok.
  - apply andb_true_iff in Hp as [? ?]. by apply hash_join_ok.
  - apply andb_true_iff in Hp as [Hne Hp]. apply returns_bind. eapply returns_weaken; [by apply branches_ok|].
    intros bs s' (Hbs & Hlen & Hr). destruct (union_good bs (schema_new schema) Hbs) as [Hu Hs].
    { intros ->. by destruct inputs. }
    apply returns_built; [done|by rewrite Hs].
  - apply andb_true_iff in Hp as [Hne Hp]. apply returns_bind. eapply returns_weaken; [by apply branches_ok|].
    intros bs s' (Hbs & Hlen & Hr). apply interleaved_ok; [done| |done]. intros ->. by destruct inputs.
  - apply returns_built; [|apply reads_nil]. apply good_eq. split; [|by intros c Hc%not_elem_of_nil]. by split; [split|..].
Qed.
End Arms.

(** ** The whole translation *)
Section Root.
Context `{DataFusion} (t : Translator).

Lemma node_ok fuel plan s : plan_ok plan = true -> returns (node t fuel plan) s (reaches t s).
Proof.
  revert plan s. induction fuel as [|fuel IH]; intros plan s Hp; [done|].
  cbn [node]. apply node_arm_ok; [|done]. intros plan' Hp' s'. by apply IH.
Qed.

Lemma node_then_ok fuel plan s : plan_ok plan = true ->
  returns (node_ ← node t fuel plan; mret (node_, None : option RowInterval)) s (fun out s' => reaches t s out.1 s').
Proof. intros Hp. apply (returns_tree t); [by apply node_ok|]. intros tree s1 Hg Hr. by apply returns_ret. Qed.

Lemma unload_input_ok fuel plan s : plan_ok plan = true ->
  returns (unload_input t fuel plan) s (fun out s' => reaches t s out.1 s').
Proof.
  revert s. induction plan; intros s Hp; cbn [unload_input]; try (by apply node_then_ok).
  - apply returns_bind. eapply returns_weaken; [apply loader_ok|]. intros tree s' [Hr _]. by apply returns_ret.
  - destruct fetch; [by apply node_then_ok|by apply IHplan].
  - pose proof Hp as [_ Hi]%andb_true_iff. destruct partitioning; [by apply node_then_ok|by apply IHplan|by apply node_then_ok].
  - apply returns_bind. eapply returns_weaken; [by apply IHplan|]. intros [tree pushed] s' [Hg Hr]. apply returns_ret.
    destruct (merged_ok tree Hg) as (Hm & Hs & _). cbn. split; [done|by rewrite Hs].
Qed.

Lemma limit_interval_input plan input iv : limit_interval plan = Some (input, iv) -> plan_ok plan = true -> plan_ok input = true.
Proof.
  destruct plan; try done; [|intros [= <- _]; done..]. cbn. destruct fetch; [|done]. by intros [= <- _].
Qed.

Lemma translate_ok root s : plan_ok root = true ->
  returns (translate t root) s (fun tree s' => exists input interval,
    tree = new_unload input interval /\ good input /\ reads t s (loads tree) s').
Proof.
  intros Hp. unfold translate.
  assert (Hi : exists input interval, match limit_interval root with
    | Some (input, interval) => (input, Some interval) | None => (root, None) end = (input, interval) /\ plan_ok input = true).
  { destruct (limit_interval root) as [[input iv]|] eqn:Hl; [|by eauto].
    exists input, (Some iv). split; [done|by eapply limit_interval_input]. }
  destruct Hi as (input & interval & -> & Hin). apply returns_bind.
  eapply returns_weaken; [by apply unload_input_ok|]. intros [tree pushed] s' [Hg Hr].
  cbn in Hg, Hr. apply returns_ret. do 2 eexists. split; [done|]. split; [done|].
  by rewrite (loads_one _ tree).
Qed.

(** C3: a translated tree meets its nodes' requirements by construction.  The root is an unload; every
    node below it is exactly what its constructor makes of its inputs, declares at least one lane, and
    has of its inputs the lanes and batches it needs: a limit and a scatter read one lane, a join's
    build side is one batch per lane and its sides co-partitioned on its keys, an interleave's branches
    are placed alike, a load's lanes read row groups that survived pruning.  The translation counted
    every load of the tree and no more, and the i-th of them is cut by the batch size of source i. *)
Theorem translated_tree_fits root tree reached : plan_ok root = true -> translate t root 0 = Good (tree, reached) ->
  (exists input interval, tree = new_unload input interval
    /\ forall node, node ∈ descendants input -> built node /\ lanes_fit node /\ 1 <= lanes node)
  /\ reached = length (loads tree)
  /\ forall i load, loads tree !! i = Some load -> sized_at t i load.
Proof.
  intros Hp Ht. destruct (translate_ok root 0 Hp tree reached Ht) as (input & interval & -> & Hg & Hr & Hs).
  split; [|split; [exact Hr|exact Hs]]. exists input, interval. split; [done|]. intros node Hn.
  unfold good in Hg. rewrite Forall_forall in Hg. by destruct (Hg node Hn).
Qed.
End Root.

#[local] Existing Instance demo_session.
Definition demo_tree : GpuNode := Eval vm_compute in
  match translate demo_translator demo_join 0 with Good (tree, _) => tree | _ => inhabitant end.

Lemma translated_tree_fits_witness :
  translate demo_translator demo_join 0 = Good (demo_tree, 2)
  /\ (exists input interval, demo_tree = new_unload input interval
    /\ forall node, node ∈ descendants input -> built node /\ lanes_fit node /\ 1 <= lanes node)
  /\ 2 = length (loads demo_tree)
  /\ forall i load, loads demo_tree !! i = Some load -> sized_at demo_translator i load.
Proof.
  split; [vm_compute; reflexivity|].
  apply (translated_tree_fits demo_translator demo_join demo_tree 2); vm_compute; reflexivity.
Defined.
