(* ===== verification/TransTotal.v ===== *)
(** * The translation's fuel is enough

    [node] recurses on fuel because its arms step over several plan nodes at once: a final aggregate
    translates what is below its partial one, a merge of sorted lanes what is below the sort.  Every
    arm asks only for smaller plans, so the plan's size is fuel enough. *)
From stdpp Require Import strings.
From S2P Require Import Prelude Interval PlanIR PlanCommon PlanNodes ScanMap Joins Aggregates Validate ValidFacts Denote.
From S2P Require Import PlanSound Nullability Physical ExprTrans ScanMeta TransCommon TransAgg TransDistinct Translate TransFacts.
Open Scope nat_scope.

(** ** Computations that do not run out *)
Definition fuelled {A} (m : TransM A) : Prop := forall s, m s <> OutOfFuel.

Lemma fuelled_ret {A} (x : A) : fuelled (mret x).
Proof. done. Qed.
Lemma fuelled_from {A} (r : PlanResult A) : fuelled (from r).
Proof. intros s. by destruct r. Qed.
Lemma fuelled_expect {A} (o : option A) : fuelled (expect o).
Proof. intros s. by destruct o. Qed.
Lemma fuelled_refuse {A} e : fuelled (refuse (A:=A) e).
Proof. done. Qed.
Lemma fuelled_bind {A B} (m : TransM A) (k : A -> TransM B) :
  fuelled m -> (forall x, fuelled (k x)) -> fuelled (m ≫= k).
Proof.
  intros Hm Hk s. unfold mbind, TransM_bind. pose proof (Hm s). destruct (m s) as [[x s']|e| |] eqn:E; try done. apply Hk.
Qed.
Lemma fuelled_mapT {A B} (f : A -> TransM B) l : (forall x, x ∈ l -> fuelled (f x)) -> fuelled (mapT f l).
Proof.
  induction l as [|x l IH]; intros Hf; cbn [mapT]; [done|]. apply fuelled_bind; [apply Hf, list_elem_of_here|].
  intros y. apply fuelled_bind; [|done]. apply IH. intros z Hz. apply Hf. by apply list_elem_of_further.
Qed.
Lemma fuelled_batching t : fuelled (batching_for_source t).
Proof. done. Qed.

(** Follow a computation to its primitive steps, splitting every choice it makes. *)
Ltac fuelled_step :=
  match goal with
  | |- fuelled (mret _) => apply fuelled_ret
  | |- fuelled (from _) => apply fuelled_from
  | |- fuelled (expect _) => apply fuelled_expect
  | |- fuelled (refuse _) => apply fuelled_refuse
  | |- fuelled (batching_for_source _) => apply fuelled_batching
  | |- fuelled (_ ≫= _) => apply fuelled_bind; [|intros ?]
  | |- fuelled (mapT _ _) => apply fuelled_mapT; intros ? ?
  | |- fuelled (match ?x with _ => _ end) => destruct x eqn:?
  | |- fuelled (let _ := _ in _) => cbv zeta
  | |- fuelled ((fun _ => _) _) => cbv beta
  | H : _ |- fuelled _ => by apply H
  end.
Ltac fuelled := repeat fuelled_step.

(** ** The arms, over a translation that answers every smaller plan *)
Section Arms.
Context `{DataFusion} (t : Translator) (translated : ExecutionPlan -> TransM GpuNode) (bound : nat).
Context (Hrec : forall plan, plan_size plan < bound -> fuelled (translated plan)).

Lemma state_and_init_fuelled aggregate init_from rule input_schema :
  fuelled (state_and_init aggregate init_from rule input_schema).
Proof. unfold state_and_init, state_field, companion_column, own_values, state_type_of. fuelled. Qed.

Lemma decompose_fuelled aggregates input_schema n_keys : fuelled (decompose aggregates input_schema n_keys).
Proof.
  unfold decompose. generalize {| d_init := []; d_merge := []; d_state := []; d_finalize := []; d_annotations := [] |}.
  pose proof state_and_init_fuelled as Hs. induction aggregates as [|one aggregates IH]; intros d; cbn [decompose_from]; [done|].
  unfold decompose_one, finish_outer. fuelled.
Qed.

Lemma sequence_fuelled stage shuffle : fuelled (sequence stage shuffle).
Proof.
  pose proof decompose_fuelled as Hd. unfold sequence, finished_output, init_and_reland, relanded. fuelled.
Qed.

Lemma aggregate_sequence_fuelled partial finisher shuffle : plan_size (an_input partial) < bound ->
  fuelled (aggregate_sequence translated partial finisher shuffle).
Proof.
  intros Hp. pose proof sequence_fuelled as Hs.
  unfold aggregate_sequence, key_fields_of, lower, inner_stage, inner_sets, outer_aggregate, key_fields_of. fuelled.
Qed.

Lemma shuffle_from_size plan shuffle : plan_size (shuffle_from plan shuffle).1 <= plan_size plan.
Proof.
  revert shuffle. induction plan; intros shuffle; cbn [shuffle_from plan_size fst]; try lia.
  - destruct fetch; cbn [fst plan_size]; [lia|]. specialize (IHplan shuffle). lia.
  - destruct partitioning as [exprs n_|n_|n_]; [|pose proof (IHplan shuffle); lia..].
    destruct (hash_key_ordinals _ _) as [keys|]; [|cbn; lia]. pose proof (IHplan (ShuffleByHash keys n_)). lia.
  - pose proof (IHplan Collapse). lia.
Qed.

Lemma as_aggregate_size plan a : as_aggregate plan = Some a -> plan_size (an_input a) < plan_size plan.
Proof. destruct plan; try done. intros [= <-]. cbn. lia. Qed.

Lemma aggregate_fuelled exec : plan_size (an_input exec) < bound -> fuelled (aggregate translated exec).
Proof.
  intros Hp. pose proof aggregate_sequence_fuelled as Ha. unfold aggregate. destruct (an_mode exec); try by apply Ha.
  all: destruct (shuffle_below (an_input exec)) as [below_ shuffle] eqn:Hb;
    pose proof (shuffle_from_size (an_input exec) ShuffleNone) as Hsize; fold (shuffle_below (an_input exec)) in Hsize;
    rewrite Hb in Hsize; cbn [fst] in Hsize; destruct (as_aggregate below_) as [partial|] eqn:Hpa; [|done];
    apply as_aggregate_size in Hpa; destruct (is_partial partial); [|done]; apply Ha; lia.
Qed.

Lemma keyed_join_fuelled schema lhs rhs jt on : plan_size lhs + plan_size rhs < bound ->
  fuelled (keyed_join translated schema lhs rhs jt on).
Proof.
  intros Hp. assert (fuelled (translated lhs)) by (apply Hrec; lia). assert (fuelled (translated rhs)) by (apply Hrec; lia).
  unfold keyed_join, drop_null_keys_below_shuffle. fuelled.
Qed.

Lemma hash_join_fuelled schema jt on filter nulls projection lhs rhs : plan_size lhs + plan_size rhs < bound ->
  fuelled (hash_join translated schema jt on filter nulls projection lhs rhs).
Proof. intros Hp. pose proof keyed_join_fuelled as Hk. unfold hash_join, join_residual. fuelled. Qed.

Lemma split_all_fuelled filter conjuncts acc : fuelled (split_all filter conjuncts acc).
Proof.
  revert acc. induction conjuncts as [|c conjuncts IH]; intros acc; cbn [split_all]; [done|].
  apply fuelled_bind; [|done]. unfold split_keys, side_pair, side_of. fuelled.
Qed.

Lemma nested_loop_join_fuelled schema jt filter projection lhs rhs : plan_size lhs + plan_size rhs < bound ->
  fuelled (nested_loop_join translated schema jt filter projection lhs rhs).
Proof.
  intros Hp. assert (fuelled (translated lhs)) by (apply Hrec; lia). assert (fuelled (translated rhs)) by (apply Hrec; lia).
  pose proof keyed_join_fuelled as Hk. pose proof split_all_fuelled as Hs.
  unfold nested_loop_join, null_equal_keys, build_side. fuelled.
Qed.

Lemma source_fuelled parquet : fuelled (source t parquet).
Proof. unfold source, loader. fuelled. Qed.

Lemma sort_preserving_merge_fuelled ordering fetch input : plan_size input < bound ->
  fuelled (sort_preserving_merge translated ordering fetch input).
Proof.
  intros Hp. unfold sort_preserving_merge, per_batch_sort. apply fuelled_bind; [|intros []; done].
  destruct input; fuelled. apply Hrec. cbn in Hp. lia.
Qed.

Lemma limit_interval_size plan input iv : limit_interval plan = Some (input, iv) -> plan_size input < plan_size plan.
Proof. destruct plan; try done; [destruct fetch; [|done]|..]; intros [= <- _]; cbn; lia. Qed.

Lemma limit_arm_fuelled plan : plan_size plan = bound ->
  fuelled ('(input, interval) ← expect (limit_interval plan); mid_plan_limit translated input interval).
Proof.
  intros Hp s. destruct (limit_interval plan) as [[input iv]|] eqn:Hl; [|done].
  apply (fuelled_bind (translated input)); [|done]. apply Hrec. rewrite <- Hp. by eapply limit_interval_size.
Qed.

Lemma node_arm_fuelled plan : plan_size plan = bound -> fuelled (node_arm t translated plan).
Proof.
  intros Hp. assert (Hchild : forall c, c ∈ plan_children plan -> fuelled (translated c)).
  { intros c Hc. apply Hrec. rewrite <- Hp. by apply plan_size_child. }
  destruct plan; cbn [node_arm plan_children] in *;
    try (pose proof (Hchild _ (list_elem_of_here _ _)) as Hone).
  - apply source_fuelled.
  - fuelled.
  - fuelled.
  - unfold sort, per_batch_sort. fuelled.
  - destruct fetch; [unfold mid_plan_limit|]; fuelled.
  - by apply (limit_arm_fuelled (GlobalLimitExec schema skip fetch plan)).
  - by apply (limit_arm_fuelled (LocalLimitExec schema fetch plan)).
  - apply aggregate_fuelled. cbn in *. lia.
  - pose proof (Hchild _ (list_elem_of_further _ _ _ (list_elem_of_here _ _))) as Htwo. unfold build_side. fuelled.
  - apply nested_loop_join_fuelled. cbn in Hp. lia.
  - unfold repartition. fuelled.
  - fuelled.
  - apply sort_preserving_merge_fuelled. cbn in Hp. lia.
  - apply hash_join_fuelled. cbn in Hp. lia.
  - unfold branches. fuelled.
  - unfold branches, interleaved. fuelled.
  - fuelled.
  - fuelled.
  - fuelled.
  - fuelled.
Qed.
End Arms.

(** ** The knot *)
Section Root.
Context `{DataFusion} (t : Translator).

Lemma node_fuelled fuel plan : plan_size plan <= fuel -> fuelled (node t fuel plan).
Proof.
  revert plan. induction fuel as [|fuel IH]; intros plan Hp; [destruct plan; cbn in Hp; lia|].
  apply (node_arm_fuelled _ _ (plan_size plan)); [|done]. intros c Hc. apply IH. lia.
Qed.

Lemma unload_input_fuelled fuel plan : plan_size plan <= fuel -> fuelled (unload_input t fuel plan).
Proof.
  intros Hp. assert (Hn : fuelled (node t fuel plan)) by by apply node_fuelled.
  revert Hp Hn. induction plan; intros Hp Hn; cbn [unload_input]; try (by fuelled).
  - unfold loader. fuelled.
  - destruct fetch; [by fuelled|]. apply IHplan; [|apply node_fuelled]; cbn in Hp; lia.
  - destruct partitioning; [by fuelled| |by fuelled]. apply IHplan; [|apply node_fuelled]; cbn in Hp; lia.
  - apply fuelled_bind; [|intros []; done]. apply IHplan; [|apply node_fuelled]; cbn in Hp; lia.
Qed.

Lemma translate_fuelled root : fuelled (translate t root).
Proof.
  unfold translate. destruct (limit_interval root) as [[input iv]|] eqn:Hl.
  - apply fuelled_bind; [|intros []; done]. apply unload_input_fuelled.
    by apply Nat.lt_le_incl, (limit_interval_size root input iv).
  - apply fuelled_bind; [|intros []; done]. by apply unload_input_fuelled.
Qed.

(** C32: the translation of a plan always ends.  Whatever tree DataFusion hands over, the recursion
    over it answers within the size of that tree: a tree, a refusal, or a panic. *)
Theorem translation_terminates root s : translate t root s <> OutOfFuel.
Proof. apply translate_fuelled. Qed.
End Root.
