(* ===== verification/Rebatch.v ===== *)
(** * The tree's shape does not move between the planner's two passes

    [planner/pipeline.rs]: the second pass gives each source the batch size the estimator derived.
    Two translators that differ only in their [source_targets] take every step alike: the same
    refusals, the same sources counted, and trees that are one tree but for the mappings of their
    loads. *)
From stdpp Require Import strings.
From S2P Require Import Prelude Interval PlanIR PlanCommon PlanNodes ScanMap Joins Aggregates Validate ValidFacts Denote.
From S2P Require Import PlanSound Nullability Physical ExprTrans ScanMeta TransCommon TransAgg TransDistinct Translate TransFacts.
Open Scope nat_scope.

(** ** A tree without its mappings *)
Fixpoint without_mapping (node : GpuNode) : GpuNode :=
  match node with
  | GpuLoadParquet k table file projection _ survivors nulls => GpuLoadParquet k table file projection [] survivors nulls
  | GpuEmpty k => GpuEmpty k
  | GpuFilter k e p i => GpuFilter k e p (without_mapping i)
  | GpuProject k es i => GpuProject k es (without_mapping i)
  | GpuSort k ks f i => GpuSort k ks f (without_mapping i)
  | GpuCoalesceAllBatches k i => GpuCoalesceAllBatches k (without_mapping i)
  | GpuAccumulateBatchesAndSort k ks f i => GpuAccumulateBatchesAndSort k ks f (without_mapping i)
  | GpuLimit k iv i => GpuLimit k iv (without_mapping i)
  | GpuAggregate k b s i => GpuAggregate k b s (without_mapping i)
  | GpuAggregateBatches k b s i => GpuAggregateBatches k b s (without_mapping i)
  | GpuHashJoin k jt ks f c nn p l r => GpuHashJoin k jt ks f c nn p (without_mapping l) (without_mapping r)
  | GpuCrossJoin k p l r => GpuCrossJoin k p (without_mapping l) (without_mapping r)
  | GpuNestedLoopJoin k jt f c p l r => GpuNestedLoopJoin k jt f c p (without_mapping l) (without_mapping r)
  | GpuMergePartitions k i => GpuMergePartitions k (without_mapping i)
  | GpuEmitPartitions k ks i => GpuEmitPartitions k ks (without_mapping i)
  | GpuMergeSortedPartitions k ks f i => GpuMergeSortedPartitions k ks f (without_mapping i)
  | GpuUnion k bs => GpuUnion k (map without_mapping bs)
  | GpuInterleave k bs => GpuInterleave k (map without_mapping bs)
  | GpuUnload k iv i => GpuUnload k iv (without_mapping i)
  end.

(** One tree but for the mappings. *)
Definition alike (x y : GpuNode) : Prop := without_mapping x = without_mapping y.

#[export] Instance alike_equivalence : Equivalence alike.
Proof. unfold alike. split; congruence. Qed.

Lemma kind_without node : kind (without_mapping node) = kind node.
Proof. by destruct node. Qed.

Lemma children_without node : children (without_mapping node) = map without_mapping (children node).
Proof. by destruct node. Qed.

Lemma can_be_null_without node : can_be_null (without_mapping node) = can_be_null node.
Proof.
  induction node as [node IH] using node_ind_children. unfold can_be_null. rewrite !fold_node_eq. fold can_be_null.
  cbv beta. rewrite kind_without, children_without, map_map.
  rewrite (map_ext_in _ can_be_null) by (intros c Hc; apply IH; by apply list_elem_of_In). by destruct node.
Qed.

Lemma loads_without node : loads (without_mapping node) = map without_mapping (loads node).
Proof.
  induction node as [node IH] using node_ind_children. rewrite !loads_eq, children_without, map_map, map_app, concat_map, map_map.
  f_equal; [|by destruct node]. f_equal. apply map_ext_in. intros c Hc%list_elem_of_In. by apply IH.
Qed.

(** What a translation reads of a tree. *)
Lemma alike_kind x y : alike x y -> kind x = kind y.
Proof. intros Ha. by rewrite <- (kind_without x), <- (kind_without y), Ha. Qed.
Lemma alike_layout x y : alike x y -> input_layout x = input_layout y.
Proof. unfold input_layout. by intros ->%alike_kind. Qed.
Lemma alike_schema x y : alike x y -> input_schema x = input_schema y.
Proof. unfold input_schema. by intros ->%alike_kind. Qed.
Lemma alike_lanes x y : alike x y -> lanes x = lanes y.
Proof. unfold lanes. by intros ->%alike_layout. Qed.
Lemma alike_batches x y : alike x y -> batches x = batches y.
Proof. unfold batches. by intros ->%alike_layout. Qed.
Lemma alike_nulls x y : alike x y -> can_be_null x = can_be_null y.
Proof. intros Ha. by rewrite <- (can_be_null_without x), <- (can_be_null_without y), Ha. Qed.
Lemma alike_loads x y : alike x y -> Forall2 alike (loads x) (loads y).
Proof.
  intros Ha. assert (Hl : map without_mapping (loads x) = map without_mapping (loads y)) by by rewrite <- !loads_without, Ha.
  clear Ha. revert Hl. generalize (loads y). induction (loads x) as [|u us IH]; intros [|v vs]; try done.
  intros [= Hu Hus]. constructor; [done|by apply IH].
Qed.

(** ** The constructors *)
Ltac alike_new :=
  intros; unfold alike; cbn;
  repeat match goal with H : alike ?x ?y |- _ =>
    rewrite ?(alike_layout x y H), ?(alike_schema x y H), ?(alike_kind x y H), ?(alike_lanes x y H); unfold alike in H; rewrite H; clear H
  end; reflexivity.

Lemma alike_filter x y e p s : alike x y -> alike (new_filter x e p s) (new_filter y e p s).
Proof. unfold new_filter. alike_new. Qed.
Lemma alike_project x y es s : alike x y -> alike (new_project x es s) (new_project y es s).
Proof. unfold new_project. alike_new. Qed.
Lemma alike_sort x y ks f : alike x y -> alike (new_sort x ks f) (new_sort y ks f).
Proof. unfold new_sort. alike_new. Qed.
Lemma alike_coalesce x y : alike x y -> alike (new_coalesce_all_batches x) (new_coalesce_all_batches y).
Proof. unfold new_coalesce_all_batches. alike_new. Qed.
Lemma alike_accumulate x y ks f : alike x y ->
  alike (new_accumulate_batches_and_sort x ks f) (new_accumulate_batches_and_sort y ks f).
Proof. unfold new_accumulate_batches_and_sort. alike_new. Qed.
Lemma alike_limit x y iv : alike x y -> alike (new_limit x iv) (new_limit y iv).
Proof. unfold new_limit. alike_new. Qed.
Lemma alike_unload x y iv : alike x y -> alike (new_unload x iv) (new_unload y iv).
Proof. unfold new_unload. alike_new. Qed.
Lemma alike_merge x y : alike x y -> alike (new_merge_partitions x) (new_merge_partitions y).
Proof. unfold new_merge_partitions. alike_new. Qed.
Lemma alike_emit x y ks k : alike x y -> alike (new_emit_partitions x ks k) (new_emit_partitions y ks k).
Proof. unfold new_emit_partitions. alike_new. Qed.
Lemma alike_merge_sorted x y ks f : alike x y ->
  alike (new_merge_sorted_partitions x ks f) (new_merge_sorted_partitions y ks f).
Proof. unfold new_merge_sorted_partitions. alike_new. Qed.
Lemma alike_aggregate x y b i s : alike x y -> alike (new_aggregate x b i s) (new_aggregate y b i s).
Proof. unfold new_aggregate. alike_new. Qed.
Lemma alike_aggregate_batches x y b i s : alike x y ->
  alike (new_aggregate_batches x b i s) (new_aggregate_batches y b i s).
Proof. unfold new_aggregate_batches. alike_new. Qed.
Lemma alike_hash_join x y x' y' jt ks f c nn p s : alike x y -> alike x' y' ->
  alike (new_hash_join x x' jt ks f c nn p s) (new_hash_join y y' jt ks f c nn p s).
Proof. unfold new_hash_join. alike_new. Qed.
Lemma alike_cross_join x y x' y' p s : alike x y -> alike x' y' ->
  alike (new_cross_join x x' p s) (new_cross_join y y' p s).
Proof. unfold new_cross_join. alike_new. Qed.
Lemma alike_nested_loop_join x y x' y' jt f c p s : alike x y -> alike x' y' ->
  alike (new_nested_loop_join x x' jt f c p s) (new_nested_loop_join y y' jt f c p s).
Proof. unfold new_nested_loop_join. alike_new. Qed.

#[export] Hint Resolve alike_filter alike_project alike_sort alike_coalesce alike_accumulate alike_limit alike_unload
  alike_merge alike_emit alike_merge_sorted alike_aggregate alike_aggregate_batches alike_hash_join alike_cross_join
  alike_nested_loop_join : peacock.

Lemma alike_branches {A} (f : PartitionLayout -> A) xs ys : Forall2 alike xs ys ->
  map (fun b => f (input_layout b)) xs = map (fun b => f (input_layout b)) ys.
Proof. induction 1 as [|x y xs ys Hxy _ IH]; [done|]. cbn. by rewrite (alike_layout x y Hxy), IH. Qed.

Lemma without_branches xs ys : Forall2 alike xs ys -> map without_mapping xs = map without_mapping ys.
Proof. induction 1 as [|x y xs ys Hxy _ IH]; [done|]. cbn. by rewrite Hxy, IH. Qed.

Lemma alike_agreed (test : PartitionLayout -> bool) xs ys : Forall2 alike xs ys ->
  forallb (fun b => test (input_layout b)) xs = forallb (fun b => test (input_layout b)) ys.
Proof. induction 1 as [|x y xs ys Hxy _ IH]; [done|]. cbn. by rewrite (alike_layout x y Hxy), IH. Qed.

Lemma alike_sort_order xs ys : Forall2 alike xs ys -> agreed_sort_order xs = agreed_sort_order ys.
Proof.
  intros Ha. destruct Ha as [|x y xs ys Hxy Ha]; [done|]. unfold agreed_sort_order.
  pose proof (alike_agreed (fun l => bool_decide (sort_order l = sort_order (input_layout y))) (x :: xs) (y :: ys)) as Hall.
  cbv beta zeta in Hall |- *. by rewrite (alike_layout x y Hxy), Hall by by constructor.
Qed.

Lemma alike_batch_layout xs ys : Forall2 alike xs ys -> agreed_batch_layout xs = agreed_batch_layout ys.
Proof.
  intros Ha. unfold agreed_batch_layout.
  pose proof (alike_agreed (fun l => bool_decide (batch_layout l = SingleBatch)) xs ys Ha) as Hall.
  cbv beta in Hall. by rewrite Hall.
Qed.

Lemma alike_union xs ys s : Forall2 alike xs ys -> alike (new_union xs s) (new_union ys s).
Proof.
  intros Ha. unfold alike, new_union. cbn.
  by rewrite (alike_branches n xs ys), (alike_sort_order xs ys), (alike_batch_layout xs ys), (without_branches xs ys).
Qed.

Lemma alike_interleave xs ys s : Forall2 alike xs ys -> alike (new_interleave xs s) (new_interleave ys s).
Proof.
  intros Ha. unfold alike, new_interleave.
  assert (Hfirst : input_layout (xs !!! 0) = input_layout (ys !!! 0)).
  { destruct Ha as [|x y xs ys Hxy _]; [done|]. by apply alike_layout. }
  rewrite Hfirst, (Forall2_length _ _ _ Ha), (alike_sort_order xs ys), (alike_batch_layout xs ys) by done.
  cbn. by rewrite (without_branches xs ys).
Qed.

(** ** The helpers that read a layout *)
Lemma alike_merged x y : alike x y -> alike (merged x) (merged y).
Proof. intros Ha. unfold merged. rewrite (alike_lanes x y Ha). destruct (1 <? lanes y); eauto with peacock. Qed.

Lemma alike_one_batch x y : alike x y -> alike (one_batch_per_lane x) (one_batch_per_lane y).
Proof. intros Ha. unfold one_batch_per_lane. rewrite (alike_batches x y Ha). case_bool_decide; eauto with peacock. Qed.

#[export] Hint Resolve alike_merged alike_one_batch alike_union alike_interleave : peacock.

Lemma alike_shuffled x y ks k : alike x y -> alike (shuffled x ks k) (shuffled y ks k).
Proof.
  intros Ha. unfold shuffled. rewrite (alike_batches x y Ha), (alike_batches _ _ (alike_merged x y Ha)).
  destruct (_ && _); eauto with peacock.
Qed.

Lemma alike_co_partitioned x y x' y' ks : alike x y -> alike x' y' -> co_partitioned x x' ks = co_partitioned y y' ks.
Proof.
  intros Ha Ha'. unfold co_partitioned.
  by rewrite (alike_lanes x y Ha), (alike_lanes x' y' Ha'), (alike_layout x y Ha), (alike_layout x' y' Ha').
Qed.

Lemma alike_cast x y s d : alike x y -> alike (cast_branch x s d) (cast_branch y s d).
Proof. intros Ha. unfold cast_branch. destruct (negb _); eauto with peacock. Qed.

Lemma alike_narrowed x y s i : alike x y -> alike (narrowed_id x s i) (narrowed_id y s i).
Proof. intros Ha. unfold narrowed_id. eauto with peacock. Qed.

#[export] Hint Resolve alike_shuffled alike_cast alike_narrowed : peacock.

(** ** Two computations that take the same steps *)
Definition same {A} (R : A -> A -> Prop) (m m' : TransM A) : Prop := forall s,
  match m s, m' s with
  | Good (x, c), Good (x', c') => R x x' /\ c = c'
  | Refused e, Refused e' => e = e'
  | Panicked, Panicked | OutOfFuel, OutOfFuel => True
  | _, _ => False
  end.

Lemma same_ret {A} (R : A -> A -> Prop) x x' : R x x' -> same R (mret x) (mret x').
Proof. by intros ? s. Qed.

Lemma same_refl {A} (R : A -> A -> Prop) (m : TransM A) : (forall x, R x x) -> same R m m.
Proof. intros HR s. by destruct (m s) as [[]| | |]. Qed.

Lemma same_eq {A} (m : TransM A) : same eq m m.
Proof. by apply same_refl. Qed.

Lemma same_bind {A B} (RA : A -> A -> Prop) (RB : B -> B -> Prop) (m m' : TransM A) (k k' : A -> TransM B) :
  same RA m m' -> (forall x x', RA x x' -> same RB (k x) (k' x')) -> same RB (m ≫= k) (m' ≫= k').
Proof.
  intros Hm Hk s. unfold mbind, TransM_bind. specialize (Hm s).
  destruct (m s) as [[x c]| | |], (m' s) as [[x' c']| | |]; try done. destruct Hm as [Hx ->]. by apply Hk.
Qed.

(** The same first step. *)
Lemma same_then {A B} (RB : B -> B -> Prop) (m : TransM A) (k k' : A -> TransM B) :
  (forall x, same RB (k x) (k' x)) -> same RB (m ≫= k) (m ≫= k').
Proof. intros Hk. apply (same_bind eq); [apply same_eq|]. by intros x ? <-. Qed.

(** A tree first, then whatever reads it. *)
Lemma same_tree {B} (RB : B -> B -> Prop) (m m' : TransM GpuNode) (k k' : GpuNode -> TransM B) :
  same alike m m' -> (forall x y, alike x y -> same RB (k x) (k' y)) -> same RB (m ≫= k) (m' ≫= k').
Proof. apply same_bind. Qed.

Lemma same_mapT {A B} (R : B -> B -> Prop) (f f' : A -> TransM B) l :
  (forall x, x ∈ l -> same R (f x) (f' x)) -> same (Forall2 R) (mapT f l) (mapT f' l).
Proof.
  induction l as [|x l IH]; intros Hf; cbn [mapT]; [by apply same_ret|].
  apply (same_bind R); [apply Hf, list_elem_of_here|]. intros y y' Hy.
  apply (same_bind (Forall2 R)); [apply IH; intros z Hz; apply Hf; by apply list_elem_of_further|].
  intros ys ys' Hys. apply same_ret. by constructor.
Qed.

(** Follow two computations of one shape; what is left are the steps that read a tree. *)
Ltac same_step :=
  match goal with
  | |- same alike (mret _) (mret _) => apply same_ret; eauto with peacock
  | |- same _ (refuse ?e) (refuse ?e) => by intros ?
  | |- same alike (?m ≫= _) (?m ≫= _) => apply same_then; intros ?
  | |- same alike (match ?x with _ => _ end) (match ?x with _ => _ end) => destruct x eqn:?
  | |- same alike (_ ≫= _) (_ ≫= _) => eapply same_tree; [by eauto with peacock|intros ? ? ?]
  | H : _ |- same _ _ _ => by apply H
  end.
Ltac same := repeat same_step.

(** ** The arms, over two translations that answer alike *)
Section Arms.
Context `{DataFusion} (t t' : Translator).
Context (Hlanes : target_partitions t = target_partitions t') (Hbatching : batching t = batching t')
  (Hsmall : small_table_bytes t = small_table_bytes t').

Lemma partition_alike survivors n_ b b' : same (fun g g' => length g = length g')
  (from (partition survivors n_ b)) (from (partition survivors n_ b')).
Proof.
  intros s. unfold partition, from, PlanResult. unfold ensure.
  destruct (negb (bool_decide _)); [|exact eq_refl]. destruct (negb _); [|exact eq_refl].
  hnf. by rewrite !length_map.
Qed.

Lemma lanes_for_alike groups limit : lanes_for t groups limit = lanes_for t' groups limit.
Proof. unfold lanes_for. by rewrite Hlanes, Hbatching, Hsmall. Qed.

Lemma load_alike table projection g g' scan schema : length g = length g' ->
  alike (new_load_parquet table projection g scan schema) (new_load_parquet table projection g' scan schema).
Proof. intros Hl. unfold alike, new_load_parquet. cbn. by rewrite Hl. Qed.

Lemma loader_alike parquet : same alike (loader t parquet) (loader t' parquet).
Proof.
  unfold loader. apply same_then. intros scan.
  set (groups := match scan_limit parquet with Some _ => _ | None => _ end).
  apply (same_bind (fun _ _ => True)); [by intros s|]. intros b b' _.
  apply (same_bind (fun g g' => length g = length g')).
  - destruct groups as [|g gs]; [by apply same_ret|]. rewrite <- lanes_for_alike. apply partition_alike.
  - intros g g' Hl. apply same_ret. by apply load_alike.
Qed.

Lemma source_alike parquet : same alike (source t parquet) (source t' parquet).
Proof.
  unfold source. eapply same_tree; [apply loader_alike|]. intros x y Ha. apply same_ret.
  destruct (pushed_limit parquet); eauto with peacock.
Qed.

Context (tr tr' : ExecutionPlan -> TransM GpuNode) (Hrec : forall plan, same alike (tr plan) (tr' plan)).

Lemma drop_null_keys_alike x y keys : alike x y ->
  same alike (drop_null_keys_below_shuffle x keys) (drop_null_keys_below_shuffle y keys).
Proof.
  intros Ha. pose proof (alike_lanes x y Ha) as Hl. unfold drop_null_keys_below_shuffle.
  destruct x; destruct y; try (by apply same_ret); try (unfold alike in Ha; discriminate Ha).
  unfold alike in Ha. cbn in Ha. injection Ha as Hk Hks Hi. rewrite Hl. subst.
  change (alike x y) in Hi. rewrite (alike_kind x y Hi), (alike_nulls x y Hi).
  repeat (apply same_then; intros ?). apply same_ret.
  destruct (reduce_and _); [apply alike_emit, alike_filter|apply alike_emit]; exact Hi.
Qed.

Lemma keyed_join_alike schema lhs rhs jt on : same alike (keyed_join tr schema lhs rhs jt on) (keyed_join tr' schema lhs rhs jt on).
Proof.
  unfold keyed_join. eapply same_tree; [apply Hrec|]. intros b b' Hb. eapply same_tree; [apply Hrec|]. intros p p' Hp.
  rewrite (alike_co_partitioned b b' p p' _ Hb Hp). cbv zeta.
  eapply same_tree.
  { destruct (if on_null_equals_null on then _ else _).1;
      [apply drop_null_keys_alike|apply same_ret]; destruct (co_partitioned _ _ _); eauto with peacock. }
  intros b1 b1' Hb1. eapply same_tree.
  { destruct (if on_null_equals_null on then _ else _).2;
      [apply drop_null_keys_alike|apply same_ret]; destruct (co_partitioned _ _ _); eauto with peacock. }
  intros p1 p1' Hp1. apply same_ret. eauto with peacock.
Qed.

Lemma hash_join_alike schema jt on filter nulls projection lhs rhs :
  same alike (hash_join tr schema jt on filter nulls projection lhs rhs) (hash_join tr' schema jt on filter nulls projection lhs rhs).
Proof. unfold hash_join. same. apply keyed_join_alike. Qed.

Lemma build_side_alike plan : same alike (build_side tr plan) (build_side tr' plan).
Proof. unfold build_side. eapply same_tree; [apply Hrec|]. intros x y Ha. apply same_ret. eauto with peacock. Qed.

Lemma nested_loop_join_alike schema jt filter projection lhs rhs :
  same alike (nested_loop_join tr schema jt filter projection lhs rhs) (nested_loop_join tr' schema jt filter projection lhs rhs).
Proof.
  pose proof build_side_alike as Hb. pose proof keyed_join_alike as Hk. unfold nested_loop_join. same.
Qed.

Lemma relanded_alike x y id shuffle : alike x y -> same alike (relanded x id shuffle) (relanded y id shuffle).
Proof. intros Ha. unfold relanded. rewrite (alike_lanes x y Ha). same. Qed.

Section Stages.
Context (x y : GpuNode) (Hxy : alike x y).
Context (schema : ArrowSchema) (group : list Expr) (keys : list Field) (sets : list (list bool)) (nulls : list Expr)
  (aggregates : list (AggregateFunctionExpr * InitFrom)) (finished : option ArrowSchema).

Definition stage_over (input : GpuNode) : Stage :=
  {| stage_input := input; stage_schema := schema; stage_group_by := group; stage_keys := keys; stage_sets := sets;
     stage_nulls := nulls; stage_aggregates := aggregates; stage_finished := finished |}.

Lemma init_and_reland_alike decomposed intermediate id shuffle :
  same alike (init_and_reland (stage_over x) decomposed intermediate id shuffle)
             (init_and_reland (stage_over y) decomposed intermediate id shuffle).
Proof.
  unfold init_and_reland. cbn [stage_input stage_keys stage_over].
  change (init_body (stage_over y)) with (init_body (stage_over x)).
  pose proof (alike_aggregate x y (init_body (stage_over x) (d_init decomposed) None) intermediate intermediate Hxy) as Ht.
  cbv zeta. rewrite (alike_lanes _ _ Ht), (alike_batches _ _ Ht). apply relanded_alike.
  destruct (_ && _); [by apply alike_aggregate_batches|done].
Qed.

Lemma sequence_alike shuffle : same alike (sequence (stage_over x) shuffle) (sequence (stage_over y) shuffle).
Proof.
  pose proof init_and_reland_alike as Hi. unfold sequence.
  cbn [stage_input stage_schema stage_keys stage_sets stage_aggregates stage_finished stage_over].
  rewrite (alike_batches _ _ Hxy), (alike_lanes _ _ Hxy).
  do 3 (apply same_then; intros ?). cbv zeta. destruct x2 as [[finalize output]|].
  - destruct (_ && _); [apply same_ret; by apply alike_aggregate|].
    eapply same_tree; [apply Hi|]. intros u v Huv. apply same_ret. by apply alike_aggregate_batches.
  - eapply same_tree; [apply Hi|]. intros u v Huv. apply same_ret. by apply alike_aggregate_batches.
Qed.
End Stages.

Lemma inner_stage_alike partial shuffle base base_type id_type :
  same alike (inner_stage tr partial shuffle base base_type id_type) (inner_stage tr' partial shuffle base base_type id_type).
Proof.
  unfold inner_stage. do 4 (apply same_then; intros ?). destruct x2 as [key_fields [sets nulls]].
  eapply same_tree; [apply Hrec|]. intros u v Huv. by apply sequence_alike.
Qed.

Lemma lower_alike partial finisher shuffle base :
  same alike (lower tr partial finisher shuffle base) (lower tr' partial finisher shuffle base).
Proof.
  unfold lower. apply same_then. intros base_type. eapply same_tree; [apply inner_stage_alike|]. intros u v Huv.
  rewrite (alike_kind u v Huv). do 4 (apply same_then; intros ?). eapply same_tree; [by apply sequence_alike|].
  intros a b Hab. destruct (negb _); [|by apply same_ret]. apply same_then. intros id. apply same_ret.
  case_bool_decide; eauto with peacock.
Qed.

Lemma aggregate_sequence_alike partial finisher shuffle :
  same alike (aggregate_sequence tr partial finisher shuffle) (aggregate_sequence tr' partial finisher shuffle).
Proof.
  unfold aggregate_sequence. cbv zeta. destruct (existsb _ (an_filters partial)); [by intros ?|].
  destruct (existsb is_distinct _); [destruct (classify _ _ _) as [base|e|]|].
  - apply same_then. intros f. apply lower_alike.
  - by intros ?.
  - eapply same_tree; [apply Hrec|]. intros u v Huv. do 3 (apply same_then; intros ?). by apply sequence_alike.
  - eapply same_tree; [apply Hrec|]. intros u v Huv. do 3 (apply same_then; intros ?). by apply sequence_alike.
Qed.

Lemma aggregate_alike exec : same alike (aggregate tr exec) (aggregate tr' exec).
Proof. pose proof aggregate_sequence_alike as Ha. unfold aggregate. same. Qed.

Lemma per_batch_sort_alike ordering fetch input :
  same (fun a b => alike a.1 b.1 /\ a.2 = b.2) (per_batch_sort tr ordering fetch input) (per_batch_sort tr' ordering fetch input).
Proof.
  unfold per_batch_sort. eapply same_tree; [apply Hrec|]. intros u v Huv. apply same_then. intros keys. apply same_ret.
  cbn. eauto with peacock.
Qed.

Lemma sort_alike ordering fetch input : same alike (sort tr ordering fetch input) (sort tr' ordering fetch input).
Proof.
  unfold sort. eapply same_bind; [apply per_batch_sort_alike|]. intros [u ku] [v kv] [Huv Hk]. cbn in Huv, Hk. subst.
  apply same_ret. eauto with peacock.
Qed.

Lemma sort_preserving_merge_alike ordering fetch input :
  same alike (sort_preserving_merge tr ordering fetch input) (sort_preserving_merge tr' ordering fetch input).
Proof.
  unfold sort_preserving_merge. apply (same_bind (fun a b => alike a.1 b.1 /\ a.2 = b.2)).
  - assert (Hplain : same (fun a b => alike a.1 b.1 /\ a.2 = b.2)
      (node_ ← tr input; keys ← from (sort_key_ordinals ordering (plan_schema input)); mret (node_, keys))
      (node_ ← tr' input; keys ← from (sort_key_ordinals ordering (plan_schema input)); mret (node_, keys))).
    { eapply same_tree; [apply Hrec|]. intros u v Huv. apply same_then. intros keys. by apply same_ret. }
    destruct input; try exact Hplain. apply per_batch_sort_alike.
  - intros [u ku] [v kv] [Huv Hk]. cbn in Huv, Hk. subst. apply same_ret. eauto with peacock.
Qed.

Lemma branches_alike inputs declared : same (Forall2 alike) (branches tr inputs declared) (branches tr' inputs declared).
Proof.
  unfold branches. apply same_mapT. intros input _. eapply same_tree; [apply Hrec|]. intros u v Huv. apply same_ret.
  eauto with peacock.
Qed.

Lemma interleaved_alike xs ys schema : Forall2 alike xs ys -> same alike (interleaved xs schema) (interleaved ys schema).
Proof.
  intros Ha. unfold interleaved.
  assert (Hagree : forall u v, alike u v ->
    forallb (fun b => (lanes b =? lanes u) && bool_decide (key_distribution (input_layout b) = key_distribution (input_layout u))) xs
    = forallb (fun b => (lanes b =? lanes v) && bool_decide (key_distribution (input_layout b) = key_distribution (input_layout v))) ys).
  { intros u v Huv. rewrite (alike_lanes u v Huv), (alike_layout u v Huv). unfold lanes.
    pose proof (alike_agreed (fun l => (n l =? n (input_layout v))
      && bool_decide (key_distribution l = key_distribution (input_layout v))) xs ys Ha) as Hall. exact Hall. }
  destruct Ha as [|u v us vs Huv Ha]; [by intros ?|]. cbn [head]. intros s.
  unfold expect, mbind, TransM_bind, mret, TransM_ret. cbv zeta. rewrite (Hagree u v Huv). split; [|done].
  destruct (forallb _ _); [apply alike_interleave|apply alike_union]; by constructor.
Qed.

Lemma node_arm_alike plan : same alike (node_arm t tr plan) (node_arm t' tr' plan).
Proof.
  destruct plan; cbn [node_arm].
  - apply source_alike.
  - eapply same_tree; [apply Hrec|]. intros u v Huv. same.
  - eapply same_tree; [apply Hrec|]. intros u v Huv. same.
  - apply sort_alike.
  - unfold mid_plan_limit. same.
  - unfold mid_plan_limit. same.
  - unfold mid_plan_limit. same.
  - apply aggregate_alike.
  - pose proof build_side_alike as Hb. same.
  - apply nested_loop_join_alike.
  - unfold repartition. eapply same_tree; [apply Hrec|]. intros u v Huv. same.
  - same.
  - apply sort_preserving_merge_alike.
  - apply hash_join_alike.
  - eapply same_bind; [apply branches_alike|]. intros us vs Huv. apply same_ret. by apply alike_union.
  - eapply same_bind; [apply branches_alike|]. intros us vs Huv. by apply interleaved_alike.
  - by intros s.
  - by apply same_ret.
  - by intros s.
  - by intros s.
Qed.
End Arms.

(** ** The whole translation *)
Section Root.
Context `{DataFusion} (t t' : Translator).
Context (Hlanes : target_partitions t = target_partitions t') (Hbatching : batching t = batching t')
  (Hsmall : small_table_bytes t = small_table_bytes t').

Lemma node_alike fuel plan : same alike (node t fuel plan) (node t' fuel plan).
Proof.
  revert plan. induction fuel as [|fuel IH]; intros plan; [by intros s|]. by apply node_arm_alike.
Qed.

Lemma unload_input_alike fuel plan :
  same (fun a b => alike a.1 b.1 /\ a.2 = b.2) (unload_input t fuel plan) (unload_input t' fuel plan).
Proof.
  assert (Hnode : forall plan, same (fun a b => alike a.1 b.1 /\ a.2 = b.2)
    (node_ ← node t fuel plan; mret (node_, None : option RowInterval))
    (node_ ← node t' fuel plan; mret (node_, None : option RowInterval))).
  { intros p. eapply same_tree; [apply node_alike|]. intros u v Huv. by apply same_ret. }
  induction plan; cbn [unload_input]; try apply Hnode.
  - eapply same_tree; [by apply loader_alike|]. intros u v Huv. by apply same_ret.
  - destruct fetch; [apply Hnode|exact IHplan].
  - destruct partitioning; [apply Hnode|exact IHplan|apply Hnode].
  - eapply same_bind; [exact IHplan|]. intros [u p] [v q] [Huv Hpq]. cbn in Huv, Hpq. subst. apply same_ret. cbn.
    eauto with peacock.
Qed.

Lemma translate_alike root : same alike (translate t root) (translate t' root).
Proof.
  unfold translate. destruct (match limit_interval root with Some _ => _ | None => _ end) as [input interval].
  eapply same_bind; [apply unload_input_alike|]. intros [u p] [v q] [Huv Hpq]. cbn in Huv, Hpq. subst. apply same_ret.
  eauto with peacock.
Qed.
End Root.
