(* ===== verification/Memory.v ===== *)
(** * The plan-time memory model

    [planner/memory_estimation.rs] over the widths of [common.rs]: what each node holds, and how
    large each source's batches may be for the plan to fit its budget.  [u64] sums and products wrap
    as a release build's do, [f64] is IEEE binary64 rounding to nearest even, and [None] is a panic:
    a column type no width is known for, or a mapping that addresses no survivor. *)
From stdpp Require Import strings.
From Stdlib Require Import SpecFloat.
From S2P Require Import Prelude Interval PlanIR PlanCommon PlanNodes Joins Aggregates.
Open Scope N_scope.
Open Scope rust_scope.

Definition max_or_zero (l : list N) : N := foldr N.max 0 l.

(** ** [f64] *)
Definition f64 := spec_float.
Definition f64_of (n : N) : f64 := binary_normalize 53 1024 (Z.of_N n) 0 false.
Definition f64_mul : f64 -> f64 -> f64 := SFmul 53 1024.
Definition f64_div : f64 -> f64 -> f64 := SFdiv 53 1024.

(** [f64::max]: the other operand where one is not a number. *)
Definition f64_max (a b : f64) : f64 :=
  match a, b with
  | S754_nan, b => b
  | a, S754_nan => a
  | a, b => if SFltb a b then b else a
  end.

Definition whole_part (s : bool) (m : positive) (e : Z) : Z :=
  let v := if s then (- Z.pos m)%Z else Z.pos m in Z.shiftl v e.

Definition f64_floor (x : f64) : f64 :=
  match x with
  | S754_finite s m e => if (0 <=? e)%Z then x else binary_normalize 53 1024 (whole_part s m e) 0 s
  | x => x
  end.

(** [x as u64]: toward zero, saturating, and 0 for what is not a number. *)
Definition u64_of (x : f64) : N :=
  match x with
  | S754_finite false m e => N.min (Z.to_N (whole_part false m e)) u64_max
  | S754_infinity false => u64_max
  | _ => 0
  end.

(** ** Widths *)
Definition declared_precisions (schema : list Field) : list Z :=
  map (fun field => match data_type field with Decimal128 precision _ => Z.of_nat precision | _ => 0%Z end) schema.

(** [None] is the panic on a type it has no arm for. *)
Definition type_structural_size (t : DataType) (rows : N) : option N :=
  let bitmap_bytes := (rows ⊞ 7) / 8 in
  data_bytes ←
    match t with
    | Boolean => Some ((rows ⊞ 7) / 8)
    | Int8 | UInt8 => Some rows
    | Int16 | UInt16 => Some (wrapping_mul rows 2)
    | Int32 | UInt32 | Float32 | Date32 => Some (wrapping_mul rows 4)
    | Int64 | UInt64 | Float64 | Date64 | Timestamp _ _ => Some (wrapping_mul rows 8)
    | Utf8 | Binary => Some (wrapping_mul (rows ⊞ 1) 4)
    | LargeUtf8 | LargeBinary => Some (wrapping_mul (rows ⊞ 1) 8)
    | Decimal128 _ _ => Some (wrapping_mul rows 16)
    | Decimal256 _ _ => Some (wrapping_mul rows 32)
    | FixedSizeBinary n_ => Some (wrapping_mul rows (N.of_nat n_))
    | Dictionary keys _ => Some (wrapping_mul rows (default 4 (primitive_width keys)))
    | _ => None
    end;
  Some (bitmap_bytes ⊞ data_bytes).

Definition logical_size_from_schema (schema : list Field) (rows varlen_content_bytes : N) : option N :=
  sizes ← mapM (fun f => type_structural_size (data_type f) rows) schema;
  Some (sum64 sizes ⊞ varlen_content_bytes).

(** ** A node's figures.  The source asks them of a node's sequence number; each reads the node at it
    and the figures of its children. *)
Definition load_rows (survivors : list RowGroupMeta) : N := sum64 (map rg_rows survivors).
Definition load_bytes (survivors : list RowGroupMeta) : N := sum64 (map rg_bytes survivors).

Definition rows_are_certain : GpuNode -> bool :=
  fold_node (fun node kids =>
    let guessed := match node with
                   | GpuFilter _ _ _ _ | GpuAggregate _ _ _ _ | GpuAggregateBatches _ _ _ _
                   | GpuHashJoin _ _ _ _ _ _ _ _ _ | GpuCrossJoin _ _ _ _ | GpuNestedLoopJoin _ _ _ _ _ _ _ => true
                   | _ => false
                   end in
    negb guessed && forallb id kids).

Definition source_bytes (node : GpuNode) : N :=
  match node with
  | GpuLoadParquet _ _ _ _ _ survivors _ => N.max (load_bytes survivors) 1
  | _ => u64_max
  end.

Definition est_lanes (node : GpuNode) : N :=
  match kind_layout (kind node) with Some layout => N.of_nat (n layout) | None => 1 end.

Definition est_width : GpuNode -> option N :=
  fold_node (fun node kids =>
    w ← match kind_schema (kind node) with
        | Some schema => logical_size_from_schema (fields schema) 1 0
        | None => match kids with kid :: _ => kid | [] => Some 1 end
        end;
    Some (N.max w 1)).

Definition est_rows : GpuNode -> N :=
  fold_node (fun node kids =>
    match node with
    | GpuLoadParquet _ _ _ _ _ survivors _ => load_rows survivors
    | GpuLimit _ interval _ =>
        let input := default 0 (head kids) in
        match fetch interval with
        | Some fetch => N.min input (skip interval ⊞ fetch)
        | None => input ∸ skip interval
        end
    | GpuUnion _ _ | GpuInterleave _ _ => sum64 kids
    | GpuHashJoin _ _ _ _ _ _ _ _ _ | GpuCrossJoin _ _ _ _ | GpuNestedLoopJoin _ _ _ _ _ _ _ => max_or_zero kids
    | _ => default 0 (head kids)
    end).

Definition est_bytes (node : GpuNode) : option N := wrapping_mul (est_rows node) <$> est_width node.

(** What a node holds whatever the batch size; [Some None] where that scales with the batch. *)
Definition held_by_accumulator (node : GpuNode) : option (option N) :=
  match node with
  | GpuCoalesceAllBatches _ input | GpuMergeSortedPartitions _ _ _ input => Some <$> est_bytes input
  | GpuAccumulateBatchesAndSort _ _ fetch input =>
      let rows := match fetch with
                  | Some fetch => N.min (est_rows input) (wrapping_mul fetch (est_lanes input))
                  | None => est_rows input
                  end in
      Some <$> (wrapping_mul rows <$> est_width node)
  | GpuAggregateBatches _ _ _ input => Some <$> (wrapping_mul (est_rows input) <$> est_width node)
  | GpuHashJoin _ jt keys filter columns _ _ build probe =>
      held ← est_bytes build;
      key_width ← distinct_key_width jt keys filter columns build probe;
      Some (Some (held ⊞ session_bytes jt true key_width (est_rows build)))
  | GpuNestedLoopJoin _ jt _ _ _ build _ =>
      held ← est_bytes build; Some (Some (held ⊞ session_bytes jt false 0 (est_rows build)))
  | GpuCrossJoin _ _ build _ => Some <$> est_bytes build
  | _ => Some None
  end.

(** ** The tree, numbered in post-order *)
Record Tree := { tree_nodes : list GpuNode; tree_children : list (list nat); tree_parent : list (option nat) }.

Definition push_node (node : GpuNode) (children : list nat) (tree : Tree) : nat * Tree :=
  (length (tree_nodes tree),
   {| tree_nodes := tree_nodes tree ++ [node]; tree_children := tree_children tree ++ [children];
      tree_parent := tree_parent tree ++ [None] |}).

Fixpoint visit_children (kids : list (Tree -> nat * Tree)) (tree : Tree) : list nat * Tree :=
  match kids with
  | [] => ([], tree)
  | kid :: kids => let '(seq, tree) := kid tree in let '(seqs, tree) := visit_children kids tree in (seq :: seqs, tree)
  end.

Definition visit : GpuNode -> Tree -> nat * Tree :=
  fold_node (fun node kids tree => let '(children, tree) := visit_children kids tree in push_node node children tree).

(** Each child's parent, in ascending order of the parent. *)
Definition parents_of (children : list (list nat)) (parent : list (option nat)) : list (option nat) :=
  foldl (fun parent '(seq, kids) => foldl (fun parent child => <[child := Some seq]> parent) parent kids)
    parent (imap pair children).

Definition tree_of (root : GpuNode) : Tree :=
  let tree := (visit root {| tree_nodes := []; tree_children := []; tree_parent := [] |}).2 in
  {| tree_nodes := tree_nodes tree; tree_children := tree_children tree;
     tree_parent := parents_of (tree_children tree) (tree_parent tree) |}.

Definition is_scan (node : GpuNode) : bool :=
  match node with GpuLoadParquet _ _ _ _ _ _ _ => true | _ => false end.

Definition scan_seqs (tree : Tree) : list nat :=
  map fst (List.filter (fun '(_, node) => is_scan node) (imap pair (tree_nodes tree))).

(** ** Amplification *)
Definition factor (rows width : N) (parent : GpuNode) : option f64 :=
  parent_width ← est_width parent;
  Some (f64_mul (f64_mul (f64_div (f64_of (est_rows parent)) (f64_of rows)) (f64_div (f64_of parent_width) (f64_of width)))
          (f64_of (est_lanes parent))).

(** The walk up to the nearest accumulator; a parent's number is above its child's, so the tree's size
    is fuel enough. *)
Fixpoint amplify (tree : Tree) (rows width : N) (fuel : nat) (seq : nat) (amplification : f64) : option f64 :=
  match fuel with
  | O => Some amplification
  | S fuel =>
      match mjoin (tree_parent tree !! seq) with
      | None => Some amplification
      | Some up =>
          parent ← tree_nodes tree !! up;
          held ← held_by_accumulator parent;
          match held with
          | Some _ => Some amplification
          | None => f ← factor rows width parent; amplify tree rows width fuel up (f64_max amplification f)
          end
      end
  end.

Definition amplification (tree : Tree) (source : nat) : option f64 :=
  node ← tree_nodes tree !! source;
  width ← est_width node;
  a ← amplify tree (N.max (est_rows node) 1) width (length (tree_nodes tree)) source (f64_of (est_lanes node));
  Some (f64_max a (f64_of 1)).

(** ** Batches in flight *)
Definition scaled (batch : list N) (tree : Tree) (bytes : N) (child : nat) : option N :=
  node ← tree_nodes tree !! child;
  child_bytes ← est_bytes node;
  in_flight ← batch !! child;
  Some (u64_of (f64_div (f64_mul (f64_of in_flight) (f64_of bytes)) (f64_of (N.max child_bytes 1)))).

Definition batch_of (batch : list N) (tree : Tree) (node : GpuNode) (children : list nat) : option N :=
  match node with
  | GpuLoadParquet _ _ _ _ groups survivors _ => largest_batch_bytes groups survivors
  | _ =>
      held ← held_by_accumulator node;
      match held with
      | Some held => Some (held / N.max (est_lanes node) 1)
      | None => max_or_zero <$> mapM (fun child => bytes ← est_bytes node; scaled batch tree bytes child) children
      end
  end.

(** Bottom up: the vector holds the figures of the nodes already passed. *)
Definition batch_bytes (tree : Tree) : option (list N) :=
  foldl (fun batch '(node, children) => batch ← batch; b ← batch_of batch tree node children; Some (batch ++ [b]))
    (Some []) (zip (tree_nodes tree) (tree_children tree)).

(** ** The estimate *)
Definition MIN_TARGET_BATCH_BYTES : N := 2 ^ 20.

Definition coarse (bytes : N) : N :=
  if bytes <? MIN_TARGET_BATCH_BYTES then MIN_TARGET_BATCH_BYTES else N.shiftl 1 (N.log2 bytes).

Record SourceEstimate := { se_seq : nat; se_amplification : f64; target_batch_bytes : N }.
Record MemoryModel :=
  { m_budget : N; accumulator_bytes : N; certain_accumulator_bytes : N; share_per_source : N;
    resident : list N; sources : list SourceEstimate }.

Definition held_total (nodes : list GpuNode) : option N :=
  held ← mapM held_by_accumulator nodes; Some (sum64 (omap id held)).

Definition source_estimate (tree : Tree) (share : N) (seq : nat) : option SourceEstimate :=
  node ← tree_nodes tree !! seq;
  a ← amplification tree seq;
  let afforded := coarse (u64_of (f64_floor (f64_div (f64_of share) a))) in
  Some {| se_seq := seq; se_amplification := a; target_batch_bytes := N.min afforded (source_bytes node) |}.

(** What arrives at a node while it holds its state. *)
Definition streamed_into (batch : list N) (node : GpuNode) (children : list nat) : option N :=
  match node with
  | GpuHashJoin _ _ _ _ _ _ _ _ _ | GpuCrossJoin _ _ _ _ | GpuNestedLoopJoin _ _ _ _ _ _ _ =>
      probe ← children !! 1%nat; b ← batch !! probe; Some (wrapping_mul b (est_lanes node))
  | _ => Some 0
  end.

Definition resident_at (batch : list N) (at_ : nat * (GpuNode * list nat)) : option N :=
  let '(seq, (node, children)) := at_ in
  held ← held_by_accumulator node;
  match held with
  | Some held => streamed ← streamed_into batch node children; Some (held ⊞ streamed)
  | None => b ← batch !! seq; Some (wrapping_mul b (est_lanes node))
  end.

Definition estimate (root : GpuNode) (budget : N) : option (PlanResult MemoryModel) :=
  let tree := tree_of root in
  accumulator_bytes ← held_total (tree_nodes tree);
  certain ← held_total (List.filter rows_are_certain (tree_nodes tree));
  if budget <=? certain
  then Some (Err (Invalid "what the accumulators hold and cannot be holding less of is already the whole budget, so no batch size makes this plan run"))
  else
    let remainder := if accumulator_bytes <? budget then budget - accumulator_bytes else budget - certain in
    let seqs := scan_seqs tree in
    let share := remainder / N.max (N.of_nat (length seqs)) 1 in
    sources ← mapM (source_estimate tree share) seqs;
    batch ← batch_bytes tree;
    resident ← mapM (resident_at batch) (imap pair (zip (tree_nodes tree) (tree_children tree)));
    Some (Ok {| m_budget := budget; accumulator_bytes := accumulator_bytes; certain_accumulator_bytes := certain;
                share_per_source := share; resident := resident; sources := sources |}).
