(* ===== verification/MemFacts.v ===== *)
(** * What the memory model answers

    The numbering of the estimator's tree is the tree's post-order; its walks end; a plan that
    validates is priced without a panic where every column's width is known; and what each scan is
    given. *)
From stdpp Require Import strings.
From Stdlib Require Import SpecFloat.
From S2P Require Import Prelude Interval PlanIR PlanCommon PlanNodes ScanMap Joins Aggregates Validate ValidFacts Denote.
From S2P Require Import PlanSound Nullability Physical ExprTrans ScanMeta TransCommon TransAgg TransDistinct Translate TransFacts.
From S2P Require Import Memory.
Open Scope nat_scope.

(** ** The estimator's numbering *)
Definition post_order : GpuNode -> list GpuNode := fold_node (fun node kids => concat kids ++ [node]).

Lemma post_order_eq node : post_order node = concat (map post_order (children node)) ++ [node].
Proof. unfold post_order at 1. by rewrite fold_node_eq. Qed.

(** Each number's children are its node's, numbered below it. *)
Record numbered (tree : Tree) : Prop := {
  same_lengths : length (tree_children tree) = length (tree_nodes tree) /\ length (tree_parent tree) = length (tree_nodes tree);
  below_and_its : forall i node kids, tree_nodes tree !! i = Some node -> tree_children tree !! i = Some kids ->
    Forall2 (fun k c => k < i /\ tree_nodes tree !! k = Some c) kids (children node) }.

Lemma push_numbered node kids tree : numbered tree ->
  Forall2 (fun k c => tree_nodes tree !! k = Some c) kids (children node) -> numbered (push_node node kids tree).2.
Proof.
  intros [[Hc Hp] Hb] Hk. split; [cbn; rewrite !length_app; cbn; lia|]. cbn. intros i node' kids' Hn Hks.
  apply lookup_app_Some in Hn as [Hn|[Hge Hn]].
  - pose proof (lookup_lt_Some _ _ _ Hn). rewrite lookup_app_l in Hks by lia.
    eapply Forall2_impl; [by apply Hb|]. cbn. intros k c [Hlt Hl]. split; [done|]. by apply lookup_app_l_Some.
  - apply list_lookup_singleton_Some in Hn as [Hi <-]. rewrite lookup_app_r in Hks by lia.
    apply list_lookup_singleton_Some in Hks as [_ <-]. eapply Forall2_impl; [exact Hk|]. cbn. intros k c Hl.
    pose proof (lookup_lt_Some _ _ _ Hl). split; [lia|]. by apply lookup_app_l_Some.
Qed.

Lemma visit_numbered node tree : numbered tree ->
  let '(seq, tree') := visit node tree in
  numbered tree' /\ tree_nodes tree' = tree_nodes tree ++ post_order node /\ tree_nodes tree' !! seq = Some node
  /\ tree_parent tree' = tree_parent tree ++ replicate (length (post_order node)) None.
Proof.
  revert tree. induction node as [node IH] using node_ind_children. intros tree Hw.
  unfold visit. rewrite fold_node_eq. fold visit. cbv beta. rewrite post_order_eq.
  assert (Hkids : forall cs tree, (forall c, c ∈ cs -> c ∈ children node) -> numbered tree ->
    let '(seqs, tree') := visit_children (map visit cs) tree in
    numbered tree' /\ tree_nodes tree' = tree_nodes tree ++ concat (map post_order cs)
    /\ Forall2 (fun k c => tree_nodes tree' !! k = Some c) seqs cs
    /\ tree_parent tree' = tree_parent tree ++ replicate (length (concat (map post_order cs))) None).
  { induction cs as [|c cs IHcs]; intros tr Hin Hn; cbn; [rewrite !app_nil_r; split_and!; [done..|constructor|done]|].
    pose proof (IH c (Hin c (list_elem_of_here _ _)) tr Hn) as Hv. destruct (visit c tr) as [seq tr'].
    destruct Hv as (Hn' & Happ & Hseq & Hpar).
    assert (Hin' : forall c', c' ∈ cs -> c' ∈ children node) by (intros c' Hc'; by apply Hin, list_elem_of_further).
    specialize (IHcs tr' Hin' Hn'). destruct (visit_children (map visit cs) tr') as [seqs tr''].
    destruct IHcs as (Hn'' & Happ' & Hseqs & Hpar'). split_and!; [done| | |].
    - by rewrite Happ', Happ, app_assoc.
    - constructor; [|done]. rewrite Happ'. by apply lookup_app_l_Some.
    - by rewrite Hpar', Hpar, length_app, replicate_add, app_assoc. }
  specialize (Hkids (children node) tree (fun c Hc => Hc) Hw).
  destruct (visit_children (map visit (children node)) tree) as [kids tr]. destruct Hkids as (Hn & Happ & Hks & Hpar).
  split_and!; [by apply push_numbered| | |]; cbn.
  - by rewrite Happ, app_assoc.
  - rewrite lookup_app_r by lia. by rewrite Nat.sub_diag.
  - by rewrite Hpar, length_app, replicate_add, app_assoc.
Qed.

(** *** Parents *)
Lemma adopt_lookup seq kids (parent : list (option nat)) c :
  foldl (fun parent child => <[child := Some seq]> parent) parent kids !! c =
  if bool_decide (c ∈ kids) then (if c <? length parent then Some (Some seq) else None) else parent !! c.
Proof.
  revert parent. induction kids as [|k kids IH]; intros parent; cbn [foldl]; [done|]. rewrite IH, length_insert.
  destruct (decide (c ∈ kids)) as [Hc|Hc].
  - rewrite !bool_decide_true; [done| |done]. by apply list_elem_of_further.
  - rewrite (bool_decide_false (c ∈ kids)) by done. destruct (decide (c = k)) as [->|Hne].
    + rewrite bool_decide_true by apply list_elem_of_here. destruct (Nat.ltb_spec k (length parent)).
      * by apply list_lookup_insert_eq.
      * rewrite list_insert_ge by lia. by apply lookup_ge_None_2.
    + rewrite bool_decide_false, list_lookup_insert_ne by (try done; by intros [?|?]%elem_of_cons). done.
Qed.

Lemma length_adopt seq kids (parent : list (option nat)) :
  length (foldl (fun parent child => <[child := Some seq]> parent) parent kids) = length parent.
Proof. revert parent. induction kids as [|k kids IH]; intros parent; cbn; [done|]. by rewrite IH, length_insert. Qed.

Lemma parents_from (l : list (nat * list nat)) (parent : list (option nat)) c up :
  foldl (fun parent '(seq, kids) => foldl (fun parent child => <[child := Some seq]> parent) parent kids) parent l !! c
    = Some (Some up) ->
  parent !! c = Some (Some up) \/ exists kids, (up, kids) ∈ l /\ c ∈ kids /\ c < length parent.
Proof.
  revert parent. induction l as [|[seq kids] l IH]; intros parent; cbn [foldl]; [by left|].
  intros [H|(kids' & Hin & Hc & Hl)]%IH.
  - rewrite adopt_lookup in H. case_bool_decide as Hc; [|by left]. destruct (Nat.ltb_spec c (length parent)); [|done].
    injection H as ->. right. exists kids. split_and!; [apply list_elem_of_here|done|done].
  - right. exists kids'. rewrite length_adopt in Hl. split_and!; [by apply list_elem_of_further|done|done].
Qed.

Lemma tree_of_numbered root : tree_nodes (tree_of root) = post_order root
  /\ length (tree_children (tree_of root)) = length (post_order root)
  /\ (forall i node kids, tree_nodes (tree_of root) !! i = Some node -> tree_children (tree_of root) !! i = Some kids ->
        Forall2 (fun k c => k < i /\ tree_nodes (tree_of root) !! k = Some c) kids (children node))
  /\ (forall seq up, mjoin (tree_parent (tree_of root) !! seq) = Some up -> seq < up < length (tree_nodes (tree_of root))).
Proof.
  assert (Hempty : numbered {| tree_nodes := []; tree_children := []; tree_parent := [] |}).
  { split; [done|]. cbn. intros i node kids Hi. by rewrite lookup_nil in Hi. }
  pose proof (visit_numbered root _ Hempty) as Hv. unfold tree_of.
  destruct (visit root _) as [seq tr]. destruct Hv as ([[Hc Hp] Hb] & Hn & _ & Hpar). cbn in Hn, Hpar |- *.
  split_and!; [done|by rewrite Hc, Hn|done|].
  intros k up Hup. destruct (parents_of _ _ !! k) as [o|] eqn:Ho; [|done]. cbn in Hup. subst o.
  unfold parents_of in Ho. apply parents_from in Ho as [Ho|(kids & Hin & Hk & Hl)].
  - rewrite Hpar in Ho. by apply lookup_replicate in Ho as [? _].
  - apply elem_of_lookup_imap in Hin as (i & kids' & Heq & Hi). injection Heq as -> ->.
    pose proof (lookup_lt_Some _ _ _ Hi). destruct (lookup_lt_is_Some_2 (tree_nodes tr) i) as [node Hnode]; [lia|].
    pose proof (Hb i node kids' Hnode Hi) as Hf. apply list_elem_of_lookup in Hk as [j Hj].
    destruct (Forall2_lookup_l _ _ _ _ _ Hf Hj) as (c & _ & Hlt & _). lia.
Qed.

Lemma tree_of_nodes root : tree_nodes (tree_of root) = post_order root.
Proof. apply tree_of_numbered. Qed.

Lemma loads_post_order root : loads root = List.filter is_scan (post_order root).
Proof.
  induction root as [root IH] using node_ind_children. rewrite loads_eq, post_order_eq, List.filter_app. f_equal.
  revert IH. generalize (children root). intros cs IH. induction cs as [|c cs IHcs]; [done|]. cbn.
  rewrite List.filter_app, (IH c) by apply list_elem_of_here. f_equal. apply IHcs. intros c' Hc'. apply IH.
  by apply list_elem_of_further.
Qed.

(** The scans' numbers pick out the loads, in their order. *)
Lemma scan_seqs_loads root :
  Forall2 (fun seq load => tree_nodes (tree_of root) !! seq = Some load) (scan_seqs (tree_of root)) (loads root).
Proof.
  unfold scan_seqs. rewrite loads_post_order, <- tree_of_nodes. generalize (tree_nodes (tree_of root)). intros l.
  assert (Hgen : forall pre, Forall2 (fun seq load => (pre ++ l) !! seq = Some load)
    (map fst (List.filter (fun '(_, node) => is_scan node) (imap (fun i x => (length pre + i, x)) l))) (List.filter is_scan l)).
  { induction l as [|x l IH]; intros pre; [constructor|]. cbn [imap List.filter].
    specialize (IH (pre ++ [x])). rewrite <- app_assoc in IH.
    assert (Hext : imap (fun i y => (length (pre ++ [x]) + i, y)) l = imap ((fun i y => (length pre + i, y)) ∘ S) l).
    { apply imap_ext. intros i y _. cbn. rewrite length_app. cbn. f_equal. lia. }
    rewrite Hext in IH. destruct (is_scan x); [|exact IH]. constructor; [|exact IH].
    cbn. rewrite lookup_app_r by lia. by replace (length pre + 0 - length pre) with 0 by lia. }
  exact (Hgen []).
Qed.

(** ** The walk to the accumulator ends *)
Lemma amplify_fuel tree rows width fuel fuel' seq a :
  (forall seq up, mjoin (tree_parent tree !! seq) = Some up -> seq < up < length (tree_nodes tree)) ->
  seq < length (tree_nodes tree) -> length (tree_nodes tree) - seq <= fuel -> length (tree_nodes tree) - seq <= fuel' ->
  amplify tree rows width fuel seq a = amplify tree rows width fuel' seq a.
Proof.
  intros Hup. revert fuel' seq a. induction fuel as [|fuel IH]; intros fuel' seq a Hseq Hf Hf'; [lia|].
  destruct fuel' as [|fuel']; [lia|]. cbn [amplify]. destruct (mjoin _) as [up|] eqn:Hp; [|done].
  apply Hup in Hp. destruct (tree_nodes tree !! up) as [parent|]; [|done]. cbn.
  destruct (held_by_accumulator parent) as [[held|]|]; [done| |done]. cbn.
  destruct (factor rows width parent) as [f|]; [|done]. cbn. apply IH; lia.
Qed.

(** the amplification walk always ends.  From any source of any tree, giving the walk more fuel
    than the tree has nodes changes nothing: every parent is numbered above its child, so it reaches
    an accumulator or the root within the tree's size. *)
Theorem amplification_walk_ends root rows width source a extra :
  source < length (tree_nodes (tree_of root)) ->
  amplify (tree_of root) rows width (length (tree_nodes (tree_of root)) + extra) source a
  = amplify (tree_of root) rows width (length (tree_nodes (tree_of root))) source a.
Proof. intros Hs. apply amplify_fuel; [apply tree_of_numbered|done|lia|lia]. Qed.

(** ** What a scan is given *)
Lemma coarse_power b : (b <= u64_max)%N -> exists k, (20 <= k <= 63)%N /\ coarse b = (2 ^ k)%N
  /\ (MIN_TARGET_BATCH_BYTES <= b -> coarse b <= b)%N.
Proof.
  intros Hb. unfold coarse. destruct (N.ltb_spec b MIN_TARGET_BATCH_BYTES) as [Hlt|Hge].
  - exists 20%N. split; [lia|]. split; [done|]. intros ?. lia.
  - exists (N.log2 b). assert (Hpos : (0 < b)%N) by (change MIN_TARGET_BATCH_BYTES with 1048576%N in Hge; lia).
    rewrite N.shiftl_1_l. split; [split|split; [done|]].
    + apply N.log2_le_pow2; [done|]. exact Hge.
    + apply N.lt_succ_r, N.log2_lt_pow2; [done|]. change (2 ^ N.succ 63)%N with u64_modulus.
      change u64_max with (u64_modulus - 1)%N in Hb. change u64_modulus with 18446744073709551616%N in *. lia.
    + intros _. by apply N.log2_spec.
Qed.

Lemma u64_of_bound x : (u64_of x <= u64_max)%N.
Proof. destruct x as [s|[]| |[] m e]; cbn [u64_of]; try done. apply N.le_min_r. Qed.

Lemma not_below a m e : a <> S754_nan -> SFltb a (S754_finite false m e) = false -> SFleb (S754_finite false m e) a = true.
Proof.
  unfold SFltb, SFleb, SFcompare. destruct a as [s|[]| |s m' e']; try done. intros _. destruct s; [done|].
  change (Pos.compare_cont Eq m' m) with (m' ?= m)%positive. change (Pos.compare_cont Eq m m') with (m ?= m')%positive.
  rewrite (Z.compare_antisym e' e), (Pos.compare_antisym m' m). destruct (e' ?= e)%Z; cbn; try done.
  by destruct (m' ?= m)%positive.
Qed.

Lemma f64_max_one a : SFleb (f64_of 1) (f64_max a (f64_of 1)) = true.
Proof.
  destruct a as [s|[]| |s m e]; try reflexivity. unfold f64_max.
  change (f64_of 1) with (S754_finite false 4503599627370496 (-52)). destruct (SFltb _ _) eqn:Hlt; [reflexivity|].
  by apply not_below.
Qed.

(** What a scan's estimate says of the load it is for. *)
Record fits_source (root : GpuNode) (source : SourceEstimate) (load : GpuNode) : Prop := {
  its_node : tree_nodes (tree_of root) !! se_seq source = Some load;
  no_larger_than_the_source : (target_batch_bytes source <= source_bytes load)%N;
  coarse_or_whole : target_batch_bytes source = source_bytes load
    \/ exists k, (20 <= k <= 63)%N /\ target_batch_bytes source = (2 ^ k)%N;
  amplified : SFleb (f64_of 1) (se_amplification source) = true }.

Lemma source_estimate_fits root share seq load source :
  tree_nodes (tree_of root) !! seq = Some load -> source_estimate (tree_of root) share seq = Some source ->
  fits_source root source load.
Proof.
  intros Hl. unfold source_estimate. rewrite Hl. intros (node & [= <-] & H)%bind_Some.
  apply bind_Some in H as (a & Ha & [= <-]). unfold amplification in Ha. rewrite Hl in Ha.
  apply bind_Some in Ha as (node & [= <-] & Ha). apply bind_Some in Ha as (w & _ & Ha).
  apply bind_Some in Ha as (a' & _ & [= <-]).
  destruct (coarse_power _ (u64_of_bound (f64_floor (f64_div (f64_of share) (f64_max a' (f64_of 1)))))) as (k & Hk & Hc & _).
  split; cbn [se_seq target_batch_bytes se_amplification]; [done|apply N.le_min_r| |apply f64_max_one].
  destruct (N.min_spec_le (coarse (u64_of (f64_floor (f64_div (f64_of share) (f64_max a' (f64_of 1)))))) (source_bytes load))
    as [[_ ->]|[_ ->]]; [right|by left]. eauto.
Qed.

Lemma estimate_inv root budget m : estimate root budget = Some (Ok m) ->
  (certain_accumulator_bytes m < budget)%N
  /\ (share_per_source m * N.of_nat (scans root) <= budget)%N
  /\ Forall2 (fits_source root) (sources m) (loads root).
Proof.
  unfold estimate. intros (acc & _ & H)%bind_Some. apply bind_Some in H as (certain & _ & H).
  destruct (N.leb_spec budget certain) as [|Hlt]; [done|].
  set (remainder := if (acc <? budget)%N then _ else _) in H.
  assert (Hrem : (remainder <= budget)%N) by (subst remainder; destruct (acc <? budget)%N; lia).
  apply bind_Some in H as (srcs & Hsrcs & H). apply bind_Some in H as (batch & _ & H).
  apply bind_Some in H as (resident & _ & [= <-]). cbn [certain_accumulator_bytes share_per_source sources].
  pose proof (scan_seqs_loads root) as Hseqs. unfold scans. rewrite <- (Forall2_length _ _ _ Hseqs).
  split_and!; [done| |].
  - set (k := N.of_nat (length (scan_seqs (tree_of root)))).
    destruct (N.eq_dec k 0) as [->|Hk]; [lia|]. replace (N.max k 1) with k by lia.
    rewrite N.mul_comm. etrans; [by apply N.Div0.mul_div_le|done].
  - apply mapM_Some in Hsrcs. clear -Hsrcs Hseqs. revert Hseqs. generalize (loads root).
    induction Hsrcs as [|seq source seqs srcs Hs _ IH]; intros ls Hseqs; inversion Hseqs; subst; constructor; [|by apply IH].
    by eapply source_estimate_fits.
Qed.

(** C33: what the estimator answers stays inside the budget.  When it prices a plan, the accumulators'
    certain bytes are under the budget, the sources' shares together are within it, and there is one
    estimate per scan of the tree, in the order a walk of the tree meets them: for that scan's node,
    at an amplification of at least 1, a target no larger than what the scan holds, which is either
    all of it or a power of two from 1 MiB up.  How a target follows from its share is not part of it. *)
Theorem estimate_prices_every_scan root budget m : estimate root budget = Some (Ok m) ->
  (certain_accumulator_bytes m < budget)%N
  /\ (share_per_source m * N.of_nat (scans root) <= budget)%N
  /\ Forall2 (fits_source root) (sources m) (loads root).
Proof. apply estimate_inv. Qed.

(** ** A valid plan is priced *)
Lemma option_bind_Some {A B} (x : A) (k : A -> option B) : Some x ≫= k = k x.
Proof. done. Qed.

Definition widths_known (node : GpuNode) : Prop :=
  forall schema f, kind_schema (kind node) = Some schema -> f ∈ fields schema ->
    is_Some (type_structural_size (data_type f) 1).

Lemma post_order_descendants root node : node ∈ post_order root <-> node ∈ descendants root.
Proof.
  revert node. induction root as [root IH] using node_ind_children. intros node.
  rewrite post_order_eq, descendants_eq, elem_of_app, list_elem_of_singleton, elem_of_cons.
  enough (Hkids : node ∈ concat (map post_order (children root)) <-> node ∈ concat (map descendants (children root))) by tauto.
  split; intros (l & (c & -> & Hc)%elem_of_map & Hn)%elem_of_concat; apply elem_of_concat; eexists;
    (split; [apply elem_of_map; eauto|by apply IH]).
Qed.

Lemma descendants_within (P : GpuNode -> Prop) root node : Forall P (descendants root) -> node ∈ descendants root ->
  Forall P (descendants node).
Proof.
  revert node. induction root as [root IH] using node_ind_children. intros node Hall.
  rewrite descendants_eq, elem_of_cons. intros [->|Hn]; [done|].
  apply elem_of_concat in Hn as (l & (c & -> & Hc)%elem_of_map & Hn). apply (IH c); try done.
  apply descendants_ind in Hall as [_ Hall]. rewrite Forall_forall in Hall. by apply Hall.
Qed.

Lemma est_width_some node : Forall widths_known (descendants node) -> is_Some (est_width node).
Proof.
  induction node as [node IH] using node_ind_children. intros [Hw Hc]%descendants_ind.
  unfold est_width. rewrite fold_node_eq. fold est_width. cbv beta.
  assert (Hk : is_Some (match kind_schema (kind node) with
    | Some schema => logical_size_from_schema (fields schema) 1 0
    | None => match map est_width (children node) with kid :: _ => kid | [] => Some 1%N end end)).
  { destruct (kind_schema (kind node)) as [schema|] eqn:Hs.
    - unfold logical_size_from_schema. destruct (mapM_is_Some_2 (fun f => type_structural_size (data_type f) 1) (fields schema)) as [ws Hws].
      { apply Forall_forall. intros f Hf. by eapply Hw. }
      rewrite Hws. by eexists.
    - destruct (children node) as [|c cs]; [by eexists|]. apply IH; [apply list_elem_of_here|].
      by apply Forall_cons in Hc as [? _]. }
  destruct Hk as [w ->]. by eexists.
Qed.

Lemma est_bytes_some node : Forall widths_known (descendants node) -> is_Some (est_bytes node).
Proof. intros [w Hw]%est_width_some. unfold est_bytes. rewrite Hw. by eexists. Qed.

Lemma any_panicking_some {A} (f : A -> option bool) l : (forall x, x ∈ l -> is_Some (f x)) -> is_Some (any_panicking f l).
Proof.
  induction l as [|x l IH]; intros Hf; [by eexists|]. cbn. destruct (Hf x (list_elem_of_here _ _)) as [b ->]. cbn.
  destruct b; [by eexists|]. apply IH. intros y Hy. by apply Hf, list_elem_of_further.
Qed.

Lemma conjunct_refs f c r : c ∈ conjuncts_of f -> r ∈ collect_column_refs c -> r ∈ collect_column_refs f.
Proof.
  induction f; cbn [conjuncts_of]; try (by intros ->%list_elem_of_singleton).
  destruct op; try (by intros ->%list_elem_of_singleton). cbn. rewrite !elem_of_app. intros [Hc|Hc] Hr; [left|right]; auto.
Qed.

Lemma distinct_key_width_some jt keys filter columns build probe :
  (forall f r, filter = Some f -> r ∈ collect_column_refs f -> is_Some (columns !! index r)) ->
  (forall k, k ∈ keys -> k.1 < length (fields (input_schema build)) /\ k.2 < length (fields (input_schema probe))) ->
  is_Some (distinct_key_width jt keys filter columns build probe).
Proof.
  intros Hf Hk. unfold distinct_key_width.
  assert (Hcross : forall conjunct, conjunct ∈ (match filter with Some f => conjuncts_of f | None => [] end) ->
    is_Some (conjunct_crosses columns conjunct)).
  { intros c Hc. destruct filter as [f|]; [|by apply not_elem_of_nil in Hc]. unfold conjunct_crosses.
    assert (Hreads : forall s, is_Some (any_panicking (fun r => (fun c => bool_decide (side c = s)) <$> columns !! index r)
      (collect_column_refs c))).
    { intros s. apply any_panicking_some. intros r Hr. destruct (Hf f r eq_refl (conjunct_refs f c r Hc Hr)) as [col ->]. by eexists. }
    destruct (Hreads Build) as [b ->], (Hreads Probe) as [p ->]. by eexists. }
  assert (Hwidth : forall (s : GpuNode) (ordinals : list nat), (forall o, o ∈ ordinals -> o < length (fields (input_schema s))) ->
    is_Some (crosses ← any_panicking (conjunct_crosses columns) (match filter with Some f => conjuncts_of f | None => [] end);
      if crosses : bool then Some 0%N
      else sumN <$> mapM (fun ordinal => (fun f => width_on_device (data_type f)) <$> fields (input_schema s) !! ordinal) ordinals)).
  { intros s ordinals Ho. destruct (any_panicking_some _ _ Hcross) as [b ->]. cbn. destruct b; [by eexists|].
    assert (Hall : is_Some (mapM (fun ordinal => (fun f => width_on_device (data_type f)) <$> fields (input_schema s) !! ordinal) ordinals)).
    { apply mapM_is_Some_2, Forall_forall. intros o Hin. apply fmap_is_Some, lookup_lt_is_Some_2. by apply Ho. }
    destruct Hall as [ws ->]. by eexists. }
  destruct jt; try (by eexists); apply Hwidth; intros o (k & -> & Hin)%elem_of_map; by apply Hk.
Qed.

Lemma valid_key_width jt keys filter columns projection build probe :
  validate_hash_join jt keys filter columns projection build probe = Ok () ->
  is_Some (distinct_key_width jt keys filter columns build probe).
Proof.
  unfold validate_hash_join. intros Hv. inv_ok.
  match goal with H : check_keys _ _ _ = Ok () |- _ => rename H into Hkeys end.
  apply distinct_key_width_some.
  - intros f r -> Hr. match goal with H : check_filter_columns _ _ _ _ _ = Ok () |- _ => rename H into Hf end.
    unfold check_filter_columns in Hf. inv_ok.
    match goal with H : for_each _ (collect_column_refs _) = Ok () |- _ => rewrite for_each_ok in H; specialize (H r Hr) end.
    unfold check_filter_ref in *. inv_ok. by eexists.
  - unfold check_keys in Hkeys. inv_ok.
    match goal with H : for_each _ [_; _] = Ok () |- _ => rewrite for_each_ok in H; rename H into Hk end.
    intros k Hin. split.
    + specialize (Hk (input_schema build, map fst keys) (list_elem_of_here _ _)). cbn in Hk. rewrite for_each_ok in Hk.
      specialize (Hk k.1 ltac:(apply elem_of_map; eauto)). by apply ensure_iff, Nat.ltb_lt in Hk.
    + specialize (Hk (input_schema probe, map snd keys) ltac:(apply list_elem_of_further, list_elem_of_here)). cbn in Hk.
      rewrite for_each_ok in Hk. specialize (Hk k.2 ltac:(apply elem_of_map; eauto)). by apply ensure_iff, Nat.ltb_lt in Hk.
Qed.

Lemma held_some node : validate_node node = Ok () -> Forall widths_known (descendants node) ->
  is_Some (held_by_accumulator node).
Proof.
  intros Hv Hw. pose proof Hw as [_ Hc]%descendants_ind. pose proof (est_width_some node Hw) as [w Hnode].
  assert (Hb : forall c, c ∈ children node -> is_Some (est_bytes c)).
  { intros c Hin. rewrite Forall_forall in Hc. by apply est_bytes_some, Hc. }
  destruct node; cbn [held_by_accumulator children] in *; rewrite ?Hnode; try (by eexists).
  all: destruct (Hb _ (list_elem_of_here _ _)) as [held Hheld]; rewrite Hheld; try (by eexists).
  apply valid_key_width in Hv as [kw ->]. by eexists.
Qed.

Lemma largest_batch_some knd table projection groups survivors :
  validate_load_parquet knd table projection groups survivors = Ok () -> is_Some (largest_batch_bytes groups survivors).
Proof.
  unfold validate_load_parquet. intros Hv. inv_ok.
  match goal with H : for_each _ groups = Ok () |- _ => rewrite for_each_ok in H; rename H into Hg end.
  unfold largest_batch_bytes.
  assert (Hall : is_Some (mapM (fun batch => sum64 <$> mapM (group_bytes survivors) batch) (concat groups))).
  { apply mapM_is_Some_2, Forall_forall. intros batch (lane & Hl & Hb)%elem_of_concat. apply fmap_is_Some, mapM_is_Some_2, Forall_forall.
    intros g Hin. specialize (Hg lane Hl). cbv beta in Hg. rewrite for_each_ok in Hg. specialize (Hg batch Hb). cbv beta in Hg. inv_ok.
    rewrite for_each_ok in Hg. specialize (Hg g Hin). cbv beta in Hg. apply ensure_iff, existsb_elem in Hg as (m & Hm & Hi).
    unfold group_bytes. apply fmap_is_Some. destruct (List.find _ survivors) eqn:Hf; [by eexists|].
    apply list_elem_of_In in Hm. by rewrite (List.find_none _ _ Hf m Hm) in Hi. }
  destruct Hall as [sizes ->]. by eexists.
Qed.

(** What every node of a priced tree offers the estimator. *)
Record priced (node : GpuNode) : Prop := {
  priced_valid : validate_node node = Ok ();
  priced_widths : Forall widths_known (descendants node) }.

Lemma priced_held node : priced node -> is_Some (held_by_accumulator node).
Proof. intros []. by apply held_some. Qed.

Lemma priced_bytes node : priced node -> is_Some (est_bytes node).
Proof. intros []. by apply est_bytes_some. Qed.

Section Priced.
Context (tree : Tree).
Context (Hpriced : Forall priced (tree_nodes tree)) (Hlen : length (tree_children tree) = length (tree_nodes tree)).
Context (Hkids : forall i node kids, tree_nodes tree !! i = Some node -> tree_children tree !! i = Some kids ->
  Forall2 (fun k c => k < i /\ tree_nodes tree !! k = Some c) kids (children node)).
Context (Hup : forall seq up, mjoin (tree_parent tree !! seq) = Some up -> seq < up < length (tree_nodes tree)).

Lemma priced_at i node : tree_nodes tree !! i = Some node -> priced node.
Proof. intros Hi. rewrite Forall_forall in Hpriced. apply Hpriced. by eapply list_elem_of_lookup_2. Qed.

Lemma batch_of_some batch i node kids : length batch = i -> tree_nodes tree !! i = Some node ->
  tree_children tree !! i = Some kids -> is_Some (batch_of batch tree node kids).
Proof.
  intros Hb Hn Hk. pose proof (priced_at i node Hn) as Hp. pose proof (priced_held node Hp) as [held Hheld].
  assert (Hrest : is_Some (match held with
    | Some held => Some (held / N.max (est_lanes node) 1)%N
    | None => max_or_zero <$> mapM (fun child => bytes ← est_bytes node; scaled batch tree bytes child) kids end)).
  { destruct held; [by eexists|]. apply fmap_is_Some, mapM_is_Some_2, Forall_forall. intros k Hin.
    destruct (priced_bytes node Hp) as [b ->]. cbn. apply list_elem_of_lookup in Hin as [j Hj].
    destruct (Forall2_lookup_l _ _ _ _ _ (Hkids i node kids Hn Hk) Hj) as (c & _ & Hlt & Hc).
    unfold scaled. rewrite Hc. cbn. destruct (priced_bytes c (priced_at k c Hc)) as [cb ->]. cbn.
    destruct (lookup_lt_is_Some_2 batch k) as [f ->]; [lia|]. by eexists. }
  destruct node; cbn [batch_of]; rewrite ?Hheld; try exact Hrest.
  apply priced_valid in Hp. by eapply largest_batch_some.
Qed.

Lemma batch_bytes_some : exists batch, batch_bytes tree = Some batch /\ length batch = length (tree_nodes tree).
Proof.
  unfold batch_bytes.
  assert (Hgen : forall l done_ batch, zip (tree_nodes tree) (tree_children tree) = done_ ++ l -> length batch = length done_ ->
    exists final, foldl (fun batch '(node, children) => batch ← batch; b ← batch_of batch tree node children; Some (batch ++ [b]))
      (Some batch) l = Some final /\ length final = length done_ + length l).
  { induction l as [|[node kids] l IH]; intros done_ batch Hz Hb; cbn [foldl]; [exists batch; split; [done|cbn; lia]|].
    assert (Hat : zip (tree_nodes tree) (tree_children tree) !! length done_ = Some (node, kids)).
    { rewrite Hz, lookup_app_r by lia. by rewrite Nat.sub_diag. }
    apply lookup_zip_with_Some in Hat as (n' & k' & [= <- <-] & Hn & Hk).
    destruct (batch_of_some batch (length done_) node kids Hb Hn Hk) as [b Hbo].
    destruct (IH (done_ ++ [(node, kids)]) (batch ++ [b])) as (final & Hf & Hl).
    - by rewrite <- app_assoc.
    - rewrite !length_app. cbn. lia.
    - exists final. split; [|rewrite Hl, length_app; cbn; lia]. rewrite <- Hf. f_equal. cbn. by rewrite Hbo. }
  destruct (Hgen (zip (tree_nodes tree) (tree_children tree)) [] [] eq_refl eq_refl) as (batch & Hb & Hl).
  exists batch. split; [exact Hb|]. rewrite Hl. cbn. rewrite length_zip_with. lia.
Qed.

Lemma resident_some batch : length batch = length (tree_nodes tree) ->
  is_Some (mapM (resident_at batch) (imap pair (zip (tree_nodes tree) (tree_children tree)))).
Proof.
  intros Hb. apply mapM_is_Some_2, Forall_forall. intros at_ Hin.
  apply elem_of_lookup_imap in Hin as (i & [node kids] & -> & Hi).
  apply lookup_zip_with_Some in Hi as (n' & k' & [= <- <-] & Hn & Hk).
  unfold compose, resident_at. destruct (priced_held node (priced_at i node Hn)) as [held ->]. cbn.
  pose proof (lookup_lt_Some _ _ _ Hn). destruct held as [held|].
  - pose proof (Hkids i node kids Hn Hk) as Hf.
    assert (Hstream : is_Some (streamed_into batch node kids)).
    { destruct node; cbn [streamed_into]; try (by eexists); inversion Hf as [|b ? ks ? _ Hrest]; subst;
        inversion Hrest as [|p ? ks' ? [Hlt _] _]; subst; cbn;
        (destruct (lookup_lt_is_Some_2 batch p) as [x ->]; [lia|by eexists]). }
    destruct Hstream as [x ->]. by eexists.
  - destruct (lookup_lt_is_Some_2 batch i) as [x ->]; [lia|]. by eexists.
Qed.

Lemma amplify_some rows width fuel seq a : is_Some (amplify tree rows width fuel seq a).
Proof.
  revert seq a. induction fuel as [|fuel IH]; intros seq a; [by eexists|]. cbn [amplify].
  destruct (mjoin _) as [up|] eqn:Hp; [|by eexists]. apply Hup in Hp.
  destruct (lookup_lt_is_Some_2 (tree_nodes tree) up) as [parent Hpar]; [lia|]. rewrite Hpar. cbn.
  pose proof (priced_at up parent Hpar) as Hpp. destruct (priced_held parent Hpp) as [[held|] ->]; [by eexists|]. cbn.
  unfold factor. destruct (est_width_some parent (priced_widths _ Hpp)) as [w ->]. apply IH.
Qed.

Lemma source_estimate_some share seq : seq < length (tree_nodes tree) -> is_Some (source_estimate tree share seq).
Proof.
  intros Hs. destruct (lookup_lt_is_Some_2 (tree_nodes tree) seq Hs) as [node Hn].
  assert (Ha : is_Some (amplification tree seq)).
  { unfold amplification. rewrite Hn. cbn. destruct (est_width_some node (priced_widths _ (priced_at seq node Hn))) as [w ->]. cbn.
    destruct (amplify_some (N.max (est_rows node) 1) w (length (tree_nodes tree)) seq (f64_of (est_lanes node))) as [x Hx].
    change (binary_normalize 53 1024 (Z.of_N (est_lanes node)) 0 false) with (f64_of (est_lanes node)).
    rewrite Hx. by eexists. }
  unfold source_estimate. rewrite Hn. cbn. destruct Ha as [x ->]. by eexists.
Qed.

Lemma held_total_some nodes : Forall priced nodes -> is_Some (held_total nodes).
Proof.
  intros Hall. unfold held_total.
  assert (Hh : is_Some (mapM held_by_accumulator nodes)) by (apply mapM_is_Some_2; eapply Forall_impl; [exact Hall|apply priced_held]).
  destruct Hh as [held ->]. by eexists.
Qed.
End Priced.

Lemma valid_priced root : validate root = Ok () -> Forall widths_known (descendants root) -> Forall priced (post_order root).
Proof.
  unfold validate. intros Hv Hw. inv_ok. unfold PlanResult in *. apply validate_walk_ok in Hv. rewrite Forall_forall in Hv.
  apply Forall_forall. intros node Hn%post_order_descendants. split; [|by eapply descendants_within].
  specialize (Hv node Hn). unfold validate_at in Hv. inv_ok. done.
Qed.

(** C25: pricing a valid plan does not panic.  Where validation accepts a tree and every column of
    every node has a type whose width is known, the estimator answers: it prices the plan or refuses
    the budget.  Every mapping addresses a survivor, every join key and filter column is one of its
    side's, and every number it looks up is one of the tree's. *)
Theorem estimate_of_a_valid_plan_answers root budget :
  validate root = Ok () -> Forall widths_known (descendants root) -> estimate root budget <> None.
Proof.
  intros Hv Hw. apply not_eq_None_Some. pose proof (valid_priced root Hv Hw) as Hp.
  destruct (tree_of_numbered root) as (Hn & Hlen & Hkids & Hup). rewrite <- Hn in Hp, Hlen.
  destruct (held_total_some _ Hp) as [acc Hacc].
  destruct (held_total_some (List.filter rows_are_certain (tree_nodes (tree_of root)))) as [certain Hcertain].
  { apply Forall_forall. intros node (Hin & _)%elem_of_filterb. rewrite Forall_forall in Hp. by apply Hp. }
  unfold estimate. cbv zeta. rewrite Hacc, option_bind_Some, Hcertain, option_bind_Some.
  destruct (budget <=? certain)%N; [by eexists|].
  set (share := ((if (acc <? budget)%N then _ else _) / _)%N).
  assert (Hs : is_Some (mapM (source_estimate (tree_of root) share) (scan_seqs (tree_of root)))).
  { apply mapM_is_Some_2, Forall_forall. intros seq Hin. apply source_estimate_some; try done.
    apply list_elem_of_lookup in Hin as [i Hi].
    destruct (Forall2_lookup_l _ _ _ _ _ (scan_seqs_loads root) Hi) as (load & _ & Hload). by eapply lookup_lt_Some. }
  destruct Hs as [srcs Hs]. rewrite Hs, option_bind_Some.
  destruct (batch_bytes_some (tree_of root) Hp Hlen Hkids) as (batch & Hbatch & Hb). rewrite Hbatch, option_bind_Some.
  destruct (resident_some (tree_of root) Hp Hlen Hkids batch Hb) as [res Hres]. rewrite Hres. by eexists.
Qed.

(** ** A scan of two row groups under an unload *)
Definition demo_scan (t : DataType) : GpuNode :=
  new_load_parquet "t" [0] [[[0]]; [[1]]]
    {| scan_file := "/t.parquet"; scan_can_be_null := [false];
       scan_groups := [{| rg_index := 0; rg_rows := 1000; rg_bytes := 8000000 |};
                       {| rg_index := 1; rg_rows := 500; rg_bytes := 4000000 |}] |}
    (schema_new [{| field_name := "a"; data_type := t; nullable := false |}]).
Definition demo_root (t : DataType) : GpuNode := new_unload (new_coalesce_all_batches (new_merge_partitions (demo_scan t))) None.

Lemma amplification_walk_ends_witness :
  0 < length (tree_nodes (tree_of (demo_root Int64)))
  /\ amplify (tree_of (demo_root Int64)) 1500 10 (length (tree_nodes (tree_of (demo_root Int64))) + 3) 0 (f64_of 2)
     = amplify (tree_of (demo_root Int64)) 1500 10 (length (tree_nodes (tree_of (demo_root Int64)))) 0 (f64_of 2).
Proof. split; [vm_compute; lia|]. apply (amplification_walk_ends (demo_root Int64) 1500 10 0 (f64_of 2) 3). vm_compute. lia. Defined.

(** The coalesce holds 1500 rows of 9 bytes, which leaves the scan the rest of the budget; two lanes
    amplify its batches by 2. *)
Definition demo_model : MemoryModel :=
  {| m_budget := 10000000; accumulator_bytes := 13500; certain_accumulator_bytes := 13500; share_per_source := 9986500;
     resident := [16000000; 8000000; 13500; 13500];
     sources := [{| se_seq := 0; se_amplification := f64_of 2; target_batch_bytes := 4194304 |}] |}%N.

Lemma estimate_prices_every_scan_witness :
  estimate (demo_root Int64) 10000000 = Some (Ok demo_model)
  /\ (certain_accumulator_bytes demo_model < 10000000)%N
  /\ (share_per_source demo_model * N.of_nat (scans (demo_root Int64)) <= 10000000)%N
  /\ Forall2 (fits_source (demo_root Int64)) (sources demo_model) (loads (demo_root Int64)).
Proof.
  split; [vm_compute; reflexivity|]. apply (estimate_prices_every_scan (demo_root Int64) 10000000 demo_model).
  vm_compute. reflexivity.
Defined.

Lemma estimate_of_a_valid_plan_answers_witness :
  validate (demo_root Int64) = Ok () /\ Forall widths_known (descendants (demo_root Int64))
  /\ estimate (demo_root Int64) 10000000 <> None.
Proof.
  assert (Hw : Forall widths_known (descendants (demo_root Int64))).
  { repeat constructor; intros schema f [= <-] ->%list_elem_of_singleton; by eexists. }
  split; [vm_compute; reflexivity|]. split; [exact Hw|].
  apply (estimate_of_a_valid_plan_answers (demo_root Int64) 10000000); [vm_compute; reflexivity|exact Hw].
Defined.

(** A column of a type validation accepts and no width is known for. *)
Example null_column_is_valid_and_not_priced :
  validate (demo_root Null) = Ok () /\ estimate (demo_root Null) 10000000 = None.
Proof. split; vm_compute; reflexivity. Qed.
