(* ===== verification/Pipeline.v ===== *)
(** * Planning a query

    [planner/pipeline.rs]: DataFusion's plan in, a validated tree and its memory model out, in two
    passes where a budget sizes the batches.  The passes address a source by nothing but the order
    it is reached in; what follows the definitions is that they reach the same sources in one order. *)
From stdpp Require Import strings.
From S2P Require Import Prelude Interval PlanIR PlanCommon PlanNodes ScanMap Joins Aggregates Validate ValidFacts Denote.
From S2P Require Import PlanSound Nullability Physical ExprTrans ScanMeta TransCommon TransAgg TransDistinct Translate TransFacts.
From S2P Require Import TransSamples Rebatch Memory MemFacts.
Open Scope nat_scope.

(** ** The knobs of a mode *)
Inductive BatchSizing := OneBatchPerLane | OneBatchPerRowGroup | Budgeted.
#[export] Instance BatchSizing_eq_dec : EqDecision BatchSizing.
Proof. solve_decision. Defined.

Record PlanKnobs :=
  { knob_target_partitions : nat; sizing : BatchSizing; budget : N; knob_small_table_bytes : N }.

Definition seed_batching (knobs : PlanKnobs) : Batching :=
  match sizing knobs with
  | OneBatchPerLane => Off
  | OneBatchPerRowGroup => PerRowGroup
  | Budgeted => Sized MIN_TARGET_BATCH_BYTES
  end.

Definition translator (knobs : PlanKnobs) (targets : list N) : Translator :=
  {| target_partitions := knob_target_partitions knobs; batching := seed_batching knobs; source_targets := targets;
     small_table_bytes := knob_small_table_bytes knobs |}.

Section Plan.
Context `{DataFusion}.

Definition checked (tree : GpuNode) (root : ExecutionPlan) (budget : N) : outcome (GpuNode * MemoryModel) :=
  answered (Some (validate tree)) ≫= fun _ =>
  answered (check_output_schema tree (plan_schema root)) ≫= fun _ =>
  model ← answered (estimate tree budget);
  mret (tree, model).

Definition plan (root : ExecutionPlan) (knobs : PlanKnobs) : outcome (GpuNode * MemoryModel) :=
  '(first, _) ← translate (translator knobs []) root 0;
  if negb (bool_decide (sizing knobs = Budgeted)) then checked first root (budget knobs)
  else
    answered (Some (validate first)) ≫= fun _ =>
    derived ← answered (estimate first (budget knobs));
    let targets := map target_batch_bytes (sources derived) in
    let expected := length targets in
    '(tree, reached) ← translate (translator knobs targets) root 0;
    if negb (reached =? expected)
    then Refused (Invalid "the sizing pass and the planning pass reached other sources: they no longer describe the same plan")
    else checked tree root (budget knobs).
End Plan.

Section Facts.
Context `{DataFusion}.

(** A load under the batch size asked of it. *)
Definition mapped_by (b : Batching) (load : GpuNode) : Prop :=
  match load with
  | GpuLoadParquet _ _ _ _ groups survivors _ =>
      match survivors with
      | [] => groups = [[]]
      | _ => exists n_, partition survivors n_ b = Ok groups
      end
  | _ => False
  end.

Lemma translations_agree knobs targets targets' root s :
  match translate (translator knobs targets) root s, translate (translator knobs targets') root s with
  | Good (tree, c), Good (tree', c') => alike tree tree' /\ c = c'
  | Refused e, Refused e' => e = e'
  | Panicked, Panicked | OutOfFuel, OutOfFuel => True
  | _, _ => False
  end.
Proof. by apply (translate_alike (translator knobs targets) (translator knobs targets')). Qed.

Lemma sized_by_target knobs targets k load : sizing knobs = Budgeted ->
  sized_at (translator knobs targets) k load -> mapped_by (Sized (default MIN_TARGET_BATCH_BYTES (targets !! k))) load.
Proof.
  intros Hs. unfold sized_at, mapped_by. destruct load; try done.
  assert (Hb : batching_at (translator knobs targets) k = Sized (default MIN_TARGET_BATCH_BYTES (targets !! k))).
  { unfold batching_at, translator, seed_batching. cbn. rewrite Hs. by destruct (targets !! k). }
  by rewrite Hb.
Qed.

(** The second pass of a budgeted plan, from the estimate of the first. *)
Lemma second_pass root knobs first reached derived : plan_ok root = true -> sizing knobs = Budgeted ->
  translate (translator knobs []) root 0 = Good (first, reached) ->
  estimate first (budget knobs) = Some (Ok derived) ->
  exists second, translate (translator knobs (map target_batch_bytes (sources derived))) root 0
                 = Good (second, length (sources derived))
    /\ alike first second
    /\ forall i source load, sources derived !! i = Some source -> loads second !! i = Some load ->
         mapped_by (Sized (target_batch_bytes source)) load
         /\ exists priced, tree_nodes (tree_of first) !! se_seq source = Some priced /\ alike priced load.
Proof.
  intros Hp Hb Ht He. set (targets := map target_batch_bytes (sources derived)).
  pose proof (translations_agree knobs [] targets root 0) as Ha. rewrite Ht in Ha.
  destruct (translate (translator knobs targets) root 0) as [[second reached']| | |] eqn:Ht2; try done.
  destruct Ha as [Ha <-].
  destruct (estimate_inv _ _ _ He) as (_ & _ & Hsrc).
  destruct (translate_ok (translator knobs targets) root 0 Hp _ _ Ht2) as (input & iv & _ & _ & Hr & Hsized).
  pose proof (alike_loads _ _ Ha) as Hloads.
  exists second. split; [|split; [done|]].
  - rewrite Hr, (Forall2_length _ _ _ Hsrc), (Forall2_length _ _ _ Hloads). done.
  - intros i source load Hi Hl. pose proof (Hsized i load Hl) as Hz. cbn in Hz. split.
    + apply (sized_by_target _ _ _ _ Hb) in Hz. unfold targets in Hz. by rewrite list_lookup_fmap, Hi in Hz.
    + destruct (Forall2_lookup_l _ _ _ _ _ Hsrc Hi) as (priced & Hpl & Hfit).
      destruct (Forall2_lookup_l _ _ _ _ _ Hloads Hpl) as (load' & Hl' & Hal). rewrite Hl in Hl'. injection Hl' as <-.
      exists priced. split; [apply (its_node _ _ _ Hfit)|done].
Qed.

(** C4: the two passes of a budgeted plan describe one plan.  Whatever DataFusion plans, once the
    first pass is translated and priced, the second reaches exactly as many sources as were priced,
    so the refusal for a mismatch never fires; its tree is the first but for the mappings of its
    loads; and its i-th load is cut into batches by the target derived for the i-th source, which was
    priced on that very load. *)
Theorem passes_describe_one_plan root knobs first reached derived : plan_ok root = true -> sizing knobs = Budgeted ->
  translate (translator knobs []) root 0 = Good (first, reached) ->
  estimate first (budget knobs) = Some (Ok derived) ->
  exists second, translate (translator knobs (map target_batch_bytes (sources derived))) root 0
                 = Good (second, length (sources derived))
    /\ without_mapping second = without_mapping first
    /\ forall i source load, sources derived !! i = Some source -> loads second !! i = Some load ->
         mapped_by (Sized (target_batch_bytes source)) load
         /\ exists priced, tree_nodes (tree_of first) !! se_seq source = Some priced
              /\ without_mapping priced = without_mapping load.
Proof.
  intros Hp Hb Ht He. destruct (second_pass root knobs first reached derived Hp Hb Ht He) as (second & H2 & Ha & Hl).
  exists second. split; [done|]. split; [done|exact Hl].
Qed.

(** What a plan that was answered is. *)
Lemma checked_inv tree root b tree' model : checked tree root b = Good (tree', model) ->
  tree' = tree /\ validate tree = Ok () /\ check_output_schema tree (plan_schema root) = Some (Ok ())
  /\ estimate tree b = Some (Ok model).
Proof.
  unfold checked. intros Hc. destruct (validate tree) as [[]|e]; [|discriminate Hc].
  destruct (check_output_schema tree (plan_schema root)) as [[[]|e]|]; [|discriminate Hc..].
  destruct (estimate tree b) as [[m|e]|]; [|discriminate Hc..]. by injection Hc as <- <-.
Qed.

Lemma plan_inv root knobs tree model : plan root knobs = Good (tree, model) ->
  exists t reached, translate t root 0 = Good (tree, reached) /\ checked tree root (budget knobs) = Good (tree, model).
Proof.
  unfold plan. intros Hpl. destruct (translate (translator knobs []) root 0) as [[first reached]|e| |] eqn:Ht; [|discriminate Hpl..].
  unfold mbind at 1, outcome_bind at 1 in Hpl. destruct (negb _).
  - destruct (checked_inv _ _ _ _ _ Hpl) as [-> _]. eauto.
  - destruct (validate first) as [[]|e]; [|discriminate Hpl].
    destruct (estimate first (budget knobs)) as [[d|e]|]; [|discriminate Hpl..].
    unfold answered, mbind, outcome_bind in Hpl. cbv beta iota zeta in Hpl.
    destruct (translate (translator knobs (map target_batch_bytes (sources d))) root 0) as [[second reached']|e| |] eqn:Ht2;
      [|discriminate Hpl..].
    destruct (negb _); [discriminate Hpl|]. destruct (checked_inv _ _ _ _ _ Hpl) as [-> _]. eauto.
Qed.

(** C2: a plan that is answered is sound.  Its root is an unload; every node below it is what its
    constructor makes of its inputs and has the lanes and batches it needs of them; it validates, so
    it is well formed throughout, it emits the columns the query asked for, by name and type; and its
    certain bytes are under the budget. *)
Theorem planned_tree_is_sound root knobs tree model : plan_ok root = true -> plan root knobs = Good (tree, model) ->
  (exists input interval, tree = new_unload input interval
    /\ (forall node, node ∈ descendants input -> built node /\ lanes_fit node)
    /\ (forall node, node ∈ descendants tree -> well_formed node)
    /\ same_columns (fields (input_schema input)) (plan_schema root))
  /\ (certain_accumulator_bytes model < budget knobs)%N.
Proof.
  intros Hp Hplan. destruct (plan_inv _ _ _ _ Hplan) as (t & reached & Ht & Hc).
  destruct (checked_inv _ _ _ _ _ Hc) as (_ & Hv & Hs & He).
  destruct (translate_ok t root 0 Hp _ _ Ht) as (input & interval & -> & Hg & _).
  split; [|by apply (estimate_inv _ _ _ He)]. exists input, interval. split; [done|]. split; [|split].
  - intros node Hn. unfold good in Hg. rewrite Forall_forall in Hg. by destruct (Hg node Hn).
  - intros node Hn. unfold validate in Hv. inv_ok. unfold PlanResult in *. apply validate_walk_ok in Hv.
    rewrite Forall_forall in Hv. by apply validate_at_ok, Hv.
  - unfold check_output_schema in Hs. cbn in Hs. unfold input_schema.
    destruct (kind_schema (kind input)) as [schema|]; [|done]. cbn in Hs. injection Hs as Hs. inv_ok.
    by apply same_columns_ok.
Qed.
End Facts.

(** ** A join of two scans, budgeted *)
#[local] Existing Instance demo_session.
Definition demo_knobs : PlanKnobs :=
  {| knob_target_partitions := 2; sizing := Budgeted; budget := 100000000; knob_small_table_bytes := 0 |}.

(** The first pass and its estimate, and what the plan answers. *)
Definition demo_first : GpuNode := Eval vm_compute in
  match translate (translator demo_knobs []) demo_join 0 with Good (tree, _) => tree | _ => inhabitant end.
Definition demo_derived : MemoryModel := Eval vm_compute in
  match estimate demo_first 100000000 with Some (Ok m) => m | _ => demo_model end.
Definition demo_planned : GpuNode * MemoryModel := Eval vm_compute in
  match plan demo_join demo_knobs with Good planned => planned | _ => (inhabitant, demo_model) end.

Lemma passes_describe_one_plan_witness :
  estimate demo_first 100000000 = Some (Ok demo_derived)
  /\ exists second, translate (translator demo_knobs (map target_batch_bytes (sources demo_derived))) demo_join 0
                    = Good (second, length (sources demo_derived))
    /\ without_mapping second = without_mapping demo_first
    /\ forall i source load, sources demo_derived !! i = Some source -> loads second !! i = Some load ->
         mapped_by (Sized (target_batch_bytes source)) load
         /\ exists priced, tree_nodes (tree_of demo_first) !! se_seq source = Some priced
              /\ without_mapping priced = without_mapping load.
Proof.
  split; [vm_compute; reflexivity|].
  apply (passes_describe_one_plan demo_join demo_knobs demo_first 2 demo_derived); vm_compute; reflexivity.
Defined.

Lemma planned_tree_is_sound_witness :
  plan demo_join demo_knobs = Good (demo_planned.1, demo_planned.2)
  /\ (exists input interval, demo_planned.1 = new_unload input interval
    /\ (forall node, node ∈ descendants input -> built node /\ lanes_fit node)
    /\ (forall node, node ∈ descendants demo_planned.1 -> well_formed node)
    /\ same_columns (fields (input_schema input)) (plan_schema demo_join))
  /\ (certain_accumulator_bytes demo_planned.2 < 100000000)%N.
Proof.
  split; [vm_compute; reflexivity|].
  apply (planned_tree_is_sound demo_join demo_knobs demo_planned.1 demo_planned.2); vm_compute; reflexivity.
Defined.

(** A fetch left on a [CoalesceBatchesExec] under the root limit's merge becomes a limit node feeding
    only the unload, and the canonical form refuses the plan. *)
Example root_limit_over_a_fetch_is_refused :
  plan demo_two_limits {| knob_target_partitions := 2; sizing := OneBatchPerLane; budget := 100000000;
                          knob_small_table_bytes := 0 |}
  = Refused (Invalid "GpuLimit: a limit feeding only the sink is not a node").
Proof. vm_compute. reflexivity. Qed.
