(* ===== verification/WireExpr.v ===== *)
(** * Expressions, literals and schemas on the wire

    [wire/expr_writer.rs] and [wire/serialize.rs]: what a plan's expressions, literals and columns
    become in the flat buffer the device reads.  A table is the record of its fields, as
    [flatbuffers/gpu_plan.fbs] declares them; an offset into the builder is the table written there.
    The last part reads an expression back: what the wire keeps of it is [carried]. *)
From stdpp Require Import strings.
From Stdlib Require Import QArith.
From S2P Require Import Prelude Interval PlanIR PlanCommon.
Open Scope nat_scope.

(** ** The buffer's tables *)
Inductive FbType :=
| FbNull | FbBoolean | FbInt8 | FbInt16 | FbInt32 | FbInt64 | FbUInt8 | FbUInt16 | FbUInt32 | FbUInt64
| FbFloat16 | FbFloat32 | FbFloat64 | FbUtf8 | FbLargeUtf8 | FbBinary | FbLargeBinary | FbDate32 | FbDate64
| FbDecimal128 | FbTimestampSecond | FbTimestampMillisecond | FbTimestampMicrosecond
| FbTimestampNanosecond | FbIntervalMonthDayNano.

(** A literal's value fields: the ones its writer sets, the others at their defaults. *)
Inductive FbValue :=
| Unset
| BoolVal (b : bool) | IntVal (z : Z) | UintVal (z : Z) | FloatVal (q : Q) | StringVal (s : string)
| DecimalVal (hi lo : Z)
| IntervalVal (months days nanos : Z).

Record FbScalar :=
  { fb_type : FbType; is_null : bool; fb_value : FbValue; decimal_precision : nat; decimal_scale : Z }.

Definition fb_scalar (t : FbType) (v : FbValue) : FbScalar :=
  {| fb_type := t; is_null := false; fb_value := v; decimal_precision := 0; decimal_scale := 0 |}.

Inductive FbExpr :=
| FbColumn (index : nat) (name : string)
| FbLiteral (value : FbScalar)
| FbBinaryE (left : FbExpr) (op : N) (right : FbExpr) (out_decimal_precision : nat) (out_decimal_scale : Z)
| FbUnaryE (op : N) (arg : FbExpr)
| FbCast (expr : FbExpr) (target_type : FbType) (precision : nat) (scale : Z)
| FbLike (expr pattern : FbExpr) (negated case_insensitive : bool)
| FbCase (expr : option FbExpr) (when_thens : list (FbExpr * FbExpr)) (else_expr : option FbExpr)
| FbFunction (name : string) (args : list FbExpr) (return_type : FbType) (precision : nat) (scale : Z)
    (fnullable : bool).

Record FbField :=
  { fb_name : string; fb_data_type : FbType; fb_nullable : bool; fb_precision : nat; fb_scale : Z }.

(** ** Literals and types *)
Definition wrap_i64 (z : Z) : Z := (z + 2 ^ 63) mod 2 ^ 64 - 2 ^ 63.

Definition convert_data_type (t : DataType) : result string FbType :=
  match t with
  | Null => Ok FbNull
  | Boolean => Ok FbBoolean
  | Int8 => Ok FbInt8
  | Int16 => Ok FbInt16
  | Int32 => Ok FbInt32
  | Int64 => Ok FbInt64
  | UInt8 => Ok FbUInt8
  | UInt16 => Ok FbUInt16
  | UInt32 => Ok FbUInt32
  | UInt64 => Ok FbUInt64
  | Float16 => Ok FbFloat16
  | Float32 => Ok FbFloat32
  | Float64 => Ok FbFloat64
  | Utf8 => Ok FbUtf8
  | LargeUtf8 => Ok FbLargeUtf8
  | Binary => Ok FbBinary
  | LargeBinary => Ok FbLargeBinary
  | Date32 => Ok FbDate32
  | Date64 => Ok FbDate64
  | Decimal128 _ _ => Ok FbDecimal128
  | Timestamp Second _ => Ok FbTimestampSecond
  | Timestamp Millisecond _ => Ok FbTimestampMillisecond
  | Timestamp Microsecond _ => Ok FbTimestampMicrosecond
  | Timestamp Nanosecond _ => Ok FbTimestampNanosecond
  | _ => Err "unsupported Arrow data type"%string
  end.

(** Precision and scale, or [(0, 0)], which the wire reads as no decimal. *)
Definition decimal_parts (t : DataType) : nat * Z :=
  match t with Decimal128 precision scale => (precision, scale) | _ => (0, 0%Z) end.

Definition set_interval (months days nanos : Z) : FbScalar :=
  fb_scalar FbIntervalMonthDayNano (IntervalVal months days nanos).

(** A literal of no value of its type is a typed NULL; the types' own widths keep every [as i64] here
    but a decimal's halves from wrapping. *)
Definition serialize_scalar_value (sv : ScalarValue) : result string FbScalar :=
  match scalar_type sv, scalar_value sv with
  | Null, _ => Ok (fb_scalar FbNull Unset)
  | Boolean, Some (DBool v) => Ok (fb_scalar FbBoolean (BoolVal v))
  | Int8, Some (DInt v) => Ok (fb_scalar FbInt8 (IntVal v))
  | Int16, Some (DInt v) => Ok (fb_scalar FbInt16 (IntVal v))
  | Int32, Some (DInt v) => Ok (fb_scalar FbInt32 (IntVal v))
  | Int64, Some (DInt v) => Ok (fb_scalar FbInt64 (IntVal v))
  | UInt8, Some (DInt v) => Ok (fb_scalar FbUInt8 (UintVal v))
  | UInt16, Some (DInt v) => Ok (fb_scalar FbUInt16 (UintVal v))
  | UInt32, Some (DInt v) => Ok (fb_scalar FbUInt32 (UintVal v))
  | UInt64, Some (DInt v) => Ok (fb_scalar FbUInt64 (UintVal v))
  | Float32, Some (DFloat v) => Ok (fb_scalar FbFloat32 (FloatVal v))
  | Float64, Some (DFloat v) => Ok (fb_scalar FbFloat64 (FloatVal v))
  | Utf8, Some (DStr s) | LargeUtf8, Some (DStr s) => Ok (fb_scalar FbUtf8 (StringVal s))
  | Date32, Some (DInt d) => Ok (fb_scalar FbDate32 (IntVal d))
  | Decimal128 prec scale, Some (DInt v) =>
      Ok {| fb_type := FbDecimal128; is_null := false;
            fb_value := DecimalVal (wrap_i64 (Z.shiftr v 64)) (v mod 2 ^ 64);
            decimal_precision := prec; decimal_scale := scale |}
  | IntervalOf MonthDayNano, Some (DMonthDayNano months days nanoseconds) =>
      Ok (set_interval months days nanoseconds)
  | IntervalOf YearMonth, Some (DMonths months) => Ok (set_interval months 0 0)
  | IntervalOf DayTime, Some (DDayTime days milliseconds) => Ok (set_interval 0 days (milliseconds * 1000000))
  | IntervalOf _, None =>
      Ok {| fb_type := FbIntervalMonthDayNano; is_null := true; fb_value := Unset;
            decimal_precision := 0; decimal_scale := 0 |}
  | t, None =>
      ft ← convert_data_type t;
      let '(prec, scale) := decimal_parts t in
      Ok {| fb_type := ft; is_null := true; fb_value := Unset; decimal_precision := prec; decimal_scale := scale |}
  | _, Some _ => Err "unsupported scalar value"%string
  end.

Definition data_type_on_wire (t : DataType) : PlanResult FbType :=
  map_err (fun why => Unsupported (why +:+ " (#249)")) (convert_data_type t).

Definition serialize_field (f : Field) : PlanResult FbField :=
  dt ← map_err (fun why => Unsupported ("column " +:+ field_name f +:+ ": " +:+ why +:+ " (#249)"))
         (convert_data_type (data_type f));
  let '(precision, scale) := decimal_parts (data_type f) in
  Ok {| fb_name := field_name f; fb_data_type := dt; fb_nullable := nullable f;
        fb_precision := precision; fb_scale := scale |}.

Definition serialize_schema (schema : list Field) : PlanResult (list FbField) := traverse serialize_field schema.

(** ** Expressions *)
(** The operators by their ordinals in the schema's enumerations. *)
Definition binary_op (op : BinaryOp) : N :=
  match op with
  | Eq_ => 0
  | NotEq => 1
  | Lt_ => 2
  | LtEq => 3
  | Gt_ => 4
  | GtEq => 5
  | Plus => 6
  | Minus => 7
  | Multiply => 8
  | Divide => 9
  | Modulo => 10
  | And => 11
  | Or => 12
  | BitwiseAnd => 13
  | BitwiseOr => 14
  | BitwiseXor => 15
  | BitwiseShiftLeft => 16
  | BitwiseShiftRight => 17
  | StringConcat => 18
  | IsDistinctFrom => 19
  | IsNotDistinctFrom => 20
  end%N.

Definition unary_op (op : UnaryOp) : N :=
  match op with Not => 0 | IsNull => 1 | IsNotNull => 2 | Negative => 3 | Sqrt => 4 end%N.

Definition is_interval (value : ScalarValue) : bool :=
  match scalar_type value with IntervalOf _ => true | _ => false end.

Definition literal_interval (e : Expr) : bool :=
  match e with Literal value => is_interval value | _ => false end.

Definition shifts_a_date_by_a_literal (l : Expr) (op : BinaryOp) (r : Expr) (out_type : DataType) :
    PlanResult bool :=
  let on_left := literal_interval l in
  let on_right := literal_interval r in
  if negb on_left && negb on_right then Ok false
  else
    let shifts_a_date :=
      match out_type with Date32 | Timestamp _ None => true | _ => false end
      && (bool_decide (op = Plus) || (bool_decide (op = Minus) && negb on_left)) in
    if shifts_a_date then Ok true
    else Err (Unsupported "an interval literal under an operator: the device runs only a date or naive timestamp ± interval (#249)").

Definition write_literal (value : ScalarValue) : PlanResult FbExpr :=
  scalar ← map_err (fun why => Unsupported (why +:+ " (#249)")) (serialize_scalar_value value);
  Ok (FbLiteral scalar).

(** [write] is [write_expr]. *)
Definition write_operand (write : Expr -> PlanResult FbExpr) (operand : Expr) (shifts : bool) : PlanResult FbExpr :=
  match operand with
  | Literal value => if shifts && is_interval value then write_literal value else write operand
  | _ => write operand
  end.

Fixpoint write_expr (e : Expr) : PlanResult FbExpr :=
  match e with
  | Column reference => Ok (FbColumn (index reference) (ref_name reference))
  | Literal value =>
      if is_interval value
      then Err (Unsupported "an interval literal outside a date or naive timestamp ± interval (#249)")
      else write_literal value
  | BinaryE l op r out_type =>
      shifts ← shifts_a_date_by_a_literal l op r out_type;
      l ← write_operand write_expr l shifts;
      r ← write_operand write_expr r shifts;
      let '(precision, scale) := decimal_parts out_type in
      Ok (FbBinaryE l (binary_op op) r precision scale)
  | UnaryE op arg => arg ← write_expr arg; Ok (FbUnaryE (unary_op op) arg)
  | Cast inner target =>
      inner ← write_expr inner;
      let '(precision, scale) := decimal_parts target in
      target_type ← data_type_on_wire target;
      Ok (FbCast inner target_type precision scale)
  | Like inner pattern negated case_insensitive =>
      inner ← write_expr inner;
      pattern ← write_expr pattern;
      Ok (FbLike inner pattern negated case_insensitive)
  | Case comparand when_then else_expr =>
      comparand ← match comparand with Some e => Some <$> write_expr e | None => Ok None end;
      pairs ← traverse (fun '(when_, then_) =>
                when_ ← write_expr when_;
                then_ ← write_expr then_;
                Ok (when_, then_)) when_then;
      otherwise ← match else_expr with Some e => Some <$> write_expr e | None => Ok None end;
      Ok (FbCase comparand pairs otherwise)
  | ScalarFunction name args return_type fnullable =>
      written ← traverse write_expr args;
      let '(precision, scale) := decimal_parts return_type in
      return_type ← data_type_on_wire return_type;
      Ok (FbFunction name written return_type precision scale fnullable)
  end.

(** ** Reading an expression back

    As [gpu_plan.fbs] documents the tables and [cpp/src/expr.cpp] reads them: an enumeration by its
    ordinal, a decimal's two halves as one 128-bit integer, a type with the precision beside it. *)
Definition binary_ops : list BinaryOp :=
  [Eq_; NotEq; Lt_; LtEq; Gt_; GtEq; Plus; Minus; Multiply; Divide; Modulo; And; Or; BitwiseAnd; BitwiseOr;
   BitwiseXor; BitwiseShiftLeft; BitwiseShiftRight; StringConcat; IsDistinctFrom; IsNotDistinctFrom].
Definition unary_ops : list UnaryOp := [Not; IsNull; IsNotNull; Negative; Sqrt].

Definition read_type (t : FbType) (precision : nat) (scale : Z) : DataType :=
  match t with
  | FbNull => Null
  | FbBoolean => Boolean
  | FbInt8 => Int8
  | FbInt16 => Int16
  | FbInt32 => Int32
  | FbInt64 => Int64
  | FbUInt8 => UInt8
  | FbUInt16 => UInt16
  | FbUInt32 => UInt32
  | FbUInt64 => UInt64
  | FbFloat16 => Float16
  | FbFloat32 => Float32
  | FbFloat64 => Float64
  | FbUtf8 => Utf8
  | FbLargeUtf8 => LargeUtf8
  | FbBinary => Binary
  | FbLargeBinary => LargeBinary
  | FbDate32 => Date32
  | FbDate64 => Date64
  | FbDecimal128 => Decimal128 precision scale
  | FbTimestampSecond => Timestamp Second None
  | FbTimestampMillisecond => Timestamp Millisecond None
  | FbTimestampMicrosecond => Timestamp Microsecond None
  | FbTimestampNanosecond => Timestamp Nanosecond None
  | FbIntervalMonthDayNano => IntervalOf MonthDayNano
  end.

Definition read_value (v : FbValue) : option Datum :=
  match v with
  | Unset => None
  | BoolVal b => Some (DBool b)
  | IntVal z | UintVal z => Some (DInt z)
  | FloatVal q => Some (DFloat q)
  | StringVal s => Some (DStr s)
  | DecimalVal hi lo => Some (DInt (Z.lor (Z.shiftl hi 64) lo))
  | IntervalVal months days nanos => Some (DMonthDayNano months days nanos)
  end.

Definition read_scalar (v : FbScalar) : ScalarValue :=
  {| scalar_type := read_type (fb_type v) (decimal_precision v) (decimal_scale v);
     scalar_value := if is_null v then None else read_value (fb_value v) |}.

Definition read_out_type (precision : nat) (scale : Z) : DataType :=
  match precision with 0 => Null | _ => Decimal128 precision scale end.

Fixpoint read_expr (e : FbExpr) : option Expr :=
  match e with
  | FbColumn i name => Some (expr_column i name)
  | FbLiteral v => Some (Literal (read_scalar v))
  | FbBinaryE l op r precision scale =>
      l ← read_expr l; op ← binary_ops !! N.to_nat op; r ← read_expr r;
      Some (BinaryE l op r (read_out_type precision scale))
  | FbUnaryE op a => op ← unary_ops !! N.to_nat op; a ← read_expr a; Some (UnaryE op a)
  | FbCast a t precision scale => a ← read_expr a; Some (Cast a (read_type t precision scale))
  | FbLike a pattern negated ci =>
      a ← read_expr a; pattern ← read_expr pattern; Some (Like a pattern negated ci)
  | FbCase c wts el =>
      c ← match c with Some c => Some <$> read_expr c | None => Some None end;
      wts ← mapM (fun '(w, t) => w ← read_expr w; t ← read_expr t; Some (w, t)) wts;
      el ← match el with Some el => Some <$> read_expr el | None => Some None end;
      Some (Case c wts el)
  | FbFunction name args t precision scale nb =>
      args ← mapM read_expr args; Some (ScalarFunction name args (read_type t precision scale) nb)
  end.

(** *** What the wire keeps: not a timestamp's zone, nor the width of a string literal's offsets, nor an
    interval's unit, nor the type of a binary that is no decimal. *)
Definition carried_type (t : DataType) : DataType :=
  match t with Timestamp u _ => Timestamp u None | other => other end.

Definition carried_out_type (t : DataType) : DataType :=
  match t with Decimal128 (S p) s => Decimal128 (S p) s | _ => Null end.

Definition carried_literal (sv : ScalarValue) : ScalarValue :=
  match scalar_type sv, scalar_value sv with
  | Null, _ => {| scalar_type := Null; scalar_value := None |}
  | LargeUtf8, Some v => {| scalar_type := Utf8; scalar_value := Some v |}
  | IntervalOf YearMonth, Some (DMonths months) =>
      {| scalar_type := IntervalOf MonthDayNano; scalar_value := Some (DMonthDayNano months 0 0) |}
  | IntervalOf DayTime, Some (DDayTime days milliseconds) =>
      {| scalar_type := IntervalOf MonthDayNano; scalar_value := Some (DMonthDayNano 0 days (milliseconds * 1000000)) |}
  | IntervalOf _, None => {| scalar_type := IntervalOf MonthDayNano; scalar_value := None |}
  | t, None => {| scalar_type := carried_type t; scalar_value := None |}
  | _, _ => sv
  end.

Fixpoint carried (e : Expr) : Expr :=
  match e with
  | Column c => Column c
  | Literal v => Literal (carried_literal v)
  | BinaryE l op r t => BinaryE (carried l) op (carried r) (carried_out_type t)
  | UnaryE op a => UnaryE op (carried a)
  | Cast a t => Cast (carried a) (carried_type t)
  | Like a pattern negated ci => Like (carried a) (carried pattern) negated ci
  | Case c wts el =>
      Case (carried <$> c) (map (fun '(w, t) => (carried w, carried t)) wts) (carried <$> el)
  | ScalarFunction name args t nb => ScalarFunction name (map carried args) (carried_type t) nb
  end.

(** A decimal literal is a 128-bit integer. *)
Definition literal_fits (sv : ScalarValue) : bool :=
  match scalar_type sv, scalar_value sv with
  | Decimal128 _ _, Some (DInt v) => (- 2 ^ 127 <=? v)%Z && (v <? 2 ^ 127)%Z
  | _, _ => true
  end.

Fixpoint literals_fit (e : Expr) : bool :=
  match e with
  | Column _ => true
  | Literal v => literal_fits v
  | BinaryE l _ r _ => literals_fit l && literals_fit r
  | UnaryE _ a | Cast a _ => literals_fit a
  | Like a pattern _ _ => literals_fit a && literals_fit pattern
  | Case c wts el =>
      match c with Some c => literals_fit c | None => true end
      && forallb (fun '(w, t) => literals_fit w && literals_fit t) wts
      && match el with Some el => literals_fit el | None => true end
  | ScalarFunction _ args _ _ => forallb literals_fit args
  end.

(** *** The parts *)
Lemma read_decimal v : (- 2 ^ 127 <= v < 2 ^ 127)%Z ->
  Z.lor (Z.shiftl (wrap_i64 (Z.shiftr v 64)) 64) (v mod 2 ^ 64) = v.
Proof.
  intros Hv. assert (Hs : wrap_i64 (Z.shiftr v 64) = Z.shiftr v 64).
  { unfold wrap_i64. rewrite Z.shiftr_div_pow2 by lia.
    assert (- 2 ^ 63 <= v / 2 ^ 64)%Z by (apply Z.div_le_lower_bound; lia).
    assert (v / 2 ^ 64 < 2 ^ 63)%Z by (apply Z.div_lt_upper_bound; lia).
    rewrite Z.mod_small; lia. }
  rewrite Hs. apply Z.bits_inj'. intros k Hk. rewrite Z.lor_spec, Z.shiftl_spec by lia.
  destruct (decide (k < 64)%Z).
  - rewrite (Z.testbit_neg_r _ (k - 64)), Z.mod_pow2_bits_low by lia. done.
  - rewrite Z.shiftr_spec, Z.mod_pow2_bits_high by lia. rewrite orb_false_r. f_equal. lia.
Qed.

Lemma read_binary_op op : binary_ops !! N.to_nat (binary_op op) = Some op.
Proof. by destruct op. Qed.
Lemma read_unary_op op : unary_ops !! N.to_nat (unary_op op) = Some op.
Proof. by destruct op. Qed.

Lemma read_type_of t w : convert_data_type t = Ok w ->
  read_type w (decimal_parts t).1 (decimal_parts t).2 = carried_type t.
Proof. destruct t; try destruct unit_; by intros [= <-]. Qed.

Lemma read_out_type_of t : read_out_type (decimal_parts t).1 (decimal_parts t).2 = carried_out_type t.
Proof. destruct t; try done. by destruct precision. Qed.

Lemma read_literal sv w : serialize_scalar_value sv = Ok w -> literal_fits sv = true ->
  read_scalar w = carried_literal sv.
Proof.
  destruct sv as [t v]. unfold literal_fits, read_scalar, carried_literal. cbn [scalar_type scalar_value].
  destruct v as [v|].
  - intros Hw Hf. destruct t, v; try discriminate Hw; try destruct unit_; try discriminate Hw;
      injection Hw as <-; try done.
    cbn. do 3 f_equal. apply read_decimal. apply andb_true_iff in Hf as [?%Z.leb_le ?%Z.ltb_lt]. lia.
  - intros Hw _. destruct t; try destruct unit_; try discriminate Hw; by injection Hw as <-.
Qed.

Lemma written_literal v w : write_literal v = Ok w -> literal_fits v = true ->
  read_expr w = Some (Literal (carried_literal v)).
Proof.
  unfold write_literal. intros Hw Hf. destruct (serialize_scalar_value v) as [s|why] eqn:E; [|discriminate Hw].
  injection Hw as <-. cbn. do 2 f_equal. by apply read_literal.
Qed.

Lemma data_type_on_wire_ok t w : data_type_on_wire t = Ok w -> convert_data_type t = Ok w.
Proof. unfold data_type_on_wire. destruct (convert_data_type t); by intros [= <-]. Qed.

(** *** The whole expression *)
Definition survives (e : Expr) : Prop :=
  forall w, write_expr e = Ok w -> literals_fit e = true -> read_expr w = Some (carried e).

Lemma written_operand e shifts w : survives e -> write_operand write_expr e shifts = Ok w ->
  literals_fit e = true -> read_expr w = Some (carried e).
Proof.
  intros Hs Hw Hf. destruct e as [| v | | | | | |]; try by apply Hs.
  cbn [write_operand] in Hw. destruct (shifts && is_interval v); [by apply written_literal|by apply Hs].
Qed.

Lemma survives_list es ws : Forall survives es -> traverse write_expr es = Ok ws ->
  forallb literals_fit es = true -> mapM read_expr ws = Some (map carried es).
Proof.
  intros Hs Hw Hf. apply traverse_ok in Hw. revert Hf.
  induction Hw as [|e w es ws Hw _ IH]; intros Hf; [done|]. cbn in Hf. apply andb_true_iff in Hf as [Hf Hfs].
  inversion Hs as [|? ? He Hes]; subst. cbn. rewrite (He w Hw Hf). cbn. by rewrite (IH Hes Hfs).
Qed.

Lemma survives_pairs wts ws : Forall (fun '(w, t) => survives w /\ survives t) wts ->
  traverse (fun '(w, t) => w ← write_expr w; t ← write_expr t; Ok (w, t)) wts = Ok ws ->
  forallb (fun '(w, t) => literals_fit w && literals_fit t) wts = true ->
  mapM (fun '(w, t) => w ← read_expr w; t ← read_expr t; Some (w, t)) ws
  = Some (map (fun '(w, t) => (carried w, carried t)) wts).
Proof.
  intros Hs Hw Hf. apply traverse_ok in Hw. revert Hf.
  induction Hw as [|[a b] [a' b'] wts ws Hw _ IH]; intros Hf; [done|].
  cbn in Hf. apply andb_true_iff in Hf as [[Ha Hb]%andb_true_iff Hfs].
  inversion Hs as [|? ? Hab Hes]; subst. destruct Hab as [Hsa Hsb].
  apply bind_ok in Hw as (? & Hwa & Hw). apply bind_ok in Hw as (? & Hwb & [= -> ->]).
  cbn. rewrite (Hsa _ Hwa Ha). cbn. rewrite (Hsb _ Hwb Hb). cbn. by rewrite (IH Hes Hfs).
Qed.

Lemma survives_option c w : (forall e, c = Some e -> survives e) ->
  match c with Some e => Some <$> write_expr e | None => Ok None end = Ok w ->
  match c with Some e => literals_fit e | None => true end = true ->
  match w with Some w => Some <$> read_expr w | None => Some None end = Some (carried <$> c).
Proof.
  intros Hs Hw Hf. destruct c as [e|]; [|by injection Hw as <-].
  destruct (write_expr e) as [x|] eqn:E; [|discriminate Hw]. injection Hw as <-. cbn.
  by rewrite (Hs e eq_refl x E Hf).
Qed.

Lemma expr_survives e : survives e.
Proof.
  revert e. fix IH 1. intros [c|v|l op r t|op a|a t|a p ng ci|c wts el|f args t nb] w Hw Hf; cbn [write_expr] in Hw.
  - injection Hw as <-. by destruct c.
  - destruct (is_interval v); [discriminate Hw|]. by apply written_literal.
  - cbn in Hf. apply andb_true_iff in Hf as [Hl Hr].
    apply bind_ok in Hw as (sh & _ & Hw). apply bind_ok in Hw as (l' & Hwl & Hw). apply bind_ok in Hw as (r' & Hwr & Hw).
    pose proof (read_out_type_of t) as Ht. destruct (decimal_parts t) as [p s]. injection Hw as <-. cbn [read_expr].
    rewrite (written_operand l sh l' (IH l) Hwl Hl). cbn [mbind option_bind]. rewrite read_binary_op. cbn [mbind option_bind].
    rewrite (written_operand r sh r' (IH r) Hwr Hr). cbn. by rewrite <- Ht.
  - cbn in Hf. apply bind_ok in Hw as (a' & Hwa & [= <-]). cbn [read_expr]. rewrite read_unary_op.
    cbn [mbind option_bind]. by rewrite (IH a a' Hwa Hf).
  - cbn in Hf. apply bind_ok in Hw as (a' & Hwa & Hw).
    pose proof (read_type_of t) as Ht. destruct (decimal_parts t) as [p s].
    apply bind_ok in Hw as (w' & Hc & [= <-]). apply data_type_on_wire_ok in Hc. cbn [read_expr].
    rewrite (IH a a' Hwa Hf). cbn. by rewrite <- (Ht w' Hc).
  - cbn in Hf. apply andb_true_iff in Hf as [Ha Hp].
    apply bind_ok in Hw as (a' & Hwa & Hw). apply bind_ok in Hw as (p' & Hwp & [= <-]). cbn [read_expr].
    rewrite (IH a a' Hwa Ha). cbn [mbind option_bind]. by rewrite (IH p p' Hwp Hp).
  - cbn in Hf. apply andb_true_iff in Hf as [[Hfc Hfw]%andb_true_iff Hfe].
    apply bind_ok in Hw as (c' & Hc & Hw). apply bind_ok in Hw as (ws & Hws & Hw).
    apply bind_ok in Hw as (el' & Hel & [= <-]). cbn [read_expr].
    rewrite (survives_option c c'); [|by destruct c as [e|]; intros ? [= <-]; apply IH|done..].
    cbn [mbind option_bind]. rewrite (survives_pairs wts ws); [|clear -IH|done..].
    2: { induction wts as [|[x y] wts IHw]; constructor; [split; apply IH|exact IHw]. }
    cbn [mbind option_bind].
    by rewrite (survives_option el el'); [|by destruct el as [e|]; intros ? [= <-]; apply IH|done..].
  - cbn in Hf. apply bind_ok in Hw as (ws & Hws & Hw).
    pose proof (read_type_of t) as Ht. destruct (decimal_parts t) as [p s].
    apply bind_ok in Hw as (w' & Hc & [= <-]). apply data_type_on_wire_ok in Hc. cbn [read_expr].
    rewrite (survives_list args ws); [|clear -IH|done..].
    2: { induction args as [|x args IHa]; constructor; [apply IH|exact IHa]. }
    cbn. by rewrite <- (Ht w' Hc).
Qed.

(** C20: an expression that is written reads back as itself but for what the wire does not carry.  Every
    operator, column, function and CASE arm comes back in place; a literal comes back with its value, a
    128-bit decimal reassembled from its two 64-bit halves with its sign, a NULL as a NULL of its type;
    a cast and a call come back with their types, a decimal's precision and scale included. *)
Theorem written_expression_reads_back e w : write_expr e = Ok w -> literals_fit e = true ->
  read_expr w = Some (carried e).
Proof. apply expr_survives. Qed.

(** [case when x < -1.00 then cast(x as decimal(38, 2)) end] *)
Definition demo_written : Expr :=
  Case None
    [(BinaryE (expr_column 0 "x") Lt_
        (Literal {| scalar_type := Decimal128 3 2; scalar_value := Some (DInt (-100)) |}) Boolean,
      Cast (expr_column 0 "x") (Decimal128 38 2))] None.

Lemma written_expression_reads_back_witness :
  exists w, write_expr demo_written = Ok w /\ read_expr w = Some (carried demo_written).
Proof.
  eexists. split; [vm_compute; reflexivity|]. apply written_expression_reads_back; vm_compute; reflexivity.
Defined.

(** A decimal below zero crosses as an all-ones high half. *)
Example negative_decimal_halves :
  serialize_scalar_value {| scalar_type := Decimal128 3 2; scalar_value := Some (DInt (-100)) |}
  = Ok {| fb_type := FbDecimal128; is_null := false; fb_value := DecimalVal (-1) (2 ^ 64 - 100);
          decimal_precision := 3; decimal_scale := 2 |}.
Proof. reflexivity. Qed.
