(* ===== verification/Wire.v ===== *)
(** * The recipe plan's vocabulary and its buffer

    [wire/mod.rs], [wire/node_writer.rs], [wire/aggregate_writer.rs], [wire/join.rs] (the payload) and
    [wire/read.rs]: the calls a node makes of the device, the flat buffer's nodes and their payloads,
    and the node a sequence number addresses.  [WireNode] is [PlanNode] of [flatbuffers/gpu_plan.fbs],
    one constructor per member of its union with its children last; a window's expressions are left
    out, which no writer makes.  The node kinds and the symbols are those of Executor, where a call's
    statistics name them. *)
From stdpp Require Import strings.
From S2P Require Import Prelude Interval PlanIR PlanCommon PlanNodes Executor Joins Aggregates TransCommon Pipeline WireExpr.
Open Scope nat_scope.

(** ** The vocabulary *)
Definition Seq := nat.

Inductive CallInput := IBatch | ILaneBatches | IAllLanes | IPriorOutput | IRowGroups | IRowRange.
#[export] Instance CallInput_eq_dec : EqDecision CallInput.
Proof. solve_decision. Defined.

Inductive CallPattern :=
| PerBatch | AtJoinBuild | PerProbeBatch | AtDone | AtDoneIfNothingOut | PerCompaction
| PerStraddlingBatch | PerHandle.
#[export] Instance CallPattern_eq_dec : EqDecision CallPattern.
Proof. solve_decision. Defined.

Record Call :=
  { symbol : AbiSymbol; target : option (Seq * FbKind); inputs : list CallInput; when_ : CallPattern }.

Definition call_seq (seq : Seq) (k : FbKind) (inputs : list CallInput) (when_ : CallPattern) : Call :=
  {| symbol := match k with KScan => ExecuteScanRowGroups | _ => ExecuteNode end;
     target := Some (seq, k); inputs := inputs; when_ := when_ |}.

(** [None] is the [unreachable!] of a pattern a session is not called under. *)
Definition call_join (seq : Seq) (when_ : CallPattern) : option Call :=
  symbol ← match when_ with
           | AtJoinBuild => Some JoinBuild
           | PerProbeBatch => Some JoinProbe
           | AtDone => Some JoinFinish
           | _ => None
           end;
  Some {| symbol := symbol; target := Some (seq, KJoin); inputs := []; when_ := when_ |}.

Definition call_bare (symbol : AbiSymbol) (inputs : list CallInput) (when_ : CallPattern) : Call :=
  {| symbol := symbol; target := None; inputs := inputs; when_ := when_ |}.

Definition Recipe := list Call.

(** [Recipe::seqs]. *)
Definition seqs (recipe : Recipe) : list Seq := omap (fun call => fst <$> target call) recipe.

Definition calls_under (recipe : Recipe) (w : CallPattern) : Recipe :=
  filter (fun call => when_ call = w) recipe.

(** ** The buffer's nodes *)
Inductive AggregateModeOnWire := ModePartial | ModeMerge.

Record FbAggregateFunc := { ff_name : string; ff_args : list FbExpr; ff_state_names : list string; ff_ddof : Z }.

Record FbSortExpr := { fb_sort_expr : FbExpr; fb_asc : bool; fb_nulls_first : bool }.

Inductive WireNode :=
| CudfScan (file_paths : list string) (file_schema : option (list FbField)) (rows_only : bool)
| CudfFilter (predicate : FbExpr) (projection : option (list nat)) (input : WireNode)
| CudfProject (exprs : list FbExpr) (aliases : list string) (input : WireNode)
| CudfAggregate (mode : AggregateModeOnWire) (group_exprs : list FbExpr) (group_names : list string)
    (aggr_funcs : list FbAggregateFunc) (null_exprs : list FbExpr) (null_names : list string)
    (sets : list (list bool)) (aggr_input_schema : list FbField) (input : WireNode)
| CudfSort (exprs : list FbSortExpr) (fetch : Z) (preserve_partitioning : bool) (input : WireNode)
| CudfCoalesceBatches (target_batch_size : N) (input : WireNode)
| CudfCoalescePartitions (input : WireNode)
| CudfRepartition (num_partitions : nat) (hash_exprs : list FbExpr) (input : WireNode)
| CudfSortPreservingMerge (exprs : list FbSortExpr) (fetch : Z) (input : WireNode)
| CudfUnion (interleave : bool) (inputs : list WireNode)
| CudfLimit (skip : N) (fetch : Z) (input : WireNode)
| CudfWindow (input : WireNode)
| CudfJoin (join_type : JoinType) (keys : list (FbExpr * FbExpr)) (filter : option FbExpr)
    (filter_columns : option (list (nat * JoinSide))) (null_equals_null : bool)
    (build_schema probe_schema : list FbField) (projection : option (list nat)) (chunk_bytes : N)
| CudfUnnamed (tag : nat).

(** The union's tags. *)
Inductive PlanNodeKind :=
| TScan | TFilter | TProject | TAggregate | TSort | TCoalesceBatches | TCoalescePartitions | TRepartition
| TSortPreservingMerge | TUnion | TLimit | TWindow | TJoin | TUnnamed (tag : nat).
#[export] Instance PlanNodeKind_eq_dec : EqDecision PlanNodeKind.
Proof. solve_decision. Defined.

Definition node_type (node : WireNode) : PlanNodeKind :=
  match node with
  | CudfScan _ _ _ => TScan
  | CudfFilter _ _ _ => TFilter
  | CudfProject _ _ _ => TProject
  | CudfAggregate _ _ _ _ _ _ _ _ _ => TAggregate
  | CudfSort _ _ _ _ => TSort
  | CudfCoalesceBatches _ _ => TCoalesceBatches
  | CudfCoalescePartitions _ => TCoalescePartitions
  | CudfRepartition _ _ _ => TRepartition
  | CudfSortPreservingMerge _ _ _ => TSortPreservingMerge
  | CudfUnion _ _ => TUnion
  | CudfLimit _ _ _ => TLimit
  | CudfWindow _ => TWindow
  | CudfJoin _ _ _ _ _ _ _ _ _ => TJoin
  | CudfUnnamed tag => TUnnamed tag
  end.

Definition wire_kind (k : FbKind) : PlanNodeKind :=
  match k with
  | KScan => TScan
  | KFilter => TFilter
  | KProject _ | KPlainProject => TProject
  | KAggregate _ => TAggregate
  | KSort => TSort
  | KSortPreservingMerge => TSortPreservingMerge
  | KCoalescePartitions => TCoalescePartitions
  | KRepartition _ => TRepartition
  | KJoin => TJoin
  end.

(** [fb::JoinLimits::DefaultChunkBytes]. *)
Definition DEFAULT_CHUNK_BYTES : N := 1073741824.

Definition join_scratch_bytes (knobs : PlanKnobs) : N :=
  match sizing knobs with
  | Budgeted => N.min (budget knobs / 16) DEFAULT_CHUNK_BYTES
  | OneBatchPerLane | OneBatchPerRowGroup => DEFAULT_CHUNK_BYTES
  end.

(** ** Payloads *)
(** [usize as i64]. *)
Definition fetch_of (fetch : option N) : Z :=
  match fetch with Some rows => wrap_i64 (Z.of_N rows) | None => -1 end.

Definition field_at (schema : Schema) (ordinal : nat) : outcome Field := expected (fields schema !! ordinal).

Definition column_ref (schema : Schema) (ordinal : nat) : outcome FbExpr :=
  field ← field_at schema ordinal;
  match write_expr (expr_column ordinal (field_name field)) with Ok e => Good e | Err _ => Panicked end.

Definition sort_keys (keys : list ColumnOrder) (input : Schema) : outcome (list FbSortExpr) :=
  map_outcome (fun key => e ← column_ref input (column key);
                 Good {| fb_sort_expr := e; fb_asc := ascending key; fb_nulls_first := nulls_first key |}) keys.

(** The child a payload takes, [kids[0]]. *)
Definition kid (kids : list WireNode) : outcome WireNode := expected (kids !! 0).

Definition scan_payload (file : string) (projection : list nat) (output : Schema) : outcome WireNode :=
  schema ← written (serialize_schema (fields output));
  Good (CudfScan [file] (Some schema) (rows_only projection)).

Definition filter_payload (predicate : Expr) (projection : option (list nat)) (kids : list WireNode) :
    outcome WireNode :=
  predicate ← written (write_expr predicate);
  input ← kid kids;
  Good (CudfFilter predicate projection input).

Definition project_payload (exprs : list FbExpr) (names : list string) (kids : list WireNode) :
    outcome WireNode :=
  input ← kid kids; Good (CudfProject exprs names input).

Definition plain_project_payload (exprs : list NamedExpr) (kids : list WireNode) : outcome WireNode :=
  es ← written (traverse (fun named => write_expr (expr named)) exprs);
  project_payload es (map expr_name exprs) kids.

Definition sort_payload (keys : list ColumnOrder) (fetch : Z) (input : Schema) (kids : list WireNode) :
    outcome WireNode :=
  exprs ← sort_keys keys input; i ← kid kids; Good (CudfSort exprs fetch true i).

Definition merge_sorted_payload (keys : list ColumnOrder) (fetch : option N) (input : Schema)
    (kids : list WireNode) : outcome WireNode :=
  exprs ← sort_keys keys input; i ← kid kids; Good (CudfSortPreservingMerge exprs (fetch_of fetch) i).

Definition coalesce_partitions_payload (kids : list WireNode) : outcome WireNode :=
  i ← kid kids; Good (CudfCoalescePartitions i).

Definition repartition_payload (hash_keys : list nat) (input : Schema) (lanes : nat) (kids : list WireNode) :
    outcome WireNode :=
  keys ← map_outcome (column_ref input) hash_keys; i ← kid kids; Good (CudfRepartition lanes keys i).

(** *** Aggregates *)
Inductive Phase := InitPhase | MergePhase.

Definition group_name_at (state_ : Schema) (position : nat) : outcome string :=
  field ← field_at state_ position; Good (field_name field).

Definition named_func (func : StateFunc) : outcome FbAggregateFunc :=
  args ← written (traverse write_expr (call_args (sf_call func)));
  if sf_ddof func <=? 127
  then Good {| ff_name := sf_name func; ff_args := args; ff_state_names := sf_state_names func;
               ff_ddof := Z.of_nat (sf_ddof func) |}
  else Refused (Invalid (sf_name func +:+ ": its ddof does not fit the wire's int8")).

Definition wire_state_funcs (body : AggregateBody) (state_ : Schema) : outcome (list FbAggregateFunc) :=
  declared ← written (state_funcs body state_); map_outcome named_func declared.

Definition aggregate_payload (body : AggregateBody) (phase : Phase) (input state_ : Schema)
    (kids : list WireNode) : outcome WireNode :=
  group_exprs ← written (traverse write_expr (group_by body));
  group_names ← map_outcome (group_name_at state_) (seq 0 (length (group_by body)));
  nulls ← written (traverse write_expr (null_exprs body));
  null_names ← map_outcome (group_name_at state_) (seq 0 (length nulls));
  funcs ← wire_state_funcs body state_;
  input_schema ← written (serialize_schema (fields input));
  i ← kid kids;
  Good (CudfAggregate match phase with InitPhase => ModePartial | MergePhase => ModeMerge end
          group_exprs group_names funcs nulls null_names (grouping_sets body) input_schema i).

Definition finalize_payload (body : AggregateBody) (state_ output : Schema) (kids : list WireNode) :
    outcome WireNode :=
  columns ← answered (finalize_columns body state_ output);
  exprs ← written (traverse (fun column => write_expr (expr column)) columns);
  project_payload exprs (map expr_name columns) kids.

(** *** Joins: the three plan nodes as the one thing the wire writes for each *)
Record JoinNode :=
  { jn_type : JoinType; jn_keys : list (nat * nat); jn_filter : option Expr;
    jn_filter_columns : list JoinFilterColumn; jn_null_equals_null : bool; jn_projection : option (list nat) }.

Definition join_node (node : GpuNode) : option JoinNode :=
  match node with
  | GpuHashJoin _ jt keys filter columns null_equals_null projection _ _ =>
      Some {| jn_type := jt; jn_keys := keys; jn_filter := filter; jn_filter_columns := columns;
              jn_null_equals_null := null_equals_null; jn_projection := projection |}
  | GpuNestedLoopJoin _ jt filter columns projection _ _ =>
      Some {| jn_type := jt; jn_keys := []; jn_filter := Some filter; jn_filter_columns := columns;
              jn_null_equals_null := false; jn_projection := projection |}
  | GpuCrossJoin _ projection _ _ =>
      Some {| jn_type := Inner; jn_keys := []; jn_filter := None; jn_filter_columns := [];
              jn_null_equals_null := false; jn_projection := projection |}
  | _ => None
  end.

Definition serialize_join_schema (schema : list Field) (side : string) : PlanResult (list FbField) :=
  map_err (fun why => match why with
                      | Unsupported what => Unsupported ("a join's " +:+ side +:+ " side: " +:+ what)
                      | Invalid what => Invalid ("a join's " +:+ side +:+ " side: " +:+ what)
                      end) (serialize_schema schema).

Definition join_column (schema : Schema) (ordinal : nat) : outcome FbExpr :=
  field ← field_at schema ordinal; written (write_expr (expr_column ordinal (field_name field))).

Definition join_payload (node : JoinNode) (build probe : Schema) (chunk_bytes : N) : outcome WireNode :=
  keys ← map_outcome (fun '(build_ordinal, probe_ordinal) =>
           l ← join_column build build_ordinal;
           r ← join_column probe probe_ordinal;
           Good (l, r)) (jn_keys node);
  filter ← match jn_filter node with
           | Some e => e ← written (write_expr e); Good (Some e)
           | None => Good None
           end;
  let filter_columns := match jn_filter_columns node with
                        | [] => None
                        | columns => Some (map (fun c => (filter_index c, side c)) columns)
                        end in
  build_schema ← written (serialize_join_schema (fields build) "build");
  probe_schema ← written (serialize_join_schema (fields probe) "probe");
  Good (CudfJoin (jn_type node) keys filter filter_columns (jn_null_equals_null node) build_schema
          probe_schema (jn_projection node) chunk_bytes).

(** ** Reading the buffer *)
Definition children_on_wire (node : WireNode) : PlanResult (list WireNode) :=
  match node with
  | CudfScan _ _ _ => Ok []
  | CudfFilter _ _ i | CudfProject _ _ i | CudfAggregate _ _ _ _ _ _ _ _ i | CudfSort _ _ _ i
  | CudfCoalesceBatches _ i | CudfCoalescePartitions i | CudfRepartition _ _ i
  | CudfSortPreservingMerge _ _ i | CudfLimit _ _ i | CudfWindow i => Ok [i]
  | CudfJoin _ _ _ _ _ _ _ _ _ => Ok []
  | CudfUnion _ inputs => Ok inputs
  | CudfUnnamed _ => Err (Invalid "the recipe plan holds a node kind the child walk does not know")
  end.

Definition wire_children (node : WireNode) : list WireNode :=
  match children_on_wire node with Ok kids => kids | Err _ => [] end.

(** Recursion over the buffer, as [fold_node] over a plan. *)
Fixpoint fold_wire {A} (f : WireNode -> list A -> A) (node : WireNode) : A :=
  match node with
  | CudfScan _ _ _ | CudfJoin _ _ _ _ _ _ _ _ _ | CudfUnnamed _ => f node []
  | CudfFilter _ _ i | CudfProject _ _ i | CudfAggregate _ _ _ _ _ _ _ _ i | CudfSort _ _ _ i
  | CudfCoalesceBatches _ i | CudfCoalescePartitions i | CudfRepartition _ _ i
  | CudfSortPreservingMerge _ _ i | CudfLimit _ _ i | CudfWindow i => f node [fold_wire f i]
  | CudfUnion _ inputs => f node (map (fold_wire f) inputs)
  end.

Lemma fold_wire_eq {A} (f : WireNode -> list A -> A) node :
  fold_wire f node = f node (map (fold_wire f) (wire_children node)).
Proof. by destruct node. Qed.

(** The loop over the children: [Some] stops it. *)
Fixpoint first_found (kids : list (nat -> PlanResult (option WireNode * nat))) (position : nat) :
    PlanResult (option WireNode * nat) :=
  match kids with
  | [] => Ok (None, position)
  | child :: kids =>
      '(found, position) ← child position;
      match found with Some node => Ok (Some node, position) | None => first_found kids position end
  end.

Definition find : WireNode -> Seq -> nat -> PlanResult (option WireNode * nat) := fun node seq =>
  fold_wire (fun node kids position =>
    _ ← children_on_wire node;
    '(found, position) ← first_found kids position;
    match found with
    | Some node => Ok (Some node, position)
    | None => Ok (if position =? seq then Some node else None, S position)
    end) node.

Definition node_at (root : option WireNode) (seq : Seq) : PlanResult (option WireNode) :=
  match root with
  | None => Ok None
  | Some root => fst <$> find root seq 0
  end.

Definition depth_of : WireNode -> PlanResult nat :=
  fold_wire (fun node kids =>
    _ ← children_on_wire node;
    depths ← traverse id kids;
    Ok (S (foldr max 0 depths))).

(** ** The recipe plan *)
Record RecipePlan :=
  { recipes : list (option Recipe); buffer : WireNode; wire_nodes : Seq; rp_join_scratch_bytes : N }.

(** [RecipePlan::get]. *)
Definition recipe_of (plan : RecipePlan) (node : nat) : option Recipe :=
  match recipes plan !! node with Some recipe => recipe | None => None end.

(** [verify] is flatbuffers' verifier over the bytes. *)
Definition check_seq_kinds (verify : WireNode -> result string ()) (plan : RecipePlan) : PlanResult () :=
  map_err (fun e => Invalid ("the recipe plan does not verify: " +:+ e)) (verify (buffer plan)) ≫= fun _ =>
  for_each (fun node =>
    match recipe_of plan node with
    | None => Ok ()
    | Some recipe =>
        for_each (fun call =>
          match target call with
          | None => Ok ()
          | Some (seq, k) =>
              at_ ← node_at (Some (buffer plan)) seq;
              match at_ with
              | None => Err (Invalid "a seq is published and the plan has no node there")
              | Some written => ensure (bool_decide (node_type written = wire_kind k))
                                  (Invalid "a seq is published as one kind and holds another")
              end
          end) recipe
    end) (seq 0 (length (recipes plan))).

Definition depth (verify : WireNode -> result string ()) (plan : RecipePlan) : PlanResult nat :=
  map_err (fun e => Invalid ("the recipe plan does not verify: " +:+ e)) (verify (buffer plan)) ≫= fun _ =>
  depth_of (buffer plan).
