(* ===== verification/Attach.v ===== *)
(** * Writing the recipe plan

    [wire/writer.rs], [wire/attach.rs] and the session of [wire/join.rs]: one walk of the finished tree
    that builds the buffer's nodes, numbers them as it makes them and records the calls each plan node
    makes.  An offset in the writer's pool is the node it was made for. *)
From stdpp Require Import strings pretty.
From S2P Require Import Prelude Interval PlanIR PlanCommon PlanNodes Executor Joins Aggregates TransCommon Pipeline WireExpr Wire.
Open Scope nat_scope.

(** ** The writer *)
Record Writer := { pool : list WireNode; next_seq : Seq; scratch_bytes : N }.

Definition with_join_scratch (bytes : N) : Writer := {| pool := []; next_seq := 0; scratch_bytes := bytes |}.

Definition WriterM (A : Type) : Type := Writer -> outcome (A * Writer).
#[export] Instance WriterM_ret : MRet WriterM := fun _ x w => Good (x, w).
#[export] Instance WriterM_bind : MBind WriterM := fun _ _ k m w =>
  match m w with
  | Good (x, w) => k x w
  | Refused e => Refused e
  | Panicked => Panicked
  | OutOfFuel => OutOfFuel
  end.

Definition at_seq (why : PlanError) (seq : Seq) : PlanError :=
  match why with
  | Unsupported what => Unsupported (what +:+ " at #" +:+ pretty seq)
  | Invalid what => Invalid (what +:+ " at #" +:+ pretty seq)
  end.

Definition push (node : WireNode) (w : Writer) : Seq * Writer :=
  (next_seq w, {| pool := pool w ++ [node]; next_seq := S (next_seq w); scratch_bytes := scratch_bytes w |}).

Definition scan_of_nothing : WireNode := CudfScan [] None false.

(** A node's slot held open by a scan of nothing, numbered and not left in the pool. *)
Definition stub (w : Writer) : WireNode * Writer :=
  let w := (push scan_of_nothing w).2 in
  (scan_of_nothing, {| pool := removelast (pool w); next_seq := next_seq w; scratch_bytes := scratch_bytes w |}).

Fixpoint stubs (k : nat) (w : Writer) : list WireNode * Writer :=
  match k with
  | 0 => ([], w)
  | S k => let '(node, w) := stub w in let '(nodes, w) := stubs k w in (node :: nodes, w)
  end.

Definition writer_take (arity : nat) (w : Writer) : list WireNode * Writer :=
  let from_pool := Nat.min arity (length (pool w)) in
  let kept := length (pool w) - from_pool in
  let taken := drop kept (pool w) in
  let '(more, w) := stubs (arity - from_pool)
                      {| pool := take kept (pool w); next_seq := next_seq w; scratch_bytes := scratch_bytes w |} in
  (taken ++ more, w).

Definition leaf : WriterM Seq := fun w => Good (push scan_of_nothing w).

Definition writer_node (arity : nat) (build : list WireNode -> outcome WireNode) : WriterM Seq := fun w =>
  let '(taken, w) := writer_take arity w in
  let seq := next_seq w in
  match build taken with
  | Good payload => Good (push payload w)
  | Refused why => Refused (at_seq why seq)
  | Panicked => Panicked
  | OutOfFuel => OutOfFuel
  end.

Definition mark (w : Writer) : nat := length (pool w).

Definition reduce (mark : nat) (w : Writer) : Writer :=
  if length (pool w) - mark <=? 1 then w
  else
    let inputs := drop mark (pool w) in
    (push (CudfUnion false inputs)
       {| pool := take mark (pool w); next_seq := next_seq w; scratch_bytes := scratch_bytes w |}).2.

Definition writer_finish (w : Writer) : PlanResult (WireNode * Seq) :=
  match pool w with
  | [root] => Ok (root, next_seq w)
  | _ => Err (Invalid "the recipe plan ended with unconsumed nodes rather than one root")
  end.

(** ** The calls of each node *)
Definition raise {A} (o : outcome A) : WriterM A := fun w =>
  match o with
  | Good x => Good (x, w)
  | Refused e => Refused e
  | Panicked => Panicked
  | OutOfFuel => OutOfFuel
  end.

(** The node's only input, [inputs[0]]. *)
Definition only (inputs : list Schema) : WriterM Schema := raise (expected (inputs !! 0)).

(** The columns a node declares; none for a sink, whose [expect] fails. *)
Definition declared (node : GpuNode) : WriterM Schema := raise (expected (kind_schema (kind node))).

Definition scan_recipe (file : string) (projection : list nat) (node : GpuNode) : WriterM (option Recipe) :=
  output ← declared node;
  seq ← writer_node 0 (fun _ => scan_payload file projection output);
  mret (Some [call_seq seq KScan [IRowGroups] PerBatch]).

Definition filter_recipe (predicate : Expr) (projection : option (list nat)) : WriterM (option Recipe) :=
  seq ← writer_node 1 (filter_payload predicate projection);
  mret (Some [call_seq seq KFilter [IBatch] PerBatch]).

Definition project_recipe (exprs : list NamedExpr) : WriterM (option Recipe) :=
  seq ← writer_node 1 (plain_project_payload exprs);
  mret (Some [call_seq seq KPlainProject [IBatch] PerBatch]).

Definition sort_recipe (keys : list ColumnOrder) (fetch : option N) (inputs : list Schema) :
    WriterM (option Recipe) :=
  input ← only inputs;
  seq ← writer_node 1 (sort_payload keys (fetch_of fetch) input);
  mret (Some [call_seq seq KSort [IBatch] PerBatch]).

(** The calls made once more at done, the first handed nothing. *)
Definition at_done_calls (calls : list Call) : option (list Call) :=
  mapM (fun '(position, call) =>
    '(seq, k) ← target call;
    Some (call_seq seq k match position with 0 => [] | _ => [IPriorOutput] end AtDoneIfNothingOut))
    (imap (fun i call => (i, call)) calls).

Definition aggregate_recipe (body : AggregateBody) (state_ : Schema) (node : GpuNode) (inputs : list Schema) :
    WriterM (option Recipe) :=
  input ← only inputs;
  seq ← writer_node 1 (aggregate_payload body InitPhase input state_);
  let calls := [call_seq seq (KAggregate false) [IBatch] PerBatch] in
  calls ← match finalize body with
          | Some _ =>
              output ← declared node;
              seq ← writer_node 1 (finalize_payload body state_ output);
              mret (calls ++ [call_seq seq (KProject Finalize) [IPriorOutput] PerBatch])
          | None => mret calls
          end;
  at_done ← raise (expected (at_done_calls calls));
  mret (Some (calls ++ at_done)).

Definition accumulate_and_sort_recipe (keys : list ColumnOrder) (fetch : option N) (inputs : list Schema) :
    WriterM (option Recipe) :=
  input ← only inputs;
  per_batch ← writer_node 1 (sort_payload keys (-1) input);
  at_done ← writer_node 1 (merge_sorted_payload keys fetch input);
  mret (Some [call_seq per_batch KSort [IBatch] PerBatch;
              call_seq at_done KSortPreservingMerge [ILaneBatches] AtDone]).

Definition coalesce_all_batches_recipe : WriterM (option Recipe) :=
  seq ← writer_node 1 coalesce_partitions_payload;
  mret (Some [call_seq seq KCoalescePartitions [ILaneBatches] AtDone]).

Definition aggregate_batches_recipe (body : AggregateBody) (state_ : Schema) (node : GpuNode)
    (inputs : list Schema) : WriterM (option Recipe) :=
  input ← only inputs;
  concat_ ← writer_node 1 coalesce_partitions_payload;
  merged ← writer_node 1 (aggregate_payload body MergePhase input state_);
  let calls := [call_seq concat_ KCoalescePartitions [ILaneBatches] PerCompaction;
                call_seq merged (KAggregate true) [IPriorOutput] PerCompaction] in
  calls ← match finalize body with
          | Some _ =>
              output ← declared node;
              seq ← writer_node 1 (finalize_payload body state_ output);
              mret (calls ++ [call_seq seq (KProject Finalize) [IPriorOutput] AtDone])
          | None => mret calls
          end;
  mret (Some calls).

Definition merge_sorted_partitions_recipe (keys : list ColumnOrder) (fetch : option N) (inputs : list Schema) :
    WriterM (option Recipe) :=
  input ← only inputs;
  seq ← writer_node 1 (merge_sorted_payload keys fetch input);
  mret (Some [call_seq seq KSortPreservingMerge [IAllLanes] AtDone]).

Definition emit_partitions_recipe (hash_keys : list nat) (node : GpuNode) (inputs : list Schema) :
    WriterM (option Recipe) :=
  input ← only inputs;
  layout ← raise (expected (kind_layout (kind node)));
  seq ← writer_node 1 (repartition_payload hash_keys input (n layout));
  mret (Some [call_seq seq (KRepartition (n layout)) [IBatch] PerBatch]).

Definition limit_recipe : WriterM (option Recipe) :=
  mret (Some [call_bare SliceHandle [IBatch; IRowRange] PerStraddlingBatch]).

Definition unload_recipe : WriterM (option Recipe) :=
  mret (Some [call_bare ResultFromHandle [IBatch; IRowRange] PerHandle]).

(** One [CudfJoin], and the calls of its session. *)
Definition join_recipe (node : GpuNode) (inputs : list Schema) : WriterM (option Recipe) :=
  match join_node node, inputs with
  | Some join, [build; probe] =>
      chunk_bytes ← (fun w => Good (scratch_bytes w, w));
      seq ← writer_node 0 (fun _ => join_payload join build probe chunk_bytes);
      calls ← raise (expected (mapM (call_join seq)
                (AtJoinBuild :: PerProbeBatch :: if needs_finish (jn_type join) then [AtDone] else [])));
      mret (Some calls)
  | _, _ => fun _ => Panicked
  end.

Definition emit (node : GpuNode) (inputs : list Schema) : WriterM (option Recipe) :=
  match node with
  | GpuLoadParquet _ _ file projection _ _ _ => scan_recipe file projection node
  | GpuFilter _ predicate projection _ => filter_recipe predicate projection
  | GpuProject _ exprs _ => project_recipe exprs
  | GpuSort _ keys fetch _ => sort_recipe keys fetch inputs
  | GpuAggregate _ body intermediate _ => aggregate_recipe body intermediate node inputs
  | GpuAccumulateBatchesAndSort _ keys fetch _ => accumulate_and_sort_recipe keys fetch inputs
  | GpuCoalesceAllBatches _ _ => coalesce_all_batches_recipe
  | GpuAggregateBatches _ body intermediate _ => aggregate_batches_recipe body intermediate node inputs
  | GpuMergeSortedPartitions _ keys fetch _ => merge_sorted_partitions_recipe keys fetch inputs
  | GpuEmitPartitions _ hash_keys _ => emit_partitions_recipe hash_keys node inputs
  | GpuHashJoin _ _ _ _ _ _ _ _ _ | GpuCrossJoin _ _ _ _ | GpuNestedLoopJoin _ _ _ _ _ _ _ =>
      join_recipe node inputs
  | GpuLimit _ _ _ => limit_recipe
  | GpuUnload _ _ _ => unload_recipe
  | GpuEmpty _ => _ ← leaf; mret None
  | GpuMergePartitions _ _ | GpuUnion _ _ | GpuInterleave _ _ => mret None
  end.

(** ** The walk *)
Definition input_schemas (node : GpuNode) : outcome (list Schema) :=
  expected (mapM (fun child => kind_schema (kind child)) (children node)).

(** The writer and the recipes recorded so far. *)
Definition WalkM : Type := Writer * list (option Recipe) -> outcome (Writer * list (option Recipe)).

Fixpoint in_turn (kids : list WalkM) (s : Writer * list (option Recipe)) :
    outcome (Writer * list (option Recipe)) :=
  match kids with [] => Good s | child :: kids => s ← child s; in_turn kids s end.

Definition walk_node (node : GpuNode) (kids : list WalkM) : WalkM := fun s =>
  let at_ := mark s.1 in
  '(w, recorded) ← in_turn kids s;
  inputs ← input_schemas node;
  '(recipe, w) ← emit node inputs w;
  Good (reduce at_ w, recorded ++ [recipe]).

Definition attach_walk : GpuNode -> WalkM := fold_node walk_node.

Definition attach_recipes (root : GpuNode) (join_scratch_bytes : N) : outcome RecipePlan :=
  '(w, recorded) ← attach_walk root (with_join_scratch join_scratch_bytes, []);
  '(bytes, count) ← written (writer_finish w);
  Good {| recipes := recorded; buffer := bytes; wire_nodes := count;
          rp_join_scratch_bytes := join_scratch_bytes |}.
