(* ===== verification/WireFacts.v ===== *)
(** * A sequence number addresses the node it was published for

    The writer numbers nodes as it makes them, the reader and the device count them in post-order.  The
    invariant of the walk is that the two agree: the pool, each of its nodes in post-order, is every
    node made so far in the order it was made ([made]). *)
From stdpp Require Import strings.
From S2P Require Import Prelude Interval PlanIR PlanCommon PlanNodes Index Executor Joins Aggregates Validate ValidFacts Denote PlanSound.
From S2P Require Import Physical TransCommon TransAgg Translate TransFacts TransSamples Memory Pipeline WireExpr Wire Attach.
Open Scope nat_scope.

(** ** Post-order on the wire, as the device's [index_post_order] has it *)
Definition wire_order : WireNode -> list WireNode := fold_wire (fun node kids => concat kids ++ [node]).

Lemma wire_order_eq node : wire_order node = concat (map wire_order (wire_children node)) ++ [node].
Proof. unfold wire_order at 1. by rewrite fold_wire_eq. Qed.

Fixpoint wire_size (node : WireNode) : nat :=
  match node with
  | CudfScan _ _ _ | CudfJoin _ _ _ _ _ _ _ _ _ | CudfUnnamed _ => 1
  | CudfFilter _ _ i | CudfProject _ _ i | CudfAggregate _ _ _ _ _ _ _ _ i | CudfSort _ _ _ i
  | CudfCoalesceBatches _ i | CudfCoalescePartitions i | CudfRepartition _ _ i
  | CudfSortPreservingMerge _ _ i | CudfLimit _ _ i | CudfWindow i => S (wire_size i)
  | CudfUnion _ inputs => S (sum_list_with wire_size inputs)
  end.

Lemma wire_ind_children (P : WireNode -> Prop) :
  (forall node, (forall c, c ∈ wire_children node -> P c) -> P node) -> forall node, P node.
Proof.
  intros Hstep node. remember (wire_size node) as k eqn:Hk.
  revert node Hk. induction k as [k IH] using lt_wf_ind. intros node ->.
  apply Hstep. intros c Hc. apply (IH (wire_size c)); [|done].
  destruct node; cbn in Hc |- *; try (apply elem_of_nil in Hc as []); try (apply list_elem_of_singleton in Hc as ->; lia).
  pose proof (sum_list_with_in c wire_size inputs Hc). lia.
Qed.

(** Every node is of a kind the child walk names. *)
Definition known (node : WireNode) : bool := match node with CudfUnnamed _ => false | _ => true end.

Lemma known_children node : known node = true -> children_on_wire node = Ok (wire_children node).
Proof. by destruct node. Qed.

(** The walk of [find] from a position: the node at [seq] if it is among these, and where it stands. *)
Definition finds (r : nat -> PlanResult (option WireNode * nat)) (seq : Seq) (nodes : list WireNode) : Prop :=
  forall position, exists position',
    r position = Ok (if position <=? seq then nodes !! (seq - position) else None, position')
    /\ ((if position <=? seq then nodes !! (seq - position) else None) = None -> position' = position + length nodes).

Lemma first_found_finds kids seq nodes : Forall2 (fun r ns => finds r seq ns) kids nodes ->
  finds (first_found kids) seq (concat nodes).
Proof.
  induction 1 as [|r ns kids nodes Hr _ IH]; intros position.
  - exists position. cbn. split; [by destruct (position <=? seq)|lia].
  - destruct (Hr position) as (p1 & E1 & H1). cbn [first_found concat]. rewrite E1. cbn [mbind result_bind].
    rewrite lookup_app, length_app.
    destruct (if position <=? seq then ns !! (seq - position) else None) as [x|] eqn:Ex.
    + exists p1. destruct (position <=? seq); [|done]. by rewrite Ex.
    + specialize (H1 eq_refl) as ->. destruct (IH (position + length ns)) as (p2 & E2 & H2).
      exists p2. rewrite E2. destruct (Nat.leb_spec position seq) as [Hle|Hgt].
      * rewrite Ex. apply lookup_ge_None in Ex. rewrite (proj2 (Nat.leb_le (position + length ns) seq)) in * by lia.
        replace (seq - position - length ns) with (seq - (position + length ns)) by lia. split; [done|].
        intros Hn. rewrite (H2 Hn). lia.
      * rewrite (proj2 (Nat.leb_gt (position + length ns) seq)) in * by lia. split; [done|].
        intros _. rewrite (H2 eq_refl). lia.
Qed.

Lemma find_eq node seq : find node seq =
  (fun position =>
    _ ← children_on_wire node;
    '(found, position) ← first_found (map (fun c => find c seq) (wire_children node)) position;
    match found with
    | Some node => Ok (Some node, position)
    | None => Ok (if position =? seq then Some node else None, S position)
    end).
Proof. unfold find at 1. by rewrite fold_wire_eq. Qed.

Lemma find_finds node seq : Forall (fun m => known m = true) (wire_order node) ->
  finds (find node seq) seq (wire_order node).
Proof.
  induction node as [node IH] using wire_ind_children. intros Hk position.
  rewrite wire_order_eq in Hk. apply Forall_app in Hk as [Hkids Hn]. apply Forall_cons_1 in Hn as [Hn _].
  assert (Hf : finds (first_found (map (fun c => find c seq) (wire_children node))) seq
                 (concat (map wire_order (wire_children node)))).
  { apply first_found_finds. apply Forall2_fmap_2, Forall_Forall2_diag, Forall_forall. intros c Hc.
    apply (IH c Hc). rewrite Forall_forall in Hkids |- *. intros m Hm. apply Hkids.
    apply elem_of_concat. exists (wire_order c). split; [by apply list_elem_of_fmap_2|done]. }
  rewrite find_eq, wire_order_eq. rewrite (known_children node Hn). cbn [mbind result_bind].
  destruct (Hf position) as (p1 & E1 & H1). rewrite E1. cbn [mbind result_bind].
  set (before := concat (map wire_order (wire_children node))) in *.
  rewrite lookup_app, length_app. cbn [length].
  destruct (if position <=? seq then before !! (seq - position) else None) as [x|] eqn:Ex.
  - exists p1. destruct (position <=? seq); [|done]. by rewrite Ex.
  - specialize (H1 eq_refl) as ->. exists (S (position + length before)).
    destruct (Nat.leb_spec position seq) as [Hle|Hgt].
    + rewrite Ex. apply lookup_ge_None in Ex. destruct (Nat.eqb_spec (position + length before) seq) as [<-|Hne].
      * replace (position + length before - position - length before) with 0 by lia. done.
      * destruct (seq - position - length before) eqn:Ed; [lia|]. cbn. split; [done|lia].
    + destruct (Nat.eqb_spec (position + length before) seq); [lia|]. split; [done|lia].
Qed.

(** The reader counts in post-order. *)
Lemma node_at_order root seq : Forall (fun m => known m = true) (wire_order root) ->
  node_at (Some root) seq = Ok (wire_order root !! seq).
Proof.
  intros Hk. unfold node_at. destruct (find_finds root seq Hk 0) as (p & -> & _). cbn.
  by rewrite Nat.sub_0_r.
Qed.

(** ** The writer's invariant *)
Definition made (w : Writer) : list WireNode := concat (map wire_order (pool w)).

Record sound (w : Writer) : Prop := {
  numbered : length (made w) = next_seq w;
  all_known : Forall (fun m => known m = true) (made w) }.

(** A push of a node over the ones it takes from the top of the pool. *)
Lemma pushed base taken m seq bytes : wire_children m = taken -> known m = true ->
  sound {| pool := base ++ taken; next_seq := seq; scratch_bytes := bytes |} ->
  let w := (push m {| pool := base; next_seq := seq; scratch_bytes := bytes |}).2 in
  pool w = base ++ [m] /\ next_seq w = S seq /\ scratch_bytes w = bytes /\ sound w
  /\ made w = made {| pool := base ++ taken; next_seq := seq; scratch_bytes := bytes |} ++ [m].
Proof.
  intros Hc Hk [Hn Ha]. cbn [next_seq] in Hn. cbv zeta.
  assert (Hm : made (push m {| pool := base; next_seq := seq; scratch_bytes := bytes |}).2
               = made {| pool := base ++ taken; next_seq := seq; scratch_bytes := bytes |} ++ [m]).
  { unfold made, push. cbn [pool snd]. rewrite !map_app, !concat_app. cbn [map concat].
    by rewrite wire_order_eq, Hc, app_nil_r, app_assoc. }
  repeat split; [rewrite Hm, length_app, Hn; cbn; lia| |exact Hm].
  rewrite Hm. apply Forall_app. split; [done|by constructor].
Qed.

Lemma wire_kind_known k m : node_type m = wire_kind k -> known m = true.
Proof. by destruct m; [..|destruct k]. Qed.

(** What a payload's writer makes: a node of the kind, over the [arity] nodes it is handed. *)
Definition builds (arity : nat) (k : FbKind) (build : list WireNode -> outcome WireNode) : Prop :=
  forall kids m, build kids = Good m -> node_type m = wire_kind k /\ wire_children m = take arity kids.

Lemma kid_good kids k : kid kids = Good k -> take 1 kids = [k].
Proof. unfold kid. destruct kids; [done|]. by intros [= ->]. Qed.

Ltac builds_one :=
  intros kids m Hm; unfold project_payload in Hm; inv_good; subst m; split; [done|];
  match goal with H : kid _ = Good _ |- _ => by rewrite (kid_good _ _ H) end.

Lemma filter_builds p proj : builds 1 KFilter (filter_payload p proj).
Proof. unfold filter_payload. builds_one. Qed.
Lemma project_builds exprs : builds 1 KPlainProject (plain_project_payload exprs).
Proof. unfold plain_project_payload. builds_one. Qed.
Lemma sort_builds keys fetch i : builds 1 KSort (sort_payload keys fetch i).
Proof. unfold sort_payload. builds_one. Qed.
Lemma merge_builds keys fetch i : builds 1 KSortPreservingMerge (merge_sorted_payload keys fetch i).
Proof. unfold merge_sorted_payload. builds_one. Qed.
Lemma coalesce_builds : builds 1 KCoalescePartitions coalesce_partitions_payload.
Proof. unfold coalesce_partitions_payload. builds_one. Qed.
Lemma repartition_builds keys i lanes_ : builds 1 (KRepartition lanes_) (repartition_payload keys i lanes_).
Proof. unfold repartition_payload. builds_one. Qed.
Lemma aggregate_builds body phase i st merge_ : builds 1 (KAggregate merge_) (aggregate_payload body phase i st).
Proof. unfold aggregate_payload. builds_one. Qed.
Lemma finalize_builds body st out : builds 1 (KProject Finalize) (finalize_payload body st out).
Proof. unfold finalize_payload. builds_one. Qed.
Lemma scan_builds file proj out : builds 0 KScan (fun _ => scan_payload file proj out).
Proof. intros kids m Hm. unfold scan_payload in Hm. inv_good. by subst m. Qed.
Lemma join_builds j b p bytes : builds 0 KJoin (fun _ => join_payload j b p bytes).
Proof. intros kids m Hm. unfold join_payload in Hm. inv_good. by subst m. Qed.

(** ** What a node may write, and where a call finds it *)
Definition Payloads := list (FbKind * (list WireNode -> outcome WireNode)).

Definition finalizes (body : AggregateBody) (state_ output : Schema) : Payloads :=
  match finalize body with
  | Some _ => [(KProject Finalize, finalize_payload body state_ output)]
  | None => []
  end.

(** The payloads of a node, from the node and the columns its inputs declare. *)
Definition payloads (scratch : N) (node : GpuNode) : Payloads :=
  match node with
  | GpuLoadParquet _ _ file projection _ _ _ => [(KScan, fun _ => scan_payload file projection (input_schema node))]
  | GpuFilter _ predicate projection _ => [(KFilter, filter_payload predicate projection)]
  | GpuProject _ exprs _ => [(KPlainProject, plain_project_payload exprs)]
  | GpuSort _ keys fetch i => [(KSort, sort_payload keys (fetch_of fetch) (input_schema i))]
  | GpuAccumulateBatchesAndSort _ keys fetch i =>
      [(KSort, sort_payload keys (-1) (input_schema i));
       (KSortPreservingMerge, merge_sorted_payload keys fetch (input_schema i))]
  | GpuCoalesceAllBatches _ _ => [(KCoalescePartitions, coalesce_partitions_payload)]
  | GpuAggregate _ body st i =>
      (KAggregate false, aggregate_payload body InitPhase (input_schema i) st)
      :: finalizes body st (input_schema node)
  | GpuAggregateBatches _ body st i =>
      (KCoalescePartitions, coalesce_partitions_payload)
      :: (KAggregate true, aggregate_payload body MergePhase (input_schema i) st)
      :: finalizes body st (input_schema node)
  | GpuMergeSortedPartitions _ keys fetch i =>
      [(KSortPreservingMerge, merge_sorted_payload keys fetch (input_schema i))]
  | GpuEmitPartitions _ hash_keys i =>
      [(KRepartition (n (input_layout node)), repartition_payload hash_keys (input_schema i) (n (input_layout node)))]
  | GpuHashJoin _ _ _ _ _ _ _ b p | GpuCrossJoin _ _ b p | GpuNestedLoopJoin _ _ _ _ _ b p =>
      match join_node node with
      | Some join => [(KJoin, fun _ => join_payload join (input_schema b) (input_schema p) scratch)]
      | None => []
      end
  | GpuLimit _ _ _ | GpuUnload _ _ _ | GpuEmpty _ | GpuMergePartitions _ _ | GpuUnion _ _ | GpuInterleave _ _ => []
  end.

(** A call finds at its number, among those made, a node one of [bs] wrote, of the kind it names. *)
Definition addressed (bs : Payloads) (nodes : list WireNode) (lo hi : Seq) (call : Call) : Prop :=
  match target call with
  | None => True
  | Some (seq, k) =>
      lo <= seq < hi /\ exists build kids m, (k, build) ∈ bs /\ build kids = Good m
        /\ nodes !! seq = Some m /\ node_type m = wire_kind k
  end.

Lemma addressed_weaken bs nodes nodes' lo lo' hi hi' call : addressed bs nodes lo hi call ->
  nodes `prefix_of` nodes' -> lo' <= lo -> hi <= hi' -> addressed bs nodes' lo' hi' call.
Proof.
  unfold addressed. destruct (target call) as [[seq k]|]; [|done].
  intros [? (b & kids & m & Hb & Hm & Hl & Hk)] [more ->] ? ?. split; [lia|].
  exists b, kids, m. repeat split; try done. by apply lookup_app_l_Some.
Qed.

(** ** One node's calls

    [standing base w0 w own]: since [w0] the writer has only added, and what this node and its inputs
    left unconsumed is [own]. *)
Record standing (base : list WireNode) (w0 w : Writer) (own : list WireNode) : Prop := {
  st_pool : pool w = base ++ own;
  st_sound : sound w;
  st_grown : made w0 `prefix_of` made w;
  st_bytes : scratch_bytes w = scratch_bytes w0;
  st_seq : next_seq w0 <= next_seq w }.

Lemma stand_push base w0 w own rest taken m : standing base w0 w own -> own = rest ++ taken ->
  wire_children m = taken -> known m = true ->
  let w' := (push m {| pool := base ++ rest; next_seq := next_seq w; scratch_bytes := scratch_bytes w |}).2 in
  standing base w0 w' (rest ++ [m]) /\ made w' !! next_seq w = Some m /\ next_seq w' = S (next_seq w)
  /\ made w `prefix_of` made w'.
Proof.
  intros [Hp Hs Hg Hb Hq] -> Hc Hk. cbv zeta. destruct w as [pl sq by_]. cbn [pool next_seq scratch_bytes] in *.
  rewrite app_assoc in Hp. subst pl.
  destruct (pushed (base ++ rest) taken m sq by_ Hc Hk Hs) as (E1 & E2 & E3 & Hs' & Em).
  pose proof (numbered _ Hs) as Hn. cbn [next_seq] in Hn.
  split; [|split; [|split]].
  - constructor; [by rewrite E1, app_assoc|done| |by rewrite E3|rewrite E2; lia].
    rewrite Em. destruct Hg as [more ->]. exists (more ++ [m]). by rewrite app_assoc.
  - rewrite Em. rewrite lookup_app_r by lia. by rewrite Hn, Nat.sub_diag.
  - exact E2.
  - rewrite Em. by eexists.
Qed.

Lemma written_one base w0 w own k build seq w' : standing base w0 w own -> own <> [] -> builds 1 k build ->
  writer_node 1 build w = Good (seq, w') ->
  exists own' kids m, standing base w0 w' own' /\ own' <> [] /\ build kids = Good m
    /\ made w' !! seq = Some m /\ node_type m = wire_kind k /\ next_seq w <= seq < next_seq w'
    /\ made w `prefix_of` made w'.
Proof.
  intros Hst Hne Hb Hw. destruct (exists_last Hne) as (rest & top & Ho). pose proof (st_pool _ _ _ _ Hst) as Hp.
  unfold writer_node, writer_take in Hw. rewrite Hp, Ho in Hw.
  assert (Hl : length (base ++ rest ++ [top]) = S (length (base ++ rest))) by (rewrite !length_app; cbn; lia).
  rewrite Hl in Hw. replace (Nat.min 1 (S (length (base ++ rest)))) with 1 in Hw by lia.
  replace (S (length (base ++ rest)) - 1) with (length (base ++ rest)) in Hw by lia.
  rewrite app_assoc, drop_app_length, take_app_length in Hw. cbn [Nat.sub stubs app] in Hw.
  destruct (build [top]) as [m| | |] eqn:Em; [|discriminate Hw..]. injection Hw as <- <-.
  destruct (Hb _ _ Em) as [Hk Hc].
  destruct (stand_push base w0 w own rest [top] m Hst Ho Hc (wire_kind_known _ _ Hk)) as (H1 & H2 & H3 & H4).
  exists (rest ++ [m]), [top], m. cbn [pool next_seq]. split; [exact H1|]. split; [by destruct rest|]. split; [done|].
  split; [exact H2|]. split; [done|]. split; [cbn in H3 |- *; lia|]. destruct w. exact H4.
Qed.

Lemma written_leaf base w0 w own k build seq w' : standing base w0 w own -> builds 0 k build ->
  writer_node 0 build w = Good (seq, w') ->
  exists own' kids m, standing base w0 w' own' /\ own' <> [] /\ build kids = Good m
    /\ made w' !! seq = Some m /\ node_type m = wire_kind k /\ next_seq w <= seq < next_seq w'
    /\ made w `prefix_of` made w'.
Proof.
  intros Hst Hb Hw. unfold writer_node, writer_take in Hw. cbn [Nat.min] in Hw.
  rewrite !Nat.sub_0_r, drop_all, firstn_all in Hw. cbn [stubs app] in Hw.
  destruct (build []) as [m| | |] eqn:Em; [|discriminate Hw..]. injection Hw as <- <-.
  destruct (Hb _ _ Em) as [Hk Hc].
  destruct (stand_push base w0 w own own [] m Hst (eq_sym (app_nil_r own)) Hc (wire_kind_known _ _ Hk)) as (H1 & H2 & H3 & H4).
  rewrite <- (st_pool _ _ _ _ Hst) in H1, H2, H3, H4.
  exists (own ++ [m]), [], m. cbn [pool next_seq]. split; [exact H1|]. split; [by destruct own|]. split; [done|].
  split; [exact H2|]. split; [done|]. split; [cbn in H3 |- *; lia|]. destruct w. exact H4.
Qed.

Lemma writer_bind {A B} (m : WriterM A) (k : A -> WriterM B) w y w' :
  (m ≫= k) w = Good (y, w') -> exists x w1, m w = Good (x, w1) /\ k x w1 = Good (y, w').
Proof. unfold mbind, WriterM_bind. destruct (m w) as [[x w1]| | |]; [eauto|discriminate..]. Qed.

Lemma raise_good {A} (o : outcome A) w x w' : raise o w = Good (x, w') -> o = Good x /\ w' = w.
Proof. unfold raise. destruct o; [by intros [= -> ->]|discriminate..]. Qed.

Ltac inv_writer :=
  repeat match goal with
  | H : (_ ≫= _) _ = Good (_, _) |- _ =>
      let x := fresh "x" in let w := fresh "w" in let E := fresh "E" in
      apply writer_bind in H as (x & w & E & H)
  | H : raise _ _ = Good (_, _) |- _ => apply raise_good in H as [H ->]
  | H : expected _ = Good _ |- _ => apply expected_good in H
  | H : only _ _ = Good (_, _) |- _ => unfold only in H
  | H : declared _ _ = Good (_, _) |- _ => unfold declared in H
  | H : mret _ _ = Good (_, _) |- _ => injection H as H; subst
  end.

(** What a node's calls come to. *)
Definition emitted (base : list WireNode) (w0 w : Writer) (bs : Payloads) (recipe : option Recipe) (w' : Writer) : Prop :=
  exists own', standing base w0 w' own' /\ own' <> [] /\ next_seq w <= next_seq w' /\ made w `prefix_of` made w'
    /\ Forall (addressed bs (made w') (next_seq w) (next_seq w')) (default [] recipe).

Lemma emitted_one base w0 w own k build seq w' bs inputs_ when_ :
  standing base w0 w own -> own <> [] -> builds 1 k build -> (k, build) ∈ bs ->
  writer_node 1 build w = Good (seq, w') ->
  emitted base w0 w bs (Some [call_seq seq k inputs_ when_]) w'.
Proof.
  intros Hst Hne Hb Hin Hw. destruct (written_one _ _ _ _ _ _ _ _ Hst Hne Hb Hw) as (own' & kids & m & Hst' & Hne' & Hm & Hl & Hk & Hq & Hp).
  exists own'. split; [done|]. split; [done|]. split; [lia|]. split; [done|]. constructor; [|constructor]. cbn. split; [done|].
  by exists build, kids, m.
Qed.

(** A further call on what the node itself has made. *)
Lemma emitted_more base w0 w w1 k build seq w' bs calls inputs_ when_ :
  emitted base w0 w bs (Some calls) w1 -> builds 1 k build -> (k, build) ∈ bs ->
  writer_node 1 build w1 = Good (seq, w') ->
  emitted base w0 w bs (Some (calls ++ [call_seq seq k inputs_ when_])) w'.
Proof.
  intros (own & Hst & Hne & Hle & Hg & Hc) Hb Hin Hw.
  destruct (written_one _ _ _ _ _ _ _ _ Hst Hne Hb Hw) as (own' & kids & m & Hst' & Hne' & Hm & Hl & Hk & Hq & Hp).
  exists own'. split; [done|]. split; [done|]. split; [lia|]. split; [by etransitivity|].
  cbn [default]. apply Forall_app. split.
  - apply (Forall_impl _ _ _ Hc). intros call Hcall. eapply addressed_weaken; [exact Hcall|exact Hp|lia|lia].
  - constructor; [|constructor]. cbn. split; [lia|]. by exists build, kids, m.
Qed.

(** The calls made again at done address what they addressed. *)
Lemma at_done_addressed bs nodes lo hi calls again : at_done_calls calls = Some again ->
  Forall (addressed bs nodes lo hi) calls -> Forall (addressed bs nodes lo hi) again.
Proof.
  intros Ha Hc. unfold at_done_calls in Ha. apply mapM_Some_1 in Ha. rewrite Forall_forall in Hc |- *.
  intros call Hcall. apply list_elem_of_lookup in Hcall as [i Hi].
  destruct (Forall2_lookup_r _ _ _ _ _ Ha Hi) as ([j old] & Hj & He).
  rewrite list_lookup_imap in Hj. destruct (calls !! i) as [c|] eqn:Ec; [|done]. injection Hj as <- <-.
  pose proof (Hc c (list_elem_of_lookup_2 _ _ _ Ec)) as Hadd. unfold addressed in *.
  destruct (target c) as [[seq k]|]; [|discriminate He]. by injection He as <-.
Qed.

Lemma mapM_one {A B} (f : A -> option B) x ys : mapM f [x] = Some ys -> exists y, f x = Some y /\ ys = [y].
Proof. cbn. destruct (f x); [|done]. intros [= <-]. eauto. Qed.

Lemma declared_input child schema : kind_schema (kind child) = Some schema -> input_schema child = schema.
Proof. unfold input_schema. by intros ->. Qed.

Lemma declared_inputs l schemas : mapM (fun child => kind_schema (kind child)) l = Some schemas ->
  schemas = map input_schema l.
Proof.
  intros Hm. apply mapM_Some_1 in Hm. induction Hm as [|c s l schemas Hs _ IH]; [done|].
  cbn. by rewrite (declared_input _ _ Hs), IH.
Qed.

(** A union and an interleave have a branch. *)
Definition has_branch (node : GpuNode) : bool :=
  match node with GpuUnion _ [] | GpuInterleave _ [] => false | _ => true end.

(** The finalize an aggregate ends on. *)
Lemma finalize_emitted base w0 w w1 bs body st node calls when_ calls' w' :
  emitted base w0 w bs (Some calls) w1 -> finalizes body st (input_schema node) ⊆ bs ->
  match finalize body with
  | Some _ =>
      output ← declared node;
      seq ← writer_node 1 (finalize_payload body st output);
      mret (calls ++ [call_seq seq (KProject Finalize) [IPriorOutput] when_])
  | None => mret calls
  end w1 = Good (calls', w') ->
  emitted base w0 w bs (Some calls') w'.
Proof.
  unfold finalizes. destruct (finalize body) as [f|]; intros He Hbs Hw; inv_writer; [|done].
  rewrite (declared_input _ _ E) in Hbs. eapply emitted_more; [exact He|apply finalize_builds| |exact E0].
  apply Hbs. left.
Qed.

Lemma session_addressed seq calls bs nodes lo hi patterns : mapM (call_join seq) patterns = Some calls ->
  addressed bs nodes lo hi {| symbol := JoinBuild; target := Some (seq, KJoin); inputs := []; when_ := AtJoinBuild |} ->
  Forall (addressed bs nodes lo hi) calls.
Proof.
  intros Hc Ha. apply mapM_Some_1 in Hc. apply Forall_forall. intros call Hcall.
  apply list_elem_of_lookup in Hcall as [i Hi]. destruct (Forall2_lookup_r _ _ _ _ _ Hc Hi) as (w & _ & He).
  by destruct w; cbn in He; first [discriminate He|injection He as <-].
Qed.

Lemma join_emitted base w0 w own node join build probe inputs recipe w' :
  standing base w0 w own -> join_node node = Some join -> inputs = [input_schema build; input_schema probe] ->
  payloads (scratch_bytes w) node
  = [(KJoin, fun _ => join_payload join (input_schema build) (input_schema probe) (scratch_bytes w))] ->
  join_recipe node inputs w = Good (recipe, w') ->
  emitted base w0 w (payloads (scratch_bytes w) node) recipe w'.
Proof.
  intros Hst Hj -> Hbs Hw. unfold join_recipe in Hw. rewrite Hj in Hw. inv_writer. injection E as <- <-.
  destruct (written_leaf _ _ _ _ _ _ _ _ Hst (join_builds _ _ _ _) E0) as (own' & kids & m & Hst' & Hne & Hm & Hl & Hk & Hq & Hp).
  exists own'. split; [done|]. split; [done|]. split; [lia|]. split; [done|].
  eapply session_addressed; [exact E1|]. rewrite Hbs.
  split; [done|]. eexists _, kids, m. split; [left|done].
Qed.

Lemma emit_recipe_ok base w0 w own node inputs recipe w' : has_branch node = true ->
  mapM (fun child => kind_schema (kind child)) (children node) = Some inputs ->
  standing base w0 w own -> (own = [] -> children node = []) ->
  emit node inputs w = Good (recipe, w') -> emitted base w0 w (payloads (scratch_bytes w) node) recipe w'.
Proof.
  intros Hb Hin Hst Hne Hw.
  assert (Hsame : own <> [] -> emitted base w0 w (payloads (scratch_bytes w) node) None w).
  { intros Ho. exists own. split; [done|]. split; [done|]. split; [lia|]. split; [done|constructor]. }
  destruct node as [k tb f pj pg sv cn|k|k p pj i|k es i|k ks ft i|k i|k ks ft i|k iv i|k bd st i|k bd st i|k jt ks f fc ne pj b p
    |k pj b p|k jt f fc pj b p|k i|k hk i|k ks ft i|k bs|k bs|k iv i];
    cbn [children] in Hin, Hne;
    try (apply mapM_one in Hin as (s & Hs & ->); apply declared_input in Hs);
    try (assert (Ho : own <> []) by (intros Ho; by specialize (Hne Ho)));
    cbn [emit] in Hw.
  - unfold scan_recipe in Hw. inv_writer. apply declared_input in E.
    destruct (written_leaf _ _ _ _ _ _ _ _ Hst (scan_builds _ _ _) E0) as (own' & kids & m & Hst' & Hne' & Hm & Hl & Hk & Hq & Hp).
    exists own'. split; [done|]. split; [done|]. split; [lia|]. split; [done|]. constructor; [|constructor]. split; [done|].
    eexists _, kids, m. split; [cbn [payloads]; rewrite E; left|done].
  - inv_writer. unfold leaf in E. injection E as <- <-.
    destruct (stand_push base w0 w own own [] scan_of_nothing Hst (eq_sym (app_nil_r own)) eq_refl eq_refl) as (H1 & _ & H3 & H4).
    rewrite <- (st_pool _ _ _ _ Hst) in H1, H3, H4. destruct w as [pl sq by_].
    eexists. split; [exact H1|]. split; [by destruct own|]. split; [cbn; lia|]. split; [exact H4|constructor].
  - unfold filter_recipe in Hw. inv_writer.
    eapply emitted_one; [exact Hst|exact Ho|apply filter_builds| |exact E]. left.
  - unfold project_recipe in Hw. inv_writer.
    eapply emitted_one; [exact Hst|exact Ho|apply project_builds| |exact E]. left.
  - unfold sort_recipe in Hw. inv_writer. injection E as <-.
    eapply emitted_one; [exact Hst|exact Ho|apply sort_builds| |exact E0]. left.
  - unfold coalesce_all_batches_recipe in Hw. inv_writer.
    eapply emitted_one; [exact Hst|exact Ho|apply coalesce_builds| |exact E]. left.
  - unfold accumulate_and_sort_recipe in Hw. inv_writer. injection E as <-.
    eapply (emitted_more _ _ _ _ _ _ _ _ _ [_]); [|apply merge_builds| |exact E1]; [|right; left].
    eapply emitted_one; [exact Hst|exact Ho|apply sort_builds| |exact E0]. left.
  - unfold limit_recipe in Hw. inv_writer. exists own. split; [done|]. split; [done|]. split; [lia|]. split; [done|].
    by constructor; [|constructor].
  - unfold aggregate_recipe in Hw. inv_writer. injection E as <-.
    assert (He : emitted base w0 w (payloads (scratch_bytes w) (GpuAggregate k bd st i)) (Some x1) w').
    { eapply finalize_emitted; [|intros ? Hx; right; exact Hx|exact E1].
      eapply emitted_one; [exact Hst|exact Ho|apply aggregate_builds| |exact E0]. left. }
    destruct He as (own' & ? & ? & ? & ? & Hc). exists own'. do 4 (split; [done|]). cbn [default] in *.
    apply Forall_app. split; [done|]. by eapply at_done_addressed.
  - unfold aggregate_batches_recipe in Hw. inv_writer. injection E as <-.
    eapply finalize_emitted; [|intros ? Hx; right; right; exact Hx|exact E2].
    eapply (emitted_more _ _ _ _ _ _ _ _ _ [_]); [|apply aggregate_builds| |exact E1]; [|right; left].
    eapply emitted_one; [exact Hst|exact Ho|apply coalesce_builds| |exact E0]. left.
  - apply declared_inputs in Hin. by eapply (join_emitted base w0 w own _ _ b p).
  - apply declared_inputs in Hin. by eapply (join_emitted base w0 w own _ _ b p).
  - apply declared_inputs in Hin. by eapply (join_emitted base w0 w own _ _ b p).
  - inv_writer. by apply Hsame.
  - unfold emit_partitions_recipe in Hw. inv_writer. injection E as <-. cbn [kind] in E0.
    assert (Hl : input_layout (GpuEmitPartitions k hk i) = x0) by (unfold input_layout; cbn [kind]; by rewrite E0).
    eapply emitted_one; [exact Hst|exact Ho|apply repartition_builds| |exact E1]. cbn [payloads]. rewrite Hl. left.
  - unfold merge_sorted_partitions_recipe in Hw. inv_writer. injection E as <-.
    eapply emitted_one; [exact Hst|exact Ho|apply merge_builds| |exact E0]. left.
  - inv_writer. apply Hsame. intros ->. by rewrite (Hne eq_refl) in Hb.
  - inv_writer. apply Hsame. intros ->. by rewrite (Hne eq_refl) in Hb.
  - unfold unload_recipe in Hw. inv_writer. exists own. split; [done|]. split; [done|]. split; [lia|]. split; [done|].
    by constructor; [|constructor].
Qed.

(** ** The walk *)
(** The calls of a node address, among the nodes made, what that node wrote. *)
Definition serves (nodes : list WireNode) (scratch : N) (node : GpuNode) (recipe : option Recipe) : Prop :=
  Forall (addressed (payloads scratch node) nodes 0 (length nodes)) (default [] recipe).

(** The numbers rise from one node's calls to the next's. *)
Fixpoint in_order (lo hi : Seq) (rs : list (option Recipe)) : Prop :=
  match rs with
  | [] => lo <= hi
  | r :: rs => exists mid, lo <= mid /\ Forall (fun s => lo <= s < mid) (seqs (default [] r)) /\ in_order mid hi rs
  end.

Lemma in_order_le lo hi rs : in_order lo hi rs -> lo <= hi.
Proof. revert lo. induction rs as [|r rs IH]; intros lo; [done|]. intros (mid & ? & _ & H). apply IH in H. lia. Qed.

Lemma in_order_app lo mid hi rs rs' : in_order lo mid rs -> in_order mid hi rs' -> in_order lo hi (rs ++ rs').
Proof.
  revert lo. induction rs as [|r rs IH]; intros lo H1 H2.
  - cbn in *. destruct rs' as [|r' rs']; cbn in *; [lia|]. destruct H2 as (m & ? & Hs & H2). exists m.
    split; [lia|]. split; [|done]. apply (Forall_impl _ _ _ Hs). lia.
  - destruct H1 as (m & ? & Hs & H1). exists m. split; [done|]. split; [done|]. by apply IH.
Qed.

Lemma in_order_lookup lo hi rs i j ri rj s t : in_order lo hi rs -> i < j ->
  rs !! i = Some ri -> rs !! j = Some rj -> s ∈ seqs (default [] ri) -> t ∈ seqs (default [] rj) -> s < t.
Proof.
  revert lo i j. induction rs as [|r rs IH]; intros lo i j Ho Hij Hi Hj Hs Ht; [done|].
  destruct Ho as (mid & Hlo & Hr & Ho). destruct j as [|j]; [lia|]. destruct i as [|i]; cbn in Hi, Hj.
  - injection Hi as ->. rewrite Forall_forall in Hr. apply Hr in Hs. enough (mid <= t) by lia.
    clear -Ho Hj Ht. revert mid j Ho Hj. induction rs as [|r rs IH]; intros mid j Ho Hj; [done|].
    destruct Ho as (m & ? & Hr & Ho). destruct j as [|j]; cbn in Hj.
    + injection Hj as ->. rewrite Forall_forall in Hr. apply Hr in Ht. lia.
    + specialize (IH m j Ho Hj). lia.
  - by apply (IH mid i j Ho ltac:(lia) Hi Hj).
Qed.

Lemma addressed_seqs bs nodes lo hi calls : Forall (addressed bs nodes lo hi) calls ->
  Forall (fun s => lo <= s < hi) (seqs calls).
Proof.
  unfold seqs. induction 1 as [|call calls Hc _ IH]; [done|]. cbn. unfold addressed in Hc.
  destruct (target call) as [[s k]|]; cbn; [|done]. constructor; [apply Hc|done].
Qed.

Definition walked (cs : list GpuNode) (s s' : Writer * list (option Recipe)) : Prop :=
  exists tops new, standing (pool s.1) s.1 s'.1 tops /\ length tops = length cs /\ s'.2 = s.2 ++ new
    /\ Forall2 (serves (made s'.1) (scratch_bytes s.1)) (concat (map postorder cs)) new
    /\ in_order (next_seq s.1) (next_seq s'.1) new.

Lemma serves_weaken nodes nodes' scratch node recipe : serves nodes scratch node recipe ->
  nodes `prefix_of` nodes' -> serves nodes' scratch node recipe.
Proof.
  intros Hs Hp. apply (Forall_impl _ _ _ Hs). intros call Hc.
  eapply addressed_weaken; [exact Hc|done|lia|by apply prefix_length].
Qed.

Lemma stand_trans base w0 w1 w2 own more : standing base w0 w1 own -> standing (pool w1) w1 w2 more ->
  standing base w0 w2 (own ++ more).
Proof.
  intros [P1 S1 G1 B1 Q1] [P2 S2 G2 B2 Q2]. constructor; [by rewrite P2, P1, app_assoc|done|by etransitivity|congruence|lia].
Qed.

Lemma walked_app cs1 cs2 s1 s2 s3 : walked cs1 s1 s2 -> walked cs2 s2 s3 -> walked (cs1 ++ cs2) s1 s3.
Proof.
  intros (t1 & n1 & H1 & L1 & E1 & F1 & O1) (t2 & n2 & H2 & L2 & E2 & F2 & O2).
  exists (t1 ++ t2), (n1 ++ n2). split; [by eapply stand_trans|]. split; [by rewrite !length_app, L1, L2|].
  split; [by rewrite E2, E1, app_assoc|]. split; [|by eapply in_order_app].
  rewrite map_app, concat_app. apply Forall2_app; [|by rewrite <- (st_bytes _ _ _ _ H1)].
  apply (Forall2_impl _ _ _ _ F1). intros node recipe Hs. eapply serves_weaken; [exact Hs|apply (st_grown _ _ _ _ H2)].
Qed.

Lemma stand_here w : sound w -> standing (pool w) w w [].
Proof. intros Hs. constructor; [by rewrite app_nil_r|done..|lia]. Qed.

Lemma in_turn_walked cs s s' :
  (forall c, c ∈ cs -> forall s s', sound s.1 -> attach_walk c s = Good s' -> walked [c] s s') ->
  sound s.1 -> in_turn (map attach_walk cs) s = Good s' -> walked cs s s'.
Proof.
  revert s. induction cs as [|c cs IH]; intros s Hc Hs Hw.
  - injection Hw as <-. exists [], []. split; [by apply stand_here|]. split; [done|].
    split; [by rewrite app_nil_r|]. by split; [apply Forall2_nil|cbn].
  - cbn in Hw. apply bind_good in Hw as (s1 & E1 & Hw).
    assert (H1 : walked [c] s s1) by (apply (Hc c); [left|done|done]).
    apply (walked_app [c] cs s s1 s' H1). apply IH; [intros c' Hin; apply Hc; by right| |done].
    destruct H1 as (t & ? & Hst & _). apply (st_sound _ _ _ _ Hst).
Qed.

Lemma reduced w0 w own : standing (pool w0) w0 w own -> own <> [] ->
  exists top, standing (pool w0) w0 (reduce (length (pool w0)) w) [top] /\ next_seq w <= next_seq (reduce (length (pool w0)) w)
    /\ made w `prefix_of` made (reduce (length (pool w0)) w).
Proof.
  intros Hst Hne. pose proof (st_pool _ _ _ _ Hst) as Hp. unfold reduce. rewrite Hp, length_app.
  replace (length (pool w0) + length own - length (pool w0)) with (length own) by lia.
  destruct (Nat.leb_spec (length own) 1) as [Hle|Hgt].
  - destruct own as [|top [|]]; [done| |cbn in Hle; lia]. by exists top.
  - rewrite drop_app_length, take_app_length.
    destruct (stand_push (pool w0) w0 w own [] own (CudfUnion false own) Hst eq_refl eq_refl eq_refl) as (H1 & _ & H3 & _).
    rewrite app_nil_r in H1, H3. exists (CudfUnion false own). split; [exact H1|]. split; [lia|].
    destruct w as [pl sq by_]. cbn [pool next_seq scratch_bytes] in *. subst pl.
    destruct (pushed (pool w0) own (CudfUnion false own) sq by_ eq_refl eq_refl (st_sound _ _ _ _ Hst)) as (_ & _ & _ & _ & ->).
    by eexists.
Qed.

Lemma attach_walk_ok node : (forall m, m ∈ descendants node -> has_branch m = true) ->
  forall s s', sound s.1 -> attach_walk node s = Good s' -> walked [node] s s'.
Proof.
  induction node as [node IH] using node_ind_children. intros Hb [w rs] [w' rs'] Hs Hw.
  unfold attach_walk in Hw. rewrite fold_node_eq in Hw. fold attach_walk in Hw. unfold walk_node in Hw. cbn [fst] in Hw.
  apply bind_good in Hw as ([w1 rs1] & E1 & Hw). apply bind_good in Hw as (inputs & E2 & Hw).
  apply bind_good in Hw as ([recipe w2] & E3 & Hw). injection Hw as <- <-.
  apply in_turn_walked in E1; [|intros c Hc; apply (IH c Hc); intros m Hm; apply Hb; rewrite descendants_eq; right;
    apply elem_of_concat; exists (descendants c); split; [by apply list_elem_of_fmap_2|done]|done].
  destruct E1 as (tops & new & Hst & Hlen & Ers & Hall & Hord). cbn [fst snd] in *.
  unfold input_schemas in E2. apply expected_good in E2.
  assert (Hhb : has_branch node = true) by (apply Hb; rewrite descendants_eq; left).
  destruct (emit_recipe_ok (pool w) w w1 tops node inputs recipe w2 Hhb E2 Hst) as (own & Hst2 & Hne & Hle & Hg & Hcalls); [|done|].
  { intros ->. by destruct (children node). }
  destruct (reduced w w2 own Hst2 Hne) as (top & Hst3 & Hle3 & Hpre). unfold mark.
  exists [top], (new ++ [recipe]). cbn [fst snd]. split; [done|]. split; [done|]. split; [by rewrite Ers, app_assoc|].
  pose proof (numbered _ (st_sound _ _ _ _ Hst3)) as Hnum. split.
  - cbn [map concat]. rewrite app_nil_r, postorder_eq. apply Forall2_app.
    + apply (Forall2_impl _ _ _ _ Hall). intros m r Hm. eapply serves_weaken; [exact Hm|by etransitivity].
    + constructor; [|constructor]. unfold serves. rewrite <- (st_bytes _ _ _ _ Hst).
      apply (Forall_impl _ _ _ Hcalls). intros call Hc. eapply addressed_weaken; [exact Hc|done|lia|lia].
  - eapply in_order_app; [exact Hord|]. exists (next_seq w2). split; [done|]. split; [|done].
    by eapply addressed_seqs.
Qed.

(** A walk that ends leaves one node, the root. *)
Lemma attach_leaves_a_root root scratch w recorded : (forall m, m ∈ descendants root -> has_branch m = true) ->
  attach_walk root (with_join_scratch scratch, []) = Good (w, recorded) ->
  exists top, pool w = [top] /\ sound w
    /\ Forall2 (serves (wire_order top) scratch) (postorder root) recorded /\ in_order 0 (next_seq w) recorded.
Proof.
  intros Hb Hw. destruct (attach_walk_ok root Hb (with_join_scratch scratch, []) (w, recorded)
    (Build_sound (with_join_scratch scratch) eq_refl (Forall_nil_2 _)) Hw)
    as (tops & new & Hst & Hlen & Hrs & Hall & Hord). cbn [fst snd] in *.
  destruct tops as [|top [|]]; [discriminate Hlen| |discriminate Hlen]. pose proof (st_pool _ _ _ _ Hst) as Hp. cbn in Hp.
  exists top. split; [done|]. split; [apply (st_sound _ _ _ _ Hst)|]. subst recorded. split; [|exact Hord].
  cbn in Hall. rewrite app_nil_r in Hall. unfold made in Hall. rewrite Hp in Hall. cbn in Hall. by rewrite app_nil_r in Hall.
Qed.

Lemma attach_inv root scratch rp : attach_recipes root scratch = Good rp ->
  exists w, attach_walk root (with_join_scratch scratch, []) = Good (w, recipes rp) /\ pool w = [buffer rp]
    /\ next_seq w = wire_nodes rp /\ rp_join_scratch_bytes rp = scratch.
Proof.
  unfold attach_recipes. intros Hr. apply bind_good in Hr as ([w recorded] & Hw & Hr).
  apply bind_good in Hr as ([bytes count] & Hf & Hr). injection Hr as <-. exists w. cbn.
  unfold writer_finish in Hf. destruct (pool w) as [|top [|]]; try discriminate Hf. cbn in Hf. by injection Hf as <- <-.
Qed.

Lemma checks_out verify rp : verify (buffer rp) = Ok () ->
  Forall (fun m => known m = true) (wire_order (buffer rp)) ->
  (forall i recipe call seq k, recipe_of rp i = Some recipe -> call ∈ recipe -> target call = Some (seq, k) ->
     exists m, wire_order (buffer rp) !! seq = Some m /\ node_type m = wire_kind k) ->
  check_seq_kinds verify rp = Ok ().
Proof.
  intros Hv Hk Hc. unfold check_seq_kinds. rewrite Hv. cbn [map_err mbind result_bind]. apply for_each_ok. intros i _.
  destruct (recipe_of rp i) as [recipe|] eqn:Er; [|done]. apply for_each_ok. intros call Hcall.
  destruct (target call) as [[seq k]|] eqn:Et; [|done]. rewrite (node_at_order _ seq Hk). cbn [mbind result_bind].
  destruct (Hc i recipe call seq k Er Hcall Et) as (m & -> & Hm). by rewrite Hm, bool_decide_eq_true_2.
Qed.

(** C6: a sequence number published for a call addresses, in the buffer, the node that plan node wrote.
    The recipes stand in the plan's post-order.  Each call's number is the place, in the post-order the
    device and the reader count in, of a node made by one of the writers of that very plan node and of
    the kind the call names; so the reader's own check of a recipe plan never refuses one.  The numbers
    rise from one plan node's calls to the next's, and the count the device reports is the buffer's. *)
Theorem published_seq_addresses_its_node root scratch rp :
  forallb has_branch (descendants root) = true -> attach_recipes root scratch = Good rp ->
  (forall seq, node_at (Some (buffer rp)) seq = Ok (wire_order (buffer rp) !! seq))
  /\ wire_nodes rp = length (wire_order (buffer rp))
  /\ Forall2 (fun node recipe => forall call seq k, call ∈ default [] recipe -> target call = Some (seq, k) ->
       exists build kids m, (k, build) ∈ payloads scratch node /\ build kids = Good m
         /\ wire_order (buffer rp) !! seq = Some m /\ node_type m = wire_kind k) (postorder root) (recipes rp)
  /\ (forall i j ri rj s t, i < j -> recipes rp !! i = Some ri -> recipes rp !! j = Some rj ->
        s ∈ seqs (default [] ri) -> t ∈ seqs (default [] rj) -> s < t)
  /\ (forall verify, verify (buffer rp) = Ok () -> check_seq_kinds verify rp = Ok ()).
Proof.
  intros Hb Hr. rewrite forallb_forall in Hb.
  assert (Hb' : forall m, m ∈ descendants root -> has_branch m = true) by (intros m Hm; by apply Hb, list_elem_of_In).
  clear Hb. rename Hb' into Hb. destruct (attach_inv _ _ _ Hr) as (w & Hw & Hp & Hq & _).
  destruct (attach_leaves_a_root _ _ _ _ Hb Hw) as (top & Hp' & [Hn Ha] & Hall & Hord).
  rewrite Hp in Hp'. injection Hp' as <-.
  assert (Hm : made w = wire_order (buffer rp)) by (unfold made; rewrite Hp; cbn; by rewrite app_nil_r).
  rewrite Hm in Hn, Ha.
  assert (Hcalls : Forall2 (fun node recipe => forall call seq k, call ∈ default [] recipe -> target call = Some (seq, k) ->
       exists build kids m, (k, build) ∈ payloads scratch node /\ build kids = Good m
         /\ wire_order (buffer rp) !! seq = Some m /\ node_type m = wire_kind k) (postorder root) (recipes rp)).
  { apply (Forall2_impl _ _ _ _ Hall). intros node recipe Hs call seq k Hin Ht. unfold serves in Hs.
    rewrite Forall_forall in Hs. specialize (Hs call Hin). unfold addressed in Hs. rewrite Ht in Hs. apply Hs. }
  split; [intros seq; by apply node_at_order|]. split; [congruence|]. split; [exact Hcalls|]. split.
  - intros i j ri rj s t. by apply (in_order_lookup _ _ _ i j ri rj s t Hord).
  - intros verify Hv. apply checks_out; [done|done|]. intros i recipe call seq k Hi Hin Ht.
    unfold recipe_of in Hi. destruct (recipes rp !! i) as [r|] eqn:Er; [|done]. subst r.
    destruct (Forall2_lookup_r _ _ _ _ _ Hcalls Er) as (node & _ & Hs).
    destruct (Hs call seq k Hin Ht) as (_ & _ & m & _ & _ & Hl & Hk). by exists m.
Qed.

(** ** The recipe plan of a planned join *)
#[local] Existing Instance demo_session.
Definition demo_attached : RecipePlan := Eval vm_compute in
  match attach_recipes demo_planned.1 DEFAULT_CHUNK_BYTES with
  | Good rp => rp
  | _ => {| recipes := []; buffer := scan_of_nothing; wire_nodes := 0; rp_join_scratch_bytes := 0 |}
  end.

Lemma published_seq_addresses_its_node_witness :
  forallb has_branch (descendants demo_planned.1) = true
  /\ (forall seq, node_at (Some (buffer demo_attached)) seq = Ok (wire_order (buffer demo_attached) !! seq))
  /\ wire_nodes demo_attached = length (wire_order (buffer demo_attached))
  /\ Forall2 (fun node recipe => forall call seq k, call ∈ default [] recipe -> target call = Some (seq, k) ->
       exists build kids m, (k, build) ∈ payloads DEFAULT_CHUNK_BYTES node /\ build kids = Good m
         /\ wire_order (buffer demo_attached) !! seq = Some m /\ node_type m = wire_kind k)
       (postorder demo_planned.1) (recipes demo_attached)
  /\ (forall i j ri rj s t, i < j -> recipes demo_attached !! i = Some ri -> recipes demo_attached !! j = Some rj ->
        s ∈ seqs (default [] ri) -> t ∈ seqs (default [] rj) -> s < t)
  /\ (forall verify, verify (buffer demo_attached) = Ok () -> check_seq_kinds verify demo_attached = Ok ()).
Proof.
  split; [vm_compute; reflexivity|].
  apply (published_seq_addresses_its_node demo_planned.1 DEFAULT_CHUNK_BYTES demo_attached); vm_compute; reflexivity.
Defined.

(** A join is a leaf of the buffer, and what it was handed is gathered beside it: the seven nodes of this
    buffer are the two scans, the two shuffles, the coalesce, the join and a union no call addresses. *)
Example demo_numbers :
  map (fun r => seqs (default [] r)) (recipes demo_attached) = [[0]; []; [1]; [2]; [3]; []; [4]; [5; 5]; []; []]
  /\ map node_type (wire_order (buffer demo_attached))
     = [TScan; TRepartition; TCoalescePartitions; TScan; TRepartition; TJoin; TUnion].
Proof. split; vm_compute; reflexivity. Qed.
