(* ===== verification/Dphyp.v ===== *)
(** * DPhyp: the cheapest join tree of a hypergraph

    [peacockdb-dphyp/src/lib.rs], [enumerate.rs] and [ffi.rs].  A [RelSet] is the source's [u64], an
    [N] whose bit [r] is relation [r].  The enumeration is written over a type of costs ([Cost]: zero,
    [+] and [<]), at [f64] the source's own.  [set_cost] is a function of the set.  The methods pass the
    enumerator's maps and pair count; [None] is an index of a plan that is not there, or the recursion
    past its fuel, and DphypFacts shows neither happens. *)
From stdpp Require Import gmap.
From Stdlib Require Import Floats.SpecFloat.
From S2P Require Import Prelude Memory.
Open Scope nat_scope.

Definition RelSet := N.
Definition rel_max : RelSet := (2 ^ 64 - 1)%N.

(** ** Sets of relations *)
Fixpoint pos_trailing_zeros (p : positive) : nat :=
  match p with xO p => S (pos_trailing_zeros p) | _ => 0 end.
(** [u64::trailing_zeros], 64 of nothing. *)
Definition trailing_zeros (s : RelSet) : nat :=
  match s with N0 => 64 | Npos p => pos_trailing_zeros p end.

(** [1 << r]. *)
Definition one (r : nat) : RelSet := N.shiftl 1 (N.of_nat r).

(** [u64::isolate_lowest_one]. *)
Definition isolate_lowest_one (s : RelSet) : RelSet := match s with N0 => 0%N | Npos _ => one (trailing_zeros s) end.

(** [a & !b == 0]. *)
Definition within (a b : RelSet) : bool := (N.ldiff a b =? 0)%N.

(** Relations [0..=r]. *)
Definition below_or_at (r : nat) : RelSet := if 63 <=? r then rel_max else (one (S r) - 1)%N.

Definition u64_wrapping_sub (a b : N) : N := ((a + 2 ^ 64 - b) mod 2 ^ 64)%N.

Definition next_submask (set current : RelSet) : RelSet := N.land (u64_wrapping_sub current set) set.

Fixpoint submasks_from (fuel : nat) (set current : RelSet) : list RelSet :=
  match fuel with
  | 0 => []
  | S fuel =>
      let current := next_submask set current in
      if (current =? 0)%N then [] else current :: submasks_from fuel set current
  end.

Fixpoint pos_count_ones (p : positive) : nat :=
  match p with xH => 1 | xO p => pos_count_ones p | xI p => S (pos_count_ones p) end.
Definition count_ones (s : RelSet) : nat := match s with N0 => 0 | Npos p => pos_count_ones p end.

(** The iterator run to its end: a set of [k] relations has [2 ^ k - 1] submasks. *)
Definition submasks (set : RelSet) : list RelSet := submasks_from (2 ^ count_ones set) set 0%N.

(** ** Costs *)
Class Cost (C : Type) := { cost_zero : C; cost_add : C -> C -> C; cost_lt : C -> C -> bool }.
#[export] Instance f64_cost : Cost f64 :=
  { cost_zero := S754_zero false; cost_add := SFadd 53 1024; cost_lt := SFltb }.

(** ** What is answered *)
Inductive JoinTree := Rel (r : nat) | Join (lhs rhs : JoinTree) (edge : nat).

(** [JoinTree::relations]. *)
Fixpoint relations (t : JoinTree) : RelSet :=
  match t with Rel r => one r | Join lhs rhs _ => N.lor (relations lhs) (relations rhs) end.

Record Solved (C : Type) := { tree : JoinTree; cost : C; pairs : N }.
Arguments tree {C}. Arguments cost {C}. Arguments pairs {C}. Arguments Build_Solved {C}.

Inductive Unsolved := BudgetExhausted | Disconnected | RelationCount (n : nat) | EdgeRefused (at_ : nat).

(** ** The enumeration *)
Record Plan (C : Type) := { plan_cost : C; split : option (RelSet * RelSet * nat) }.
Arguments plan_cost {C}. Arguments split {C}. Arguments Build_Plan {C}.

(** What the methods change. *)
Record Dp (C : Type) := { costs : gmap RelSet C; plans : gmap RelSet (Plan C); dp_pairs : N }.
Arguments costs {C}. Arguments plans {C}. Arguments dp_pairs {C}. Arguments Build_Dp {C}.

Section Enumerate.
Context {C : Type} `{Cost C}.
Context (n : nat) (directed : list (RelSet * RelSet * nat)) (set_cost : RelSet -> C) (max_pairs : N).

Definition exhausted (d : Dp C) : bool := (max_pairs <? dp_pairs d)%N.

Definition neighborhood (set excluded : RelSet) : RelSet :=
  foldl (fun found '(from, to, _) =>
    if within from set && (N.land to (N.lor set excluded) =? 0)%N then N.lor found (isolate_lowest_one to) else found)
    0%N directed.

Definition edge_between (lhs rhs : RelSet) : option nat :=
  match find (fun '(from, to, _) => within from lhs && within to rhs) directed with
  | Some (_, _, at_) => Some at_
  | None => None
  end.

(** [costs.get] and, the first time, the caller's figure. *)
Definition own_cost (joined : RelSet) (d : Dp C) : C * Dp C :=
  match costs d !! joined with
  | Some cost => (cost, d)
  | None =>
      let cost := set_cost joined in
      (cost, {| costs := <[joined := cost]> (costs d); plans := plans d; dp_pairs := dp_pairs d |})
  end.

(** [pairs] is a [u64] the source adds one to for each pair it visits; it is not cut to its width, which
    a count that stops once past [max_pairs] could only reach with [max_pairs] its greatest value. *)
Definition emit_csg_cmp (lhs rhs : RelSet) (edge : nat) (d : Dp C) : option (Dp C) :=
  let d := {| costs := costs d; plans := plans d; dp_pairs := (dp_pairs d + 1)%N |} in
  if exhausted d then Some d
  else
    let joined := N.lor lhs rhs in
    let '(own, d) := own_cost joined d in
    l ← plans d !! lhs;
    r ← plans d !! rhs;
    let cost := cost_add (cost_add own (plan_cost l)) (plan_cost r) in
    if match plans d !! joined with None => true | Some plan => cost_lt cost (plan_cost plan) end
    then Some {| costs := costs d;
                 plans := <[joined := {| plan_cost := cost; split := Some (lhs, rhs, edge) |}]> (plans d);
                 dp_pairs := dp_pairs d |}
    else Some d.

Definition planned (d : Dp C) (set : RelSet) : bool := bool_decide (is_Some (plans d !! set)).

(** A loop that returns from its method once the budget is passed: [true] is that return. *)
Fixpoint until_exhausted (masks : list RelSet) (body : RelSet -> Dp C -> option (Dp C)) (d : Dp C) :
    option (bool * Dp C) :=
  match masks with
  | [] => Some (false, d)
  | grown :: masks =>
      if exhausted d then Some (true, d) else d ← body grown d; until_exhausted masks body d
  end.

Fixpoint each (masks : list RelSet) (body : RelSet -> Dp C -> option (Dp C)) (d : Dp C) : option (Dp C) :=
  match masks with [] => Some d | grown :: masks => d ← body grown d; each masks body d end.

Fixpoint enumerate_cmp_rec (fuel : nat) (set other excluded : RelSet) (d : Dp C) : option (Dp C) :=
  match fuel with
  | 0 => None
  | S fuel =>
      let neighbors := neighborhood other excluded in
      '(returned, d) ← until_exhausted (submasks neighbors) (fun grown d =>
        let grown := N.lor other grown in
        if planned d grown
        then match edge_between set grown with Some edge => emit_csg_cmp set grown edge d | None => Some d end
        else Some d) d;
      if returned : bool then Some d
      else each (submasks neighbors) (fun grown => enumerate_cmp_rec fuel set (N.lor other grown) (N.lor excluded neighbors)) d
  end.

(** The relations of [neighbors], from the highest. *)
Definition seeds (neighbors : RelSet) : list nat :=
  filter (fun r => N.land neighbors (one r) <> 0%N) (rev (seq 0 n)).

Definition emit_csg (set : RelSet) (d : Dp C) : option (Dp C) :=
  let excluded := N.lor set (below_or_at (trailing_zeros set)) in
  let neighbors := neighborhood set excluded in
  foldl (fun d r =>
    d ← d;
    let other := one r in
    d ← match edge_between set other with Some edge => emit_csg_cmp set other edge d | None => Some d end;
    enumerate_cmp_rec (S n) set other (N.lor excluded (N.land neighbors (below_or_at r))) d)
    (Some d) (seeds neighbors).

Fixpoint enumerate_csg_rec (fuel : nat) (set excluded : RelSet) (d : Dp C) : option (Dp C) :=
  match fuel with
  | 0 => None
  | S fuel =>
      let neighbors := neighborhood set excluded in
      '(returned, d) ← until_exhausted (submasks neighbors) (fun grown d =>
        if planned d (N.lor set grown) then emit_csg (N.lor set grown) d else Some d) d;
      if returned : bool then Some d
      else each (submasks neighbors) (fun grown => enumerate_csg_rec fuel (N.lor set grown) (N.lor excluded neighbors)) d
  end.

Fixpoint tree_of_plan (fuel : nat) (plans : gmap RelSet (Plan C)) (set : RelSet) : option JoinTree :=
  match fuel with
  | 0 => None
  | S fuel =>
      plan ← plans !! set;
      match split plan with
      | None => Some (Rel (trailing_zeros set))
      | Some (lhs, rhs, edge) =>
          lhs ← tree_of_plan fuel plans lhs;
          rhs ← tree_of_plan fuel plans rhs;
          Some (Join lhs rhs edge)
      end
  end.

Definition leaf_plan : Plan C := {| plan_cost := cost_zero; split := None |}.

Definition dp_new : Dp C :=
  {| costs := ∅; plans := foldl (fun plans r => <[one r := leaf_plan]> plans) ∅ (seq 0 n); dp_pairs := 0%N |}.

(** The relations from the highest: [Some (inr d)] goes on, [inl] returns. *)
Fixpoint roots (rs : list nat) (d : Dp C) : option (Unsolved + Dp C) :=
  match rs with
  | [] => Some (inr d)
  | r :: rs =>
      d ← emit_csg (one r) d;
      d ← enumerate_csg_rec (S n) (one r) (below_or_at r) d;
      if exhausted d then Some (inl BudgetExhausted) else roots rs d
  end.

Definition all_relations : RelSet := if n =? 64 then rel_max else (one n - 1)%N.

Definition dp_solve : option (result Unsolved (Solved C)) :=
  swept ← roots (rev (seq 0 n)) dp_new;
  match swept with
  | inl unsolved => Some (Err unsolved)
  | inr d =>
      match plans d !! all_relations with
      | None => Some (Err Disconnected)
      | Some plan =>
          tree ← tree_of_plan n (plans d) all_relations;
          Some (Ok {| tree := tree; cost := plan_cost plan; pairs := dp_pairs d |})
      end
  end.
End Enumerate.

(** Every edge in both directions.  The index is an [as u32] of the place in the list, which the C ABI
    bounds by its own [n_edges: u32], so it stays the place. *)
Definition both_ways (edges : list (RelSet * RelSet)) : list (RelSet * RelSet * nat) :=
  concat (imap (fun at_ '(lhs, rhs) => [(lhs, rhs, at_); (rhs, lhs, at_)]) edges).

Definition malformed (n : nat) (edge : RelSet * RelSet) : bool :=
  let '(lhs, rhs) := edge in
  (lhs =? 0)%N || (rhs =? 0)%N || negb (N.land lhs rhs =? 0)%N || negb (within (N.lor lhs rhs) (all_relations n)).

Definition solve {C} `{Cost C} (n : nat) (edges : list (RelSet * RelSet)) (set_cost : RelSet -> C) (max_pairs : N) :
    option (result Unsolved (Solved C)) :=
  if (n =? 0) || (64 <? n) then Some (Err (RelationCount n))
  else match list_find (fun edge => malformed n edge = true) edges with
       | Some (at_, _) => Some (Err (EdgeRefused at_))
       | None => dp_solve n (both_ways edges) set_cost max_pairs
       end.

(** ** The C ABI: a tree in postfix, one [int32] a node *)
(** [as i32] of a [u32]. *)
Definition as_i32 (n : nat) : Z := ((Z.of_nat n + 2 ^ 31) mod 2 ^ 32 - 2 ^ 31)%Z.

Fixpoint write_postfix (t : JoinTree) (out : list Z) : list Z :=
  match t with
  | Rel r => out ++ [as_i32 r]
  | Join lhs rhs edge => write_postfix rhs (write_postfix lhs out) ++ [(-1 - as_i32 edge)%Z]
  end.

(** The code returned, and where it is 0 what is written to [out_tree]; the counts are [u32]s, [2n - 1]
    wrapping as a release build's does. *)
Definition dphyp_solve {C} `{Cost C} (n_relations : nat) (edges : list (RelSet * RelSet)) (set_cost : RelSet -> C)
    (max_pairs : N) (out_capacity : nat) : option (Z * list Z) :=
  if (1 <=? n_relations) && (Z.of_nat out_capacity <? (2 * Z.of_nat n_relations - 1) mod 2 ^ 32)%Z then Some ((-3)%Z, [])
  else
    answer ← solve n_relations edges set_cost max_pairs;
    Some match answer with
         | Ok solved => (0%Z, write_postfix (tree solved) [])
         | Err BudgetExhausted => (1%Z, [])
         | Err Disconnected => (2%Z, [])
         | Err (RelationCount _) => ((-1)%Z, [])
         | Err (EdgeRefused _) => ((-2)%Z, [])
         end.
