(* ===== verification/DphypSets.v ===== *)
(** * Sets of relations as 64-bit masks

    What the bit operations of the enumerator do to the relations a mask holds, and the iterator over
    the submasks of a mask: it yields every non-empty one, in increasing order, and stops. *)
From stdpp Require Import gmap.
From Stdlib Require Import Sorted.
From S2P Require Import Prelude Dphyp.
Open Scope nat_scope.

(** ** The relations of a mask *)
Definition has (s : RelSet) (r : nat) : bool := N.testbit s (N.of_nat r).

Lemma has_ext a b : (forall r, has a r = has b r) -> a = b.
Proof. intros He. apply N.bits_inj. intros i. rewrite <- (N2Nat.id i). apply He. Qed.

Lemma has_lor a b r : has (N.lor a b) r = has a r || has b r.
Proof. apply N.lor_spec. Qed.
Lemma has_land a b r : has (N.land a b) r = has a r && has b r.
Proof. apply N.land_spec. Qed.
Lemma has_ldiff a b r : has (N.ldiff a b) r = has a r && negb (has b r).
Proof. apply N.ldiff_spec. Qed.
Lemma has_zero r : has 0%N r = false.
Proof. apply N.bits_0. Qed.
Lemma has_one k r : has (one k) r = (r =? k).
Proof.
  unfold has, one. rewrite N.shiftl_1_l. destruct (Nat.eqb_spec r k) as [->|Hne].
  - apply N.pow2_bits_true.
  - apply N.pow2_bits_false. lia.
Qed.

Lemma zero_iff s : (s =? 0)%N = true <-> forall r, has s r = false.
Proof.
  rewrite N.eqb_eq. split; [intros ->; apply has_zero|]. intros Hn. apply has_ext. intros r. by rewrite Hn, has_zero.
Qed.

Lemma not_zero s : s <> 0%N <-> exists r, has s r = true.
Proof.
  split.
  - intros Hs. destruct (N.eq_dec s 0) as [|_]; [done|]. exists (N.to_nat (N.log2 s)).
    unfold has. rewrite N2Nat.id. by apply N.bit_log2.
  - intros [r Hr] ->. by rewrite has_zero in Hr.
Qed.

Lemma within_iff a b : within a b = true <-> forall r, has a r = true -> has b r = true.
Proof.
  unfold within. rewrite zero_iff. split; intros Hw r.
  - intros Ha. specialize (Hw r). rewrite has_ldiff, Ha in Hw. by destruct (has b r).
  - rewrite has_ldiff. specialize (Hw r). destruct (has a r); [|done]. by rewrite Hw.
Qed.

Lemma disjoint_iff a b : (N.land a b =? 0)%N = true <-> forall r, has a r = true -> has b r = false.
Proof.
  rewrite zero_iff. split; intros Hd r.
  - intros Ha. specialize (Hd r). by rewrite has_land, Ha in Hd.
  - rewrite has_land. specialize (Hd r). destruct (has a r); [|done]. by rewrite Hd.
Qed.

Lemma pos_tz p : has (Npos p) (pos_trailing_zeros p) = true
  /\ forall r, r < pos_trailing_zeros p -> has (Npos p) r = false.
Proof.
  induction p as [p _|p [IH1 IH2]|]; cbn [pos_trailing_zeros]; [split; [done|lia]| |split; [done|lia]].
  split.
  - unfold has in *. rewrite Nat2N.inj_succ. by rewrite (N.testbit_even_succ (Npos p)) by lia.
  - intros [|r] Hr; [done|]. unfold has in *. rewrite Nat2N.inj_succ. rewrite (N.testbit_even_succ (Npos p)) by lia.
    apply IH2. lia.
Qed.

Lemma tz_has s : s <> 0%N -> has s (trailing_zeros s) = true.
Proof. destruct s as [|p]; [done|]. intros _. apply pos_tz. Qed.
Lemma tz_least s r : has s r = true -> trailing_zeros s <= r.
Proof.
  destruct s as [|p]; [by rewrite has_zero|]. intros Hr. destruct (Nat.le_gt_cases (trailing_zeros (Npos p)) r); [done|].
  by rewrite (proj2 (pos_tz p)) in Hr.
Qed.
Lemma tz_unique s k : has s k = true -> (forall r, has s r = true -> k <= r) -> trailing_zeros s = k.
Proof.
  intros Hk Hl. assert (s <> 0%N) by (apply not_zero; eauto). pose proof (Hl _ (tz_has s H)). pose proof (tz_least s k Hk). lia.
Qed.

Lemma has_lowest s r : has (isolate_lowest_one s) r = true -> has s r = true /\ r = trailing_zeros s.
Proof.
  destruct s as [|p]; [by rewrite has_zero|]. cbn [isolate_lowest_one]. rewrite has_one. intros ->%Nat.eqb_eq.
  split; [by apply tz_has|done].
Qed.
Lemma lowest_has s : s <> 0%N -> has (isolate_lowest_one s) (trailing_zeros s) = true.
Proof. destruct s as [|p]; [done|]. intros _. cbn. by rewrite has_one, Nat.eqb_refl. Qed.

Lemma has_ones k r : has (one k - 1)%N r = (r <? k).
Proof.
  unfold has, one. rewrite N.shiftl_1_l. replace (2 ^ N.of_nat k - 1)%N with (N.ones (N.of_nat k)).
  2: { rewrite N.ones_equiv. lia. }
  destruct (Nat.ltb_spec r k); [apply N.ones_spec_low; lia|apply N.ones_spec_high; lia].
Qed.

Lemma has_max r : has rel_max r = (r <? 64).
Proof. change rel_max with (one 64 - 1)%N. apply has_ones. Qed.

Lemma has_below k r : r < 64 -> has (below_or_at k) r = (r <=? k).
Proof.
  intros Hr. unfold below_or_at. destruct (Nat.leb_spec 63 k).
  - rewrite has_max. destruct (Nat.ltb_spec r 64), (Nat.leb_spec r k); lia.
  - rewrite has_ones. destruct (Nat.ltb_spec r (S k)), (Nat.leb_spec r k); lia.
Qed.

Lemma has_all n r : n <= 64 -> has (all_relations n) r = (r <? n).
Proof.
  intros Hn. unfold all_relations. destruct (Nat.eqb_spec n 64) as [->|]; [apply has_max|apply has_ones].
Qed.

(** A mask of 64 bits holds relations below 64. *)
Lemma has_bound s w r : (s < 2 ^ N.of_nat w)%N -> has s r = true -> r < w.
Proof.
  intros Hs Hr. unfold has in Hr. destruct (Nat.lt_ge_cases r w) as [|Hge]; [done|].
  destruct (N.eq_dec s 0) as [->|Hnz]; [by rewrite N.bits_0 in Hr|].
  rewrite N.bits_above_log2 in Hr; [done|]. apply N.log2_lt_pow2; [lia|].
  apply (N.lt_le_trans _ _ _ Hs). apply N.pow_le_mono_r; lia.
Qed.

Lemma bound_has s w : (forall r, has s r = true -> r < w) -> (s < 2 ^ N.of_nat w)%N.
Proof.
  intros Hb. destruct (N.eq_dec s 0) as [->|Hnz]; [apply N.neq_0_lt_0, N.pow_nonzero; done|].
  apply N.log2_lt_pow2; [lia|]. specialize (Hb (N.to_nat (N.log2 s))). unfold has in Hb.
  rewrite N2Nat.id in Hb. specialize (Hb (N.bit_log2 s Hnz)). lia.
Qed.

(** ** The submasks of a mask *)
(** [next_submask] at any width. *)
Definition next_at (w : nat) (s c : N) : N :=
  N.land ((c + 2 ^ N.of_nat w - s) mod 2 ^ N.of_nat w) s.

(** The place of a submask among those of [s], from 0: its bits at the positions of [s], pressed together. *)
Fixpoint rank (w : nat) (s c : N) : nat :=
  match w with
  | 0 => 0
  | S w => if N.odd s then (if N.odd c then 1 else 0) + 2 * rank w (N.div2 s) (N.div2 c) else rank w (N.div2 s) (N.div2 c)
  end.

Lemma half s : exists h, s = (2 * h)%N \/ s = (2 * h + 1)%N.
Proof. destruct (N.Even_or_Odd s) as [[h ->]|[h ->]]; eauto. Qed.

Lemma pow_S w : (2 ^ N.of_nat (S w) = 2 * 2 ^ N.of_nat w)%N.
Proof. by rewrite Nat2N.inj_succ, N.pow_succ_r'. Qed.

Lemma double_mod a w : ((2 * a) mod 2 ^ N.of_nat (S w) = 2 * (a mod 2 ^ N.of_nat w))%N.
Proof. by rewrite pow_S, N.Div0.mul_mod_distr_l. Qed.

Lemma double_succ_mod a w : ((2 * a + 1) mod 2 ^ N.of_nat (S w) = 2 * (a mod 2 ^ N.of_nat w) + 1)%N.
Proof.
  rewrite pow_S. set (p := (2 ^ N.of_nat w)%N). assert (Hp : p <> 0%N) by (apply N.pow_nonzero; lia).
  pose proof (N.div_mod a p Hp) as Hd. pose proof (N.mod_lt a p Hp) as Hl.
  symmetry. apply (N.mod_unique _ _ (a / p)); lia.
Qed.

Lemma odd_double a : N.odd (2 * a) = false.
Proof. by rewrite N.odd_mul. Qed.
Lemma odd_double_succ a : N.odd (2 * a + 1) = true.
Proof. apply N.odd_spec. by exists a. Qed.
Lemma div2_double_succ a : N.div2 (2 * a + 1) = a.
Proof. by destruct a. Qed.

Lemma rank_even w (s c : N) : rank (S w) (2 * s) (2 * c) = rank w s c.
Proof. cbn [rank]. by rewrite odd_double, !N.div2_double. Qed.
Lemma rank_low w s c : rank (S w) (2 * s + 1) (2 * c) = 2 * rank w s c.
Proof. cbn [rank]. by rewrite odd_double_succ, odd_double, N.div2_double, div2_double_succ. Qed.
Lemma rank_high w s c : rank (S w) (2 * s + 1) (2 * c + 1) = S (2 * rank w s c).
Proof. cbn [rank]. by rewrite !odd_double_succ, !div2_double_succ. Qed.

Lemma within_even (a b : N) : within (2 * a)%N (2 * b)%N = within a b.
Proof. unfold within. rewrite N.ldiff_even_even. destruct (N.eqb_spec (2 * N.ldiff a b) 0), (N.eqb_spec (N.ldiff a b) 0); lia. Qed.
Lemma within_low (a b : N) : within (2 * a)%N (2 * b + 1)%N = within a b.
Proof. unfold within. rewrite N.ldiff_even_odd. destruct (N.eqb_spec (2 * N.ldiff a b) 0), (N.eqb_spec (N.ldiff a b) 0); lia. Qed.
Lemma within_high (a b : N) : within (2 * a + 1)%N (2 * b + 1)%N = within a b.
Proof. unfold within. rewrite N.ldiff_odd_odd. destruct (N.eqb_spec (2 * N.ldiff a b) 0), (N.eqb_spec (N.ldiff a b) 0); lia. Qed.
Lemma within_odd_even (a b : N) : within (2 * a + 1)%N (2 * b)%N = false.
Proof. unfold within. rewrite N.ldiff_odd_even. apply N.eqb_neq. lia. Qed.

(** The complement of [s] among [w] bits, with the bits of a submask [c] put back. *)
Lemma put_back w : forall s c, (s < 2 ^ N.of_nat w)%N -> within c s = true ->
  N.land (c + 2 ^ N.of_nat w - 1 - s) s = c.
Proof.
  induction w as [|w IH]; intros s c Hs Hc.
  - assert (s = 0%N) as -> by (cbn in Hs; lia). rewrite N.land_0_r. unfold within in Hc.
    rewrite N.ldiff_0_r in Hc. apply N.eqb_eq in Hc. by subst.
  - rewrite pow_S in *. destruct (half s) as [t [->| ->]], (half c) as [k [->| ->]];
      rewrite ?within_even, ?within_low, ?within_high, ?within_odd_even in Hc; try done;
      specialize (IH t k ltac:(lia) Hc).
    + replace (2 * k + 2 * 2 ^ N.of_nat w - 1 - 2 * t)%N with (2 * (k + 2 ^ N.of_nat w - 1 - t) + 1)%N by lia.
      by rewrite N.land_odd_even, IH.
    + replace (2 * k + 2 * 2 ^ N.of_nat w - 1 - (2 * t + 1))%N with (2 * (k + 2 ^ N.of_nat w - 1 - t))%N by lia.
      by rewrite N.land_even_odd, IH.
    + replace (2 * k + 1 + 2 * 2 ^ N.of_nat w - 1 - (2 * t + 1))%N with (2 * (k + 2 ^ N.of_nat w - 1 - t) + 1)%N by lia.
      by rewrite N.land_odd_odd, IH.
Qed.

Lemma within_le c s : within c s = true -> (c <= s)%N.
Proof. intros Hc%N.eqb_eq. by apply N.ldiff_le. Qed.

Lemma next_even w s c : (c <= s < 2 ^ N.of_nat w)%N -> next_at (S w) (2 * s) (2 * c) = (2 * next_at w s c)%N.
Proof.
  intros Hs. unfold next_at. rewrite <- N.land_even_even, <- double_mod, pow_S. do 2 f_equal. lia.
Qed.
Lemma next_high w s c : (c <= s < 2 ^ N.of_nat w)%N -> next_at (S w) (2 * s + 1) (2 * c + 1) = (2 * next_at w s c)%N.
Proof.
  intros Hs. unfold next_at. rewrite <- N.land_even_odd, <- double_mod, pow_S. do 2 f_equal. lia.
Qed.
Lemma next_low w s c : (s < 2 ^ N.of_nat w)%N -> within c s = true -> next_at (S w) (2 * s + 1) (2 * c) = (2 * c + 1)%N.
Proof.
  intros Hs Hc. pose proof (within_le _ _ Hc). unfold next_at. rewrite pow_S.
  replace (2 * c + 2 * 2 ^ N.of_nat w - (2 * s + 1))%N with (2 * (c + 2 ^ N.of_nat w - 1 - s) + 1)%N by lia.
  rewrite <- pow_S, double_succ_mod, N.land_odd_odd, N.mod_small by lia. by rewrite put_back.
Qed.

(** From the whole mask the iterator is at nothing again, and from any other submask it is at the next
    larger one. *)
Lemma next_of_all w s : (s < 2 ^ N.of_nat w)%N -> next_at w s s = 0%N.
Proof.
  intros Hs. unfold next_at. replace (s + 2 ^ N.of_nat w - s)%N with (2 ^ N.of_nat w)%N by lia.
  by rewrite N.Div0.mod_same.
Qed.

Lemma next_is_next w : forall s c, (s < 2 ^ N.of_nat w)%N -> within c s = true -> c <> s ->
  within (next_at w s c) s = true /\ (c < next_at w s c)%N /\ rank w s (next_at w s c) = S (rank w s c)
  /\ (forall d, within d s = true -> (c < d)%N -> (next_at w s c <= d)%N).
Proof.
  induction w as [|w IH]; intros s c Hs Hc Hne.
  - assert (s = 0%N) as -> by (cbn in Hs; lia). pose proof (within_le _ _ Hc). lia.
  - rewrite pow_S in Hs. pose proof (within_le _ _ Hc) as Hle.
    destruct (half s) as [t [->| ->]], (half c) as [k [->| ->]];
      rewrite ?within_even, ?within_low, ?within_high, ?within_odd_even in Hc; try done.
    + rewrite next_even, within_even, !rank_even by lia. destruct (IH t k ltac:(lia) Hc ltac:(lia)) as (H1 & H2 & H3 & H4).
      split_and!; [done|lia|done|]. intros d Hd Hlt. destruct (half d) as [e [->| ->]];
        rewrite ?within_even, ?within_odd_even in Hd; [|done]. specialize (H4 e Hd). lia.
    + rewrite next_low, within_high, rank_high, rank_low by (done || lia).
      split_and!; [done|lia|lia|]. intros d Hd Hlt. lia.
    + rewrite next_high, within_low, rank_low, rank_high by lia. destruct (IH t k ltac:(lia) Hc ltac:(lia)) as (H1 & H2 & H3 & H4).
      split_and!; [done|lia|lia|]. intros d Hd Hlt. destruct (half d) as [e [->| ->]].
      * rewrite within_low in Hd. specialize (H4 e Hd). lia.
      * rewrite within_high in Hd. specialize (H4 e Hd). lia.
Qed.

Lemma count_double (t : N) : count_ones (2 * t)%N = count_ones t.
Proof. by destruct t. Qed.
Lemma count_double_succ (t : N) : count_ones (2 * t + 1)%N = S (count_ones t).
Proof. by destruct t. Qed.

Lemma rank_all w : forall s, (s < 2 ^ N.of_nat w)%N -> S (rank w s s) = 2 ^ count_ones s.
Proof.
  induction w as [|w IH]; intros s Hs.
  - assert (s = 0%N) as -> by (cbn in Hs; lia). done.
  - rewrite pow_S in Hs. destruct (half s) as [t [->| ->]].
    + rewrite rank_even, IH by lia. by rewrite count_double.
    + rewrite rank_high. rewrite count_double_succ.
      rewrite Nat.pow_succ_r', <- IH by lia. lia.
Qed.

Lemma rank_lt w : forall s c, (s < 2 ^ N.of_nat w)%N -> within c s = true -> rank w s c < 2 ^ count_ones s.
Proof.
  induction w as [|w IH]; intros s c Hs Hc; [cbn [rank]; apply Nat.neq_0_lt_0, Nat.pow_nonzero; lia|].
  rewrite pow_S in Hs. destruct (half s) as [t [->| ->]], (half c) as [k [->| ->]];
    rewrite ?within_even, ?within_low, ?within_high, ?within_odd_even in Hc; try done;
    specialize (IH t k ltac:(lia) Hc).
  - rewrite rank_even. by rewrite count_double.
  - rewrite rank_low. rewrite count_double_succ.
    rewrite Nat.pow_succ_r'. lia.
  - rewrite rank_high. rewrite count_double_succ.
    rewrite Nat.pow_succ_r'. lia.
Qed.

Lemma within_zero s : within 0%N s = true.
Proof. by destruct s. Qed.
Lemma within_refl s : within s s = true.
Proof. unfold within. by rewrite N.ldiff_diag. Qed.

Lemma next_submask_at s c : next_submask s c = next_at 64 s c.
Proof. done. Qed.

(** What is left to yield after [c]. *)
Lemma submasks_from_spec s : (s < 2 ^ 64)%N -> forall fuel c, within c s = true -> 2 ^ count_ones s <= fuel + rank 64 s c ->
  StronglySorted N.lt (submasks_from fuel s c) /\ (forall d, In d (submasks_from fuel s c) <-> within d s = true /\ (c < d)%N).
Proof.
  intros Hs. induction fuel as [|fuel IH]; intros c Hc Hfuel; [pose proof (rank_lt 64 s c Hs Hc); lia|].
  cbn [submasks_from]. rewrite next_submask_at. destruct (N.eq_dec c s) as [->|Hne].
  - rewrite next_of_all by done. cbn [N.eqb]. split; [constructor|]. intros d. split; [done|].
    intros [Hd Hlt]. pose proof (within_le _ _ Hd). lia.
  - destruct (next_is_next 64 s c Hs Hc Hne) as (H1 & H2 & H3 & H4).
    destruct (N.eqb_spec (next_at 64 s c) 0) as [Hz|_]; [lia|].
    destruct (IH _ H1) as [IS II]; [lia|]. split.
    + constructor; [done|]. apply List.Forall_forall. intros d Hd. exact (proj2 (proj1 (II d) Hd)).
    + intros d. cbn [In]. rewrite II. split.
      * intros [<-|[? ?]]; split; (done || lia).
      * intros [Hd Hlt]. specialize (H4 d Hd Hlt). destruct (N.eq_dec (next_at 64 s c) d); [by left|right]. split; [done|lia].
Qed.

Lemma submasks_spec s : (s < 2 ^ 64)%N ->
  StronglySorted N.lt (submasks s) /\ (forall d, In d (submasks s) <-> within d s = true /\ d <> 0%N).
Proof.
  intros Hs. destruct (submasks_from_spec s Hs (2 ^ count_ones s) 0%N (within_zero s)) as [H1 H2]; [lia|].
  split; [done|]. intros d. unfold submasks. rewrite H2. split; intros [? ?]; (split; [done|lia]).
Qed.
