(* ===== verification/DphypSteps.v ===== *)
(** * The invariant of the enumerator

    What holds of the table of plans while [Dp] runs, and that every method keeps it.  A plan is a leaf
    or a join of two disjoint planned sets on an edge between them, and costs what its sides cost now:
    no plan is replaced once a join was built on it, because a connected set is reached only after every
    connected subset of it that starts at the same relation ([reach], [front]).  And unless the budget
    is passed, every pair of connected sets an edge joins has been tried once its first side was taken
    ([cov]), so the plan of their union costs no more than theirs and its own ([covered]). *)
From stdpp Require Import gmap.
From Stdlib Require Import Sorted Permutation.
From S2P Require Import Prelude Memory Dphyp DphypSets.
Open Scope nat_scope.

(** ** Comparing costs *)
(** [R a b]: [a] is no more than [b].  The laws are asked only of costs [R] relates to themselves, so
    that of [f64] it may leave out what is not a number. *)
Record Compares {C} `{Cost C} (set_cost : RelSet -> C) (R : C -> C -> Prop) : Prop := {
  compares_zero : R cost_zero cost_zero;
  compares_own : forall s, R (set_cost s) (set_cost s);
  compares_trans : forall a b c, R a b -> R b c -> R a c;
  compares_add : forall a a' b b', R a a' -> R b b' -> R (cost_add a b) (cost_add a' b');
  compares_lt : forall a b, R a a -> R b b -> cost_lt a b = true -> R a b;
  compares_not_lt : forall a b, R a a -> R b b -> cost_lt a b = false -> R b a }.

(** ** Sets of the first [n] relations *)
Definition members (n : nat) (s : RelSet) : list nat := filter (fun r => has s r = true) (seq 0 n).

Definition inside (n : nat) (s : RelSet) : Prop := forall r, has s r = true -> r < n.

Lemma elem_of_members n s r : r ∈ members n s <-> has s r = true /\ r < n.
Proof. unfold members. rewrite list_elem_of_filter, elem_of_seq. intuition lia. Qed.

Lemma NoDup_members n s : NoDup (members n s).
Proof. apply NoDup_filter, NoDup_seq. Qed.

Lemma members_le n s : length (members n s) <= n.
Proof. unfold members. etrans; [apply length_filter|]. by rewrite length_seq. Qed.

Lemma members_grow n s t r : (forall k, has s k = true -> has t k = true) -> has t r = true -> has s r = false -> r < n ->
  length (members n s) < length (members n t).
Proof.
  intros Hs Ht Hr Hn. apply (submseteq_length (r :: members n s)), NoDup_submseteq.
  - constructor; [|apply NoDup_members]. rewrite elem_of_members, Hr. by intros [? _].
  - intros k. rewrite elem_of_cons, !elem_of_members. intros [->|[? ?]]; auto.
Qed.

Lemma members_split n a b : (forall r, has a r = true -> has b r = false) ->
  members n (N.lor a b) ≡ₚ members n a ++ members n b.
Proof.
  intros Hd. apply NoDup_Permutation; [apply NoDup_members| |].
  - apply NoDup_app. split_and!; [apply NoDup_members| |apply NoDup_members].
    intros r. rewrite !elem_of_members. intros [Ha _] [Hb _]. by rewrite (Hd r Ha) in Hb.
  - intros r. rewrite elem_of_app, !elem_of_members, has_lor, orb_true_iff. tauto.
Qed.

Lemma members_one n k : k < n -> members n (one k) = [k].
Proof.
  intros Hk. apply Permutation_singleton_r. symmetry. apply NoDup_Permutation; [apply NoDup_singleton|apply NoDup_members|].
  intros r. rewrite list_elem_of_singleton, elem_of_members, has_one, Nat.eqb_eq. intuition lia.
Qed.

Lemma inside_bound n s : n <= 64 -> inside n s -> (s < 2 ^ 64)%N.
Proof. intros Hn Hi. apply (bound_has s 64). intros r Hr. specialize (Hi r Hr). lia. Qed.

Lemma inside_lor n a b : inside n a -> inside n b -> inside n (N.lor a b).
Proof. intros Ha Hb r. rewrite has_lor, orb_true_iff. intros [?|?]; auto. Qed.

Lemma members_all n : n <= 64 -> members n (all_relations n) ≡ₚ seq 0 n.
Proof.
  intros Hn. apply NoDup_Permutation; [apply NoDup_members|apply NoDup_seq|].
  intros r. rewrite elem_of_members, has_all, Nat.ltb_lt, elem_of_seq by done. lia.
Qed.

Lemma within_lor_l a b : within a (N.lor a b) = true.
Proof. apply within_iff. intros r Hr. by rewrite has_lor, Hr. Qed.

Lemma tz_lor_l a b : a <> 0%N -> trailing_zeros a < trailing_zeros b -> trailing_zeros (N.lor a b) = trailing_zeros a.
Proof.
  intros Ha Hlt. apply tz_unique; [by rewrite has_lor, tz_has|].
  intros r. rewrite has_lor, orb_true_iff. intros [Hr|Hr]; apply tz_least in Hr; lia.
Qed.

Lemma tz_one r : trailing_zeros (one r) = r.
Proof. apply tz_unique; [by rewrite has_one, Nat.eqb_refl|]. intros k. rewrite has_one, Nat.eqb_eq. lia. Qed.

Lemma lor_same a b : (forall k, has a k = true -> has b k = false) -> N.lor a b = a -> b = 0%N.
Proof.
  intros Hd He. apply has_ext. intros r. rewrite has_zero. destruct (has b r) eqn:Hb; [|done].
  assert (Ha : has a r = true) by (rewrite <- He, has_lor, Hb; apply orb_true_r). by rewrite (Hd r Ha) in Hb.
Qed.

Lemma within_antisym a b : within a b = true -> within b a = true -> a = b.
Proof. intros Hab%within_le Hba%within_le. by apply N.le_antisymm. Qed.

Lemma beyond a t : within a t = true -> t <> a -> exists r, has t r = true /\ has a r = false.
Proof.
  intros Hw Hne. destruct (N.eq_dec (N.ldiff t a) 0) as [Hz|Hnz].
  - destruct Hne. apply within_antisym; [by apply N.eqb_eq|done].
  - apply not_zero in Hnz as [r Hr]. exists r. by rewrite has_ldiff, andb_true_iff, negb_true_iff in Hr.
Qed.

Lemma lor_within set g g' : (forall r, has g r = true -> has set r = false) ->
  within (N.lor set g) (N.lor set g') = true -> (g <= g')%N.
Proof.
  intros Hd Hw. apply within_le, within_iff. intros r Hr. rewrite within_iff in Hw. specialize (Hw r).
  rewrite !has_lor, Hr, (Hd r Hr) in Hw. auto.
Qed.

Lemma land_within t t' more : within t t' = true -> within (N.land t more) (N.land t' more) = true.
Proof. rewrite !within_iff. intros Hw r. rewrite !has_land, !andb_true_iff. intros [? ?]. auto. Qed.

Lemma disjoint_or a b : (forall k, has a k = true -> has b k = false) \/ exists k, has a k = true /\ has b k = true.
Proof.
  destruct (N.eq_dec (N.land a b) 0) as [Hz|Hnz].
  - left. apply disjoint_iff. by apply N.eqb_eq.
  - right. apply not_zero in Hnz as [k Hk]. exists k. by rewrite has_land, andb_true_iff in Hk.
Qed.

Lemma within_or a b : within a b = true \/ exists k, has a k = true /\ has b k = false.
Proof.
  destruct (N.eq_dec (N.ldiff a b) 0) as [Hz|Hnz]; [left; by apply N.eqb_eq|right].
  apply not_zero in Hnz as [k Hk]. exists k. by rewrite has_ldiff, andb_true_iff, negb_true_iff in Hk.
Qed.

(** ** The enumerator's own steps *)
Section Steps.
Context {C : Type} `{Cost C}.
Context (n : nat) (directed : list (RelSet * RelSet * nat)) (set_cost : RelSet -> C) (max_pairs : N).
Context (Hn : n <= 64).

(** An end of an edge is some of the query's relations. *)
Definition ends_inside : Prop :=
  Forall (fun '(from, to, _) => from <> 0%N /\ to <> 0%N /\ inside n from /\ inside n to) directed.

Lemma neighborhood_from set ex r : has (neighborhood directed set ex) r = true ->
  exists from to at_, (from, to, at_) ∈ directed /\ within from set = true
    /\ (forall k, has to k = true -> has set k = false /\ has ex k = false) /\ has to r = true /\ r = trailing_zeros to.
Proof.
  unfold neighborhood. induction directed as [|[[from to] at_] l IH] using rev_ind; [by rewrite has_zero|].
  rewrite foldl_snoc. intros Hr.
  destruct (within from set && (N.land to (N.lor set ex) =? 0)%N) eqn:Hg.
  - rewrite has_lor, orb_true_iff in Hr. destruct Hr as [Hr|[Ht ->]%has_lowest].
    + destruct (IH Hr) as (f & t & a & Hin & Hrest). exists f, t, a. rewrite elem_of_app. auto.
    + apply andb_true_iff in Hg as [Hf Hd]. rewrite disjoint_iff in Hd. exists from, to, at_.
      split_and!; [apply elem_of_app; right; by left|done| |done|done].
      intros k Hk. specialize (Hd k Hk). rewrite has_lor, orb_false_iff in Hd. done.
  - destruct (IH Hr) as (f & t & a & Hin & Hrest). exists f, t, a. rewrite elem_of_app. auto.
Qed.

Lemma neighborhood_ok set ex r : ends_inside -> has (neighborhood directed set ex) r = true ->
  r < n /\ has set r = false /\ has ex r = false.
Proof.
  intros He (from & to & at_ & Hin & _ & Hd & Ht & _)%neighborhood_from.
  unfold ends_inside in He. rewrite Forall_forall in He. destruct (He _ Hin) as (_ & _ & _ & Hto).
  destruct (Hd r Ht). auto.
Qed.

Lemma neighborhood_bound set ex : ends_inside -> (neighborhood directed set ex < 2 ^ 64)%N.
Proof. intros He. apply (inside_bound n); [done|]. intros r Hr. by apply (neighborhood_ok set ex). Qed.

Lemma neighborhood_has set ex from to at_ : (from, to, at_) ∈ directed -> within from set = true -> to <> 0%N ->
  (forall k, has to k = true -> has set k = false /\ has ex k = false) ->
  has (neighborhood directed set ex) (trailing_zeros to) = true.
Proof.
  intros Hin Hw Hnz Hd. assert (Hland : (N.land to (N.lor set ex) =? 0)%N = true).
  { apply disjoint_iff. intros k Hk. rewrite has_lor. by destruct (Hd k Hk) as [-> ->]. }
  unfold neighborhood. induction directed as [|[[f t] a] l IH] using rev_ind; [by apply not_elem_of_nil in Hin|].
  rewrite foldl_snoc. apply elem_of_app in Hin as [Hin|Hin%list_elem_of_singleton].
  - destruct (_ && _); [rewrite has_lor|]; by rewrite IH.
  - injection Hin as <- <- <-. rewrite Hw, Hland. cbn [andb]. by rewrite has_lor, lowest_has, orb_true_r.
Qed.

Lemma edge_between_iff l r : is_Some (edge_between directed l r)
  <-> exists from to at_, (from, to, at_) ∈ directed /\ within from l = true /\ within to r = true.
Proof.
  unfold edge_between. destruct (find _ directed) as [[[f t] a]|] eqn:Hf; split.
  - intros _. apply find_some in Hf as [Hin [? ?]%andb_true_iff]. apply list_elem_of_In in Hin. eauto 6.
  - eauto.
  - by intros [? ?].
  - intros (f & t & a & Hin & Hl & Hr). apply list_elem_of_In in Hin. pose proof (find_none _ _ Hf _ Hin) as Hn'. cbv beta iota in Hn'. by rewrite Hl, Hr in Hn'.
Qed.

Context (Hends : ends_inside) (Hboth : forall from to at_, (from, to, at_) ∈ directed -> (to, from, at_) ∈ directed).

Lemma edge_between_sym l r : is_Some (edge_between directed l r) -> is_Some (edge_between directed r l).
Proof. rewrite !edge_between_iff. intros (f & t & a & Hin & Hl & Hr). exists t, f, a. auto. Qed.

(** ** Connected sets *)
(** A relation, or two disjoint connected sets and an edge between them. *)
Inductive connected : RelSet -> Prop :=
  | connected_one k : k < n -> connected (one k)
  | connected_join l r : connected l -> connected r -> (forall k, has l k = true -> has r k = false) ->
      is_Some (edge_between directed l r) -> connected (N.lor l r).

(** Two sets a join may have as its sides, the lower relation first. *)
Definition pairable (l r : RelSet) : Prop :=
  connected l /\ connected r /\ (forall k, has l k = true -> has r k = false) /\ trailing_zeros l < trailing_zeros r
  /\ is_Some (edge_between directed l r).

Lemma connected_ok s : connected s -> s <> 0%N /\ inside n s.
Proof.
  induction 1 as [k Hk|l r _ [Hl Hil] _ [_ Hir] _ _].
  - split; [apply not_zero; exists k; by rewrite has_one, Nat.eqb_refl|]. intros r. rewrite has_one, Nat.eqb_eq. lia.
  - split; [|by apply inside_lor]. rewrite N.lor_eq_0_iff. by intros [? _].
Qed.

Lemma connected_split s : connected s -> (exists k, k < n /\ s = one k) \/ exists l r, s = N.lor l r /\ pairable l r.
Proof.
  intros [k Hk|l r Hl Hr Hd He]; [left; eauto|right].
  destruct (connected_ok l Hl) as [Hnl _], (connected_ok r Hr) as [Hnr _]. apply tz_has in Hnl, Hnr.
  destruct (Nat.lt_trichotomy (trailing_zeros l) (trailing_zeros r)) as [Hlt|[Heq|Hlt]].
  - exists l, r. split; [done|]. by split_and!.
  - rewrite Heq in Hnl. rewrite (Hd _ Hnl) in Hnr. done.
  - exists r, l. split; [apply N.lor_comm|]. split_and!; [done|done| |done|by apply edge_between_sym].
    intros k Hk. destruct (has l k) eqn:Hlk; [|done]. by rewrite (Hd k Hlk) in Hk.
Qed.

(** An edge leads out of every part of a connected set, into the set's other relations alone. *)
Lemma edge_out s : connected s -> forall part, (exists k, has s k = true /\ has part k = true) ->
  (exists k, has s k = true /\ has part k = false) ->
  exists from to at_, (from, to, at_) ∈ directed /\ within from part = true /\ within to s = true
    /\ (forall k, has to k = true -> has part k = false).
Proof.
  assert (Hside : forall l s part, (forall k, has l k = true -> has s k = true) ->
    (exists from to at_, (from, to, at_) ∈ directed /\ within from part = true /\ within to l = true
      /\ (forall k, has to k = true -> has part k = false)) ->
    exists from to at_, (from, to, at_) ∈ directed /\ within from part = true /\ within to s = true
      /\ (forall k, has to k = true -> has part k = false)).
  { intros l s' part Hls (f & t & a & Hin & Hf & Ht & Hd). exists f, t, a. split_and!; [done|done| |done].
    apply within_iff. intros k Hk. rewrite within_iff in Ht. auto. }
  assert (Hcross : forall l r part, is_Some (edge_between directed l r) -> within l part = true ->
    (forall k, has r k = true -> has part k = false) ->
    exists from to at_, (from, to, at_) ∈ directed /\ within from part = true /\ within to r = true
      /\ (forall k, has to k = true -> has part k = false)).
  { intros l r part (f & t & a & Hin & Hf & Ht)%edge_between_iff Hl Hr. exists f, t, a. rewrite within_iff in Hf, Hl, Ht.
    split_and!; [done|apply within_iff; auto|by apply within_iff|auto]. }
  induction 1 as [k Hk|l r _ IHl _ IHr Hd He]; intros part (i & Hi & Hpi) (o & Ho & Hpo).
  { rewrite has_one, Nat.eqb_eq in Hi, Ho. congruence. }
  assert (Hll : forall k, has l k = true -> has (N.lor l r) k = true) by (intros k Hk; by rewrite has_lor, Hk).
  assert (Hrr : forall k, has r k = true -> has (N.lor l r) k = true) by (intros k Hk; by rewrite has_lor, Hk, orb_true_r).
  rewrite has_lor, orb_true_iff in Hi, Ho.
  destruct (within_or l part) as [Hlw|(x & Hx & Hpx)].
  - destruct (disjoint_or r part) as [Hrd|(y & Hy & Hpy)]; [apply (Hside r); [done|by apply (Hcross l)]|].
    apply (Hside r); [done|]. apply IHr; [by exists y|]. exists o. split; [|done]. destruct Ho as [Ho|Ho]; [|done].
    rewrite within_iff in Hlw. by rewrite (Hlw o Ho) in Hpo.
  - destruct (disjoint_or l part) as [Hld|(y & Hy & Hpy)]; [|apply (Hside l); [done|apply IHl; eauto]].
    assert (Hri : has r i = true) by (destruct Hi as [Hi|Hi]; [by rewrite (Hld i Hi) in Hpi|done]).
    destruct (within_or r part) as [Hrw|(z & Hz & Hpz)].
    + apply (Hside l); [done|]. apply (Hcross r); [by apply edge_between_sym|done|done].
    + apply (Hside r); [done|]. apply IHr; [by exists i|by exists z].
Qed.

(** ** The invariant *)
Context (R : C -> C -> Prop) (HR : Compares set_cost R).

(** What holds of a plan: a leaf is one relation and costs nothing, a join is on two disjoint planned
    sets, the one of the lowest relation first, and costs what they cost and the rows of their join. *)
Definition sound_plan (plans : gmap RelSet (Plan C)) (s : RelSet) (p : Plan C) : Prop :=
  match split p with
  | None => plan_cost p = cost_zero /\ exists k, k < n /\ s = one k
  | Some (l, r, e) =>
      s = N.lor l r /\ (forall k, has l k = true -> has r k = false) /\ l <> 0%N /\ r <> 0%N
      /\ trailing_zeros l < trailing_zeros r /\ edge_between directed l r = Some e
      /\ exists pl pr, plans !! l = Some pl /\ plans !! r = Some pr
         /\ plan_cost p = cost_add (cost_add (set_cost s) (plan_cost pl)) (plan_cost pr)
  end.

(** The union of two sets costs no more than their join. *)
Definition covered (plans : gmap RelSet (Plan C)) (l r : RelSet) : Prop :=
  exists pl pr p, plans !! l = Some pl /\ plans !! r = Some pr /\ plans !! N.lor l r = Some p
    /\ R (plan_cost p) (cost_add (cost_add (set_cost (N.lor l r)) (plan_cost pl)) (plan_cost pr)).

(** [used] holds of every set taken as the first side of a join, [cov] of pairs that were tried. *)
Record Inv (used : RelSet -> Prop) (cov : RelSet -> RelSet -> Prop) (d : Dp C) : Prop := {
  inv_plans : forall s p, plans d !! s = Some p ->
    s <> 0%N /\ inside n s /\ R (plan_cost p) (plan_cost p) /\ sound_plan (plans d) s p;
  inv_used : forall s p l r e, plans d !! s = Some p -> split p = Some (l, r, e) -> used l;
  inv_leaves : forall k, k < n -> is_Some (plans d !! one k);
  inv_costs : forall s v, costs d !! s = Some v -> v = set_cost s;
  inv_cov : exhausted max_pairs d = false -> forall l r, cov l r ->
    used l /\ trailing_zeros l < trailing_zeros r /\ covered (plans d) l r }.

Definition keeps (d d' : Dp C) : Prop := forall s, is_Some (plans d !! s) -> is_Some (plans d' !! s).

Lemma keeps_refl d : keeps d d.
Proof. by intros s. Qed.
Lemma keeps_trans d1 d2 d3 : keeps d1 d2 -> keeps d2 d3 -> keeps d1 d3.
Proof. unfold keeps. auto. Qed.

(** A step that answers, keeps the invariant and forgets no plan. *)
Definition goes_on (used : RelSet -> Prop) (cov : RelSet -> RelSet -> Prop) (d : Dp C) (step : option (Dp C)) : Prop :=
  exists d', step = Some d' /\ Inv used cov d' /\ keeps d d'.

Lemma goes_on_refl used cov d : Inv used cov d -> goes_on used cov d (Some d).
Proof. exists d. auto using keeps_refl. Qed.

Lemma goes_on_bind used cov used' cov' d step k : goes_on used cov d step ->
  (forall d', Inv used cov d' -> keeps d d' -> goes_on used' cov' d' (k d')) -> goes_on used' cov' d (step ≫= k).
Proof.
  intros (d' & -> & Hi & Hm) Hk. destruct (Hk d' Hi Hm) as (d'' & Hs & Hi' & Hm'). exists d''. simpl.
  eauto using keeps_trans.
Qed.

(** More used, fewer tried. *)
Lemma Inv_weaken (used used' : RelSet -> Prop) (cov cov' : RelSet -> RelSet -> Prop) d :
  (forall c, used c -> used' c) -> (exhausted max_pairs d = false -> forall l r, cov' l r -> cov l r) ->
  Inv used cov d -> Inv used' cov' d.
Proof.
  intros Hw Hc [H1 H2 H3 H4 H5]. split; [done|eauto|done|done|].
  intros Hx l r Hlr. destruct (H5 Hx l r (Hc Hx l r Hlr)) as (? & ? & ?). auto.
Qed.

Lemma goes_on_weaken (used used' : RelSet -> Prop) (cov cov' : RelSet -> RelSet -> Prop) d step :
  (forall c, used c -> used' c) -> (forall l r, cov' l r -> cov l r) -> goes_on used cov d step -> goes_on used' cov' d step.
Proof. intros Hw Hc (d' & -> & Hi & Hk). exists d'. split_and!; [done|by apply (Inv_weaken used used' cov cov')|done]. Qed.

(** [set] is the last set taken as a first side: no superset of it was, and none of a lower relation. *)
Definition front (used : RelSet -> Prop) (set : RelSet) : Prop :=
  used set /\ (forall c, used c -> within set c = true -> c = set)
  /\ (forall c, used c -> trailing_zeros set <= trailing_zeros c).

Lemma own_cost_ok joined d : (forall s v, costs d !! s = Some v -> v = set_cost s) ->
  exists d', own_cost set_cost joined d = (set_cost joined, d') /\ plans d' = plans d /\ dp_pairs d' = dp_pairs d
    /\ (forall s v, costs d' !! s = Some v -> v = set_cost s).
Proof.
  intros Hc. unfold own_cost. destruct (costs d !! joined) as [v|] eqn:Hv.
  - rewrite (Hc _ _ Hv). eauto.
  - eexists. split_and!; [done|done|done|]. cbn [costs]. intros s v. rewrite lookup_insert_Some.
    intros [[<- <-]|[_ Hs]]; eauto.
Qed.

(** A set that starts a join at the front is no side of an older join. *)
Lemma front_joins used l r a b : front used l -> r <> 0%N -> (forall k, has l k = true -> has r k = false) -> l <> 0%N ->
  trailing_zeros l < trailing_zeros r -> used a -> trailing_zeros a < trailing_zeros b -> a <> N.lor l r /\ b <> N.lor l r.
Proof.
  intros (Hu & Hf & Hlow) Hr Hd Hl Htz Ha Hab. split; intros Heq.
  - assert (He : N.lor l r = l) by (apply Hf; [by rewrite <- Heq|apply within_lor_l]). by apply lor_same in He.
  - rewrite Heq, tz_lor_l in Hab by done. specialize (Hlow a Ha). lia.
Qed.

Lemma put_plan used cov d l r e p : Inv used cov d -> front used l -> split p = Some (l, r, e) ->
  R (plan_cost p) (plan_cost p) -> inside n (N.lor l r) -> sound_plan (plans d) (N.lor l r) p ->
  match plans d !! N.lor l r with Some q => R (plan_cost p) (plan_cost q) | None => True end ->
  Inv used cov {| costs := costs d; plans := <[N.lor l r := p]> (plans d); dp_pairs := dp_pairs d |}.
Proof.
  intros Hi Hf Hs HRp Hins Hp Hless. pose proof Hp as Hp'. unfold sound_plan in Hp'. rewrite Hs in Hp'.
  destruct Hp' as (_ & Hd & Hl & Hr & Htz & _ & pl & pr & Hpl & Hpr & _).
  assert (Hjoin : forall a b, used a -> trailing_zeros a < trailing_zeros b -> a <> N.lor l r /\ b <> N.lor l r).
  { intros a b. by apply front_joins. }
  assert (Hkeep : forall s q, (forall l' r' e', split q = Some (l', r', e') -> used l') ->
            sound_plan (plans d) s q -> sound_plan (<[N.lor l r := p]> (plans d)) s q).
  { intros s q Huq Hq. unfold sound_plan in *. destruct (split q) as [[[l' r'] e']|] eqn:Hsq; [|done].
    destruct Hq as (-> & Hdq & Hl0 & Hr0 & Htzq & Hrest). destruct (Hjoin l' r' (Huq _ _ _ eq_refl) Htzq).
    rewrite !lookup_insert_ne by done. done. }
  destruct Hi as [H1 H2 H3 H4 H5]. split; cbn [plans costs]; [| | |done|].
  - intros s q. rewrite lookup_insert_Some. intros [[<- <-]|[Hne Hq]].
    + split_and!; [rewrite N.lor_eq_0_iff; by intros [? _]|done|done|].
      apply Hkeep; [|done]. intros l' r' e'. rewrite Hs. intros [= <- _ _]. apply Hf.
    + destruct (H1 s q Hq) as (? & ? & ? & ?). split_and!; [done|done|done|]. apply Hkeep; [|done].
      intros l' r' e'. by apply (H2 s).
  - intros s q l' r' e'. rewrite lookup_insert_Some. intros [[<- <-]|[Hne Hq]] Hsq; [|by apply (H2 s q l' r' e')].
    rewrite Hs in Hsq. injection Hsq as <- _ _. apply Hf.
  - intros k Hk. destruct (decide (N.lor l r = one k)) as [->|Hne]; [rewrite lookup_insert_eq; eauto|].
    rewrite lookup_insert_ne by done. auto.
  - intros Hx a b Hab. destruct (H5 Hx a b Hab) as (Ha & Htzab & pa & pb & q & Hpa & Hpb & Hq & Hle).
    destruct (Hjoin a b Ha Htzab). split_and!; [done|done|]. unfold covered.
    destruct (decide (N.lor a b = N.lor l r)) as [Heq|Hne].
    + exists pa, pb, p. rewrite Heq, lookup_insert_eq, !lookup_insert_ne by done. rewrite Heq in Hq, Hle. rewrite Hq in Hless.
      split_and!; [done|done|done|]. by apply (compares_trans _ _ HR _ (plan_cost q)).
    + exists pa, pb, q. rewrite !lookup_insert_ne by done. done.
Qed.

Definition with_pair (cov : RelSet -> RelSet -> Prop) (l r a b : RelSet) : Prop := cov a b \/ (a = l /\ b = r).

Lemma emit_csg_cmp_ok used cov l r e d : Inv used cov d -> front used l ->
  is_Some (plans d !! l) -> is_Some (plans d !! r) -> (forall k, has l k = true -> has r k = false) ->
  trailing_zeros l < trailing_zeros r -> edge_between directed l r = Some e ->
  goes_on used (with_pair cov l r) d (emit_csg_cmp set_cost max_pairs l r e d).
Proof.
  intros Hi Hf [pl Hpl] [pr Hpr] Hd Htz He. unfold emit_csg_cmp.
  set (d1 := {| costs := costs d; plans := plans d; dp_pairs := (dp_pairs d + 1)%N |}).
  assert (Hx1 : exhausted max_pairs d1 = false -> exhausted max_pairs d = false).
  { unfold exhausted. cbn [d1 dp_pairs]. rewrite !N.ltb_ge. lia. }
  destruct (exhausted max_pairs d1) eqn:Hx.
  { exists d1. split_and!; [done| |exact (keeps_refl d)]. destruct Hi as [H1 H2 H3 H4 _]. split; [exact H1|exact H2|exact H3|exact H4|by rewrite Hx]. }
  assert (Hi1 : Inv used cov d1) by (destruct Hi; split; auto).
  destruct (own_cost_ok (N.lor l r) d1 (inv_costs _ _ _ Hi1)) as (d2 & -> & Hp & Hn2 & Hc2).
  assert (Hi2 : Inv used cov d2).
  { destruct Hi1 as [H1 H2 H3 H4 H5]. split; rewrite ?Hp; try done. unfold exhausted. rewrite Hn2. exact H5. }
  change (plans d1) with (plans d) in Hp. rewrite <- Hp in Hpl, Hpr. rewrite Hpl, Hpr. cbn [mbind option_bind].
  destruct (inv_plans _ _ _ Hi2 _ _ Hpl) as (Hl & Hil & HRl & _), (inv_plans _ _ _ Hi2 _ _ Hpr) as (Hr & Hir & HRr & _).
  set (own := cost_add _ (plan_cost pr)).
  assert (HRo : R own own) by (repeat apply (compares_add _ _ HR); [apply (compares_own _ _ HR)|done|done]).
  assert (Hcov : forall d', Inv used cov d' -> covered (plans d') l r -> Inv used (with_pair cov l r) d').
  { intros d' [H1 H2 H3 H4 H5] Hc. split; [done|done|done|done|]. intros Hx' a b [Hab|[-> ->]]; [auto|].
    split_and!; [apply Hf|done|done]. }
  destruct (match plans d2 !! N.lor l r with None => true | Some plan => _ end) eqn:Hless.
  - eexists. split_and!; [done| |].
    + apply Hcov.
      * eapply (put_plan used cov d2 l r e); [done|done|reflexivity|done|by apply inside_lor| |].
        -- unfold sound_plan. cbn [split plan_cost]. split_and!; try done. eauto.
        -- destruct (plans d2 !! N.lor l r) as [q|] eqn:Hq; [|done].
           destruct (inv_plans _ _ _ Hi2 _ _ Hq) as (_ & _ & HRq & _). by apply (compares_lt _ _ HR).
      * destruct (front_joins used l r l r Hf Hr Hd Hl Htz (proj1 Hf) Htz). unfold covered. cbn [plans].
        rewrite lookup_insert_eq, !lookup_insert_ne by done. eexists pl, pr, _. done.
    + unfold keeps. cbn [plans]. rewrite Hp. intros s Hs.
      destruct (decide (N.lor l r = s)) as [<-|Hne]; [rewrite lookup_insert_eq; eauto|]. by rewrite lookup_insert_ne.
  - exists d2. split_and!; [done| |unfold keeps; by rewrite Hp]. apply Hcov; [done|].
    destruct (plans d2 !! N.lor l r) as [q|] eqn:Hq; [|done].
    destruct (inv_plans _ _ _ Hi2 _ _ Hq) as (_ & _ & HRq & _).
    exists pl, pr, q. split_and!; [done|done|done|]. by apply (compares_not_lt _ _ HR).
Qed.

Lemma Inv_exhausted (used used' : RelSet -> Prop) cov cov' d : (forall c, used c -> used' c) ->
  exhausted max_pairs d = true -> Inv used cov d -> Inv used' cov' d.
Proof. intros Hw Hx [H1 H2 H3 H4 _]. split; [done|eauto|done|done|]. by rewrite Hx. Qed.

(** ** The loops *)
Lemma each_ok (I : list N -> Dp C -> Prop) body all :
  (forall done' g rest d, all = done' ++ g :: rest -> I done' d -> exists d', body g d = Some d' /\ I (done' ++ [g]) d') ->
  forall masks done' d, all = done' ++ masks -> I done' d -> exists d', each masks body d = Some d' /\ I all d'.
Proof.
  intros Hb. induction masks as [|g masks IH]; intros done' d Hall Hi.
  - rewrite app_nil_r in Hall. subst. by exists d.
  - destruct (Hb done' g masks d Hall Hi) as (d1 & He & Hi1). cbn [each]. rewrite He. cbn [mbind option_bind].
    apply (IH (done' ++ [g])); [by rewrite Hall, <- app_assoc|done].
Qed.

Lemma until_ok (I : list N -> Dp C -> Prop) body all :
  (forall done' g rest d, all = done' ++ g :: rest -> I done' d -> exists d', body g d = Some d' /\ I (done' ++ [g]) d') ->
  (forall done' rest d, all = done' ++ rest -> exhausted max_pairs d = true -> I done' d -> I all d) ->
  forall masks done' d, all = done' ++ masks -> I done' d ->
  exists b d', until_exhausted max_pairs masks body d = Some (b, d') /\ I all d' /\ (b = true -> exhausted max_pairs d' = true).
Proof.
  intros Hb Hx. induction masks as [|g masks IH]; intros done' d Hall Hi.
  - rewrite app_nil_r in Hall. subst. by exists false, d.
  - cbn [until_exhausted]. destruct (exhausted max_pairs d) eqn:Hxd; [exists true, d; eauto|].
    destruct (Hb done' g masks d Hall Hi) as (d1 & He & Hi1). rewrite He. cbn [mbind option_bind].
    apply (IH (done' ++ [g])); [by rewrite Hall, <- app_assoc|done].
Qed.

Lemma foldl_ok {A} (I : list A -> Dp C -> Prop) (visit : option (Dp C) -> A -> option (Dp C)) all :
  (forall done' g rest d, all = done' ++ g :: rest -> I done' d -> exists d', visit (Some d) g = Some d' /\ I (done' ++ [g]) d') ->
  forall xs done' d, all = done' ++ xs -> I done' d -> exists d', foldl visit (Some d) xs = Some d' /\ I all d'.
Proof.
  intros Hb. induction xs as [|g xs IH]; intros done' d Hall Hi.
  - rewrite app_nil_r in Hall. subst. by exists d.
  - destruct (Hb done' g xs d Hall Hi) as (d1 & He & Hi1). cbn [foldl]. rewrite He.
    apply (IH (done' ++ [g])); [by rewrite Hall, <- app_assoc|done].
Qed.
(** ** Growing a set by its neighbors *)
Lemma more_sorted set ex : StronglySorted N.lt (submasks (neighborhood directed set ex)).
Proof. by apply submasks_spec, neighborhood_bound. Qed.

(** A non-empty submask of the neighbors is new relations. *)
Lemma submask_new set ex g : In g (submasks (neighborhood directed set ex)) ->
  g <> 0%N /\ (forall r, has g r = true -> r < n /\ has set r = false /\ has ex r = false /\ has (neighborhood directed set ex) r = true).
Proof.
  intros Hg. pose proof (neighborhood_bound set ex Hends). apply submasks_spec in Hg; [|done].
  destruct Hg as [Hw Hnz]. split; [done|]. intros r Hr. rewrite within_iff in Hw. specialize (Hw r Hr).
  destruct (neighborhood_ok set ex r Hends Hw) as (? & ? & ?). done.
Qed.

Lemma grow_members set ex g : In g (submasks (neighborhood directed set ex)) ->
  length (members n set) < length (members n (N.lor set g)).
Proof.
  intros [Hnz Hg]%submask_new. apply not_zero in Hnz as [r Hr]. destruct (Hg r Hr) as (Hlt & Hs & _).
  apply (members_grow n _ _ r); [|by rewrite has_lor, Hr, orb_true_r|done|done].
  intros k Hk. by rewrite has_lor, Hk.
Qed.

(** The sets that can be come to from [set]: more relations, none of [ex]. *)
Definition reach (set ex t : RelSet) : Prop :=
  within set t = true /\ t <> set /\ (forall r, has t r = true -> has set r = false -> has ex r = false).

Lemma reach_tz set ex t : set <> 0%N -> (forall r, r < trailing_zeros set -> has ex r = true) -> reach set ex t ->
  trailing_zeros t = trailing_zeros set.
Proof.
  intros Hs Hlow (Hw & _ & Hex). rewrite within_iff in Hw. apply tz_unique; [by apply Hw, tz_has|].
  intros r Hr. destruct (Nat.le_gt_cases (trailing_zeros set) r) as [|Hlt]; [done|].
  destruct (has set r) eqn:Hsr; [apply tz_least in Hsr; lia|]. specialize (Hex r Hr Hsr). by rewrite Hlow in Hex.
Qed.

Lemma reach_submask set ex g : In g (submasks (neighborhood directed set ex)) -> reach set ex (N.lor set g).
Proof.
  intros [Hnz Hg]%submask_new. split_and!; [apply within_lor_l| |].
  - intros He. apply Hnz, (lor_same set g); [|done]. intros k Hk. destruct (has g k) eqn:Hgk; [|done].
    destruct (Hg k Hgk) as (_ & Hs & _). congruence.
  - intros r. rewrite has_lor. intros Hr Hs. rewrite Hs in Hr. by apply Hg.
Qed.

(** Past a first step by some neighbors: the set shows which, and has relations beyond them. *)
Lemma reach_deeper set ex g t : let more := neighborhood directed set ex in
  In g (submasks more) -> reach (N.lor set g) (N.lor ex more) t ->
  reach set ex t /\ N.land t more = g /\ exists r, has t r = true /\ has set r = false /\ has more r = false.
Proof.
  intros more Hin (Hw & Hne & Hex). pose proof Hin as [Hnz Hg]%submask_new. rewrite within_iff in Hw.
  assert (Hout : forall r, has t r = true -> has set r = false -> has g r = false -> has ex r = false /\ has more r = false).
  { intros r Hr Hs Hgr. apply orb_false_iff. rewrite <- has_lor. apply Hex; [done|by rewrite has_lor, Hs, Hgr]. }
  split_and!.
  - split_and!.
    + apply within_iff. intros r Hr. apply Hw. by rewrite has_lor, Hr.
    + intros ->. apply not_zero in Hnz as [r Hr]. destruct (Hg r Hr) as (_ & Hs & _).
      rewrite (Hw r) in Hs; [done|]. by rewrite has_lor, Hr, orb_true_r.
    + intros r Hr Hs. destruct (has g r) eqn:Hgr; [by apply Hg|by apply Hout].
  - apply has_ext. intros r. rewrite has_land. destruct (has g r) eqn:Hgr.
    + destruct (Hg r Hgr) as (_ & _ & _ & Hm). fold more in Hm. rewrite Hm, (Hw r); [done|].
      by rewrite has_lor, Hgr, orb_true_r.
    + apply andb_false_iff. destruct (has t r) eqn:Hr; [right|by left]. destruct (has set r) eqn:Hs.
      * destruct (has more r) eqn:Hm; [|done]. apply neighborhood_ok in Hm as (_ & Hs' & _); [congruence|done].
      * by apply Hout.
  - destruct (beyond (N.lor set g) t) as (r & Hr & Hs); [by apply within_iff|done|].
    rewrite has_lor, orb_false_iff in Hs. destruct Hs as [Hs Hgr]. exists r. split_and!; [done|done|by apply Hout].
Qed.

(** Every connected set in reach is come to by the neighbors it has. *)
Lemma reach_split set ex t : let more := neighborhood directed set ex in
  set <> 0%N -> connected t -> reach set ex t ->
  In (N.land t more) (submasks more)
  /\ (t = N.lor set (N.land t more) \/ reach (N.lor set (N.land t more)) (N.lor ex more) t).
Proof.
  intros more Hs Ht (Hw & Hne & Hex). pose proof Hw as Hw'. rewrite within_iff in Hw'.
  assert (Hin : In (N.land t more) (submasks more)).
  { apply submasks_spec; [by apply neighborhood_bound|]. split; [apply within_iff; intros r; rewrite has_land; by destruct (has t r)|].
    destruct (edge_out t Ht set) as (from & to & at_ & He & Hf & Hto & Hd).
    - exists (trailing_zeros set). split; [by apply Hw', tz_has|by apply tz_has].
    - by apply beyond.
    - assert (Hnz : to <> 0%N) by (unfold ends_inside in Hends; rewrite Forall_forall in Hends; apply (Hends _ He)).
      apply not_zero. exists (trailing_zeros to). rewrite within_iff in Hto. rewrite has_land, Hto by (by apply tz_has).
      apply (neighborhood_has set ex from to at_); auto. }
  split; [done|]. destruct (decide (t = N.lor set (N.land t more))) as [|Hne']; [by left|right]. split_and!; [|done|].
  - apply within_iff. intros r. rewrite has_lor, has_land. destruct (has set r) eqn:Hsr; [intros _; auto|by destruct (has t r)].
  - intros r Hr. rewrite !has_lor, has_land, Hr. cbn [andb]. intros [Hsr Hm]%orb_false_iff. by rewrite Hex, Hm.
Qed.

(** The pairs tried so far, and those of [set] with the sets of [P]. *)
Definition pairs_of (cov : RelSet -> RelSet -> Prop) (set : RelSet) (P : RelSet -> Prop) (a b : RelSet) : Prop :=
  cov a b \/ (a = set /\ pairable set b /\ P b).

Lemma planned_when_covered used cov low d s : Inv used cov d -> exhausted max_pairs d = false ->
  (forall a b, pairable a b -> low < trailing_zeros a -> cov a b) -> connected s -> low < trailing_zeros s ->
  is_Some (plans d !! s).
Proof.
  intros Hi Hx Hc Hs Hlow. destruct (connected_split s Hs) as [(k & Hk & ->)|(a & b & -> & Hp)]; [by apply (inv_leaves _ _ _ Hi)|].
  pose proof Hp as (Ha & _ & _ & Htz & _). destruct (connected_ok a Ha) as [Hna _]. rewrite tz_lor_l in Hlow by done.
  destruct (inv_cov _ _ _ Hi Hx a b (Hc a b Hp Hlow)) as (_ & _ & ? & ? & p & _ & _ & Hq & _). by exists p.
Qed.

(** One candidate for the second side: tried where it is planned and an edge leads to it. *)
Lemma try_pair_ok used cov set t d : Inv used cov d -> front used set -> is_Some (plans d !! set) ->
  (forall r, has t r = true -> has set r = false /\ trailing_zeros set < r) -> t <> 0%N ->
  is_Some (plans d !! t) ->
  goes_on used (pairs_of cov set (eq t)) d
    match edge_between directed set t with Some edge => emit_csg_cmp set_cost max_pairs set t edge d | None => Some d end.
Proof.
  intros Hi Hf Hset Hd Hnz Hp. destruct (edge_between directed set t) as [e|] eqn:He.
  - apply (goes_on_weaken used used (with_pair cov set t)); [done| |].
    + intros a b [Hab|(-> & _ & <-)]; [by left|by right].
    + apply emit_csg_cmp_ok; try done; [|by apply Hd, tz_has]. intros k Hk.
      destruct (has t k) eqn:Ht; [|done]. destruct (Hd k Ht). congruence.
  - apply goes_on_refl. apply (Inv_weaken used used cov); [done| |done]. intros _ a b [Hab|(-> & Hp' & <-)]; [done|].
    destruct Hp' as (_ & _ & _ & _ & [? He']). congruence.
Qed.

Lemma enumerate_cmp_rec_ok used set : front used set -> forall fuel other ex cov d,
  n < fuel + length (members n other) -> other <> 0%N ->
  (forall r, has other r = true -> has set r = false /\ trailing_zeros set < r) ->
  (forall r, has set r = true \/ r <= trailing_zeros set -> r < n -> has ex r = true) ->
  (forall a b, pairable a b -> trailing_zeros set < trailing_zeros a -> cov a b) ->
  Inv used cov d -> is_Some (plans d !! set) ->
  goes_on used (pairs_of cov set (reach other ex)) d (enumerate_cmp_rec directed set_cost max_pairs fuel set other ex d).
Proof.
  intros Hf. induction fuel as [|fuel IH]; intros other ex cov d Hfuel Hoz Ho Hex Hcov Hi Hset.
  { pose proof (members_le n other). lia. }
  cbn [enumerate_cmp_rec]. set (more := neighborhood directed other ex).
  assert (Hgrown : forall g, In g (submasks more) -> N.lor other g <> 0%N
            /\ forall r, has (N.lor other g) r = true -> has set r = false /\ trailing_zeros set < r).
  { intros g [_ Hg]%submask_new. split; [rewrite N.lor_eq_0_iff; by intros [? _]|].
    intros r. rewrite has_lor, orb_true_iff. intros [Hr|Hr]; [by apply Ho|].
    destruct (Hg r Hr) as (Hlt & _ & Hxr & _). split.
    - destruct (has set r) eqn:Hs; [|done]. by rewrite (Hex r (or_introl Hs) Hlt) in Hxr.
    - destruct (Nat.lt_ge_cases (trailing_zeros set) r) as [|Hle]; [done|]. by rewrite (Hex r (or_intror Hle) Hlt) in Hxr. }
  match goal with |- context [until_exhausted _ _ ?body _] => set (visit := body) end.
  set (tried := fun done' b => exists g, In g done' /\ b = N.lor other g).
  destruct (until_ok (fun done' d' => Inv used (pairs_of cov set (tried done')) d' /\ keeps d d') visit (submasks more))
    with (masks := submasks more) (done' := @nil N) (d := d) as (b & d1 & -> & [Hi1 Hk1] & Hb); [| |done| |].
  - intros done' g rest d' Hall [Hi' Hk']. assert (Hg : In g (submasks more)) by (rewrite Hall; apply in_elt).
    destruct (Hgrown g Hg) as [Hgz Hgd].
    assert (Hstep : goes_on used (pairs_of (pairs_of cov set (tried done')) set (eq (N.lor other g))) d' (visit g d')).
    { unfold visit, planned. case_bool_decide as Hp; [by apply try_pair_ok; auto|]. apply goes_on_refl.
      apply (Inv_weaken used used (pairs_of cov set (tried done'))); [done| |done].
      intros Hx a b' [Hab|(-> & Hpair & <-)]; [done|exfalso]. apply Hp.
      apply (planned_when_covered used _ (trailing_zeros set) d' _ Hi' Hx); [intros a b' ? ?; left; auto|apply Hpair|].
      by apply Hgd, tz_has. }
    destruct Hstep as (d'' & -> & Hi'' & Hk''). exists d''. split_and!; [done| |by apply (keeps_trans d d')].
    apply (Inv_weaken used used (pairs_of (pairs_of cov set (tried done')) set (eq (N.lor other g)))); [done| |done].
    intros _ a b' [Hab|(-> & Hpair & h & [Hh|[<-|[]]]%in_app_iff & ->)]; [by left; left|left; right|right; done].
    split_and!; [done|done|]. by exists h.
  - intros done' rest d' Hall Hx [Hi' Hk']. split; [|done]. by apply (Inv_exhausted used used (pairs_of cov set (tried done'))).
  - split; [|apply keeps_refl]. apply (Inv_weaken used used cov); [done| |done]. intros _ a b' [Hab|(_ & _ & ? & [] & _)]. done.
  - cbn [mbind option_bind]. assert (Hset1 : is_Some (plans d1 !! set)) by auto.
    destruct b; [exists d1; split_and!; [done|by apply (Inv_exhausted used used (pairs_of cov set (tried (submasks more)))); auto|done]|].
    set (cov1 := pairs_of cov set (tried (submasks more))).
    set (deeper := fun done' b => exists g, In g done' /\ reach (N.lor other g) (N.lor ex more) b).
    match goal with |- context [each _ ?body _] => set (descend := body) end.
    destruct (each_ok (fun done' d' => Inv used (pairs_of cov1 set (deeper done')) d' /\ keeps d1 d') descend (submasks more))
      with (masks := submasks more) (done' := @nil N) (d := d1) as (d2 & -> & Hi2 & Hk2); [|done| |].
    + intros done' g rest d' Hall [Hi' Hk']. assert (Hg : In g (submasks more)) by (rewrite Hall; apply in_elt).
      destruct (Hgrown g Hg) as [Hgz Hgd].
      destruct (IH (N.lor other g) (N.lor ex more) (pairs_of cov1 set (deeper done')) d') as (d'' & He & Hi'' & Hk''); try done.
      * pose proof (grow_members other ex g Hg). lia.
      * intros r Hr Hlt. rewrite has_lor, Hex; auto.
      * intros a b' ? ?. left. left. auto.
      * auto.
      * exists d''. split_and!; [done| |by apply (keeps_trans d1 d')].
        eapply (Inv_weaken used used); [done| |exact Hi''].
        intros _ a b' [Hab|(-> & Hpair & h & [Hh|[<-|[]]]%in_app_iff & Hr)]; [by left; left|left; right|right; done].
        split_and!; [done|done|]. by exists h.
    + split; [|apply keeps_refl]. apply (Inv_weaken used used cov1); [done| |done]. intros _ a b' [Hab|(_ & _ & ? & [] & _)]. done.
    + exists d2. split_and!; [done| |by apply (keeps_trans d d1)].
      apply (Inv_weaken used used (pairs_of cov1 set (deeper (submasks more)))); [done| |done].
      intros _ a b' [Hab|(-> & Hpair & Hr)]; [by left; left|]. pose proof Hpair as (_ & Hcb & _).
      destruct (reach_split other ex b' Hoz Hcb Hr) as [Hg [Heq|Hd]].
      * left. right. split_and!; [done|done|]. by exists (N.land b' more).
      * right. split_and!; [done|done|]. by exists (N.land b' more).
Qed.
(** ** [emit_csg]: every complement the set can join *)
Lemma seeds_iff set ex r : In r (seeds n (neighborhood directed set ex)) <-> has (neighborhood directed set ex) r = true /\ r < n.
Proof.
  unfold seeds. rewrite <- list_elem_of_In, list_elem_of_filter, list_elem_of_In, <- in_rev, in_seq, not_zero. split.
  - intros [[k Hk] Hr]. rewrite has_land, has_one, andb_true_iff, Nat.eqb_eq in Hk. destruct Hk as [? ->]. split; [done|lia].
  - intros [Hr Hlt]. split; [|lia]. exists r. by rewrite has_land, has_one, Nat.eqb_refl, Hr.
Qed.

(** The seed a complement grows from: the lowest of the neighbors it has. *)
Lemma seed_of set r : let ex := N.lor set (below_or_at (trailing_zeros set)) in let more := neighborhood directed set ex in
  trailing_zeros set < 64 -> pairable set r ->
  exists s, In s (seeds n more) /\ has r s = true
    /\ (r = one s \/ reach (one s) (N.lor ex (N.land more (below_or_at s))) r).
Proof.
  intros ex more H64 (Hcs & Hcr & Hd & Htz & (from & to & at_ & Hin & Hf & Ht)%edge_between_iff).
  rewrite within_iff in Ht. destruct (connected_ok r Hcr) as [Hrz Hrin].
  assert (Hout : forall k, has r k = true -> has set k = false /\ has ex k = false).
  { intros k Hk. assert (Hsk : has set k = false) by (destruct (has set k) eqn:Hs; [by rewrite (Hd k Hs) in Hk|done]).
    split; [done|]. specialize (Hrin k Hk). unfold ex. rewrite has_lor, Hsk, has_below by lia. apply Nat.leb_gt.
    apply tz_least in Hk. lia. }
  assert (Htz0 : to <> 0%N) by (unfold ends_inside in Hends; rewrite Forall_forall in Hends; apply (Hends _ Hin)).
  assert (Hnz : N.land r more <> 0%N).
  { apply not_zero. exists (trailing_zeros to). rewrite has_land, Ht by (by apply tz_has).
    apply (neighborhood_has set ex from to at_); auto. }
  set (s := trailing_zeros (N.land r more)). pose proof (tz_has _ Hnz) as Hs. fold s in Hs.
  rewrite has_land, andb_true_iff in Hs. destruct Hs as [Hsr Hsm]. exists s. split_and!; [|done|].
  - apply seeds_iff. split; [done|]. by apply Hrin.
  - destruct (decide (r = one s)) as [|Hne]; [by left|right]. split_and!; [|done|].
    + apply within_iff. intros k. rewrite has_one. by intros ->%Nat.eqb_eq.
    + intros k Hk. rewrite has_one. intros Hks%Nat.eqb_neq. rewrite has_lor, has_land. destruct (Hout k Hk) as [_ ->].
      destruct (has more k) eqn:Hm; [|done]. cbn [orb andb]. specialize (Hrin k Hk). rewrite has_below by lia. apply Nat.leb_gt.
      assert (Hle : has (N.land r more) k = true) by (by rewrite has_land, Hk, Hm). apply tz_least in Hle. fold s in Hle. lia.
Qed.

Lemma emit_csg_ok used cov set d : front used set -> Inv used cov d -> is_Some (plans d !! set) ->
  (forall a b, pairable a b -> trailing_zeros set < trailing_zeros a -> cov a b) ->
  goes_on used (pairs_of cov set (fun _ => True)) d (emit_csg n directed set_cost max_pairs set d).
Proof.
  intros Hf Hi Hset Hcov. assert (Hb : trailing_zeros set < n).
  { destruct Hset as [p Hp]. destruct (inv_plans _ _ _ Hi _ _ Hp) as (? & Hin & _). by apply Hin, tz_has. }
  unfold emit_csg. set (ex := N.lor set (below_or_at (trailing_zeros set))). set (more := neighborhood directed set ex).
  assert (Hex : forall r, has set r = true \/ r <= trailing_zeros set -> r < n -> has ex r = true).
  { intros r Hr Hlt. unfold ex. rewrite has_lor, orb_true_iff, has_below, Nat.leb_le by lia. tauto. }
  match goal with |- goes_on _ _ _ (foldl ?step _ _) => set (visit := step) end.
  set (grown := fun done' b => exists s, In s done' /\ (b = one s \/ reach (one s) (N.lor ex (N.land more (below_or_at s))) b)).
  destruct (foldl_ok (fun done' d' => Inv used (pairs_of cov set (grown done')) d' /\ keeps d d') visit (seeds n more))
    with (xs := seeds n more) (done' := @nil nat) (d := d) as (d1 & -> & Hi1 & Hk1); [|done| |].
  - intros done' r rest d' Hall [Hi' Hk']. assert (Hr : In r (seeds n more)) by (rewrite Hall; apply in_elt).
    apply seeds_iff in Hr as [Hm Hlt]. apply neighborhood_ok in Hm as (_ & Hs & Hx); [|done].
    assert (Hhigh : forall k, has (one r) k = true -> has set k = false /\ trailing_zeros set < k).
    { intros k. rewrite has_one. intros ->%Nat.eqb_eq. split; [done|].
      destruct (Nat.lt_ge_cases (trailing_zeros set) r) as [|Hle]; [done|]. by rewrite (Hex r (or_intror Hle) Hlt) in Hx. }
    assert (Hrz : one r <> 0%N) by (apply not_zero; exists r; by rewrite has_one, Nat.eqb_refl).
    assert (Hstep : goes_on used (pairs_of (pairs_of (pairs_of cov set (grown done')) set (eq (one r))) set (reach (one r) (N.lor ex (N.land more (below_or_at r))))) d' (visit (Some d') r)).
    { unfold visit. cbn [mbind option_bind]. apply (goes_on_bind used (pairs_of (pairs_of cov set (grown done')) set (eq (one r)))).
      - apply try_pair_ok; try done; [by apply Hk'|by apply (inv_leaves _ _ _ Hi')].
      - intros d2 Hi2 Hk2. apply enumerate_cmp_rec_ok; [done|lia|done|done| | |done|by apply Hk2, Hk'].
        + intros k Hk Hkn. rewrite has_lor, Hex; auto.
        + intros a b ? ?. left. left. auto. }
    destruct Hstep as (d2 & -> & Hi2 & Hk2). exists d2. split_and!; [done| |by apply (keeps_trans d d')].
    eapply (Inv_weaken used used); [done| |exact Hi2].
    intros _ a b [Hab|(-> & Hpair & s & [Hin|[<-|[]]]%in_app_iff & Hb')]; [by left; left; left| |].
    + left. left. right. split_and!; [done|done|]. by exists s.
    + destruct Hb' as [->|Hb']; [left; right; done|right; done].
  - split; [|apply keeps_refl]. apply (Inv_weaken used used cov); [done| |done]. intros _ a b [Hab|(_ & _ & ? & [] & _)]. done.
  - exists d1. split_and!; [done| |done]. apply (Inv_weaken used used (pairs_of cov set (grown (seeds n more)))); [done| |done].
    intros _ a b [Hab|(-> & Hpair & _)]; [by left|right]. split_and!; [done|done|].
    destruct (seed_of set b ltac:(lia) Hpair) as (s & Hin & _ & Hb'). by exists s.
Qed.
(** ** [enumerate_csg_rec]: every connected set that starts at a relation *)
Lemma sorted_split (done' rest : list N) g : StronglySorted N.lt (done' ++ g :: rest) ->
  (forall h, In h done' -> (h < g)%N) /\ (forall h, In h (done' ++ g :: rest) -> (h < g)%N -> In h done').
Proof.
  induction done' as [|x done' IH]; cbn [app]; intros [Hs Hx]%StronglySorted_inv; rewrite List.Forall_forall in Hx.
  - split; [done|]. intros h [<-|Hh] Hlt; [lia|]. specialize (Hx h Hh). lia.
  - destruct (IH Hs) as [H1 H2]. split.
    + intros h [<-|Hh]; [apply Hx, in_elt|auto].
    + intros h [<-|Hh] Hlt; [by left|right; auto].
Qed.

(** Every pair whose first side was taken. *)
Definition tried (used : RelSet -> Prop) (a b : RelSet) : Prop := used a /\ pairable a b.

(** What was taken once the neighbors in [done'] were tried, in the first and in the second loop. *)
Definition first_loop (used : RelSet -> Prop) (set : RelSet) (done' : list N) (c : RelSet) : Prop :=
  used c \/ exists g, In g done' /\ c = N.lor set g.
Definition second_loop (used : RelSet -> Prop) (set ex : RelSet) (done' : list N) (c : RelSet) : Prop :=
  first_loop used set (submasks (neighborhood directed set ex)) c
  \/ exists g, In g done' /\ reach (N.lor set g) (N.lor ex (neighborhood directed set ex)) c.

Lemma first_loop_snoc used set done' g c : first_loop used set (done' ++ [g]) c <-> first_loop used set done' c \/ c = N.lor set g.
Proof.
  unfold first_loop. split.
  - intros [Hc|(h & [Hh|[<-|[]]]%in_app_iff & ->)]; [by left; left|left; right; by exists h|by right].
  - intros [[Hc|(h & Hh & ->)]| ->]; [by left| |]; right; eexists; (split; [apply in_app_iff|done]); [by left|right; by left].
Qed.

Lemma second_loop_snoc used set ex done' g c : second_loop used set ex (done' ++ [g]) c
  <-> second_loop used set ex done' c \/ reach (N.lor set g) (N.lor ex (neighborhood directed set ex)) c.
Proof.
  unfold second_loop. split.
  - intros [Hc|(h & [Hh|[<-|[]]]%in_app_iff & Hr)]; [by left; left|left; right; by exists h|by right].
  - intros [[Hc|(h & Hh & Hr)]|Hr]; [by left| |]; right; eexists; (split; [apply in_app_iff|done]); [by left|right; by left].
Qed.

(** What a call to [enumerate_csg_rec] may assume of the sets taken before it: none is of a lower
    relation or holds a set still in reach, and those that start at the relation of [set] and are part
    of a set in reach were taken, or are in reach themselves. *)
Record Entry (used : RelSet -> Prop) (set ex : RelSet) : Prop := {
  entry_set : set <> 0%N;
  entry_low : forall r, r < trailing_zeros set -> has ex r = true;
  entry_tz : forall c, used c -> trailing_zeros set <= trailing_zeros c;
  entry_order : forall c t, used c -> reach set ex t -> within t c = false;
  entry_below : forall c t, connected c -> reach set ex t -> within c t = true -> c <> t ->
    trailing_zeros c = trailing_zeros set -> used c \/ reach set ex c;
  entry_high : forall a b, pairable a b -> trailing_zeros set < trailing_zeros a -> used a }.

Section Csg.
Context (used : RelSet -> Prop) (set ex : RelSet) (He : Entry used set ex).
Context (done' rest : list N) (g : N) (Hall : submasks (neighborhood directed set ex) = done' ++ g :: rest).

Lemma here : In g (submasks (neighborhood directed set ex)).
Proof. rewrite Hall. apply in_elt. Qed.

Lemma entry_tz_of t : reach set ex t -> trailing_zeros t = trailing_zeros set.
Proof. apply reach_tz; apply He. Qed.

Lemma before h : In h (submasks (neighborhood directed set ex)) -> (h < g)%N -> In h done'.
Proof. pose proof (more_sorted set ex) as Hs. rewrite Hall in *. by apply sorted_split. Qed.
Lemma after h : In h done' -> (h < g)%N.
Proof. pose proof (more_sorted set ex) as Hs. rewrite Hall in Hs. by apply (sorted_split _ _ _ Hs). Qed.
Lemma before_all h : In h done' -> In h (submasks (neighborhood directed set ex)).
Proof. intros Hh. rewrite Hall. apply in_app_iff. by left. Qed.

Lemma first_loop_front : front (first_loop used set (done' ++ [g])) (N.lor set g).
Proof.
  pose proof (reach_submask _ _ _ here) as Hr. pose proof here as [_ Hnew]%submask_new. split_and!.
  - apply first_loop_snoc. by right.
  - intros c [[Hc|(h & Hh & ->)]| ->]%first_loop_snoc Hw; [by rewrite (entry_order _ _ _ He c _ Hc Hr) in Hw| |done].
    apply lor_within in Hw; [|intros r Hr'; by apply Hnew]. pose proof (after h Hh). lia.
  - rewrite (entry_tz_of _ Hr). intros c [[Hc|(h & Hh & ->)]| ->]%first_loop_snoc; [by apply (entry_tz _ _ _ He)| |].
    + by rewrite (entry_tz_of _ (reach_submask _ _ _ (before_all h Hh))).
    + by rewrite (entry_tz_of _ Hr).
Qed.

(** A connected candidate has a plan by the time it is looked up. *)
Lemma candidate_planned d : Inv (first_loop used set done') (tried (first_loop used set done')) d ->
  exhausted max_pairs d = false -> connected (N.lor set g) -> is_Some (plans d !! N.lor set g).
Proof.
  intros Hi Hx Hc. pose proof (reach_submask _ _ _ here) as Hr. pose proof here as [_ Hnew]%submask_new.
  destruct (connected_split _ Hc) as [(k & Hk & ->)|(l & r & Heq & Hp)]; [by apply (inv_leaves _ _ _ Hi)|].
  pose proof Hp as (Hl & Hrc & Hd & Htz & _). destruct (connected_ok l Hl) as [Hlz _], (connected_ok r Hrc) as [Hrz _].
  assert (Hlne : l <> N.lor set g) by (intros Hle; rewrite <- Hle in Heq; symmetry in Heq; by apply lor_same in Heq).
  assert (Hlw : within l (N.lor set g) = true) by (rewrite Heq; apply within_lor_l).
  assert (Hlu : first_loop used set done' l).
  { destruct (entry_below _ _ _ He l (N.lor set g) Hl Hr Hlw Hlne) as [Hu|Hlr]; [|by left|].
    { rewrite <- (entry_tz_of _ Hr), Heq. by rewrite tz_lor_l. }
    destruct (reach_split set ex l (entry_set _ _ _ He) Hl Hlr) as [Hin [Hls|Hdeep]].
    - right. exists (N.land l (neighborhood directed set ex)). split; [|done]. apply before; [done|].
      assert (Hle : (N.land l (neighborhood directed set ex) <= g)%N).
      { rewrite Hls in Hlw. apply lor_within in Hlw; [done|]. intros k. rewrite has_land, andb_true_iff.
        intros [_ Hm]. by apply neighborhood_ok in Hm as (_ & ? & _). }
      destruct (N.eq_dec (N.land l (neighborhood directed set ex)) g) as [Heg|]; [|lia]. rewrite Heg in Hls. done.
    - exfalso. apply reach_deeper in Hdeep as (_ & _ & k & Hk & Hks & Hkm); [|done].
      rewrite within_iff in Hlw. specialize (Hlw k Hk). rewrite has_lor, Hks in Hlw.
      destruct (Hnew k Hlw) as (_ & _ & _ & ?). congruence. }
  destruct (inv_cov _ _ _ Hi Hx l r (conj Hlu Hp)) as (_ & _ & pl & pr & p & _ & _ & Hpl & _). rewrite Heq. by exists p.
Qed.

(** The next call may assume as much. *)
Lemma next_entry : Entry (second_loop used set ex done') (N.lor set g) (N.lor ex (neighborhood directed set ex)).
Proof.
  pose proof (reach_submask _ _ _ here) as Hr. pose proof (entry_tz_of _ Hr) as Htz. split.
  - rewrite N.lor_eq_0_iff. intros [Hz _]. by apply (entry_set _ _ _ He).
  - intros r. rewrite Htz, has_lor. intros Hlt. by rewrite (entry_low _ _ _ He).
  - rewrite Htz. intros c [[Hc|(h & Hh & ->)]|(h & Hh & Hc)]; [by apply (entry_tz _ _ _ He)| |].
    + by rewrite (entry_tz_of _ (reach_submask _ _ _ Hh)).
    + apply reach_deeper in Hc as [Hc _]; [by rewrite (entry_tz_of _ Hc)|by apply before_all].
  - intros c t Hc Ht. destruct (within t c) eqn:Hw; [exfalso|done].
    destruct (reach_deeper _ _ _ _ here Ht) as (Htr & Hmore & r & Hr' & Hs & Hn').
    destruct Hc as [[Hc|(h & Hh & ->)]|(h & Hh & Hc)].
    + by rewrite (entry_order _ _ _ He c t Hc Htr) in Hw.
    + rewrite within_iff in Hw. specialize (Hw r Hr'). rewrite has_lor, Hs in Hw.
      apply submask_new in Hh as [_ Hh]. destruct (Hh r Hw) as (_ & _ & _ & ?). congruence.
    + destruct (reach_deeper _ _ _ _ (before_all h Hh) Hc) as (_ & Hmore' & _).
      apply (land_within _ _ (neighborhood directed set ex)) in Hw. rewrite Hmore, Hmore' in Hw. apply within_le in Hw.
      pose proof (after h Hh). lia.
  - intros c t Hc Ht Hw Hne. rewrite Htz. intros Hctz. destruct (reach_deeper _ _ _ _ here Ht) as (Htr & Hmore & _).
    destruct (entry_below _ _ _ He c t Hc Htr Hw Hne Hctz) as [Hu|Hcr]; [by left; left; left|].
    destruct (reach_split set ex c (entry_set _ _ _ He) Hc Hcr) as [Hin [Hcs|Hdeep]].
    + left. left. right. by exists (N.land c (neighborhood directed set ex)).
    + apply (land_within _ _ (neighborhood directed set ex)) in Hw. rewrite Hmore in Hw. apply within_le in Hw.
      destruct (N.eq_dec (N.land c (neighborhood directed set ex)) g) as [<-|]; [by right|left; right].
      exists (N.land c (neighborhood directed set ex)). split; [|done]. apply before; [done|lia].
  - rewrite Htz. intros a b Hp Hlt. left. left. by apply (entry_high _ _ _ He a b).
Qed.
End Csg.

Definition with_reach (used : RelSet -> Prop) (set ex c : RelSet) : Prop := used c \/ reach set ex c.

Lemma enumerate_csg_rec_ok : forall fuel set ex used d, n < fuel + length (members n set) ->
  Entry used set ex -> Inv used (tried used) d ->
  goes_on (with_reach used set ex) (tried (with_reach used set ex)) d
    (enumerate_csg_rec n directed set_cost max_pairs fuel set ex d).
Proof.
  induction fuel as [|fuel IH]; intros set ex used d Hfuel He Hi; [pose proof (members_le n set); lia|].
  cbn [enumerate_csg_rec]. set (more := neighborhood directed set ex).
  match goal with |- context [until_exhausted _ _ ?body _] => set (visit := body) end.
  destruct (until_ok (fun done' d' => Inv (first_loop used set done') (tried (first_loop used set done')) d' /\ keeps d d') visit (submasks more))
    with (masks := submasks more) (done' := @nil N) (d := d) as (b & d1 & -> & [Hi1 Hk1] & Hb); [| |done| |].
  - intros done' g rest d' Hall [Hi' Hk']. pose proof (entry_tz_of used set ex He _ (reach_submask _ _ _ (here set ex done' rest g Hall))) as Htz.
    assert (Hstep : goes_on (first_loop used set (done' ++ [g])) (tried (first_loop used set (done' ++ [g]))) d' (visit g d')).
    { unfold visit, planned. case_bool_decide as Hp.
      - apply (goes_on_weaken (first_loop used set (done' ++ [g])) _ (pairs_of (tried (first_loop used set done')) (N.lor set g) (fun _ => True))); [done| |].
        + intros a b [[Ha| ->]%first_loop_snoc Hpair]; [by left|by right].
        + apply emit_csg_ok; [by apply (first_loop_front used set ex He done' rest g)| |done|].
          * eapply Inv_weaken; [|done|exact Hi']. intros c Hc. apply first_loop_snoc. by left.
          * rewrite Htz. intros a b Hpair Hlt. split; [|done]. left. by apply (entry_high _ _ _ He a b).
      - apply goes_on_refl. eapply Inv_weaken; [| |exact Hi']; [intros c Hc; apply first_loop_snoc; by left|].
        intros Hx a b [[Ha| ->]%first_loop_snoc Hpair]; [done|]. destruct Hp.
        apply (candidate_planned used set ex He done' rest g Hall d' Hi' Hx). apply Hpair. }
    destruct Hstep as (d'' & -> & Hi'' & Hk''). exists d''. split_and!; [done|done|by apply (keeps_trans d d')].
  - intros done' rest d' Hall Hx [Hi' Hk']. split; [|done]. eapply (Inv_exhausted _ _ _ _ d'); [|done|exact Hi'].
    intros c [Hc|(g & Hg & ->)]; [by left|]. right. exists g. split; [|done]. rewrite Hall. apply in_app_iff. by left.
  - split; [|apply keeps_refl]. eapply Inv_weaken; [| |exact Hi]; [by left|]. intros _ a b [[Ha|(? & [] & _)] ?]. done.
  - cbn [mbind option_bind].
    assert (Hfirst : forall c, first_loop used set (submasks more) c -> with_reach used set ex c).
    { intros c [Hc|(g & Hg & ->)]; [by left|right; by apply reach_submask]. }
    destruct b; [exists d1; split_and!; [done|by eapply (Inv_exhausted _ _ _ _ d1); eauto|done]|].
    match goal with |- context [each _ ?body _] => set (descend := body) end.
    destruct (each_ok (fun done' d' => Inv (second_loop used set ex done') (tried (second_loop used set ex done')) d' /\ keeps d1 d') descend (submasks more))
      with (masks := submasks more) (done' := @nil N) (d := d1) as (d2 & -> & Hi2 & Hk2); [|done| |].
    + intros done' g rest d' Hall [Hi' Hk']. pose proof (here set ex done' rest g Hall) as Hg.
      destruct (IH (N.lor set g) (N.lor ex more) (second_loop used set ex done') d') as (d'' & Hs & Hi'' & Hk''); [|by apply (next_entry used set ex He done' rest g)|done|].
      * pose proof (grow_members set ex g Hg). lia.
      * exists d''. split_and!; [done| |by apply (keeps_trans d1 d')]. eapply Inv_weaken; [| |exact Hi''].
        -- intros c Hc. by apply second_loop_snoc.
        -- intros _ a b [Ha%second_loop_snoc Hpair]. by split.
    + split; [|apply keeps_refl]. eapply Inv_weaken; [| |exact Hi1]; [by left|]. intros _ a b [[Ha|(? & [] & _)] ?]. done.
    + exists d2. split_and!; [done| |by apply (keeps_trans d d1)]. eapply Inv_weaken; [| |exact Hi2].
      * intros c [Hc|(g & Hg & Hc)]; [by apply Hfirst|right]. by apply reach_deeper in Hc as [Hc _].
      * intros _ a b [[Ha|Ha] Hpair]; (split; [|done]); [by left; left|]. pose proof Hpair as [Hca _].
        destruct (reach_split set ex a (entry_set _ _ _ He) Hca Ha) as [Hg [Has|Hdeep]].
        -- left. right. by exists (N.land a more).
        -- right. by exists (N.land a more).
Qed.

(** ** The sweep over the relations, from the highest *)
Definition from_relation (m : nat) (c : RelSet) : Prop := m <= trailing_zeros c.
Definition taken_first (r : nat) (c : RelSet) : Prop := from_relation (S r) c \/ c = one r.

Lemma one_has r : has (one r) r = true.
Proof. by rewrite has_one, Nat.eqb_refl. Qed.

Lemma root_front r : front (taken_first r) (one r).
Proof.
  split_and!; [by right| |].
  - intros c [Hc|Hc] Hw; [|done]. rewrite within_iff in Hw. specialize (Hw r (one_has r)). apply tz_least in Hw.
    unfold from_relation in Hc. lia.
  - intros c [Hc|Hc]; [unfold from_relation in Hc; rewrite tz_one; lia|by rewrite Hc].
Qed.

(** A connected set that starts at [r] is [r] alone or in reach of it. *)
Lemma starts_at r c : r < n -> connected c -> trailing_zeros c = r -> c = one r \/ reach (one r) (below_or_at r) c.
Proof.
  intros Hr Hc Htz. destruct (connected_ok c Hc) as [Hcz Hin]. destruct (decide (c = one r)) as [|Hne]; [by left|right].
  split_and!; [|done|].
  - apply within_iff. intros k. rewrite has_one. intros ->%Nat.eqb_eq. rewrite <- Htz. by apply tz_has.
  - intros k Hk. rewrite has_one, Nat.eqb_neq. intros Hkr. specialize (Hin k Hk). rewrite has_below by lia.
    apply Nat.leb_gt. apply tz_least in Hk. lia.
Qed.

Lemma root_entry r : r < n -> Entry (taken_first r) (one r) (below_or_at r).
Proof.
  intros Hr. assert (Hlow : forall k, k < trailing_zeros (one r) -> has (below_or_at r) k = true).
  { intros k Hk. rewrite tz_one in Hk. rewrite has_below by lia. apply Nat.leb_le. lia. }
  assert (Hz : one r <> 0%N) by (apply not_zero; exists r; apply one_has).
  split; [done|done|apply root_front| | |].
  - intros c t Hc (Hw & Hne & _). destruct (within t c) eqn:Ht; [exfalso|done]. destruct Hc as [Hc| ->].
    + rewrite within_iff in Hw, Ht. specialize (Ht r (Hw r (one_has r))). apply tz_least in Ht. unfold from_relation in Hc. lia.
    + apply Hne. by apply within_antisym.
  - rewrite tz_one. intros c t Hc _ _ _ Htz. destruct (starts_at r c Hr Hc Htz) as [->|?]; [left; by right|by right].
  - rewrite tz_one. intros a b _ Hlt. left. unfold from_relation. lia.
Qed.

Lemma roots_ok : forall m d, m <= n -> Inv (from_relation m) (tried (from_relation m)) d -> exhausted max_pairs d = false ->
  exists swept, roots n directed set_cost max_pairs (rev (seq 0 m)) d = Some swept
    /\ match swept with
       | inl unsolved => unsolved = BudgetExhausted
       | inr d' => Inv (from_relation 0) (tried (from_relation 0)) d' /\ exhausted max_pairs d' = false
       end.
Proof.
  induction m as [|r IH]; intros d Hm Hi Hx; [by exists (inr d)|].
  rewrite seq_S, rev_app_distr. cbn [rev app roots Nat.add].
  destruct (emit_csg_ok (taken_first r) (tried (from_relation (S r))) (one r) d (root_front r)) as (d1 & -> & Hi1 & Hk1).
  - eapply Inv_weaken; [|done|exact Hi]. by left.
  - by apply (inv_leaves _ _ _ Hi).
  - rewrite tz_one. intros a b Hp Hlt. split; [unfold from_relation; lia|done].
  - cbn [mbind option_bind].
    destruct (enumerate_csg_rec_ok (S n) (one r) (below_or_at r) (taken_first r) d1) as (d2 & -> & Hi2 & Hk2); [lia|by apply root_entry| |].
    + eapply Inv_weaken; [done| |exact Hi1]. intros _ a b [[Ha| ->] Hp]; [by left|by right].
    + cbn [mbind option_bind]. destruct (exhausted max_pairs d2) eqn:Hx2; [by exists (inl BudgetExhausted)|].
      apply IH; [lia| |done]. pose proof (root_entry r Hm) as He. eapply Inv_weaken; [| |exact Hi2].
      * intros c [[Hc| ->]|Hc]; unfold from_relation in *; [lia|by rewrite tz_one|].
        rewrite (reach_tz (one r) (below_or_at r) c), tz_one; [done|apply He|apply He|done].
      * intros _ a b [Ha Hp]. split; [|done]. unfold from_relation in Ha. pose proof Hp as [Hca _].
        destruct (decide (trailing_zeros a = r)) as [Htz|]; [|left; left; unfold from_relation; lia].
        destruct (starts_at r a Hm Hca Htz) as [->|?]; [left; by right|by right].
Qed.

Lemma leaf_plans ks s : (foldl (fun plans r => <[one r := leaf_plan]> plans) ∅ ks : gmap RelSet (Plan C)) !! s
  = if decide (Exists (fun k => s = one k) ks) then Some leaf_plan else None.
Proof.
  induction ks as [|k ks IH] using rev_ind; [cbn [foldl]; rewrite lookup_empty; case_decide as He; [by apply Exists_nil in He|done]|].
  rewrite foldl_snoc. destruct (decide (s = one k)) as [->|Hne].
  - rewrite lookup_insert_eq, decide_True; [done|]. apply Exists_app. right. by constructor.
  - rewrite lookup_insert_ne by done. rewrite IH. apply decide_ext. rewrite Exists_app, Exists_cons, Exists_nil.
    split; [by left|]. intros [?|[?|[]]]; done.
Qed.

Lemma dp_new_ok : Inv (from_relation n) (tried (from_relation n)) (dp_new n).
Proof.
  split; cbn [dp_new plans costs]; [| | |done|].
  - intros s p. rewrite leaf_plans. case_decide as He; [|done]. intros [= <-]. apply Exists_exists in He as (k & Hk & ->).
    apply elem_of_seq in Hk. split_and!.
    + apply not_zero. exists k. apply one_has.
    + intros r. rewrite has_one, Nat.eqb_eq. lia.
    + apply (compares_zero _ _ HR).
    + split; [done|]. exists k. split; [lia|done].
  - intros s p l r e. rewrite leaf_plans. case_decide; [|done]. by intros [= <-].
  - intros k Hk. rewrite leaf_plans, decide_True; [done|]. apply Exists_exists. exists k. rewrite elem_of_seq. split; [lia|done].
  - intros _ a b [Ha (Hca & _)]. destruct (connected_ok a Hca) as [Haz Hin]. specialize (Hin _ (tz_has a Haz)).
    unfold from_relation in Ha. lia.
Qed.
End Steps.
