(* ===== verification/DphypFacts.v ===== *)
(** * The enumerator answers, and with the cheapest tree of the hypergraph

    [solve] returns on every input.  The tree it answers with has each relation at one leaf and every
    join on an edge whose ends lie on its two sides; the cost reported is the tree's, and no tree over
    the edges costs less, where sums of costs grow with their parts.  It answers that the relations are
    not connected only when no tree joins them.  The postfix form handed over the C ABI reads back to
    the tree and fits the caller's buffer. *)
From stdpp Require Import gmap.
From Stdlib Require Import Sorted Permutation.
From S2P Require Import Prelude Memory Dphyp DphypSets DphypSteps.
Open Scope nat_scope.

(** The relations of a tree from its leftmost leaf. *)
Fixpoint leaves (t : JoinTree) : list nat :=
  match t with Rel r => [r] | Join lhs rhs _ => leaves lhs ++ leaves rhs end.

(** Every join is on an edge, one end of it among the relations of each side. *)
Fixpoint linked (edges : list (RelSet * RelSet)) (t : JoinTree) : Prop :=
  match t with
  | Rel _ => True
  | Join lhs rhs edge =>
      linked edges lhs /\ linked edges rhs
      /\ exists a b, edges !! edge = Some (a, b)
         /\ (within a (relations lhs) && within b (relations rhs) || within b (relations lhs) && within a (relations rhs)) = true
  end.

Fixpoint tree_cost {C} `{Cost C} (set_cost : RelSet -> C) (t : JoinTree) : C :=
  match t with
  | Rel _ => cost_zero
  | Join lhs rhs _ => cost_add (cost_add (set_cost (relations t)) (tree_cost set_cost lhs)) (tree_cost set_cost rhs)
  end.

(** Every join takes the side of the lowest relation first, as the enumerator's do. *)
Fixpoint oriented (t : JoinTree) : Prop :=
  match t with
  | Rel _ => True
  | Join lhs rhs _ => oriented lhs /\ oriented rhs /\ trailing_zeros (relations lhs) < trailing_zeros (relations rhs)
  end.

(** Every join of a tree is on the edge the enumerator finds between its sides. *)
Fixpoint on_edges (directed : list (RelSet * RelSet * nat)) (t : JoinTree) : Prop :=
  match t with
  | Rel _ => True
  | Join lhs rhs edge =>
      on_edges directed lhs /\ on_edges directed rhs /\ edge_between directed (relations lhs) (relations rhs) = Some edge
  end.

Lemma has_relations t k : has (relations t) k = true <-> k ∈ leaves t.
Proof.
  induction t as [r|l IHl r IHr e]; cbn [relations leaves].
  - by rewrite has_one, Nat.eqb_eq, list_elem_of_singleton.
  - by rewrite has_lor, orb_true_iff, elem_of_app, IHl, IHr.
Qed.

(** ** The edges in both directions *)
Lemma both_ways_iff edges from to at_ : (from, to, at_) ∈ both_ways edges
  <-> edges !! at_ = Some (from, to) \/ edges !! at_ = Some (to, from).
Proof.
  unfold both_ways. rewrite elem_of_concat. split.
  - intros (l & Hl & Hin). apply elem_of_lookup_imap in Hl as (i & [a b] & -> & Hi).
    rewrite !elem_of_cons, elem_of_nil in Hin. destruct Hin as [[= -> -> ->]|[[= -> -> ->]|[]]]; auto.
  - intros [He|He]; (eexists; split; [apply elem_of_lookup_imap; exists at_; eexists; split; [reflexivity|exact He]|]);
      cbn beta iota; rewrite !elem_of_cons; auto.
Qed.

Lemma both_ways_sym edges from to at_ : (from, to, at_) ∈ both_ways edges -> (to, from, at_) ∈ both_ways edges.
Proof. rewrite !both_ways_iff. tauto. Qed.

Lemma linked_edge edges l r a b e : edges !! e = Some (a, b) ->
  (within a l && within b r || within b l && within a r) = true -> is_Some (edge_between (both_ways edges) l r).
Proof.
  intros He Hw. apply edge_between_iff. apply orb_true_iff in Hw as [[Ha Hb]%andb_true_iff|[Hb Ha]%andb_true_iff].
  - exists a, b, e. rewrite both_ways_iff. auto.
  - exists b, a, e. rewrite both_ways_iff. auto.
Qed.

Lemma on_edges_linked edges t : on_edges (both_ways edges) t -> linked edges t.
Proof.
  induction t as [|l IHl r IHr e]; [done|]. cbn [on_edges linked]. intros (Hl & Hr & He). split_and!; [auto|auto|].
  unfold edge_between in He. destruct (find _ (both_ways edges)) as [[[f t] a]|] eqn:Hf; [|done]. injection He as <-.
  apply find_some in Hf as [Hin Hw%andb_true_iff]. apply list_elem_of_In, both_ways_iff in Hin. destruct Hw as [Hwf Hwt].
  destruct Hin as [Hin|Hin]; eexists _, _; (split; [exact Hin|]); rewrite Hwf, Hwt; [done|apply orb_true_r].
Qed.

Lemma well_formed_ends n edges : Forall (fun edge => malformed n edge = false) edges -> n <= 64 -> ends_inside n (both_ways edges).
Proof.
  intros Hw Hn. unfold ends_inside. rewrite Forall_forall in Hw. apply Forall_forall. intros [[f t] a] Hin. apply both_ways_iff in Hin.
  assert (Hok : forall x y, (x, y) ∈ edges -> (x <> 0 /\ y <> 0)%N /\ inside n x /\ inside n y).
  { intros x y Hxy. specialize (Hw _ Hxy). unfold malformed in Hw. rewrite !orb_false_iff in Hw.
    destruct Hw as [[[Hx%N.eqb_neq Hy%N.eqb_neq] _] Hall]. rewrite negb_false_iff, within_iff in Hall. split; [done|].
    split; intros r Hr; specialize (Hall r); rewrite has_all, has_lor, Hr, Nat.ltb_lt in Hall by done;
      apply Hall; [done|apply orb_true_r]. }
  destruct Hin as [Hin%list_elem_of_lookup_2|Hin%list_elem_of_lookup_2]; destruct (Hok _ _ Hin) as ([? ?] & ? & ?); auto.
Qed.

(** ** Answers of the enumerator *)
Section Answers.
Context {C : Type} `{Cost C}.
Context (n : nat) (edges : list (RelSet * RelSet)) (set_cost : RelSet -> C) (max_pairs : N).
Context (Hn : n <= 64) (Hw : Forall (fun edge => malformed n edge = false) edges).
Context (R : C -> C -> Prop) (HR : Compares set_cost R).
Let directed := both_ways edges.
Let Table (d : Dp C) := Inv n directed set_cost max_pairs R (from_relation 0) (tried n directed (from_relation 0)) d.

Lemma members_some s : s <> 0%N -> inside n s -> 1 <= length (members n s).
Proof.
  intros Hs Hi. pose proof (tz_has s Hs) as Hr. assert (He : trailing_zeros s ∈ members n s) by (apply elem_of_members; auto).
  destruct (members n s); [by apply not_elem_of_nil in He|cbn; lia].
Qed.

Lemma tree_of_plan_ok d : Table d -> forall fuel s p, plans d !! s = Some p -> length (members n s) <= fuel ->
  exists t, tree_of_plan fuel (plans d) s = Some t /\ relations t = s /\ leaves t ≡ₚ members n s /\ on_edges directed t
    /\ tree_cost set_cost t = plan_cost p.
Proof.
  intros Hi. induction fuel as [|fuel IH]; intros s p Hp Hfuel; destruct (inv_plans _ _ _ _ _ _ _ _ Hi s p Hp) as (Hnz & Hin & _ & Hsound).
  { pose proof (members_some s Hnz Hin). lia. }
  cbn [tree_of_plan]. rewrite Hp. cbn [mbind option_bind]. unfold sound_plan in Hsound.
  destruct (split p) as [[[l r] e]|].
  - destruct Hsound as (-> & Hd & Hl & Hr & _ & He & pl & pr & Hpl & Hpr & Hcost).
    pose proof (members_split n l r Hd) as Hm. rewrite Hm, length_app in Hfuel.
    destruct (inv_plans _ _ _ _ _ _ _ _ Hi _ _ Hpl) as (_ & Hil & _), (inv_plans _ _ _ _ _ _ _ _ Hi _ _ Hpr) as (_ & Hir & _).
    pose proof (members_some l Hl Hil). pose proof (members_some r Hr Hir).
    destruct (IH l pl Hpl) as (tl & -> & Hrl & Hll & Hjl & Hcl); [lia|].
    destruct (IH r pr Hpr) as (tr & -> & Hrr & Hlr & Hjr & Hcr); [lia|]. cbn [mbind option_bind].
    exists (Join tl tr e). cbn [relations leaves on_edges tree_cost]. rewrite Hrl, Hrr, Hll, Hlr, Hm, Hcl, Hcr, Hcost. done.
  - destruct Hsound as (Hc & k & Hk & ->). exists (Rel (trailing_zeros (one k))).
    cbn [relations leaves on_edges tree_cost]. rewrite tz_one, members_one by done. done.
Qed.

(** The sweep's answer: out of budget, or the table at its end. *)
Lemma dp_solve_cases : exists answer, dp_solve n directed set_cost max_pairs = Some answer
  /\ (answer = Err BudgetExhausted
      \/ exists d, Table d /\ exhausted max_pairs d = false
         /\ ((plans d !! all_relations n = None /\ answer = Err Disconnected)
             \/ exists p t, plans d !! all_relations n = Some p /\ tree_cost set_cost t = plan_cost p
                /\ leaves t ≡ₚ seq 0 n /\ on_edges directed t
                /\ answer = Ok {| tree := t; cost := plan_cost p; pairs := dp_pairs d |})).
Proof.
  pose proof (well_formed_ends n edges Hw Hn) as Hends. unfold dp_solve.
  destruct (roots_ok n directed set_cost max_pairs Hn Hends (both_ways_sym edges) R HR n (dp_new n) (le_n n)) as (swept & -> & Hsw).
  { by apply dp_new_ok. }
  { unfold exhausted. cbn [dp_new dp_pairs]. apply N.ltb_ge. lia. }
  cbn [mbind option_bind]. destruct swept as [e|d]; [subst e; eauto|]. destruct Hsw as (Hi & Hx).
  destruct (plans d !! all_relations n) as [p|] eqn:Hp; [|eexists; split; [done|right; exists d; split_and!; [done|done|by left]]].
  destruct (tree_of_plan_ok d Hi n (all_relations n) p Hp (members_le n _)) as (t & -> & _ & Hl & Hj & Hc).
  cbn [mbind option_bind]. eexists. split; [done|]. right. exists d. split_and!; [done|done|]. right. exists p, t.
  rewrite Hl, members_all by done. done.
Qed.

(** A tree over the edges is over a connected set. *)
Lemma tree_connected t : NoDup (leaves t) -> Forall (fun k => k < n) (leaves t) -> linked edges t -> connected n directed (relations t).
Proof.
  induction t as [r|l IHl r IHr e]; cbn [leaves linked relations].
  - intros _ [Hr _]%Forall_cons _. by constructor.
  - intros (Hdl & Hd & Hdr)%NoDup_app [Hl Hr]%Forall_app (Hll & Hlr & a & b & He & Hab).
    constructor; [auto|auto| |by apply (linked_edge edges _ _ a b e)].
    intros k Hk%has_relations. specialize (Hd k Hk). destruct (has (relations r) k) eqn:Hrk; [|done].
    by apply has_relations in Hrk.
Qed.

Lemma connected_planned d s : Table d -> exhausted max_pairs d = false -> connected n directed s -> is_Some (plans d !! s).
Proof.
  intros Hi Hx Hs. pose proof (well_formed_ends n edges Hw Hn) as Hends.
  destruct (connected_split n directed Hn (both_ways_sym edges) s Hs) as [(k & Hk & ->)|(a & b & -> & Hp)]; [by apply (inv_leaves _ _ _ _ _ _ _ _ Hi)|].
  destruct (inv_cov _ _ _ _ _ _ _ _ Hi Hx a b) as (_ & _ & ? & ? & p & _ & _ & Hq & _); [split; [unfold from_relation; lia|done]|].
  by exists p.
Qed.

Lemma cheapest d t : Table d -> exhausted max_pairs d = false ->
  NoDup (leaves t) -> Forall (fun k => k < n) (leaves t) -> linked edges t -> oriented t ->
  exists p, plans d !! relations t = Some p /\ R (plan_cost p) (tree_cost set_cost t).
Proof.
  intros Hi Hx. pose proof (well_formed_ends n edges Hw Hn) as Hends. induction t as [r|l IHl r IHr e]; intros Hnd Hlt Hlk Ho.
  - apply Forall_cons in Hlt as [Hr _]. cbn [relations tree_cost].
    destruct (inv_leaves _ _ _ _ _ _ _ _ Hi r Hr) as [p Hp]. exists p. split; [done|].
    destruct (inv_plans _ _ _ _ _ _ _ _ Hi _ _ Hp) as (_ & _ & _ & Hs). unfold sound_plan in Hs.
    destruct (split p) as [[[a b] e]|]; [exfalso|destruct Hs as [-> _]; apply (compares_zero _ _ HR)].
    destruct Hs as (Heq & Hd & Ha%tz_has & Hb%tz_has & Htz & _).
    assert (Hone : forall k, has (N.lor a b) k = true -> k = r) by (intros k; rewrite <- Heq, has_one; apply Nat.eqb_eq).
    rewrite (Hone (trailing_zeros a)), (Hone (trailing_zeros b)) in Htz; [lia| |]; rewrite has_lor; [|by rewrite Ha].
    rewrite Hb. apply orb_true_r.
  - pose proof (tree_connected _ Hnd Hlt Hlk) as Hc. cbn [leaves linked oriented relations tree_cost] in *.
    apply NoDup_app in Hnd as (Hdl & Hd & Hdr). apply Forall_app in Hlt as [Hll Hlr].
    destruct Hlk as (Hkl & Hkr & a & b & He & Hab), Ho as (Hol & Hor & Htz).
    destruct (IHl Hdl Hll Hkl Hol) as (pl & Hpl & HRl), (IHr Hdr Hlr Hkr Hor) as (pr & Hpr & HRr).
    destruct (inv_cov _ _ _ _ _ _ _ _ Hi Hx (relations l) (relations r)) as (_ & _ & ql & qr & q & Hql & Hqr & Hq & HRq).
    { split; [unfold from_relation; lia|]. split_and!; [by apply tree_connected|by apply tree_connected| |done|by apply (linked_edge edges _ _ a b e)].
      intros k Hk%has_relations. specialize (Hd k Hk). destruct (has (relations r) k) eqn:Hrk; [|done]. by apply has_relations in Hrk. }
    exists q. split; [done|]. rewrite Hpl in Hql. rewrite Hpr in Hqr. injection Hql as <-. injection Hqr as <-.
    apply (compares_trans _ _ HR _ _ _ HRq). repeat apply (compares_add _ _ HR); [apply (compares_own _ _ HR)|done|done].
Qed.
End Answers.

(** ** What [solve] answers *)
(** Costs compared not at all: what holds of the table holds at any cost. *)
Lemma compares_nothing {C} `{Cost C} (set_cost : RelSet -> C) : Compares set_cost (fun _ _ => True).
Proof. by split. Qed.

Lemma solve_cases {C} `{Cost C} n edges (set_cost : RelSet -> C) max_pairs :
  ((n = 0 \/ 64 < n) /\ solve n edges set_cost max_pairs = Some (Err (RelationCount n)))
  \/ (1 <= n <= 64 /\
      ((exists at_ edge, edges !! at_ = Some edge /\ malformed n edge = true
          /\ (forall before edge', before < at_ -> edges !! before = Some edge' -> malformed n edge' = false)
          /\ solve n edges set_cost max_pairs = Some (Err (EdgeRefused at_)))
       \/ (Forall (fun edge => malformed n edge = false) edges
           /\ solve n edges set_cost max_pairs = dp_solve n (both_ways edges) set_cost max_pairs))).
Proof.
  unfold solve. destruct (Nat.eqb_spec n 0) as [->|Hz]; [left; auto|]. destruct (Nat.ltb_spec 64 n); [left; auto|]. right.
  split; [lia|]. cbn [orb]. destruct (list_find _ edges) as [[at_ edge]|] eqn:Hf.
  - left. apply list_find_Some in Hf as (He & Hm & Hb). exists at_, edge. split_and!; [done|done| |done].
    intros k edge' Hk He'. apply not_true_is_false. apply (Hb k edge' He' Hk).
  - right. apply list_find_None in Hf. split; [|done]. eapply Forall_impl; [exact Hf|]. intros x. apply not_true_is_false.
Qed.

Lemma tree_relations n t : n <= 64 -> leaves t ≡ₚ seq 0 n -> relations t = all_relations n.
Proof.
  intros Hn Hl. apply has_ext. intros k. rewrite has_all by done. apply eq_true_iff_eq.
  rewrite has_relations, Hl, elem_of_seq, Nat.ltb_lt. lia.
Qed.

Lemma all_leaves n t : leaves t ≡ₚ seq 0 n -> NoDup (leaves t) /\ Forall (fun k => k < n) (leaves t).
Proof.
  intros Hl. rewrite Hl. split; [apply NoDup_seq|]. apply Forall_forall. intros k [_ Hk]%elem_of_seq. lia.
Qed.

(** C28: the enumerator always returns, with a refusal of what it was given or an answer for it. *)
Theorem solve_answers {C} `{Cost C} n edges (set_cost : RelSet -> C) max_pairs :
  exists answer, solve n edges set_cost max_pairs = Some answer
    /\ match answer with
       | Err (RelationCount k) => k = n /\ (n = 0 \/ 64 < n)
       | Err (EdgeRefused at_) =>
           1 <= n <= 64 /\ (exists edge, edges !! at_ = Some edge /\ malformed n edge = true)
           /\ (forall before edge, before < at_ -> edges !! before = Some edge -> malformed n edge = false)
       | Err BudgetExhausted | Err Disconnected | Ok _ => 1 <= n <= 64 /\ Forall (fun edge => malformed n edge = false) edges
       end.
Proof.
  destruct (solve_cases n edges set_cost max_pairs) as [[Hn ->]|[Hn [(at_ & edge & He & Hm & Hb & ->)|[Hw ->]]]];
    [eexists; split; [done|by cbn]|eexists; split; [done|cbn; eauto 6]|].
  destruct (dp_solve_cases n edges set_cost max_pairs (proj2 Hn) Hw _ (compares_nothing set_cost))
    as (answer & -> & [->|(d & _ & _ & [[_ ->]|(p & t & _ & _ & _ & _ & ->)])]); eexists; (split; [done|by cbn]).
Qed.

(** C11: a tree answered has each relation at one leaf and every join on an edge with an end on each
    side, its cost is the one reported and the pairs tried are within the budget. *)
Theorem solved_tree_joins_every_relation {C} `{Cost C} n edges (set_cost : RelSet -> C) max_pairs s
    (Hs : solve n edges set_cost max_pairs = Some (Ok s)) :
  Permutation (leaves (tree s)) (seq 0 n) /\ linked edges (tree s)
  /\ cost s = tree_cost set_cost (tree s) /\ (pairs s <= max_pairs)%N.
Proof.
  destruct (solve_cases n edges set_cost max_pairs) as [[Hn He]|[Hn [(at_ & edge & _ & _ & _ & He)|[Hw He]]]]; rewrite He in Hs; [done|done|].
  destruct (dp_solve_cases n edges set_cost max_pairs (proj2 Hn) Hw _ (compares_nothing set_cost))
    as (answer & Ha & [->|(d & _ & Hx & [[_ ->]|(p & t & _ & Hc & Hl & Ho & ->)])]); rewrite Ha in Hs; try done.
  injection Hs as <-. cbn [tree cost pairs]. split_and!; [done|by apply on_edges_linked|done|]. by apply N.ltb_ge in Hx.
Qed.

(** C10: where costs grow with their parts, no tree over the edges costs less than the one answered:
    of the trees that write, at each join, the side with the lowest relation first.  That is one of
    each join order, the sides of a join carrying no meaning; the model's cost sums left to right, so
    over [f64] a tree with sides swapped can differ from its representative in the last place. *)
Theorem solved_tree_is_cheapest {C} `{Cost C} n edges (set_cost : RelSet -> C) max_pairs s (R : C -> C -> Prop) t
    (HR : Compares set_cost R) (Hs : solve n edges set_cost max_pairs = Some (Ok s))
    (Hl : Permutation (leaves t) (seq 0 n)) (Hk : linked edges t) (Ho : oriented t) :
  R (cost s) (tree_cost set_cost t).
Proof.
  destruct (solve_cases n edges set_cost max_pairs) as [[Hn He]|[Hn [(at_ & edge & _ & _ & _ & He)|[Hw He]]]]; rewrite He in Hs; [done|done|].
  destruct (dp_solve_cases n edges set_cost max_pairs (proj2 Hn) Hw R HR)
    as (answer & Ha & [->|(d & Hd & Hx & [[_ ->]|(p & t' & Hp & _ & _ & _ & ->)])]); rewrite Ha in Hs; try done.
  injection Hs as <-. cbn [cost]. destruct (all_leaves n t Hl) as [Hnd Hlt].
  destruct (cheapest n edges set_cost max_pairs (proj2 Hn) Hw R HR d t Hd Hx Hnd Hlt Hk Ho) as (q & Hq & HRq).
  rewrite (tree_relations n t) in Hq by (done || lia). rewrite Hp in Hq. by injection Hq as ->.
Qed.

(** C24: the relations are answered to be disconnected only where no tree over the edges joins them. *)
Theorem disconnected_has_no_tree {C} `{Cost C} n edges (set_cost : RelSet -> C) max_pairs
    (Hs : solve n edges set_cost max_pairs = Some (Err Disconnected)) :
  ~ exists t, Permutation (leaves t) (seq 0 n) /\ linked edges t.
Proof.
  intros (t & Hl & Hk).
  destruct (solve_cases n edges set_cost max_pairs) as [[Hn He]|[Hn [(at_ & edge & _ & _ & _ & He)|[Hw He]]]]; rewrite He in Hs; [done|done|].
  destruct (dp_solve_cases n edges set_cost max_pairs (proj2 Hn) Hw _ (compares_nothing set_cost))
    as (answer & Ha & [->|(d & Hd & Hx & [[Hp ->]|(p & t' & _ & _ & _ & _ & ->)])]); rewrite Ha in Hs; try done.
  destruct (all_leaves n t Hl) as [Hnd Hlt].
  destruct (connected_planned n edges set_cost max_pairs (proj2 Hn) Hw _ d (relations t) Hd Hx) as [q Hq].
  - by apply tree_connected.
  - rewrite (tree_relations n t) in Hq by (done || lia). by rewrite Hp in Hq.
Qed.

(** ** The postfix form *)
(** A reader of the postfix form: a stack of trees. *)
Definition read_node (stack : list JoinTree) (v : Z) : option (list JoinTree) :=
  if (0 <=? v)%Z then Some (Rel (Z.to_nat v) :: stack)
  else match stack with
       | rhs :: lhs :: stack => Some (Join lhs rhs (Z.to_nat (-1 - v)) :: stack)
       | _ => None
       end.
Definition read_nodes (out : list Z) (stack : list JoinTree) : option (list JoinTree) :=
  foldl (fun stack v => stack ← stack; read_node stack v) (Some stack) out.
Definition read_postfix (out : list Z) : option JoinTree :=
  match read_nodes out [] with Some [t] => Some t | _ => None end.

(** Relations and edges an [i32] tells apart. *)
Fixpoint numbered (t : JoinTree) : Prop :=
  match t with
  | Rel r => (Z.of_nat r < 2 ^ 31)%Z
  | Join lhs rhs edge => numbered lhs /\ numbered rhs /\ (Z.of_nat edge < 2 ^ 31)%Z
  end.

Lemma as_i32_small k : (Z.of_nat k < 2 ^ 31)%Z -> as_i32 k = Z.of_nat k.
Proof. intros Hk. unfold as_i32. rewrite Z.mod_small; lia. Qed.

Lemma write_postfix_app t : forall out, write_postfix t out = out ++ write_postfix t [].
Proof.
  induction t as [r|l IHl r IHr e]; intros out; [done|]. cbn [write_postfix].
  rewrite (IHr (write_postfix l out)), (IHl out), (IHr (write_postfix l [])). by rewrite !app_assoc.
Qed.

Lemma read_nodes_app a b stack : read_nodes (a ++ b) stack = stack ← read_nodes a stack; read_nodes b stack.
Proof.
  unfold read_nodes. rewrite foldl_app. destruct (foldl _ (Some stack) a) as [s|]; [done|]. cbn [mbind option_bind].
  induction b as [|v b IH]; [done|]. exact IH.
Qed.

Lemma read_write_postfix t : numbered t -> forall stack, read_nodes (write_postfix t []) stack = Some (t :: stack).
Proof.
  induction t as [r|l IHl r IHr e]; cbn [numbered write_postfix].
  - intros Hr stack. rewrite as_i32_small by done. unfold read_nodes, read_node. cbn [app foldl mbind option_bind].
    destruct (Z.leb_spec 0 (Z.of_nat r)); [|lia]. by rewrite Nat2Z.id.
  - intros (Hl & Hr & He) stack. rewrite (write_postfix_app r (write_postfix l [])), !read_nodes_app, IHl by done.
    cbn [mbind option_bind]. rewrite IHr by done. cbn [mbind option_bind]. rewrite as_i32_small by done.
    unfold read_nodes, read_node. cbn [foldl mbind option_bind]. destruct (Z.leb_spec 0 (-1 - Z.of_nat e)); [lia|].
    do 3 f_equal. lia.
Qed.

Lemma length_write_postfix t : S (length (write_postfix t [])) = 2 * length (leaves t).
Proof.
  induction t as [r|l IHl r IHr e]; [done|]. cbn [write_postfix leaves].
  rewrite (write_postfix_app r (write_postfix l [])), !length_app. cbn [length]. lia.
Qed.

Lemma numbered_tree n edges t : n <= 64 -> (Z.of_nat (length edges) <= 2 ^ 31)%Z -> Forall (fun k => k < n) (leaves t) ->
  linked edges t -> numbered t.
Proof.
  intros Hn He. induction t as [r|l IHl r IHr e]; cbn [leaves linked numbered].
  - intros [Hr _]%Forall_cons _. lia.
  - intros [Hl Hr]%Forall_app (Hkl & Hkr & a & b & Hab & _). apply lookup_lt_Some in Hab. split_and!; [auto|auto|lia].
Qed.

(** C31: over at most 2^31 edges, the most an [int32] node tells apart, what the C ABI writes reads
    back to the tree answered, and is the [2n - 1] nodes it asked the caller to have room for. *)
Theorem postfix_reads_back {C} `{Cost C} n edges (set_cost : RelSet -> C) max_pairs out_capacity out
    (He : (Z.of_nat (length edges) <= 2 ^ 31)%Z)
    (Hs : dphyp_solve n edges set_cost max_pairs out_capacity = Some (0%Z, out)) :
  exists s, solve n edges set_cost max_pairs = Some (Ok s) /\ read_postfix out = Some (tree s)
    /\ length out = 2 * n - 1 /\ length out <= out_capacity.
Proof.
  unfold dphyp_solve in Hs. destruct (_ && _) eqn:Hcap; [done|].
  destruct (solve n edges set_cost max_pairs) as [answer|] eqn:Hsolve; [|done]. cbn [mbind option_bind] in Hs.
  destruct answer as [s|[]]; try done. injection Hs as <-. exists s. split; [done|].
  destruct (solve_cases n edges set_cost max_pairs) as [[_ Hx]|[Hn [(at_ & edge & _ & _ & _ & Hx)|[Hw Hx]]]]; rewrite Hx in Hsolve; [done|done|].
  destruct (dp_solve_cases n edges set_cost max_pairs (proj2 Hn) Hw _ (compares_nothing set_cost))
    as (answer & Ha & [->|(d & _ & _ & [[_ ->]|(p & t & _ & _ & Hl & Ho & ->)])]); rewrite Ha in Hsolve; try done.
  injection Hsolve as <-. cbn [tree]. pose proof (length_write_postfix t) as Hlen.
  rewrite Hl, length_seq in Hlen. destruct (all_leaves n t Hl) as [_ Hlt].
  apply andb_false_iff in Hcap as [Hcap|Hcap]; [apply Nat.leb_gt in Hcap; lia|]. apply Z.ltb_ge in Hcap.
  rewrite Z.mod_small in Hcap by lia. split_and!; [|lia|lia].
  unfold read_postfix. rewrite read_write_postfix; [done|].
  apply (numbered_tree n edges); [lia|done|done|by apply on_edges_linked].
Qed.

(** ** Concrete inputs *)
(** A hyperedge between relation 0 and relations 1 and 2, and the edges of a chain. *)
Definition demo_edges : list (RelSet * RelSet) := [(1, 6); (2, 4); (1, 2)]%N.
Definition demo_rows (s : RelSet) : f64 := f64_of (7 - s)%N.

Lemma solved_tree_joins_every_relation_witness : exists s, solve 3 demo_edges demo_rows 100 = Some (Ok s)
  /\ Permutation (leaves (tree s)) (seq 0 3) /\ linked demo_edges (tree s)
  /\ cost s = tree_cost demo_rows (tree s) /\ (pairs s <= 100)%N.
Proof.
  eexists. split; [vm_compute; reflexivity|]. apply (solved_tree_joins_every_relation 3 demo_edges demo_rows 100).
  vm_compute. reflexivity.
Defined.

Definition natural_cost : Cost N := {| cost_zero := 0%N; cost_add := N.add; cost_lt := N.ltb |}.
Definition demo_weight (s : RelSet) : N := (7 - s)%N.

Lemma natural_compares (set_cost : RelSet -> N) : @Compares N natural_cost set_cost N.le.
Proof.
  split; cbn [natural_cost cost_zero cost_add cost_lt]; intros *; rewrite ?N.ltb_lt, ?N.ltb_ge; try lia.
Qed.

Lemma solved_tree_is_cheapest_witness : exists s, @solve N natural_cost 3 demo_edges demo_weight 100 = Some (Ok s)
  /\ (cost s <= @tree_cost N natural_cost demo_weight (Join (Rel 0) (Join (Rel 1) (Rel 2) 1) 0))%N.
Proof.
  eexists. split; [vm_compute; reflexivity|].
  apply (@solved_tree_is_cheapest N natural_cost 3 demo_edges demo_weight 100 _ N.le).
  - apply natural_compares.
  - vm_compute. reflexivity.
  - reflexivity.
  - cbn. split_and!; [done|done|done|by exists 2%N, 4%N|by exists 1%N, 6%N].
  - repeat split; by apply Nat.ltb_lt.
Defined.

Lemma disconnected_has_no_tree_witness : solve 3 [(1, 2)]%N demo_rows 100 = Some (Err Disconnected)
  /\ ~ exists t, Permutation (leaves t) (seq 0 3) /\ linked [(1, 2)]%N t.
Proof.
  split; [vm_compute; reflexivity|]. apply (disconnected_has_no_tree 3 [(1, 2)]%N demo_rows 100). vm_compute. reflexivity.
Defined.

Lemma postfix_reads_back_witness : exists out, dphyp_solve 3 demo_edges demo_rows 100 5 = Some (0%Z, out)
  /\ exists s, solve 3 demo_edges demo_rows 100 = Some (Ok s) /\ read_postfix out = Some (tree s)
     /\ length out = 5 /\ length out <= 5.
Proof.
  eexists. split; [vm_compute; reflexivity|]. apply (postfix_reads_back 3 demo_edges demo_rows 100 5).
  - cbn. lia.
  - vm_compute. reflexivity.
Defined.
