(* ===== verification/Gpu.v ===== *)
(** * The GPU backend: calls on a device session

    [executor/gpu_backend/mod.rs], [emit.rs], [source.rs] and [executor/gpu_batch.rs].  An executor
    runs the calls its node's recipe names on the one session its query has, threading handles from
    one to the next.  The session is the class [Device]: the entry points of [src/peacockdb-ffi] with
    what each answers.  A batch is a handle with its price; handing it to a call that consumes it is
    using it once, and a batch that goes out of scope is released, which is written where it happens.
    A panic (an [expect], a column type no width is known for) is the error [Panics]. *)
From stdpp Require Import strings pretty.
From S2P Require Import Prelude Interval PlanIR PlanCommon Executor Joins Memory CpuOps Wire Attach.
Open Scope nat_scope.
Open Scope rust_scope.

(** ** The session *)
Definition Handle := N.
Definition JoinId := N.
Record PeacockNodeStats := { st_rows : N; varlen_content_bytes : N }.

Record Region :=
  { r_seq : Seq; r_partition : nat; r_call_index : N; host_us : N; device_us : N }.

Class Device `{Arrow} := {
  Dev : Type;
  Ipc : Type;
  node_timing_on : bool;
  ffi_execute_node : Dev -> Seq -> list (list Handle) -> nat -> result string (list (Handle * PeacockNodeStats)) * Dev;
  ffi_execute_scan_rowgroups : Dev -> Seq -> list nat -> result string (Handle * PeacockNodeStats) * Dev;
  ffi_slice_handle : Dev -> Handle -> N -> N -> result string Handle * Dev;
  (** [None]: a range naming no rows exports nothing *)
  ffi_result_from_handle : Dev -> Handle -> N -> N -> list Z -> result string (option Ipc) * Dev;
  (** handle 0: no build batch; an answer of handle 0: no table *)
  ffi_join_build : Dev -> Seq -> Handle -> result string (JoinId * PeacockNodeStats) * Dev;
  ffi_join_probe : Dev -> JoinId -> Handle -> result string (Handle * PeacockNodeStats) * Dev;
  ffi_join_finish : Dev -> JoinId -> result string (Handle * PeacockNodeStats) * Dev;
  ffi_join_release : Dev -> JoinId -> Dev;
  ffi_handle_release : Dev -> Handle -> Dev;
  (** the [(NULL, 0)] form: how many regions are recorded, draining none *)
  ffi_count_node_regions : Dev -> result string nat;
  ffi_collect_node_regions : Dev -> nat -> result string (list Region) * Dev;
  (** [StreamReader], to its end *)
  decode : Ipc -> result string (list RecordBatch) }.

Inductive Stop := Failed (e : BackendError) | Panics.

(** [BackendError::new]. *)
Definition fails (what : string) : Stop := Failed {| message := what |}.

Section Gpu.
Context `{Device}.

Definition DevM (A : Type) : Type := M Dev Stop A.

(** A call on the session, its error prefixed with what was called. *)
Definition ffi {A} (what : string) (call : Dev -> result string A * Dev) : DevM A := fun d =>
  let '(r, d) := call d in (map_err (fun e => fails (what +:+ e)) r, d).

Definition expects {S A} (o : option A) : M S Stop A := match o with Some x => mret x | None => throw Panics end.

(** ** Batches *)
Record GpuBatch := { handle : Handle; producer : Seq; gb_rows : N; gb_bytes : N }.
#[export] Instance GpuBatch_like : BatchLike GpuBatch := { num_rows := gb_rows; byte_size := gb_bytes }.

(** [Drop]. *)
Definition drop_batch (batch : GpuBatch) : DevM () := fun d => (Ok (), ffi_handle_release d (handle batch)).

Record Consumed := { c_rows : N; c_bytes : N }.
Definition consumed_nothing : Consumed := {| c_rows := 0; c_bytes := 0 |}.
Definition consumed_of (batch : GpuBatch) : Consumed := {| c_rows := gb_rows batch; c_bytes := gb_bytes batch |}.
Definition consumed_sum (batches : list GpuBatch) : Consumed :=
  foldl (fun total batch => {| c_rows := c_rows total ⊞ gb_rows batch; c_bytes := c_bytes total ⊞ gb_bytes batch |})
    consumed_nothing batches.

Definition hand_over (batches : list GpuBatch) : list Handle * Consumed := (map handle batches, consumed_sum batches).

(** ** Prices and the journal *)
Definition priced (stats : PeacockNodeStats) (schema : SchemaRef) : option N :=
  logical_size_from_schema schema (st_rows stats) (varlen_content_bytes stats).

Definition produced (seq : Seq) (h : Handle) (stats : PeacockNodeStats) (schema : SchemaRef) : option GpuBatch :=
  bytes ← priced stats schema;
  Some {| handle := h; producer := seq; gb_rows := st_rows stats; gb_bytes := bytes |}.

Definition journal (calls : AbiCalls) (seq : Seq) (target : AbiTarget) (taken : Consumed) (rows bytes : N) : AbiCalls :=
  abi_record calls
    {| Executor.call_seq := seq; Executor.target := target; call_index := 0; in_rows := c_rows taken;
       in_bytes := c_bytes taken; out_rows := rows; out_bytes := bytes |}.

Definition stats_of (calls : AbiCalls) : CallStats := {| scratch := None; Executor.calls := calls |}.
Definition no_abi_calls : CallStats := stats_of (armed node_timing_on).

(** ** What the session recorded *)
Definition recorded_regions : DevM nat :=
  ffi "collect_node_regions(count): " (fun d => (ffi_count_node_regions d, d)).

(** Asked, allocated and taken.  A count past the buffer is the panic of the slice. *)
Definition collect_regions : DevM (list Region) :=
  cap ← recorded_regions;
  regions ← ffi "collect_node_regions: " (fun d => ffi_collect_node_regions d cap);
  expects (if length regions <=? cap then Some regions else None).

(** ** Calls *)
Record CallSite := { site_node : nat; site_lane : nat }.

(** The node and the lane a call is made for, in its error. *)
Definition at_site (site : CallSite) (symbol : string) (seq : Seq) : string :=
  symbol +:+ "(#" +:+ pretty seq +:+ ") for node " +:+ pretty (site_node site) +:+ " lane " +:+ pretty (site_lane site) +:+ ": ".

Definition execute_node_many (site : CallSite) (seq : Seq) (inputs : list (list Handle)) (out_cap : nat) :
    DevM (list (Handle * PeacockNodeStats)) :=
  produced ← ffi (at_site site "execute_node" seq) (fun d => ffi_execute_node d seq inputs out_cap);
  mret (take out_cap produced).

Definition execute_node (site : CallSite) (seq : Seq) (inputs : list (list Handle)) : DevM (Handle * PeacockNodeStats) :=
  produced ← execute_node_many site seq inputs 1;
  match produced with
  | [one] => mret one
  | _ => throw (fails "a node driven here maps one call to one output")
  end.

Definition one_call (site : CallSite) (call : Seq * FbKind) (batches : list GpuBatch) (schema : SchemaRef)
    (calls : AbiCalls) : DevM (GpuBatch * AbiCalls) :=
  let '(seq, kind) := call in
  let '(handles, taken) := hand_over batches in
  '(h, stats) ← execute_node site seq [handles];
  out ← expects (produced seq h stats schema);
  mret (out, journal calls seq (TNode kind) taken (st_rows stats) (gb_bytes out)).

(** ** A node's calls in a chain *)
Record GpuExec :=
  { ge_site : CallSite; ge_calls : list (Seq * FbKind); ge_intermediate : option SchemaRef; ge_schema : SchemaRef }.

(** The checks of one call of a chain. *)
Definition chained_call (position : nat) (call : Call) : PlanResult (Seq * FbKind) :=
  ensure (bool_decide (when_ call = PerBatch)) (Invalid "an exec node calls per batch") ≫= fun _ =>
  ensure (bool_decide (inputs call = [if position =? 0 then IBatch else IPriorOutput]))
    (Invalid "an exec node's calls are a straight line") ≫= fun _ =>
  ok_or (target call) (Invalid "an exec node's call takes runtime bounds rather than a seq").

Definition exec_new (site : CallSite) (recipe : Recipe) (intermediate : option SchemaRef) (schema : SchemaRef) :
    PlanResult GpuExec :=
  calls ← traverse (fun '(position, call) => chained_call position call) (imap pair recipe);
  ensure ((length calls <=? 1) || bool_decide (is_Some intermediate))
    (Invalid "a chain prices all but its last call by the state schema, and this node declares none") ≫= fun _ =>
  Ok {| ge_site := site; ge_calls := calls; ge_intermediate := intermediate; ge_schema := schema |}.

(** The loop over the calls: the price of each is by the schema its output belongs to, the last's by
    the node's. *)
Fixpoint chain_from (e : GpuExec) (todo : list (Seq * FbKind)) (handles : list (list Handle)) (input : Consumed)
    (last : option GpuBatch) (calls : AbiCalls) : DevM (option GpuBatch * AbiCalls) :=
  match todo with
  | [] => mret (last, calls)
  | (seq, kind) :: todo =>
      '(h, stats) ← execute_node (ge_site e) seq handles;
      schema ← expects (match todo with [] => Some (ge_schema e) | _ => ge_intermediate e end);
      out ← expects (produced seq h stats schema);
      chain_from e todo [[h]] (consumed_of out) (Some out)
        (journal calls seq (TNode kind) input (st_rows stats) (gb_bytes out))
  end.

Definition chain (e : GpuExec) (first : list (list Handle)) (input : Consumed) : DevM (GpuBatch * CallStats) :=
  '(last, calls) ← chain_from e (ge_calls e) first input None (armed node_timing_on);
  out ← expects last;
  mret (out, stats_of calls).

Definition gpu_exec (e : GpuExec) (batch : GpuBatch) : DevM (GpuBatch * CallStats) :=
  chain e [[handle batch]] (consumed_of batch).
Definition exec_over_nothing (e : GpuExec) : DevM (GpuBatch * CallStats) := chain e [] consumed_nothing.

(** ** The scatter *)
Record GpuEmitter :=
  { em_site : CallSite; em_seq : Seq; em_kind : FbKind; em_lanes : nat; em_schema : SchemaRef }.

Definition emitter_new (site : CallSite) (recipe : Recipe) (schema : SchemaRef) : PlanResult GpuEmitter :=
  match recipe with
  | [call] =>
      ensure (bool_decide (when_ call = PerBatch) && bool_decide (inputs call = [IBatch]))
        (Invalid "a scatter calls per batch over the batch") ≫= fun _ =>
      '(seq, kind) ← ok_or (target call) (Invalid "a scatter's call addresses no seq");
      match kind with
      | KRepartition lanes =>
          Ok {| em_site := site; em_seq := seq; em_kind := kind; em_lanes := lanes; em_schema := schema |}
      | _ => Err (Invalid "a scatter addresses a repartition")
      end
  | _ => Err (Invalid "a scatter makes one call per batch")
  end.

Definition gpu_emit (e : GpuEmitter) (batch : GpuBatch) : DevM (list GpuBatch * CallStats) :=
  outs ← execute_node_many (em_site e) (em_seq e) [[handle batch]] (em_lanes e);
  if length outs =? em_lanes e
  then
    lanes ← expects (mapM (fun '(h, stats) => produced (em_seq e) h stats (em_schema e)) outs);
    let made := consumed_sum lanes in
    mret (lanes, stats_of (journal (armed node_timing_on) (em_seq e) (TNode (em_kind e)) (consumed_of batch)
                             (c_rows made) (c_bytes made)))
  else throw (fails "the scatter answered with another number of handles than the lanes the plan declares").

(** ** The source *)
Record LaneRead :=
  { lr_site : CallSite; lr_seq : Seq; lr_kind : FbKind; lr_batches : list (list nat); lr_schema : SchemaRef }.
(** [None] for an empty relation. *)
Record GpuSource := { lane_read : option LaneRead }.

Definition source_new (site : CallSite) (recipe : Recipe) (partition_groups : list (list (list nat)))
    (schema : SchemaRef) : PlanResult GpuSource :=
  match recipe with
  | [call] =>
      ensure (bool_decide (symbol call = ExecuteScanRowGroups) && bool_decide (when_ call = PerBatch)
              && bool_decide (inputs call = [IRowGroups]))
        (Invalid "a source reads the row groups of one batch per call") ≫= fun _ =>
      '(seq, kind) ← ok_or (target call) (Invalid "a source's call addresses no seq");
      batches ← ok_or (partition_groups !! site_lane site) (Invalid "a lane the partitioner did not map");
      Ok {| lane_read := Some {| lr_site := site; lr_seq := seq; lr_kind := kind; lr_batches := batches; lr_schema := schema |} |}
  | _ => Err (Invalid "a source makes one call per batch")
  end.

Definition source_empty : GpuSource := {| lane_read := None |}.

Definition read_next (s : GpuSource) : DevM (option (GpuBatch * CallStats) * GpuSource) :=
  match lane_read s with
  | None => mret (None, s)
  | Some lane =>
      match lr_batches lane with
      | [] => mret (None, s)
      | groups :: batches =>
          let s := {| lane_read := Some {| lr_site := lr_site lane; lr_seq := lr_seq lane; lr_kind := lr_kind lane;
                                           lr_batches := batches; lr_schema := lr_schema lane |} |} in
          '(h, stats) ← ffi (at_site (lr_site lane) "execute_scan_rowgroups" (lr_seq lane))
                          (fun d => ffi_execute_scan_rowgroups d (lr_seq lane) groups);
          out ← expects (produced (lr_seq lane) h stats (lr_schema lane));
          mret (Some (out, stats_of (journal (armed node_timing_on) (lr_seq lane) (TNode (lr_kind lane)) consumed_nothing
                                       (st_rows stats) (gb_bytes out))), s)
      end
  end.

(** ** The export *)
Record GpuExport := { ex_schema : SchemaRef }.

(** The rows of an export; the batch is released as it goes out of scope, whatever came of the call. *)
Definition gpu_unload (e : GpuExport) (batch : GpuBatch) (rows : RowRange) : DevM (RecordBatch * CallStats) := fun d =>
  match ffi "result_from_handle: "
          (fun d => ffi_result_from_handle d (handle batch) (offset rows) (range_length rows)
                      (declared_precisions (ex_schema e))) d with
  | (Err e, d) => (Err e, ffi_handle_release d (handle batch))
  | (Ok ipc, d) =>
      let exported := match ipc with
                      | None => Ok (new_empty (ex_schema e))
                      | Some ipc =>
                          batches ← map_err (fun why => fails ("decoding the exported IPC stream: " +:+ why)) (decode ipc);
                          map_err (fun why => fails ("the exported stream is not the sink's rows: " +:+ why))
                            (concat_batches (ex_schema e) batches)
                      end in
      ((exported ← exported;
        Ok (exported, stats_of (journal (armed node_timing_on) (producer batch) (TBare ResultFromHandle)
                                  (consumed_of batch) (n_rows exported) (get_array_memory_size exported)))),
       ffi_handle_release d (handle batch))
  end.
End Gpu.
