(* ===== verification/GpuAcc.v ===== *)
(** * The GPU backend's accumulators

    [gpu_backend/accumulate.rs]: what each holds between calls, and which of its recipe's calls it makes
    when.  A batch that goes out of scope unconsumed is released where that happens; a failed call ends
    the query and the session with it, so what an executor still held then is not released here. *)
From stdpp Require Import strings.
From S2P Require Import Prelude Interval PlanIR PlanCommon Executor Joins Memory CpuOps Wire Attach Gpu.
Open Scope nat_scope.
Open Scope rust_scope.

Section Accumulate.
Context `{Device}.

(** A method on the executor: the session beside the executor's own state. *)
Definition AccM (S A : Type) : Type := M (Dev * S) Stop A.

Definition on_device {S A} (m : DevM A) : AccM S A := fun '(d, s) => let '(r, d) := m d in (r, (d, s)).
Definition own {S} (f : S -> S) : AccM S () := modify (fun '(d, s) => (d, f s)).
Definition mine {S A} (f : S -> A) : AccM S A := gets (fun '(_, s) => f s).

(** A method that takes the executor by value. *)
Definition spent {S A} (m : AccM S A) (s : S) : DevM A := fun d => let '(r, (d, _)) := m (d, s) in (r, d).

Definition Outputs : Type := list GpuBatch * CallStats.

(** The seq a call addresses, once it is what the recipe should hold. *)
Definition addressed (call : Call) (w : CallPattern) (input : CallInput) : PlanResult (Seq * FbKind) :=
  ensure (bool_decide (when_ call = w) && bool_decide (inputs call = [input]))
    (Invalid "the executor drives another call than this node's") ≫= fun _ =>
  ok_or (target call) (Invalid "a call that addresses no seq").

Definition bytes_of (batches : list GpuBatch) : N := sum64 (map gb_bytes batches).

(** One call over everything handed, its output alone. *)
Definition one_output (site : CallSite) (call : Seq * FbKind) (batches : list GpuBatch) (schema : SchemaRef)
    (calls : AbiCalls) : DevM Outputs :=
  '(out, calls) ← one_call site call batches schema calls; mret ([out], stats_of calls).

(** The call at done over what was held, and no call over nothing. *)
Definition one_of_all (site : CallSite) (call : Seq * FbKind) (held : list GpuBatch) (schema : SchemaRef) :
    DevM Outputs :=
  match held with
  | [] => mret ([], no_abi_calls)
  | _ => one_output site call held schema (armed node_timing_on)
  end.

(** ** A lane's batches concatenated *)
Record Collapse :=
  { co_site : CallSite; co_collapse : Seq * FbKind; co_held : list GpuBatch; co_schema : SchemaRef }.

Definition collapse_holds (batch : GpuBatch) (s : Collapse) : Collapse :=
  {| co_site := co_site s; co_collapse := co_collapse s; co_held := co_held s ++ [batch]; co_schema := co_schema s |}.
Definition collapse_accumulate (batch : GpuBatch) : AccM Collapse Outputs :=
  own (collapse_holds batch) ≫= fun _ => mret ([], no_abi_calls).
Definition collapse_done (s : Collapse) : DevM Outputs :=
  one_of_all (co_site s) (co_collapse s) (co_held s) (co_schema s).

(** ** Each batch sorted, the runs merged *)
Record SortedRuns :=
  { so_site : CallSite; so_sort : Seq * FbKind; so_merge : Seq * FbKind; so_held : list GpuBatch;
    so_schema : SchemaRef }.

Definition sorted_holds (run : GpuBatch) (s : SortedRuns) : SortedRuns :=
  {| so_site := so_site s; so_sort := so_sort s; so_merge := so_merge s; so_held := so_held s ++ [run];
     so_schema := so_schema s |}.
Definition sorted_accumulate (batch : GpuBatch) : AccM SortedRuns Outputs :=
  s ← mine id;
  '(run, calls) ← on_device (one_call (so_site s) (so_sort s) [batch] (so_schema s) (armed node_timing_on));
  own (sorted_holds run) ≫= fun _ => mret ([], stats_of calls).
Definition sorted_done (s : SortedRuns) : DevM Outputs :=
  one_of_all (so_site s) (so_merge s) (so_held s) (so_schema s).

(** ** Aggregate state merged into aggregate state *)
Record AggregateBatches :=
  { ag_site : CallSite; ag_concat : Seq * FbKind; ag_merge : Seq * FbKind; ag_finalize : option (Seq * FbKind);
    ag_state : option GpuBatch; ag_pending : list GpuBatch; ag_threshold : N; ag_compactions : N;
    ag_held : SchemaRef; ag_output : SchemaRef }.

Definition ag_with (s : AggregateBatches) (st : option GpuBatch) (pending : list GpuBatch) (threshold compactions : N) :
    AggregateBatches :=
  {| ag_site := ag_site s; ag_concat := ag_concat s; ag_merge := ag_merge s; ag_finalize := ag_finalize s;
     ag_state := st; ag_pending := pending; ag_threshold := threshold; ag_compactions := compactions;
     ag_held := ag_held s; ag_output := ag_output s |}.

Definition ag_held_bytes (s : AggregateBatches) : N :=
  match ag_state s with Some st => gb_bytes st | None => 0%N end ⊞ bytes_of (ag_pending s).

(** [self.state.take()], then the pending batches. *)
Definition take_folding : AccM AggregateBatches (list GpuBatch) :=
  folding ← mine (fun s => option_list (ag_state s) ++ ag_pending s);
  own (fun s => ag_with s None [] (ag_threshold s) (ag_compactions s)) ≫= fun _ => mret folding.

Definition store_folded (st : GpuBatch) : AccM AggregateBatches () :=
  own (fun s => ag_with s (Some st) (ag_pending s)
                  (N.max (ag_threshold s) ((2 * gb_bytes st) mod u64_modulus)) (ag_compactions s ⊞ 1)).

(** The concat and the merge over its output, as the state's columns price them. *)
Definition fold_calls (s : AggregateBatches) (folding : list GpuBatch) (calls : AbiCalls) : DevM (GpuBatch * AbiCalls) :=
  let '(handles, taken) := hand_over folding in
  '(concatenated, concat_stats) ← execute_node (ag_site s) (ag_concat s).1 [handles];
  concat_bytes ← expects (priced concat_stats (ag_held s));
  let calls := journal calls (ag_concat s).1 (TNode (ag_concat s).2) taken (st_rows concat_stats) concat_bytes in
  '(h, stats) ← execute_node (ag_site s) (ag_merge s).1 [[concatenated]];
  st ← expects (produced (ag_merge s).1 h stats (ag_held s));
  mret (st, journal calls (ag_merge s).1 (TNode (ag_merge s).2)
              {| c_rows := st_rows concat_stats; c_bytes := concat_bytes |} (st_rows stats) (gb_bytes st)).

Definition ag_compact (calls : AbiCalls) : AccM AggregateBatches AbiCalls :=
  folding ← take_folding;
  s ← mine id;
  '(st, calls) ← on_device (fold_calls s folding calls);
  store_folded st ≫= fun _ => mret calls.

Definition ag_accumulate (batch : GpuBatch) : AccM AggregateBatches Outputs :=
  own (fun s => ag_with s (ag_state s) (ag_pending s ++ [batch]) (ag_threshold s) (ag_compactions s)) ≫= fun _ =>
  full ← mine (fun s => (ag_threshold s <=? ag_held_bytes s)%N);
  calls ← (if full : bool then ag_compact (armed node_timing_on) else mret (armed node_timing_on));
  mret ([], stats_of calls).

Definition ag_done : AccM AggregateBatches Outputs :=
  nothing_pending ← mine (fun s => match ag_pending s with [] => true | _ => false end);
  calls ← (if nothing_pending : bool then mret (armed node_timing_on) else ag_compact (armed node_timing_on));
  s ← mine id;
  own (fun s => ag_with s None (ag_pending s) (ag_threshold s) (ag_compactions s)) ≫= fun _ =>
  match ag_state s, ag_finalize s with
  | None, _ => mret ([], stats_of calls)
  | Some st, None => mret ([st], stats_of calls)
  | Some st, Some finalize => on_device (one_output (ag_site s) finalize [st] (ag_output s) calls)
  end.

(** ** An aggregate's init *)
Record AggregateInit := { in_chain : GpuExec; in_emitted : bool }.

Definition init_emitted (went_out : bool) (s : AggregateInit) : AggregateInit :=
  {| in_chain := in_chain s; in_emitted := in_emitted s || went_out |}.

(** A batch of no rows is released uncalled. *)
Definition init_accumulate (batch : GpuBatch) : AccM AggregateInit Outputs :=
  if (gb_rows batch =? 0)%N then on_device (drop_batch batch) ≫= fun _ => mret ([], no_abi_calls)
  else
    e ← mine in_chain;
    '(out, stats) ← on_device (gpu_exec e batch);
    own (init_emitted (0 <? gb_rows out)%N) ≫= fun _ => mret ([out], stats).

(** An answer of no rows is released: no groups is nothing to emit. *)
Definition init_done (s : AggregateInit) : DevM Outputs :=
  if in_emitted s then mret ([], no_abi_calls)
  else
    '(out, stats) ← exec_over_nothing (in_chain s);
    if (gb_rows out =? 0)%N then drop_batch out ≫= fun _ => mret ([], stats) else mret ([out], stats).

(** ** The mid-plan limit *)
Record LimitStream := { li_site : CallSite; li_interval : RowInterval; li_seen : N; li_schema : SchemaRef }.

Definition limit_past (rows : N) (s : LimitStream) : LimitStream :=
  {| li_site := li_site s; li_interval := li_interval s; li_seen := li_seen s ⊞ rows; li_schema := li_schema s |}.

(** The batch that straddles an end, sliced; the slice is charged to the node that made the batch. *)
Definition sliced (schema : SchemaRef) (batch : GpuBatch) (rows : RowRange) : DevM Outputs :=
  h ← ffi "slice_handle: " (fun d => ffi_slice_handle d (handle batch) (offset rows) (range_length rows));
  bytes ← expects (logical_size_from_schema schema (range_length rows) 0);
  let kept := {| handle := h; producer := producer batch; gb_rows := range_length rows; gb_bytes := bytes |} in
  mret ([kept], stats_of (journal (armed node_timing_on) (producer batch) (TBare SliceHandle) (consumed_of batch)
                            (gb_rows kept) (gb_bytes kept))).

Definition limit_accumulate (batch : GpuBatch) : AccM LimitStream Outputs :=
  s ← mine id;
  own (limit_past (gb_rows batch)) ≫= fun _ =>
  match range_of (li_interval s) (li_seen s) (gb_rows batch) with
  | None => on_device (drop_batch batch) ≫= fun _ => mret ([], no_abi_calls)
  | Some rows =>
      if covers rows (gb_rows batch) then mret ([batch], no_abi_calls)
      else on_device (sliced (li_schema s) batch rows)
  end.

(** ** [GpuAccumulator] *)
Inductive State :=
| SCoalesce (s : Collapse) | SSorted (s : SortedRuns) | SAggregate (s : AggregateBatches)
| SLimit (s : LimitStream) | SInit (s : AggregateInit).

Definition acc_coalesce (site : CallSite) (recipe : Recipe) (schema : SchemaRef) : PlanResult State :=
  match recipe with
  | [call] =>
      collapse ← addressed call AtDone ILaneBatches;
      Ok (SCoalesce {| co_site := site; co_collapse := collapse; co_held := []; co_schema := schema |})
  | _ => Err (Invalid "a coalesce makes one call, at done")
  end.

Definition acc_sorted (site : CallSite) (recipe : Recipe) (schema : SchemaRef) : PlanResult State :=
  match recipe with
  | [per_batch; at_done] =>
      sort ← addressed per_batch PerBatch IBatch;
      merge ← addressed at_done AtDone ILaneBatches;
      Ok (SSorted {| so_site := site; so_sort := sort; so_merge := merge; so_held := []; so_schema := schema |})
  | _ => Err (Invalid "an accumulating sort makes two calls: a sort per batch and a merge at done")
  end.

Definition acc_aggregate (site : CallSite) (recipe : Recipe) (state_ output : SchemaRef) (compact_bytes : N) :
    PlanResult State :=
  '(concat_, merge, finalize) ←
    match recipe with
    | [concat_; merge] => Ok (concat_, merge, None)
    | [concat_; merge; finalize] =>
        finalize ← addressed finalize AtDone IPriorOutput; Ok (concat_, merge, Some finalize)
    | _ => Err (Invalid "a batch aggregate makes a concat and a merge, and a finalize where it finishes the aggregate")
    end;
  concat_ ← addressed concat_ PerCompaction ILaneBatches;
  merge ← addressed merge PerCompaction IPriorOutput;
  Ok (SAggregate {| ag_site := site; ag_concat := concat_; ag_merge := merge; ag_finalize := finalize;
                    ag_state := None; ag_pending := []; ag_threshold := compact_bytes; ag_compactions := 0;
                    ag_held := state_; ag_output := output |}).

(** The done calls mirror the per-batch ones, the first of them handed nothing. *)
Definition mirrored (position : nat) (calls : Call * Call) : bool :=
  bool_decide (target calls.2 = target calls.1)
  && bool_decide (inputs calls.2 = match position with 0 => [] | _ => [IPriorOutput] end).

Definition acc_aggregate_init (site : CallSite) (recipe : Recipe) (state_ output : SchemaRef) : PlanResult State :=
  let per_batch := calls_under recipe PerBatch in
  let at_done := calls_under recipe AtDoneIfNothingOut in
  ensure ((length per_batch + length at_done =? length recipe) && (length per_batch =? length at_done)
          && forallb id (imap mirrored (zip per_batch at_done)))
    (Invalid "an init makes its calls per batch, and the same calls at done if nothing went out") ≫= fun _ =>
  chain ← exec_new site per_batch (Some state_) output;
  Ok (SInit {| in_chain := chain; in_emitted := false |}).

Definition acc_limit (site : CallSite) (recipe : Recipe) (interval : RowInterval) (schema : SchemaRef) :
    PlanResult State :=
  match recipe with
  | [call] =>
      ensure (bool_decide (symbol call = SliceHandle) && bool_decide (when_ call = PerStraddlingBatch))
        (Invalid "a limit slices the batches that straddle its ends and calls nothing else") ≫= fun _ =>
      Ok (SLimit {| li_site := site; li_interval := interval; li_seen := 0; li_schema := schema |})
  | _ => Err (Invalid "a limit makes one call, per straddling batch")
  end.

Definition inside {S A} (wrap : S -> State) (s : S) (m : AccM S A) : AccM State A := fun ds =>
  let '(r, (d, s)) := m (ds.1, s) in (r, (d, wrap s)).

Definition gpu_accumulate_and_fetch (batch : GpuBatch) : AccM State Outputs :=
  st ← mine id;
  match st with
  | SCoalesce s => inside SCoalesce s (collapse_accumulate batch)
  | SSorted s => inside SSorted s (sorted_accumulate batch)
  | SAggregate s => inside SAggregate s (ag_accumulate batch)
  | SLimit s => inside SLimit s (limit_accumulate batch)
  | SInit s => inside SInit s (init_accumulate batch)
  end.

Definition gpu_mark_done_and_fetch (st : State) : DevM Outputs :=
  match st with
  | SCoalesce s => collapse_done s
  | SSorted s => sorted_done s
  | SAggregate s => spent ag_done s
  | SLimit s => mret ([], no_abi_calls)
  | SInit s => init_done s
  end.

Definition gpu_held_bytes (st : State) : N :=
  match st with
  | SCoalesce s => bytes_of (co_held s)
  | SSorted s => bytes_of (so_held s)
  | SAggregate s => ag_held_bytes s
  | SLimit _ | SInit _ => 0
  end.

(** ** [GpuPartitionAccumulator] *)
Record GpuPartitionAccumulator :=
  { pa_site : CallSite; pa_merge : Seq * FbKind; pa_lanes : list (list GpuBatch); pa_live : N; pa_schema : SchemaRef }.

Definition pa_with (s : GpuPartitionAccumulator) (lanes : list (list GpuBatch)) (live_ : N) : GpuPartitionAccumulator :=
  {| pa_site := pa_site s; pa_merge := pa_merge s; pa_lanes := lanes; pa_live := live_; pa_schema := pa_schema s |}.

Definition merge_sorted (site : CallSite) (recipe : Recipe) (lanes : nat) (schema : SchemaRef) :
    PlanResult GpuPartitionAccumulator :=
  match recipe with
  | [call] =>
      merge ← addressed call AtDone IAllLanes;
      Ok {| pa_site := site; pa_merge := merge; pa_lanes := replicate lanes []; pa_live := N.of_nat lanes;
            pa_schema := schema |}
  | _ => Err (Invalid "a merge of sorted partitions makes one call, at done")
  end.

(** A lane past the node's is the index panic, which releases the batch; a done past the last wraps the
    count. *)
Definition gpu_lane_event (partition : nat) (event : LaneEvent GpuBatch) : AccM GpuPartitionAccumulator Outputs :=
  match event with
  | LaneBatch batch =>
      lane ← mine (fun s => pa_lanes s !! partition);
      match lane with
      | Some held =>
          own (fun s => pa_with s (<[partition := held ++ [batch]]> (pa_lanes s)) (pa_live s)) ≫= fun _ =>
          mret ([], no_abi_calls)
      | None => on_device (drop_batch batch) ≫= fun _ => throw Panics
      end
  | LaneDone =>
      own (fun s => pa_with s (pa_lanes s) (pa_live s ⊞ u64_max)) ≫= fun _ =>
      s ← mine id;
      if (0 <? pa_live s)%N then mret ([], no_abi_calls)
      else
        own (fun s => pa_with s [] (pa_live s)) ≫= fun _ =>
        on_device (one_of_all (pa_site s) (pa_merge s) (concat (pa_lanes s)) (pa_schema s))
  end.

Definition gpu_part_held_bytes (s : GpuPartitionAccumulator) : N := sum64 (map bytes_of (pa_lanes s)).
End Accumulate.
