(* ===== verification/GpuJoin.v ===== *)
(** * The GPU backend's joins and its executors

    [gpu_backend/join.rs]: a session per lane, built once, probed once a batch and finished once; and
    [gpu_backend/backend.rs]: which executor drives a node, from the recipe it published, and the bytes
    each reports. *)
From stdpp Require Import strings.
From S2P Require Import Prelude Interval PlanIR PlanCommon Executor Forwarder Joins TransCommon Pipeline Memory CpuOps Wire Attach Gpu GpuAcc.
Open Scope nat_scope.
Open Scope rust_scope.

(** ** What a call may spend on pairs *)
Definition INDEX_BYTES_PER_PAIR : N := 8.

Record PairScratch := { ps_keyed : bool; bytes_per_pair : N; ps_chunk_bytes : N }.

(** [None] is the index panic on a column past its side. *)
Definition pair_scratch (keyed : bool) (filter_columns : list JoinFilterColumn) (build probe : SchemaRef)
    (chunk_bytes : N) : option PairScratch :=
  widths ← mapM (fun c => (fun f => width_on_device (data_type f))
                   <$> match side c with Build => build | Probe => probe end !! filter_index c) filter_columns;
  Some {| ps_keyed := keyed; bytes_per_pair := INDEX_BYTES_PER_PAIR ⊞ sum64 widths; ps_chunk_bytes := chunk_bytes |}.

Definition pair_bytes (s : PairScratch) (build_rows probe_rows : N) : N :=
  let pairs := if ps_keyed s then probe_rows else build_rows ⊠ probe_rows in
  N.min (pairs ⊠ bytes_per_pair s) (ps_chunk_bytes s).

Section Join.
Context `{Device}.

(** ** The session *)
Record GpuJoin :=
  { j_site : CallSite; j_seq : Seq; j_type : JoinType; j_scratch : PairScratch; j_distinct_key_width : N;
    j_output : SchemaRef }.

Record GpuProbingJoin :=
  { pj_join : GpuJoin; pj_session : JoinId; pj_build_rows : N; pj_build_bytes : N; pj_owes_nothing : bool }.

Definition session_line (jt : JoinType) : list (AbiSymbol * CallPattern) :=
  if needs_finish jt then [(JoinBuild, AtJoinBuild); (JoinProbe, PerProbeBatch); (JoinFinish, AtDone)]
  else [(JoinBuild, AtJoinBuild); (JoinProbe, PerProbeBatch)].

Definition join_new (site : CallSite) (recipe : Recipe) (jt : JoinType) (scratch : PairScratch)
    (distinct_key_width : N) (output : SchemaRef) : PlanResult GpuJoin :=
  ensure (bool_decide (map (fun call => (symbol call, when_ call)) recipe = session_line jt))
    (Invalid "a join is a session, and its recipe is another") ≫= fun _ =>
  seq ← match head recipe ≫= target with
        | Some (seq, KJoin) => Ok seq
        | _ => Err (Invalid "a join session addresses one CudfJoin")
        end;
  ensure (forallb (fun call => bool_decide (target call = Some (seq, KJoin))) recipe)
    (Invalid "every call of a join session addresses its one seq") ≫= fun _ =>
  Ok {| j_site := site; j_seq := seq; j_type := jt; j_scratch := scratch;
        j_distinct_key_width := distinct_key_width; j_output := output |}.

Definition built_bytes (j : GpuJoin) (rows : N) : N :=
  session_bytes (j_type j) (ps_keyed (j_scratch j)) (j_distinct_key_width j) rows.

(** The journal of a session's call. *)
Definition session_call (j : GpuJoin) (taken : Consumed) (rows bytes : N) : CallStats :=
  stats_of (journal (armed node_timing_on) (j_seq j) (TNode KJoin) taken rows bytes).

Definition gpu_set_build (j : GpuJoin) (build : option GpuBatch) : DevM (GpuProbingJoin * CallStats) :=
  let '(h, taken) := match build with
                     | Some batch => (handle batch, consumed_of batch)
                     | None => (0%N, consumed_nothing)
                     end in
  '(session, _) ← ffi (at_site (j_site j) "join_build" (j_seq j)) (fun d => ffi_join_build d (j_seq j) h);
  mret ({| pj_join := j; pj_session := session; pj_build_rows := c_rows taken; pj_build_bytes := c_bytes taken;
           pj_owes_nothing := (c_rows taken =? 0)%N && empty_build_owes_nothing (j_type j) |},
        session_call j taken 0 0).

Definition probing_held_bytes (p : GpuProbingJoin) : N :=
  pj_build_bytes p ⊞ built_bytes (pj_join p) (pj_build_rows p).

(** No rows and no bytes is a finish. *)
Definition call_bytes (p : GpuProbingJoin) (rows bytes : N) : option N :=
  let j := pj_join p in
  let finishes := needs_finish (j_type j) in
  if (rows =? 0)%N && (bytes =? 0)%N
  then if finishes then logical_size_from_schema (j_output j) (pj_build_rows p) 0 else Some 0%N
  else
    out ← logical_size_from_schema (j_output j) rows 0;
    let distinct_keys := if finishes then wrapping_mul rows (j_distinct_key_width j) else 0%N in
    Some (bytes ⊞ out ⊞ pair_bytes (j_scratch j) (pj_build_rows p) rows ⊞ distinct_keys).

(** Handle 0 is a call that answered nothing, and it was still made. *)
Definition session_answer (j : GpuJoin) (taken : Consumed) (h : Handle) (stats : PeacockNodeStats) :
    DevM (option GpuBatch * CallStats) :=
  out ← (if (h =? 0)%N then mret None else out ← expects (produced (j_seq j) h stats (j_output j)); mret (Some out));
  mret (out, session_call j taken (from_option gb_rows 0%N out) (from_option gb_bytes 0%N out)).

Definition gpu_probe (p : GpuProbingJoin) (batch : GpuBatch) : DevM (option GpuBatch * CallStats) :=
  let j := pj_join p in
  '(h, stats) ← ffi (at_site (j_site j) "join_probe" (j_seq j)) (fun d => ffi_join_probe d (pj_session p) (handle batch));
  session_answer j (consumed_of batch) h stats.

(** The session is given back when this returns, whatever came of the call. *)
Definition gpu_finish (p : GpuProbingJoin) : DevM (option GpuBatch * CallStats) := fun d =>
  let j := pj_join p in
  let '(r, d) :=
    (if negb (needs_finish (j_type j)) then mret (None, no_abi_calls)
     else
       '(h, stats) ← ffi (at_site (j_site j) "join_finish" (j_seq j)) (fun d => ffi_join_finish d (pj_session p));
       session_answer j consumed_nothing h stats) d in
  (r, ffi_join_release d (pj_session p)).

(** ** The executors of a node *)
Definition COMPACT_BYTES : N := 2 ^ 26.

Definition GpuExecutors : Type :=
  NodeExecutors GpuSource GpuExec State GpuPartitionAccumulator GpuEmitter GpuJoin GpuExport.

(** The columns a node declares, which a sink does not. *)
Definition out_schema (node : GpuNode) : outcome SchemaRef := expected (fields <$> kind_schema (kind node)).
Definition child_schema (node : GpuNode) (ordinal : nat) : outcome SchemaRef :=
  child ← expected (children node !! ordinal); out_schema child.

Definition join_parameters (node : GpuNode) : option (JoinType * bool * list JoinFilterColumn * option N) :=
  match node with
  | GpuHashJoin _ jt keys filter columns _ _ build probe =>
      Some (jt, true, columns, distinct_key_width jt keys filter columns build probe)
  | GpuNestedLoopJoin _ jt _ columns _ _ _ => Some (jt, false, columns, Some 0%N)
  | GpuCrossJoin _ _ _ _ => Some (Inner, false, [], Some 0%N)
  | _ => None
  end.

Definition join_executor (plan : RecipePlan) (site : CallSite) (recipe : Recipe) (node : GpuNode) : outcome GpuJoin :=
  '(jt, keyed, columns, width) ← expected (join_parameters node);
  width ← expected width;
  build ← child_schema node 0;
  probe ← child_schema node 1;
  scratch ← expected (pair_scratch keyed columns build probe (rp_join_scratch_bytes plan));
  output ← out_schema node;
  written (join_new site recipe jt scratch width output).

(** The executor of a node that makes calls, from its recipe. *)
Definition executor_from (plan : RecipePlan) (site : CallSite) (recipe : Recipe) (node : GpuNode) :
    outcome GpuExecutors :=
  match node with
  | GpuLoadParquet _ _ _ _ groups _ _ =>
      output ← out_schema node; s ← written (source_new site recipe groups output); Good (ESource s)
  | GpuFilter _ _ _ _ | GpuProject _ _ _ | GpuSort _ _ _ _ =>
      output ← out_schema node; e ← written (exec_new site recipe None output); Good (EExec e)
  | GpuAggregate _ _ intermediate _ =>
      output ← out_schema node;
      a ← written (acc_aggregate_init site recipe (fields intermediate) output); Good (EBatchAccumulator a)
  | GpuCoalesceAllBatches _ _ =>
      output ← out_schema node; a ← written (acc_coalesce site recipe output); Good (EBatchAccumulator a)
  | GpuAccumulateBatchesAndSort _ _ _ _ =>
      output ← out_schema node; a ← written (acc_sorted site recipe output); Good (EBatchAccumulator a)
  | GpuAggregateBatches _ _ intermediate _ =>
      output ← out_schema node;
      a ← written (acc_aggregate site recipe (fields intermediate) output COMPACT_BYTES); Good (EBatchAccumulator a)
  | GpuLimit _ interval _ =>
      output ← out_schema node; a ← written (acc_limit site recipe interval output); Good (EBatchAccumulator a)
  | GpuMergeSortedPartitions _ _ _ input =>
      layout ← expected (kind_layout (kind input));
      output ← out_schema node;
      a ← written (merge_sorted site recipe (n layout) output); Good (EPartitionAccumulator a)
  | GpuEmitPartitions _ _ _ =>
      output ← out_schema node; e ← written (emitter_new site recipe output); Good (EPartitionEmitter e)
  | GpuHashJoin _ _ _ _ _ _ _ _ _ | GpuCrossJoin _ _ _ _ | GpuNestedLoopJoin _ _ _ _ _ _ _ =>
      j ← join_executor plan site recipe node; Good (EJoin j)
  | GpuUnload _ _ _ => input ← child_schema node 0; Good (EUnload {| ex_schema := input |})
  | GpuMergePartitions _ _ | GpuUnion _ _ | GpuInterleave _ _ | GpuEmpty _ => Panicked
  end.

(** [GpuBackend::executors_for]: routing and the empty relation have no recipe to look for. *)
Definition gpu_executors_for (plan : RecipePlan) (node : GpuNode) (post_order lane : nat) : outcome GpuExecutors :=
  match node with
  | GpuMergePartitions _ _ | GpuUnion _ _ | GpuInterleave _ _ =>
      f ← expected (forwarder_for node); Good (EBatchForwarder f)
  | GpuEmpty _ => Good (ESource source_empty)
  | _ =>
      recipe ← written (ok_or (recipe_of plan post_order) (Invalid "the recipes hold no entry for a node that makes calls"));
      executor_from plan {| site_node := post_order; site_lane := lane |} recipe node
  end.

(** [SourceExecutor::next_batch]: the source comes back with a batch and not at the end. *)
Definition gpu_next_batch (s : GpuSource) : DevM (SourceStep GpuBatch GpuSource) :=
  '(read, s) ← read_next s;
  mret match read with Some (batch, stats) => StepBatch batch stats s | None => Exhausted end.

(** ** What each reports *)
#[export] Instance GpuSource_executor : Executor.Executor GpuSource :=
  { resident_bytes _ := 0%N; scratch_bytes _ _ _ := 0%N }.
#[export] Instance GpuExec_executor : Executor.Executor GpuExec :=
  { resident_bytes _ := 0%N; scratch_bytes _ _ bytes := bytes }.
#[export] Instance GpuAccumulator_executor : Executor.Executor State :=
  { resident_bytes := gpu_held_bytes; scratch_bytes s _ bytes := gpu_held_bytes s ⊞ bytes }.
#[export] Instance GpuPartitionAccumulator_executor : Executor.Executor GpuPartitionAccumulator :=
  { resident_bytes := gpu_part_held_bytes; scratch_bytes s _ bytes := gpu_part_held_bytes s ⊞ bytes }.
#[export] Instance GpuEmitter_executor : Executor.Executor GpuEmitter :=
  { resident_bytes _ := 0%N; scratch_bytes _ _ bytes := bytes }.
#[export] Instance GpuJoin_executor : Executor.Executor GpuJoin :=
  { resident_bytes _ := 0%N; scratch_bytes j rows _ := built_bytes j rows }.
#[export] Instance GpuExport_executor : Executor.Executor GpuExport :=
  { resident_bytes _ := 0%N; scratch_bytes _ _ bytes := bytes }.
End Join.
