(* ===== verification/GpuFacts.v ===== *)
(** * The GPU backend drives what the writer published

    Every recipe the writer records is one the executor of its node accepts
    ([recipes_build_their_executors]): the writer's walk leaves each node's calls at its post-order
    place, and validation has asked of the node what its executor looks up. *)
From stdpp Require Import strings.
From S2P Require Import Prelude Interval PlanIR PlanCommon PlanNodes Index Executor Forwarder Joins Aggregates Validate ValidFacts Denote PlanSound Physical.
From S2P Require Import ScanMeta TransCommon TransSamples Translate TransFacts Memory MemFacts Pipeline CpuOps WireExpr Wire Attach WireFacts Gpu GpuAcc GpuJoin.
Open Scope nat_scope.

(** ** The recipe recorded at a node's place is the one written for it *)
Definition recorded_for (node : GpuNode) (recipe : option Recipe) : Prop :=
  exists inputs w w', emit node inputs w = Good (recipe, w').

Lemma in_turn_records cs s s' :
  (forall c, c ∈ cs -> forall s s', attach_walk c s = Good s' ->
     exists new, s'.2 = s.2 ++ new /\ Forall2 recorded_for (postorder c) new) ->
  in_turn (map attach_walk cs) s = Good s' ->
  exists new, s'.2 = s.2 ++ new /\ Forall2 recorded_for (concat (map postorder cs)) new.
Proof.
  revert s. induction cs as [|c cs IH]; intros s Hc Hw.
  - injection Hw as <-. exists []. split; [by rewrite app_nil_r|constructor].
  - cbn in Hw. apply bind_good in Hw as (s1 & H1 & Hw).
    destruct (Hc c (list_elem_of_here _ _) s s1 H1) as (new & E1 & F1).
    destruct (IH s1) as (more & E2 & F2); [intros c' Hin; by apply Hc, list_elem_of_further|done|].
    exists (new ++ more). split; [by rewrite E2, E1, app_assoc|by apply Forall2_app].
Qed.

Lemma attach_walk_records node : forall s s', attach_walk node s = Good s' ->
  exists new, s'.2 = s.2 ++ new /\ Forall2 recorded_for (postorder node) new.
Proof.
  induction node as [node IH] using node_ind_children. intros [w rs] [w' rs'] Hw.
  unfold attach_walk in Hw. rewrite fold_node_eq in Hw. fold attach_walk in Hw. unfold walk_node in Hw.
  apply bind_good in Hw as ([w1 rs1] & E1 & Hw). apply bind_good in Hw as (inputs & _ & Hw).
  apply bind_good in Hw as ([recipe w2] & E3 & Hw). injection Hw as <- <-.
  destruct (in_turn_records _ _ _ IH E1) as (new & Ers & Hall). cbn [snd] in *.
  exists (new ++ [recipe]). split; [by rewrite Ers, app_assoc|]. rewrite postorder_eq.
  apply Forall2_app; [done|]. constructor; [|constructor]. by exists inputs, w1, w2.
Qed.

Lemma recipe_recorded root scratch rp i node : attach_recipes root scratch = Good rp -> postorder root !! i = Some node ->
  recorded_for node (recipe_of rp i).
Proof.
  intros Hr Hi. destruct (attach_inv _ _ _ Hr) as (w & Hw & _).
  destruct (attach_walk_records _ _ _ Hw) as (new & Hrs & Hall). cbn in Hrs. subst new.
  destruct (Forall2_lookup_l _ _ _ _ _ Hall Hi) as (recipe & Hl & Hrec). unfold recipe_of. by rewrite Hl.
Qed.

(** ** Its node's executor accepts it *)
Ltac decided := repeat (rewrite bool_decide_eq_true_2 by done; cbn [andb]).

Lemma target_again (calls again : list Call) : at_done_calls calls = Some again ->
  Forall2 (fun call done => target done = target call) calls again
  /\ forallb id (imap mirrored (zip calls again)) = true
  /\ Forall (fun done => when_ done = AtDoneIfNothingOut) again.
Proof.
  unfold at_done_calls. intros Ha. apply mapM_Some_1 in Ha.
  assert (Hcall : forall i call done, calls !! i = Some call -> again !! i = Some done ->
    target done = target call /\ inputs done = match i with 0 => [] | _ => [IPriorOutput] end
    /\ when_ done = AtDoneIfNothingOut).
  { intros i call done Hc Hd. destruct (Forall2_lookup_r _ _ _ _ _ Ha Hd) as ([j old] & Hj & He).
    rewrite list_lookup_imap, Hc in Hj. injection Hj as <- <-. destruct (target call) as [[seq k]|]; [|discriminate He].
    by injection He as <-. }
  assert (Hlen : length calls = length again) by (apply Forall2_length in Ha; by rewrite length_imap in Ha).
  split; [|split].
  - apply Forall2_same_length_lookup. split; [done|]. intros i call done Hc Hd. by destruct (Hcall i call done Hc Hd).
  - apply forallb_forall. intros b Hb. apply list_elem_of_In, elem_of_lookup_imap in Hb as (i & [call done] & -> & Hi).
    apply lookup_zip_with_Some in Hi as (? & ? & [= <- <-] & Hc & Hd). destruct (Hcall i call done Hc Hd) as (Ht & Hin & _).
    unfold mirrored. cbn [fst snd]. rewrite Ht, Hin. by rewrite !bool_decide_eq_true_2.
  - apply Forall_forall. intros done Hin. apply list_elem_of_lookup in Hin as [i Hd].
    destruct (lookup_lt_is_Some_2 calls i) as [call Hc]; [rewrite Hlen; apply (lookup_lt_Some _ _ _ Hd)|]. by destruct (Hcall i call done Hc Hd) as (_ & _ & Hwhen).
Qed.

(** The per-batch calls of a recipe, and those made again at done. *)
Lemma under_all w (calls : Recipe) : Forall (fun call => when_ call = w) calls -> calls_under calls w = calls.
Proof.
  induction 1 as [|call calls Hw _ IH]; [done|]. unfold calls_under, Recipe in *.
  by rewrite filter_cons_True, IH by done.
Qed.
Lemma under_none w w' (calls : Recipe) : Forall (fun call => when_ call = w') calls -> w <> w' -> calls_under calls w = [].
Proof.
  induction 1 as [|call calls Hw _ IH]; [done|]. intros Hne. unfold calls_under, Recipe in *.
  rewrite filter_cons_False by congruence. by apply IH.
Qed.

Lemma under_app w (calls again : Recipe) : calls_under (calls ++ again) w = calls_under calls w ++ calls_under again w.
Proof. unfold calls_under, Recipe. by rewrite filter_app. Qed.

Lemma init_accepts site (calls again : Recipe) st out : Forall (fun call => when_ call = PerBatch) calls ->
  at_done_calls calls = Some again -> is_ok (exec_new site calls (Some st) out) = true ->
  is_ok (acc_aggregate_init site (calls ++ again) st out) = true.
Proof.
  intros Hc Ha He. destruct (target_again _ _ Ha) as (Hsame & Hmirror & Hw). pose proof (Forall2_length _ _ _ Hsame) as Hlen.
  unfold acc_aggregate_init.
  assert (E1 : calls_under (calls ++ again) PerBatch = calls).
  { by rewrite under_app, under_all, (under_none _ _ again Hw), app_nil_r. }
  assert (E2 : calls_under (calls ++ again) AtDoneIfNothingOut = again).
  { by rewrite under_app, (under_none _ _ calls Hc), (under_all _ again Hw). }
  rewrite E1, E2, length_app, !Hlen, !Nat.eqb_refl, Hmirror. cbn [andb ensure mbind result_bind].
  by destruct (exec_new site calls (Some st) out).
Qed.

(** What the executors ask of a node beyond its recipe: the columns and the lanes it declares, and for a
    join the widths of the columns its session is priced by. *)
Record drivable (node : GpuNode) (lane : nat) : Prop := {
  declares_columns : match node with GpuUnload _ _ _ => True | _ => is_Some (kind_schema (kind node)) end;
  inputs_declare : Forall (fun child => is_Some (kind_schema (kind child)) /\ is_Some (kind_layout (kind child))) (children node);
  lane_mapped : match node with GpuLoadParquet _ _ _ _ groups _ _ => lane < length groups | _ => True end;
  join_priced : match join_parameters node, children node with
                | Some (_, keyed, columns, width), [build; probe] => is_Some width /\ forall chunk,
                    is_Some (pair_scratch keyed columns (fields (input_schema build)) (fields (input_schema probe)) chunk)
                | _, _ => True
                end }.

(** The executor a computation answers is of the node's category. *)
Definition answers_category (o : outcome GpuExecutors) (c : ExecutorCategory) : Prop :=
  exists e, o = Good e /\ executors_category e = c.

Lemma answers_of {A} (r : PlanResult A) (wrap : A -> GpuExecutors) c : is_ok r = true ->
  (forall a, executors_category (wrap a) = c) -> answers_category (a ← written r; Good (wrap a)) c.
Proof. destruct r as [a|]; [|discriminate]. intros _ Hc. by exists (wrap a). Qed.

Lemma out_schema_good node : is_Some (kind_schema (kind node)) -> out_schema node = Good (fields (input_schema node)).
Proof. unfold out_schema, input_schema. by intros [s ->]. Qed.

Lemma session_accepted site seq jt scratch width out calls :
  mapM (call_join seq) (AtJoinBuild :: PerProbeBatch :: if needs_finish jt then [AtDone] else []) = Some calls ->
  is_ok (join_new site calls jt scratch width out) = true.
Proof.
  intros Hc. unfold join_new, session_line. destruct (needs_finish jt); cbn in Hc; injection Hc as <-; cbn; by rewrite bool_decide_eq_true_2.
Qed.

Lemma join_accepts plan site node join build probe inputs w recipe w' : drivable node (site_lane site) ->
  children node = [build; probe] -> join_node node = Some join ->
  (exists keyed columns width, join_parameters node = Some (jn_type join, keyed, columns, width)) ->
  is_Some (kind_schema (kind node)) ->
  join_recipe node inputs w = Good (Some recipe, w') ->
  answers_category (j ← join_executor plan site recipe node; Good (EJoin j)) CJoin.
Proof.
  intros [_ Hins _ Hjoin] Hc Hn (keyed & columns & width & Hp) Hout Hw. unfold join_recipe in Hw. rewrite Hn in Hw.
  destruct inputs as [|b [|p []]]; try discriminate Hw. inv_writer.
  match goal with E : mapM (call_join ?s) _ = _ |- _ => rename E into Hcalls end.
  rewrite Hp, Hc in Hjoin. destruct Hjoin as [[kw ->] Hscratch].
  rewrite Hc in Hins. inversion_clear Hins as [|? ? [Hb _] Hins']. inversion_clear Hins' as [|? ? [Hpr _] _].
  unfold join_executor, child_schema. rewrite Hp, Hc. cbn [expected mbind outcome_bind].
  change ([build; probe] !! 0) with (Some build). change ([build; probe] !! 1) with (Some probe). cbn [expected mbind outcome_bind].
  rewrite !out_schema_good by done. cbn [mbind outcome_bind].
  destruct (Hscratch (rp_join_scratch_bytes plan)) as [scratch ->]. cbn [expected mbind outcome_bind].
  pose proof (session_accepted site _ (jn_type join) scratch kw (fields (input_schema node)) _ Hcalls) as Hok.
  destruct (join_new _ _ _ _ _ _) as [j|]; [|discriminate Hok]. by exists (EJoin j).
Qed.

Lemma executor_accepts plan site node recipe : drivable node (site_lane site) -> recorded_for node (Some recipe) ->
  answers_category (executor_from plan site recipe node) (category_of node).
Proof.
  intros Hd (inputs & w & w' & He). pose proof Hd as [Hout Hins Hlane Hjoin].
  destruct node as [k tb f pj pg sv cn|k|k p pj i|k es i|k ks ft i|k i|k ks ft i|k iv i|k bd st i|k bd st i|k jt ks f fc ne pj b p
    |k pj b p|k jt f fc pj b p|k i|k hk i|k ks ft i|k bs|k bs|k iv i];
    cbn [emit children executor_from category_of] in *;
    try (pose proof (out_schema_good _ Hout) as Hschema; rewrite ?Hschema; cbn [mbind outcome_bind]).
  - unfold scan_recipe in He. inv_writer. apply answers_of; [|done]. cbn.
    destruct (lookup_lt_is_Some_2 pg _ Hlane) as [batches ->]. done.
  - inv_writer. discriminate He.
  - unfold filter_recipe in He. inv_writer. by apply answers_of.
  - unfold project_recipe in He. inv_writer. by apply answers_of.
  - unfold sort_recipe in He. inv_writer. by apply answers_of.
  - unfold coalesce_all_batches_recipe in He. inv_writer. by apply answers_of.
  - unfold accumulate_and_sort_recipe in He. inv_writer. by apply answers_of.
  - unfold limit_recipe in He. inv_writer. by apply answers_of.
  - unfold aggregate_recipe in He. inv_writer. apply answers_of; [|done].
    destruct (finalize bd); inv_writer; (apply init_accepts; [by repeat constructor|done|done]).
  - unfold aggregate_batches_recipe in He. inv_writer. apply answers_of; [|done].
    destruct (finalize bd); inv_writer; done.
  - by eapply (join_accepts plan site _ _ b p); [| | |do 3 eexists| |].
  - by eapply (join_accepts plan site _ _ b p); [| | |do 3 eexists| |].
  - by eapply (join_accepts plan site _ _ b p); [| | |do 3 eexists| |].
  - inv_writer. discriminate He.
  - unfold emit_partitions_recipe in He. inv_writer. by apply answers_of.
  - unfold merge_sorted_partitions_recipe in He. inv_writer. inversion_clear Hins as [|? ? [_ [l Hl]] _].
    rewrite Hl. cbn [expected mbind outcome_bind]. by apply answers_of.
  - inv_writer. discriminate He.
  - inv_writer. discriminate He.
  - inversion_clear Hins as [|? ? [Hi _] _]. unfold child_schema. cbn. rewrite out_schema_good by done.
    by eexists.
Qed.

(** Routing and the empty relation have no calls to make; every other node's are recorded. *)
Lemma node_drives plan node i lane : drivable node lane -> recorded_for node (recipe_of plan i) ->
  answers_category (gpu_executors_for plan node i lane) (category_of node).
Proof.
  intros Hd Hrec.
  assert (Hcalls : recipe_of plan i <> None -> answers_category
    (recipe ← written (ok_or (recipe_of plan i) (Invalid "the recipes hold no entry for a node that makes calls"));
     executor_from plan {| site_node := i; site_lane := lane |} recipe node) (category_of node)).
  { destruct (recipe_of plan i) as [recipe|]; [|done]. intros _. cbn. by apply executor_accepts. }
  assert (Hsome : match node with
    | GpuMergePartitions _ _ | GpuUnion _ _ | GpuInterleave _ _ | GpuEmpty _ => True | _ => recipe_of plan i <> None end).
  { destruct Hrec as (inputs & w & w' & He). intros. destruct node; cbn [emit] in He; try done.
    all: try (unfold scan_recipe, filter_recipe, project_recipe, sort_recipe, coalesce_all_batches_recipe,
      accumulate_and_sort_recipe, limit_recipe, aggregate_recipe, aggregate_batches_recipe, emit_partitions_recipe,
      merge_sorted_partitions_recipe, unload_recipe in He; inv_writer; subst; congruence).
    all: unfold join_recipe in He; destruct (join_node _); [|discriminate He];
      destruct inputs as [|? [|? []]]; try discriminate He; inv_writer; congruence. }
  destruct node; cbn [gpu_executors_for]; try (apply Hcalls, Hsome); by eexists.
Qed.

(** ** Every node of a planned tree can be driven *)

(** The columns a join's residual is mapped over are columns of their sides, which validation asks only of
    those the residual reads. *)
Definition filter_map_in_range (node : GpuNode) : bool :=
  match node with
  | GpuHashJoin _ _ _ _ columns _ _ build probe | GpuNestedLoopJoin _ _ _ columns _ build probe =>
      forallb (fun c => filter_index c <? length (fields (input_schema match side c with Build => build | Probe => probe end)))
        columns
  | _ => true
  end.

Lemma mapped_columns keyed columns build probe chunk :
  forallb (fun c => filter_index c <? length (fields (input_schema match side c with Build => build | Probe => probe end)))
    columns = true ->
  is_Some (pair_scratch keyed columns (fields (input_schema build)) (fields (input_schema probe)) chunk).
Proof.
  intros Hc. rewrite forallb_forall in Hc. unfold pair_scratch.
  match goal with |- context [mapM ?widths columns] => assert (Hw : is_Some (mapM widths columns)) end.
  { apply mapM_is_Some_2, Forall_forall. intros c Hin%list_elem_of_In%Hc%Nat.ltb_lt. apply fmap_is_Some, lookup_lt_is_Some_2.
    by destruct (side c). }
  destruct Hw as [ws ->]. by eexists.
Qed.

Lemma declared_kind node : kind node <> Sink -> is_Some (kind_schema (kind node)) /\ is_Some (kind_layout (kind node)).
Proof. intros Hk. destruct (kind node); [by split; eexists..|done]. Qed.

Lemma planned_drivable node lane : built node -> well_formed node -> filter_map_in_range node = true ->
  lane < Forwarder.layout_lanes node -> drivable node lane.
Proof.
  intros Hb [Hv Hin _ _ _ _] Hf Hl. split.
  - destruct (not_sink node Hb) as [Hk|(k & iv & i & ->)]; [|done]. apply declared_kind in Hk as [Hk _]. by destruct node.
  - apply Forall_forall. intros child Hc. by apply declared_kind, Hin.
  - destruct node as [k tb f pj pg sv cn| | | | | | | | | | | | | | | | | |]; try done.
    destruct Hb as [Hb _]. unfold Forwarder.layout_lanes in Hl. rewrite <- Hb in Hl. exact Hl.
  - destruct node; cbn [join_parameters children]; try done; cbn [validate_node filter_map_in_range] in *.
    + split; [by eapply valid_key_width|]. intros chunk. by apply mapped_columns.
    + split; [by eexists|]. intros chunk. by apply mapped_columns.
Qed.

Section Planned.
Context `{DataFusion}.

Lemma planned_nodes root knobs tree model : plan_ok root = true -> plan root knobs = Good (tree, model) ->
  forall node, node ∈ descendants tree -> built node /\ well_formed node /\ lanes_fit node.
Proof.
  intros Hp Hplan. destruct (plan_inv _ _ _ _ Hplan) as (t & reached & Ht & Hc).
  destruct (checked_inv _ _ _ _ _ Hc) as (_ & Hv & _). destruct (translate_ok t root 0 Hp _ _ Ht) as (input & interval & Ei & Hg & _).
  assert (Hb : forall d, d ∈ descendants tree -> built d /\ lanes_fit d).
  { subst tree. intros d Hd. rewrite descendants_eq in Hd. cbn in Hd. rewrite app_nil_r in Hd.
    apply elem_of_cons in Hd as [->|Hd]; [by split; [split|]|]. unfold good in Hg. rewrite Forall_forall in Hg. by destruct (Hg d Hd). }
  assert (Hbuilt : forall d, d ∈ descendants tree -> built d) by (intros d Hd; by apply Hb).
  pose proof (accepted_nodes tree Hv Hbuilt) as Hw. rewrite Forall_forall in Hw. intros node Hn.
  destruct (Hw node Hn), (Hb node Hn). by split.
Qed.

(** C8: what is published is what the backend drives.  Of any plan that is answered, each node's recipe, as
    the writer recorded it at the node's post-order place, is one the GPU backend builds an executor from,
    for every lane the node declares: no constructor refuses its calls, the moment each is made or what it
    is handed, no lookup fails, and the executor is of the category the driver expects of the node.  That the
    columns of a join's residual map are columns of their sides is what DataFusion's plan says of them. *)
Theorem recipes_build_their_executors root knobs tree model scratch rp i node lane :
  plan_ok root = true -> plan root knobs = Good (tree, model) ->
  forallb filter_map_in_range (descendants tree) = true ->
  attach_recipes tree scratch = Good rp -> postorder tree !! i = Some node -> lane < Forwarder.layout_lanes node ->
  exists e, gpu_executors_for rp node i lane = Good e /\ executors_category e = category_of node.
Proof.
  intros Hp Hplan Hf Hr Hi Hl.
  assert (Hn : node ∈ descendants tree).
  { apply post_order_descendants. change post_order with postorder. by eapply list_elem_of_lookup_2. }
  destruct (planned_nodes _ _ _ _ Hp Hplan node Hn) as (Hb & Hw & _).
  apply node_drives; [|by eapply recipe_recorded]. apply planned_drivable; [done..| |done].
  rewrite forallb_forall in Hf. by apply Hf, list_elem_of_In.
Qed.
End Planned.

#[local] Existing Instance demo_session.
Lemma recipes_build_their_executors_witness :
  category_of <$> postorder demo_planned.1 !! 7 = Some CJoin
  /\ match postorder demo_planned.1 !! 7 with
     | Some node => exists e, gpu_executors_for demo_attached node 7 1 = Good e /\ executors_category e = category_of node
     | None => False
     end.
Proof.
  split; [vm_compute; reflexivity|].
  apply (recipes_build_their_executors demo_join demo_knobs demo_planned.1 demo_planned.2 DEFAULT_CHUNK_BYTES);
    vm_compute; first [reflexivity|lia].
Defined.
