(* ===== verification/GpuHandles.v ===== *)
(** * Handles are conserved, and the limit over them is the cut

    What the backend relies on of a session ([DeviceLaws], as [src/cpp/include/peacock_gpu.h] documents
    the calls): the registry is a bag of handles, an operation consumes those it is handed and answers
    fresh ones, a release drops one, an export keeps its own.  The rows behind a handle are stated for
    the slice, which alone computes them here. *)
From stdpp Require Import strings gmap.
From S2P Require Import Prelude Interval PlanIR PlanCommon Executor Joins Memory CpuOps Samples Wire Attach Gpu GpuAcc GpuJoin.
Open Scope nat_scope.

Class DeviceLaws `{Device} := {
  live : Dev -> list Handle;
  table : Dev -> Handle -> list Row;
  never_zero : forall d, 0%N ∉ live d;
  execute_consumes : forall d seq inputs cap outs d' rest, ffi_execute_node d seq inputs cap = (Ok outs, d') ->
    live d ≡ₚ concat inputs ++ rest -> length outs <= cap /\ live d' ≡ₚ map fst outs ++ rest;
  scan_answers : forall d seq groups h stats d', ffi_execute_scan_rowgroups d seq groups = (Ok (h, stats), d') ->
    live d' ≡ₚ h :: live d;
  slice_consumes : forall d h off len h' d' rest, ffi_slice_handle d h off len = (Ok h', d') -> live d ≡ₚ h :: rest ->
    live d' ≡ₚ h' :: rest /\ table d' h' = slice off len (table d h) /\ (forall g, g ∈ rest -> table d' g = table d g);
  export_keeps : forall d h off len precisions r d', ffi_result_from_handle d h off len precisions = (r, d') ->
    live d' = live d;
  release_drops : forall d h rest, live d ≡ₚ h :: rest ->
    live (ffi_handle_release d h) ≡ₚ rest /\ (forall g, g ∈ rest -> table (ffi_handle_release d h) g = table d g);
  build_consumes : forall d seq h session stats d' rest, ffi_join_build d seq h = (Ok (session, stats), d') ->
    live d ≡ₚ (if (h =? 0)%N then [] else [h]) ++ rest -> live d' ≡ₚ rest;
  probe_consumes : forall d session h h' stats d' rest, ffi_join_probe d session h = (Ok (h', stats), d') ->
    live d ≡ₚ h :: rest -> live d' ≡ₚ (if (h' =? 0)%N then [] else [h']) ++ rest;
  finish_answers : forall d session h stats d', ffi_join_finish d session = (Ok (h, stats), d') ->
    live d' ≡ₚ (if (h =? 0)%N then [] else [h]) ++ live d;
  session_release_keeps : forall d session, live (ffi_join_release d session) = live d }.

Section Conserved.
Context `{DeviceLaws}.

(** A computation that ends well has used each handle it took once, and each it made is in its answer. *)
Definition turns {A} (m : DevM A) (taken : list Handle) (given : A -> list Handle) : Prop :=
  forall d x d' rest, m d = (Ok x, d') -> live d ≡ₚ taken ++ rest -> live d' ≡ₚ given x ++ rest.

Lemma turns_ret {A} (x : A) taken given : taken ≡ₚ given x -> turns (mret x) taken given.
Proof. intros He d y d' rest [= <- <-] Hl. by rewrite Hl, He. Qed.

Lemma turns_throw {A} e taken (given : A -> list Handle) : turns (throw e) taken given.
Proof. intros d y d' rest [=]. Qed.

Lemma turns_bind {A B} (m : DevM A) (k : A -> DevM B) taken more middle given :
  turns m taken middle -> (forall x, turns (k x) (middle x ++ more) given) -> turns (m ≫= k) (taken ++ more) given.
Proof.
  intros Hm Hk d y d' rest Hr Hl. apply M_bind_ok in Hr as (x & d1 & E & Hr).
  eapply Hk; [exact Hr|]. rewrite <- app_assoc. eapply Hm; [exact E|]. by rewrite app_assoc.
Qed.

(** Without a frame. *)
Lemma turns_then {A B} (m : DevM A) (k : A -> DevM B) taken middle given :
  turns m taken middle -> (forall x, turns (k x) (middle x) given) -> turns (m ≫= k) taken given.
Proof.
  intros Hm Hk. rewrite <- (app_nil_r taken). apply (turns_bind _ _ _ [] middle); [done|]. intros x. by rewrite app_nil_r.
Qed.

Lemma turns_expects {A B} (o : option A) (k : A -> DevM B) taken given :
  (forall x, o = Some x -> turns (k x) taken given) -> turns (expects o ≫= k) taken given.
Proof.
  intros Hk d y d' rest Hr. destruct o as [x|]; [|discriminate Hr]. apply (Hk x eq_refl). exact Hr.
Qed.

Lemma turns_ffi {A} what (call : Dev -> result string A * Dev) taken given :
  (forall d x d' rest, call d = (Ok x, d') -> live d ≡ₚ taken ++ rest -> live d' ≡ₚ given x ++ rest) ->
  turns (ffi what call) taken given.
Proof.
  intros Hc d y d' rest Hr Hl. unfold ffi in Hr. destruct (call d) as [[x|e] d1] eqn:E; [|discriminate Hr].
  injection Hr as <- <-. by eapply Hc.
Qed.

Lemma produced_handle seq h stats schema out : produced seq h stats schema = Some out -> handle out = h.
Proof. unfold produced. destruct (priced stats schema); [|done]. by intros [= <-]. Qed.

Lemma many_turns site seq inputs cap : turns (execute_node_many site seq inputs cap) (concat inputs) (map fst).
Proof.
  intros d x d' rest Hr Hl. unfold execute_node_many in Hr. apply M_bind_ok in Hr as (outs & d1 & E & [= <- <-]).
  unfold ffi in E. destruct (ffi_execute_node d seq inputs cap) as [[os|e] d2] eqn:Ec; [|discriminate E].
  injection E as -> ->. destruct (execute_consumes _ _ _ _ _ _ _ Ec Hl) as [Hn Hlive]. by rewrite take_ge.
Qed.

Lemma execute_turns site seq inputs : turns (execute_node site seq inputs) (concat inputs) (fun one => [one.1]).
Proof.
  eapply turns_then; [apply many_turns|]. intros outs. destruct outs as [|one [|? ?]]; [apply turns_throw| |apply turns_throw].
  by apply turns_ret.
Qed.

(** A call and its price: the batch carries the handle the call answered. *)
Lemma call_turns {A} site seq inputs schema (k : GpuBatch -> PeacockNodeStats -> DevM A) given :
  (forall out stats, turns (k out stats) [handle out] given) ->
  turns ('(h, stats) ← execute_node site seq inputs; out ← expects (produced seq h stats schema); k out stats)
    (concat inputs) given.
Proof.
  intros Hk. eapply turns_then; [apply execute_turns|]. intros [h stats]. cbn [fst]. apply turns_expects. intros out Ho.
  rewrite <- (produced_handle _ _ _ _ _ Ho). apply Hk.
Qed.

Definition handles (batches : list GpuBatch) : list Handle := map handle batches.

Lemma one_call_turns site call batches schema calls :
  turns (one_call site call batches schema calls) (handles batches) (fun r => [handle r.1]).
Proof.
  unfold one_call. destruct call as [seq kind]. unfold hand_over.
  replace (handles batches) with (concat [map handle batches]) by (cbn; by rewrite app_nil_r).
  apply call_turns. intros out stats. by apply turns_ret.
Qed.

Lemma one_output_turns site call batches schema calls :
  turns (one_output site call batches schema calls) (handles batches) (fun r => handles r.1).
Proof.
  eapply turns_then; [apply one_call_turns|]. intros [out calls']. by apply turns_ret.
Qed.

Lemma one_of_all_turns site call held schema :
  turns (one_of_all site call held schema) (handles held) (fun r => handles r.1).
Proof.
  unfold one_of_all. destruct held as [|b bs]; [by apply turns_ret|]. apply one_output_turns.
Qed.

Lemma drop_turns batch : turns (drop_batch batch) [handle batch] (fun _ => []).
Proof. intros d x d' rest [= <- <-] Hl. exact (proj1 (release_drops _ _ _ Hl)). Qed.

(** ** The lane executors *)
Lemma chain_from_turns e todo first input last calls : todo <> [] ->
  turns (chain_from e todo first input last calls) (concat first) (fun r => handles (option_list r.1)).
Proof.
  revert first input last calls. induction todo as [|[seq kind] todo IH]; intros first input last calls Hne; [done|].
  cbn [chain_from]. eapply turns_then; [apply execute_turns|]. intros [h stats]. cbn [fst].
  apply turns_expects. intros schema _. apply turns_expects. intros out Ho.
  rewrite <- (produced_handle _ _ _ _ _ Ho). destruct todo as [|next todo].
  - cbn [chain_from]. by apply turns_ret.
  - by apply (IH [[handle out]]).
Qed.

Lemma chain_turns e first input : turns (chain e first input) (concat first) (fun r => [handle r.1]).
Proof.
  unfold chain. destruct (ge_calls e) as [|call todo] eqn:Ec.
  { intros d x d' rest Hr. cbn in Hr. discriminate Hr. }
  eapply turns_then; [apply chain_from_turns; done|]. intros [last calls]. apply turns_expects. intros out ->.
  by apply turns_ret.
Qed.

Lemma exec_turns e batch : turns (gpu_exec e batch) [handle batch] (fun r => [handle r.1]).
Proof. apply (chain_turns e [[handle batch]]). Qed.

Lemma emit_turns e batch : turns (gpu_emit e batch) [handle batch] (fun r => handles r.1).
Proof.
  unfold gpu_emit. eapply turns_then; [apply (many_turns _ _ [[handle batch]])|]. intros outs.
  destruct (length outs =? em_lanes e); [|apply turns_throw]. apply turns_expects. intros lanes Hl.
  apply turns_ret. cbn [fst]. apply mapM_Some_1 in Hl.
  induction Hl as [|[h stats] b outs lanes Hb _ IH]; [done|]. cbn in *. by rewrite (produced_handle _ _ _ _ _ Hb), IH.
Qed.

Lemma read_turns s : turns (read_next s) [] (fun r => match r.1 with Some read => [handle read.1] | None => [] end).
Proof.
  unfold read_next. destruct (lane_read s) as [lane|]; [|by apply turns_ret].
  destruct (lr_batches lane) as [|groups batches]; [by apply turns_ret|].
  eapply (turns_then _ _ _ (fun one => [one.1])).
  - apply turns_ffi. intros d [h stats] d' rest Hc Hl. by rewrite (scan_answers _ _ _ _ _ _ Hc), Hl.
  - intros [h stats]. apply turns_expects. intros out Ho. apply turns_ret. cbn. by rewrite (produced_handle _ _ _ _ _ Ho).
Qed.

(** The export does not consume its handle, so the batch is released with it. *)
Lemma unload_turns e batch rows : turns (gpu_unload e batch rows) [handle batch] (fun _ => []).
Proof.
  intros d x d' rest Hr Hl. unfold gpu_unload, ffi in Hr.
  destruct (ffi_result_from_handle _ _ _ _ _) as [r d1] eqn:Ec. apply export_keeps in Ec.
  assert (Hd : d' = ffi_handle_release d1 (handle batch)) by (destruct r; cbn in Hr; congruence).
  subst d'. apply (release_drops _ _ _ ltac:(rewrite Ec; exact Hl)).
Qed.

(** ** The joins *)
Definition answered_handle (out : option GpuBatch) : list Handle := handles (option_list out).

Lemma answer_turns j taken h stats :
  turns (session_answer j taken h stats) (if (h =? 0)%N then [] else [h]) (fun r => answered_handle r.1).
Proof.
  unfold session_answer. destruct (h =? 0)%N.
  - by apply turns_ret.
  - eapply (turns_then _ _ _ answered_handle); [|by intros out; apply turns_ret].
    apply turns_expects. intros out Ho. apply turns_ret. cbn. by rewrite (produced_handle _ _ _ _ _ Ho).
Qed.

Lemma set_build_turns j build : turns (gpu_set_build j build) (answered_handle build) (fun _ => []).
Proof.
  intros d x d' rest Hr Hl. unfold gpu_set_build in Hr.
  destruct (match build with Some batch => _ | None => _ end) as [h taken] eqn:Eb.
  apply M_bind_ok in Hr as ([session stats] & d1 & E & Hr). injection Hr as _ <-.
  unfold ffi in E. destruct (ffi_join_build d (j_seq j) h) as [[[id_ st]|e] d2] eqn:Ec; [|discriminate E]. injection E as -> -> ->.
  apply (build_consumes _ _ _ _ _ _ rest Ec). destruct build as [b|]; injection Eb as <- <-; [|exact Hl].
  cbn in Hl. destruct (N.eqb_spec (handle b) 0) as [Hz|]; [|exact Hl]. exfalso.
  apply (never_zero d). rewrite Hl, <- Hz. apply list_elem_of_here.
Qed.

Lemma probe_turns p batch : turns (gpu_probe p batch) [handle batch] (fun r => answered_handle r.1).
Proof.
  unfold gpu_probe. eapply (turns_then _ _ _ (fun r => if (r.1 =? 0)%N then [] else [r.1])).
  - apply turns_ffi. intros d [h stats] d' rest Hc Hl. by eapply probe_consumes.
  - intros [h stats]. apply answer_turns.
Qed.

Lemma finish_turns p : turns (gpu_finish p) [] (fun r => answered_handle r.1).
Proof.
  intros d x d' rest Hr Hl. unfold gpu_finish in Hr.
  match type of Hr with context [?m d] => match m with if _ then _ else _ => set (body := m) in Hr end end.
  assert (Hb : turns body [] (fun r => answered_handle r.1)).
  { subst body. destruct (negb _); [by apply turns_ret|].
    eapply (turns_then _ _ _ (fun r => if (r.1 =? 0)%N then [] else [r.1])).
    - apply turns_ffi. intros ? [h stats] ? ? Hc Hlive. by rewrite (finish_answers _ _ _ _ _ Hc), Hlive.
    - intros [h stats]. apply answer_turns. }
  destruct (body d) as [r d1] eqn:Eb. injection Hr as -> <-. rewrite session_release_keeps. by apply (Hb d x d1 rest).
Qed.

(** ** The accumulators *)
Lemma on_device_ok {S A} (m : DevM A) d (s : S) x ds : on_device m (d, s) = (Ok x, ds) -> m d = (Ok x, ds.1) /\ ds.2 = s.
Proof. unfold on_device. destruct (m d) as [r d1]. by intros [= -> <-]. Qed.

(** A call on an executor: what it held and was handed is what it holds and answers. *)
Definition settles {S} (holds : S -> list Handle) (taken : list Handle) (m : AccM S Outputs) : Prop :=
  forall d s r d' s' rest, m (d, s) = (Ok r, (d', s')) -> live d ≡ₚ holds s ++ taken ++ rest ->
  live d' ≡ₚ holds s' ++ handles r.1 ++ rest.

Ltac acc_inv := repeat match goal with
  | H : (_ ≫= _) _ = (Ok _, _) |- _ =>
      let x := fresh "x" in let s := fresh "ds" in let E := fresh "E" in apply M_bind_ok in H as (x & s & E & H)
  | H : mine _ _ = (Ok _, _) |- _ => injection H as <- <-
  | H : own _ _ = (Ok _, _) |- _ => injection H as <- <-
  | H : on_device _ (_, _) = (Ok _, ?ds) |- _ =>
      try (is_var ds; destruct ds); apply on_device_ok in H as [H ?]; cbn [fst snd] in *; subst
  | H : mret _ _ = (Ok _, _) |- _ => injection H as <- <- <-
  | H : (let '(_, _) := ?x in _) _ = _ |- _ => destruct x
  end; cbn [fst snd] in *.

Lemma collapse_settles batch : settles (fun s => handles (co_held s)) [handle batch] (collapse_accumulate batch).
Proof.
  intros d s r d' s' rest Hr Hl. unfold collapse_accumulate in Hr. acc_inv.
  cbn. unfold handles. by rewrite map_app, <- app_assoc.
Qed.

Lemma sorted_settles batch : settles (fun s => handles (so_held s)) [handle batch] (sorted_accumulate batch).
Proof.
  intros d s r d' s' rest Hr Hl. unfold sorted_accumulate in Hr. acc_inv.
  pose proof (one_call_turns _ _ _ _ _ _ _ _ (handles (so_held s) ++ rest) E0) as Hc.
  rewrite Hc by (rewrite Hl; cbn; solve_Permutation). cbn. unfold handles. rewrite map_app. cbn. solve_Permutation.
Qed.

Definition ag_holds (s : AggregateBatches) : list Handle := handles (option_list (ag_state s) ++ ag_pending s).

Lemma fold_turns s folding calls : turns (fold_calls s folding calls) (handles folding) (fun r => [handle r.1]).
Proof.
  unfold fold_calls, hand_over. replace (handles folding) with (concat [map handle folding]) by (cbn; by rewrite app_nil_r).
  eapply turns_then; [apply execute_turns|]. intros [h stats]. cbn [fst]. apply turns_expects. intros bytes _.
  apply (call_turns _ _ [[h]]). intros out st. by apply turns_ret.
Qed.

Lemma compact_settles calls d s calls' d' s' rest : ag_compact calls (d, s) = (Ok calls', (d', s')) ->
  live d ≡ₚ ag_holds s ++ rest -> live d' ≡ₚ ag_holds s' ++ rest /\ ag_pending s' = [].
Proof.
  intros Hr Hl. unfold ag_compact, take_folding, store_folded in Hr. acc_inv. injection E as <- <-. acc_inv.
  split; [|done]. exact (fold_turns _ _ _ _ _ _ rest E1 Hl).
Qed.

Lemma aggregate_settles batch : settles ag_holds [handle batch] (ag_accumulate batch).
Proof.
  intros d s r d' s' rest Hr Hl. unfold ag_accumulate in Hr. acc_inv.
  match type of E1 with (if ?b then _ else _) _ = _ => destruct b end.
  - destruct ds1. apply (compact_settles _ _ _ _ _ _ rest) in E1 as [E1 _]; [by injection Hr as <- <- <-|].
    rewrite Hl. unfold ag_holds, handles. cbn. rewrite !map_app. cbn. solve_Permutation.
  - injection E1 as <- <-. injection Hr as <- <- <-. cbn. rewrite Hl. unfold ag_holds, handles. cbn. rewrite !map_app. cbn.
    solve_Permutation.
Qed.

(** What is left to do at done, once nothing is pending. *)
Lemma emit_state_turns s calls : ag_pending s = [] ->
  turns (spent (own (fun s => ag_with s None (ag_pending s) (ag_threshold s) (ag_compactions s)) ≫= fun _ =>
    match ag_state s, ag_finalize s with
    | None, _ => mret ([], stats_of calls)
    | Some st, None => mret ([st], stats_of calls)
    | Some st, Some finalize => on_device (one_output (ag_site s) finalize [st] (ag_output s) calls)
    end) s) (ag_holds s) (fun r => handles r.1).
Proof.
  intros Hp d r d' rest Hr Hl. unfold spent, own, modify, on_device, mbind, M_bind in Hr. unfold ag_holds in Hl.
  rewrite Hp, app_nil_r in Hl. destruct (ag_state s) as [st|]; [|by injection Hr as <- <-].
  destruct (ag_finalize s) as [finalize|]; [|by injection Hr as <- <-].
  destruct (one_output (ag_site s) finalize [st] (ag_output s) calls d) as [o d1] eqn:Eo. injection Hr as -> <-.
  by eapply one_output_turns.
Qed.

Lemma aggregate_done_turns s : turns (spent ag_done s) (ag_holds s) (fun r => handles r.1).
Proof.
  intros d r d' rest Hr Hl. unfold spent in Hr. destruct (ag_done (d, s)) as [o [d1 s1]] eqn:Ed. injection Hr as -> ->.
  unfold ag_done in Ed. apply M_bind_ok in Ed as (pend & ds & E & Ed). injection E as <- <-.
  apply M_bind_ok in Ed as (calls & [d2 s2] & E & Ed).
  assert (Hb : live d2 ≡ₚ ag_holds s2 ++ rest /\ ag_pending s2 = []).
  { destruct (ag_pending s) as [|b bs] eqn:Ep; [by injection E as _ <- <-|].
    by apply (compact_settles _ _ _ _ _ _ rest) in E. }
  destruct Hb as [Hb Hp]. apply M_bind_ok in Ed as (st & ds & E' & Ed). injection E' as <- <-.
  apply (emit_state_turns s2 calls Hp d2 r d' rest); [|done]. unfold spent. by rewrite Ed.
Qed.

Lemma init_settles batch : settles (fun _ => []) [handle batch] (init_accumulate batch).
Proof.
  intros d s r d' s' rest Hr Hl. unfold init_accumulate in Hr. destruct (gb_rows batch =? 0)%N; acc_inv.
  - exact (drop_turns _ _ _ _ rest E Hl).
  - exact (exec_turns _ _ _ _ _ rest E0 Hl).
Qed.

Lemma init_done_turns s : turns (init_done s) [] (fun r => handles r.1).
Proof.
  unfold init_done. destruct (in_emitted s); [by apply turns_ret|].
  eapply turns_then; [apply (chain_turns _ [])|]. intros [out stats]. destruct (gb_rows out =? 0)%N; [|by apply turns_ret].
  eapply (turns_then _ _ _ (fun _ => [])); [apply drop_turns|]. intros ?. by apply turns_ret.
Qed.

Lemma sliced_turns schema batch rows : turns (sliced schema batch rows) [handle batch] (fun r => handles r.1).
Proof.
  unfold sliced. eapply (turns_then _ _ _ (fun h => [h])).
  - apply turns_ffi. intros d h d' rest Hc Hl. exact (proj1 (slice_consumes _ _ _ _ _ _ _ Hc Hl)).
  - intros h. apply turns_expects. intros bytes _. by apply turns_ret.
Qed.

Lemma limit_settles batch : settles (fun _ => []) [handle batch] (limit_accumulate batch).
Proof.
  intros d s r d' s' rest Hr Hl. unfold limit_accumulate in Hr. acc_inv.
  destruct (range_of _ _ _) as [rows|]; acc_inv.
  - destruct (covers rows (gb_rows batch)); acc_inv; [exact Hl|]. exact (sliced_turns _ _ _ _ _ _ rest Hr Hl).
  - exact (drop_turns _ _ _ _ rest E Hl).
Qed.

(** What an accumulator is holding. *)
Definition holds (st : State) : list Handle :=
  match st with
  | SCoalesce s => handles (co_held s)
  | SSorted s => handles (so_held s)
  | SAggregate s => ag_holds s
  | SLimit _ | SInit _ => []
  end.

Lemma inside_settles {S} (wrap : S -> State) held taken s (m : AccM S Outputs) : settles held taken m ->
  (forall s, holds (wrap s) = held s) ->
  forall st d r d' st' rest, inside wrap s m (d, st) = (Ok r, (d', st')) -> live d ≡ₚ holds (wrap s) ++ taken ++ rest ->
  live d' ≡ₚ holds st' ++ handles r.1 ++ rest.
Proof.
  intros Hm Hw st d r d' st' rest Hr Hl. unfold inside in Hr. cbn [fst] in Hr. destruct (m (d, s)) as [o [d1 s1]] eqn:Em.
  injection Hr as -> <- <-. rewrite Hw in *. by eapply Hm.
Qed.

Lemma accumulate_settles batch : settles holds [handle batch] (gpu_accumulate_and_fetch batch).
Proof.
  intros d st r d' st' rest Hr Hl. unfold gpu_accumulate_and_fetch in Hr.
  apply M_bind_ok in Hr as (x & ds & E & Hr). injection E as <- <-.
  destruct st as [s|s|s|s|s]; eapply inside_settles; try exact Hr; try exact Hl; try done.
  - apply collapse_settles.
  - apply sorted_settles.
  - apply aggregate_settles.
  - apply limit_settles.
  - apply init_settles.
Qed.

Lemma mark_done_turns st : turns (gpu_mark_done_and_fetch st) (holds st) (fun r => handles r.1).
Proof.
  destruct st as [s|s|s|s|s]; cbn [gpu_mark_done_and_fetch holds].
  - apply one_of_all_turns.
  - apply one_of_all_turns.
  - apply aggregate_done_turns.
  - by apply turns_ret.
  - apply init_done_turns.
Qed.

(** A lane's calls: one per batch, and the one at done. *)
Fixpoint gpu_acc_lane (st : State) (batches : list GpuBatch) : DevM (list GpuBatch) :=
  match batches with
  | [] => '(outs, _) ← gpu_mark_done_and_fetch st; mret outs
  | batch :: batches => fun d =>
      match gpu_accumulate_and_fetch batch (d, st) with
      | (Ok (outs, _), (d, st)) => (more ← gpu_acc_lane st batches; mret (outs ++ more)) d
      | (Err e, (d, _)) => (Err e, d)
      end
  end.

Lemma lane_turns st batches : turns (gpu_acc_lane st batches) (holds st ++ handles batches) handles.
Proof.
  revert st. induction batches as [|batch batches IH]; intros st.
  - rewrite app_nil_r. eapply turns_then; [apply mark_done_turns|]. intros [outs stats]. by apply turns_ret.
  - intros d all d' rest Hr Hl. cbn [gpu_acc_lane] in Hr.
    destruct (gpu_accumulate_and_fetch batch (d, st)) as [[[outs stats]|e] [d1 st1]] eqn:Ea; [|discriminate Hr].
    apply (accumulate_settles batch _ _ _ _ _ (handles batches ++ rest)) in Ea; [|rewrite Hl; cbn; solve_Permutation].
    apply M_bind_ok in Hr as (more & d2 & Em & Hr). injection Hr as <- <-. cbn [fst] in Ea.
    rewrite (IH st1 d1 more d2 (handles outs ++ rest) Em) by (rewrite Ea; solve_Permutation).
    unfold handles. rewrite map_app. solve_Permutation.
Qed.

(** The merge of sorted lanes. *)
Definition part_holds (s : GpuPartitionAccumulator) : list Handle := handles (concat (pa_lanes s)).

Lemma concat_insert (lanes : list (list GpuBatch)) i lane batch : lanes !! i = Some lane ->
  concat (<[i := lane ++ [batch]]> lanes) ≡ₚ concat lanes ++ [batch].
Proof.
  intros Hi. rewrite (insert_take_drop _ _ _ (lookup_lt_Some _ _ _ Hi)).
  rewrite <- (take_drop_middle lanes i lane Hi) at 3. rewrite !concat_app. cbn. solve_Permutation.
Qed.

Lemma event_settles partition event :
  settles part_holds (match event with LaneBatch batch => [handle batch] | LaneDone => [] end)
    (gpu_lane_event partition event).
Proof.
  intros d s r d' s' rest Hr Hl. unfold gpu_lane_event in Hr. destruct event as [batch|].
  - acc_inv. destruct (pa_lanes s !! partition) as [lane|] eqn:Ep; acc_inv.
    + unfold part_holds, handles in *. cbn. rewrite (concat_insert _ _ _ _ Ep), map_app, Hl. cbn. solve_Permutation.
    + discriminate Hr.
  - acc_inv. destruct (0 <? _)%N; acc_inv; [exact Hl|]. exact (one_of_all_turns _ _ _ _ _ _ _ rest Hr Hl).
Qed.

(** C14: no handle is leaked and none is used twice.  Whatever the recipe, an executor's call that succeeds
    takes from the device exactly the handles of the batches it was handed and of those it was holding,
    and leaves exactly those it still holds and those it answers: over a whole lane of any accumulator, its
    compactions, runs, slices and dropped batches included, what is left is what went out.  The same holds
    of a chain, a scatter, a read and an export, of a join's build, probe and finish, and of each event of
    a merge of lanes.  Every other handle of the query stays where it was. *)
Theorem calls_conserve_handles :
  (forall st batches, turns (gpu_acc_lane st batches) (holds st ++ handles batches) handles)
  /\ (forall e batch, turns (gpu_exec e batch) [handle batch] (fun r => [handle r.1]))
  /\ (forall e batch, turns (gpu_emit e batch) [handle batch] (fun r => handles r.1))
  /\ (forall s, turns (read_next s) [] (fun r => match r.1 with Some read => [handle read.1] | None => [] end))
  /\ (forall e batch rows, turns (gpu_unload e batch rows) [handle batch] (fun _ => []))
  /\ (forall j build, turns (gpu_set_build j build) (answered_handle build) (fun _ => []))
  /\ (forall p batch, turns (gpu_probe p batch) [handle batch] (fun r => answered_handle r.1))
  /\ (forall p, turns (gpu_finish p) [] (fun r => answered_handle r.1))
  /\ (forall partition event, settles part_holds (match event with LaneBatch batch => [handle batch] | LaneDone => [] end)
                                (gpu_lane_event partition event)).
Proof.
  split_and!.
  - apply lane_turns.
  - apply exec_turns.
  - apply emit_turns.
  - apply read_turns.
  - apply unload_turns.
  - apply set_build_turns.
  - apply probe_turns.
  - apply finish_turns.
  - apply event_settles.
Qed.

(** ** The limit over handles *)
Definition rows_behind (d : Dev) (batches : list GpuBatch) : list Row :=
  concat (map (fun batch => table d (handle batch)) batches).

(** A batch's count is that of the rows behind it. *)
Definition counted (d : Dev) (batch : GpuBatch) : Prop := gb_rows batch = lenN (table d (handle batch)).

Definition same_tables (d d' : Dev) (rest : list Handle) : Prop := forall g, g ∈ rest -> table d' g = table d g.

Lemma rows_behind_same d d' batches rest : same_tables d d' rest -> handles batches ⊆ rest ->
  rows_behind d' batches = rows_behind d batches.
Proof.
  intros Hs Hin. unfold rows_behind. f_equal. apply map_ext_in. intros b Hb%list_elem_of_In. apply Hs, Hin.
  apply elem_of_map. eauto.
Qed.

Lemma counted_same d d' batches rest : same_tables d d' rest -> handles batches ⊆ rest ->
  Forall (counted d) batches -> Forall (counted d') batches.
Proof.
  intros Hs Hin Hc. rewrite Forall_forall in Hc |- *. intros b Hb. unfold counted. rewrite (Hs (handle b)); [by apply Hc|].
  apply Hin, elem_of_map. eauto.
Qed.

Lemma limit_step_cuts site iv seen_ schema batch d r d' st' rest : fits iv -> counted d batch ->
  live d ≡ₚ handle batch :: rest ->
  limit_accumulate batch (d, {| li_site := site; li_interval := iv; li_seen := seen_; li_schema := schema |}) = (Ok r, (d', st')) ->
  st' = {| li_site := site; li_interval := iv; li_seen := wrapping_add seen_ (gb_rows batch); li_schema := schema |}
  /\ rows_behind d' r.1 = cut (rest_of iv seen_) (table d (handle batch))
  /\ Forall (counted d') r.1 /\ same_tables d d' rest.
Proof.
  intros Hf Hc Hl Hr. unfold limit_accumulate in Hr. acc_inv. cbn [li_interval li_seen] in Hr.
  pose proof (range_of_cut iv seen_ (table d (handle batch)) Hf) as Hcut. rewrite <- Hc in Hcut.
  destruct (range_of iv seen_ (gb_rows batch)) as [rows|] eqn:Er.
  - pose proof (range_of_bounds _ _ _ _ Er) as [_ Hin]. unfold kept in Hcut. rewrite <- Hc in Hcut.
    destruct (covers rows (gb_rows batch)) eqn:Ecov; acc_inv.
    + split_and!; [done| |by constructor|by intros g _]. unfold rows_behind. cbn. by rewrite app_nil_r.
    + unfold sliced in Hr. apply M_bind_ok in Hr as (h & d1 & E & Hr). unfold ffi in E.
      destruct (ffi_slice_handle _ _ _ _) as [[h'|e] d2] eqn:Es; [|discriminate E]. injection E as -> ->.
      destruct (logical_size_from_schema _ _ _) as [bytes|]; [|discriminate Hr]. injection Hr as <- <-.
      destruct (slice_consumes _ _ _ _ _ _ _ Es Hl) as (_ & Ht & Hsame).
      split_and!; [done| | |exact Hsame].
      * unfold rows_behind. cbn. by rewrite app_nil_r, Ht.
      * constructor; [|done]. unfold counted. cbn. rewrite Ht. unfold slice, lenN. rewrite length_take, length_drop.
        unfold counted, lenN in Hc. lia.
  - acc_inv. injection E as _ <-. split_and!; [done|by rewrite <- Hcut|done|].
    exact (proj2 (release_drops _ _ _ Hl)).
Qed.

Lemma limit_lane_cuts site iv schema batches : fits iv -> forall seen_ d outs d' rest,
  (seen_ + lenN (rows_behind d batches) < u64_modulus)%N -> Forall (counted d) batches -> live d ≡ₚ handles batches ++ rest ->
  gpu_acc_lane (SLimit {| li_site := site; li_interval := iv; li_seen := seen_; li_schema := schema |}) batches d = (Ok outs, d') ->
  rows_behind d' outs = cut (rest_of iv seen_) (rows_behind d batches) /\ Forall (counted d') outs /\ same_tables d d' rest.
Proof.
  intros Hf. induction batches as [|batch batches IH]; intros seen_ d outs d' rest Hs Hc Hl Hr.
  - injection Hr as <- <-. unfold rows_behind. cbn. by rewrite cut_nil.
  - apply Forall_cons in Hc as [Hc Hcs]. cbn [gpu_acc_lane] in Hr.
    destruct (gpu_accumulate_and_fetch batch _) as [[[out stats]|e] [d1 st1]] eqn:Ea; [|discriminate Hr].
    pose proof (accumulate_settles batch _ _ _ _ _ (handles batches ++ rest) Ea Hl) as Hl1. cbn [fst] in Hl1.
    unfold gpu_accumulate_and_fetch, inside in Ea. apply M_bind_ok in Ea as (x & ds & E & Ea). injection E as <- <-. cbn [fst] in Ea.
    destruct (limit_accumulate batch _) as [o [d2 st2]] eqn:Em. injection Ea as -> -> <-.
    apply (limit_step_cuts _ _ _ _ _ _ _ _ _ (handles batches ++ rest)) in Em as (-> & Hrows & Hcount & Hsame); [|done..].
    cbn [fst holds app] in *. apply M_bind_ok in Hr as (more & d3 & Emore & Hr). injection Hr as <- <-.
    assert (Hsplit : rows_behind d (batch :: batches) = table d (handle batch) ++ rows_behind d batches) by done.
    assert (Hbehind : rows_behind d1 batches = rows_behind d batches).
    { eapply rows_behind_same; [exact Hsame|]. by apply list_subseteq_app_l. }
    rewrite Hsplit, lenN_app in Hs. rewrite wrapping_add_small in Emore by (rewrite Hc; lia).
    apply (IH _ _ _ _ (handles out ++ rest)) in Emore as (Hmore & Hcm & Hsm).
    + unfold rows_behind in Hmore |- *. rewrite map_app, concat_app. fold (rows_behind d3 out) (rows_behind d1 batches) in *.
      rewrite Hmore, Hbehind, (rows_behind_same d1 d3 out _ Hsm) by (by apply list_subseteq_app_l).
      fold (rows_behind d (batch :: batches)). rewrite Hrows, Hsplit, cut_app, rest_of_add, <- Hc. split; [done|]. split.
      * apply Forall_app. split; [|done]. eapply counted_same; [exact Hsm| |exact Hcount]. by apply list_subseteq_app_l.
      * intros g Hg. rewrite Hsm by (by apply elem_of_app; right). by apply Hsame, elem_of_app; right.
    + rewrite Hbehind, Hc. lia.
    + eapply counted_same; [exact Hsame| |exact Hcs]. by apply list_subseteq_app_l.
    + rewrite Hl1. solve_Permutation.
Qed.

(** C27: the device's limit emits the interval's cut.  Whatever batches a lane hands the limit, where the row
    count each carries is that of the rows behind its handle and the counts fit their width, the rows
    behind the handles it emits are the lane's with [skip] dropped and at most [fetch] kept, in order, each
    batch emitted again carrying its count; a batch it neither emits nor slices is released, and the rows
    behind every other handle are as they were. *)
Theorem device_limit_emits_the_cut site iv schema batches d outs d' rest :
  fits iv -> (lenN (rows_behind d batches) < u64_modulus)%N -> Forall (counted d) batches ->
  live d ≡ₚ handles batches ++ rest ->
  gpu_acc_lane (SLimit {| li_site := site; li_interval := iv; li_seen := 0; li_schema := schema |}) batches d = (Ok outs, d') ->
  rows_behind d' outs = cut iv (rows_behind d batches)
  /\ Forall (counted d') outs /\ live d' ≡ₚ handles outs ++ rest /\ same_tables d d' rest.
Proof.
  intros Hf Hs Hc Hl Hr. pose proof (lane_turns _ _ _ _ _ rest Hr Hl) as Hlive.
  destruct (limit_lane_cuts site iv schema batches Hf 0 d outs d' rest Hs Hc Hl Hr) as (Hrows & Hcount & Hsame).
  by rewrite rest_of_0 in Hrows.
Qed.
End Conserved.

(** ** A device of tables of numbers

    A registry of tables by their number; a node answers what it is handed, one table. *)
#[local] Existing Instance toy_arrow.
#[local] Notation ToyDev := (gmap positive (list N)).

Definition toy_live (d : ToyDev) : list Handle := map (fun entry => N.pos entry.1) (map_to_list d).
Definition toy_table (d : ToyDev) (h : Handle) : list N := match h with N.pos p => default [] (d !! p) | N0 => [] end.
Definition toy_drop (d : ToyDev) (h : Handle) : ToyDev := match h with N.pos p => delete p d | N0 => d end.
Definition toy_next (d : ToyDev) : positive := Pos.succ (foldr (fun entry => Pos.max entry.1) 1%positive (map_to_list d)).
Definition toy_add (d : ToyDev) (l : list N) : Handle * ToyDev := (N.pos (toy_next d), <[toy_next d := l]> d).
Definition toy_stats (l : list N) : PeacockNodeStats := {| st_rows := lenN l; varlen_content_bytes := 0 |}.

(** The handles taken, their rows in one table. *)
Definition toy_fold (d : ToyDev) (hs : list Handle) : (Handle * PeacockNodeStats) * ToyDev :=
  let l := concat (map (toy_table d) hs) in
  let '(h, d) := toy_add (foldl toy_drop d hs) l in ((h, toy_stats l), d).

Definition toy_device : Device := {|
  Dev := ToyDev; Ipc := list N; node_timing_on := true;
  ffi_execute_node d _ inputs cap :=
    match cap with 0 => (Err "no room", d) | S _ => let '(one, d) := toy_fold d (concat inputs) in (Ok [one], d) end;
  ffi_execute_scan_rowgroups d _ groups :=
    let l := map N.of_nat groups in let '(h, d) := toy_add d l in (Ok (h, toy_stats l), d);
  ffi_slice_handle d h off len := let '(h', d) := toy_add (toy_drop d h) (slice off len (toy_table d h)) in (Ok h', d);
  ffi_result_from_handle d h off len _ := (Ok (Some (slice off len (toy_table d h))), d);
  ffi_join_build d _ h := (Ok (7%N, toy_stats []), toy_drop d h);
  ffi_join_probe d _ h := let '(one, d) := toy_fold d [h] in (Ok one, d);
  ffi_join_finish d _ := (Ok (0%N, toy_stats []), d);
  ffi_join_release d _ := d;
  ffi_handle_release := toy_drop;
  ffi_count_node_regions _ := Ok 0;
  ffi_collect_node_regions d _ := (Ok [], d);
  decode l := Ok [([], l)] |}.

Lemma toy_next_fresh d : d !! toy_next d = None.
Proof.
  destruct (d !! toy_next d) as [l|] eqn:E; [|done]. exfalso. apply elem_of_map_to_list in E.
  assert (Hle : forall (es : list (positive * list N)) e, e ∈ es -> (e.1 <= foldr (fun entry => Pos.max entry.1) 1 es)%positive).
  { induction es as [|x es IH]; intros e He; [by apply elem_of_nil in He|]. cbn [foldr]. apply elem_of_cons in He as [->|He]; [lia|].
    specialize (IH e He). lia. }
  specialize (Hle _ _ E). cbn [fst] in Hle. unfold toy_next in Hle. lia.
Qed.

Lemma toy_add_live d l : toy_live (toy_add d l).2 ≡ₚ (toy_add d l).1 :: toy_live d.
Proof. unfold toy_live, toy_add. cbn. by rewrite map_to_list_insert by apply toy_next_fresh. Qed.

Lemma toy_drop_live d h rest : toy_live d ≡ₚ h :: rest ->
  toy_live (toy_drop d h) ≡ₚ rest /\ (forall g, g ∈ rest -> toy_table (toy_drop d h) g = toy_table d g).
Proof.
  intros Hl. assert (Hin : h ∈ toy_live d) by (rewrite Hl; left).
  apply elem_of_map in Hin as ([p l] & -> & Hp%elem_of_map_to_list). cbn [toy_drop fst] in *.
  assert (Hrest : toy_live (delete p d) ≡ₚ rest).
  { apply (Permutation_cons_inv (a:=N.pos p)). rewrite <- Hl. unfold toy_live.
    by rewrite <- (map_to_list_delete d p l Hp). }
  split; [done|]. intros g Hg. rewrite <- Hrest in Hg. apply elem_of_map in Hg as ([q k] & -> & Hq%elem_of_map_to_list).
  cbn in *. by apply lookup_delete_Some in Hq as [Hne _]; rewrite lookup_delete_ne.
Qed.

Lemma toy_drops_live hs : forall d rest, toy_live d ≡ₚ hs ++ rest -> toy_live (foldl toy_drop d hs) ≡ₚ rest.
Proof.
  induction hs as [|h hs IH]; intros d rest Hl; [done|]. apply (IH (toy_drop d h)). exact (proj1 (toy_drop_live _ _ _ Hl)).
Qed.

Lemma toy_fold_live d hs rest : toy_live d ≡ₚ hs ++ rest -> toy_live (toy_fold d hs).2 ≡ₚ (toy_fold d hs).1.1 :: rest.
Proof. intros Hl. unfold toy_fold. cbn [fst snd]. rewrite <- (toy_drops_live hs d rest Hl). apply toy_add_live. Qed.

#[local] Existing Instance toy_device.
Definition toy_device_laws : DeviceLaws.
Proof.
  refine {| live := toy_live : Dev -> list Handle; table := toy_table : Dev -> Handle -> list Row |}.
  - intros d (e & Hz & _)%elem_of_map. discriminate Hz.
  - intros d ? inputs cap outs d' rest Hr Hl. cbn in Hr. destruct cap as [|cap]; [discriminate Hr|].
    injection Hr as <- <-. split; [cbn; lia|]. exact (toy_fold_live d (concat inputs) rest Hl).
  - intros d ? groups h stats d' Hr. injection Hr as <- <- <-. apply (toy_add_live d).
  - intros d h off len h' d' rest Hr Hl. injection Hr as <- <-. destruct (toy_drop_live d h rest Hl) as [Hd Ht].
    split_and!.
    + rewrite <- Hd. apply toy_add_live.
    + cbn. by rewrite lookup_insert_eq.
    + intros g Hg. rewrite <- (Ht g Hg). rewrite <- Hd in Hg. apply elem_of_map in Hg as ([q k] & -> & Hq%elem_of_map_to_list).
      cbn in *. rewrite lookup_insert_ne; [done|]. intros He. rewrite <- He, toy_next_fresh in Hq. discriminate Hq.
  - intros d h off len precisions r d' Hr. by injection Hr as <- <-.
  - intros d h rest Hl. exact (toy_drop_live d h rest Hl).
  - intros d ? h session stats d' rest Hr Hl. injection Hr as <- <- <-. destruct (N.eqb_spec h 0) as [->|]; [exact Hl|].
    exact (proj1 (toy_drop_live d h rest Hl)).
  - intros d ? h h' stats d' rest Hr Hl. pose proof (toy_fold_live d [h] rest Hl) as Hf. cbn in Hr.
    injection Hr as <- <- <-. exact Hf.
  - intros d ? h stats d' Hr. by injection Hr as <- <- <-.
  - done.
Defined.
#[local] Existing Instance toy_device_laws.

(** Six rows over three handles, and a fourth handle of another executor's. *)
Definition demo_dev : Dev :=
  ({[1%positive := [10; 20; 30]; 2%positive := [40]; 3%positive := [50; 60]; 9%positive := [99]]}%N : ToyDev).
Definition demo_batch (h rows_ : N) : GpuBatch := {| handle := h; producer := 0; gb_rows := rows_; gb_bytes := 8 |}.
Definition demo_batches : list GpuBatch := [demo_batch 1 3; demo_batch 2 1; demo_batch 3 2].
Definition demo_site : CallSite := {| site_node := 4; site_lane := 0 |}.
Definition demo_limit : State :=
  SLimit {| li_site := demo_site; li_interval := {| skip := 2; fetch := Some 3%N |}; li_seen := 0; li_schema := [] |}.
Definition demo_merge : State :=
  SAggregate {| ag_site := demo_site; ag_concat := (3, KCoalescePartitions); ag_merge := (4, KAggregate true);
                ag_finalize := Some (5, KProject Finalize); ag_state := None; ag_pending := []; ag_threshold := 16;
                ag_compactions := 0; ag_held := []; ag_output := [] |}.

(** What a lane answers, and the device it leaves. *)
Definition lane_outs (st : State) : list GpuBatch :=
  match (gpu_acc_lane st demo_batches demo_dev).1 with Ok outs => outs | Err _ => [] end.
Definition lane_dev (st : State) : Dev := (gpu_acc_lane st demo_batches demo_dev).2.

Lemma calls_conserve_handles_witness :
  gpu_acc_lane demo_merge demo_batches demo_dev = (Ok (lane_outs demo_merge), lane_dev demo_merge)
  /\ rows_behind (lane_dev demo_merge) (lane_outs demo_merge) = [10; 20; 30; 40; 50; 60]%N
  /\ live (lane_dev demo_merge) ≡ₚ handles (lane_outs demo_merge) ++ [9%N].
Proof.
  split_and!; [vm_compute; reflexivity|vm_compute; reflexivity|].
  destruct calls_conserve_handles as (Hlane & _).
  apply (Hlane demo_merge demo_batches demo_dev); [vm_compute; reflexivity|].
  change (live demo_dev) with (toy_live demo_dev).
  replace (toy_live demo_dev) with [9; 3; 2; 1]%N by (vm_compute; reflexivity). cbn. solve_Permutation.
Defined.

Lemma device_limit_emits_the_cut_witness :
  map gb_rows (lane_outs demo_limit) = [1; 1; 1]%N
  /\ rows_behind (lane_dev demo_limit) (lane_outs demo_limit)
     = cut {| skip := 2; fetch := Some 3%N |} (rows_behind demo_dev demo_batches)
  /\ Forall (counted (lane_dev demo_limit)) (lane_outs demo_limit)
  /\ live (lane_dev demo_limit) ≡ₚ handles (lane_outs demo_limit) ++ [9%N]
  /\ same_tables demo_dev (lane_dev demo_limit) [9%N].
Proof.
  split; [vm_compute; reflexivity|].
  apply (device_limit_emits_the_cut demo_site {| skip := 2; fetch := Some 3%N |} [] demo_batches demo_dev).
  - vm_compute. reflexivity.
  - vm_compute. reflexivity.
  - repeat constructor.
  - change (live demo_dev) with (toy_live demo_dev).
    replace (toy_live demo_dev) with [9; 3; 2; 1]%N by (vm_compute; reflexivity). cbn. solve_Permutation.
  - vm_compute. reflexivity.
Defined.
