(* ===== verification/CpuBuild.v ===== *)
(** * The operators the CPU backend runs, and which executor drives a node

    The constructors of [cpu_backend/mod.rs], [accumulate.rs] and [join.rs], [single_node.rs],
    [merge_m2.rs] and the dispatch of [backend.rs].  An operator is a node of DataFusion's plan over a
    stand-in for its input ([placeholder]); DataFusion's own constructors are the class [Operators].  The
    task context a call runs under is left out: it is the session's, but for an aggregate's, which is told
    never to stop aggregating. *)
From stdpp Require Import strings.
From S2P Require Import Prelude Interval PlanIR PlanCommon PlanNodes Executor Forwarder Joins Aggregates CpuOps CpuEmit CpuSource CpuJoin.
From S2P Require Import Physical ExprTrans TransCommon Pipeline Wire.
Open Scope nat_scope.
Open Scope rust_scope.

Definition MERGE_M2 : string := "merge_m2".

(** An aggregate function handed to DataFusion: one of its own, or the engine's merge of a triple. *)
Inductive Udaf := Registered (name : string) | MergeM2Udaf.

Class Operators := {
  (** the default session's [aggregate_functions().get(name)] *)
  is_aggregate : string -> bool;
  (** [AggregateExprBuilder] over the arguments, the input's schema and the alias *)
  build_aggregate : Udaf -> list PhysicalExpr -> ArrowSchema -> string -> result string AggregateFunctionExpr;
  filter_try_new : PhysicalExpr -> ExecutionPlan -> result string ExecutionPlan;
  filter_with_projection : ExecutionPlan -> list nat -> result string ExecutionPlan;
  projection_try_new : list (PhysicalExpr * string) -> ExecutionPlan -> result string ExecutionPlan;
  (** in the Partial mode, with no filters *)
  aggregate_try_new : PhysicalGroupBy -> list AggregateFunctionExpr -> ExecutionPlan -> result string ExecutionPlan;
  hash_join_try_new : ExecutionPlan -> ExecutionPlan -> list (PhysicalExpr * PhysicalExpr) -> option JoinFilter -> JoinType ->
    option (list nat) -> bool -> result string ExecutionPlan;
  cross_join_new : ExecutionPlan -> ExecutionPlan -> ExecutionPlan;
  nested_loop_try_new : ExecutionPlan -> ExecutionPlan -> JoinFilter -> JoinType -> option (list nat) ->
    result string ExecutionPlan }.

Definition placeholder (schema : ArrowSchema) : ExecutionPlan := EmptyExec schema.

(** ** One node over batches in hand: [single_node.rs] *)
Section SingleNode.
Context `{Arrow}.

(** [StreamSourceExec]: one stream, taken by the first [execute]. *)
Record StreamSource := { ss_schema : SchemaRef; ss_stream : option (list RecordBatch) }.

Definition source_execute (s : StreamSource) : result string (list RecordBatch) * StreamSource :=
  (ok_or (ss_stream s) "StreamSourceExec executed twice", {| ss_schema := ss_schema s; ss_stream := None |}).

(** [with_new_children] and [execute_stream] of a node over sources. *)
Context (execute_over : ExecutionPlan -> list StreamSource -> result string (list RecordBatch)).

Definition fed (node : ExecutionPlan) (inputs : list (list RecordBatch)) : result string (list StreamSource) :=
  let children := plan_children node in
  if negb (length children =? length inputs) then Err (plan_name node +:+ " expects another count of inputs")
  else Ok (zip_with (fun child input => {| ss_schema := plan_schema child; ss_stream := Some input |}) children inputs).

Definition execute_single_node (node : ExecutionPlan) (inputs : list (list RecordBatch)) :
    result string (list RecordBatch) :=
  sources ← fed node inputs; execute_over node sources.

(** [run_node], over the one input an executor's operator has. *)
Definition run_operator (node : ExecutionPlan) (batches : list RecordBatch) : result BackendError (list RecordBatch) :=
  map_err (fun e => {| message := e |}) (execute_single_node node [batches]).
End SingleNode.

(** ** [merge_m2.rs]: DataFusion's own accumulator, fed state as values *)
Section MergeM2.
Context {Acc Array Scalar : Type} (cast_array : Array -> DataType -> result string Array)
  (cast_scalar : Scalar -> DataType -> result string Scalar)
  (inner_merge : Acc -> list Array -> result string Acc) (inner_state : Acc -> result string (list Scalar)).

Definition m2_signature : list DataType := [Int64; Float64; Float64].
Definition m2_return_type : DataType := Float64.
Definition m2_state_fields (name : string) : list Field :=
  [{| field_name := name +:+ "[count]"; data_type := Int64; nullable := true |};
   {| field_name := name +:+ "[mean]"; data_type := Float64; nullable := true |};
   {| field_name := name +:+ "[m2]"; data_type := Float64; nullable := true |}].

(** [None] is the index panic on fewer than three columns. *)
Definition counted_unsigned (states : list Array) : option (result string (list Array)) :=
  count ← states !! 0;
  match cast_array count UInt64 with
  | Err e => Some (Err e)
  | Ok count => mean ← states !! 1; m2 ← states !! 2; Some (Ok [count; mean; m2])
  end.

(** Both [update_batch] and [merge_batch]: what arrives is state. *)
Definition merging_update (acc : Acc) (values : list Array) : option (result string Acc) :=
  r ← counted_unsigned values; Some (states ← r; inner_merge acc states).

Definition merging_state (acc : Acc) : option (result string (list Scalar)) :=
  match inner_state acc with
  | Err e => Some (Err e)
  | Ok st => count ← st !! 0; Some (count ← cast_scalar count Int64; Ok (<[0 := count]> st))
  end.
End MergeM2.

Section Build.
Context `{DataFusion, Operators}.

(** A refusal worded by the caller. *)
Definition refused_by {A} (what : string) (r : result string A) : PlanResult A :=
  map_err (fun e => Invalid (what +:+ e)) r.

(** ** The operators of a node *)
Definition stage_of (node : ExecutionPlan) : Stage := {| stage_node := node; stage_declared := plan_schema node |}.
Definition exec_of (nodes : list ExecutionPlan) : CpuExec := {| stages := map stage_of nodes; exec_fetch := None |}.

Definition cpu_filter (predicate : Expr) (projection : option (list nat)) (input : ArrowSchema) : PlanResult CpuExec :=
  predicate ← physical_expr predicate input;
  filter ← refused_by "GpuFilter: " (filter_try_new predicate (placeholder input));
  filter ← match projection with
           | Some columns => refused_by "GpuFilter projection: " (filter_with_projection filter columns)
           | None => Ok filter
           end;
  Ok (exec_of [filter]).

Definition cpu_project (exprs : list NamedExpr) (input : ArrowSchema) : PlanResult CpuExec :=
  exprs ← physical_projection exprs input;
  project ← refused_by "GpuProject: " (projection_try_new exprs (placeholder input));
  Ok (exec_of [project]).

Definition lex_ordering (keys : list ColumnOrder) (input : ArrowSchema) : PlanResult (list SortExpr) :=
  traverse (fun key =>
    field ← ok_or (input !! column key) (Invalid "a sort key past the input's columns");
    Ok {| sort_expr := ColumnExpr (column key) (field_name field); descending := negb (ascending key);
          sort_nulls_first := nulls_first key |}) keys.

(** [SortExec::new]: the columns are its input's. *)
Definition sort_new (ordering : list SortExpr) (input : ArrowSchema) : ExecutionPlan :=
  SortExec input ordering None (placeholder input).

Definition cpu_sort (keys : list ColumnOrder) (fetch : option N) (input : ArrowSchema) : PlanResult CpuExec :=
  ordering ← lex_ordering keys input;
  Ok {| stages := [stage_of (sort_new ordering input)]; exec_fetch := fetch |}.

(** *** Aggregates *)

(** The state's key columns lead it. *)
Definition key_name (state_ : Schema) (position : nat) : option string := field_name <$> fields state_ !! position.

Fixpoint named_from (input : ArrowSchema) (state_ : Schema) (position : nat) (exprs : list Expr) :
    outcome (list (PhysicalExpr * string)) :=
  match exprs with
  | [] => Good []
  | e :: exprs =>
      p ← written (physical_expr e input);
      name ← expected (key_name state_ position);
      rest ← named_from input state_ (S position) exprs;
      Good ((p, name) :: rest)
  end.

Definition init_aggregates (body : AggregateBody) (state_ : Schema) : PlanResult (list (Udaf * AggCall * string)) :=
  funcs ← state_funcs body state_;
  traverse (fun func =>
    ensure (is_aggregate (sf_name func)) (Unsupported (sf_name func +:+ " is not a DataFusion aggregate")) ≫= fun _ =>
    Ok (Registered (sf_name func), sf_call func, sf_alias func)) funcs.

Definition merge_udaf (func : PlanAgg) : PlanResult Udaf :=
  let by_name (name : string) : PlanResult Udaf :=
    ensure (is_aggregate name) (Unsupported (name +:+ " is not a DataFusion aggregate")) ≫= fun _ => Ok (Registered name) in
  match func with
  | PSum => by_name "sum"
  | PMin => by_name "min"
  | PMax => by_name "max"
  | PMergeM2 => Ok MergeM2Udaf
  | PCount | PMean | PM2 => Err (Invalid ("a merge reads state and " +:+ tag func +:+ " builds it"))
  end.

Definition merge_aggregates (body : AggregateBody) : PlanResult (list (Udaf * AggCall * string)) :=
  traverse (fun call =>
    udaf ← merge_udaf (call_func call); Ok (udaf, call, default "" (field_name <$> head (outputs call)))) (aggs body).

Definition aggregate_expr (input : ArrowSchema) (declared : Udaf * AggCall * string) : PlanResult AggregateFunctionExpr :=
  let '(udaf, call, alias) := declared in
  args ← traverse (fun arg => physical_expr arg input) (call_args call);
  refused_by (alias +:+ ": ") (build_aggregate udaf args input alias).

Definition is_unsigned_count (theirs ours : DataType) : bool :=
  match theirs, ours with UInt64, Int64 => true | _, _ => false end.

Definition counted_column (position : nat) (pair_ : Field * Field) : PhysicalExpr * string :=
  let '(theirs, ours) := pair_ in
  let column := ColumnExpr position (field_name theirs) in
  (if is_unsigned_count (data_type theirs) (data_type ours) then CastExpr column Int64 else column, field_name theirs).

Definition counted_as_declared (produced : ArrowSchema) (state_ : Schema) : PlanResult (option ExecutionPlan) :=
  let columns := zip produced (fields state_) in
  if negb (existsb (fun '(theirs, ours) => is_unsigned_count (data_type theirs) (data_type ours)) columns) then Ok None
  else Some <$> refused_by "casting the counts: " (projection_try_new (imap counted_column columns) (placeholder produced)).

Definition same_state_type (phase : Phase) (theirs ours : DataType) : bool :=
  bool_decide (theirs = ours)
  || (match phase with MergePhase => true | InitPhase => false end && widened_decimal theirs ours).

Definition check_state_layout (produced : ArrowSchema) (declared : Schema) (phase : Phase) : PlanResult () :=
  ensure (length produced =? length (fields declared))
    (Invalid "the aggregate declares other columns than DataFusion's accumulators produce") ≫= fun _ =>
  for_each (fun '(theirs, ours) =>
    ensure (same_state_type phase (data_type theirs) (data_type ours))
      (Invalid "a state read positionally has to be the state that was declared")) (zip produced (fields declared)).

(** The aggregate, and the cast of its counts where its accumulator counts unsigned. *)
Definition aggregate_exec (body : AggregateBody) (phase : Phase) (input : ArrowSchema) (state_ : Schema) :
    outcome (list ExecutionPlan) :=
  keys ← named_from input state_ 0 (group_by body);
  group ← match grouping_sets body with
          | [] => Good {| group_exprs := keys; null_expr := []; groups := [replicate (length keys) false]; is_single := true |}
          | sets => nulls ← named_from input state_ 0 (null_exprs body);
                    Good {| group_exprs := keys; null_expr := nulls; groups := sets; is_single := false |}
          end;
  declared ← written match phase with InitPhase => init_aggregates body state_ | MergePhase => merge_aggregates body end;
  aggregates ← written (traverse (aggregate_expr input) declared);
  aggregate ← written (refused_by "the aggregate: " (aggregate_try_new group aggregates (placeholder input)));
  cast ← match phase with
         | InitPhase => written (counted_as_declared (plan_schema aggregate) state_)
         | MergePhase => Good None
         end;
  let operators := aggregate :: option_list cast in
  written (check_state_layout (plan_schema (default aggregate cast)) state_ phase) ≫= fun _ => Good operators.

(** The project an aggregate finishes with. *)
Definition finalize_exec (body : AggregateBody) (state_ output : Schema) : outcome ExecutionPlan :=
  columns ← answered (finalize_columns body state_ output);
  exprs ← written (physical_projection columns (fields state_));
  written (refused_by "the finalize project: " (projection_try_new exprs (placeholder (fields state_)))).

(** The stages, the last operator's under the names the state declares. *)
Definition declared_last (operators : list ExecutionPlan) (state_ : Schema) : outcome (list Stage) :=
  node ← expected (last operators);
  Good (map stage_of (removelast operators) ++ [{| stage_node := node; stage_declared := fields state_ |}]).

Definition cpu_aggregate (body : AggregateBody) (state_ : Schema) (node : GpuNode) (input : ArrowSchema) : outcome CpuExec :=
  operators ← aggregate_exec body InitPhase input state_;
  stages ← declared_last operators state_;
  stages ← match finalize body with
           | Some _ =>
               output ← expected (kind_schema (kind node));
               project ← finalize_exec body state_ output;
               Good (stages ++ [{| stage_node := project; stage_declared := fields output |}])
           | None => Good stages
           end;
  Good {| stages := stages; exec_fetch := None |}.

End Build.

(** ** The accumulators' constructors *)
Section Accumulators.
Context `{DataFusion, Operators, Arrow}.

Definition cpu_sorted (keys : list ColumnOrder) (fetch : option N) (input : ArrowSchema) : PlanResult SortedRuns :=
  ordering ← lex_ordering keys input;
  Ok {| r_held := []; r_sort := sort_new ordering input; r_fetch := fetch; r_schema := input |}.

Definition cpu_aggregate_batches (body : AggregateBody) (state_ : Schema) (node : GpuNode) (input : ArrowSchema)
    (compact_bytes : N) : outcome AggregateBatches :=
  operators ← aggregate_exec body MergePhase input state_;
  merge ← expected (last operators);
  output ← expected (kind_schema (kind node));
  finalize ← match finalize body with
             | Some _ => project ← finalize_exec body state_ output; Good (Some project)
             | None => Good None
             end;
  Good {| a_merge := merge; a_finalize := finalize; state_ := None; pending := []; pending_bytes := 0;
          threshold := compact_bytes; compactions := 0; a_held := fields state_; a_output := fields output |}.

Definition cpu_aggregate_init (body : AggregateBody) (state_ : Schema) (node : GpuNode) (input : ArrowSchema) :
    outcome AggregateInit :=
  chain ← cpu_aggregate body state_ node input; Good {| chain := chain; i_input := input; emitted := false |}.

Definition cpu_merge_sorted (keys : list ColumnOrder) (fetch : option N) (lanes : nat) (input : ArrowSchema) :
    PlanResult CpuPartitionAccumulator :=
  ordering ← lex_ordering keys input;
  Ok {| per_lane := replicate lanes []; live := lanes; p_sort := sort_new ordering input; p_fetch := fetch; p_schema := input |}.
End Accumulators.

(** ** The joins' constructors *)
Section Joins.
Context `{DataFusion, Operators}.

Definition join_field (schema : ArrowSchema) (ordinal : nat) : PlanResult Field :=
  ok_or (schema !! ordinal) (Invalid "a join reads a column past its input's").

Definition join_key (schema : ArrowSchema) (ordinal : nat) : PlanResult PhysicalExpr :=
  field ← join_field schema ordinal; Ok (ColumnExpr ordinal (field_name field)).

Definition residual_column (build probe : ArrowSchema) (c : JoinFilterColumn) : PlanResult (Field * ColumnIndex) :=
  let '(df_side, schema) := match side c with Build => (DfLeft, build) | Probe => (DfRight, probe) end in
  field ← join_field schema (filter_index c);
  Ok (field, {| ci_index := filter_index c; ci_side := df_side |}).

(** The residual, over the columns its map names. *)
Definition join_filter (filter : Expr) (filter_columns : list JoinFilterColumn) (build probe : ArrowSchema) :
    PlanResult JoinFilter :=
  mapped ← traverse (residual_column build probe) filter_columns;
  let intermediate := map fst mapped in
  expression ← physical_expr filter intermediate;
  Ok {| filter_expression := expression; column_indices := map snd mapped; filter_schema := intermediate |}.

(** The join, the projection above it, and the type; [Plan] short of its output's columns. *)
Definition JoinPlan : Type := ExecutionPlan * option ExecutionPlan * JoinType.

Definition cpu_hash_join (jt : JoinType) (keys : list (nat * nat)) (filter : option Expr)
    (filter_columns : list JoinFilterColumn) (null_equals_null : bool) (projection : option (list nat))
    (build probe : ArrowSchema) : PlanResult JoinPlan :=
  on ← traverse (fun '(b, p) => l ← join_key build b; r ← join_key probe p; Ok (l, r)) keys;
  filter ← match filter with
           | Some e => Some <$> join_filter e filter_columns build probe
           | None => Ok None
           end;
  join ← refused_by "GpuHashJoin: "
           (hash_join_try_new (placeholder build) (placeholder probe) on filter jt projection null_equals_null);
  Ok (join, None, jt).

Definition cpu_cross_join (projection : option (list nat)) (build probe : ArrowSchema) : PlanResult JoinPlan :=
  let cross := cross_join_new (placeholder build) (placeholder probe) in
  projection ← match projection with
               | Some ordinals =>
                   exprs ← traverse (fun ordinal =>
                     field ← join_field (plan_schema cross) ordinal;
                     key ← join_key (plan_schema cross) ordinal;
                     Ok (key, field_name field)) ordinals;
                   Some <$> refused_by "GpuCrossJoin's projection: "
                              (projection_try_new exprs (placeholder (plan_schema cross)))
               | None => Ok None
               end;
  Ok (cross, projection, Inner).

Definition cpu_nested_loop_join (jt : JoinType) (filter : Expr) (filter_columns : list JoinFilterColumn)
    (projection : option (list nat)) (build probe : ArrowSchema) : PlanResult JoinPlan :=
  filter ← join_filter filter filter_columns build probe;
  join ← refused_by "GpuNestedLoopJoin: "
           (nested_loop_try_new (placeholder build) (placeholder probe) filter jt projection);
  Ok (join, None, jt).
End Joins.

(** ** Which executor drives a node *)
Section Dispatch.
Context `{DataFusion, Operators, Arr : Arrow, !Parquet, !JoinStreams}.
(** The stream's operator: the join under the projection, if any. *)
Context (join_exec : ExecutionPlan -> option ExecutionPlan -> JoinExec).

Definition CPU_COMPACT_BYTES : N := 2 ^ 20.

Definition CpuExecutors : Type :=
  NodeExecutors CpuSource (CpuExec (Operator:=ExecutionPlan)) (State (Operator:=ExecutionPlan))
    (CpuPartitionAccumulator (Operator:=ExecutionPlan)) CpuEmitter CpuJoin ().

Definition declared_fields (node : GpuNode) : outcome ArrowSchema := expected (fields <$> kind_schema (kind node)).
Definition input_fields (node : GpuNode) (ordinal : nat) : outcome ArrowSchema :=
  child ← expected (children node !! ordinal); declared_fields child.

Definition join_of (plan : JoinPlan) (node : GpuNode) : outcome CpuJoin :=
  let '(join, projection, jt) := plan in
  output ← declared_fields node;
  Good {| j_exec := join_exec join projection; j_type := jt; j_output := output |}.

Definition cpu_executors_for (node : GpuNode) (lane : nat) : outcome CpuExecutors :=
  match node with
  | GpuLoadParquet _ _ file projection groups _ _ =>
      schema ← declared_fields node; s ← written (source_new file projection groups lane schema); Good (ESource s)
  | GpuEmpty _ => Good (ESource source_empty)
  | GpuFilter _ predicate projection _ =>
      input ← input_fields node 0; e ← written (cpu_filter predicate projection input); Good (EExec e)
  | GpuProject _ exprs _ => input ← input_fields node 0; e ← written (cpu_project exprs input); Good (EExec e)
  | GpuSort _ keys fetch _ => input ← input_fields node 0; e ← written (cpu_sort keys fetch input); Good (EExec e)
  | GpuAggregate _ body intermediate _ =>
      input ← input_fields node 0;
      s ← cpu_aggregate_init body intermediate node input; Good (EBatchAccumulator (SInit s))
  | GpuCoalesceAllBatches _ _ =>
      input ← input_fields node 0; Good (EBatchAccumulator (SCoalesce {| c_held := []; c_schema := input |}))
  | GpuAccumulateBatchesAndSort _ keys fetch _ =>
      input ← input_fields node 0; s ← written (cpu_sorted keys fetch input); Good (EBatchAccumulator (SSorted s))
  | GpuAggregateBatches _ body intermediate _ =>
      input ← input_fields node 0;
      s ← cpu_aggregate_batches body intermediate node input CPU_COMPACT_BYTES; Good (EBatchAccumulator (SAggregate s))
  | GpuLimit _ interval _ => Good (EBatchAccumulator (SLimit {| interval := interval; seen := 0 |}))
  | GpuMergeSortedPartitions _ keys fetch child =>
      layout ← expected (kind_layout (kind child));
      input ← input_fields node 0;
      s ← written (cpu_merge_sorted keys fetch (n layout) input); Good (EPartitionAccumulator s)
  | GpuEmitPartitions _ hash_keys _ =>
      layout ← expected (kind_layout (kind node));
      input ← input_fields node 0;
      e ← written (emitter_new hash_keys (n layout) input); Good (EPartitionEmitter e)
  | GpuHashJoin _ jt keys filter columns null_equals_null projection _ _ =>
      build ← input_fields node 0; probe ← input_fields node 1;
      plan ← written (cpu_hash_join jt keys filter columns null_equals_null projection build probe);
      j ← join_of plan node; Good (EJoin j)
  | GpuCrossJoin _ projection _ _ =>
      build ← input_fields node 0; probe ← input_fields node 1;
      plan ← written (cpu_cross_join projection build probe); j ← join_of plan node; Good (EJoin j)
  | GpuNestedLoopJoin _ jt filter columns projection _ _ =>
      build ← input_fields node 0; probe ← input_fields node 1;
      plan ← written (cpu_nested_loop_join jt filter columns projection build probe);
      j ← join_of plan node; Good (EJoin j)
  | GpuUnload _ _ _ => Good (EUnload ())
  | GpuMergePartitions _ _ | GpuUnion _ _ | GpuInterleave _ _ =>
      f ← expected (forwarder_for node); Good (EBatchForwarder f)
  end.

(** ** What each reports *)
#[export] Instance CpuSource_executor : Executor CpuSource :=
  { resident_bytes _ := 0%N; scratch_bytes _ _ _ := 0%N }.
#[export] Instance CpuExec_executor : Executor (CpuExec (Operator:=ExecutionPlan)) :=
  { resident_bytes _ := 0%N; scratch_bytes _ _ bytes := bytes }.
#[export] Instance CpuAccumulator_executor : Executor (State (Operator:=ExecutionPlan)) :=
  { resident_bytes := held_bytes; scratch_bytes s _ bytes := held_bytes s ⊞ bytes }.
#[export] Instance CpuPartitionAccumulator_executor : Executor (CpuPartitionAccumulator (Operator:=ExecutionPlan)) :=
  { resident_bytes := part_held_bytes; scratch_bytes s _ bytes := part_held_bytes s ⊞ bytes }.
#[export] Instance CpuEmitter_executor : Executor CpuEmitter :=
  { resident_bytes _ := 0%N; scratch_bytes _ _ bytes := bytes }.
#[export] Instance CpuJoin_executor : Executor CpuJoin :=
  { resident_bytes _ := 0%N; scratch_bytes _ _ bytes := bytes }.
#[export] Instance CpuProbingJoin_executor : Executor CpuProbingJoin :=
  { resident_bytes := build_bytes; scratch_bytes _ _ bytes := bytes }.
#[export] Instance CpuUnload_executor : Executor () :=
  { resident_bytes _ := 0%N; scratch_bytes _ _ _ := 0%N }.
End Dispatch.
