(* ===== verification/CpuBuildFacts.v ===== *)
(** * Building the CPU backend's executors of a planned tree

    Of a tree the planner answered, no executor's constructor panics, and only those whose operator
    DataFusion builds can refuse ([cpu_executors_answer]): the planner's own guarantees, with what
    [validate] asks of each node, cover every look-up the constructors make. *)
From stdpp Require Import strings.
From S2P Require Import Prelude Interval PlanIR PlanCommon PlanNodes Index Executor Forwarder Claims Joins Aggregates Validate ValidFacts Denote PlanSound.
From S2P Require Import CpuOps Samples CpuEmit CpuSource CpuJoin Physical ScanMeta TransCommon TransSamples Translate TransFacts MemFacts Pipeline Wire WireFacts GpuFacts CpuBuild.
Open Scope nat_scope.

Section Build.
Context `{DataFusion, Operators}.

(** ** The aggregate and its finish *)
Lemma named_from_ends input state_ position exprs : position + length exprs <= length (fields state_) ->
  ends (named_from input state_ position exprs) (fun named => length named = length exprs).
Proof.
  revert position. induction exprs as [|e exprs IH]; intros position Hl; cbn; [done|]. cbn in Hl.
  apply after_written. intros p _. apply after_expected.
  { unfold key_name. apply fmap_is_Some, lookup_lt_is_Some_2. lia. }
  intros name _. eapply ends_bind; [apply IH; lia|]. intros rest Hr. cbn. by rewrite Hr.
Qed.

Lemma aggregate_exec_ends body phase input state_ : declares_keys body state_ ->
  ends (aggregate_exec body phase input state_) (fun operators => operators <> []).
Proof.
  intros [Hk Hn]. unfold key_width in Hk. unfold aggregate_exec.
  eapply ends_bind; [apply named_from_ends; lia|]. intros keys _.
  eapply (ends_bind _ _ (fun _ => True)).
  { destruct (grouping_sets body) as [|set sets] eqn:Hs; [done|].
    eapply ends_bind; [apply named_from_ends; destruct Hn; [done|lia]|done]. }
  intros group _. apply after_written. intros declared _. apply after_written. intros aggregates _.
  apply after_written. intros aggregate _. eapply (ends_bind _ _ (fun _ => True)).
  { destruct phase; [|done]. by destruct (counted_as_declared _ _). }
  intros cast _. apply after_written. done.
Qed.

(** The finish of a state that names its keys is a refusal or a project, never a failed look-up. *)
Lemma key_columns_some state_ output ordinals :
  (forall k, k ∈ ordinals -> k < length (fields state_) /\ k < length (fields output)) ->
  is_Some (key_columns state_ output ordinals).
Proof.
  induction ordinals as [|k ks IH]; intros Hk; cbn; [by eexists|]. destruct (Hk k) as [Hs Ho]; [by left|].
  unfold name_at. destruct (lookup_lt_is_Some_2 _ _ Hs) as [a ->], (lookup_lt_is_Some_2 _ _ Ho) as [b ->]. cbn.
  case_bool_decide; [by eexists|]. destruct IH as [rest ->]; [intros; apply Hk; by right|]. by eexists.
Qed.

Lemma finished_columns_some output at_ finalize : at_ + length finalize <= length (fields output) ->
  is_Some (finished_columns output at_ finalize).
Proof.
  revert at_. induction finalize as [|c fin IH]; intros at_ Hl; cbn; [by eexists|]. cbn in Hl.
  unfold name_at. destruct (lookup_lt_is_Some_2 (fields output) at_) as [f ->]; [lia|]. cbn.
  destruct (IH (S at_)) as [rest ->]; [lia|]. by eexists.
Qed.

Lemma finalize_columns_some body state_ output : declares_keys body state_ -> finalize body <> None ->
  is_Some (finalize_columns body state_ output).
Proof.
  intros [Hk _] Hf. unfold finalize_columns. destruct (finalize body) as [fin|]; [|done]. cbn.
  destruct (Nat.eqb_spec (key_width body + length fin) (length (fields output))) as [Hw|_]; cbn; [|by eexists].
  assert (Hkeys : is_Some (key_columns state_ output (seq 0 (key_width body)))).
  { apply key_columns_some. intros k [_ Hlt]%elem_of_seq. lia. }
  destruct Hkeys as [[cols|e] ->]; cbn; [|by eexists].
  destruct (finished_columns_some output (key_width body) fin) as [done_ ->]; [lia|]. by eexists.
Qed.

Lemma finalize_exec_ends body state_ output : declares_keys body state_ -> finalize body <> None ->
  ends (finalize_exec body state_ output) (fun _ => True).
Proof.
  intros Hk Hf. unfold finalize_exec. destruct (finalize_columns_some body state_ output Hk Hf) as [r ->].
  destruct r as [columns|]; cbn; [|done]. apply after_written. intros exprs _. by destruct (refused_by _ _).
Qed.

Lemma cpu_aggregate_ends body state_ node input : declares_keys body state_ -> is_Some (kind_schema (kind node)) ->
  ends (cpu_aggregate body state_ node input) (fun e => stages e <> []).
Proof.
  intros Hk Ho. unfold cpu_aggregate. eapply ends_bind; [by apply aggregate_exec_ends|]. intros operators Hne.
  eapply (ends_bind _ _ (fun st => st <> [])).
  { unfold declared_last. apply after_expected; [|intros last_ _; by destruct (map _ _)].
    apply last_is_Some. done. }
  intros st Hst. eapply (ends_bind _ _ (fun st => st <> [])); [|done].
  destruct (finalize body) eqn:Hf; [|done]. apply after_expected; [done|]. intros output _.
  eapply ends_bind; [apply finalize_exec_ends; [done|by rewrite Hf]|]. intros project _. by destruct st.
Qed.

End Build.

Section Planned.
Context `{DataFusion, Operators, Arr : Arrow, !Parquet, !JoinStreams}.
Context (join_exec : ExecutionPlan -> option ExecutionPlan -> JoinExec).

Lemma cpu_aggregate_batches_ends body state_ node input bytes : declares_keys body state_ -> is_Some (kind_schema (kind node)) ->
  ends (cpu_aggregate_batches body state_ node input bytes) (fun _ => True).
Proof.
  intros Hk Ho. unfold cpu_aggregate_batches. eapply ends_bind; [by apply aggregate_exec_ends|]. intros operators Hne.
  apply after_expected; [by apply last_is_Some|]. intros merge _. apply after_expected; [done|]. intros output _.
  eapply (ends_bind _ _ (fun _ => True)); [|done].
  destruct (finalize body) eqn:Hf; [|done]. eapply ends_bind; [apply finalize_exec_ends; [done|by rewrite Hf]|done].
Qed.

(** ** The orderings *)
Lemma traverse_all {A B E} (f : A -> result E B) l : (forall x, x ∈ l -> exists y, f x = Ok y) ->
  exists ys, traverse f l = Ok ys.
Proof.
  induction l as [|x l IH]; intros Hf; [by eexists|]. destruct (Hf x) as [y Hy]; [by left|].
  destruct IH as [ys Hys]; [intros; apply Hf; by right|]. exists (y :: ys). cbn. by rewrite Hy, Hys.
Qed.

Lemma lex_ordering_answers keys input : (forall key, key ∈ keys -> column key < length input) ->
  exists ordering, lex_ordering keys input = Ok ordering.
Proof.
  intros Hk. apply traverse_all. intros key Hin. unfold ArrowSchema.
  destruct (lookup_lt_is_Some_2 input (column key)) as [f ->]; [by apply Hk|]. by eexists.
Qed.

(** ** What each node is built into *)

(** The operators a node needs are DataFusion's to build, or its file the reader's to open. *)
Definition foreign (node : GpuNode) : bool :=
  match node with
  | GpuLoadParquet _ _ _ _ _ _ _ | GpuFilter _ _ _ _ | GpuProject _ _ _ | GpuAggregate _ _ _ _
  | GpuAggregateBatches _ _ _ _ | GpuHashJoin _ _ _ _ _ _ _ _ _ | GpuCrossJoin _ _ _ _
  | GpuNestedLoopJoin _ _ _ _ _ _ _ => true
  | _ => false
  end.

(** An executor that runs operators has one: [exec]'s own [expect]. *)
Definition has_operator (e : CpuExecutors) : Prop :=
  match e with
  | EExec e => stages e <> []
  | EBatchAccumulator (SInit s) => stages (chain s) <> []
  | _ => True
  end.

Definition settled (node : GpuNode) (o : outcome CpuExecutors) : Prop :=
  match o with
  | Good e => executors_category e = category_of node /\ has_operator e
  | Refused _ => foreign node = true
  | Panicked | OutOfFuel => False
  end.

Lemma settled_ends {A} node (o : outcome A) (wrap : A -> CpuExecutors) P : foreign node = true -> ends o P ->
  (forall x, P x -> executors_category (wrap x) = category_of node /\ has_operator (wrap x)) ->
  settled node (x ← o; Good (wrap x)).
Proof. destruct o; cbn; auto. Qed.

Lemma settled_written {A} node (r : PlanResult A) (wrap : A -> CpuExecutors) : foreign node = true ->
  (forall x, r = Ok x -> executors_category (wrap x) = category_of node /\ has_operator (wrap x)) ->
  settled node (x ← written r; Good (wrap x)).
Proof. destruct r; cbn; auto. Qed.

Lemma input_fields_good node i child : children node !! i = Some child -> kind child <> Sink ->
  input_fields node i = Good (fields (input_schema child)).
Proof.
  intros Hc Hk. unfold input_fields, declared_fields, input_schema. rewrite Hc. cbn.
  apply declared_kind in Hk as [[s ->] _]. done.
Qed.

Lemma join_settled node (r : PlanResult JoinPlan) : foreign node = true -> category_of node = CJoin ->
  is_Some (kind_schema (kind node)) -> settled node (plan ← written r; j ← join_of join_exec plan node; Good (EJoin j)).
Proof.
  intros Hf Hc [s Hs]. destruct r as [[[join projection] jt]|e]; [|done]. cbn. unfold declared_fields. rewrite Hs. by cbn.
Qed.

Lemma merged_keys_in_range name keys input layout schema :
  check_merge_keys name keys (input_layout input) = Ok () -> kind_layout (kind input) = Some layout ->
  well_declared input layout schema -> forall key, key ∈ keys -> column key < length (fields schema).
Proof.
  unfold check_merge_keys, input_layout. intros Hk Hl Hd key Hin. rewrite Hl in Hk. cbn in Hk.
  destruct (sort_order layout) as [|sorted] eqn:Ho; [done|]. apply key_prefix_ok in Hk as [more ->].
  apply (order_in_range _ _ _ Hd _ _ Ho). apply elem_of_app. by left.
Qed.

(** What building asks of a node: it was planned, and so were its inputs. *)
Record buildable (node : GpuNode) (lane : nat) : Prop := {
  b_built : built node; b_formed : well_formed node; b_fit : lanes_fit node;
  b_inputs : forall child, child ∈ children node -> well_formed child;
  b_lane : lane < Forwarder.layout_lanes node }.

Lemma child_ordering node name keys input : well_formed node -> well_formed input -> children node = [input] ->
  check_merge_keys name keys (input_layout input) = Ok () ->
  exists ordering, lex_ordering keys (fields (input_schema input)) = Ok ordering.
Proof.
  intros Hw Hi Hc Hk. apply lex_ordering_answers.
  assert (Hin : input ∈ children node) by (rewrite Hc; apply list_elem_of_here).
  destruct (declared_kind input) as [[s Hs] [l Hl]]; [exact (inputs_on_device _ Hw _ Hin)|].
  destruct (declares _ Hi l s Hl Hs) as [Hd _]. unfold input_schema. rewrite Hs. cbn. by eapply merged_keys_in_range.
Qed.

Lemma executor_settles node lane : buildable node lane -> settled node (cpu_executors_for join_exec node lane).
Proof.
  intros [Hb Hw Hfit Hins Hlane]. pose proof (own_requirements _ Hw) as Hv.
  assert (Hin : forall i child, children node !! i = Some child -> input_fields node i = Good (fields (input_schema child))).
  { intros i child Hc. apply input_fields_good; [done|]. apply (inputs_on_device _ Hw). by eapply list_elem_of_lookup_2. }
  assert (Hout : match node with GpuUnload _ _ _ => True | _ => is_Some (kind_schema (kind node)) /\ is_Some (kind_layout (kind node)) end).
  { destruct (not_sink node Hb) as [Hk|(k & iv & i & ->)]; [|done]. apply declared_kind in Hk. by destruct node. }
  destruct node as [k tb f pj pg sv cn|k|k p pj i|k es i|k ks ft i|k i|k ks ft i|k iv i|k bd st i|k bd st i|k jt ks f fc ne pj b p
    |k pj b p|k jt f fc pj b p|k i|k hk i|k ks ft i|k bs|k bs|k iv i]; cbn [cpu_executors_for];
    rewrite ?(Hin 0 _ eq_refl), ?(Hin 1 _ eq_refl); cbn [mbind outcome_bind]; try done.
  - destruct Hout as [[s Hs] _]. unfold declared_fields. rewrite Hs. by apply settled_written.
  - apply settled_written; [done|]. intros e He. split; [done|]. unfold cpu_filter, PlanResult in He.
    apply bind_ok in He as (predicate & _ & (filter & _ & (filter' & _ & [= <-])%bind_ok)%bind_ok). done.
  - apply settled_written; [done|]. intros e He. split; [done|]. unfold cpu_project, PlanResult in He.
    apply bind_ok in He as (exprs & _ & (project & _ & [= <-])%bind_ok). done.
  - destruct (lex_ordering_answers ks (fields (input_schema i))) as [ordering Ho]; [|by unfold cpu_sort; rewrite Ho].
    cbn [validate_node] in Hv. unfold validate_sort, PlanResult in Hv. apply seq_ok in Hv as [_ Hv]. rewrite for_each_ok in Hv.
    intros key Hk. by apply Hv, ensure_iff, Nat.ltb_lt in Hk.
  - destruct (child_ordering _ _ _ i Hw (Hins i (list_elem_of_here _ _)) eq_refl Hv) as [ordering Ho].
    unfold cpu_sorted. by rewrite Ho.
  - apply (settled_ends _ _ _ (fun s => stages (chain s) <> [])); [done| |done]. unfold cpu_aggregate_init.
    eapply ends_bind; [apply cpu_aggregate_ends; [done|apply Hout]|done].
  - eapply settled_ends; [done|apply cpu_aggregate_batches_ends; [done|apply Hout]|done].
  - apply join_settled; [done..|apply Hout].
  - apply join_settled; [done..|apply Hout].
  - apply join_settled; [done..|apply Hout].
  - destruct Hout as [[s Hs] [l Hl]]. rewrite Hl. cbn [expected mbind outcome_bind].
    destruct (declares _ Hw l s Hl Hs) as [Hd _]. cbn [validate_node] in Hv. unfold validate_emit, PlanResult in Hv.
    apply seq_ok in Hv as [_ Hv]. rewrite for_each_ok in Hv.
    match goal with |- settled _ (written ?r ≫= _) => assert (He : is_ok r = true) end; [|by destruct (emitter_new _ _ _)].
    unfold emitter_new. match goal with |- context [for_each ?check hk] => assert (Hk : for_each check hk = Ok ()) end.
    { apply for_each_ok. intros key Hin'. by apply ensure_iff, (ensure_iff _ (Invalid "GpuEmitPartitions: hash key is past the columns its input has")), Hv. }
    rewrite Hk. cbn [mbind result_bind].
    destruct (Nat.eqb_spec (n l) 0) as [Hz|_]; [by destruct (some_lane _ _ _ Hd)|done].
  - destruct (child_ordering _ _ _ i Hw (Hins i (list_elem_of_here _ _)) eq_refl Hv) as [ordering Ho].
    destruct (declared_kind i) as [_ [l ->]]; [exact (inputs_on_device _ Hw _ (list_elem_of_here _ _))|]. cbn.
    unfold cpu_merge_sorted. by rewrite Ho.
Qed.

(** C9: of any plan that is answered, every lane's CPU executor is built or refused, and never panics: the
    state of each aggregate names the keys it groups by, so no key is looked up past it; each input has
    declared its columns; and what is built is of the category the driver expects, with an operator for
    [exec] to run.  A refusal is possible only where DataFusion builds the operator or a file is opened: a
    per-batch sort, the accumulating sort, the sorted merge, the scatter, the coalesce, the limit and every
    routing node are always built. *)
Theorem cpu_executors_answer root knobs tree model node lane :
  plan_ok root = true -> plan root knobs = Good (tree, model) ->
  node ∈ descendants tree -> lane < Forwarder.layout_lanes node ->
  settled node (cpu_executors_for join_exec node lane).
Proof.
  intros Hp Hplan Hn Hl. pose proof (planned_nodes _ _ _ _ Hp Hplan) as Hall.
  destruct (Hall node Hn) as (Hb & Hw & Hf). apply executor_settles. split; try done.
  intros child Hc. apply Hall.
  assert (Hin : Forall (fun d => d ∈ descendants tree) (descendants tree)) by (by apply Forall_forall).
  apply (descendants_within _ _ _ Hin) in Hn. apply descendants_ind in Hn as [_ Hn].
  rewrite Forall_forall in Hn. by apply Hn, descendants_ind in Hc as [? _].
Qed.
End Planned.

(** ** A grouped sum *)
Definition demo_state : ArrowSchema :=
  [{| field_name := "k"; data_type := Int64; nullable := false |}; {| field_name := "v[sum]"; data_type := Int64; nullable := true |}].

Definition demo_stage (mode : AggregateMode) (schema : ArrowSchema) (input : ExecutionPlan) : ExecutionPlan :=
  AggregateExec mode schema
    {| group_exprs := [(ColumnExpr 0 "k", "k")]; null_expr := []; groups := [[false]]; is_single := true |}
    [{| aggr_name := "v"; fun_of := "sum"; is_distinct := false; expressions := [ColumnExpr 1 "v"];
        state_fields := Ok [{| field_name := "v[sum]"; data_type := Int64; nullable := true |}];
        aggr_field := {| field_name := "v"; data_type := Int64; nullable := true |} |}] [None] input.

Definition demo_grouped : ExecutionPlan :=
  CoalescePartitionsExec demo_columns
    (demo_stage FinalPartitioned demo_columns
       (RepartitionExec demo_state (HashPartitioning [ColumnExpr 0 "k"] 2) (demo_stage Partial demo_state (demo_parquet "a" None)))).

Definition demo_typed : DataFusion := {|
  expr_data_type := fun _ _ => Ok Int64; typed_null := @typed_null demo_session; grouping_id_type := @grouping_id_type demo_session;
  open_parquet := @open_parquet demo_session; prune := @prune demo_session;
  registered := @registered demo_session; same_expr := @same_expr demo_session;
  split_conjunction := @split_conjunction demo_session; case_try_new := @case_try_new demo_session |}.

#[local] Existing Instance demo_typed.
#[local] Existing Instance toy_arrow.

Definition demo_named (e : PhysicalExpr * string) : Field :=
  {| field_name := e.2; data_type := Int64; nullable := false |}.

#[local] Instance demo_operators : Operators := {|
  is_aggregate name := bool_decide (name = "sum");
  build_aggregate _ args _ alias := Ok {| aggr_name := alias; fun_of := "sum"; is_distinct := false; expressions := args;
    state_fields := Ok []; aggr_field := {| field_name := alias; data_type := Int64; nullable := true |} |};
  filter_try_new e i := Ok (FilterExec (plan_schema i) e None i);
  filter_with_projection f _ := Ok f;
  projection_try_new es i := Ok (ProjectionExec (map demo_named es) es i);
  aggregate_try_new g aggs i := Ok (AggregateExec Partial (map demo_named (group_exprs g) ++ map aggr_field aggs) g aggs [] i);
  hash_join_try_new l r on f jt pj nn := Ok (HashJoinExec (plan_schema l ++ plan_schema r) jt on f nn pj l r);
  cross_join_new l r := CrossJoinExec (plan_schema l ++ plan_schema r) l r;
  nested_loop_try_new l r f jt pj := Ok (NestedLoopJoinExec (plan_schema l ++ plan_schema r) jt (Some f) pj l r) |}.

#[local] Instance demo_parquet_files : Parquet := {|
  load_metadata := fun _ => Ok (); read_row_groups := fun _ _ _ => Ok []; int8_zeros := fun k => replicate k 0%N |}.

#[local] Instance demo_streams : JoinStreams := {|
  JoinExec := (); JoinStream := (); start_stream := fun _ _ => Ok (); stream_schema := fun _ => [];
  send_probe := fun s _ => Ok s; poll_ready := fun s => (s, Ok []); close_and_collect := fun _ => Ok [] |}.

Definition demo_join_exec : ExecutionPlan -> option ExecutionPlan -> JoinExec := fun _ _ => tt.

Definition demo_grouped_tree : GpuNode := Eval vm_compute in
  match plan demo_grouped demo_knobs with Good (tree, _) => tree | _ => inhabitant end.

(** The finalizing merge of the grouped sum, in its second lane. *)
Lemma cpu_executors_answer_witness :
  match post_order demo_grouped_tree !! 6 with
  | Some node => category_of node = CBatchAccumulator
      /\ settled node (cpu_executors_for demo_join_exec node 1)
      /\ match cpu_executors_for demo_join_exec node 1 with Good (EBatchAccumulator (SAggregate _)) => True | _ => False end
  | None => False
  end.
Proof.
  split; [vm_compute; reflexivity|]. split; [|vm_compute; exact I].
  apply (cpu_executors_answer demo_join_exec demo_grouped demo_knobs demo_grouped_tree
    match plan demo_grouped demo_knobs with Good (_, model) => model | _ => demo_model end); try (vm_compute; first [reflexivity|lia]).
  apply post_order_descendants, list_elem_of_lookup. exists 6. reflexivity.
Defined.
