(* ===== verification/Measure.v ===== *)
(** * Joining a run's calls with the device's regions

    [executor/driver/measurements.rs] and the measured half of [executor/mod.rs]: the calls a report
    journalled against the regions the device recorded, met on [(seq, call_index)].  The driver's stamps
    make the keys distinct ([MeasureFacts.v]), so the join refuses exactly a mismatch.  Counters are
    [u64]s and wrap. *)
From stdpp Require Import strings gmap.
From S2P Require Import Prelude Interval PlanIR PlanCommon Executor Index Validate Driver Gpu Wire.
Open Scope nat_scope.
Open Scope rust_scope.

(** ** Data *)
Record Measured := { m_host_us : N; m_device_us : N; m_out_rows : N; m_out_bytes : N; m_regions : N }.
#[export] Instance Measured_eq_dec : EqDecision Measured.
Proof. solve_decision. Defined.

Definition measured_default : Measured :=
  {| m_host_us := 0; m_device_us := 0; m_out_rows := 0; m_out_bytes := 0; m_regions := 0 |}.

(** [AddAssign]. *)
Definition add_assign (a b : Measured) : Measured :=
  {| m_host_us := m_host_us a ⊞ m_host_us b; m_device_us := m_device_us a ⊞ m_device_us b;
     m_out_rows := m_out_rows a ⊞ m_out_rows b; m_out_bytes := m_out_bytes a ⊞ m_out_bytes b;
     m_regions := m_regions a ⊞ m_regions b |}.

(** What the two halves meet on. *)
Definition Key := (Seq * N)%type.
Definition region_key (r : Region) : Key := (r_seq r, r_call_index r).
Definition call_key (c : AbiCall) : Key := (Executor.call_seq c, call_index c).

Record Measurements :=
  { per_entry : list (list (list (option Measured))); per_call : gmap Key Measured }.

(** [Measurements::lanes], whose index panic is [None]. *)
Definition lanes_measured (times : Measurements) (node : nat) : option (list (list (option Measured))) := per_entry times !! node.
Definition nodes_measured (times : Measurements) : nat := length (per_entry times).
Definition call_measured (times : Measurements) (seq : Seq) (index : N) : option Measured := per_call times !! (seq, index).

(** ** The join *)

(** One entry per call, summed over the call's output partitions. *)
Definition of_region (r : Region) : Measured :=
  {| m_host_us := host_us r; m_device_us := device_us r; m_out_rows := 0; m_out_bytes := 0; m_regions := 1 |}.
Definition add_region (held : gmap Key Measured) (r : Region) : gmap Key Measured :=
  <[region_key r := add_assign (default measured_default (held !! region_key r)) (of_region r)]> held.
Definition regions_by_call (regions : list Region) : gmap Key Measured := foldl add_region ∅ regions.

(** The regions no call has claimed, and the calls claimed. *)
Record Meter := { unclaimed : gmap Key Measured; claimed : gmap Key Measured }.

Definition unanswered : string :=
  "a call was journalled and the device answered no region for it: a measured run opens one per call".
Definition unjournalled : string := "the device answered for a call and no call journalled it".

Definition priced_call (call : AbiCall) (found : Measured) : Measured :=
  {| m_host_us := m_host_us found; m_device_us := m_device_us found; m_out_rows := out_rows call;
     m_out_bytes := Executor.out_bytes call; m_regions := m_regions found |}.

Definition claim_call (call : AbiCall) : M Meter string Measured := fun s =>
  match unclaimed s !! call_key call with
  | None => (Err unanswered, s)
  | Some found =>
      let measured := priced_call call found in
      (Ok measured, {| unclaimed := delete (call_key call) (unclaimed s);
                       claimed := <[call_key call := measured]> (claimed s) |})
  end.

Definition claim_entry (made : AbiCalls) : M Meter string (option Measured) :=
  match made with
  | None => mret None
  | Some made => costs ← mapM claim_call made; mret (Some (foldl add_assign measured_default costs))
  end.

Definition join_regions `{Backend} (report : RunReport) (regions : list Region) : result string Measurements :=
  let '(entries, s) := mapM (mapM (mapM claim_entry)) (abi_calls (report_log report))
                         {| unclaimed := regions_by_call regions; claimed := ∅ |} in
  entries ← entries;
  ensure (bool_decide (unclaimed s = ∅)) unjournalled ≫= fun _ =>
  Ok {| per_entry := entries; per_call := claimed s |}.

(** ** One node's whole cost *)
Definition node_measured (times : Measurements) (node : nat) : option (option Measured) :=
  lanes_ ← lanes_measured times node;
  Some (foldl (fun total call =>
          match call with Some call => Some (add_assign (default measured_default total) call) | None => total end)
        None (concat lanes_)).

(** [nodes_as_recorded]: each node's type and children-first position, in the report's order. *)
Definition nodes_as_recorded (root : GpuNode) : PlanResult (list (string * nat)) :=
  Ok (map (fun x => (node_name (in_node x), post_order x)) (nodes (build root))).
