(* ===== verification/MeasureFacts.v ===== *)
(** * A measured run's calls and regions meet

    The driver's stamps first: however a run ends, no two calls it journalled share a key, for each takes
    the next index its seq has ([stamped]).  Then the join: over distinct keys it answers exactly where the
    device answered those keys and no other, each call billed its own regions ([measured_run_joins]). *)
From stdpp Require Import strings gmap.
From S2P Require Import Prelude Interval PlanIR PlanCommon Gpu Wire Index Executor Reference Forwarder Accounting Scheduler Lane Validate Driver DriverBooks DriverReady Measure.
Open Scope nat_scope.
Open Scope rust_scope.

(** ** The keys a run journals *)
Definition journalled (log : list (list (list AbiCalls))) : list AbiCall := concat (map (default []) (concat (concat log))).

Lemma journalled_alter2 node lane (made : AbiCalls) log : is_Some (at2 log node lane) ->
  journalled (alter2 (fun entries => entries ++ [made]) node lane log) ≡ₚ default [] made ++ journalled log.
Proof.
  intros [entries Hat]. unfold at2 in Hat. apply bind_Some in Hat as (lanes_ & Hn & Hl).
  apply list_elem_of_split_length in Hn as (pre & post & -> & ->). apply list_elem_of_split_length in Hl as (lpre & lpost & -> & ->).
  unfold alter2. rewrite (alter_app_r_alt _ pre) by lia. rewrite Nat.sub_diag. cbn.
  rewrite (alter_app_r_alt _ lpre) by lia. rewrite Nat.sub_diag. cbn.
  unfold journalled. rewrite !concat_app. cbn. rewrite !concat_app. cbn. rewrite !map_app, !concat_app. cbn.
  rewrite app_nil_r. solve_Permutation.
Qed.

Definition keys_of (calls : list AbiCall) : list Key := map call_key calls.

(** Keys distinct, and under the count each seq has reached. *)
Definition stamped (l : RunLog) : Prop :=
  NoDup (keys_of (journalled (abi_calls l)))
  /\ forall (s : nat) i, (s, i) ∈ keys_of (journalled (abi_calls l)) -> (i < default 0 (calls_made l !! s))%N.

Lemma stamp_all_ok cs : forall made cs' made', stamp_all cs made = (cs', made') ->
  NoDup (keys_of cs')
  /\ (forall (s : nat) i, (s, i) ∈ keys_of cs' -> (default 0 (made !! s) <= i < default 0 (made' !! s))%N)
  /\ forall s, (default 0 (made !! s) <= default 0 (made' !! s))%N.
Proof.
  induction cs as [|c cs IH]; intros made cs' made' Hs; cbn [stamp_all] in Hs.
  { injection Hs as <- <-. split_and!; [constructor|by intros ?? ?%elem_of_nil|done]. }
  destruct (stamp c made) as [c1 made1] eqn:Hc. destruct (stamp_all cs made1) as [cs1 made2] eqn:Hall. injection Hs as <- <-.
  destruct (IH _ _ _ Hall) as (Hnd & Hin & Hle). unfold stamp in Hc. injection Hc as <- <-.
  set (s0 := Executor.call_seq c) in *. set (i0 := default 0%N (made !! s0)) in *.
  assert (Hone : forall s, (default 0 (made !! s) <= default 0 (<[s0 := (i0 + 1)%N]> made !! s))%N).
  { intros s. destruct (decide (s0 = s)) as [<-|]; [rewrite lookup_insert_eq|rewrite lookup_insert_ne by done; done]. unfold i0. cbn [from_option id]. lia. }
  assert (Hlast : (i0 < default 0 (made2 !! s0))%N).
  { specialize (Hle s0). rewrite lookup_insert_eq in Hle. cbn [from_option id] in Hle. lia. }
  split_and!.
  - cbn. apply NoDup_cons. split; [|done]. intros Hbad. apply (Hin s0 i0) in Hbad. rewrite lookup_insert_eq in Hbad. cbn [from_option id] in Hbad. lia.
  - intros s i [[= -> ->]|Hi]%elem_of_cons; [fold i0; split; [done|exact Hlast]|].
    apply Hin in Hi. specialize (Hone s). lia.
  - intros s. specialize (Hone s). specialize (Hle s). lia.
Qed.

Lemma log_calls_stamped node lane made l : is_Some (at2 (abi_calls l) node lane) -> stamped l -> stamped (log_calls node lane made l).
Proof.
  intros Hat [Hnd Hlt]. unfold log_calls. destruct made as [cs|].
  - destruct (stamp_all cs (calls_made l)) as [cs' made'] eqn:Hs. apply stamp_all_ok in Hs as (Hnd' & Hin & Hle).
    unfold stamped, keys_of. cbn [abi_calls calls_made]. rewrite (journalled_alter2 _ _ _ _ Hat). cbn [from_option id]. rewrite map_app. split.
    + apply NoDup_app. split_and!; [done| |done]. intros [s i] Hi Hbad. apply Hin in Hi. apply Hlt in Hbad. lia.
    + intros s i. rewrite (journalled_alter2 _ _ _ _ Hat). cbn [from_option id]. rewrite map_app. intros [Hi|Hi]%elem_of_app; [by apply Hin in Hi as [_ ?]|]. apply Hlt in Hi. specialize (Hle s). lia.
  - unfold stamped, keys_of. cbn [abi_calls calls_made]. split; [by rewrite (journalled_alter2 _ _ _ _ Hat)|].
    intros s i. rewrite (journalled_alter2 _ _ _ _ Hat). apply Hlt.
Qed.

(** ** However a run ends, its calls are stamped *)
Create HintDb stamps discriminated.
#[local] Hint Constants Opaque : stamps.

Section Stamps.
Context {B : Backend}.
Notation P := (fun d : Driver => stamped (d_log d)).

Lemma keeps_modify (f : Driver -> Driver) : (forall d, P d -> P (f d)) -> keeps (E:=StepError) P (modify f).
Proof. intros Hf d Hd. by apply Hf. Qed.
Lemma keeps_state : keeps (E:=StepError) P get_state.
Proof. by intros d Hd. Qed.
Lemma keeps_panicking {A} (f : Driver -> option A) : keeps P (panicking f).
Proof. intros d Hd. unfold panicking. by destruct (f d). Qed.
Lemma keeps_acct {E A} (into : E -> StepError) (f : ResidentAccountant -> result E A * ResidentAccountant) : keeps P (acct_dm into f).
Proof. intros d Hd. unfold acct_dm. by destruct (f (d_acct d)). Qed.
Lemma keeps_call_failed {A} node e : keeps P (call_failed (A:=A) node e).
Proof. by intros d Hd. Qed.
Lemma keeps_on_err {A} (m : DM A) cleanup : keeps P m -> keeps P cleanup -> keeps P (on_err m cleanup).
Proof. intros Hm Hc d Hd. specialize (Hm d Hd). unfold on_err. destruct (m d) as [[x|e] d']; [done|by apply Hc]. Qed.
Lemma keeps_offer node lane h : keeps P (offer node lane h).
Proof. intros d Hd. unfold offer. destruct (hook d) as [look|]; [|done]. destruct (look _ _ _ _) as [w [[]|why]]; done. Qed.
Lemma keeps_emitter node : keeps P (expect_emitter node).
Proof. intros d Hd. unfold expect_emitter. by destruct (built_cross d node) as [[]|]. Qed.
Lemma keeps_accumulator node : keeps P (expect_accumulator node).
Proof. intros d Hd. unfold expect_accumulator. by destruct (built_cross d node) as [[]|]. Qed.
Lemma keeps_call_lane node lane c input rows : keeps P (call_lane node lane c input rows).
Proof. intros d Hd. unfold call_lane. destruct (lane_of d node lane); [|done]. by destruct (run_lane _ _ _ _ _). Qed.
Lemma keeps_left_build node : keeps P (left_build node).
Proof. intros d Hd. unfold left_build. by destruct (lane_left_build _ _). Qed.
Lemma keeps_record_calls node lane made : keeps P (record_calls node lane made).
Proof.
  intros d Hd. unfold record_calls. destruct made as [made|]; [|done]. unfold mbind, M_bind, panicking.
  destruct (at2 (abi_calls (d_log d)) node lane) eqn:Hat; [|done]. cbn. apply log_calls_stamped; [by rewrite Hat|done].
Qed.

Ltac keep :=
  repeat match goal with
  | |- keeps _ (_ ≫= _) => apply keeps_bind; [|intros ?]
  | |- keeps _ (let x := ?v in _) => cbv zeta
  | |- keeps _ (forM _ _) => apply keeps_forM; intros ? _
  | |- keeps _ (on_err _ _) => apply keeps_on_err
  | |- keeps _ (match ?x with _ => _ end) => destruct x
  | |- keeps _ (modify _) => apply keeps_modify; intros ? Hd; exact Hd
  | |- keeps _ (mret _) => apply keeps_ret
  | |- keeps _ (throw _) => apply keeps_throw
  | |- keeps _ (gets _) => apply keeps_gets
  | |- keeps _ (lift _) => apply keeps_lift
  | |- keeps _ get_state => apply keeps_state
  | |- keeps _ (panicking _) => apply keeps_panicking
  | |- keeps _ (acct_dm _ _) => apply keeps_acct
  | |- keeps _ (call_failed _ _) => apply keeps_call_failed
  | H : keeps _ _ |- keeps _ _ => exact H
  | |- keeps _ _ => solve [auto with stamps nocore]
  end.
#[local] Hint Resolve keeps_offer keeps_emitter keeps_accumulator keeps_call_lane keeps_left_build keeps_record_calls : stamps.

Lemma keeps_upd node f : keeps P (upd_state node f).
Proof. unfold upd_state. keep. Qed.
#[local] Hint Resolve keeps_upd : stamps.
Lemma keeps_record node lane k n : keeps P (record node lane k n).
Proof. unfold record. keep. Qed.
Lemma keeps_emitted {T} `{BatchLike T} node lane (h : Held T) : keeps P (record_emitted node lane h).
Proof. unfold record_emitted. keep. Qed.
Lemma keeps_consumed node s l rows : keeps P (record_consumed node s l rows).
Proof. unfold record_consumed. keep. Qed.
Lemma keeps_abandoned node lane rows : keeps P (record_abandoned node lane rows).
Proof. unfold record_abandoned. keep. Qed.
Lemma keeps_push node lane h : keeps P (push_out node lane h).
Proof. unfold push_out. keep. Qed.
Lemma keeps_pop node lane : keeps P (pop_out node lane).
Proof. unfold pop_out. keep. Qed.
#[local] Hint Resolve keeps_record keeps_emitted keeps_consumed keeps_abandoned keeps_push keeps_pop : stamps.
Lemma keeps_take node lane c : keeps P (take_input node lane c).
Proof. unfold take_input, protocol. keep. Qed.
Lemma keeps_cross node : keeps P (build_cross node).
Proof. unfold build_cross. keep. Qed.
Lemma keeps_queue_device node lane limited batches : keeps P (queue_device node lane limited batches).
Proof. induction batches; cbn [queue_device]; keep. Qed.
Lemma keeps_hand_over node lane h : keeps P (hand_over node lane h).
Proof. unfold hand_over, d_release. keep. Qed.
#[local] Hint Resolve keeps_take keeps_cross keeps_queue_device keeps_hand_over : stamps.
Lemma keeps_lane_called node lane c arriving input rows : keeps P (lane_called node lane c arriving input rows).
Proof. unfold lane_called, add_seen, end_lane. keep. Qed.
Lemma keeps_unwanted node lane c arriving : keeps P (lane_unwanted node lane c arriving).
Proof. unfold lane_unwanted, add_seen, d_release. keep. Qed.
#[local] Hint Resolve keeps_lane_called keeps_unwanted : stamps.
Lemma keeps_lane_turn node lane : keeps P (lane_turn node lane).
Proof. unfold lane_turn. keep. Qed.
Lemma keeps_queue_output node lane out : keeps P (queue_output node lane out).
Proof. unfold queue_output, d_hold. keep. Qed.
#[local] Hint Resolve keeps_lane_turn keeps_queue_output : stamps.
Lemma keeps_scatter node lane outs : keeps P (queue_scatter node lane outs).
Proof. revert lane. induction outs; intros lane; cbn [queue_scatter]; keep. Qed.
#[local] Hint Resolve keeps_scatter : stamps.
Lemma keeps_run_emitter node : keeps P (run_emitter node).
Proof. unfold run_emitter, d_forget, d_begin, d_end, d_release, or_call_failed, protocol. keep. Qed.
Lemma keeps_event node child lane : keeps P (accumulator_event node child lane).
Proof. unfold accumulator_event, d_begin, d_end, d_release, or_call_failed. keep. Qed.
#[local] Hint Resolve keeps_run_emitter keeps_event : stamps.
Lemma keeps_run_accumulator node : keeps P (run_partition_accumulator node).
Proof. unfold run_partition_accumulator, accumulator_turn, d_forget, end_lane. keep. Qed.
Lemma keeps_forward node lane start sources offsets : keeps P (forward_from node lane start sources offsets).
Proof. induction offsets; cbn [forward_from]; keep. Qed.
#[local] Hint Resolve keeps_run_accumulator keeps_forward : stamps.
Lemma keeps_run_node node : keeps P (run_node node).
Proof. unfold run_node, run_forwarder, forwarder_turn, forward_one, run_lane_scoped, end_lane. keep. Qed.
Lemma keeps_refresh node : keeps P (refresh_node node).
Proof. unfold refresh_node. keep. Qed.
Lemma keeps_settle node : keeps P (settle_limit node).
Proof. unfold settle_limit, protocol. keep. Qed.
#[local] Hint Resolve keeps_run_node keeps_refresh keeps_settle : stamps.
Lemma keeps_step : keeps P step.
Proof. unfold step, run_picked. keep. Qed.
#[local] Hint Resolve keeps_step : stamps.
Lemma keeps_loop fuel max : keeps P (drive_loop fuel max).
Proof. induction fuel; cbn [drive_loop]; unfold protocol; keep. Qed.
Lemma keeps_release : keeps P release_in_flight.
Proof. unfold release_in_flight, drain_lane, drain_one, d_release. keep. Qed.
#[local] Hint Resolve keeps_loop keeps_release : stamps.
Lemma keeps_run max : keeps P (run_to_end max).
Proof. unfold run_to_end, drive, seed, finish, assert_drained, protocol. keep. Qed.

Lemma journalled_fresh {A} (f : A -> nat) (l : list A) : journalled (map (fun x => replicate (f x) []) l) = [].
Proof.
  unfold journalled. replace (concat (concat _)) with (@nil AbiCalls); [done|].
  induction l as [|x l IH]; [done|]. cbn [map concat]. rewrite concat_app, <- IH, app_nil_r. by induction (f x).
Qed.

Lemma run_stamped root w budget_ look max r : run root w budget_ look max = Some (Ok r) -> stamped (report_log r).
Proof.
  unfold run. destruct (driver_new root w budget_ look) as [d|[]] eqn:Hnew; try done. unfold run_driver.
  intros Hr. assert (Hd : P d).
  { unfold driver_new in Hnew. inv_ok. pose proof (wire_keeps P ltac:(done) ltac:(done) (fresh root w budget_ look)) as Hk.
    destruct (wire_forwarders _) as [[u|err] d1]; [|done]. injection Hnew as <-. apply Hk.
    cbn. unfold stamped, keys_of. cbn [abi_calls fresh_log]. rewrite journalled_fresh. split; [constructor|by intros ?? ?%elem_of_nil]. }
  pose proof (keeps_run max d Hd) as Hk. destruct (run_to_end max d) as [[x|[]] d']; try done. by injection Hr as <-.
Qed.
End Stamps.

(** ** The join *)
Lemma if_bool_decide_iff {A} (P Q : Prop) `{Decision P, Decision Q} (x y : A) : (P <-> Q) ->
  (if bool_decide P then x else y) = (if bool_decide Q then x else y).
Proof. intros Hpq. by rewrite (bool_decide_ext P Q). Qed.

(** What the device recorded of one call, and what the call is billed. *)
Definition cost (regions : list Region) (key : Key) : Measured :=
  foldl add_assign measured_default (map of_region (List.filter (fun r => bool_decide (region_key r = key)) regions)).
Definition billed (regions : list Region) (call : AbiCall) : Measured := priced_call call (cost regions (call_key call)).
Definition bill (regions : list Region) (calls : list AbiCall) : Measured :=
  foldl add_assign measured_default (map (billed regions) calls).

Lemma cost_snoc regions r key : cost (regions ++ [r]) key
  = if bool_decide (region_key r = key) then add_assign (cost regions key) (of_region r) else cost regions key.
Proof.
  unfold cost. rewrite List.filter_app, map_app, foldl_app. cbn [List.filter]. by case_bool_decide.
Qed.

Lemma cost_absent regions key : key ∉ map region_key regions -> cost regions key = measured_default.
Proof.
  intros Hout. unfold cost. rewrite filterb_none; [done|]. intros r Hr. apply bool_decide_eq_false. intros Heq.
  apply Hout. rewrite <- Heq. apply elem_of_map. eauto.
Qed.

Lemma regions_lookup regions key :
  regions_by_call regions !! key = if bool_decide (key ∈ map region_key regions) then Some (cost regions key) else None.
Proof.
  induction regions as [|r regions IH] using rev_ind; [done|].
  assert (Hstep : regions_by_call (regions ++ [r]) = add_region (regions_by_call regions) r) by (unfold regions_by_call; by rewrite foldl_app).
  rewrite Hstep, cost_snoc, map_app. unfold add_region. destruct (decide (region_key r = key)) as [<-|Hne].
  - rewrite lookup_insert_eq, IH, (bool_decide_true (region_key r = _)) by done.
    rewrite (bool_decide_true (_ ∈ _ ++ _)) by (apply elem_of_app; right; apply list_elem_of_here).
    f_equal. f_equal. case_bool_decide; [done|]. by rewrite cost_absent.
  - rewrite lookup_insert_ne, IH, (bool_decide_false (region_key r = key)) by done. apply if_bool_decide_iff.
    rewrite elem_of_app. cbn [map]. rewrite list_elem_of_singleton. naive_solver.
Qed.

(** *** A walk that claims calls *)
Section Claims.
Context (regions : list Region).

(** What is unclaimed is what the device recorded for its key. *)
Definition holds_costs (s : Meter) : Prop := forall key m, unclaimed s !! key = Some m -> m = cost regions key.

Definition claimed_all (calls : list AbiCall) (held : gmap Key Measured) : gmap Key Measured :=
  foldl (fun held call => <[call_key call := billed regions call]> held) held calls.

Definition claimable (s : Meter) (calls : list AbiCall) : Prop :=
  NoDup (keys_of calls) /\ Forall (fun key => is_Some (unclaimed s !! key)) (keys_of calls).

(** [f] claims the calls of what it is given, and answers [out] of it; or it cannot, and errs. *)
Definition claims {A O} (f : A -> M Meter string O) (calls : A -> list AbiCall) (out : A -> O) : Prop :=
  forall x s, holds_costs s ->
    (claimable s (calls x) /\ exists s', f x s = (Ok (out x), s') /\ holds_costs s'
       /\ (forall key, is_Some (unclaimed s' !! key) <-> is_Some (unclaimed s !! key) /\ key ∉ keys_of (calls x))
       /\ claimed s' = claimed_all (calls x) (claimed s))
    \/ (~ claimable s (calls x) /\ exists e s', f x s = (Err e, s')).

Lemma claims_call : claims claim_call (fun call => [call]) (billed regions).
Proof.
  intros call s Hs. unfold claim_call, claimable. cbn. destruct (unclaimed s !! call_key call) as [m|] eqn:Hm.
  - left. split; [split; [apply NoDup_singleton|by constructor]|]. eexists. split; [unfold billed; by rewrite <- (Hs _ _ Hm)|].
    split_and!; cbn.
    + intros key m' Hl. cbn in Hl. apply lookup_delete_Some in Hl as [_ Hl]. by apply Hs.
    + intros key. rewrite list_elem_of_singleton. split.
      * intros [m' [Hne Hl]%lookup_delete_Some]. split; [by eexists|congruence].
      * intros [[m' Hl] Hne]. exists m'. by apply lookup_delete_Some.
    + unfold billed. by rewrite <- (Hs _ _ Hm).
  - right. split; [|by eexists _, _]. intros [_ Hall]. apply Forall_cons in Hall as [[m Hbad] _]. congruence.
Qed.

Lemma claimable_app s s' xs ys :
  (forall key, is_Some (unclaimed s' !! key) <-> is_Some (unclaimed s !! key) /\ key ∉ keys_of xs) ->
  claimable s xs -> claimable s' ys <-> claimable s (xs ++ ys).
Proof.
  intros Hs [Hnd Hall]. unfold claimable, keys_of. rewrite map_app, NoDup_app, !Forall_app, !Forall_forall. split.
  - intros [Hys Hin]. split_and!; auto; [|by apply Forall_forall|]; intros key Hk.
    + intros Hbad. apply Hin, Hs in Hbad as [_ Hbad]. done.
    + by apply Hin, Hs in Hk as [? _].
  - intros [(_ & Hdis & Hys) [_ Hin]]. split; [done|]. intros key Hk. apply Hs. split; [auto|]. intros Hbad. by eapply Hdis.
Qed.

Lemma M_run {S E A O} (m : M S E A) (k : A -> M S E O) s :
  (m ≫= k) s = match m s with (Ok x, s') => k x s' | (Err e, s') => (Err e, s') end.
Proof. reflexivity. Qed.

Lemma claims_mapM {A O} (f : A -> M Meter string O) calls out :
  claims f calls out -> claims (mapM f) (fun l => concat (map calls l)) (map out).
Proof.
  intros Hf l. induction l as [|x l IH]; intros s Hs.
  { left. split; [split; constructor|]. exists s. split_and!; try done. intros key. set_solver. }
  change (mapM f (x :: l)) with (y ← f x; ys ← mapM f l; mret (M:=M Meter string) (y :: ys)). cbn [map concat].
  rewrite M_run. destruct (Hf x s Hs) as [(Hc & s1 & -> & Hs1 & Hd1 & Hcl1)|(Hno & e & s1 & ->)].
  - pose proof (claimable_app _ _ _ (concat (map calls l)) Hd1 Hc) as Happ. rewrite M_run.
    destruct (IH s1 Hs1) as [(Hc2 & s2 & -> & Hs2 & Hd2 & Hcl2)|(Hno & e & s2 & ->)].
    + left. split; [by apply Happ|]. exists s2. split_and!; try done.
      * intros key. rewrite Hd2, Hd1. unfold keys_of. rewrite map_app. set_solver.
      * unfold claimed_all in *. by rewrite foldl_app, <- Hcl1.
    + right. split; [by rewrite <- Happ|]. by eexists _, _.
  - right. split; [|by eexists _, _]. intros [Hnd Hall]. apply Hno. unfold claimable, keys_of in *.
    rewrite map_app in Hnd, Hall. apply NoDup_app in Hnd as (? & _). by apply Forall_app in Hall as [? _].
Qed.

Lemma claims_calls : claims (mapM claim_call) (fun calls => calls) (map (billed regions)).
Proof.
  intros calls s Hs. pose proof (claims_mapM _ _ _ claims_call calls s Hs) as Hm. cbn beta in Hm.
  assert (Hone : concat (map (fun call : AbiCall => [call]) calls) = calls) by (clear; induction calls; cbn; congruence).
  by rewrite Hone in Hm.
Qed.

Lemma claims_entry : claims claim_entry (default []) (fmap (bill regions)).
Proof.
  intros [made|] s Hs.
  - unfold claim_entry. rewrite M_run. destruct (claims_calls made s Hs) as [(Hc & s' & -> & Hrest)|(Hno & e & s' & ->)].
    + left. split; [done|]. by exists s'.
    + right. split; [done|]. by eexists _, _.
  - left. split; [split; constructor|]. exists s. split_and!; try done. intros key. cbn. set_solver.
Qed.

Lemma claims_log : claims (mapM (mapM (mapM claim_entry))) journalled (map (map (map (fmap (bill regions))))).
Proof.
  intros log s Hs.
  replace (journalled log) with (concat (map (fun lanes_ => concat (map (fun entries => concat (map (default []) entries)) lanes_)) log)).
  - apply (claims_mapM _ _ _ (claims_mapM _ _ _ (claims_mapM _ _ _ claims_entry))). done.
  - unfold journalled. induction log as [|lanes_ log IH]; [done|]. cbn [map concat]. rewrite concat_app, map_app, concat_app. f_equal; [|exact IH].
    clear. induction lanes_ as [|es lanes_ IH]; [done|]. cbn [map concat]. rewrite map_app, concat_app. f_equal. exact IH.
Qed.
End Claims.

Section Joined.
Context {B : Backend}.

Lemma claimed_lookup regions calls held key : NoDup (keys_of calls) ->
  claimed_all regions calls held !! key
  = match List.find (fun call => bool_decide (call_key call = key)) calls with
    | Some call => Some (billed regions call)
    | None => held !! key
    end.
Proof.
  revert held. induction calls as [|call calls IH]; intros held Hnd; [done|]. apply NoDup_cons in Hnd as [Hout Hnd].
  unfold claimed_all. cbn [foldl List.find]. change (foldl _ ?h calls) with (claimed_all regions calls h). rewrite IH by done.
  destruct (List.find _ calls) as [c|] eqn:Hf; case_bool_decide as Hk; try done.
  - apply List.find_some in Hf as [Hin Hc%bool_decide_eq_true_1]. destruct Hout. rewrite Hk, <- Hc. apply elem_of_map.
    exists c. split; [done|]. by apply list_elem_of_In.
  - by rewrite <- Hk, lookup_insert_eq.
  - by rewrite lookup_insert_ne.
Qed.

(** C13: what a run journalled and what the device recorded join exactly where they name the same calls,
    whatever the backend: for a run that answers, the join succeeds if and only if every call it journalled
    has a region and every region a call (the driver's stamps having kept every call's key its own), and
    then each entry of the report is billed the sum of its calls, each call its own regions under its own
    output, and a call is found by its key. *)
Theorem measured_run_joins (root : GpuNode) (w : World) (budget_ : option N) (look : option OutputHook) (max : nat)
    (r : RunReport) (regions : list Region) :
  run root w budget_ look max = Some (Ok r) ->
  let log := abi_calls (report_log r) in
  let agree := forall key, key ∈ keys_of (journalled log) <-> key ∈ map region_key regions in
  match join_regions r regions with
  | Err _ => ~ agree
  | Ok times => agree /\ per_entry times = map (map (map (fmap (bill regions)))) log
      /\ forall call, call ∈ journalled log -> call_measured times (Executor.call_seq call) (call_index call) = Some (billed regions call)
  end.
Proof.
  intros Hr log agree. apply run_stamped in Hr as [Hnd _]. fold log in Hnd.
  assert (Hdom : forall key, is_Some (regions_by_call regions !! key) <-> key ∈ map region_key regions).
  { intros key. rewrite regions_lookup. by case_bool_decide; split. }
  set (s := {| unclaimed := regions_by_call regions; claimed := ∅ |}).
  assert (Hs : holds_costs regions s).
  { intros key m Hm. cbn in Hm. rewrite regions_lookup in Hm. case_bool_decide; [by injection Hm|done]. }
  unfold join_regions. fold log s. destruct (claims_log regions log s Hs) as [(Hc & s' & -> & _ & Hd & Hcl)|(Hno & e & s' & ->)].
  - cbn [mbind result_bind]. destruct (decide (unclaimed s' = ∅)) as [Hempty|Hleft].
    + rewrite bool_decide_true by done. cbn. split_and!; [|done|].
      * intros key. rewrite <- Hdom. destruct Hc as [_ Hall]. rewrite Forall_forall in Hall. split; [apply Hall|].
        intros Hin. destruct (decide (key ∈ keys_of (journalled log))) as [|Hout]; [done|].
        assert (Hbad : is_Some (unclaimed s' !! key)) by (by apply Hd). rewrite Hempty in Hbad. by destruct Hbad.
      * intros call Hin. unfold call_measured. cbn [per_call]. rewrite Hcl, (claimed_lookup _ _ _ _ Hnd).
        destruct (List.find _ _) as [c|] eqn:Hf.
        -- apply List.find_some in Hf as [Hinc Hk%bool_decide_eq_true_1]. apply list_elem_of_In in Hinc. f_equal. f_equal.
           apply list_elem_of_lookup in Hin as [i Hi], Hinc as [j Hj]. enough (i = j) by congruence.
           eapply NoDup_lookup; [exact Hnd|apply map_lookup_Some; eauto|]. apply map_lookup_Some. exists c. split; [done|]. by symmetry.
        -- apply list_elem_of_In, (List.find_none _ _ Hf), bool_decide_eq_false in Hin. done.
    + rewrite bool_decide_false by done. cbn. intros Hagree. apply map_choose in Hleft as (key & m & Hm).
      assert (Hin : is_Some (unclaimed s' !! key)) by eauto. apply Hd in Hin as [Hin Hout]. by apply Hout, Hagree, Hdom.
  - cbn. intros Hagree. apply Hno. split; [done|]. apply Forall_forall. intros key Hk. by apply Hdom, Hagree.
Qed.
End Joined.

(** The reference backend under a meter: every unload journals a call on its batch's producer. *)
Definition metered_call (rows : N) : AbiCall :=
  {| Executor.call_seq := 0; Executor.target := TBare ResultFromHandle; call_index := 0; in_rows := rows; in_bytes := 0;
     out_rows := rows; Executor.out_bytes := 8 * rows |}.
Definition metered : Backend := {|
  World := World (Backend:=reference); Batch_like := Batch_like (Backend:=reference); CpuBatch_like := CpuBatch_like (Backend:=reference);
  new_empty_batch := new_empty_batch (Backend:=reference);
  Source_executor := Source_executor (Backend:=reference); Exec_executor := Exec_executor (Backend:=reference);
  BatchAcc_executor := BatchAcc_executor (Backend:=reference); PartAcc_executor := PartAcc_executor (Backend:=reference);
  Emitter_executor := Emitter_executor (Backend:=reference); Join_executor := Join_executor (Backend:=reference);
  Probing_executor := Probing_executor (Backend:=reference); Unload_executor := Unload_executor (Backend:=reference);
  next_batch := next_batch (Backend:=reference); exec := exec (Backend:=reference);
  accumulate_and_fetch := accumulate_and_fetch (Backend:=reference); mark_done_and_fetch := mark_done_and_fetch (Backend:=reference);
  lane_event := lane_event (Backend:=reference); emit := emit (Backend:=reference); set_build := set_build (Backend:=reference);
  probe_and_fetch := probe_and_fetch (Backend:=reference); finish_and_fetch := finish_and_fetch (Backend:=reference);
  owes_nothing := owes_nothing (Backend:=reference);
  unload_batch w u b r :=
    let '(w, u, out) := unload_batch (Backend:=reference) w u b r in
    (w, u, match out with
           | Ok (out, stats) => Ok (out, {| scratch := scratch stats; Executor.calls := Some [metered_call (num_rows out)] |})
           | Err e => Err e
           end);
  executors_for := executors_for (Backend:=reference) |}.

Definition demo_region (partition : nat) (index host device : N) : Region :=
  {| r_seq := 0; r_partition := partition; r_call_index := index; Gpu.host_us := host; Gpu.device_us := device |}.

(** Two calls of one seq, the first of two regions: the seq's second call is its own key. *)
Lemma measured_run_joins_witness :
  exists r times, run (B:=metered) demo_join_plan tt None None 100 = Some (Ok r)
    /\ join_regions (H:=metered) r [demo_region 0 0 5 3; demo_region 0 1 7 4; demo_region 1 0 2 1] = Ok times
    /\ call_measured times 0 0 = Some {| m_host_us := 7; m_device_us := 4; m_out_rows := 4; m_out_bytes := 32; m_regions := 2 |}
    /\ ~ (forall key, key ∈ keys_of (journalled (abi_calls (report_log r))) <-> key ∈ map region_key [demo_region 0 0 5 3]).
Proof.
  eexists _, _. split; [vm_compute; reflexivity|]. split; [vm_compute; reflexivity|]. split; [vm_compute; reflexivity|].
  match goal with |- context [report_log ?r] =>
    exact (measured_run_joins (B:=metered) demo_join_plan tt None None 100 r [demo_region 0 0 5 3] ltac:(vm_compute; reflexivity)) end.
Defined.
