(* ===== verification/Logical.v ===== *)
(** * DataFusion's logical plan, as the planner's rewrite reads it

    The plan and the expressions [planner/not_in.rs] and the logical half of [planner/nullability.rs]
    walk, one constructor per kind they tell apart; what they ask DataFusion of a plan is the class
    [LogicalApi].  Then the analysis itself: which columns of a logical plan can be NULL, read off the
    parquet footers where a column traces to a scan. *)
From stdpp Require Import strings.
From S2P Require Import Prelude Interval PlanIR PlanCommon Physical ScanMeta TransCommon.
Open Scope nat_scope.

(** ** The plan *)
Record ColumnName := { cn_relation : option string; cn_name : string }.
#[export] Instance ColumnName_eq_dec : EqDecision ColumnName.
Proof. solve_decision. Defined.

(** [Column::from_name]. *)
Definition from_name (name : string) : ColumnName := {| cn_relation := None; cn_name := name |}.

(** A [DFSchema]: each field under the relation that qualifies it. *)
Definition DFSchema := list (option string * Field).
Definition columns_of (schema : DFSchema) : list ColumnName :=
  map (fun '(relation, f) => {| cn_relation := relation; cn_name := field_name f |}) schema.

Lemma columns_length s : length (columns_of s) = length s.
Proof. apply length_map. Qed.

Inductive LogicalExpr :=
| LColumn (c : ColumnName)
| LOuterReferenceColumn (outer_type : DataType) (c : ColumnName)
| LLiteral (value : ScalarValue)
| LAlias (e : LogicalExpr) (alias : string)
| LBinaryExpr (lhs : LogicalExpr) (op : Operator) (rhs : LogicalExpr)
| LNot (e : LogicalExpr)
| LIsNull (e : LogicalExpr)
| LIsNotNull (e : LogicalExpr)
| LInSubquery (e : LogicalExpr) (subquery : Subquery) (negated : bool)
| LExists (subquery : Subquery) (negated : bool)
| LScalarSubquery (subquery : Subquery)
| LOtherExpr (display : string) (args : list LogicalExpr)
with Subquery := Subquery_of (plan : LogicalPlan) (outer_ref_columns : list LogicalExpr)
with LogicalPlan :=
| LTableScan (table : string) (table_paths : option (list string)) (schema : DFSchema)
| LProjection (exprs : list LogicalExpr) (schema : DFSchema) (input : LogicalPlan)
| LFilter (predicate : LogicalExpr) (input : LogicalPlan)
| LSort (keys : list (LogicalExpr * (bool * bool))) (fetch : option N) (input : LogicalPlan)
| LLimit (skip : N) (fetch : option N) (input : LogicalPlan)
| LSubqueryAlias (alias : string) (schema : DFSchema) (input : LogicalPlan)
| LJoin (join_type : JoinType) (on : list (LogicalExpr * LogicalExpr)) (filter : option LogicalExpr)
    (null_equals_null : bool) (schema : DFSchema) (lhs rhs : LogicalPlan)
| LAggregate (group_expr : list LogicalExpr) (aggr_expr : list (string * list LogicalExpr))
    (schema : DFSchema) (input : LogicalPlan)
| LOtherPlan (kind : string) (schema : DFSchema) (exprs : list LogicalExpr) (inputs : list LogicalPlan).

Definition subquery_plan (s : Subquery) : LogicalPlan := let '(Subquery_of plan _) := s in plan.
Definition outer_ref_columns (s : Subquery) : list LogicalExpr := let '(Subquery_of _ refs) := s in refs.

(** [LogicalPlan::schema]. *)
Fixpoint df_schema (p : LogicalPlan) : DFSchema :=
  match p with
  | LTableScan _ _ s | LProjection _ s _ | LSubqueryAlias _ s _ | LJoin _ _ _ _ s _ _ | LAggregate _ _ s _
  | LOtherPlan _ s _ _ => s
  | LFilter _ i | LSort _ _ i | LLimit _ _ i => df_schema i
  end.
Definition columns (p : LogicalPlan) : list ColumnName := columns_of (df_schema p).

(** Expressions by their own parts, a subquery's plan left whole. *)
Section ExprInd.
Context (P : LogicalExpr -> Prop).
Context (Hcol : forall c, P (LColumn c)) (Houter : forall t c, P (LOuterReferenceColumn t c)) (Hlit : forall v, P (LLiteral v))
  (Halias : forall e a, P e -> P (LAlias e a)) (Hbin : forall l op r, P l -> P r -> P (LBinaryExpr l op r))
  (Hnot : forall e, P e -> P (LNot e)) (Hnull : forall e, P e -> P (LIsNull e)) (Hsome : forall e, P e -> P (LIsNotNull e))
  (Hin : forall e s n, P e -> P (LInSubquery e s n)) (Hex : forall s n, P (LExists s n))
  (Hsub : forall s, P (LScalarSubquery s)) (Hother : forall d args, Forall P args -> P (LOtherExpr d args)).

Fixpoint logical_expr_ind (e : LogicalExpr) : P e :=
  match e with
  | LColumn c => Hcol c
  | LOuterReferenceColumn t c => Houter t c
  | LLiteral v => Hlit v
  | LAlias e a => Halias e a (logical_expr_ind e)
  | LBinaryExpr l op r => Hbin l op r (logical_expr_ind l) (logical_expr_ind r)
  | LNot e => Hnot e (logical_expr_ind e)
  | LIsNull e => Hnull e (logical_expr_ind e)
  | LIsNotNull e => Hsome e (logical_expr_ind e)
  | LInSubquery e s n => Hin e s n (logical_expr_ind e)
  | LExists s n => Hex s n
  | LScalarSubquery s => Hsub s
  | LOtherExpr d args => Hother d args
      ((fix all (l : list LogicalExpr) : Forall P l :=
          match l with [] => Forall_nil_2 P | e :: l => Forall_cons_2 P e l (logical_expr_ind e) (all l) end) args)
  end.
End ExprInd.

(** What the rule asks of DataFusion's plan types. *)
Class LogicalApi := {
  (** [DFSchema::index_of_column], over the columns' qualified names *)
  index_of_column : list ColumnName -> ColumnName -> option nat;
  (** [DFSchema::has_column] *)
  has_column : list ColumnName -> ColumnName -> bool;
  (** [LogicalPlan::all_out_ref_exprs] *)
  all_out_ref_exprs : LogicalPlan -> list LogicalExpr;
  (** [Url::parse] and [to_file_path] of a table's URL *)
  local_file : string -> option string;
  (** [Filter::try_new], and the builder's [filter] and [aggregate] *)
  filter_plan : LogicalExpr -> LogicalPlan -> result string LogicalPlan;
  filtered : LogicalPlan -> LogicalExpr -> result string LogicalPlan;
  aggregated : LogicalPlan -> list LogicalExpr -> list (string * list LogicalExpr) -> result string LogicalPlan }.

(** ** Which columns can be NULL *)
Section Nullability.
Context `{DataFusion, LogicalApi}.

(** [any |= column_may_hold_null(..)?] over the files; [None] is a panic. *)
Fixpoint any_file (paths : list string) (name : string) (any : bool) : PlanResult (option bool) :=
  match paths with
  | [] => Ok (Some any)
  | url :: paths =>
      path ← ok_or (local_file url) (Unsupported ("not a local file: " +:+ url));
      held ← column_may_hold_null path name;
      match held with
      | None => Ok None
      | Some held => any_file paths name (any || held)
      end
  end.

Definition scan_column_may_hold_null (table_paths : option (list string)) (name : string) : PlanResult (option bool) :=
  paths ← ok_or table_paths (Unsupported "not a listing table");
  any_file paths name false.

(** Whether the join keeps a side's rows as they are: what it pads is nullable. *)
Definition preserved_side (jt : JoinType) (on_left : bool) : bool :=
  match jt with
  | Inner => true
  | Left | LeftSemi | LeftAnti | LeftMark => on_left
  | Right | RightSemi | RightAnti => negb on_left
  | Full => false
  end.

(** [None] is a panic: of a footer short of a chunk, or a projection short of an expression. *)
Fixpoint logical_can_be_null (plan : LogicalPlan) (column : ColumnName) : option bool :=
  match plan with
  | LTableScan _ paths _ =>
      match scan_column_may_hold_null paths (cn_name column) with Ok held => held | Err _ => Some true end
  | LProjection exprs schema input =>
      match index_of_column (columns_of schema) column with
      | None => Some true
      | Some i =>
          e ← exprs !! i;
          match e with
          | LColumn inner => logical_can_be_null input inner
          | LAlias (LColumn inner) _ => logical_can_be_null input inner
          | _ => Some true
          end
      end
  | LFilter _ input | LSort _ _ input | LLimit _ _ input => logical_can_be_null input column
  | LSubqueryAlias _ _ input => logical_can_be_null input (from_name (cn_name column))
  | LJoin jt _ _ _ _ lhs rhs =>
      match has_column (columns lhs) column, has_column (columns rhs) column with
      | true, false => if preserved_side jt true then logical_can_be_null lhs column else Some true
      | false, true => if preserved_side jt false then logical_can_be_null rhs column else Some true
      | _, _ => Some true
      end
  | _ => Some true
  end.

(** [sub.subquery.schema().columns()[0]]. *)
Definition first_column (s : Subquery) : option ColumnName := head (columns (subquery_plan s)).

Definition in_subquery_may_meet_null (x : LogicalExpr) (s : Subquery) (outer : LogicalPlan) : option bool :=
  x_may_be_null ← match x with LColumn column => logical_can_be_null outer column | _ => Some true end;
  y ← first_column s;
  if x_may_be_null : bool then Some true else logical_can_be_null (subquery_plan s) y.

(** [refuse_nullable_in_off_the_spine]: the first such [IN], in pre-order, refuses. *)
Fixpoint refuse_nullable_in_off_the_spine (outer : LogicalPlan) (e : LogicalExpr) : outcome () :=
  match e with
  | LInSubquery x s _ =>
      match in_subquery_may_meet_null x s outer with
      | None => Panicked
      | Some true => Refused (Invalid "an IN or NOT IN that can meet a NULL, read outside a WHERE's AND/OR spine, is refused (#250)")
      | Some false => refuse_nullable_in_off_the_spine outer x
      end
  | LColumn _ | LOuterReferenceColumn _ _ | LLiteral _ | LExists _ _ | LScalarSubquery _ => Good ()
  | LAlias e _ | LNot e | LIsNull e | LIsNotNull e => refuse_nullable_in_off_the_spine outer e
  | LBinaryExpr l _ r =>
      match refuse_nullable_in_off_the_spine outer l with Good () => refuse_nullable_in_off_the_spine outer r | stop => stop end
  | LOtherExpr _ args =>
      (fix all (l : list LogicalExpr) : outcome () :=
         match l with
         | [] => Good ()
         | e :: l => match refuse_nullable_in_off_the_spine outer e with Good () => all l | stop => stop end
         end) args
  end.
End Nullability.
