(* ===== verification/NotIn.v ===== *)
(** * [NOT IN] as SQL means it: the logical rewrite

    [planner/not_in.rs]: a filter's predicate in negation normal form, a [NOT IN] on its AND/OR spine
    that can meet a NULL rewritten, and one read off the spine refused.  The walk enters the plans that
    hang off expressions, on fuel ([rewrite_fuel]; NotInTotal.v: enough). *)
From stdpp Require Import strings.
From S2P Require Import Prelude Interval PlanIR PlanCommon Physical ScanMeta TransCommon Logical.
Open Scope nat_scope.

(** DataFusion's own refusals, by their text. *)
Definition refused {A} (r : result string A) : outcome A := written (map_err Invalid r).

(** ** Negation normal form, and whether it changed anything *)
Fixpoint negation_normal_form (e : LogicalExpr) (negated : bool) : LogicalExpr * bool :=
  match e with
  | LNot inner => ((negation_normal_form inner (negb negated)).1, true)
  | LBinaryExpr lhs ((OpAnd | OpOr) as op) rhs =>
      let l := negation_normal_form lhs negated in
      let r := negation_normal_form rhs negated in
      let op := match op, negated with OpAnd, true => OpOr | OpOr, true => OpAnd | op, _ => op end in
      (LBinaryExpr l.1 op r.1, negated || l.2 || r.2)
  | LInSubquery x s n => if negated then (LInSubquery x s (negb n), true) else (e, false)
  | LExists s n => if negated then (LExists s (negb n), true) else (e, false)
  | leaf => if negated then (LNot leaf, true) else (leaf, false)
  end.

Section Rule.
Context `{DataFusion, LogicalApi}.

(** ** One [NOT IN] *)

(** [to_outer_refs], over the expression's own parts: [transform] does not enter a subquery's plan. *)
Fixpoint to_outer_refs (outer : DFSchema) (x : LogicalExpr) : outcome LogicalExpr :=
  match x with
  | LColumn c =>
      match index_of_column (columns_of outer) c ≫= (fun i => outer !! i) with
      | Some (_, f) => Good (LOuterReferenceColumn (data_type f) c)
      | None => Refused (Invalid "No field named")
      end
  | LOuterReferenceColumn _ _ | LLiteral _ | LExists _ _ | LScalarSubquery _ => Good x
  | LAlias e a => e ← to_outer_refs outer e; Good (LAlias e a)
  | LBinaryExpr l op r => l ← to_outer_refs outer l; r ← to_outer_refs outer r; Good (LBinaryExpr l op r)
  | LNot e => e ← to_outer_refs outer e; Good (LNot e)
  | LIsNull e => e ← to_outer_refs outer e; Good (LIsNull e)
  | LIsNotNull e => e ← to_outer_refs outer e; Good (LIsNotNull e)
  | LInSubquery e s n => e ← to_outer_refs outer e; Good (LInSubquery e s n)
  | LOtherExpr d args => args ← map_outcome (to_outer_refs outer) args; Good (LOtherExpr d args)
  end.

Definition lit_i64 (z : Z) : LogicalExpr := LLiteral {| scalar_type := Int64; scalar_value := Some (DInt z) |}.
Definition lit_i32 (z : Z) : LogicalExpr := LLiteral {| scalar_type := Int32; scalar_value := Some (DInt z) |}.
Definition and_also (l r : LogicalExpr) : LogicalExpr := LBinaryExpr l OpAnd r.

Definition not_exists (condition : LogicalExpr) (s : LogicalPlan) : outcome LogicalExpr :=
  plan ← refused (filtered s condition);
  Good (LExists (Subquery_of plan (all_out_ref_exprs plan)) true).

(** [(SELECT count(1) FROM S)]. *)
Definition count_of (s : LogicalPlan) : outcome LogicalExpr :=
  plan ← refused (aggregated s [] [("count", [lit_i32 1])]);
  Good (LScalarSubquery (Subquery_of plan [])).

Definition rewrite_not_in (x : LogicalExpr) (sub : Subquery) (outer : LogicalPlan) : outcome LogicalExpr :=
  y ← expected (first_column sub);
  let y := LColumn y in
  let s := subquery_plan sub in
  outer_x ← to_outer_refs (df_schema outer) x;
  if bool_decide (outer_ref_columns sub = []) then
    unequal ← not_exists (LBinaryExpr y OpEq outer_x) s;
    nulls ← refused (filtered s (LIsNull y));
    null_count ← count_of nulls;
    count ← count_of s;
    Good (and_also (and_also unequal (LBinaryExpr null_count OpEq (lit_i64 0)))
            (LBinaryExpr (LIsNotNull x) OpOr (LBinaryExpr count OpEq (lit_i64 0))))
  else
    unequal ← not_exists (LBinaryExpr y OpEq outer_x) s;
    no_null ← not_exists (LIsNull y) s;
    no_null_x ← not_exists (LIsNull outer_x) s;
    Good (and_also (and_also unequal no_null) no_null_x).

(** ** The spine of a filter's predicate *)
Fixpoint spine (e : LogicalExpr) (outer : LogicalPlan) : outcome (LogicalExpr * bool) :=
  match e with
  | LBinaryExpr lhs ((OpAnd | OpOr) as op) rhs =>
      l ← spine lhs outer; r ← spine rhs outer; Good (LBinaryExpr l.1 op r.1, l.2 || r.2)
  | LInSubquery x s true =>
      meets ← expected (in_subquery_may_meet_null x s outer);
      if meets : bool then rewritten ← rewrite_not_in x s outer; Good (rewritten, true) else Good (e, false)
  | LInSubquery _ _ false => Good (e, false)
  | other => refuse_nullable_in_off_the_spine outer other ≫= fun _ => Good (other, false)
  end.

(** ** The walk *)
Definition rewrite_filter (predicate : LogicalExpr) (input : LogicalPlan) : outcome LogicalPlan :=
  let normalized := negation_normal_form predicate false in
  rewritten ← spine normalized.1 input;
  if negb normalized.2 && negb rewritten.2 then Good (LFilter predicate input)
  else refused (filter_plan rewritten.1 input).

Definition rewrite_node (p : LogicalPlan) : outcome LogicalPlan :=
  match p with LFilter predicate input => rewrite_filter predicate input | other => Good other end.

(** [map_subqueries] on an expression: each plan hanging off it. *)
Section Walk.
Context (f : LogicalPlan -> outcome LogicalPlan).

Definition map_subquery (s : Subquery) : outcome Subquery :=
  plan ← f (subquery_plan s); Good (Subquery_of plan (outer_ref_columns s)).

Fixpoint map_subqueries (e : LogicalExpr) : outcome LogicalExpr :=
  match e with
  | LColumn _ | LOuterReferenceColumn _ _ | LLiteral _ => Good e
  | LAlias e a => e ← map_subqueries e; Good (LAlias e a)
  | LBinaryExpr l op r => l ← map_subqueries l; r ← map_subqueries r; Good (LBinaryExpr l op r)
  | LNot e => e ← map_subqueries e; Good (LNot e)
  | LIsNull e => e ← map_subqueries e; Good (LIsNull e)
  | LIsNotNull e => e ← map_subqueries e; Good (LIsNotNull e)
  | LInSubquery e s n => s ← map_subquery s; e ← map_subqueries e; Good (LInSubquery e s n)
  | LExists s n => s ← map_subquery s; Good (LExists s n)
  | LScalarSubquery s => s ← map_subquery s; Good (LScalarSubquery s)
  | LOtherExpr d args => args ← map_outcome map_subqueries args; Good (LOtherExpr d args)
  end.

(** A node's subqueries, then its inputs. *)
Definition map_parts (p : LogicalPlan) : outcome LogicalPlan :=
  match p with
  | LTableScan _ _ _ => Good p
  | LProjection exprs s i => exprs ← map_outcome map_subqueries exprs; i ← f i; Good (LProjection exprs s i)
  | LFilter e i => e ← map_subqueries e; i ← f i; Good (LFilter e i)
  | LSort keys fetch i =>
      keys ← map_outcome (fun key => e ← map_subqueries key.1; Good (e, key.2)) keys; i ← f i; Good (LSort keys fetch i)
  | LLimit skip fetch i => i ← f i; Good (LLimit skip fetch i)
  | LSubqueryAlias a s i => i ← f i; Good (LSubqueryAlias a s i)
  | LJoin jt on filter nulls s l r =>
      on ← map_outcome (fun pair_ => a ← map_subqueries pair_.1; b ← map_subqueries pair_.2; Good (a, b)) on;
      filter ← match filter with Some e => e ← map_subqueries e; Good (Some e) | None => Good None end;
      l ← f l; r ← f r; Good (LJoin jt on filter nulls s l r)
  | LAggregate groups aggs s i =>
      groups ← map_outcome map_subqueries groups;
      aggs ← map_outcome (fun agg => args ← map_outcome map_subqueries agg.2; Good (agg.1, args)) aggs;
      i ← f i; Good (LAggregate groups aggs s i)
  | LOtherPlan k s exprs inputs =>
      exprs ← map_outcome map_subqueries exprs; inputs ← map_outcome f inputs; Good (LOtherPlan k s exprs inputs)
  end.
End Walk.

(** [transform_down_with_subqueries]. *)
Fixpoint rewrite_from (fuel : nat) (p : LogicalPlan) : outcome LogicalPlan :=
  match fuel with
  | 0 => OutOfFuel
  | S fuel => p ← rewrite_node p; map_parts (rewrite_from fuel) p
  end.
End Rule.

(** Enough: a [NOT IN] becomes subqueries two plans deeper than its own. *)
Fixpoint expr_fuel (e : LogicalExpr) : nat :=
  match e with
  | LColumn _ | LOuterReferenceColumn _ _ | LLiteral _ => 0
  | LAlias e _ | LNot e | LIsNull e | LIsNotNull e => expr_fuel e
  | LBinaryExpr l _ r => Nat.max (expr_fuel l) (expr_fuel r)
  | LInSubquery e s _ => 2 + Nat.max (expr_fuel e) (subquery_fuel s)
  | LExists s _ | LScalarSubquery s => subquery_fuel s
  | LOtherExpr _ args => list_max (map expr_fuel args)
  end
with subquery_fuel (s : Subquery) : nat := match s with Subquery_of p _ => rewrite_fuel p end
with rewrite_fuel (p : LogicalPlan) : nat :=
  S match p with
    | LTableScan _ _ _ => 0
    | LProjection es _ i => Nat.max (list_max (map expr_fuel es)) (rewrite_fuel i)
    | LFilter e i => Nat.max (expr_fuel e) (rewrite_fuel i)
    | LSort keys _ i => Nat.max (list_max (map (fun key => expr_fuel key.1) keys)) (rewrite_fuel i)
    | LLimit _ _ i | LSubqueryAlias _ _ i => rewrite_fuel i
    | LJoin _ on filter _ _ l r =>
        Nat.max (list_max (map (fun pair_ => Nat.max (expr_fuel pair_.1) (expr_fuel pair_.2)) on))
          (Nat.max (match filter with Some e => expr_fuel e | None => 0 end) (Nat.max (rewrite_fuel l) (rewrite_fuel r)))
    | LAggregate groups aggs _ i =>
        Nat.max (list_max (map expr_fuel groups))
          (Nat.max (list_max (map (fun agg => list_max (map expr_fuel agg.2)) aggs)) (rewrite_fuel i))
    | LOtherPlan _ _ es inputs => Nat.max (list_max (map expr_fuel es)) (list_max (map rewrite_fuel inputs))
    end.

(** [NullAwareNotIn::rewrite]. *)
Definition null_aware_not_in `{DataFusion, LogicalApi} (p : LogicalPlan) : outcome LogicalPlan :=
  rewrite_from (rewrite_fuel p) p.

(** [build_session_state]: the rule goes in ahead of the one that decorrelates; [None] is the [expect]. *)
Definition DECORRELATE : string := "decorrelate_predicate_subquery".
Definition NULL_AWARE_NOT_IN : string := "null_aware_not_in".
Definition session_rules (rules : list string) : option (list string) :=
  at_ ← position (fun rule => bool_decide (rule = DECORRELATE)) rules;
  Some (take at_ rules ++ NULL_AWARE_NOT_IN :: drop at_ rules).
