(* ===== verification/LogicalSql.v ===== *)
(** * What a logical plan answers

    SQL's answer to a logical plan, in three-valued logic, and the answer of the joins DataFusion
    decorrelates its subqueries into: those differ in an [IN] alone, which a semi, anti or mark join
    answers true or false and never NULL.  Scans, functions, sorts and aggregates are the parameters [Sql],
    with what is relied on of them [SqlLaws]; the joins are JoinFacts.v's nine.  [plan_well_made] is what
    DataFusion holds of the plans it hands the rule. *)
From stdpp Require Import strings.
From S2P Require Import Prelude Interval PlanIR PlanCommon Claims Joins JoinFacts Physical ScanMeta TransCommon Logical.
Open Scope nat_scope.

(** ** Three-valued logic *)
Definition and3 (a b : option bool) : option bool :=
  match a, b with Some false, _ | _, Some false => Some false | Some true, Some true => Some true | _, _ => None end.
Definition or3 (a b : option bool) : option bool :=
  match a, b with Some true, _ | _, Some true => Some true | Some false, Some false => Some false | _, _ => None end.
Definition not3 (a : option bool) : option bool := negb <$> a.
Definition is_true (a : option bool) : bool := match a with Some true => true | _ => false end.

Lemma is_true_and a b : is_true (and3 a b) = is_true a && is_true b.
Proof. by destruct a as [[]|], b as [[]|]. Qed.
Lemma is_true_or a b : is_true (or3 a b) = is_true a || is_true b.
Proof. by destruct a as [[]|], b as [[]|]. Qed.
Lemma not3_and a b : not3 (and3 a b) = or3 (not3 a) (not3 b).
Proof. by destruct a as [[]|], b as [[]|]. Qed.
Lemma not3_or a b : not3 (or3 a b) = and3 (not3 a) (not3 b).
Proof. by destruct a as [[]|], b as [[]|]. Qed.
Lemma not3_not3 a : not3 (not3 a) = a.
Proof. by destruct a as [[]|]. Qed.

(** ** The cells and the operations that are not the rule's *)
Class Sql := {
  Cell : Type;
  truth : Cell -> bool;
  of_bool : bool -> Cell;
  of_int : Z -> Cell;
  (** [None] is the NULL *)
  literal : ScalarValue -> option Cell;
  cell_eq : Cell -> Cell -> bool;
  operate : Operator -> option Cell -> option Cell -> option Cell;
  apply_function : string -> list (option Cell) -> option Cell;
  (** the rows a scan reads, under the columns it declares *)
  table_rows : string -> option (list string) -> DFSchema -> list (list (option Cell));
  sorted : list (bool * bool) -> list (list (option Cell) * list (option Cell)) -> list (list (option Cell));
  (** the groups' rows: how many keys, the functions, each row's keys and arguments *)
  grouped : nat -> list string -> list (list (option Cell) * list (list (option Cell))) -> list (list (option Cell));
  (** any other node: what its expressions are over no row, and each input's rows under them *)
  other_rows : string -> DFSchema -> list (option Cell) ->
    list (list (list (option Cell) * list (option Cell))) -> list (list (option Cell)) }.

Section Semantics.
Context `{LogicalApi, Sql}.
Notation Val := (option Cell).
Notation Row := (list Val).
(** A row and the columns it is read by; the rows of the enclosing queries, the innermost first. *)
Notation Scope := (list ColumnName * Row)%type.

Definition truth3 (v : Val) : option bool := truth <$> v.
Definition bool_val (b : option bool) : Val := of_bool <$> b.

Definition eq3 (a b : Val) : option bool :=
  match a, b with Some a, Some b => Some (cell_eq a b) | _, _ => None end.

Definition read_column (scope : Scope) (c : ColumnName) : Val := mjoin (index_of_column scope.1 c ≫= fun i => scope.2 !! i).
Fixpoint read_outer (env : list Scope) (c : ColumnName) : Val :=
  match env with
  | [] => None
  | scope :: env =>
      match index_of_column scope.1 c with Some i => mjoin (scope.2 !! i) | None => read_outer env c end
  end.

(** [x IN ys] as SQL has it, and as a semi or mark join answers it. *)
Definition in_sql (x : Val) (ys : list Val) : option bool := foldr (fun y acc => or3 (eq3 y x) acc) (Some false) ys.
Definition in_join (x : Val) (ys : list Val) : option bool := Some (existsb (fun y => is_true (eq3 y x)) ys).
Definition negated_if (n : bool) (b : option bool) : option bool := if n then not3 b else b.

Definition is_empty {A} (l : list A) : bool := match l with [] => true | _ => false end.
Definition cut {A} (skip : N) (fetch : option N) (l : list A) : list A :=
  let l := drop (N.to_nat skip) l in match fetch with Some f => take (N.to_nat f) l | None => l end.

Definition keys_match (nulls_equal : bool) (a b : Val) : bool :=
  match a, b with Some a, Some b => cell_eq a b | None, None => nulls_equal | _, _ => false end.

(** What any other node's expressions are read by: its one input's columns. *)
Definition other_columns (inputs : list LogicalPlan) : list ColumnName :=
  match inputs with [i] => columns i | _ => [] end.

(** [sql] tells SQL's answer from the joins'. *)
Fixpoint value (sql : bool) (e : LogicalExpr) (scope : Scope) (env : list Scope) : Val :=
  match e with
  | LColumn c => read_column scope c
  | LOuterReferenceColumn _ c => read_outer env c
  | LLiteral v => literal v
  | LAlias e _ => value sql e scope env
  | LBinaryExpr l op r =>
      let a := value sql l scope env in
      let b := value sql r scope env in
      match op with
      | OpAnd => bool_val (and3 (truth3 a) (truth3 b))
      | OpOr => bool_val (or3 (truth3 a) (truth3 b))
      | OpEq => bool_val (eq3 a b)
      | op => operate op a b
      end
  | LNot e => bool_val (not3 (truth3 (value sql e scope env)))
  | LIsNull e => Some (of_bool (negb (bool_decide (is_Some (value sql e scope env)))))
  | LIsNotNull e => Some (of_bool (bool_decide (is_Some (value sql e scope env))))
  | LInSubquery x s n =>
      let ys := map (fun r => mjoin (head r)) (subquery_rows sql s (scope :: env)) in
      bool_val (negated_if n (if sql then in_sql (value sql x scope env) ys else in_join (value sql x scope env) ys))
  | LExists s n => Some (of_bool (xorb n (negb (is_empty (subquery_rows sql s (scope :: env))))))
  | LScalarSubquery s => mjoin (head (subquery_rows sql s (scope :: env)) ≫= head)
  | LOtherExpr d args => apply_function d (map (fun e => value sql e scope env) args)
  end
with subquery_rows (sql : bool) (s : Subquery) (env : list Scope) : list Row :=
  match s with Subquery_of p _ => plan_rows sql p env end
with plan_rows (sql : bool) (p : LogicalPlan) (env : list Scope) : list Row :=
  match p with
  | LTableScan t paths s => table_rows t paths s
  | LProjection es _ i => map (fun r => map (fun e => value sql e (columns i, r) env) es) (plan_rows sql i env)
  | LFilter e i => List.filter (fun r => is_true (truth3 (value sql e (columns i, r) env))) (plan_rows sql i env)
  | LSort keys fetch i =>
      cut 0 fetch (sorted (map snd keys)
        (map (fun r => (map (fun key => value sql key.1 (columns i, r) env) keys, r)) (plan_rows sql i env)))
  | LLimit skip fetch i => cut skip fetch (plan_rows sql i env)
  | LSubqueryAlias _ _ i => plan_rows sql i env
  | LJoin jt on filter nulls s l r =>
      joined None (fun b => Some (of_bool b))
        (fun a b => forallb (fun pair_ => keys_match nulls (value sql pair_.1 (columns l, a) env)
                                            (value sql pair_.2 (columns r, b) env)) on
           && match filter with
              | Some e => is_true (truth3 (value sql e (columns l ++ columns r, a ++ b) env))
              | None => true
              end)
        (length (columns l)) (length (columns r)) jt (plan_rows sql l env) (plan_rows sql r env)
  | LAggregate groups aggs _ i =>
      grouped (length groups) (map fst aggs)
        (map (fun r => (map (fun e => value sql e (columns i, r) env) groups,
                        map (fun agg => map (fun e => value sql e (columns i, r) env) agg.2) aggs)) (plan_rows sql i env))
  | LOtherPlan k s es inputs =>
      other_rows k s (map (fun e => value sql e ([], []) env) es)
        (map (fun i => map (fun r => (map (fun e => value sql e (other_columns inputs, r) env) es, r)) (plan_rows sql i env)) inputs)
  end.

(** *** A plan's rows from its inputs' *)
Definition join_matches (sql : bool) (on : list (LogicalExpr * LogicalExpr)) (filter : option LogicalExpr) (nulls : bool)
    (l r : list ColumnName) (env : list Scope) (a b : Row) : bool :=
  forallb (fun pair_ => keys_match nulls (value sql pair_.1 (l, a) env) (value sql pair_.2 (r, b) env)) on
  && match filter with Some e => is_true (truth3 (value sql e (l ++ r, a ++ b) env)) | None => true end.

Lemma rows_projection sql es s i env : plan_rows sql (LProjection es s i) env
  = map (fun r => map (fun e => value sql e (columns i, r) env) es) (plan_rows sql i env).
Proof. reflexivity. Qed.
Lemma rows_filter sql e i env : plan_rows sql (LFilter e i) env
  = List.filter (fun r => is_true (truth3 (value sql e (columns i, r) env))) (plan_rows sql i env).
Proof. reflexivity. Qed.
Lemma rows_sort sql keys fetch i env : plan_rows sql (LSort keys fetch i) env
  = cut 0 fetch (sorted (map snd keys)
      (map (fun r => (map (fun key => value sql key.1 (columns i, r) env) keys, r)) (plan_rows sql i env))).
Proof. reflexivity. Qed.
Lemma rows_join sql jt on filter nulls s l r env : plan_rows sql (LJoin jt on filter nulls s l r) env
  = joined None (fun b => Some (of_bool b)) (join_matches sql on filter nulls (columns l) (columns r) env)
      (length (columns l)) (length (columns r)) jt (plan_rows sql l env) (plan_rows sql r env).
Proof. reflexivity. Qed.
Lemma rows_aggregate sql groups aggs s i env : plan_rows sql (LAggregate groups aggs s i) env
  = grouped (length groups) (map fst aggs)
      (map (fun r => (map (fun e => value sql e (columns i, r) env) groups,
                      map (fun agg => map (fun e => value sql e (columns i, r) env) agg.2) aggs)) (plan_rows sql i env)).
Proof. reflexivity. Qed.
Lemma rows_other sql k s es inputs env :
  plan_rows sql (LOtherPlan k s es inputs) env
  = other_rows k s (map (fun e => value sql e ([], []) env) es)
      (map (fun rows => map (fun r => (map (fun e => value sql e (other_columns inputs, r) env) es, r)) rows)
         (map (fun i => plan_rows sql i env) inputs)).
Proof. by rewrite map_map. Qed.
(** *** An expression's value from its parts' *)
Definition in_value (sql : bool) (x : Val) (ys : list Val) : option bool := if sql then in_sql x ys else in_join x ys.
Definition first_cells (rows : list Row) : list Val := map (fun r => mjoin (head r)) rows.

Lemma value_binary sql l op r scope env : value sql (LBinaryExpr l op r) scope env =
  let a := value sql l scope env in
  let b := value sql r scope env in
  match op with
  | OpAnd => bool_val (and3 (truth3 a) (truth3 b))
  | OpOr => bool_val (or3 (truth3 a) (truth3 b))
  | OpEq => bool_val (eq3 a b)
  | op => operate op a b
  end.
Proof. reflexivity. Qed.
Lemma value_not sql e scope env : value sql (LNot e) scope env = bool_val (not3 (truth3 (value sql e scope env))).
Proof. reflexivity. Qed.
Lemma value_is_null sql e scope env :
  value sql (LIsNull e) scope env = Some (of_bool (negb (bool_decide (is_Some (value sql e scope env))))).
Proof. reflexivity. Qed.
Lemma value_is_not_null sql e scope env :
  value sql (LIsNotNull e) scope env = Some (of_bool (bool_decide (is_Some (value sql e scope env)))).
Proof. reflexivity. Qed.
Lemma value_in sql x s n scope env : value sql (LInSubquery x s n) scope env
  = bool_val (negated_if n (in_value sql (value sql x scope env) (first_cells (plan_rows sql (subquery_plan s) (scope :: env))))).
Proof. destruct s, sql; reflexivity. Qed.
Lemma value_exists sql s n scope env : value sql (LExists s n) scope env
  = Some (of_bool (xorb n (negb (is_empty (plan_rows sql (subquery_plan s) (scope :: env)))))).
Proof. destruct s; reflexivity. Qed.
Lemma value_scalar sql s scope env :
  value sql (LScalarSubquery s) scope env = mjoin (head (plan_rows sql (subquery_plan s) (scope :: env)) ≫= head).
Proof. destruct s; reflexivity. Qed.
Lemma value_other sql d args scope env :
  value sql (LOtherExpr d args) scope env = apply_function d (map (fun e => value sql e scope env) args).
Proof. reflexivity. Qed.
#[global] Arguments plan_rows : simpl never.
#[global] Arguments value : simpl never.
#[global] Arguments subquery_rows : simpl never.

(** ** What is relied on *)
Class SqlLaws `{DataFusion} := {
  truth_of_bool : forall b, truth (of_bool b) = b;
  int_eq : forall a b, cell_eq (of_int a) (of_int b) = (a =? b)%Z;
  int_literal : forall z, literal {| scalar_type := Int64; scalar_value := Some (DInt z) |} = Some (of_int z);
  small_literal : forall z, is_Some (literal {| scalar_type := Int32; scalar_value := Some (DInt z) |});
  (** a scan's rows are as wide as it declares, and a footer that counts no NULL is right *)
  table_width : forall t paths s r, r ∈ table_rows t paths s -> length r = length s;
  footers_hold : forall t paths s c i r, scan_column_may_hold_null paths (cn_name c) = Ok (Some false) ->
    index_of_column (columns_of s) c = Some i -> r ∈ table_rows t paths s -> exists v, r !! i = Some (Some v);
  sorted_permutes : forall ks l, sorted ks l ≡ₚ map snd l;
  grouped_width : forall g fs l r, r ∈ grouped g fs l -> length r = g + length fs;
  (** a count over every row is one row, of how many have an argument *)
  counted : forall l, Forall (fun row => exists v, row.2 = [[Some v]]) l -> grouped 0 ["count"] l = [[Some (of_int (Z.of_nat (length l)))]];
  other_width : forall k s es inputs r, r ∈ other_rows k s es inputs -> length r = length s;
  (** a column is found by its qualified name: the first, the left side's before the right's, and by its
      bare name where every field is of one relation *)
  first_found : forall c cs, index_of_column (c :: cs) c = Some 0;
  found_in_range : forall cs c i, index_of_column cs c = Some i -> i < length cs;
  found_in_side : forall l r c i, index_of_column (l ++ r) c = Some i ->
    index_of_column l c = Some i \/ (index_of_column l c = None /\ exists j, index_of_column r c = Some j /\ i = length l + j);
  has_found : forall cs c, has_column cs c = true <-> is_Some (index_of_column cs c);
  found_by_name : forall alias (ours theirs : list ColumnName) c i,
    (forall o, o ∈ ours -> cn_relation o = Some alias) -> map cn_name ours = map cn_name theirs ->
    index_of_column ours c = Some i -> index_of_column theirs (from_name (cn_name c)) = Some i;
  (** the builders build the node they are named for, over the input they are given *)
  filter_builds : forall e p q, filter_plan e p = Ok q -> q = LFilter e p;
  filtered_builds : forall p e q, filtered p e = Ok q -> q = LFilter e p;
  aggregated_builds : forall p gs fs q, aggregated p gs fs = Ok q ->
    exists s, q = LAggregate gs fs s p /\ length s = length gs + length fs }.

(** ** The plans DataFusion makes *)

(** No [IN] outside the plans that hang off it: DataFusion decorrelates one in a filter alone. *)
Fixpoint in_free (e : LogicalExpr) : bool :=
  match e with
  | LInSubquery _ _ _ => false
  | LAlias e _ | LNot e | LIsNull e | LIsNotNull e => in_free e
  | LBinaryExpr l _ r => in_free l && in_free r
  | LOtherExpr _ args => forallb in_free args
  | _ => true
  end.

(** The left side of an [IN]: no subquery, and no outer reference a column of the filter's input hides. *)
Fixpoint operand_ok (cs : list ColumnName) (e : LogicalExpr) : bool :=
  match e with
  | LColumn _ | LLiteral _ => true
  | LOuterReferenceColumn _ c => negb (bool_decide (is_Some (index_of_column cs c)))
  | LAlias e _ | LNot e | LIsNull e | LIsNotNull e => operand_ok cs e
  | LBinaryExpr l _ r => operand_ok cs l && operand_ok cs r
  | LOtherExpr _ args => forallb (operand_ok cs) args
  | LInSubquery _ _ _ | LExists _ _ | LScalarSubquery _ => false
  end.

Definition one_relation (alias : string) (cs : list ColumnName) : bool :=
  forallb (fun c => bool_decide (cn_relation c = Some alias)) cs.

Definition join_columns (jt : JoinType) (l r : list ColumnName) (marked : list ColumnName) : list ColumnName :=
  match jt with
  | Inner | Left | Right | Full => l ++ r
  | LeftSemi | LeftAnti => l
  | LeftMark => l ++ drop (length l) marked
  | RightSemi | RightAnti => r
  end.

Fixpoint expr_ok (cs : list ColumnName) (e : LogicalExpr) : bool :=
  match e with
  | LColumn c => bool_decide (is_Some (index_of_column cs c))
  | LOuterReferenceColumn _ _ | LLiteral _ => true
  | LAlias e _ | LNot e | LIsNull e | LIsNotNull e => expr_ok cs e
  | LBinaryExpr l _ r => expr_ok cs l && expr_ok cs r
  | LInSubquery x s _ => expr_ok cs x && operand_ok cs x && subquery_ok s && (length (columns (subquery_plan s)) =? 1)
  | LExists s _ => subquery_ok s
  | LScalarSubquery s => subquery_ok s
  | LOtherExpr _ args => forallb (expr_ok cs) args
  end
with subquery_ok (s : Subquery) : bool := match s with Subquery_of p _ => plan_well_made p end
with plan_well_made (p : LogicalPlan) : bool :=
  match p with
  | LTableScan _ _ _ => true
  | LProjection es s i =>
      forallb (fun e => expr_ok (columns i) e && in_free e) es && (length es =? length s) && plan_well_made i
  | LFilter e i => expr_ok (columns i) e && plan_well_made i
  | LSort keys _ i => forallb (fun key => expr_ok (columns i) key.1 && in_free key.1) keys && plan_well_made i
  | LLimit _ _ i => plan_well_made i
  | LSubqueryAlias a s i =>
      one_relation a (columns_of s) && bool_decide (map cn_name (columns_of s) = map cn_name (columns i)) && plan_well_made i
  | LJoin jt on filter _ s l r =>
      forallb (fun pair_ => expr_ok (columns l) pair_.1 && in_free pair_.1 && expr_ok (columns r) pair_.2 && in_free pair_.2) on
      && match filter with Some e => expr_ok (columns l ++ columns r) e && in_free e | None => true end
      && bool_decide (columns_of s = join_columns jt (columns l) (columns r) (columns_of s))
      && (match jt with LeftMark => length s =? S (length (columns l)) | _ => true end)
      && plan_well_made l && plan_well_made r
  | LAggregate groups aggs s i =>
      forallb (fun e => expr_ok (columns i) e && in_free e) groups
      && forallb (fun agg => forallb (fun e => expr_ok (columns i) e && in_free e) agg.2) aggs
      && (length s =? length groups + length aggs) && plan_well_made i
  | LOtherPlan _ _ es inputs =>
      forallb (fun e => expr_ok (other_columns inputs) e && in_free e) es && forallb plan_well_made inputs
  end.
End Semantics.
