(* ===== verification/LogicalSamples.v ===== *)
(** * An engine and two tables the rewrite's witness runs on

    Columns found by their qualified names, builders that build, and tables of one column: the two a URL
    backs hold no NULL, and one no footer describes holds one. *)
From stdpp Require Import strings.
From S2P Require Import Prelude Interval PlanIR PlanCommon Physical ScanMeta TransCommon TransSamples Logical LogicalSql.
Open Scope nat_scope.

(** A column by its name, and by its relation where it has one. *)
Definition same_column (c o : ColumnName) : Prop :=
  cn_name o = cn_name c /\ (cn_relation c = None \/ cn_relation o = cn_relation c).
#[export] Instance same_column_dec c o : Decision (same_column c o).
Proof. unfold same_column. apply _. Defined.
Definition demo_index (cs : list ColumnName) (c : ColumnName) : option nat := fst <$> list_find (same_column c) cs.

Definition demo_group (n : nat) : DFSchema :=
  replicate n (None, {| field_name := "count"; data_type := Int64; nullable := false |}).

#[export] Instance demo_api : LogicalApi := {|
  index_of_column := demo_index; has_column := fun cs c => bool_decide (is_Some (demo_index cs c));
  all_out_ref_exprs := fun _ => []; local_file := Some;
  filter_plan := fun e p => Ok (LFilter e p); filtered := fun p e => Ok (LFilter e p);
  aggregated := fun p gs fs => Ok (LAggregate gs fs (demo_group (length gs + length fs)) p) |}.

(** Functions and arithmetic are not the samples': they answer NULL. *)
#[export] Instance demo_sql : Sql := {|
  Cell := Z; truth := fun v => negb (v =? 0)%Z; of_bool := fun b : bool => if b then 1%Z else 0%Z; of_int := fun z => z;
  literal := fun v => match scalar_value v with Some (DInt z) => Some z | _ => None end;
  cell_eq := Z.eqb; operate := fun _ _ _ => None; apply_function := fun _ _ => None;
  table_rows := fun _ paths s =>
    match paths with
    | Some _ => [replicate (length s) (Some 1%Z); replicate (length s) (Some 2%Z)]
    | None => [replicate (length s) (Some 1%Z); replicate (length s) None]
    end;
  sorted := fun _ l => map snd l;
  grouped := fun g fs l =>
    if decide (g = 0 /\ fs = ["count"])
    then [[Some (Z.of_nat (length (List.filter (fun row => forallb (forallb (fun v => bool_decide (is_Some v))) row.2) l)))]] else [];
  other_rows := fun _ _ _ _ => [] |}.

#[local] Existing Instance demo_session.

Lemma demo_found c cs i : demo_index cs c = Some i <->
  exists o, cs !! i = Some o /\ same_column c o /\ forall j o', cs !! j = Some o' -> j < i -> ~ same_column c o'.
Proof.
  unfold demo_index. rewrite fmap_Some. split.
  - intros ([j o] & Hf & ->). apply list_find_Some in Hf as (? & ? & ?). eauto.
  - intros (o & H1 & H2 & H3). exists (i, o). split; [|done]. by apply list_find_Some.
Qed.

#[export] Instance demo_laws : SqlLaws.
Proof.
  split; cbn.
  - by intros [].
  - done.
  - done.
  - intros z. by eexists.
  - intros t [paths|] s r Hr; cbn in Hr; set_unfold in Hr; destruct Hr as [->|[->|[]]]; apply length_replicate.
  - intros t [paths|] s c i r Hs Hi Hr; [|done]. apply demo_found in Hi as (o & Hi & _).
    apply lookup_lt_Some in Hi. rewrite columns_length in Hi.
    set_unfold in Hr. destruct Hr as [->|[->|[]]]; eexists; by apply lookup_replicate_2.
  - done.
  - intros g fs l r. case_decide as Hd; [|by intros ?%elem_of_nil]. destruct Hd as [-> ->].
    intros ->%list_elem_of_singleton. done.
  - intros l Hl. rewrite decide_True by done. do 4 f_equal.
    induction Hl as [|row l [v Hv] _ IH]; [done|]. cbn. rewrite Hv. cbn. by rewrite IH.
  - by intros ????? ?%elem_of_nil.
  - intros c cs. rewrite decide_True; [done|]. split; [done|by right].
  - intros cs c i (o & Hi & _)%demo_found. by eapply lookup_lt_Some.
  - intros l r c i Hi. unfold demo_index in *. apply fmap_Some in Hi as ([i' o] & Hi & ->).
    apply list_find_app_Some in Hi as [->|(Hl & -> & ->)]; [by left|]. right. split; [done|]. eexists. split; [done|]. cbn. lia.
  - intros cs c. by rewrite bool_decide_eq_true.
  - intros alias ours theirs c i Hall Hnames (o & Hi & [Hn Hr] & Hfirst)%demo_found.
    assert (Hat : forall j, cn_name <$> theirs !! j = cn_name <$> ours !! j) by (intros j; rewrite <- !list_lookup_fmap; exact (f_equal (lookup j) (eq_sym Hnames))).
    apply demo_found. pose proof (Hat i) as Ho. rewrite Hi in Ho. apply fmap_Some in Ho as (o2 & Ho2 & Hn2).
    exists o2. split_and!; [done|split; [cbn; congruence|by left]|]. intros j o3 Hj Hlt [Hn3 _]. cbn in Hn3.
    pose proof (Hat j) as Ho4. rewrite Hj in Ho4. symmetry in Ho4. apply fmap_Some in Ho4 as (o4 & Ho4 & Hn4).
    apply (Hfirst j o4 Ho4 Hlt). split; [congruence|]. apply list_elem_of_lookup_2, Hall in Hi, Ho4.
    destruct Hr as [Hr|Hr]; [by left|right; congruence].
  - by intros e p q [= <-].
  - by intros p e q [= <-].
  - intros p gs fs q [= <-]. eexists. split; [done|]. apply length_replicate.
Qed.

(** [SELECT * FROM t WHERE NOT (t.k IN (SELECT s.k FROM s))], where both hold a NULL. *)
Definition demo_table (t : string) : LogicalPlan :=
  LTableScan t None [(Some t, {| field_name := "k"; data_type := Int64; nullable := true |})].
Definition demo_not_in : LogicalPlan :=
  LFilter (LNot (LInSubquery (LColumn {| cn_relation := Some "t"; cn_name := "k" |}) (Subquery_of (demo_table "s") []) false))
    (demo_table "t").
