(* ===== verification/NotInFacts.v ===== *)
(** * The [NOT IN] rewrite is exact

    The analysis first: a column it clears holds no NULL in any row SQL answers ([cleared_column]).  Then
    the rule: the plan it answers, run with the two-valued joins DataFusion makes of its subqueries, answers
    what SQL answers of the plan it was given ([rewrite_from_exact]).  That the walk ends is NotInTotal.v's. *)
From stdpp Require Import strings.
From S2P Require Import Prelude Interval PlanIR PlanCommon Claims Joins JoinFacts Physical ScanMeta TransCommon Logical NotIn LogicalSql.
Open Scope nat_scope.

Section Facts.
Context `{Api : LogicalApi, Q : Sql, D : DataFusion, L : !SqlLaws}.
Notation Val := (option Cell).
Notation Row := (list Val).
Notation Scope := (list ColumnName * Row)%type.

(** ** What a plan's rows are *)
Lemma elem_of_cut {A} skip fetch (l : list A) x : x ∈ cut skip fetch l -> x ∈ l.
Proof.
  unfold cut. intros Hx. assert (Hd : x ∈ drop (N.to_nat skip) l).
  { destruct fetch; [|done]. apply list_elem_of_lookup in Hx as [i Hi]. apply lookup_take_Some in Hi as [Hi _].
    by apply list_elem_of_lookup_2 in Hi. }
  apply list_elem_of_lookup in Hd as [i Hi]. rewrite lookup_drop in Hi. by apply list_elem_of_lookup_2 in Hi.
Qed.

(** Some plan of the same columns keeps a subset of its input's rows. *)
Lemma row_of_sorted ks (l : list (list Val * Row)) r : r ∈ sorted ks l -> r ∈ map snd l.
Proof. intros Hr. by rewrite <- (sorted_permutes ks l). Qed.

Lemma sorted_from sql keys fetch i env r : r ∈ plan_rows sql (LSort keys fetch i) env -> r ∈ plan_rows sql i env.
Proof.
  rewrite rows_sort. intros Hr%elem_of_cut%row_of_sorted. rewrite map_map in Hr. cbn in Hr. by rewrite map_id in Hr.
Qed.

Lemma filtered_from sql e i env r : r ∈ plan_rows sql (LFilter e i) env -> r ∈ plan_rows sql i env.
Proof. rewrite rows_filter. by intros [Hr _]%elem_of_filterb. Qed.

Lemma join_columns_width jt l r s : (match jt with LeftMark => length s =? S (length l) | _ => true end) = true ->
  s = join_columns jt l r s -> length s = emitted_columns jt (length l) (length r).
Proof.
  intros Hm Hs. apply (f_equal length) in Hs. destruct jt; cbn [join_columns] in Hs; unfold emitted_columns; cbn [emits];
    rewrite ?length_app in Hs; try done. apply Nat.eqb_eq in Hm. lia.
Qed.

Lemma plan_width sql p : plan_well_made p = true -> forall env r, r ∈ plan_rows sql p env -> length r = length (columns p).
Proof.
  induction p; intros Hp env r Hr; cbn [plan_well_made] in Hp; repeat apply andb_true_iff in Hp as [Hp ?].
  - unfold columns. rewrite columns_length. by eapply table_width.
  - rewrite rows_projection in Hr. apply elem_of_map in Hr as (r0 & -> & Hr). rewrite length_map. unfold columns. cbn.
    rewrite columns_length. by apply Nat.eqb_eq.
  - apply filtered_from in Hr. by apply (IHp ltac:(done) env).
  - apply sorted_from in Hr. by apply (IHp ltac:(done) env).
  - apply elem_of_cut in Hr. by apply (IHp ltac:(done) env).
  - change (plan_rows sql _ env) with (plan_rows sql p env) in Hr. rewrite (IHp ltac:(done) env r Hr).
    match goal with E : bool_decide _ = true |- _ => apply bool_decide_eq_true, (f_equal length) in E; rewrite !length_map in E end.
    unfold columns at 2. cbn [df_schema]. congruence.
  - rewrite rows_join in Hr. eapply joined_width in Hr; [|by apply Forall_forall, IHp1|by apply Forall_forall, IHp2].
    rewrite Hr. symmetry. apply (join_columns_width _ _ _ (columns_of schema)); [by rewrite columns_length|].
    match goal with E : bool_decide _ = true |- _ => exact (bool_decide_eq_true_1 _ E) end.
  - rewrite rows_aggregate in Hr. apply grouped_width in Hr. rewrite length_map in Hr. unfold columns. cbn [df_schema].
    rewrite columns_length, Hr. symmetry. by apply Nat.eqb_eq.
  - rewrite rows_other in Hr. unfold columns. cbn [df_schema]. rewrite columns_length. by eapply other_width.
Qed.

(** ** The analysis is sound *)

(** The rows of a join that keeps a side's rows as they are. *)
Lemma kept_on_left on bw pw jt build probe (r : Row) : preserved_side jt true = true ->
  r ∈ joined None (fun b => Some (of_bool b)) on bw pw jt build probe -> exists b tail, b ∈ build /\ r = b ++ tail.
Proof.
  assert (Hf : forall f, r ∈ List.filter f build -> exists b tail, b ∈ build /\ r = b ++ tail).
  { intros f [Hin _]%elem_of_filterb. exists r, []. by rewrite app_nil_r. }
  destruct jt; intros Hs; try discriminate Hs; cbn [joined]; rewrite ?elem_of_app; try apply Hf.
  - intros (b & p & Hb & _ & ->)%pairs_elem. eauto.
  - intros [(b & p & Hb & _ & ->)%pairs_elem|(b & -> & [Hb _]%elem_of_filterb)%elem_of_map]; [eauto|]. unfold pad_build. eauto.
  - intros (b & -> & Hb)%elem_of_map. eauto.
Qed.

Lemma kept_on_right on bw pw jt build probe (r : Row) : preserved_side jt false = true ->
  Forall (fun b => length b = bw) build -> r ∈ joined None (fun b => Some (of_bool b)) on bw pw jt build probe ->
  exists p pre, p ∈ probe /\ r = pre ++ p /\ length pre = match jt with RightSemi | RightAnti => 0 | _ => bw end.
Proof.
  intros Hs Hb. rewrite Forall_forall in Hb.
  assert (Hf : forall f, r ∈ List.filter f probe -> exists p pre, p ∈ probe /\ r = pre ++ p /\ length pre = 0).
  { intros f [Hin _]%elem_of_filterb. by exists r, []. }
  destruct jt; try discriminate Hs; cbn [joined]; rewrite ?elem_of_app; try apply Hf.
  - intros (b & p & Hbin & Hp & ->)%pairs_elem. exists p, b. auto.
  - intros [(b & p & Hbin & Hp & ->)%pairs_elem|(p & -> & [Hp _]%elem_of_filterb)%elem_of_map].
    + exists p, b. auto.
    + exists p, (replicate bw None). by rewrite length_replicate.
Qed.

Lemma has_not_found cs c : has_column cs c = false -> index_of_column cs c = None.
Proof. intros Hh. apply eq_None_not_Some. rewrite <- has_found, Hh. done. Qed.

(** Where a join's column is, by the side that has it. *)
Lemma found_on_left jt l r s c i : s = join_columns jt l r s -> preserved_side jt true = true ->
  index_of_column r c = None -> is_Some (index_of_column l c) -> index_of_column s c = Some i -> index_of_column l c = Some i.
Proof.
  intros Hs Hp Hr [j Hl] Hi. destruct jt; try discriminate Hp; cbn [join_columns] in Hs; rewrite Hs in Hi; try done;
    apply found_in_side in Hi as [Hi|[Hn _]]; congruence.
Qed.

Lemma found_on_right jt l r s c i : s = join_columns jt l r s -> preserved_side jt false = true ->
  index_of_column l c = None -> index_of_column s c = Some i ->
  exists j, index_of_column r c = Some j /\ i = (match jt with RightSemi | RightAnti => 0 | _ => length l end) + j.
Proof.
  intros Hs Hp Hl Hi. destruct jt; try discriminate Hp; cbn [join_columns] in Hs; rewrite Hs in Hi; try (by exists i);
    apply found_in_side in Hi as [Hi|[_ Hj]]; congruence || done.
Qed.

Lemma read_bare sql c (inner : LogicalPlan) r env v i : index_of_column (columns inner) c = Some i -> r !! i = Some (Some v) ->
  value sql (LColumn c) (columns inner, r) env = Some v.
Proof. intros Hi Hr. change (read_column (columns inner, r) c = Some v). unfold read_column. cbn. by rewrite Hi; cbn; rewrite Hr. Qed.

(** A column the analysis clears holds no NULL, in any row SQL answers. *)
Lemma cleared_column p : plan_well_made p = true -> forall c i env r,
  logical_can_be_null p c = Some false -> index_of_column (columns p) c = Some i -> r ∈ plan_rows true p env ->
  exists v, r !! i = Some (Some v).
Proof.
  induction p; intros Hp c i env r Hc Hi Hr; cbn [plan_well_made] in Hp; repeat apply andb_true_iff in Hp as [Hp ?];
    cbn [logical_can_be_null] in Hc; try discriminate Hc.
  - destruct (scan_column_may_hold_null table_paths (cn_name c)) as [held|] eqn:Hs; [|done]. subst held. by eapply footers_hold.
  - change (index_of_column (columns_of schema) c = Some i) in Hi. rewrite Hi in Hc.
    destruct (exprs !! i) as [e|] eqn:He; [|done]. cbn in Hc.
    assert (Hinner : exists inner, logical_can_be_null p inner = Some false
      /\ forall sc env, value true e sc env = value true (LColumn inner) sc env /\ (expr_ok (columns p) e = true -> is_Some (index_of_column (columns p) inner))).
    { destruct e as [inner| | |e a| | | | | | | |]; try discriminate Hc.
      - exists inner. split; [done|]. intros. split; [done|]. cbn. by intros Hok%bool_decide_eq_true_1.
      - destruct e as [inner| | | | | | | | | | |]; try discriminate Hc. exists inner. split; [done|].
        intros. split; [done|]. cbn. by intros Hok%bool_decide_eq_true_1. }
    destruct Hinner as (inner & Hcan & Hval). rewrite rows_projection in Hr. apply elem_of_map in Hr as (r0 & -> & Hr).
    rewrite forallb_forall in Hp. assert (Hok : expr_ok (columns p) e && in_free e = true).
    { apply Hp, list_elem_of_In. by eapply list_elem_of_lookup_2. }
    apply andb_true_iff in Hok as [Hok _]. destruct (Hval (columns p, r0) env) as [Hv [j Hj]%(fun h => h Hok)].
    destruct (IHp ltac:(done) inner j env r0 Hcan Hj Hr) as [v Hr0]. exists v.
    apply map_lookup_Some. exists e. split; [done|]. rewrite Hv. symmetry. by eapply read_bare.
  - apply filtered_from in Hr. by eapply IHp.
  - apply sorted_from in Hr. by eapply IHp.
  - apply elem_of_cut in Hr. by eapply IHp.
  - change (plan_rows true _ env) with (plan_rows true p env) in Hr.
    change (index_of_column (columns_of schema) c = Some i) in Hi.
    eapply IHp; [done|exact Hc| |exact Hr]. eapply (found_by_name alias); [| |exact Hi].
    + unfold one_relation in Hp. rewrite forallb_forall in Hp. intros o Ho. by apply list_elem_of_In, Hp, bool_decide_eq_true_1 in Ho.
    + match goal with E : bool_decide _ = true |- _ => exact (bool_decide_eq_true_1 _ E) end.
  - change (index_of_column (columns_of schema) c = Some i) in Hi. rewrite rows_join in Hr.
    match goal with E : bool_decide _ = true |- _ => apply bool_decide_eq_true_1 in E; rename E into Hs end.
    destruct (has_column (columns p1) c) eqn:H1', (has_column (columns p2) c) eqn:H2'; try discriminate Hc.
    + destruct (preserved_side join_type true) eqn:Hside; [|done].
      apply kept_on_left in Hr as (a & tail & Ha & ->); [|done].
      apply has_not_found in H2'. apply has_found in H1'. eapply found_on_left in Hi; [|done..].
      destruct (IHp1 ltac:(done) c i env a Hc Hi Ha) as [v Hv]. exists v. rewrite lookup_app_l; [done|]. by eapply lookup_lt_Some.
    + destruct (preserved_side join_type false) eqn:Hside; [|done].
      apply kept_on_right in Hr as (b & pre & Hb & -> & Hl); [|done|by apply Forall_forall, plan_width].
      apply has_not_found in H1'. eapply found_on_right in Hi as (j & Hj & ->); [|done..].
      destruct (IHp2 ltac:(done) c j env b Hc Hj Hb) as [v Hv]. exists v. rewrite lookup_app_r by lia.
      replace (_ + j - length pre) with j by lia. done.
Qed.

(** ** Negation normal form *)
Lemma truth3_bool b : truth3 (bool_val b) = b.
Proof. destruct b as [b|]; [|done]. cbn. unfold truth3. cbn. by rewrite truth_of_bool. Qed.

Lemma nnf_leaf_truth (e : LogicalExpr) (n : bool) scope env :
  truth3 (value true (if n then (LNot e, true) else (e, false)).1 scope env) = negated_if n (truth3 (value true e scope env)).
Proof. destruct n; [|done]. cbn [fst]. by rewrite value_not, truth3_bool. Qed.

Lemma nnf_truth e : forall n scope env,
  truth3 (value true (negation_normal_form e n).1 scope env) = negated_if n (truth3 (value true e scope env)).
Proof.
  induction e; intros n scope env; cbn [negation_normal_form]; try apply nnf_leaf_truth.
  - destruct op; try apply nnf_leaf_truth; cbn [fst]; rewrite !value_binary; cbn zeta; destruct n; cbn [negated_if];
      rewrite !truth3_bool, IHe1, IHe2; cbn [negated_if]; by rewrite ?not3_and, ?not3_or.
  - cbn [fst]. rewrite IHe, value_not, truth3_bool. by destruct n; cbn; rewrite ?not3_not3.
  - destruct n; [|done]. cbn [fst]. rewrite !value_in, !truth3_bool. destruct negated; cbn; by rewrite ?not3_not3.
  - destruct n; [|done]. cbn [fst]. rewrite !value_exists. unfold truth3. cbn. rewrite !truth_of_bool. f_equal.
    by destruct negated, (is_empty _).
Qed.

Lemma nnf_unchanged e n : (negation_normal_form e n).2 = false -> n = false /\ (negation_normal_form e n).1 = e.
Proof.
  revert n. induction e; intros n; cbn [negation_normal_form]; try (by destruct n); try done.
  - destruct op; try (by destruct n); cbn [snd fst]; intros [[-> H1]%orb_false_iff H2]%orb_false_iff;
      (split; [done|]); by rewrite (proj2 (IHe1 _ H1)), (proj2 (IHe2 _ H2)).
Qed.

Lemma nnf_ok cs e n : expr_ok cs e = true -> expr_ok cs (negation_normal_form e n).1 = true.
Proof.
  revert n. induction e; intros n Hok; cbn [negation_normal_form]; try (by destruct n).
  - destruct op; try (by destruct n); cbn [expr_ok fst] in *; apply andb_true_iff in Hok as [H1 H2];
      by rewrite IHe1, IHe2.
  - by apply IHe.
Qed.

Lemma nnf_fuel e n : expr_fuel (negation_normal_form e n).1 = expr_fuel e.
Proof.
  revert n. induction e; intros n; cbn [negation_normal_form]; try (by destruct n).
  - destruct op; try (by destruct n); cbn [expr_fuel fst]; by rewrite IHe1, IHe2.
  - cbn [fst expr_fuel]. apply IHe.
Qed.

(** ** Membership *)
Lemma in_sql_cons x y ys : in_sql x (y :: ys) = or3 (eq3 y x) (in_sql x ys).
Proof. reflexivity. Qed.

Lemma in_sql_true x ys : is_true (in_sql x ys) = existsb (fun y => is_true (eq3 y x)) ys.
Proof. induction ys as [|y ys IH]; [done|]. rewrite in_sql_cons, is_true_or, IH. done. Qed.

Lemma in_join_true x ys : is_true (in_join x ys) = is_true (in_sql x ys).
Proof. rewrite in_sql_true. unfold in_join. by destruct (existsb _ _). Qed.

(** Where nothing is NULL, the join answers what SQL does. *)
Lemma in_two_valued x ys : is_Some x -> Forall is_Some ys -> in_sql x ys = in_join x ys.
Proof.
  intros [a ->]. induction 1 as [|y ys [b ->] _ IH]; [done|].
  rewrite in_sql_cons, IH. unfold in_join. cbn. by destruct (cell_eq b a), (existsb _ _).
Qed.

(** SQL's [NOT IN] is true where nothing equals, and no NULL leaves it open. *)
Lemma not_in_true x ys : is_true (not3 (in_sql x ys)) =
  negb (existsb (fun y => is_true (eq3 y x)) ys)
  && negb (existsb (fun y => negb (bool_decide (is_Some y))) ys)
  && (bool_decide (is_Some x) || is_empty ys).
Proof.
  induction ys as [|y ys IH]; [cbn; by rewrite orb_true_r|].
  rewrite in_sql_cons, not3_or, is_true_and, IH. destruct x as [a|], y as [b|]; cbn [eq3 not3 existsb is_empty];
    rewrite ?(bool_decide_true (is_Some (Some _))), ?(bool_decide_false (is_Some None)) by (eauto || by intros [? [=]]); cbn;
    rewrite ?andb_false_r; try done.
  by destruct (cell_eq b a); cbn.
Qed.

(** ** Where the joins' answer is SQL's *)

(** Every [IN] an expression reads, outside the plans that hang off it, meets no NULL. *)
Fixpoint null_free_ins (e : LogicalExpr) (scope : Scope) (env : list Scope) : Prop :=
  match e with
  | LInSubquery x s _ =>
      is_Some (value true x scope env) /\ Forall is_Some (first_cells (plan_rows true (subquery_plan s) (scope :: env)))
      /\ null_free_ins x scope env
  | LAlias e _ | LNot e | LIsNull e | LIsNotNull e => null_free_ins e scope env
  | LBinaryExpr l _ r => null_free_ins l scope env /\ null_free_ins r scope env
  | LOtherExpr _ args => (fix all (l : list LogicalExpr) : Prop :=
                            match l with [] => True | e :: l => null_free_ins e scope env /\ all l end) args
  | _ => True
  end.

Lemma null_free_args d args scope env :
  null_free_ins (LOtherExpr d args) scope env <-> Forall (fun e => null_free_ins e scope env) args.
Proof.
  cbn [null_free_ins]. induction args as [|e args IH]; [by split|]. rewrite Forall_cons. by rewrite IH.
Qed.

Lemma in_free_null_free e scope env : in_free e = true -> null_free_ins e scope env.
Proof.
  induction e using logical_expr_ind; cbn [in_free]; intros Hf; try done; try by apply IHe.
  - apply andb_true_iff in Hf as [??]. split; auto.
  - apply (null_free_args d). rewrite forallb_forall in Hf. apply Forall_forall. intros e He.
    rewrite Forall_forall in H. apply H; [done|]. by apply Hf, list_elem_of_In.
Qed.

Lemma operand_in_free cs e : operand_ok cs e = true -> in_free e = true.
Proof.
  induction e using logical_expr_ind; cbn [operand_ok in_free]; intros Hf; try done; try by apply IHe.
  - apply andb_true_iff in Hf as [??]. by rewrite IHe1, IHe2.
  - rewrite forallb_forall in *. intros e He. rewrite Forall_forall in H. apply H; [by apply list_elem_of_In|]. auto.
Qed.

(** What a walk answers for a plan: the same columns, and by its joins the rows SQL answers. *)
Definition exact (p p' : LogicalPlan) : Prop :=
  columns p' = columns p /\ forall env, plan_rows false p' env = plan_rows true p env.
Definition walk_exact (f : LogicalPlan -> outcome LogicalPlan) : Prop :=
  forall p p', f p = Good p' -> plan_well_made p = true -> exact p p'.

Lemma map_outcome_good {A B} (f : A -> outcome B) l ys : map_outcome f l = Good ys -> Forall2 (fun x y => f x = Good y) l ys.
Proof.
  revert ys. induction l as [|x l IH]; intros ys Hl; cbn in Hl; inv_good; subst; constructor; auto.
Qed.

Lemma subquery_ok_plan s : subquery_ok s = plan_well_made (subquery_plan s).
Proof. by destruct s. Qed.

Lemma map_subquery_good f s s' : map_subquery f s = Good s' ->
  exists p', f (subquery_plan s) = Good p' /\ s' = Subquery_of p' (outer_ref_columns s).
Proof. unfold map_subquery. intros Hm. inv_good. eauto. Qed.

(** Once the plans that hang off it are exact, so is an expression whose [IN]s meet no NULL. *)
Lemma map_subqueries_exact f : walk_exact f -> forall e cs e' scope env, map_subqueries f e = Good e' -> expr_ok cs e = true ->
  null_free_ins e scope env -> value false e' scope env = value true e scope env.
Proof.
  intros Hf e cs. induction e using logical_expr_ind; intros e' scope env Hm Hok Hn; cbn [map_subqueries expr_ok null_free_ins] in *;
    inv_good; subst; try done;
    repeat match goal with E : (_ && _) = true |- _ => apply andb_true_iff in E as [E ?] end.
  - by apply (IHe _ scope env E).
  - destruct Hn. rewrite !value_binary. by rewrite (IHe1 _ scope env E), (IHe2 _ scope env E0).
  - rewrite !value_not. by rewrite (IHe _ scope env E).
  - rewrite !value_is_null. by rewrite (IHe _ scope env E).
  - rewrite !value_is_not_null. by rewrite (IHe _ scope env E).
  - apply map_subquery_good in E as (p' & E & ->). destruct Hn as (Hx & Hys & Hn). rewrite subquery_ok_plan in *.
    destruct (Hf _ _ E) as [_ Hrows]; [done|]. rewrite !value_in. cbn [subquery_plan in_value].
    by rewrite Hrows, (IHe _ scope env E0), in_two_valued.
  - apply map_subquery_good in E as (p' & E & ->). rewrite subquery_ok_plan in *. rewrite !value_exists. cbn [subquery_plan].
    by rewrite (proj2 (Hf _ _ E Hok)).
  - apply map_subquery_good in E as (p' & E & ->). rewrite subquery_ok_plan in *. rewrite !value_scalar. cbn [subquery_plan].
    by rewrite (proj2 (Hf _ _ E Hok)).
  - rewrite !value_other. f_equal. apply (null_free_args d) in Hn. apply map_outcome_good in E.
    rewrite forallb_forall in Hok. induction E as [|e e' args args' He _ IH]; [done|]. cbn [map].
    apply Forall_cons in H as [H1 H2], Hn as [Hn1 Hn2]. f_equal; [apply H1; auto; apply Hok; by left|].
    apply IH; auto. intros. apply Hok. by right.
Qed.

(** *** An [IN] the analysis clears *)
Lemma cleared_in x s outer row env : in_subquery_may_meet_null x s outer = Some false ->
  expr_ok (columns outer) x = true -> subquery_ok s = true -> length (columns (subquery_plan s)) = 1 ->
  plan_well_made outer = true -> row ∈ plan_rows true outer env ->
  let scope := (columns outer, row) in
  is_Some (value true x scope env) /\ Forall is_Some (first_cells (plan_rows true (subquery_plan s) (scope :: env))).
Proof.
  intros Hm Hx Hs Hone Ho Hrow scope. unfold in_subquery_may_meet_null, first_column in Hm. rewrite subquery_ok_plan in Hs.
  destruct x as [c| | | | | | | | | | |]; cbn in Hm; try (by destruct (head (columns _))).
  destruct (logical_can_be_null outer c) as [[]|] eqn:Hc; cbn in Hm; try done; try (by destruct (head (columns _))).
  destruct (columns (subquery_plan s)) as [|y [|]] eqn:Hcols; try discriminate Hone. cbn in Hm. cbn in Hx. split.
  - apply bool_decide_eq_true_1 in Hx as [i Hi]. destruct (cleared_column outer Ho c i env row Hc Hi Hrow) as [v Hv].
    exists v. by eapply read_bare.
  - apply Forall_forall. intros v (r & -> & Hr)%elem_of_map.
    destruct (cleared_column _ Hs y 0 (scope :: env) r Hm) as [v Hv]; [rewrite Hcols; apply first_found|done|].
    destruct r; [done|]. injection Hv as ->. eauto.
Qed.

(** Off the spine: what is not refused meets no NULL. *)
Lemma not_refused outer row env : plan_well_made outer = true -> row ∈ plan_rows true outer env ->
  forall e, expr_ok (columns outer) e = true -> refuse_nullable_in_off_the_spine outer e = Good () ->
  null_free_ins e (columns outer, row) env.
Proof.
  intros Ho Hrow e. induction e using logical_expr_ind; intros Hok Hr; cbn [expr_ok refuse_nullable_in_off_the_spine] in *; try done;
    repeat match goal with E : (_ && _) = true |- _ => apply andb_true_iff in E as [E ?] end; try by apply IHe.
  - destruct (refuse_nullable_in_off_the_spine outer e1) as [[]| | |]; try discriminate Hr. split; auto.
  - destruct (in_subquery_may_meet_null e s outer) as [[]|] eqn:Hm; try discriminate Hr. cbn [null_free_ins].
    destruct (cleared_in e s outer row env Hm) as [??]; auto. by apply Nat.eqb_eq.
  - apply (null_free_args d). induction args as [|e args IH]; [constructor|]. apply Forall_cons in H as [H1 H2].
    cbn [forallb] in Hok. apply andb_true_iff in Hok as [??].
    destruct (refuse_nullable_in_off_the_spine outer e) as [[]| | |] eqn:He; try discriminate Hr. constructor; auto.
Qed.

(** ** One [NOT IN] *)
Lemma refused_good {A} (r : result string A) x : refused r = Good x -> r = Ok x.
Proof. unfold refused. destruct r; cbn; [by intros [= ->]|done]. Qed.

(** The operand, read from inside the subquery, is what it is outside. *)
Lemma outer_refs_value outer x ox sql inner row env : to_outer_refs (df_schema outer) x = Good ox ->
  operand_ok (columns outer) x = true ->
  value sql ox inner ((columns outer, row) :: env) = value true x (columns outer, row) env.
Proof.
  revert ox. induction x using logical_expr_ind; intros ox Hx Ho; cbn [to_outer_refs operand_ok] in *; try discriminate Ho.
  - destruct (index_of_column (columns_of (df_schema outer)) c ≫= _) as [[rel f]|] eqn:Hi; [|done]. injection Hx as <-.
    apply bind_Some in Hi as (i & Hi & _). change (read_outer ((columns outer, row) :: env) c = read_column (columns outer, row) c).
    unfold read_column, columns in *. cbn. by rewrite Hi.
  - injection Hx as <-. change (read_outer ((columns outer, row) :: env) c = read_outer env c). cbn [read_outer fst].
    apply negb_true_iff, bool_decide_eq_false_1 in Ho. destruct (index_of_column (columns outer) c); [|done]. destruct Ho. eauto.
  - by injection Hx as <-.
  - inv_good. subst. exact (IHx _ E Ho).
  - inv_good. subst. apply andb_true_iff in Ho as [??]. rewrite !value_binary. by rewrite (IHx1 _ E), (IHx2 _ E0).
  - inv_good. subst. rewrite !value_not. by rewrite (IHx _ E).
  - inv_good. subst. rewrite !value_is_null. by rewrite (IHx _ E).
  - inv_good. subst. rewrite !value_is_not_null. by rewrite (IHx _ E).
  - inv_good. subst. rewrite !value_other. f_equal. apply map_outcome_good in E. rewrite forallb_forall in Ho.
    induction E as [|e e' args args' He _ IH]; [done|]. cbn [map]. apply Forall_cons in H as [H1 H2].
    f_equal; [apply H1; auto; apply Ho; by left|]. apply IH; auto. intros. apply Ho. by right.
Qed.

Lemma outer_refs_plain outer x ox : to_outer_refs (df_schema outer) x = Good ox -> operand_ok (columns outer) x = true ->
  in_free ox = true /\ expr_fuel ox = expr_fuel x /\ forall cs, expr_ok cs ox = true.
Proof.
  revert ox. induction x using logical_expr_ind; intros ox Hx Ho; cbn [to_outer_refs operand_ok] in *; try discriminate Ho.
  - destruct (index_of_column (columns_of (df_schema outer)) c ≫= _) as [[rel f]|]; [|done]. by injection Hx as <-.
  - by injection Hx as <-.
  - by injection Hx as <-.
  - inv_good. subst. exact (IHx _ E Ho).
  - inv_good. subst. apply andb_true_iff in Ho as [H1 H2]. cbn [in_free expr_fuel]. destruct (IHx1 _ E H1) as (-> & -> & Hl), (IHx2 _ E0 H2) as (-> & -> & Hr).
    split_and!; [done..|]. intros cs. cbn. by rewrite Hl, Hr.
  - inv_good. subst. exact (IHx _ E Ho).
  - inv_good. subst. exact (IHx _ E Ho).
  - inv_good. subst. exact (IHx _ E Ho).
  - inv_good. subst. apply map_outcome_good in E. cbn [in_free expr_fuel expr_ok].
    assert (Hall : forallb in_free x = true /\ map expr_fuel x = map expr_fuel args /\ forall cs, forallb (expr_ok cs) x = true).
    { induction E as [|e e' args args' He _ IH]; [done|]. apply Forall_cons in H as [H1 H2]. cbn in Ho.
      apply andb_true_iff in Ho as [Ho1 Ho2]. destruct (H1 _ He Ho1) as (Hf & Hl & Hok), (IH H2 Ho2) as (Hf' & Hl' & Hok').
      cbn. rewrite Hf, Hf', Hl, Hl'. split_and!; [done..|]. intros cs. by rewrite Hok, Hok'. }
    destruct Hall as (-> & -> & Hok). by split_and!.
Qed.

Lemma is_empty_filter {A} (p : A -> bool) l : is_empty (List.filter p l) = negb (existsb p l).
Proof. induction l as [|x l IH]; [done|]. cbn. by destruct (p x). Qed.

Lemma existsb_map {A B} (f : A -> B) p l : existsb p (map f l) = existsb (fun x => p (f x)) l.
Proof. induction l as [|x l IH]; [done|]. cbn. by rewrite IH. Qed.

Lemma existsb_same {A} (p q : A -> bool) l : (forall x, x ∈ l -> p x = q x) -> existsb p l = existsb q l.
Proof.
  induction l as [|x l IH]; intros Hpq; [done|]. cbn. rewrite Hpq by apply list_elem_of_here. f_equal.
  apply IH. intros. apply Hpq. by apply list_elem_of_further.
Qed.

Lemma existsb_constant {A} b (l : list A) : existsb (fun _ => b) l = b && negb (is_empty l).
Proof. induction l as [|x l IH]; cbn; [by rewrite andb_false_r|]. rewrite IH. by destruct b. Qed.

Lemma if_same (b : bool) : (if b then true else false) = b.
Proof. by destruct b. Qed.

(** [NOT EXISTS (S WHERE condition)]. *)
Lemma not_exists_value condition s c scope env : not_exists condition s = Good c ->
  truth3 (value true c scope env)
  = Some (negb (existsb (fun r => is_true (truth3 (value true condition (columns s, r) (scope :: env)))) (plan_rows true s (scope :: env)))).
Proof.
  unfold not_exists. intros Hc. inv_good. apply refused_good, filtered_builds in E. subst. rewrite value_exists. cbn [subquery_plan].
  rewrite rows_filter, is_empty_filter. unfold truth3. cbn. rewrite truth_of_bool. by destruct (existsb _ _).
Qed.

(** [(SELECT count(1) FROM S) = 0]. *)
Lemma none_counted_value s c scope env : count_of s = Good c ->
  truth3 (value true (LBinaryExpr c OpEq (lit_i64 0)) scope env) = Some (is_empty (plan_rows true s (scope :: env))).
Proof.
  unfold count_of. intros Hc. inv_good. apply refused_good, aggregated_builds in E as (schema & -> & _). subst.
  rewrite value_binary. cbn zeta. rewrite value_scalar, truth3_bool. cbn [subquery_plan]. rewrite rows_aggregate. cbn [length map fst].
  rewrite counted.
  - cbn. change (value true (lit_i64 0) scope env) with (literal {| scalar_type := Int64; scalar_value := Some (DInt 0) |}).
    rewrite int_literal. cbn. rewrite int_eq, length_map. by destruct (plan_rows true s (scope :: env)).
  - apply Forall_forall. intros row (r & -> & _)%elem_of_map. destruct (small_literal 1) as [v Hv]. exists v. cbn.
    do 2 f_equal. exact Hv.
Qed.

(** A row is kept on true alone. *)
Lemma and_kept sql l r scope env : is_true (truth3 (value sql (LBinaryExpr l OpAnd r) scope env))
  = is_true (truth3 (value sql l scope env)) && is_true (truth3 (value sql r scope env)).
Proof. rewrite value_binary. cbn zeta. by rewrite truth3_bool, is_true_and. Qed.
Lemma or_kept sql l r scope env : is_true (truth3 (value sql (LBinaryExpr l OpOr r) scope env))
  = is_true (truth3 (value sql l scope env)) || is_true (truth3 (value sql r scope env)).
Proof. rewrite value_binary. cbn zeta. by rewrite truth3_bool, is_true_or. Qed.

(** What the rewritten form is made of: no [IN], and well made where the [IN] was. *)
Lemma not_exists_plain condition s c cs : not_exists condition s = Good c -> expr_ok (columns s) condition = true ->
  plan_well_made s = true -> in_free c = true /\ expr_ok cs c = true.
Proof.
  unfold not_exists. intros Hc Hok Hs. inv_good. apply refused_good, filtered_builds in E. subst. split; [done|].
  cbn [expr_ok subquery_ok plan_well_made]. by rewrite Hok, Hs.
Qed.

Lemma not_exists_fuel condition s c : not_exists condition s = Good c -> expr_fuel c = S (Nat.max (expr_fuel condition) (rewrite_fuel s)).
Proof. unfold not_exists. intros Hc. inv_good. apply refused_good, filtered_builds in E. by subst. Qed.

Lemma count_plain s c cs : count_of s = Good c -> plan_well_made s = true -> in_free c = true /\ expr_ok cs c = true.
Proof.
  unfold count_of. intros Hc Hs. inv_good. apply refused_good, aggregated_builds in E as (schema & -> & Hl). subst. split; [done|].
  cbn [expr_ok subquery_ok plan_well_made forallb snd lit_i32 in_free length Nat.add]. by rewrite Hl, Hs.
Qed.

Lemma count_fuel s c : count_of s = Good c -> expr_fuel c = S (rewrite_fuel s).
Proof. unfold count_of. intros Hc. inv_good. apply refused_good, aggregated_builds in E as (schema & -> & _). by subst. Qed.

Lemma first_column_ok s y : first_column s = Some y ->
  expr_ok (columns (subquery_plan s)) (LColumn y) = true
  /\ forall sql r env, value sql (LColumn y) (columns (subquery_plan s), r) env = mjoin (head r).
Proof.
  unfold first_column. destruct (columns (subquery_plan s)) as [|y' cs]; [done|]. intros [= <-]. split.
  - cbn. apply bool_decide_eq_true. rewrite first_found. eauto.
  - intros. change (read_column (y' :: cs, r) y' = mjoin (head r)). unfold read_column. cbn. rewrite first_found. by destruct r.
Qed.

(** The uncorrelated form and the correlated one, true exactly where SQL's [NOT IN] is. *)
Lemma rewrite_not_in_true x s outer c row env : rewrite_not_in x s outer = Good c -> operand_ok (columns outer) x = true ->
  let scope := (columns outer, row) in
  is_true (truth3 (value true c scope env)) = is_true (truth3 (value true (LInSubquery x s true) scope env)).
Proof.
  intros Hc Ho scope. unfold rewrite_not_in in Hc. inv_good. apply expected_good, first_column_ok in E as [_ Hy].
  pose proof (fun inner => outer_refs_value outer x x1 true inner row env E0 Ho) as Hox.
  rewrite value_in, truth3_bool. cbn [negated_if in_value]. rewrite not_in_true. unfold first_cells at 1 2. rewrite !existsb_map.
  set (rows := plan_rows true (subquery_plan s) (scope :: env)).
  replace (is_empty (first_cells rows)) with (is_empty rows) by (by destruct rows).
  assert (Hequal : forall c, not_exists (LBinaryExpr (LColumn x0) OpEq x1) (subquery_plan s) = Good c ->
    truth3 (value true c scope env) = Some (negb (existsb (fun r => is_true (eq3 (mjoin (head r)) (value true x scope env))) rows))).
  { intros c' Hc'. rewrite (not_exists_value _ _ _ _ _ Hc'). do 2 f_equal. apply existsb_same. intros r _.
    rewrite value_binary. cbn zeta. by rewrite truth3_bool, Hy, Hox. }
  assert (Hnull : forall r, is_true (truth3 (value true (LIsNull (LColumn x0)) (columns (subquery_plan s), r) (scope :: env)))
                    = negb (bool_decide (is_Some (mjoin (head r) : Val)))).
  { intros r. rewrite value_is_null, Hy. unfold truth3. cbn. rewrite truth_of_bool. exact (if_same _). }
  case_bool_decide; inv_good; subst; unfold and_also.
  - apply refused_good, filtered_builds in E1. subst. rewrite !and_kept, or_kept.
    rewrite (Hequal _ E), (none_counted_value _ _ _ _ E2), (none_counted_value _ _ _ _ E3). fold rows.
    rewrite value_is_not_null. unfold truth3. cbn. rewrite truth_of_bool, rows_filter, is_empty_filter. fold rows.
    rewrite (existsb_same _ _ rows (fun r _ => Hnull r)).
    by destruct (existsb _ rows), (existsb _ rows), (bool_decide _), (is_empty rows).
  - rewrite !and_kept, (Hequal _ E), (not_exists_value _ _ _ _ _ E1), (not_exists_value _ _ _ _ _ E2).
    fold rows. rewrite (existsb_same _ _ rows (fun r _ => Hnull r)).
    rewrite (existsb_same (fun r => is_true (truth3 (value true (LIsNull x1) (columns (subquery_plan s), r) (scope :: env))))
      (fun _ => negb (bool_decide (is_Some (value true x scope env)))) rows).
    2:{ intros r _. rewrite value_is_null, Hox. unfold truth3. cbn. rewrite truth_of_bool. exact (if_same _). }
    rewrite existsb_constant.
    by destruct (existsb _ rows), (existsb _ rows), (bool_decide _), (is_empty rows).
Qed.

Lemma rewrite_not_in_plain x s outer c cs : rewrite_not_in x s outer = Good c -> operand_ok (columns outer) x = true ->
  expr_ok cs x = true -> plan_well_made (subquery_plan s) = true ->
  in_free c = true /\ expr_ok cs c = true /\ expr_fuel c <= 2 + Nat.max (expr_fuel x) (rewrite_fuel (subquery_plan s)).
Proof.
  intros Hc Ho Hx Hs. unfold rewrite_not_in in Hc. inv_good. apply expected_good, first_column_ok in E as [Hy _].
  pose proof (outer_refs_plain _ _ _ E0 Ho) as (Hfree & Hfuel & Hok).
  assert (Heq : expr_ok (columns (subquery_plan s)) (LBinaryExpr (LColumn x0) OpEq x1) = true) by (cbn [expr_ok] in *; by rewrite Hy, Hok).
  assert (Hn : expr_ok (columns (subquery_plan s)) (LIsNull (LColumn x0)) = true) by exact Hy.
  pose proof (operand_in_free _ _ Ho) as Hxf.
  case_bool_decide; inv_good; subst; unfold and_also, lit_i64; cbn [in_free expr_ok expr_fuel].
  - apply refused_good, filtered_builds in E1. subst.
    destruct (not_exists_plain _ _ _ cs E Heq Hs) as [-> ->], (count_plain _ _ cs E3 Hs) as [-> ->].
    destruct (count_plain _ _ cs E2) as [-> ->]; [cbn [plan_well_made]; by rewrite Hn, Hs|].
    rewrite (not_exists_fuel _ _ _ E), (count_fuel _ _ E2), (count_fuel _ _ E3). cbn [expr_fuel rewrite_fuel].
    rewrite Hxf, Hx, Hfuel. split_and!; [done..|lia].
  - destruct (not_exists_plain _ _ _ cs E Heq Hs) as [-> ->], (not_exists_plain _ _ _ cs E1 Hn Hs) as [-> ->],
      (not_exists_plain _ _ _ cs E2 (Hok _) Hs) as [-> ->].
    rewrite (not_exists_fuel _ _ _ E), (not_exists_fuel _ _ _ E1), (not_exists_fuel _ _ _ E2). cbn [expr_fuel].
    rewrite Hfuel. split_and!; [done..|lia].
Qed.

(** ** A filter *)

(** Where the spine ends: the expression as it was, its [IN]s cleared. *)
Lemma off_spine outer e e' : (refuse_nullable_in_off_the_spine outer e ≫= fun _ => Good (e, false)) = Good e' ->
  e' = (e, false) /\ refuse_nullable_in_off_the_spine outer e = Good ().
Proof. intros He. inv_good. subst. by destruct x. Qed.

Lemma spine_plain outer e : forall e', spine e outer = Good e' -> expr_ok (columns outer) e = true ->
  expr_ok (columns outer) e'.1 = true /\ expr_fuel e'.1 <= expr_fuel e.
Proof.
  induction e using logical_expr_ind; intros e' He Hok; cbn [spine] in He; try (by apply off_spine in He as [-> _]).
  - destruct op; try (by apply off_spine in He as [-> _]); inv_good; subst; cbn [fst snd expr_ok expr_fuel] in *;
      apply andb_true_iff in Hok as [H1 H2]; destruct (IHe1 _ E H1) as [-> Hl], (IHe2 _ E0 H2) as [-> Hr];
      (split; [done|lia]).
  - destruct n; [|by injection He as <-]. inv_good. destruct x; [|by injection He as <-]. inv_good. subst.
    cbn [expr_ok] in Hok. repeat apply andb_true_iff in Hok as [Hok ?]. rewrite subquery_ok_plan in *.
    destruct (rewrite_not_in_plain _ _ _ _ (columns outer) E0) as (_ & Hc & Hf); try done.
    cbn [fst]. split; [done|]. destruct s. exact Hf.
Qed.

(** A row the filter keeps: by the rewritten predicate and the joins, or by SQL. *)
Lemma spine_kept f outer row env : walk_exact f -> plan_well_made outer = true -> row ∈ plan_rows true outer env ->
  let kept sql e := is_true (truth3 (value sql e (columns outer, row) env)) in
  forall e e' e'', spine e outer = Good e' -> expr_ok (columns outer) e = true -> map_subqueries f e'.1 = Good e'' ->
  kept false e'' = kept true e.
Proof.
  intros Hf Ho Hrow kept e.
  assert (Hoff : forall e e' e'', (refuse_nullable_in_off_the_spine outer e ≫= fun _ => Good (e, false)) = Good e' ->
    expr_ok (columns outer) e = true -> map_subqueries f e'.1 = Good e'' -> kept false e'' = kept true e).
  { intros e0 e' e'' [-> Hr]%off_spine Hok Hm. unfold kept. do 2 f_equal.
    eapply map_subqueries_exact; [done|exact Hm|exact Hok|]. by apply not_refused. }
  induction e using logical_expr_ind; intros e' e'' He Hok Hm; cbn [spine] in He; try (by eapply Hoff).
  - destruct op; try (by eapply Hoff); inv_good; subst; cbn [fst map_subqueries expr_ok] in *; inv_good; subst;
      apply andb_true_iff in Hok as [H1 H2]; unfold kept; rewrite ?and_kept, ?or_kept; f_equal; eauto.
  - pose proof Hok as Hin. cbn [expr_ok] in Hok. repeat apply andb_true_iff in Hok as [Hok ?].
    match goal with E : operand_ok _ _ = true |- _ => rename E into Hx end. rewrite subquery_ok_plan in *.
    pose proof (fun sc => in_free_null_free e sc env (operand_in_free _ _ Hx)) as Hn.
    destruct n.
    + inv_good. apply expected_good in E. destruct x.
      * inv_good. subst. cbn [fst] in Hm. destruct (rewrite_not_in_plain _ _ _ _ (columns outer) E0) as (Hfree & Hc & _); try done.
        unfold kept. rewrite (map_subqueries_exact f Hf _ (columns outer) _ _ env Hm Hc) by by apply in_free_null_free.
        by eapply rewrite_not_in_true.
      * injection He as <-. cbn [fst] in Hm. unfold kept. do 2 f_equal.
        eapply map_subqueries_exact; [done|exact Hm|exact Hin|].
        destruct (cleared_in e s outer row env E) as [??]; auto; [by rewrite subquery_ok_plan|by apply Nat.eqb_eq|].
        cbn [null_free_ins]. auto.
    + injection He as <-. cbn [fst map_subqueries] in Hm. inv_good. subst. apply map_subquery_good in E as (p' & E & ->).
      unfold kept. rewrite !value_in, !truth3_bool. cbn [negated_if in_value subquery_plan].
      rewrite in_join_true, (proj2 (Hf _ _ E ltac:(done))). do 2 f_equal. by eapply map_subqueries_exact.
Qed.

Lemma spine_unchanged outer e : forall e', spine e outer = Good e' -> e'.2 = false -> e'.1 = e.
Proof.
  induction e using logical_expr_ind; intros e' He Hn; cbn [spine] in He; try (by apply off_spine in He as [-> _]).
  - destruct op; try (by apply off_spine in He as [-> _]); inv_good; subst; cbn [fst snd] in *;
      apply orb_false_iff in Hn as [Ha Hb]; by rewrite (IHe1 _ E Ha), (IHe2 _ E0 Hb).
  - destruct n; [|by injection He as <-]. inv_good. destruct x; [|by injection He as <-]. inv_good. by subst.
Qed.

Lemma rewrite_filter_good e i q : rewrite_filter e i = Good q ->
  exists e', spine (negation_normal_form e false).1 i = Good e' /\ q = LFilter e'.1 i
  /\ (expr_ok (columns i) e = true -> expr_ok (columns i) e'.1 = true /\ expr_fuel e'.1 <= expr_fuel e).
Proof.
  intros Hq. unfold rewrite_filter in Hq. inv_good. exists x. split; [done|].
  assert (Hok : expr_ok (columns i) e = true ->
    expr_ok (columns i) x.1 = true /\ expr_fuel x.1 <= expr_fuel e).
  { intros Hok. rewrite <- (nnf_fuel e false). apply (spine_plain _ _ _ E). by apply nnf_ok. }
  destruct (negb _ && negb x.2) eqn:Hn.
  - apply andb_true_iff in Hn as [H1 H2]. apply negb_true_iff in H1, H2. injection Hq as <-.
    rewrite (spine_unchanged _ _ _ E H2), (proj2 (nnf_unchanged _ _ H1)). split; [done|]. intros Ho. split; [done|lia].
  - apply refused_good, filter_builds in Hq as ->. split; [done|]. intros Ho. auto.
Qed.

(** ** The walk is exact *)
Section WalkExact.
Context (f : LogicalPlan -> outcome LogicalPlan) (Hf : walk_exact f).

Lemma plain_exact cs e e' : map_subqueries f e = Good e' -> expr_ok cs e && in_free e = true ->
  forall scope env, value false e' scope env = value true e scope env.
Proof.
  intros Hm [Hok Hfree]%andb_true_iff scope env. eapply map_subqueries_exact; [done..|]. by apply in_free_null_free.
Qed.

Lemma plain_list_exact cs es es' : map_outcome (map_subqueries f) es = Good es' ->
  forallb (fun e => expr_ok cs e && in_free e) es = true ->
  length es' = length es /\ forall scope env, map (fun e => value false e scope env) es' = map (fun e => value true e scope env) es.
Proof.
  intros Hm%map_outcome_good Hok. induction Hm as [|e e' es es' He _ IH]; [done|]. cbn [forallb] in Hok.
  apply andb_true_iff in Hok as [H1 H2]. destruct (IH H2) as [Hl Hv]. split; [cbn; by rewrite Hl|]. intros. cbn.
  by rewrite (plain_exact cs e e' He H1), Hv.
Qed.

Lemma filter_exact e i q p' : rewrite_filter e i = Good q -> map_parts f q = Good p' ->
  plan_well_made (LFilter e i) = true -> exact (LFilter e i) p'.
Proof.
  intros (e' & Hsp & -> & _)%rewrite_filter_good Hm Hp. cbn [plan_well_made map_parts] in *. apply andb_true_iff in Hp as [He Hi].
  inv_good. subst. destruct (Hf _ _ E0 Hi) as [Hcols Hrows]. split; [done|]. intros env. rewrite !rows_filter, Hcols, Hrows.
  apply List.filter_ext_in. intros r Hr%list_elem_of_In.
  rewrite (spine_kept f i r env Hf Hi Hr _ _ _ Hsp (nnf_ok _ _ _ He) E). by rewrite nnf_truth.
Qed.

Lemma agg_list_exact cs (aggs aggs' : list (string * list LogicalExpr)) :
  map_outcome (fun agg => args ← map_outcome (map_subqueries f) agg.2; Good (agg.1, args)) aggs = Good aggs' ->
  forallb (fun agg : string * list LogicalExpr => forallb (fun e => expr_ok cs e && in_free e) agg.2) aggs = true ->
  map fst aggs' = map fst aggs
  /\ forall scope env, map (fun agg => map (fun e => value false e scope env) agg.2) aggs'
                     = map (fun agg => map (fun e => value true e scope env) agg.2) aggs.
Proof.
  intros Hm%map_outcome_good Hok. induction Hm as [|a a' aggs aggs' Ha _ IH]; [done|]. cbn [forallb] in Hok.
  apply andb_true_iff in Hok as [H1 H2]. destruct (IH H2) as [Hl Hv]. inv_good. subst. split; [cbn; by rewrite Hl|].
  intros. cbn. rewrite Hv. by rewrite (proj2 (plain_list_exact cs _ _ E H1)).
Qed.

Lemma key_list_exact {K} cs (keys keys' : list (LogicalExpr * K)) :
  map_outcome (fun key => e ← map_subqueries f key.1; Good (e, key.2)) keys = Good keys' ->
  forallb (fun key : LogicalExpr * K => expr_ok cs key.1 && in_free key.1) keys = true ->
  map snd keys' = map snd keys
  /\ forall scope env, map (fun key => value false key.1 scope env) keys' = map (fun key => value true key.1 scope env) keys.
Proof.
  intros Hm%map_outcome_good Hok. induction Hm as [|k k' keys keys' Hk _ IH]; [done|]. cbn [forallb] in Hok.
  apply andb_true_iff in Hok as [H1 H2]. destruct (IH H2) as [Hl Hv]. inv_good. subst. split; [cbn; by rewrite Hl|].
  intros. cbn. rewrite Hv. by rewrite (plain_exact cs _ _ E H1).
Qed.

Lemma joined_ext {R} null (mark : bool -> R) on on' bw pw jt build probe : (forall a b, on a b = on' a b) ->
  joined null mark on bw pw jt build probe = joined null mark on' bw pw jt build probe.
Proof.
  intros Hon.
  assert (Hb : forall b, matches_some on b probe = matches_some on' b probe) by (intros; apply existsb_same; auto).
  assert (Hp : forall p, matched_by on build p = matched_by on' build p) by (intros; apply existsb_same; auto).
  assert (Hpairs : pairs on build probe = pairs on' build probe).
  { unfold pairs. f_equal. apply map_ext. intros p. f_equal. apply List.filter_ext. auto. }
  assert (Hub : unmatched_build on build probe = unmatched_build on' build probe).
  { apply List.filter_ext. intros b. by rewrite Hb. }
  assert (Hup : unmatched_probe on build probe = unmatched_probe on' build probe).
  { apply List.filter_ext. intros p. by rewrite Hp. }
  destruct jt; cbn [joined]; rewrite ?Hpairs, ?Hub, ?Hup; try done; try by apply List.filter_ext.
  apply map_ext. intros b. by rewrite Hb.
Qed.

Lemma pair_list_exact cs ds nulls (on on' : list (LogicalExpr * LogicalExpr)) :
  map_outcome (fun pair_ => a ← map_subqueries f pair_.1; b ← map_subqueries f pair_.2; Good (a, b)) on = Good on' ->
  forallb (fun pair_ : LogicalExpr * LogicalExpr =>
    expr_ok cs pair_.1 && in_free pair_.1 && expr_ok ds pair_.2 && in_free pair_.2) on = true ->
  forall a b env, forallb (fun pair_ => keys_match nulls (value false pair_.1 a env) (value false pair_.2 b env)) on'
                = forallb (fun pair_ => keys_match nulls (value true pair_.1 a env) (value true pair_.2 b env)) on.
Proof.
  intros Hm%map_outcome_good Hok a b env. induction Hm as [|p p' on on' Hk _ IH]; [done|]. cbn [forallb] in Hok.
  apply andb_true_iff in Hok as [H1 H2]. rewrite <- andb_assoc in H1. apply andb_true_iff in H1 as [Hl Hr]. inv_good. subst. cbn.
  by rewrite (IH H2), (plain_exact _ _ _ E Hl), (plain_exact _ _ _ E0 Hr).
Qed.

Lemma inputs_exact ps ps' : map_outcome f ps = Good ps' -> forallb plan_well_made ps = true ->
  map columns ps' = map columns ps /\ forall env, map (fun i => plan_rows false i env) ps' = map (fun i => plan_rows true i env) ps.
Proof.
  intros Hm%map_outcome_good Hok. induction Hm as [|i i' ps ps' Hi _ IH]; [done|]. cbn in Hok |- *.
  apply andb_true_iff in Hok as [H1 H2]. destruct (IH H2) as [-> Hr], (Hf _ _ Hi H1) as [-> Hr']. split; [done|].
  intros env. by rewrite Hr, Hr'.
Qed.

Lemma other_columns_same ps ps' : map columns ps' = map columns ps -> other_columns ps' = other_columns ps.
Proof. destruct ps as [|? [|]], ps' as [|? [|]]; cbn; congruence. Qed.

(** A node that is not a filter. *)
Lemma map_parts_exact p p' : map_parts f p = Good p' -> plan_well_made p = true ->
  (forall e i, p <> LFilter e i) -> exact p p'.
Proof.
  intros Hm Hp Hno. destruct p; cbn [map_parts plan_well_made] in *; inv_good; subst;
    repeat match goal with E : (_ && _) = true |- _ => apply andb_true_iff in E as [E ?] end.
  - done.
  - destruct (Hf _ _ E0) as [Hc Hr]; [done|]. split; [done|]. intros env. rewrite !rows_projection, Hc, Hr.
    apply map_ext. intros r. by apply (plain_list_exact (columns p)).
  - by edestruct Hno.
  - destruct (Hf _ _ E0) as [Hc Hr]; [done|]. split; [done|]. intros env. rewrite !rows_sort, Hc, Hr.
    destruct (key_list_exact (columns p) _ _ E) as [Hk Hv]; [done|]. rewrite Hk. do 2 f_equal. apply map_ext. intros r. by rewrite Hv.
  - destruct (Hf _ _ E) as [Hc Hr]; [done|]. split; [done|]. intros env.
    change (cut skip fetch (plan_rows false x env) = cut skip fetch (plan_rows true p env)). by rewrite Hr.
  - destruct (Hf _ _ E) as [Hc Hr]; [done|]. split; [done|]. exact Hr.
  - destruct (Hf _ _ E1) as [Hc1 Hr1]; [done|]. destruct (Hf _ _ E2) as [Hc2 Hr2]; [done|]. split; [done|].
    intros env. rewrite !rows_join, Hc1, Hc2, Hr1, Hr2. apply joined_ext. intros a b. unfold join_matches.
    rewrite (pair_list_exact (columns p1) (columns p2) _ _ _ E Hp). f_equal. destruct filter as [e|]; inv_good; subst; [|done].
    by erewrite plain_exact.
  - destruct (Hf _ _ E1) as [Hc Hr]; [done|]. split; [done|]. intros env. rewrite !rows_aggregate, Hc, Hr.
    destruct (plain_list_exact (columns p) _ _ E) as [Hlen Hg]; [done|].
    destruct (agg_list_exact (columns p) _ _ E0) as [Hn Ha]; [done|]. rewrite Hlen, Hn. f_equal. apply map_ext.
    intros r. by rewrite Hg, Ha.
  - destruct (plain_list_exact (other_columns inputs) _ _ E) as [_ Hv]; [done|]. destruct (inputs_exact _ _ E0) as [Hc Hr]; [done|].
    split; [done|]. intros env. rewrite !rows_other, Hr, (other_columns_same _ _ Hc), Hv. f_equal. apply map_ext. intros rows.
    apply map_ext. intros r. by rewrite Hv.
Qed.
End WalkExact.

Lemma rewrite_from_exact fuel : walk_exact (rewrite_from fuel).
Proof.
  induction fuel as [|fuel IH]; intros p p' Hp Hok; cbn [rewrite_from] in Hp; [done|]. inv_good.
  destruct p; cbn [rewrite_node] in E;
    try (injection E as <-; eapply map_parts_exact; [exact IH|exact Hp|exact Hok|done]).
  eapply filter_exact; [exact IH|exact E|exact Hp|exact Hok].
Qed.
End Facts.
