(* ===== verification/NotInTotal.v ===== *)
(** * The [NOT IN] rewrite ends

    Over footers that hold a chunk per column, and plans as DataFusion makes them, the analysis answers
    and the walk ends inside its fuel: so the rule refuses a plan or answers an exact one
    ([not_in_rewrite_is_exact]). *)
From stdpp Require Import strings.
From S2P Require Import Prelude Interval PlanIR PlanCommon Claims Joins JoinFacts Physical ScanMeta TransCommon TransSamples Logical NotIn LogicalSql LogicalSamples NotInFacts.
Open Scope nat_scope.

(** Every row group a footer lists has a chunk for each of the file's columns. *)
Definition footers_complete `{DataFusion} : Prop := forall path file, open_parquet path = Ok file ->
  Forall (fun g => length (chunks g) = length (file_columns file)) (row_groups file).

Section Total.
Context `{Api : LogicalApi, Q : Sql, D : DataFusion, L : !SqlLaws}.
Hypothesis complete : footers_complete.

(** A session runs the rule straight before the one that decorrelates subqueries, and leaves the others as they were. *)
Lemma session_rules_order rules rules' : session_rules rules = Some rules' ->
  exists pre post, rules = pre ++ DECORRELATE :: post /\ rules' = pre ++ NULL_AWARE_NOT_IN :: DECORRELATE :: post.
Proof.
  unfold session_rules. destruct (position _ rules) as [i|] eqn:Hp; [|done]. intros [= <-].
  apply position_Some in Hp as (rule & Hi & Hr%bool_decide_eq_true_1). subst rule. exists (take i rules), (drop (S i) rules).
  assert (Hd : drop i rules = DECORRELATE :: drop (S i) rules) by by apply drop_S. rewrite <- Hd. split; [|done]. by rewrite take_drop.
Qed.

(** ** The analysis answers *)
Lemma any_group_answers position groups : Forall (fun g => position < length (chunks g)) groups ->
  is_Some (any_group (chunk_may_hold_null position) groups).
Proof.
  induction 1 as [|g groups Hg _ IH]; [by eexists|]. apply lookup_lt_is_Some in Hg as [c Hc]. cbn [any_group].
  assert (Hat : chunk_may_hold_null position g = Some (nulls_possible (statistics c))) by (unfold chunk_may_hold_null; by rewrite Hc).
  rewrite Hat. cbn. destruct (nulls_possible _); [by eexists|exact IH].
Qed.

Lemma footer_answers path name : column_may_hold_null path name <> Ok None.
Proof.
  unfold column_may_hold_null. intros (file & Hf & H0)%bind_ok. apply bind_ok in H0 as (position & Hp & [= H0]).
  unfold open_file in Hf. destruct (open_parquet path) as [f|] eqn:Hopen; [|done]. injection Hf as ->.
  apply ok_or_ok in Hp. apply fmap_Some in Hp as ([j o] & Hp & ->). apply list_find_Some in Hp as (Hp & _).
  pose proof (complete _ _ Hopen) as Hall. destruct (any_group_answers j (row_groups file)) as [b Hb].
  - eapply Forall_impl; [exact Hall|]. cbn. intros g ->. by eapply lookup_lt_Some.
  - cbn in H0. congruence.
Qed.

Lemma any_file_answers paths name any : any_file paths name any <> Ok None.
Proof.
  revert any. induction paths as [|url paths IH]; intros any; cbn [any_file]; [done|].
  intros (path & _ & H0)%bind_ok. apply bind_ok in H0 as ([held|] & Hheld & H0); [by apply IH in H0|]. by apply footer_answers in Hheld.
Qed.

Lemma analysis_answers p : plan_well_made p = true -> forall c, is_Some (logical_can_be_null p c).
Proof.
  induction p; intros Hp c; cbn [plan_well_made logical_can_be_null] in *; try (by eexists);
    repeat match goal with E : (_ && _) = true |- _ => apply andb_true_iff in E as [E ?] end; auto.
  - destruct (scan_column_may_hold_null table_paths (cn_name c)) as [[held|]|] eqn:Hs; [by eexists| |by eexists].
    unfold scan_column_may_hold_null in Hs. apply bind_ok in Hs as (paths & _ & Hs). by apply any_file_answers in Hs.
  - destruct (index_of_column (columns_of schema) c) as [i|] eqn:Hi; [|by eexists]. apply found_in_range in Hi.
    rewrite columns_length in Hi. match goal with E : (_ =? _) = true |- _ => apply Nat.eqb_eq in E; rewrite <- E in Hi end.
    apply lookup_lt_is_Some in Hi as [e He]. rewrite He. cbn. destruct e as [| | |e a| | | | | | | |]; try (by eexists); auto.
    destruct e; try (by eexists); auto.
  - destruct (has_column _ _), (has_column _ _); try (by eexists); destruct (preserved_side _ _); try (by eexists); auto.
Qed.

(** ** The rule ends *)
Notation ended := (fun _ => True).

Lemma ends_any {A} (o : outcome A) P : ends o P -> ends o ended.
Proof. by destruct o. Qed.

Lemma ends_map_outcome {A B} (f : A -> outcome B) l : (forall x, x ∈ l -> ends (f x) ended) -> ends (map_outcome f l) ended.
Proof.
  induction l as [|x l IH]; intros Hf; cbn; [done|]. eapply ends_bind; [apply Hf, list_elem_of_here|]. intros y _.
  eapply ends_bind; [apply IH; intros; apply Hf; by apply list_elem_of_further|]. done.
Qed.

Lemma ends_after {A B} (o : outcome A) (k : A -> outcome B) : ends o ended -> (forall x, ends (k x) ended) -> ends (o ≫= k) ended.
Proof. intros Ho Hk. eapply ends_bind; [exact Ho|]. auto. Qed.

Lemma refused_ends {A} (r : result string A) : ends (refused r) ended.
Proof. unfold refused. eapply ends_any, ends_written. Qed.

Lemma may_meet_answers x s outer : plan_well_made outer = true -> subquery_ok s = true ->
  length (columns (subquery_plan s)) = 1 -> is_Some (in_subquery_may_meet_null x s outer).
Proof.
  intros Ho Hs Hone. rewrite subquery_ok_plan in Hs. unfold in_subquery_may_meet_null, first_column.
  assert (Hx : is_Some (match x with LColumn column => logical_can_be_null outer column | _ => Some true end)).
  { destruct x; try (by eexists). by apply analysis_answers. }
  destruct Hx as [b ->]. cbn. destruct (columns (subquery_plan s)) as [|y cs]; [done|]. cbn. destruct b; [by eexists|].
  by apply analysis_answers.
Qed.

Lemma refuse_ends outer e : plan_well_made outer = true -> expr_ok (columns outer) e = true ->
  ends (refuse_nullable_in_off_the_spine outer e) ended.
Proof.
  intros Ho. induction e using logical_expr_ind; cbn [expr_ok refuse_nullable_in_off_the_spine]; intros Hok; try done; auto;
    repeat match goal with E : (_ && _) = true |- _ => apply andb_true_iff in E as [E ?] end.
  - specialize (IHe1 Hok). destruct (refuse_nullable_in_off_the_spine outer e1) as [[]| | |]; auto.
  - destruct (may_meet_answers e s outer) as [[] ->]; [done|done|by apply Nat.eqb_eq|done|auto].
  - induction args as [|e args IH]; [done|]. apply Forall_cons in H as [H1 H2]. cbn [forallb] in Hok.
    apply andb_true_iff in Hok as [Hok1 Hok2]. specialize (H1 Hok1).
    destruct (refuse_nullable_in_off_the_spine outer e) as [[]| | |]; auto.
Qed.

Lemma to_outer_refs_ends outer x : ends (to_outer_refs outer x) ended.
Proof.
  induction x using logical_expr_ind; cbn [to_outer_refs]; try done;
    try (apply ends_after; [done|]; intros; done).
  - by destruct (_ ≫= _) as [[]|].
  - apply ends_after; [done|]. intros l. by apply ends_after.
  - apply ends_after; [|done]. apply ends_map_outcome. intros e He. rewrite Forall_forall in H. auto.
Qed.

Lemma not_exists_ends condition s : ends (not_exists condition s) ended.
Proof. unfold not_exists. apply ends_after; [apply refused_ends|done]. Qed.
Lemma count_ends s : ends (count_of s) ended.
Proof. unfold count_of. apply ends_after; [apply refused_ends|done]. Qed.

Lemma rewrite_not_in_ends x s outer : length (columns (subquery_plan s)) = 1 -> ends (rewrite_not_in x s outer) ended.
Proof.
  intros Hone. unfold rewrite_not_in. eapply after_expected.
  { unfold first_column. destruct (columns (subquery_plan s)); [done|]. by eexists. }
  intros y _. apply ends_after; [apply to_outer_refs_ends|]. intros ox.
  case_bool_decide; repeat (apply ends_after; [apply not_exists_ends || apply refused_ends || apply count_ends|]; intros ?); done.
Qed.

Lemma spine_ends outer e : plan_well_made outer = true -> expr_ok (columns outer) e = true -> ends (spine e outer) ended.
Proof.
  intros Ho. induction e using logical_expr_ind; intros Hok; cbn [spine];
    try (apply ends_after; [by apply refuse_ends|done]).
  - destruct op; try (apply ends_after; [by apply refuse_ends|done]); cbn [expr_ok] in Hok; apply andb_true_iff in Hok as [??];
      (apply ends_after; [auto|]; intros l; apply ends_after; [auto|]; done).
  - destruct n; [|done]. cbn [expr_ok] in Hok. repeat apply andb_true_iff in Hok as [Hok ?].
    match goal with E : (_ =? 1) = true |- _ => apply Nat.eqb_eq in E end.
    eapply after_expected; [by apply may_meet_answers|]. intros [] _; [|done]. apply ends_after; [by apply rewrite_not_in_ends|done].
Qed.

Lemma rewrite_filter_ends e i : plan_well_made (LFilter e i) = true -> ends (rewrite_filter e i) ended.
Proof.
  cbn [plan_well_made]. intros [He Hi]%andb_true_iff. unfold rewrite_filter.
  apply ends_after; [apply spine_ends; [done|by apply nnf_ok]|]. intros x. destruct (_ && _); [done|apply refused_ends].
Qed.

(** ** The walk ends inside its fuel *)
Section Walk.
Context (f : LogicalPlan -> outcome LogicalPlan) (fuel : nat).
Hypothesis f_ends : forall p, rewrite_fuel p <= fuel -> plan_well_made p = true -> ends (f p) ended.

Lemma map_subquery_ends s : subquery_fuel s <= fuel -> subquery_ok s = true -> ends (map_subquery f s) ended.
Proof. intros Hl Hs. unfold map_subquery. destruct s as [p refs]. apply ends_after; [|done]. by apply f_ends. Qed.

Lemma list_max_at {A} (g : A -> nat) l n x : list_max (map g l) <= n -> x ∈ l -> g x <= n.
Proof.
  intros Hl Hx. apply list_max_le in Hl. rewrite Forall_forall in Hl. apply Hl. apply elem_of_map. eauto.
Qed.

Lemma map_subqueries_ends cs e : expr_fuel e <= fuel -> expr_ok cs e = true -> ends (map_subqueries f e) ended.
Proof.
  induction e using logical_expr_ind; cbn [expr_fuel expr_ok map_subqueries]; intros Hl Hok; try done;
    repeat match goal with E : (_ && _) = true |- _ => apply andb_true_iff in E as [E ?] end;
    try (apply ends_after; [by auto|done]); try (apply ends_after; [by apply map_subquery_ends|done]).
  - apply ends_after; [apply IHe1; [lia|done]|]. intros l. apply ends_after; [apply IHe2; [lia|done]|done].
  - apply ends_after; [apply map_subquery_ends; [lia|done]|]. intros s'. apply ends_after; [apply IHe; [lia|done]|done].
  - apply ends_after; [|done]. apply ends_map_outcome. intros e He. rewrite Forall_forall in H. rewrite forallb_forall in Hok.
    apply H; [done|by eapply list_max_at|by apply Hok, list_elem_of_In].
Qed.

Lemma plain_list_ends cs es : list_max (map expr_fuel es) <= fuel -> forallb (fun e => expr_ok cs e && in_free e) es = true ->
  ends (map_outcome (map_subqueries f) es) ended.
Proof.
  intros Hl Hok. apply ends_map_outcome. intros e He. rewrite forallb_forall in Hok.
  apply (map_subqueries_ends cs); [by eapply list_max_at|]. apply list_elem_of_In, Hok, andb_true_iff in He as [? _]. done.
Qed.

Lemma map_parts_ends p : rewrite_fuel p <= S fuel -> plan_well_made p = true -> ends (map_parts f p) ended.
Proof.
  destruct p; cbn [rewrite_fuel plan_well_made map_parts]; intros Hl%le_S_n Hok; [done|..];
    repeat match goal with E : (_ && _) = true |- _ => apply andb_true_iff in E as [E ?] end.
  - apply ends_after; [eapply plain_list_ends; [lia|done]|]. intros. apply ends_after; [apply f_ends; [lia|done]|done].
  - apply ends_after; [eapply map_subqueries_ends; [lia|done]|]. intros. apply ends_after; [apply f_ends; [lia|done]|done].
  - apply ends_after.
    + apply ends_map_outcome. intros key Hkey. rewrite forallb_forall in Hok.
      pose proof (Hok key ltac:(by apply list_elem_of_In)) as [? _]%andb_true_iff.
      apply ends_after; [|done]. eapply map_subqueries_ends; [|done].
      apply (list_max_at (fun key : LogicalExpr * (bool * bool) => expr_fuel key.1) keys); [lia|done].
    + intros. apply ends_after; [apply f_ends; [lia|done]|done].
  - apply ends_after; [by apply f_ends|done].
  - apply ends_after; [by apply f_ends|done].
  - apply ends_after.
    + apply ends_map_outcome. intros pr Hpr. rewrite forallb_forall in Hok.
      pose proof (Hok pr ltac:(by apply list_elem_of_In)) as Hpair. repeat apply andb_true_iff in Hpair as [Hpair ?].
      pose proof (list_max_at (fun pair_ : LogicalExpr * LogicalExpr => Nat.max (expr_fuel pair_.1) (expr_fuel pair_.2)) on fuel pr ltac:(lia) Hpr) as Hmax. cbn beta in Hmax.
      apply ends_after; [eapply map_subqueries_ends; [lia|done]|]. intros. apply ends_after; [eapply map_subqueries_ends; [lia|done]|done].
    + intros. apply ends_after.
      { destruct filter; [|done]. match goal with E : (expr_ok _ _ && _) = true |- _ => apply andb_true_iff in E as [E ?] end.
        apply ends_after; [eapply map_subqueries_ends; [lia|done]|done]. }
      intros. apply ends_after; [apply f_ends; [lia|done]|]. intros. apply ends_after; [apply f_ends; [lia|done]|done].
  - apply ends_after; [eapply plain_list_ends; [lia|done]|]. intros. apply ends_after.
    + apply ends_map_outcome. intros agg Hagg.
      match goal with E : forallb (fun agg => forallb _ _) _ = true |- _ => rewrite forallb_forall in E;
        pose proof (E agg ltac:(by apply list_elem_of_In)) end.
      apply ends_after; [|done]. eapply plain_list_ends; [|done].
      apply (list_max_at (fun agg : string * list LogicalExpr => list_max (map expr_fuel agg.2)) aggr_expr); [lia|done].
    + intros. apply ends_after; [apply f_ends; [lia|done]|done].
  - apply ends_after; [eapply plain_list_ends; [lia|done]|]. intros. apply ends_after; [|done]. apply ends_map_outcome. intros i Hi.
    match goal with E : forallb plan_well_made _ = true |- _ => rewrite forallb_forall in E; pose proof (E i ltac:(by apply list_elem_of_In)) end.
    apply f_ends; [|done]. apply (list_max_at rewrite_fuel inputs); [lia|done].
Qed.
End Walk.

Lemma rewrite_from_ends fuel : forall p, rewrite_fuel p <= fuel -> plan_well_made p = true -> ends (rewrite_from fuel p) ended.
Proof.
  induction fuel as [|fuel IH]; intros p Hl Hp; [destruct p; cbn in Hl; lia|]. cbn [rewrite_from].
  destruct p; cbn [rewrite_node]; try exact (map_parts_ends _ fuel IH _ Hl Hp).
  pose proof (rewrite_filter_ends _ _ Hp) as Hend. destruct (rewrite_filter predicate p) as [q| | |] eqn:Hq; try done.
  apply rewrite_filter_good in Hq as (e' & _ & -> & Hok). change (ends (map_parts (rewrite_from fuel) (LFilter e'.1 p)) ended).
  cbn [plan_well_made] in Hp. apply andb_true_iff in Hp as [He Hi]. destruct (Hok He) as [Hok' Hf].
  apply (map_parts_ends _ fuel IH); [cbn [rewrite_fuel] in *; lia|cbn [plan_well_made]; by rewrite Hok', Hi].
Qed.

(** C7: Over footers that hold a chunk per column, and a plan as DataFusion makes them, the [NOT IN] rule
    neither panics nor runs on: it refuses the plan (an [IN] off the spine that can meet a NULL), or answers
    one of the same columns whose rows, under the two-valued joins DataFusion decorrelates its subqueries
    into, are the rows SQL's three-valued logic gives the plan it was handed, in every scope. *)
Theorem not_in_rewrite_is_exact p : plan_well_made p = true ->
  ends (null_aware_not_in p) (fun p' => columns p' = columns p /\ forall env, plan_rows false p' env = plan_rows true p env).
Proof.
  intros Hp. pose proof (rewrite_from_ends _ p (le_n _) Hp) as Hend. unfold null_aware_not_in.
  destruct (rewrite_from (rewrite_fuel p) p) as [p'| | |] eqn:Hr; try done. by apply (rewrite_from_exact _ _ _ Hr).
Qed.
End Total.

#[local] Existing Instance demo_session.

(** The anti join alone answers what SQL does not; the rewritten plan answers what it does. *)
Lemma not_in_rewrite_is_exact_witness :
  plan_rows false demo_not_in [] <> plan_rows true demo_not_in []
  /\ exists p', null_aware_not_in demo_not_in = Good p'
     /\ columns p' = columns demo_not_in /\ forall env, plan_rows false p' env = plan_rows true demo_not_in env.
Proof.
  split; [by vm_compute|].
  assert (Hfooters : footers_complete) by (intros path file [= <-]; repeat constructor).
  pose proof (not_in_rewrite_is_exact Hfooters demo_not_in eq_refl) as Hend.
  destruct (null_aware_not_in demo_not_in) as [p'|e| |] eqn:Hr; [by exists p'|by vm_compute in Hr|done|done].
Defined.
